(* ===== verification/_CoqProject ===== *)
-Q . S2P
Prelude.v
GoStrings.v
CommandPolicy.v
Alerts.v
AlertInstances.v
Incidents.v
InstanceStoreSpec.v
AlertEvaluator.v
Assets.v
Enrollment.v
AlertRules.v
AlertSweep.v
JobQueue.v
KeyedLock.v
LockedCalls.v
AgentLifecycle.v
AgentAdmission.v
Accounts.v
SignIn.v
RateLimit.v
ApiKeys.v
RequestAuth.v
Scrollback.v
Groups.v
AssetAccess.v
GoTime.v
Schedules.v
ScheduleStore.v
ScheduleRuns.v
ScheduleEvaluation.v
AlertTargets.v
AlertConditions.v
TelemetryStore.v
PowerControl.v
CorrelationPages.v
IncidentCorrelation.v
Maintenance.v
MaintenanceChecks.v
CollectorScope.v
ConnectorGuard.v
