(* ===== verification/Prelude.v ===== *)
(** * LabTether: a verification library of the hub's core logic

    LabTether is a hub (a Go server) that manages the machines of a small
    fleet: agents enroll and report, the hub evaluates alert rules over what they report, opens
    incidents, queues work for them and decides who may run which command where.  This
    library models the parts of the hub that decide, in the
    files below, and proves what they promise.

    ** Parts, and the files that model them

    - [Prelude]: results of Go functions, time, map iteration in an arbitrary
      order ([MapRange]), pages, the tactics [bool_prop] and [inv_ok], and the lemmas the parts share.
      [GoStrings]: the functions of Go's [strings] package that the hub uses, on bytes.
    - [CommandPolicy]: [internal/commandpolicy] and [internal/policy].  The
      parser of structured commands with its quoting, the normalised allow and
      block lists, interpreters and their arguments, and the evaluator that combines them.
    - [Alerts]: [internal/alerts].  Records, keywords, status transitions,
      durations at their width, firing scopes and fingerprints.
    - [AlertInstances]: the in-memory instance store
      ([internal/persistence/memory_alert_instance_store.go] and its companions).
    - [InstanceStoreSpec]: what that store promises to the evaluator, as the classes
      [InstanceStore] and [InstanceStoreSpec]; the in-memory store is an instance.
    - [AlertRules]: the in-memory rule store, its evaluation history, claims
      and pages ([memory_alert_store.go], [memory_alert_rule_timing.go],
      [memory_alert_rule_evaluation_page.go]).
    - [AlertSweep]: the ticks of the evaluator over those pages
      ([hubapi/alerting/alert_rule_evaluation_cursor.go]), as a step relation.
    - [AlertEvaluator]: what a tick does with one rule
      ([hubapi/alerting/alert_evaluator_instances.go], [alert_evaluation_timing.go],
      [maintenance_suppression.go], [alert_auto_incident.go]), against [InstanceStoreSpec].
    - [Incidents]: [internal/incidents] and the in-memory incident store.  [CorrelationPages]: the pages of evidence that the correlator reads
      ([persistence/memory_incident_correlation_pages.go], [internal/audit/correlation_page.go]).  [IncidentCorrelation]: the correlator
      ([hubapi/alerting/incident_correlation_cursor.go], [incident_correlator.go], [incident_correlation_scope.go]).
    - [Assets], [Enrollment]: the in-memory asset store with the verified identity of an
      agent, and the enrollment store with its transactions
      ([memory_enrollment_store.go], [memory_agent_enrollment_transactions.go]).
    - [JobQueue]: [internal/jobqueue], the queue table as its SQL
      statements change it, and a worker's handling of a claim.
    - [KeyedLock]: the lock by key of [internal/agentmgr/lifecycle.go] and
      [internal/auth/challenge.go], in its atomic steps.  [LockedCalls]: programs of atomic actions that run under
      such a lock, the machine that interleaves them, and the logic for them ([LockedSpec]).  [AgentLifecycle]: the
      connections of agents ([internal/agentmgr]), as an instance.  [AgentAdmission]: how many there may be.
    - [Accounts], [SignIn]: the accounts, sessions and challenges of [internal/auth] with the
      in-memory account store, and the handlers of [hubapi/auth] that sign in, set up, disable and replace
      the second factor and change passwords, each holding the lock of its user ([LockUser]).
    - [ApiKeys]: the scopes of API keys ([internal/apikeys]), their store and the handlers that manage them.
      [RateLimit]: the limiter of requests.  [RequestAuth]: who a request speaks for, the one-time tickets of streams
      and the routes closed to viewers ([cmd/labtether/request_auth_middleware.go], [stream_ticket_principal.go], [host_data_access_policy.go]).
    - [Scrollback]: the ring of terminal lines and its merge with a capture
      ([internal/terminal/scrollback.go], [scrollback_merge.go]).
    - [AlertTargets]: which assets a rule is about ([hubapi/alerting/alert_predicates.go], [alert_selector_values.go],
      [alert_capability_batches.go]).  [AlertConditions]: when the condition of a rule is triggered, and with which scope
      ([alert_evaluator_checks.go], [alert_evaluator_logs.go], [alert_condition_*.go]).
    - [TelemetryStore]: the in-memory store of metric samples that conditions read
      ([persistence/memory_telemetry_store.go], [memory_metric_query_context.go], [internal/telemetry/models.go]).
    - [PowerControl]: power actions: the coordinator with its requests in flight ([internal/powercontrol/coordinator.go]),
      the validation of what agents answer ([agentmgr/protocol_power_compat.go]) and the route ([cmd/labtether/power_actions.go]).
    - [Groups]: the group store, its tree and the handlers that change it ([internal/groups],
      [memory_group_store.go], [hubapi/resources/groups_handlers.go]).  [AssetAccess]: what the allow-list of a key opens
      ([hubapi/shared/asset_authorization.go]).
    - [Schedules]: [internal/schedules], their in-memory store and [hubapi/schedulespkg]: routes and authorization.
      [GoTime]: times as text.  [ScheduleStore]: the transactions of the database on schedules, their jobs and their runs
      ([persistence/postgres_schedules.go], [postgres_job_execution.go], [postgres_job_business.go], [postgres_scheduled_job_actions.go]).
      [ScheduleEvaluation]: a pass of the scheduler ([hubapi/schedulespkg/runtime.go]).
      [ScheduleRuns]: the worker that runs an occurrence ([hubapi/worker/schedule_job_handler.go]), and any number of
      hubs on one database.

    - [Maintenance]: the maintenance windows of groups, their routes, their evaluation for an asset and the guards of actions
      ([persistence/postgres_group_maintenance_store.go], [hubapi/groupfeatures/maintenance.go], [hubapi/maintenanceguard]).  [MaintenanceChecks]: the
      scheduled commands and alerts that they hold back.  [CollectorScope]: the ids of assets under a collector
      ([internal/assetid]).  [ConnectorGuard]: the owners of what a connector action changes
      ([hubapi/maintenanceguard/connector.go], [connector_targets.go], [connector_pbs_targets.go]).

    How they meet: a tick ([AlertSweep]) claims a rule ([AlertRules]) and
    evaluates it: the condition ([AlertConditions], over the assets of [AlertTargets], the samples of [TelemetryStore] and the firing instances of [AlertInstances])
    gives the scope with which the evaluator ([AlertEvaluator]) goes on; the evaluator reads and writes instances through
    [InstanceStoreSpec] ([AlertInstances] discharges it) and opens incidents ([Incidents]).
    The correlator ([IncidentCorrelation]) reads incidents, alert instances and assets ([Incidents], [AlertInstances], [Assets]).
    A request is admitted ([RequestAuth]) on a session ([Accounts]), a key ([ApiKeys]) or a ticket, within the rates of [RateLimit].
    An occurrence of a schedule ([ScheduleRuns]) goes through the queue ([JobQueue]); each of its commands passes the policy
    ([CommandPolicy]) and the authority of its creator ([Accounts], [ApiKeys]).
    A power action ([PowerControl]) passes the scope and the allow-list of its key ([ApiKeys]) before it is sent to an agent; whether its
    bucket is used up, and what the guard of [Maintenance] answers, are inputs of the action.
    The evaluation of [Maintenance] reads assets and groups ([Assets], [Groups], [AssetAccess]) and answers the check of a scheduled command
    ([ScheduleRuns]), the suppression of alerts ([AlertEvaluator]), put together in [MaintenanceChecks], and the check of a connector action ([ConnectorGuard]).
    Enrollment transactions ([Enrollment]) lock the group, asset and token stores together,
    so their state is one record with all three.

    ** Reading the model

    A store is a [Record] with the fields of its Go struct; an operation of it
    takes the clock, the fresh ids and the context as arguments and returns the new store with the result.  A mutex held for a whole
    operation, or a database transaction, makes the operation one step; concurrency is then any
    interleaving of steps.  It is a [foldl] over a list of operations in [Enrollment], a step relation
    with the set of issued ids in [AlertInstances], [AlertRules], [JobQueue] and [Incidents], and the interleaving of a tick
    with arbitrary changes of the stores in [AlertSweep].  Code that drops its mutex midway, as that of [AgentLifecycle], is a program of
    atomic actions, and a weakest precondition ([LockedCalls.wp]) reasons about one call while it holds its lock.  In [AlertEvaluator] a context may be cancelled between any two statements.
    Definitions carry the names of the source where they model a function;
    names in lower case are pieces of a function or row updates.

    Times are nanoseconds ([Z]); durations at the width of the code are wrapped with
    [wrap64] where they are multiplied.  Counters that the code never lets grow to the width of an [int] are plain [Z] or [N].
    Loops over a list or a map recurse on it, and loops over shrinking bytes recurse on their length; only the walks along parent pointers in [Groups] and up
    the path of a dataset in [ConnectorGuard] take fuel, and the theorems say how much is enough ([is_ancestor_spec] for any store, [group_tree_total] for one
    without a cycle, [dataset_chain_spec]).

    ** What the theorems show

    - commands: the parser inverts quoting and agrees with field splitting on unquoted input;
      an action is allowed exactly when every clause of the policy allows it;
    - alert data: normalisers are idempotent, durations never overflow, fingerprints
      depend injectively on rule and labels, scopes are sorted sets;
    - alert instances: the status machine over any run, immutability of the
      history, the exact effect of firing, listing and of the fingerprint history;
    - evaluation: every triggered evaluation refines an abstract firing
      specification; at most one open instance per fingerprint and firings a
      cooldown apart over any run; an unsuppressed rule does fire; recovery closes exactly the rule's open instances;
    - conditions: the targets of a rule are exactly the assets that it selects, however they are read; heartbeats, dead man's
      switches, thresholds and composites are triggered by exactly the assets and rules that meet them, or end with an error;
    - telemetry: an asset keeps its newest samples in any order of arrival, the history of the hub stays within its schema
      and its bounds, and the store keeps what the conditions ask of it, so a dead man's switch never misses a sample;
    - power: a request is answered as accepted only if its action was sent once and the connection of that very asset
      accepted it, every request ends and gives its place back, and each has one audit event;
    - scheduling of rules: claims are an interval apart, a page is exactly the next rules,
      a sweep starves no rule over any interruptions;
    - incidents: the lifecycle invariant, what history keeps, one automatic incident per instance; a finished sweep of the correlator has written
      all its evidence and nothing else, and no incident holds up another (with the window that the modelling found);
    - enrollment: who may enroll, with which token and how often; removed identities
      stay out; one active credential; revoked credentials stay revoked; two-phase
      approval; a verified identity is stable;
    - queue: claims are exclusive and fenced, deliveries are counted and bounded,
      dead letters are announced exactly once, finished rows are final, retries back off
      (with the overflow of the delay that the modelling found);
    - agents: the lock by key excludes, ends and leaks nothing; over any interleaving an asset goes through
      one automaton (handlers run only on the current connection, a replaced connection is cleaned up exactly
      once before the next is shown), calls are atomic for their asset and never deadlock, admission is exact;
    - sign-in: over any interleaving of the handlers, with stores that fail at any statement, a live session
      was made under the credential its user has now or by the change to it; accounts stay well formed; a password change
      is all or nothing up to the named faults;
    - requests: each is admitted on a credential that is good at that moment and for no more than it is worth; tickets
      open one stream once; keys are changed only by those who may, and a key that is gone stays out; the limiter
      gives each bucket its limit, whatever the others do;
    - terminal: the ring shows exactly the end of the stream that was written; a merge cuts the longest overlap;
    - groups: the tree is complete and its construction ends over any run of the checked operations; the
      ancestor test is the transitive closure; the unchecked update that makes a cycle is a finding;
      what a principal with an allow-list reaches is exactly the groups that lie within it;
    - schedules: a route changes only what its caller may reach; over any interleaving of hubs, edits, failures and recoveries a
      command of an occurrence is sent once, only while its creator may still run it and its schedule still runs it, and a
      schedule that waits has a job that will end the wait (with the stale edit that the modelling found); a pass of the
      scheduler serves every schedule that it looks at, and those are the hundred that are due first.
    - maintenance: an answer of the evaluation is exact, whatever fails; scheduled commands, alerts and connector actions are held back by
      every open window of every asset that they concern, up to fifty open windows of a group for the guards of actions (the fifty-first is the finding);
      windows are changed only by those who reach the whole group; ids under a collector read back.

    Theorems with hypotheses are followed by a witness, a closed instance of them at concrete data.

    ** Not modelled

    The HTTP handlers, the connectors to other products, desktop, terminal and file streaming, notification
    delivery, the storage of logs and of synthetic checks, the web console and the PostgreSQL versions of the
    stores (the in-memory versions implement the same interfaces) are mostly
    input and output around the parts above.  [rfc3339] parsing and formatting, SHA-256 and the
    container heap are arguments or are replaced by their documented contents.
    Of connectors only the ownership of their targets is modelled: the resolution of Proxmox destinations and the catalogs of actions are arguments.
    A data base statement that fails leaves no trace and is not a step, except in [SignIn], whose
    programs may meet a fault at each statement of the store, and the reads of [RequestAuth]; the demo mode's sessions, the exchange with an OIDC
    provider and the rate limits of the sign-in routes are left out.  A request is authenticated in one step, and the headers that
    Go's libraries parse (addresses, origins, cookies) are attributes of the request. PostgreSQL's rounding of times to
    microseconds is left out, and its text order is the order of bytes.

    ** Plan

    Next: the log and synthetic stores that the conditions read, runtime settings and retention,
    notification delivery, and topology. *)

From stdpp Require Export base tactics list option gmap strings sorting pretty.
From Stdlib Require Export ZArith Lia Ascii.
From Stdlib Require String.

#[global] Open Scope Z_scope.

(** ** Results of fallible Go functions

    A Go function returning [(T, error)] is a function into [result E T];
    [E] is the type of the errors the function can return. *)

Inductive result (E A : Type) : Type :=
| Ok (a : A)
| Err (e : E).
Arguments Ok {E A} _.
Arguments Err {E A} _.

#[global] Instance result_ret {E} : MRet (result E) := fun A => Ok.
#[global] Instance result_bind {E} : MBind (result E) := fun A B f r =>
  match r with Ok a => f a | Err e => Err e end.
#[global] Instance result_fmap {E} : FMap (result E) := fun A B f r =>
  match r with Ok a => Ok (f a) | Err e => Err e end.

#[global] Instance result_eq_dec {E A} `{EqDecision E, EqDecision A} :
  EqDecision (result E A).
Proof. solve_decision. Defined.

Definition is_ok {E A} (r : result E A) : bool :=
  match r with Ok _ => true | Err _ => false end.

(** [guard_err b e] is the Go early return [if b { return e }]. *)
Definition guard_err {E} (b : bool) (e : E) : result E unit :=
  if b then Err e else Ok tt.

(** A loop that returns at its first error. *)
Fixpoint fold_result {A B E} (f : B → A → result E B) (b : B) (l : list A) : result E B :=
  match l with [] => Ok b | x :: l => b ← f b x; fold_result f b l end.

Lemma bind_Ok {E A B} (r : result E A) (f : A → result E B) b :
  (r ≫= f) = Ok b → ∃ a, r = Ok a ∧ f a = Ok b.
Proof. destruct r; naive_solver. Qed.

Lemma bind_Err {E A B} (r : result E A) (f : A → result E B) e :
  (r ≫= f) = Err e → r = Err e ∨ ∃ a, r = Ok a ∧ f a = Err e.
Proof. destruct r; naive_solver. Qed.

Lemma guard_err_Ok {E} (b : bool) (e : E) u : guard_err b e = Ok u → b = false.
Proof. by destruct b. Qed.

(** ** Time

    A [time.Time] is its number of nanoseconds since the epoch, a
    [time.Duration] a number of nanoseconds, a [*time.Time] an option.  The
    zero [time.Time] of Go is year 1, which is [zero_time] here. *)

Abbreviation time := Z (only parsing).
Abbreviation duration := Z (only parsing).
Definition Second : Z := 1000000000.
Definition Minute : Z := 60 * Second.
Definition Hour : Z := 60 * Minute.
Definition zero_time : time := -62135596800 * Second.

(** ** Tactics shared by the components *)

(** Turn the boolean tests of the code into the propositions they decide. *)
Ltac bool_prop :=
  repeat match goal with
  | H : negb _ = true |- _ => apply negb_true_iff in H
  | H : negb _ = false |- _ => apply negb_false_iff in H
  | H : (_ && _) = true |- _ => apply andb_true_iff in H as [? ?]
  | H : (_ || _) = false |- _ => apply orb_false_iff in H as [? ?]
  | H : bool_decide _ = true |- _ => apply bool_decide_eq_true in H
  | H : bool_decide _ = false |- _ => apply bool_decide_eq_false in H
  | H : Z.ltb _ _ = true |- _ => apply Z.ltb_lt in H
  | H : Z.ltb _ _ = false |- _ => apply Z.ltb_ge in H
  | H : Z.leb _ _ = true |- _ => apply Z.leb_le in H
  | H : Z.leb _ _ = false |- _ => apply Z.leb_gt in H
  | H : Z.eqb _ _ = true |- _ => apply Z.eqb_eq in H
  | H : Z.eqb _ _ = false |- _ => apply Z.eqb_neq in H
  end.

(** Walk through the monadic binds and early returns of a handler that
    returned [Ok]. *)
Ltac inv_ok :=
  repeat match goal with
  | H : (_ ≫= _) = Ok _ |- _ => apply bind_Ok in H as (? & ? & H)
  | H : guard_err _ _ = Ok _ |- _ => apply guard_err_Ok in H
  | H : Ok _ = Ok _ |- _ => injection H as H; try subst
  | H : Err _ = Ok _ |- _ => discriminate H
  | H : Ok _ = Err _ |- _ => discriminate H
  | H : mret _ = Ok _ |- _ => injection H as H; try subst
  end.

(** Case on the scrutinee of the first conditional of a hypothesis. *)
Ltac case_if_in H :=
  match type of H with
  | context [if ?b then _ else _] =>
      let E := fresh "Hb" in destruct b eqn:E
  end.

(** ** The hint database of the library *)
Create HintDb labtether.
#[export] Hint Extern 1 (_ = _) => congruence : labtether.
#[export] Hint Extern 2 (_ <= _)%Z => lia : labtether.
#[export] Hint Extern 2 (_ < _)%Z => lia : labtether.

(** ** Generic lemmas on lists *)

Lemma filter_length_le {A} (P : A → Prop) `{!∀ x, Decision (P x)} (l : list A) :
  (length (filter P l) ≤ length l)%nat.
Proof. induction l; [done|]. rewrite filter_cons. case_decide; simpl; lia. Qed.

Lemma filter_sublist {A} (P : A → Prop) `{!∀ x, Decision (P x)} (l k : list A) :
  l `sublist_of` k → filter P l `sublist_of` filter P k.
Proof.
  induction 1 as [|x l k Hs IH|x l k Hs IH]; [done|..]; rewrite !filter_cons.
  - case_decide; [by constructor|done].
  - case_decide; [by constructor|done].
Qed.

Lemma filter_none {A} (P : A → Prop) `{!∀ x, Decision (P x)} (l : list A) :
  (∀ x, x ∈ l → ¬ P x) → filter P l = [].
Proof.
  induction l as [|x l IH]; intros Hn; [done|]. rewrite filter_cons_False by (apply Hn; by left).
  apply IH. intros y Hy. apply Hn. by right.
Qed.

Lemma filter_fmap_list {A B} (f : A → B) (P : B → Prop) `{!∀ x, Decision (P x)} (l : list A) :
  filter P (f <$> l) = f <$> filter (λ x, P (f x)) l.
Proof. induction l as [|x l IH]; [done|]. rewrite fmap_cons, !filter_cons. case_decide; csimpl; by rewrite IH. Qed.

Lemma StronglySorted_filter {A} (R : relation A) (P : A → Prop) `{!∀ x, Decision (P x)} (l : list A) :
  StronglySorted R l → StronglySorted R (filter P l).
Proof.
  induction 1 as [|x l Hs IH Hall]; [constructor|]. rewrite filter_cons. case_decide; [|done].
  constructor; [done|]. rewrite Forall_forall in *. intros y [_ Hy]%list_elem_of_filter. by apply Hall.
Qed.

Lemma elem_of_take_sub {A} n (l : list A) x : x ∈ take n l → x ∈ l.
Proof. intros (i & Hi & _)%elem_of_take. by eapply list_elem_of_lookup_2. Qed.

(** [find f l]: the first element a Go [for ... range] loop returns on. *)
Lemma find_Some_elem {A} (f : A → bool) l x :
  List.find f l = Some x → x ∈ l ∧ f x = true.
Proof. intros [H1 H2]%List.find_some. split; [by apply list_elem_of_In|done]. Qed.

Lemma find_None_elem {A} (f : A → bool) l :
  List.find f l = None ↔ ∀ x, x ∈ l → f x = false.
Proof.
  split.
  - intros H x Hx. eapply List.find_none in H; [done|by apply list_elem_of_In].
  - induction l as [|y l IH]; intros H; [done|]. simpl.
    rewrite (H y) by left. apply IH. intros x Hx. apply H. by right.
Qed.

Lemma existsb_elem {A} (f : A → bool) l :
  existsb f l = true ↔ ∃ x, x ∈ l ∧ f x = true.
Proof. rewrite existsb_exists. by setoid_rewrite list_elem_of_In. Qed.

Lemma existsb_false_elem {A} (f : A → bool) l :
  existsb f l = false ↔ ∀ x, x ∈ l → f x = false.
Proof.
  rewrite <-not_true_iff_false, existsb_elem. split.
  - intros H x Hx. apply not_true_iff_false. intros Hf. apply H. eauto.
  - intros H (x & Hx & Hf). by rewrite H in Hf.
Qed.

Lemma forallb_elem {A} (f : A → bool) l :
  forallb f l = true ↔ ∀ x, x ∈ l → f x = true.
Proof. rewrite forallb_forall. by setoid_rewrite list_elem_of_In. Qed.

(** ** Contexts and map iteration *)

(** What [ctx.Err()] returns during a call; [None] is a live context. *)
Inductive ctx_error := Canceled | DeadlineExceeded.
Abbreviation Ctx := (option ctx_error) (only parsing).
#[export] Instance ctx_error_eq_dec : EqDecision ctx_error.
Proof. solve_decision. Defined.

(** A Go [for k, v := range m] visits the entries of [m] in an order of the
    runtime's choice.  [range m] is that order; the development never uses
    more than [range_perm]. *)
Class MapRange := {
  range : ∀ {V : Type}, gmap string V → list (string * V);
  range_perm : ∀ V (m : gmap string V), range m ≡ₚ map_to_list m
}.

Definition range_in_key_order : MapRange := {|
  range := λ V m, map_to_list m; range_perm := λ V m, Permutation_refl _ |}.

Section map_range.
Context `{MapRange}.

Lemma elem_of_range {V} (m : gmap string V) k v : (k, v) ∈ range m ↔ m !! k = Some v.
Proof. by rewrite range_perm, elem_of_map_to_list. Qed.

Lemma length_range {V} (m : gmap string V) : length (range m) = size m.
Proof. rewrite range_perm. apply length_map_to_list. Qed.

Lemma NoDup_range {V} (m : gmap string V) : NoDup (range m).
Proof. rewrite range_perm. apply NoDup_map_to_list. Qed.

Lemma NoDup_fst_range {V} (m : gmap string V) : NoDup (range m).*1.
Proof. rewrite range_perm. apply NoDup_fst_map_to_list. Qed.

Lemma elem_of_range_values {V} (m : gmap string V) v :
  v ∈ (range m).*2 ↔ ∃ k, m !! k = Some v.
Proof.
  rewrite list_elem_of_fmap. setoid_rewrite <-elem_of_range. split.
  - intros ([k w] & -> & Hk). eauto.
  - intros [k Hk]. by exists (k, v).
Qed.

(** The first entry of [m] that passes the test [f] in the order of the loop. *)
Definition find_range {V} (f : string → V → bool) (m : gmap string V) : option (string * V) :=
  List.find (λ kv, f kv.1 kv.2) (range m).

Lemma find_range_Some {V} (f : string → V → bool) m k v :
  find_range f m = Some (k, v) → m !! k = Some v ∧ f k v = true.
Proof. intros [Hin Hf]%find_Some_elem. by apply elem_of_range in Hin. Qed.

Lemma find_range_None {V} (f : string → V → bool) m :
  find_range f m = None ↔ ∀ k v, m !! k = Some v → f k v = false.
Proof.
  unfold find_range. rewrite find_None_elem. split.
  - intros Hf k v Hk. by apply (Hf (k, v)), elem_of_range.
  - intros Hf [k v] Hk%elem_of_range. by apply Hf.
Qed.

(** The values that pass a test, in the order of the loop. *)
Definition select {V} (f : V → bool) (m : gmap string V) : list V :=
  List.filter f (range m).*2.

Lemma elem_of_select {V} (f : V → bool) m v :
  v ∈ select f m ↔ ∃ k, m !! k = Some v ∧ f v = true.
Proof.
  unfold select. rewrite list_elem_of_In, filter_In, <-list_elem_of_In, list_elem_of_fmap.
  setoid_rewrite <-elem_of_range. split.
  - intros [([k w] & -> & Hk) Hf]. eauto.
  - intros (k & Hk & Hf). split; [|done]. by exists (k, v).
Qed.
End map_range.

(** ** Pages

    The list operations clamp the limit and cut the page out of the sorted
    rows in the same way. *)
Definition clamp_limit (limit : Z) : Z :=
  if limit <=? 0 then 50 else if 500 <? limit then 500 else limit.

Definition page {A} (limit offset : Z) (l : list A) : list A :=
  take (Z.to_nat (clamp_limit limit))
       (if 0 <? offset then drop (Z.to_nat offset) l else l).

Lemma length_page {A} limit offset (l : list A) : (length (page limit offset l) ≤ 500)%nat.
Proof.
  unfold page, clamp_limit. rewrite length_take.
  destruct (limit <=? 0) eqn:?, (500 <? limit) eqn:?; bool_prop; lia.
Qed.

Lemma page_sub {A} limit offset (l : list A) x : x ∈ page limit offset l → x ∈ l.
Proof.
  unfold page. intros H%elem_of_take. destruct H as (i & H & _).
  apply list_elem_of_lookup_2 in H. case_match; [|done].
  by apply list_elem_of_lookup in H as [j H]; rewrite lookup_drop in H;
    eapply list_elem_of_lookup_2.
Qed.

Lemma clamp_limit_bounds limit : 1 ≤ clamp_limit limit ≤ 500.
Proof.
  unfold clamp_limit. destruct (limit <=? 0) eqn:?, (500 <? limit) eqn:?; bool_prop; lia.
Qed.

Lemma drop_neg_offset {A} offset (l : list A) :
  drop (Z.to_nat offset) l = if 0 <? offset then drop (Z.to_nat offset) l else l.
Proof. destruct (0 <? offset) eqn:?; bool_prop; [done|]. by rewrite Z2Nat.nonpos. Qed.

(** ** Counting the values of a map *)

Definition count_where {A} (P : A → Prop) `{!∀ x, Decision (P x)} `{Countable K} (m : gmap K A) : Z :=
  Z.of_nat (size (filter (λ kx, P kx.2) m)).

Section count_where.
Context {A} (P : A → Prop) `{!∀ x, Decision (P x)} `{Countable K}.
Implicit Types (m : gmap K A) (k : K).

Lemma count_where_insert m k x :
  m !! k = None → count_where P (<[k := x]> m) = count_where P m + (if decide (P x) then 1 else 0).
Proof.
  intros Hk. unfold count_where. rewrite map_filter_insert. simpl. case_decide.
  - rewrite map_size_insert_None; [lia|]. apply map_lookup_filter_None. by left.
  - rewrite delete_id by done. lia.
Qed.

Lemma count_where_delete m k x :
  m !! k = Some x → count_where P (delete k m) = count_where P m - (if decide (P x) then 1 else 0).
Proof.
  intros Hk. assert (Hins : m = <[k := x]> (delete k m)) by by rewrite insert_delete_id.
  rewrite Hins at 2. rewrite count_where_insert by apply lookup_delete_eq. lia.
Qed.

Lemma count_where_replace m k x y :
  m !! k = Some x →
  count_where P (<[k := y]> m) =
    count_where P m - (if decide (P x) then 1 else 0) + (if decide (P y) then 1 else 0).
Proof.
  intros Hk. rewrite <-insert_delete_eq, count_where_insert by apply lookup_delete_eq.
  by rewrite (count_where_delete m k x).
Qed.

Lemma count_where_pos m k x : m !! k = Some x → P x → 0 < count_where P m.
Proof.
  intros Hk Hx. pose proof (count_where_delete m k x Hk) as Hd. rewrite decide_True in Hd by done.
  unfold count_where in *. lia.
Qed.

Lemma count_where_zero m : (∀ k x, m !! k = Some x → ¬ P x) → count_where P m = 0.
Proof.
  intros Hn. unfold count_where. assert (filter (λ kx, P kx.2) m = ∅) as ->; [|done].
  apply map_empty. intros k. apply map_lookup_filter_None. right. intros x Hx. simpl. by apply (Hn k).
Qed.

Lemma count_where_nonneg m : 0 ≤ count_where P m.
Proof. unfold count_where. lia. Qed.
End count_where.
