(* ===== verification/GoStrings.v ===== *)
(** * The operations of Go's [strings] package that the hub uses

    A Go [string] is its sequence of bytes, a Rocq [string].  [trim_space]
    removes the Unicode white space of Go's [unicode.IsSpace], in its UTF-8
    encoding, from both ends: it agrees with [strings.TrimSpace] on every byte
    sequence.  [to_lower] lowers the ASCII letters and the two other runes
    whose lower case is an ASCII letter (U+0130 and U+212A), [fold] does the
    same for [strings.EqualFold] (U+212A and U+017F); both leave the other
    non-ASCII bytes alone.  The code compares their results with ASCII
    keywords only, where a non-ASCII byte never matches either way. *)

From S2P Require Import Prelude.

#[local] Open Scope string_scope.

(** ** White space *)

Definition byte_of (c : ascii) : N := N_of_ascii c.

Definition is_ascii_space (c : ascii) : bool :=
  let n := byte_of c in ((9 <=? n) && (n <=? 13) || (n =? 32))%N.

(** UTF-8 encodings of the white space runes of more than one byte: U+0085,
    U+00A0, then U+1680, U+2000 to U+200A, U+2028, U+2029, U+202F, U+205F and
    U+3000. *)
Definition is_space2 (a b : ascii) : bool :=
  (byte_of a =? 194)%N && ((byte_of b =? 133) || (byte_of b =? 160))%N.

Definition is_space3 (a b c : ascii) : bool :=
  let x := byte_of a in let y := byte_of b in let z := byte_of c in
  ((x =? 225) && (y =? 154) && (z =? 128)
   || (x =? 226) && (y =? 128) &&
        ((128 <=? z) && (z <=? 138) || (z =? 168) || (z =? 169) || (z =? 175))
   || (x =? 226) && (y =? 129) && (z =? 159)
   || (x =? 227) && (y =? 128) && (z =? 128))%N.

(** [strings.TrimLeftFunc(s, unicode.IsSpace)] on the bytes of [s]; [sp2] and
    [sp3] say which sequences of two and three bytes are white space, in the
    order in which they are met. *)
Fixpoint strip (sp2 : ascii → ascii → bool) (sp3 : ascii → ascii → ascii → bool)
    (l : list ascii) : list ascii :=
  match l with
  | [] => []
  | a :: l1 =>
      if is_ascii_space a then strip sp2 sp3 l1 else
      match l1 with
      | [] => l
      | b :: l2 =>
          if sp2 a b then strip sp2 sp3 l2 else
          match l2 with
          | [] => l
          | c :: l3 => if sp3 a b c then strip sp2 sp3 l3 else l
          end
      end
  end.

Definition trim_left_l : list ascii → list ascii := strip is_space2 is_space3.
Definition trim_right_l (l : list ascii) : list ascii :=
  rev (strip (fun b a => is_space2 a b) (fun c b a => is_space3 a b c) (rev l)).

Abbreviation chars := String.list_ascii_of_string.
Abbreviation of_chars := String.string_of_list_ascii.

(** [strings.TrimSpace] *)
Definition trim_space (s : string) : string :=
  of_chars (trim_right_l (trim_left_l (chars s))).

(** ** Case *)

Definition lower_ascii (c : ascii) : ascii :=
  let n := byte_of c in
  if ((65 <=? n) && (n <=? 90))%N then ascii_of_N (n + 32) else c.

Fixpoint lower_l (l : list ascii) : list ascii :=
  match l with
  | a :: ((b :: l2) as l1) =>
      if ((byte_of a =? 196) && (byte_of b =? 176))%N
      then "i"%char :: lower_l l2 else
      match l2 with
      | c :: l3 =>
          if ((byte_of a =? 226) && (byte_of b =? 132) && (byte_of c =? 170))%N
          then "k"%char :: lower_l l3 else lower_ascii a :: lower_l l1
      | [] => lower_ascii a :: lower_l l1
      end
  | a :: l1 => lower_ascii a :: lower_l l1
  | [] => []
  end.

(** [strings.ToLower], as a key to compare with ASCII keywords *)
Definition to_lower (s : string) : string := of_chars (lower_l (chars s)).

Fixpoint fold_l (l : list ascii) : list ascii :=
  match l with
  | a :: ((b :: l2) as l1) =>
      if ((byte_of a =? 197) && (byte_of b =? 191))%N
      then "s"%char :: fold_l l2 else
      match l2 with
      | c :: l3 =>
          if ((byte_of a =? 226) && (byte_of b =? 132) && (byte_of c =? 170))%N
          then "k"%char :: fold_l l3 else lower_ascii a :: fold_l l1
      | [] => lower_ascii a :: fold_l l1
      end
  | a :: l1 => lower_ascii a :: fold_l l1
  | [] => []
  end.

Definition fold_case (s : string) : string := of_chars (fold_l (chars s)).

(** [strings.EqualFold], where one side is an ASCII keyword *)
Definition equal_fold (a b : string) : bool :=
  bool_decide (fold_case a = fold_case b).

(** ** Searching *)

Fixpoint has_prefix (s p : string) {struct p} : bool :=
  match p, s with
  | EmptyString, _ => true
  | String a p', String b s' => bool_decide (a = b) && has_prefix s' p'
  | String _ _, EmptyString => false
  end.

(** [strings.TrimPrefix] *)
Fixpoint trim_prefix (s p : string) {struct p} : string :=
  match p, s with
  | EmptyString, _ => s
  | String a p', String b s' => if has_prefix s p then trim_prefix s' p' else s
  | String _ _, EmptyString => s
  end.

(** [strings.HasSuffix] and [strings.TrimSuffix] *)
Definition has_suffix (s p : string) : bool := has_prefix (of_chars (rev (chars s))) (of_chars (rev (chars p))).
Definition trim_suffix (s p : string) : string :=
  if has_suffix s p then of_chars (take (String.length s - String.length p) (chars s)) else s.

(** What is before and after the first [c]: [strings.SplitN(s, string(c), 2)], [strings.Cut]. *)
Fixpoint cut_at (c : ascii) (s : list ascii) : option (list ascii * list ascii) :=
  match s with
  | [] => None
  | x :: s =>
      if decide (x = c) then Some ([], s)
      else match cut_at c s with Some (a, b) => Some (x :: a, b) | None => None end
  end.

(** [strings.Split(s, string(c))] *)
Fixpoint split_chars (c : ascii) (s : list ascii) : list (list ascii) :=
  match s with
  | [] => [[]]
  | x :: s =>
      if decide (x = c) then [] :: split_chars c s
      else match split_chars c s with p :: ps => (x :: p) :: ps | [] => [[x]] end
  end.
Definition split_on (c : ascii) (s : string) : list string := of_chars <$> split_chars c (chars s).

(** [strings.Contains(s, string(c))] *)
Definition contains_char (s : string) (c : ascii) : bool :=
  existsb (fun x => bool_decide (x = c)) (chars s).

(** The Go test [s == ""] *)
Abbreviation is_empty s := (bool_decide (s = "")).

(** The idiom [if x := strings.TrimSpace(v); x == "" { x = d }]. *)
Definition default_str (s d : string) : string := if is_empty s then d else s.

(** ** Keywords

    The [Normalize...] functions of the hub all switch on
    [strings.ToLower(strings.TrimSpace(value))] and return the keyword that
    matches, or the empty string. *)
Definition keyword (ks : list string) (value : string) : string :=
  let k := to_lower (trim_space value) in
  if bool_decide (k ∈ ks) then k else "".

(** ** Facts *)

Section strip.
Context (sp2 : ascii → ascii → bool) (sp3 : ascii → ascii → ascii → bool).

(** [l] does not begin with a white space rune. *)
Definition lead_ok (l : list ascii) : bool :=
  match l with
  | [] => true
  | a :: l1 => negb (is_ascii_space a) &&
      match l1 with
      | [] => true
      | b :: l2 => negb (sp2 a b) &&
          match l2 with [] => true | c :: _ => negb (sp3 a b c) end
      end
  end.

Lemma strip_ok l : lead_ok l = true → strip sp2 sp3 l = l.
Proof.
  destruct l as [|a [|b [|c l]]]; cbn; [done|..];
    repeat (case_match; cbn; try done).
Qed.

(** [strip l] is a suffix of [l] that does not begin with white space. *)
Lemma strip_spec l : lead_ok (strip sp2 sp3 l) = true ∧ strip sp2 sp3 l `suffix_of` l.
Proof.
  remember (length l) as n eqn:Hn. revert l Hn.
  induction (lt_wf n) as [n _ IH]. intros l ->.
  assert (IH' : ∀ l' (k : list ascii), l = (k ++ l')%list → k ≠ [] →
    lead_ok (strip sp2 sp3 l') = true ∧ strip sp2 sp3 l' `suffix_of` l).
  { intros l' k -> Hk. destruct (IH (length l')) with l' as [H1 H2]; [|done|].
    - rewrite length_app. destruct k; [done|]. simpl. lia.
    - split; [done|]. by apply suffix_app_r. }
  destruct l as [|a l1]; [done|]. cbn.
  destruct (is_ascii_space a) eqn:Ea; [by apply (IH' l1 [a])|].
  destruct l1 as [|b l2]; [by cbn; rewrite Ea|].
  destruct (sp2 a b) eqn:Eb; [by apply (IH' l2 [a; b])|].
  destruct l2 as [|c l3]; [by cbn; rewrite Ea, Eb|].
  destruct (sp3 a b c) eqn:Ec; [by apply (IH' l3 [a; b; c])|].
  cbn. by rewrite Ea, Eb, Ec.
Qed.

Lemma lead_ok_prefix k l : lead_ok (k ++ l)%list = true → lead_ok k = true.
Proof.
  destruct k as [|a [|b [|c k]]]; cbn; [done|..]; rewrite ?andb_true_iff; tauto.
Qed.
End strip.

Lemma trim_right_prefix l : trim_right_l l `prefix_of` l.
Proof.
  unfold trim_right_l. destruct (strip_spec (λ b a, is_space2 a b)
    (λ c b a, is_space3 a b c) (rev l)) as [_ [k Hk]].
  exists (rev k). by rewrite <-rev_app_distr, <-Hk, rev_involutive.
Qed.

Lemma trim_space_idemp s : trim_space (trim_space s) = trim_space s.
Proof.
  unfold trim_space. rewrite String.list_ascii_of_string_of_list_ascii. f_equal.
  unfold trim_left_l at 1.
  destruct (strip_spec is_space2 is_space3 (chars s)) as [Hok _].
  destruct (trim_right_prefix (trim_left_l (chars s))) as [k Hk].
  rewrite (strip_ok _ _ (trim_right_l _)).
  - unfold trim_right_l. rewrite rev_involutive. f_equal. apply strip_ok, strip_spec.
  - apply (lead_ok_prefix _ _ _ k). by rewrite <-Hk.
Qed.

(** A string without white space at its ends is its own trimmed form. *)
Lemma trim_space_id s :
  lead_ok is_space2 is_space3 (chars s) = true →
  lead_ok (λ b a, is_space2 a b) (λ c b a, is_space3 a b c) (rev (chars s)) = true →
  trim_space s = s.
Proof.
  intros Hl Hr. unfold trim_space, trim_left_l, trim_right_l.
  rewrite (strip_ok is_space2 is_space3 (chars s)) by done.
  rewrite strip_ok by done. rewrite rev_involutive.
  apply String.string_of_list_ascii_of_string.
Qed.

(** Trimming keeps the first byte of a string that does not begin with white space. *)
Lemma trim_space_head c s d t :
  lead_ok is_space2 is_space3 (chars (String c s)) = true → trim_space (String c s) = String d t → d = c.
Proof.
  intros Hl Ht. unfold trim_space, trim_left_l in Ht. rewrite (strip_ok is_space2 is_space3 _ Hl) in Ht.
  destruct (trim_right_prefix (chars (String c s))) as [k Hk]. destruct (trim_right_l _) as [|x l]; [done|].
  simpl in *. by injection Hk as -> _; injection Ht as -> _.
Qed.

(** A supply of distinct trimmed names, for the examples. *)
Definition demo_name (k : nat) : string := of_chars (replicate (S k) "a"%char).

Lemma chars_demo_name k : chars (demo_name k) = replicate (S k) "a"%char.
Proof. apply String.list_ascii_of_string_of_list_ascii. Qed.

Lemma demo_name_trimmed k : trim_space (demo_name k) = demo_name k.
Proof.
  apply trim_space_id; rewrite chars_demo_name.
  - destruct k as [|[|k]]; reflexivity.
  - replace (rev (replicate (S k) "a"%char)) with (replicate (S k) "a"%char).
    + destruct k as [|[|k]]; reflexivity.
    + symmetry. rewrite rev_alt. apply reverse_replicate.
Qed.

Lemma demo_name_inj j k : demo_name j = demo_name k → j = k.
Proof.
  intros H%(f_equal chars). rewrite !chars_demo_name in H.
  apply (f_equal length) in H. rewrite !length_replicate in H. by injection H.
Qed.

Lemma has_prefix_spec s p : has_prefix s p = true ↔ ∃ r, s = String.append p r.
Proof.
  revert s. induction p as [|a p IH]; intros s; cbn.
  - split; [by exists s|done].
  - destruct s as [|b s]; [split; [done|by intros [r ?]]|]. rewrite andb_true_iff, IH.
    rewrite bool_decide_eq_true. split.
    + intros (-> & r & ->). by exists r.
    + intros (r & [= -> ->]). eauto.
Qed.

#[local] Open Scope list_scope.

Lemma chars_append s t : chars (String.append s t) = chars s ++ chars t.
Proof. induction s as [|c s IH]; [done|]. simpl. by rewrite IH. Qed.

Lemma of_chars_chars s : of_chars (chars s) = s.
Proof. apply String.string_of_list_ascii_of_string. Qed.

Lemma chars_of_chars l : chars (of_chars l) = l.
Proof. apply String.list_ascii_of_string_of_list_ascii. Qed.

Lemma of_chars_app l k : of_chars (l ++ k) = String.append (of_chars l) (of_chars k).
Proof. induction l as [|c l IH]; [done|]. simpl. by rewrite IH. Qed.

Lemma chars_inj s t : chars s = chars t → s = t.
Proof. intros H. by rewrite <-(of_chars_chars s), H, of_chars_chars. Qed.

Lemma length_chars s : length (chars s) = String.length s.
Proof. induction s as [|c s IH]; simpl; [done|]. by rewrite IH. Qed.

Lemma has_suffix_spec s p : has_suffix s p = true ↔ ∃ q, s = String.append q p.
Proof.
  unfold has_suffix. rewrite has_prefix_spec. split.
  - intros [r Hr]. exists (of_chars (rev (chars r))). apply chars_inj. rewrite chars_append, chars_of_chars.
    apply (f_equal chars) in Hr. rewrite chars_append, !chars_of_chars in Hr. apply (f_equal (@rev ascii)) in Hr.
    by rewrite rev_app_distr, !rev_involutive in Hr.
  - intros [q ->]. exists (of_chars (rev (chars q))). apply chars_inj.
    rewrite (chars_append (of_chars _)), !chars_of_chars, chars_append. apply rev_app_distr.
Qed.

Lemma trim_suffix_append q p : trim_suffix (String.append q p) p = q.
Proof.
  unfold trim_suffix. rewrite (proj2 (has_suffix_spec _ p)) by eauto. apply chars_inj.
  rewrite chars_of_chars, <-!length_chars, chars_append, length_app. apply take_app_length'. lia.
Qed.

Lemma trim_prefix_append p r : trim_prefix (String.append p r) p = r.
Proof.
  induction p as [|c p IH]; [by destruct r|]. change (trim_prefix (String.append (String c p) r) (String c p)) with
    (if has_prefix (String.append (String c p) r) (String c p) then trim_prefix (String.append p r) p else String.append (String c p) r).
  rewrite (proj2 (has_prefix_spec _ _)) by eauto. done.
Qed.

Lemma cut_at_some c l a b : cut_at c l = Some (a, b) ↔ l = a ++ c :: b ∧ c ∉ a.
Proof.
  revert a b. induction l as [|x l IH]; intros a b; simpl; [split; [done|by intros [?%app_cons_not_nil _]]|].
  case_decide as Hx.
  - subst x. split; [intros [= <- <-]; split; [done|apply not_elem_of_nil]|]. intros [Hl Ha].
    destruct a as [|y a]; simplify_eq/=; [done|]. destruct Ha. by left.
  - destruct (cut_at c l) as [[a' b']|] eqn:Hc.
    + destruct (proj1 (IH a' b') eq_refl) as [-> Hn]. split.
      * intros [= <- <-]. split; [done|]. rewrite not_elem_of_cons. auto.
      * intros [Hl Ha]. destruct a as [|y a]; simplify_eq/=. apply not_elem_of_cons in Ha as [_ Ha].
        assert (Some (a', b') = Some (a, b)) as [= -> ->]; [by apply IH|done].
    + split; [done|]. intros [Hl Ha]. destruct a as [|y a]; simplify_eq/=. apply not_elem_of_cons in Ha as [_ Ha].
      by assert (None = Some (a, b)) by (by apply IH).
Qed.

Lemma cut_at_none c l : cut_at c l = None ↔ c ∉ l.
Proof.
  split.
  - intros Hn [a [b Hl]]%list_elem_of_split. revert a b Hl. induction l as [|x l IH]; intros a b Hl; [by destruct a|]. simpl in Hn.
    case_decide as Hx; [done|]. destruct (cut_at c l) as [[]|]; [done|]. destruct a as [|y a]; simplify_eq/=. by eapply IH.
  - intros Hn. destruct (cut_at c l) as [[a b]|] eqn:Hc; [|done]. apply cut_at_some in Hc as [-> _]. set_solver.
Qed.

Lemma contains_char_spec s c : contains_char s c = true ↔ c ∈ chars s.
Proof.
  unfold contains_char. rewrite existsb_elem. split.
  - by intros (x & Hx & ->%bool_decide_eq_true).
  - intros H. exists c. by rewrite bool_decide_eq_true.
Qed.

Lemma keyword_cases ks v : keyword ks v ∈ ks ∨ keyword ks v = "".
Proof. unfold keyword. case_bool_decide; auto. Qed.

(** Keywords that are their own lower-case, trimmed form. *)
Definition clean (k : string) : bool := bool_decide (to_lower (trim_space k) = k).

Lemma keyword_clean ks k : clean k = true → k ∈ ks → keyword ks k = k.
Proof.
  unfold clean, keyword. intros ->%bool_decide_eq_true Hk.
  by rewrite bool_decide_eq_true_2.
Qed.

Lemma keyword_nil ks : keyword ks "" = "".
Proof. unfold keyword. by case_bool_decide. Qed.

(** A normaliser is idempotent as soon as its keywords are clean. *)
Lemma keyword_idemp ks v :
  forallb clean ks = true → keyword ks (keyword ks v) = keyword ks v.
Proof.
  rewrite forallb_elem. intros Hc. destruct (keyword_cases ks v) as [Hin| ->].
  - apply keyword_clean; auto.
  - apply keyword_nil.
Qed.

Lemma equal_fold_refl s : equal_fold s s = true.
Proof. by apply bool_decide_eq_true. Qed.

(** ** Order

    Go compares strings byte by byte: [a <= b] is [String.leb a b]. *)
Definition str_lt (a b : string) : bool := negb (String.leb b a).

Lemma str_lt_iff a b : str_lt a b = true ↔ String.le a b ∧ a ≠ b.
Proof.
  unfold str_lt. rewrite negb_true_iff. split.
  - intros Hb. assert (¬ String.le b a) as Hn by (unfold String.le; rewrite Hb; exact (λ f, f)).
    destruct (total String.le a b) as [Hle|Hle]; [|done]. split; [done|]. intros Heq. subst. done.
  - intros [Hab Hne]. apply not_true_iff_false. intros Hba. apply Hne.
    apply (anti_symm String.le); [done|]. unfold String.le. by rewrite Hba.
Qed.

Lemma str_leb_iff a b : String.leb a b = true ↔ String.le a b.
Proof. unfold String.le. destruct (String.leb a b); split; done. Qed.

Lemma str_lt_false a b : str_lt a b = false ↔ String.le b a.
Proof. unfold str_lt. by rewrite negb_false_iff, str_leb_iff. Qed.

Lemma str_lt_trans a b c : str_lt a b = true → str_lt b c = true → str_lt a c = true.
Proof.
  rewrite !str_lt_iff. intros [H1 Hn1] [H2 Hn2]. split; [by etrans|]. intros <-.
  apply Hn1. by apply (anti_symm String.le).
Qed.

Lemma str_lt_irrefl a : str_lt a a = false.
Proof. by apply str_lt_false. Qed.

Lemma str_lt_le_trans a b c : str_lt a b = true → String.le b c → str_lt a c = true.
Proof.
  rewrite !str_lt_iff. intros [H1 Hn1] H2. split; [by etrans|]. intros <-.
  apply Hn1. by apply (anti_symm String.le).
Qed.

Lemma str_le_lt_trans a b c : String.le a b → str_lt b c = true → str_lt a c = true.
Proof.
  rewrite !str_lt_iff. intros H1 [H2 Hn2]. split; [by etrans|]. intros <-.
  apply Hn2. by apply (anti_symm String.le).
Qed.

Lemma str_lt_total a b : a ≠ b → str_lt a b = true ∨ str_lt b a = true.
Proof. rewrite !str_lt_iff. intros Hne. destruct (total String.le a b); auto. Qed.

Lemma str_empty_le a : String.le "" a.
Proof. apply str_leb_iff. by destruct a. Qed.

#[export] Hint Rewrite trim_space_idemp : labtether.
#[export] Hint Resolve equal_fold_refl : labtether.
