(* ===== verification/CommandPolicy.v ===== *)
(** * The structured command language and its policy

    [internal/commandpolicy/command.go] and [internal/policy/policy.go].
    A command is valid UTF-8 text and the code walks its runes, so a Go string
    is a [text], the list of its code points.  Case conversion is that of
    ASCII and of the runes with an ASCII image (U+0130, U+017F, U+212A);
    other letters keep their case. *)

From S2P Require Import Prelude GoStrings.

Abbreviation rune := Z (only parsing).
Abbreviation text := (list Z) (only parsing).

(** ASCII text as runes. *)
Definition txt (s : string) : text := (λ c, Z.of_N (N_of_ascii c)) <$> chars s.

(** ** Runes *)

(** [unicode.IsControl] *)
Definition is_control (r : rune) : bool :=
  (0 <=? r) && (r <=? 31) || (127 <=? r) && (r <=? 159).

(** [unicode.IsSpace] *)
Definition is_space (r : rune) : bool :=
  (9 <=? r) && (r <=? 13) || (r =? 32) || (r =? 133) || (r =? 160)
  || (r =? 5760) || (8192 <=? r) && (r <=? 8202) || (r =? 8232) || (r =? 8233)
  || (r =? 8239) || (r =? 8287) || (r =? 12288).

Definition lower_rune (r : rune) : rune :=
  if (65 <=? r) && (r <=? 90) then r + 32
  else if r =? 304 then 105 else if r =? 8490 then 107 else r.

Definition fold_rune (r : rune) : rune :=
  if (65 <=? r) && (r <=? 90) then r + 32
  else if r =? 383 then 115 else if r =? 8490 then 107 else r.

Fixpoint drop_while (p : rune → bool) (l : text) : text :=
  match l with [] => [] | r :: l' => if p r then drop_while p l' else l end.

(** [strings.TrimSpace], [strings.ToLower], [strings.EqualFold] *)
Definition trim_text (l : text) : text :=
  rev (drop_while is_space (rev (drop_while is_space l))).
Definition lower_text (l : text) : text := lower_rune <$> l.
Definition fold_eq (a b : text) : bool :=
  bool_decide ((fold_rune <$> a) = (fold_rune <$> b)).

(** [strings.Contains] *)
Fixpoint is_prefix (p l : text) : bool :=
  match p, l with
  | [], _ => true
  | a :: p', b :: l' => (a =? b) && is_prefix p' l'
  | _ :: _, [] => false
  end.
Fixpoint contains (l p : text) : bool :=
  is_prefix p l || match l with [] => false | _ :: l' => contains l' p end.

(** ** ParseArgv *)

Inductive parse_error :=
| ErrControl (* control characters are not allowed in commands *)
| ErrOperator (* shell operators and substitutions are not allowed *)
| ErrIncompleteEscape (* command ends with an incomplete escape *)
| ErrUnterminatedQuote (* command contains an unterminated quote *)
| ErrRequired. (* command is required *)

#[export] Instance parse_error_eq_dec : EqDecision parse_error.
Proof. solve_decision. Defined.

(** The local variables of the loop; [quote] is 0 outside quotes. *)
Record pstate := PState {
  argv : list text;
  current : text;
  quote : rune;
  escaped : bool;
  tokenStarted : bool
}.

Definition operators : text := txt ";&|<>$`(){}".

Definition flush (st : pstate) : pstate :=
  if tokenStarted st
  then PState (argv st ++ [current st]) [] (quote st) (escaped st) false
  else st.

Definition write_rune (st : pstate) (r : rune) : pstate :=
  PState (argv st) (current st ++ [r]) (quote st) false true.

Definition is_eol (r : rune) : bool := (r =? 10) || (r =? 13) || (r =? 0).

(** One iteration of [for _, r := range raw]. *)
Definition pstep (st : pstate) (r : rune) : result parse_error pstate :=
  if escaped st then
    if is_eol r then Err ErrControl else Ok (write_rune st r)
  else if negb (quote st =? 0) then
    if r =? quote st then Ok (PState (argv st) (current st) 0 false true)
    else if (r =? 92) && (quote st =? 34) then
      Ok (PState (argv st) (current st) (quote st) true (tokenStarted st))
    else if is_eol r then Err ErrControl
    else Ok (write_rune st r)
  else if r =? 92 then Ok (PState (argv st) (current st) (quote st) true true)
  else if (r =? 39) || (r =? 34) then Ok (PState (argv st) (current st) r false true)
  else if is_control r && negb (r =? 9) then Err ErrControl
  else if is_space r then Ok (flush st)
  else if bool_decide (r ∈ operators) then Err ErrOperator
  else Ok (write_rune st r).

Fixpoint ploop (st : pstate) (raw : text) : result parse_error pstate :=
  match raw with
  | [] => Ok st
  | r :: raw' => st' ← pstep st r; ploop st' raw'
  end.

Definition ParseArgv (raw : text) : result parse_error (list text) :=
  st ← ploop (PState [] [] 0 false false) raw;
  _ ← guard_err (escaped st) ErrIncompleteEscape;
  _ ← guard_err (negb (quote st =? 0)) ErrUnterminatedQuote;
  match argv (flush st) with
  | [] => Err ErrRequired
  | a0 :: _ => if bool_decide (trim_text a0 = []) then Err ErrRequired
               else Ok (argv (flush st))
  end.

(** ** Allowlist rules *)

(** [name[strings.LastIndexAny(name, `/\`)+1:]] *)
Definition base_name (name : text) : text :=
  rev ((fix go (l : text) := match l with
        | [] => []
        | r :: l' => if (r =? 47) || (r =? 92) then [] else r :: go l'
        end) (rev name)).

(** [strings.TrimSuffix] *)
Definition trim_suffix (l s : text) : text :=
  if is_prefix (rev s) (rev l) then rev (drop (length s) (rev l)) else l.

Definition interpreters : list text :=
  txt <$> ["sh"; "bash"; "zsh"; "dash"; "ash"; "cmd"; "powershell"; "pwsh"; "osascript"].

Definition isCommandInterpreter (program : text) : bool :=
  let name := lower_text (trim_text program) in
  let name := base_name name in
  let name := trim_suffix name (txt ".exe") in
  bool_decide (name ∈ interpreters).

Fixpoint tokens_match (argv rule : list text) {struct rule} : bool :=
  match rule, argv with
  | [], _ => true
  | r :: rule', a :: argv' => fold_eq a r && tokens_match argv' rule'
  | _ :: _, [] => false
  end.

Definition MatchesRule (argv : list text) (rule : text) : bool :=
  let rule := trim_text rule in
  let exact := is_prefix (txt "=") rule in
  let rule := if exact then drop 1 rule else rule in
  match ParseArgv rule with
  | Err _ => false
  | Ok ruleArgv =>
      match ruleArgv with
      | [] => false
      | r0 :: _ =>
          if (length argv <? length ruleArgv)%nat then false
          else if (exact || isCommandInterpreter r0)
                  && negb (length argv =? length ruleArgv)%nat then false
          else tokens_match argv ruleArgv
      end
  end.

(** ** QuoteArgv *)

Definition quote_rune (r : rune) : text :=
  if r =? 39 then txt "'" ++ [34] ++ txt "'" ++ [34] ++ txt "'" else [r].

Definition quote_arg (arg : text) : text :=
  [39] ++ (arg ≫= quote_rune) ++ [39].

Fixpoint join_sp (l : list text) : text :=
  match l with
  | [] => []
  | [a] => a
  | a :: l' => a ++ [32] ++ join_sp l'
  end.

Definition QuoteArgv (argv : list text) : text := join_sp (quote_arg <$> argv).

(** ** The policy evaluator *)

Record CheckRequest := {
  ActorID : text; Target : text; Mode : text; Action : text; Command : text }.

Inductive reason :=
| NoReason
| ModeDisabled (mode : text) (* "<mode> mode disabled by policy" *)
| UnsupportedMode (* unsupported command mode *)
| BlockedBySafety (* command blocked by safety policy *)
| ParseFailed (e : parse_error)
| CommandRequired (* command is required *)
| NotInAllowlist. (* command not in allowlist *)

Record CheckResponse := Resp { Allowed : bool; Reason : reason; RMode : text }.

Record EvaluatorConfig := {
  InteractiveEnabled : bool; StructuredEnabled : bool; ConnectorEnabled : bool;
  AllowlistMode : bool; AllowlistPrefixes : list text; BlockedSubstrings : list text }.

Definition DefaultEvaluatorConfig : EvaluatorConfig := {|
  InteractiveEnabled := true;
  StructuredEnabled := true;
  ConnectorEnabled := true;
  AllowlistMode := false;
  AllowlistPrefixes := txt <$>
    ["uptime"; "uname"; "df"; "du"; "free"; "ps"; "top"; "journalctl";
     "systemctl status"; "docker ps"; "docker images"; "ls"; "cat"; "grep";
     "tail"; "head"; "whoami"; "=hostname"; "=ipconfig"; "=ipconfig /all";
     "systeminfo"; "tasklist"; "=cmd /c ver"; "=powershell -Command Get-Date"];
  BlockedSubstrings := txt <$>
    ["rm -rf /"; ":(){ :|:& };:"; "mkfs"; "shutdown -h now"]
|}.

(** The loop over [cfg.BlockedSubstrings]. *)
Definition blocked (cfg : EvaluatorConfig) (command : text) : bool :=
  existsb (λ b, negb (bool_decide (b = [])) &&
                contains (lower_text command) (lower_text b)) (BlockedSubstrings cfg).

(** The [if cfg.AllowlistMode && ...] block and the final return. *)
Definition check_allowlist (req : CheckRequest) (cfg : EvaluatorConfig)
    (normalizedMode : text) : CheckResponse :=
  if AllowlistMode cfg && fold_eq (Action req) (txt "command_execute") then
    match ParseArgv (Command req) with
    | Err e => Resp false (ParseFailed e) normalizedMode
    | Ok [] => Resp false CommandRequired normalizedMode
    | Ok argv =>
        if existsb (MatchesRule argv) (AllowlistPrefixes cfg)
        then Resp true NoReason normalizedMode
        else Resp false NotInAllowlist normalizedMode
    end
  else Resp true NoReason normalizedMode.

Definition Evaluate (req : CheckRequest) (cfg : EvaluatorConfig) : CheckResponse :=
  let mode := if bool_decide (Mode req = []) then txt "structured" else Mode req in
  let normalizedMode := lower_text (trim_text mode) in
  let enabled :=
    if bool_decide (normalizedMode = txt "interactive") then Some (InteractiveEnabled cfg)
    else if bool_decide (normalizedMode = txt "structured") then Some (StructuredEnabled cfg)
    else if bool_decide (normalizedMode = txt "connector") then Some (ConnectorEnabled cfg)
    else None in
  match enabled with
  | None => Resp false UnsupportedMode normalizedMode
  | Some false => Resp false (ModeDisabled normalizedMode) normalizedMode
  | Some true =>
      if blocked cfg (Command req) then Resp false BlockedBySafety mode
      else check_allowlist req cfg normalizedMode
  end.

(** ** Lemmas on the parser *)

Lemma ploop_app st l1 l2 : ploop st (l1 ++ l2) = st' ← ploop st l1; ploop st' l2.
Proof.
  revert st. induction l1 as [|r l1 IH]; intros st; [done|]. simpl.
  destruct (pstep st r) as [st'|e]; simpl; [apply IH|done].
Qed.

(** The state between two tokens, after [av] and with [cur] as the token being
    read. *)
Definition plain (av : list text) (cur : text) (ts : bool) : pstate :=
  PState av cur 0 false ts.

(** Runes that survive single quotes. *)
Definition quotable (a : text) : Prop := Forall (λ r, is_eol r = false) a.

Lemma ploop_quote_rune av cur ts r : is_eol r = false →
  ploop (PState av cur 39 false ts) (quote_rune r) =
    Ok (PState av (cur ++ [r]) 39 false true).
Proof.
  intros Hr. unfold quote_rune. destruct (r =? 39) eqn:E.
  - apply Z.eqb_eq in E. subst r. reflexivity.
  - simpl. unfold pstep; simpl. rewrite E, Hr.
    by replace (r =? 92) with (r =? 92) by done; rewrite andb_false_r.
Qed.

Lemma ploop_quote_body av a cur ts : quotable a →
  ∃ ts', ploop (PState av cur 39 false ts) (a ≫= quote_rune) =
    Ok (PState av (cur ++ a) 39 false ts').
Proof.
  intros Ha. revert cur ts. induction Ha as [|r a Hr Ha IH]; intros cur ts.
  - exists ts. by rewrite app_nil_r.
  - rewrite bind_cons, ploop_app, ploop_quote_rune by done. simpl.
    destruct (IH (cur ++ [r]) true) as [ts' ->]. exists ts'.
    by rewrite <-app_assoc.
Qed.

Lemma ploop_quote_arg av a ts : quotable a →
  ploop (plain av [] ts) (quote_arg a) = Ok (plain av a true).
Proof.
  intros Ha. unfold quote_arg, plain. rewrite ploop_app. simpl.
  rewrite ploop_app. destruct (ploop_quote_body av a [] true Ha) as [ts' ->].
  by simpl.
Qed.

#[local] Arguments quote_arg : simpl never.

Lemma ploop_quoted av l : l ≠ [] → Forall quotable l →
  flush <$> ploop (plain av [] false) (join_sp (quote_arg <$> l)) =
    Ok (plain (av ++ l) [] false).
Proof.
  intros Hne Hl. revert av. induction Hl as [|a l Ha Hl IH]; intros av; [done|].
  destruct l as [|b l].
  - change (join_sp (quote_arg <$> [a])) with (quote_arg a).
    by rewrite ploop_quote_arg.
  - change (join_sp (quote_arg <$> (a :: b :: l)))
      with (quote_arg a ++ [32] ++ join_sp (quote_arg <$> (b :: l))).
    specialize (IH ltac:(done) (av ++ [a])). rewrite <-app_assoc in IH.
    set (rest := join_sp _) in *. by rewrite ploop_app, ploop_quote_arg.
Qed.

(** ** Round trip *)

(** C6: the command string that [QuoteArgv] builds for a remote shell parses
    back to the same argument vector, whatever quotes, operators and spaces the
    arguments contain, provided the program name is not blank and no argument
    holds a newline, a carriage return or a NUL (which [ParseArgv] refuses). *)
Theorem parse_quote_roundtrip (av : list text) :
  Forall quotable av →
  match av with [] => False | a0 :: _ => trim_text a0 ≠ [] end →
  ParseArgv (QuoteArgv av) = Ok av.
Proof.
  intros Hq Hne. unfold ParseArgv, QuoteArgv.
  pose proof (ploop_quoted [] av ltac:(by destruct av) Hq) as H.
  change (PState [] [] 0 false false) with (plain [] [] false).
  destruct (ploop _ _) as [st|]; simpl in *; [|done].
  injection H as H. assert (escaped st = false ∧ quote st = 0) as [-> ->].
  { revert H. unfold flush. destruct st as [? ? ? ? []]; simpl; by intros [=]. }
  simpl. rewrite H. simpl. destruct av as [|a0 av]; [done|].
  by rewrite bool_decide_eq_false_2.
Qed.

Lemma parse_quote_roundtrip_witness :
  ParseArgv (QuoteArgv [txt "echo"; txt "it's"; txt "$(id); rm"; []]) =
    Ok [txt "echo"; txt "it's"; txt "$(id); rm"; []].
Proof.
  apply (parse_quote_roundtrip [txt "echo"; txt "it's"; txt "$(id); rm"; []]).
  - repeat constructor.
  - vm_compute. discriminate.
Defined.

(** ** Commands without quotes: a reference tokeniser

    [fields] splits at white space and drops the empty fields, the way Go's
    [strings.Fields] does; [rune_error] is the reason to refuse a rune. *)

Definition add_field (cur : text) (l : list text) : list text :=
  if bool_decide (cur = []) then l else cur :: l.

Fixpoint fields_go (cur : text) (l : text) : list text :=
  match l with
  | [] => add_field cur []
  | r :: l' => if is_space r then add_field cur (fields_go [] l')
               else fields_go (cur ++ [r]) l'
  end.
Definition fields : text → list text := fields_go [].

Definition rune_error (r : rune) : option parse_error :=
  if is_control r && negb (r =? 9) then Some ErrControl
  else if is_space r then None
  else if bool_decide (r ∈ operators) then Some ErrOperator else None.

Fixpoint first_error (l : text) : option parse_error :=
  match l with
  | [] => None
  | r :: l' => match rune_error r with Some e => Some e | None => first_error l' end
  end.

Definition unquoted (r : rune) : Prop := r ≠ 39 ∧ r ≠ 34 ∧ r ≠ 92.

(** Between tokens [tokenStarted] says whether a token is being read. *)
Definition between (av : list text) (cur : text) : pstate :=
  plain av cur (negb (bool_decide (cur = []))).

Lemma pstep_unquoted av cur r : unquoted r →
  pstep (between av cur) r =
    match rune_error r with
    | Some e => Err e
    | None => Ok (if is_space r then between (av ++ add_field cur []) []
                  else between av (cur ++ [r]))
    end.
Proof.
  intros (H1 & H2 & H3). unfold pstep, rune_error, between, plain, flush, add_field; simpl.
  apply Z.eqb_neq in H1 as ->, H2 as ->, H3 as ->. simpl.
  destruct (is_control r && negb (r =? 9)); [done|].
  destruct (is_space r) eqn:E.
  - case_bool_decide as Hc; simpl; [|done]. by rewrite Hc, app_nil_r.
  - case_bool_decide; [done|]. unfold write_rune; simpl.
    rewrite (bool_decide_eq_false_2 (cur ++ [r] = [])); [done|]. by destruct cur.
Qed.

Lemma ploop_unquoted raw av cur : Forall unquoted raw →
  match first_error raw with
  | Some e => ploop (between av cur) raw = Err e
  | None => ∃ av' cur', ploop (between av cur) raw = Ok (between av' cur') ∧
              av' ++ add_field cur' [] = av ++ fields_go cur raw
  end.
Proof.
  intros Hr. revert av cur. induction Hr as [|r raw Hr _ IH]; intros av cur; [by eexists _, _|].
  simpl. rewrite pstep_unquoted by done.
  destruct (rune_error r) as [e|]; simpl; [done|]. destruct (is_space r).
  - specialize (IH (av ++ add_field cur []) []).
    destruct (first_error raw); [done|]. destruct IH as (av' & cur' & -> & Hav).
    eexists _, _. split; [done|]. rewrite Hav, <-app_assoc. f_equal.
    unfold add_field. by case_bool_decide.
  - specialize (IH av (cur ++ [r])). by destruct (first_error raw).
Qed.

Definition solid (t : text) : Prop := t ≠ [] ∧ Forall (λ r, is_space r = false) t.

Lemma fields_go_solid raw cur : Forall (λ r, is_space r = false) cur →
  Forall solid (fields_go cur raw).
Proof.
  assert (Hadd : ∀ c l, Forall (λ r, is_space r = false) c → Forall solid l →
    Forall solid (add_field c l)).
  { intros c l Hc Hl. unfold add_field. case_bool_decide; [done|]. by constructor. }
  revert cur. induction raw as [|r raw IH]; intros cur Hc; simpl; [by apply Hadd|].
  destruct (is_space r) eqn:E.
  - apply Hadd; [done|]. by apply IH.
  - apply IH, Forall_app; auto.
Qed.

Lemma trim_text_solid t : solid t → trim_text t = t.
Proof.
  intros [Hne Ht]. unfold trim_text.
  assert (Hd : ∀ l, Forall (λ r, is_space r = false) l → drop_while is_space l = l).
  { intros l [|r l' Hr Hl]; simpl; [done|]. by rewrite Hr. }
  rewrite (Hd t), (Hd (rev t)) by (try apply Forall_rev; done). by rewrite rev_involutive.
Qed.

(** On a command without quotes and backslashes [ParseArgv] is the
    reference tokeniser: the first control character or shell operator is the
    error, otherwise the argument vector is the list of white-space separated
    fields, and only a blank command is refused. *)
Theorem parse_unquoted_is_fields (raw : text) :
  Forall unquoted raw →
  ParseArgv raw =
    match first_error raw with
    | Some e => Err e
    | None => if bool_decide (fields raw = []) then Err ErrRequired else Ok (fields raw)
    end.
Proof.
  intros Hr. unfold ParseArgv. pose proof (ploop_unquoted raw [] [] Hr) as H.
  change (PState [] [] 0 false false) with (between [] []).
  destruct (first_error raw) as [e|]; [by rewrite H|].
  destruct H as (av & cur & -> & Hav). simpl in *. unfold fields.
  assert (Hf : argv (flush (between av cur)) = fields_go [] raw).
  { rewrite <-Hav. unfold flush, between, plain, add_field; simpl.
    case_bool_decide; simpl; [by rewrite app_nil_r|done]. }
  rewrite Hf. pose proof (fields_go_solid raw [] (Forall_nil_2 _)) as Hs.
  destruct (fields_go [] raw) as [|a0 l]; [done|].
  inversion Hs as [|? ? Ha0]; subst. rewrite trim_text_solid by done.
  destruct Ha0 as [Hne _]. by rewrite (bool_decide_eq_false_2 (a0 = [])).
Qed.

Lemma parse_unquoted_is_fields_witness :
  ParseArgv (txt " ls  -la ") = Ok [txt "ls"; txt "-la"] ∧
  ParseArgv (txt "uptime; id") = Err ErrOperator.
Proof.
  split.
  - rewrite (parse_unquoted_is_fields (txt " ls  -la ")); [reflexivity|].
    by repeat constructor.
  - rewrite (parse_unquoted_is_fields (txt "uptime; id")); [reflexivity|].
    by repeat constructor.
Defined.

(** ** The allowlist *)

(** [covers rule av]: what an allowlist rule lets through.  The program and
    the arguments the rule names are those of the command up to case; further
    arguments are let through unless the rule begins with "=" or its program
    is a command interpreter. *)
Definition rule_exact (rule : text) : bool := is_prefix (txt "=") (trim_text rule).
Definition rule_body (rule : text) : text :=
  if rule_exact rule then drop 1 (trim_text rule) else trim_text rule.

Inductive covers (rule : text) : list text → Prop :=
| covers_intro rav pre extra r0 rest :
    ParseArgv (rule_body rule) = Ok rav →
    rav = r0 :: rest →
    Forall2 (λ a r, fold_rune <$> a = fold_rune <$> r) pre rav →
    (extra ≠ [] → rule_exact rule = false ∧ isCommandInterpreter r0 = false) →
    covers rule (pre ++ extra).

Lemma tokens_match_spec av rav :
  tokens_match av rav = true ↔
    ∃ pre extra, av = pre ++ extra ∧
      Forall2 (λ a r, fold_rune <$> a = fold_rune <$> r) pre rav.
Proof.
  revert av. induction rav as [|r rav IH]; intros av; simpl.
  - split; [|done]. intros _. exists [], av. by split; [|constructor].
  - destruct av as [|a av].
    + split; [done|]. intros (pre & extra & Heq & HF).
      inversion HF; subst. discriminate.
    + rewrite andb_true_iff, IH. unfold fold_eq. rewrite bool_decide_eq_true. split.
      * intros (Har & pre & extra & -> & HF). exists (a :: pre), extra.
        split; [done|]. by constructor.
      * intros (pre & extra & Heq & HF). inversion HF; subst.
        injection Heq as -> ->. split; [congruence|]. eauto.
Qed.

Lemma ParseArgv_nonempty raw av : ParseArgv raw = Ok av → av ≠ [].
Proof.
  unfold ParseArgv. intros H. inv_ok.
  destruct (argv (flush _)) as [|a0 l]; [done|]. case_bool_decide; naive_solver.
Qed.

Lemma MatchesRule_spec av rule : MatchesRule av rule = true ↔ covers rule av.
Proof.
  unfold MatchesRule. fold (rule_exact rule). fold (rule_body rule).
  split.
  - destruct (ParseArgv (rule_body rule)) as [[|r0 rest]|] eqn:Hp; [done| |done].
    destruct (length av <? _)%nat; [done|].
    destruct ((rule_exact rule || isCommandInterpreter r0) && _) eqn:Hx; [done|].
    intros (pre & extra & -> & HF)%tokens_match_spec.
    econstructor; [done|done|done|]. intros He.
    apply andb_false_iff in Hx as [Hx|Hx]; [by apply orb_false_iff in Hx|].
    apply negb_false_iff, Nat.eqb_eq in Hx. apply Forall2_length in HF.
    rewrite length_app in Hx. destruct extra; simpl in *; [done|lia].
  - intros [rav pre extra r0 rest Hp -> HF He]. rewrite Hp.
    pose proof (Forall2_length _ _ _ HF) as Hl.
    replace (length (pre ++ extra) <? length (r0 :: rest))%nat with false;
      [|symmetry; apply Nat.ltb_ge; rewrite length_app; lia].
    destruct (_ && _) eqn:Hx.
    + apply andb_true_iff in Hx as [Hx Hne]. exfalso.
      apply negb_true_iff, Nat.eqb_neq in Hne. destruct extra as [|x extra].
      * rewrite app_nil_r in Hne. by rewrite Hl in Hne.
      * destruct (He ltac:(done)) as [E1 E2]. by rewrite E1, E2 in Hx.
    + apply tokens_match_spec. eauto.
Qed.

(** The mode of the request is one the configuration enables. *)
Definition mode_enabled (req : CheckRequest) (cfg : EvaluatorConfig) : Prop :=
  let m := lower_text (trim_text
             (if bool_decide (Mode req = []) then txt "structured" else Mode req)) in
  m = txt "interactive" ∧ InteractiveEnabled cfg = true ∨
  m = txt "structured" ∧ StructuredEnabled cfg = true ∨
  m = txt "connector" ∧ ConnectorEnabled cfg = true.

Lemma blocked_false cfg command :
  blocked cfg command = false ↔
    ∀ b, b ∈ BlockedSubstrings cfg → b ≠ [] →
      contains (lower_text command) (lower_text b) = false.
Proof.
  unfold blocked. rewrite existsb_false_elem. split; intros H b Hb.
  - intros Hne. specialize (H b Hb). by rewrite bool_decide_eq_false_2 in H.
  - case_bool_decide; [done|]. simpl. auto.
Qed.

Lemma check_allowlist_allowed req cfg m :
  Allowed (check_allowlist req cfg m) = true ↔
    (AllowlistMode cfg = true → fold_eq (Action req) (txt "command_execute") = true →
     ∃ av rule, ParseArgv (Command req) = Ok av ∧
       rule ∈ AllowlistPrefixes cfg ∧ covers rule av).
Proof.
  unfold check_allowlist. destruct (AllowlistMode cfg); simpl; [|naive_solver].
  destruct (fold_eq _ _); simpl; [|naive_solver].
  destruct (ParseArgv (Command req)) as [av|e] eqn:Hp; [|naive_solver].
  pose proof (ParseArgv_nonempty _ _ Hp). destruct av as [|a0 av]; [done|].
  setoid_rewrite <-MatchesRule_spec.
  destruct (existsb _ _) eqn:Hx; simpl.
  - apply existsb_elem in Hx as (rule & ? & ?). naive_solver.
  - rewrite existsb_false_elem in Hx. split; [done|].
    intros (av' & rule & [= <-] & Hin & Hm)%(λ f, f eq_refl eq_refl); [|done..].
    by rewrite Hx in Hm.
Qed.

(** C10: the policy decision, completely: a request is allowed exactly when its
    mode is enabled, the lower-cased command contains no blocked substring, and
    - when the allowlist is on and the action executes a command - the command
    parses and some rule of the allowlist covers its whole argument vector
    (extra arguments only where the rule is neither exact nor names a command
    interpreter).  Everything else is denied. *)
Theorem evaluate_allowed_iff (req : CheckRequest) (cfg : EvaluatorConfig) :
  Allowed (Evaluate req cfg) = true ↔
    mode_enabled req cfg ∧
    (∀ b, b ∈ BlockedSubstrings cfg → b ≠ [] →
       contains (lower_text (Command req)) (lower_text b) = false) ∧
    (AllowlistMode cfg = true → fold_eq (Action req) (txt "command_execute") = true →
     ∃ av rule, ParseArgv (Command req) = Ok av ∧
       rule ∈ AllowlistPrefixes cfg ∧ covers rule av).
Proof.
  rewrite <-blocked_false. unfold Evaluate, mode_enabled.
  generalize (lower_text (trim_text
    (if bool_decide (Mode req = []) then txt "structured" else Mode req))) as m.
  intros m. rewrite <-(check_allowlist_allowed req cfg m).
  assert (txt "interactive" ≠ txt "structured" ∧ txt "interactive" ≠ txt "connector"
          ∧ txt "structured" ≠ txt "connector") as (H1 & H2 & H3).
  { repeat split; vm_compute; discriminate. }
  generalize dependent (txt "interactive"). generalize dependent (txt "structured").
  generalize dependent (txt "connector"). intros ti ts H2 tc H1 H3.
  destruct (blocked cfg (Command req)), (InteractiveEnabled cfg),
    (StructuredEnabled cfg), (ConnectorEnabled cfg);
    repeat case_bool_decide; subst; simpl; split; intuition congruence.
Qed.
