(* ===== verification/Alerts.v ===== *)
(** * Alert data: statuses, durations, firing scopes, fingerprints

    [internal/alerts/types.go], [durations.go] and [firing_scope.go]. *)

From S2P Require Import Prelude GoStrings.

(** ** Constants *)

Definition SeverityCritical := "critical".
Definition SeverityHigh := "high".
Definition SeverityMedium := "medium".
Definition SeverityLow := "low".
Definition RuleStatusActive := "active".
Definition RuleStatusPaused := "paused".
Definition RuleKindMetricThreshold := "metric_threshold".
Definition RuleKindMetricDeadman := "metric_deadman".
Definition RuleKindHeartbeatStale := "heartbeat_stale".
Definition RuleKindLogPattern := "log_pattern".
Definition RuleKindComposite := "composite".
Definition RuleKindSyntheticCheck := "synthetic_check".
Definition TargetScopeAsset := "asset".
Definition TargetScopeGroup := "group".
Definition TargetScopeGlobal := "global".
Definition EvaluationStatusOK := "ok".
Definition EvaluationStatusTriggered := "triggered".
Definition EvaluationStatusSuppressed := "suppressed".
Definition EvaluationStatusError := "error".
Definition InstanceStatusPending := "pending".
Definition InstanceStatusFiring := "firing".
Definition InstanceStatusAcknowledged := "acknowledged".
Definition InstanceStatusResolved := "resolved".

Definition MaxDurationSeconds : Z := 2 ^ 31 - 1.
Definition DefaultCooldownSeconds : Z := 300.
Definition DefaultReopenAfterSeconds : Z := 60.
Definition DefaultEvaluationIntervalSeconds : Z := 30.
Definition DefaultWindowSeconds : Z := 300.

(** ** Normalisation *)

Definition severities := [SeverityCritical; SeverityHigh; SeverityMedium; SeverityLow].
Definition rule_statuses := [RuleStatusActive; RuleStatusPaused].
Definition rule_kinds := [RuleKindMetricThreshold; RuleKindMetricDeadman;
  RuleKindHeartbeatStale; RuleKindLogPattern; RuleKindComposite; RuleKindSyntheticCheck].
Definition target_scopes := [TargetScopeAsset; TargetScopeGroup; TargetScopeGlobal].
Definition evaluation_statuses := [EvaluationStatusOK; EvaluationStatusTriggered;
  EvaluationStatusSuppressed; EvaluationStatusError].
Definition instance_statuses := [InstanceStatusPending; InstanceStatusFiring;
  InstanceStatusAcknowledged; InstanceStatusResolved].

Definition NormalizeSeverity : string → string := keyword severities.
Definition NormalizeRuleStatus : string → string := keyword rule_statuses.
Definition NormalizeRuleKind : string → string := keyword rule_kinds.
Definition NormalizeTargetScope : string → string := keyword target_scopes.
Definition NormalizeEvaluationStatus : string → string := keyword evaluation_statuses.
Definition NormalizeInstanceStatus : string → string := keyword instance_statuses.

Definition CanTransitionInstanceStatus (from to : string) : bool :=
  let from := NormalizeInstanceStatus from in
  let to := NormalizeInstanceStatus to in
  if is_empty from || is_empty to then false
  else if bool_decide (from = to) then true
  else if bool_decide (from = InstanceStatusPending) then
    bool_decide (to = InstanceStatusFiring) || bool_decide (to = InstanceStatusResolved)
  else if bool_decide (from = InstanceStatusFiring) then
    bool_decide (to = InstanceStatusAcknowledged) || bool_decide (to = InstanceStatusResolved)
  else if bool_decide (from = InstanceStatusAcknowledged) then
    bool_decide (to = InstanceStatusFiring) || bool_decide (to = InstanceStatusResolved)
  else false.

(** ** Durations

    Seconds are Go [int]s; a [time.Duration] is a 64-bit count of
    nanoseconds. *)

Inductive duration_error := ErrInvalidDurationSeconds.
#[export] Instance duration_error_eq_dec : EqDecision duration_error.
Proof. solve_decision. Defined.

Definition ValidateDurationSeconds (value : Z) : result duration_error unit :=
  guard_err ((value <? 0) || (MaxDurationSeconds <? value)) ErrInvalidDurationSeconds.

(** Two's complement wrap-around of a 64-bit product. *)
Definition wrap64 (x : Z) : Z := (x + 2 ^ 63) mod 2 ^ 64 - 2 ^ 63.

Definition DurationFromSeconds (value : Z) (fallback : duration) : duration :=
  if (value <=? 0) || (MaxDurationSeconds <? value) then fallback
  else wrap64 (value * Second).

Record CreateRuleDurations := {
  Cooldown : Z; Reopen : Z; Interval : Z; Window : Z }.

(** The body of the loop over the four fields. *)
Definition resolve_field (input : option Z) (fallback : Z) (zeroDefault : bool) :
    result duration_error Z :=
  match input with
  | None => Ok fallback
  | Some value =>
      if (value <? 0) || (MaxDurationSeconds <? value) then Err ErrInvalidDurationSeconds
      else Ok (if (value =? 0) && zeroDefault then fallback else value)
  end.

(** ** Records

    [gany] is a decoded JSON value ([any] in Go); a number is kept as its
    literal, since the hub's stores only copy these values. *)

Inductive gany :=
| ANil | ABool (b : bool) | ANum (literal : string) | AStr (s : string)
| AList (l : list gany) | AMap (m : list (string * gany)).

Abbreviation anymap := (list (string * gany)) (only parsing).

Record RuleTargetInput := {
  TI_AssetID : string; TI_GroupID : string; TI_Selector : anymap }.

Record RuleTarget := {
  T_ID : string; T_RuleID : string; T_AssetID : string; T_GroupID : string;
  T_Selector : anymap; T_CreatedAt : time }.

Record CreateRuleRequest := {
  CR_Name : string; CR_Description : string; CR_Status : string; CR_Kind : string;
  CR_Severity : string; CR_TargetScope : string;
  CR_CooldownSeconds : option Z; CR_ReopenAfterSeconds : option Z;
  CR_EvaluationIntervalSeconds : option Z; CR_WindowSeconds : option Z;
  CR_Condition : anymap; CR_Labels : gmap string string; CR_Metadata : gmap string string;
  CR_Targets : list RuleTargetInput; CR_CreatedBy : string }.

Record UpdateRuleRequest := {
  UR_Name : option string; UR_Description : option string; UR_Status : option string;
  UR_Severity : option string; UR_CooldownSeconds : option Z;
  UR_ReopenAfterSeconds : option Z; UR_EvaluationIntervalSeconds : option Z;
  UR_WindowSeconds : option Z; UR_Condition : option anymap;
  UR_Labels : option (gmap string string); UR_Metadata : option (gmap string string);
  UR_Targets : option (list RuleTargetInput) }.

Record Rule := {
  R_ID : string; R_Name : string; R_Description : string; R_Status : string;
  R_Kind : string; R_Severity : string; R_TargetScope : string;
  R_CooldownSeconds : Z; R_ReopenAfterSeconds : Z;
  R_EvaluationIntervalSeconds : Z; R_WindowSeconds : Z;
  R_Condition : anymap; R_Labels : gmap string string; R_Metadata : gmap string string;
  R_Targets : list RuleTarget; R_CreatedBy : string; R_CreatedAt : time;
  R_UpdatedAt : time; R_LastEvaluatedAt : option time; R_LastAutoAttemptAt : option time }.

Record Evaluation := {
  E_ID : string; E_RuleID : string; E_Status : string; E_EvaluatedAt : time;
  E_DurationMS : Z; E_CandidateCount : Z; E_TriggeredCount : Z;
  E_Error : string; E_Details : anymap }.

Record FiringScope := {
  Version : Z; AssetIDs : list string; GroupIDs : list string;
  SyntheticCheckIDs : list string }.
#[export] Instance FiringScope_eq_dec : EqDecision FiringScope.
Proof. solve_decision. Defined.

Record AlertInstance := {
  I_ID : string; I_RuleID : string; I_Fingerprint : string; I_Status : string;
  I_Severity : string; I_Labels : gmap string string; I_Annotations : gmap string string;
  I_StartedAt : time; I_FiringScope : option FiringScope; I_FirstFiredAt : option time;
  I_ResolvedAt : option time; I_LastFiredAt : time; I_SuppressedBy : string;
  I_CreatedAt : time; I_UpdatedAt : time }.
#[export] Instance AlertInstance_eq_dec : EqDecision AlertInstance.
Proof. solve_decision. Defined.

Record CreateInstanceRequest := {
  CI_RuleID : string; CI_Fingerprint : string; CI_Severity : string;
  CI_Labels : gmap string string; CI_Annotations : gmap string string }.

Record AlertSilence := {
  S_ID : string; S_Matchers : gmap string string; S_Reason : string;
  S_CreatedBy : string; S_StartsAt : time; S_EndsAt : time; S_CreatedAt : time }.
#[export] Instance AlertSilence_eq_dec : EqDecision AlertSilence.
Proof. solve_decision. Defined.

Record CreateSilenceRequest := {
  CS_Matchers : gmap string string; CS_Reason : string; CS_CreatedBy : string;
  CS_StartsAt : time; CS_EndsAt : time }.

Definition ResolveCreateRuleDurations (req : CreateRuleRequest) :
    result duration_error CreateRuleDurations :=
  cooldown ← resolve_field (CR_CooldownSeconds req) DefaultCooldownSeconds false;
  reopen ← resolve_field (CR_ReopenAfterSeconds req) DefaultReopenAfterSeconds false;
  interval ← resolve_field (CR_EvaluationIntervalSeconds req)
               DefaultEvaluationIntervalSeconds true;
  window ← resolve_field (CR_WindowSeconds req) DefaultWindowSeconds true;
  Ok {| Cooldown := cooldown; Reopen := reopen; Interval := interval; Window := window |}.

Definition TargetReferenceCount (target : RuleTargetInput) : Z :=
  (if is_empty (trim_space (TI_AssetID target)) then 0 else 1)
  + (if is_empty (trim_space (TI_GroupID target)) then 0 else 1)
  + (match TI_Selector target with [] => 0 | _ => 1 end).

(** ** Firing scopes *)

Inductive scope_error :=
| ErrScopeVersion (* unknown alert firing scope version *)
| ErrScopeIdentity. (* invalid alert firing scope identity *)
#[export] Instance scope_error_eq_dec : EqDecision scope_error.
Proof. solve_decision. Defined.

(** The inner loop: collect the identities not [seen] yet. *)
Fixpoint scope_ids (seen : gset string) (out l : list string) :
    result scope_error (list string) :=
  match l with
  | [] => Ok out
  | id :: l' =>
      if is_empty id || negb (bool_decide (trim_space id = id)) then Err ErrScopeIdentity
      else if bool_decide (id ∈ seen) then scope_ids seen out l'
      else scope_ids ({[id]} ∪ seen) (out ++ [id]) l'
  end.

(** [sort.Strings] *)
Definition sort_strings : list string → list string := merge_sort String.le.

Definition scope_list (l : list string) : result scope_error (list string) :=
  sort_strings <$> scope_ids ∅ [] l.

Definition NormalizeFiringScope (input : FiringScope) : result scope_error FiringScope :=
  if negb (Version input =? 1) then Err ErrScopeVersion else
  a ← scope_list (AssetIDs input);
  g ← scope_list (GroupIDs input);
  c ← scope_list (SyntheticCheckIDs input);
  Ok {| Version := 1; AssetIDs := a; GroupIDs := g; SyntheticCheckIDs := c |}.

(** ** Fingerprints

    [GenerateFingerprint] writes the rule id and the sorted labels, each
    string followed by a NUL, into a SHA-256 state.  The digest function is an
    argument; what the code feeds it is [fingerprint_input]. *)

Definition nul : ascii := "000".

Definition fingerprint_input (ruleID : string) (labels : gmap string string) : list ascii :=
  chars ruleID ++ [nul] ++
  (sort_strings (map_to_list labels).*1 ≫= λ k,
     chars k ++ [nul] ++ chars (default "" (labels !! k)) ++ [nul]).

Definition GenerateFingerprint (sha256_hex : list ascii → string)
    (ruleID : string) (labels : gmap string string) : string :=
  sha256_hex (fingerprint_input ruleID labels).

(** ** Normalisers *)

Definition all_keyword_lists : list (list string) :=
  [severities; rule_statuses; rule_kinds; target_scopes; evaluation_statuses;
   instance_statuses].

Lemma keyword_lists_clean : forallb (forallb clean) all_keyword_lists = true.
Proof. by vm_compute. Qed.

Lemma NormalizeInstanceStatus_cases s :
  NormalizeInstanceStatus s ∈ instance_statuses ∨ NormalizeInstanceStatus s = "".
Proof. apply keyword_cases. Qed.

Lemma NormalizeInstanceStatus_id s :
  s ∈ instance_statuses → NormalizeInstanceStatus s = s.
Proof.
  intros Hs. apply keyword_clean; [|done].
  assert (forallb clean instance_statuses = true) as Hc by by vm_compute.
  rewrite forallb_elem in Hc. auto.
Qed.

Lemma instance_status_nonempty s : s ∈ instance_statuses → s ≠ "".
Proof. intros H ->. by apply (bool_decide_eq_true_2 _) in H. Qed.

(** ** Durations *)

Definition in_range (v : Z) : Prop := 0 ≤ v ≤ MaxDurationSeconds.

Lemma resolve_field_spec input fallback z v :
  1 ≤ fallback ≤ MaxDurationSeconds →
  resolve_field input fallback z = Ok v →
  in_range v ∧ (z = true → 1 ≤ v) ∧ (∀ i, input = Some i → in_range i).
Proof.
  unfold resolve_field, in_range. intros Hf.
  destruct input as [i|]; [|intros [= <-]; split_and!; [lia|lia|lia|done]].
  destruct (_ || _) eqn:E; [done|]. bool_prop. intros [= <-].
  destruct (i =? 0) eqn:?, z; bool_prop; simpl; naive_solver lia.
Qed.

Lemma resolve_field_err input fallback z e :
  resolve_field input fallback z = Err e → ∃ i, input = Some i ∧ ¬ in_range i.
Proof.
  unfold resolve_field, in_range. destruct input as [i|]; [|done].
  destruct (_ || _) eqn:E; [|done]. intros _. exists i. split; [done|].
  apply orb_true_iff in E as [E|E]; bool_prop; lia.
Qed.

Definition duration_inputs (req : CreateRuleRequest) : list (option Z) :=
  [CR_CooldownSeconds req; CR_ReopenAfterSeconds req;
   CR_EvaluationIntervalSeconds req; CR_WindowSeconds req].

(** Resolving the durations of a new rule fails exactly when some given
    field is negative or above the maximum; otherwise every resolved field is
    within bounds, the interval and the window are positive, and none of them
    overflows when it is turned into a 64-bit [time.Duration]. *)
Theorem resolve_durations_bounds (req : CreateRuleRequest) :
  match ResolveCreateRuleDurations req with
  | Err _ => ∃ i, Some i ∈ duration_inputs req ∧ ¬ in_range i
  | Ok d => (∀ i, Some i ∈ duration_inputs req → in_range i) ∧
      1 ≤ Interval d ∧ 1 ≤ Window d ∧
      Forall (λ v, in_range v ∧ DurationFromSeconds v 0 = v * Second)
        [Cooldown d; Reopen d; Interval d; Window d]
  end.
Proof.
  assert (Hwrap : ∀ v, in_range v → in_range v ∧ DurationFromSeconds v 0 = v * Second).
  { unfold in_range, DurationFromSeconds, wrap64, MaxDurationSeconds, Second. intros v Hv.
    split; [done|]. destruct (v <=? 0) eqn:?; destruct (_ <? v) eqn:?; bool_prop; simpl; [lia..|].
    rewrite Z.mod_small; lia. }
  destruct (ResolveCreateRuleDurations req) as [d|e] eqn:H; unfold ResolveCreateRuleDurations in H.
  - inv_ok. unfold duration_inputs.
    repeat match goal with
    | H : resolve_field _ _ _ = Ok _ |- _ =>
        apply resolve_field_spec in H as (? & ? & ?); [|by vm_compute]
    end. simpl. repeat setoid_rewrite elem_of_cons. setoid_rewrite elem_of_nil.
    split; [naive_solver|]. repeat split; auto; repeat constructor; by apply Hwrap.
  - unfold duration_inputs. repeat setoid_rewrite elem_of_cons.
    repeat match goal with
    | H : (_ ≫= _) = Err _ |- _ => apply bind_Err in H as [H|(? & _ & H)]
    end; try discriminate;
    apply resolve_field_err in H as (i & Hi & ?); exists i; split; auto.
Qed.

(** ** Transitions *)

Lemma can_transition_spec s t :
  s ∈ instance_statuses → t ∈ instance_statuses →
  CanTransitionInstanceStatus s t = true ↔
    s = t ∨ t = InstanceStatusResolved ∧ s ≠ InstanceStatusResolved
    ∨ s = InstanceStatusPending ∧ t = InstanceStatusFiring
    ∨ s = InstanceStatusFiring ∧ t = InstanceStatusAcknowledged
    ∨ s = InstanceStatusAcknowledged ∧ t = InstanceStatusFiring.
Proof.
  unfold instance_statuses. rewrite !elem_of_cons, !elem_of_nil.
  intros [->|[->|[->|[->|[]]]]] [->|[->|[->|[->|[]]]]]; vm_compute; split;
    intuition (discriminate || auto).
Qed.

(** ** Firing scopes *)

Definition valid_identity (id : string) : Prop := id ≠ "" ∧ trim_space id = id.

Lemma scope_ids_Ok seen out l r :
  scope_ids seen out l = Ok r →
  (∀ x, x ∈ out ↔ x ∈ seen) → NoDup out →
  Forall valid_identity l ∧ NoDup r ∧ ∀ x, x ∈ r ↔ x ∈ out ∨ x ∈ l.
Proof.
  revert seen out. induction l as [|id l IH]; intros seen out; simpl.
  - intros [= <-] _ Hnd. split; [constructor|]. split; [done|]. set_solver.
  - destruct (_ || _) eqn:E; [done|]. bool_prop.
    intros Hr Hseen Hnd. case_bool_decide as Hid.
    + destruct (IH _ _ Hr Hseen Hnd) as (HF & Hr1 & Hr2). split_and!.
      * by repeat constructor.
      * done.
      * intros x. rewrite Hr2, elem_of_cons. split; [tauto|].
        intros [?|[->|?]]; [tauto| |tauto]. left. by apply Hseen.
    + destruct (IH _ _ Hr) as (HF & Hr1 & Hr2).
      * intros x. rewrite elem_of_app, Hseen. set_solver.
      * apply NoDup_app. split_and!; [done| |apply NoDup_singleton].
        intros x Hx ->%list_elem_of_singleton. by apply Hid, Hseen.
      * split_and!; [by repeat constructor|done|].
        intros x. rewrite Hr2. set_solver.
Qed.

Lemma scope_ids_Err seen out l e :
  scope_ids seen out l = Err e → e = ErrScopeIdentity ∧ ¬ Forall valid_identity l.
Proof.
  revert seen out. induction l as [|id l IH]; intros seen out; simpl; [done|].
  destruct (_ || _) eqn:E.
  - intros [= <-]. split; [done|]. intros [[H1 H2] _]%Forall_cons.
    apply orb_true_iff in E as [E|E]; bool_prop; done.
  - clear E. case_bool_decide; intros [? HF]%IH; (split; [done|]); intros [_ ?]%Forall_cons; auto.
Qed.

Lemma sort_strings_perm l : sort_strings l ≡ₚ l.
Proof. apply merge_sort_Permutation. Qed.

Lemma sort_strings_sorted l : StronglySorted String.le (sort_strings l).
Proof. apply StronglySorted_merge_sort; apply _. Qed.

Lemma sort_strings_sorted_id l : StronglySorted String.le l → sort_strings l = l.
Proof.
  intros Hl. apply (StronglySorted_unique String.le); [|done|apply sort_strings_perm].
  apply sort_strings_sorted.
Qed.

Lemma scope_list_Ok l r :
  scope_list l = Ok r →
  Forall valid_identity l ∧ NoDup r ∧ StronglySorted String.le r ∧ ∀ x, x ∈ r ↔ x ∈ l.
Proof.
  unfold scope_list. destruct (scope_ids ∅ [] l) as [r'|] eqn:E; [|done].
  intros [= <-]. destruct (scope_ids_Ok _ _ _ _ E) as (? & ? & Hr); [set_solver|constructor|].
  split_and!; [done| |apply sort_strings_sorted|].
  - by rewrite sort_strings_perm.
  - intros x. rewrite sort_strings_perm, Hr. set_solver.
Qed.

(** A list without repetitions passes the inner loop unchanged. *)
Lemma scope_ids_fresh seen out l :
  Forall valid_identity l → NoDup l → (∀ x, x ∈ l → x ∉ seen) →
  scope_ids seen out l = Ok (out ++ l).
Proof.
  intros HF. revert seen out. induction HF as [|id l [H1 H2] HF IH]; intros seen out Hnd Hd.
  - simpl. by rewrite app_nil_r.
  - simpl. rewrite (bool_decide_eq_false_2 (id = "")), (bool_decide_eq_true_2 (trim_space id = id)) by done.
    simpl. inversion Hnd; subst. rewrite bool_decide_eq_false_2 by (apply Hd; left).
    rewrite IH, <-app_assoc; [done..|]. intros x Hx. specialize (Hd x). set_solver.
Qed.

Lemma scope_list_idemp l r : scope_list l = Ok r → scope_list r = Ok r.
Proof.
  intros (HF & Hnd & Hs & Hr)%scope_list_Ok. unfold scope_list.
  rewrite scope_ids_fresh; [simpl; by rewrite sort_strings_sorted_id| |done|set_solver].
  rewrite Forall_forall in *. intros x Hx. apply HF. by apply Hr.
Qed.

(** What a normalised list of identities [r] keeps of the list [l] given. *)
Definition normalised (l r : list string) : Prop :=
  Forall valid_identity l ∧ NoDup r ∧ StronglySorted String.le r ∧ ∀ x, x ∈ r ↔ x ∈ l.

(** The scope stored with a firing names exactly the identities of the
    evidence, sorted and without repetitions; normalising it again changes
    nothing; it is refused when and only when the version is not 1 or some
    identity is blank or carries surrounding white space. *)
Theorem normalize_firing_scope_spec (s : FiringScope) :
  match NormalizeFiringScope s with
  | Ok n => Version s = 1 ∧ Version n = 1 ∧ normalised (AssetIDs s) (AssetIDs n) ∧
      normalised (GroupIDs s) (GroupIDs n) ∧
      normalised (SyntheticCheckIDs s) (SyntheticCheckIDs n) ∧
      NormalizeFiringScope n = Ok n
  | Err ErrScopeVersion => Version s ≠ 1
  | Err ErrScopeIdentity => Version s = 1 ∧
      ¬ Forall valid_identity (AssetIDs s ++ GroupIDs s ++ SyntheticCheckIDs s)
  end.
Proof.
  assert (Herr : ∀ l e, scope_list l = Err e → e = ErrScopeIdentity ∧ ¬ Forall valid_identity l).
  { intros l e. unfold scope_list. destruct (scope_ids _ _ _) eqn:E; [done|].
    intros [= <-]. by apply scope_ids_Err in E. }
  destruct (NormalizeFiringScope s) as [n|e] eqn:H; unfold NormalizeFiringScope in H;
    destruct (Version s =? 1) eqn:Hv; simpl in H; bool_prop; try discriminate.
  - inv_ok. simpl. split_and!; [done|done| | | |];
      [by apply scope_list_Ok..|]. unfold NormalizeFiringScope; simpl.
    by repeat match goal with
    | H : scope_list _ = Ok _ |- _ => rewrite (scope_list_idemp _ _ H); simpl; clear H
    end.
  - repeat match goal with
    | H : (_ ≫= _) = Err _ |- _ => apply bind_Err in H as [H|(? & _ & H)]
    end; try discriminate; apply Herr in H as [-> H]; (split; [done|]);
    rewrite !Forall_app; tauto.
  - by injection H as <-.
Qed.

(** ** Fingerprints *)

Definition nul_free (s : string) : Prop := nul ∉ chars s.

(** NUL-terminated strings are uniquely readable. *)
Lemma nul_split a b l m :
  nul_free a → nul_free b →
  chars a ++ nul :: l = chars b ++ nul :: m → a = b ∧ l = m.
Proof.
  unfold nul_free. intros Ha Hb H.
  enough (chars a = chars b ∧ l = m) as [H1 H2].
  { split; [|done]. rewrite <-(String.string_of_list_ascii_of_string a), H1.
    apply String.string_of_list_ascii_of_string. }
  revert Ha Hb H. generalize (chars a) (chars b). clear a b.
  induction l0 as [|x a IH]; intros [|y b] Ha Hb H; simpl in *.
  - by injection H.
  - injection H as <- _. set_solver.
  - injection H as -> _. set_solver.
  - injection H as -> H. destruct (IH b) as [-> ->]; set_solver.
Qed.

(** The strings in the order in which they are written. *)
Definition terminated (l : list string) : list ascii := l ≫= λ s, chars s ++ [nul].

Lemma terminated_inj l m :
  Forall nul_free l → Forall nul_free m → terminated l = terminated m → l = m.
Proof.
  intros Hl. revert m. induction Hl as [|a l Ha Hl IH]; intros [|b m] Hm H.
  - done.
  - exfalso. unfold terminated in H. simpl in H. by destruct (chars b).
  - exfalso. unfold terminated in H. simpl in H. by destruct (chars a).
  - inversion Hm; subst. unfold terminated in H. rewrite !bind_cons, <-!app_assoc in H.
    apply nul_split in H as [-> H]; [|done..]. f_equal. by apply IH.
Qed.

Definition written (ruleID : string) (labels : gmap string string) : list string :=
  ruleID :: (sort_strings (map_to_list labels).*1 ≫= λ k, [k; default "" (labels !! k)]).

Lemma fingerprint_input_written r m : fingerprint_input r m = terminated (written r m).
Proof.
  unfold fingerprint_input, terminated, written. rewrite bind_cons, <-app_assoc. f_equal.
  f_equal. generalize (sort_strings (map_to_list m).*1) as ks.
  induction ks as [|k ks IH]; [done|]. rewrite !bind_cons, bind_app, IH. simpl.
  rewrite <-!app_assoc. simpl. by rewrite <-!app_assoc.
Qed.

Lemma pairs_inj (m1 m2 : gmap string string) ks1 ks2 :
  (ks1 ≫= λ k, [k; default "" (m1 !! k)]) = (ks2 ≫= λ k, [k; default "" (m2 !! k)]) →
  ks1 = ks2 ∧ Forall (λ k, default "" (m1 !! k) = default "" (m2 !! k)) ks1.
Proof.
  revert ks2. induction ks1 as [|k1 ks1 IH]; intros [|k2 ks2] H; try done.
  rewrite !bind_cons in H. injection H as -> Hd H. apply IH in H as [-> H].
  split; [done|]. by constructor.
Qed.

Lemma elem_of_sorted_keys (m : gmap string string) k :
  k ∈ sort_strings (map_to_list m).*1 ↔ is_Some (m !! k).
Proof.
  rewrite sort_strings_perm, list_elem_of_fmap. split.
  - intros ([k' v] & -> & Hk%elem_of_map_to_list). by exists v.
  - intros [v Hv]. exists (k, v). by rewrite elem_of_map_to_list.
Qed.

Lemma written_nul_free r m :
  nul_free r → (∀ k v, m !! k = Some v → nul_free k ∧ nul_free v) →
  Forall nul_free (written r m).
Proof.
  intros Hr Hm. constructor; [done|]. apply Forall_forall. intros x.
  rewrite list_elem_of_bind. intros (k & Hx & [v Hv]%elem_of_sorted_keys).
  rewrite Hv in Hx. simpl in Hx. destruct (Hm _ _ Hv). set_solver.
Qed.

(** The fingerprint preimage identifies the rule and its labels: as long as
    identifiers and labels contain no NUL byte, two rules with different ids or
    different label sets never feed the same bytes to the digest. *)
Theorem fingerprint_input_inj (r1 r2 : string) (m1 m2 : gmap string string) :
  nul_free r1 → nul_free r2 →
  (∀ k v, m1 !! k = Some v → nul_free k ∧ nul_free v) →
  (∀ k v, m2 !! k = Some v → nul_free k ∧ nul_free v) →
  fingerprint_input r1 m1 = fingerprint_input r2 m2 → r1 = r2 ∧ m1 = m2.
Proof.
  intros Hr1 Hr2 Hm1 Hm2. rewrite !fingerprint_input_written.
  intros H%terminated_inj; [|by apply written_nul_free..].
  injection H as -> H. split; [done|]. apply pairs_inj in H as [Hks HF].
  apply map_eq. intros k. rewrite Forall_forall in HF.
  assert (is_Some (m1 !! k) ↔ is_Some (m2 !! k)) as Hk
    by by rewrite <-!elem_of_sorted_keys, Hks.
  specialize (HF k). rewrite elem_of_sorted_keys in HF.
  destruct (m1 !! k) as [v1|], (m2 !! k) as [v2|]; simpl in *; try done.
  - f_equal. by apply HF.
  - by destruct (proj1 Hk (mk_is_Some _ _ eq_refl)).
  - by destruct (proj2 Hk (mk_is_Some _ _ eq_refl)).
Qed.

Lemma fingerprint_input_inj_witness :
  nul_free "arl_1" ∧
  ("arl_1" = "arl_1" ∧ ({["env" := "prod"]} : gmap string string) = {["env" := "prod"]}).
Proof.
  assert (H : nul_free "arl_1") by by apply (bool_decide_eq_true_1 _).
  assert (Hm : ∀ k v, ({["env" := "prod"]} : gmap string string) !! k = Some v →
                 nul_free k ∧ nul_free v).
  { intros k v [<- <-]%lookup_singleton_Some. split; by apply (bool_decide_eq_true_1 _). }
  split; [exact H|].
  apply (fingerprint_input_inj "arl_1" "arl_1" {["env" := "prod"]} {["env" := "prod"]} H H Hm Hm).
  reflexivity.
Defined.
