(* ===== verification/AlertInstances.v ===== *)
(** * The alert instance store

    [internal/persistence/memory_alert_instance_store.go],
    [memory_alert_instance_firing.go], [memory_alert_instance_snapshot.go] and the fingerprint history of
    [memory_alert_rule_timing.go].  The store's mutex makes every operation
    atomic, so an operation is a function of the store.  [time.Now()] and
    [idgen.New] are the arguments [now] and [newid]; the [clone...] calls copy
    values that are immutable here. *)

From S2P Require Import Prelude GoStrings Alerts.

Inductive instance_error :=
| ErrContext (e : ctx_error)
| ErrInvalidInstanceStatus (* invalid alert instance status *)
| ErrInstanceNotFound (* alert instance not found *)
| ErrCannotTransition (from to : string)
| ErrScope (e : scope_error)
| ErrNotFreshPending (* alert instance is not a fresh pending instance *)
| ErrSilenceNotFound. (* alert silence not found *)
#[export] Instance instance_error_eq_dec : EqDecision instance_error.
Proof. solve_decision. Defined.

(** [if err := ctx.Err(); err != nil { return err }] and
    [lockAlertEvaluation], which fails only when the context is done. *)
Definition ctx_check (ctx : Ctx) : result instance_error unit :=
  match ctx with Some e => Err (ErrContext e) | None => Ok tt end.

Record AlertInstanceFilter := {
  F_Limit : Z; F_Offset : Z; F_RuleID : string; F_Status : string; F_Severity : string }.

Record AlertFingerprintTiming := {
  LastFirstFiredAt : option time; LastResolvedAt : option time }.

Record MemoryAlertInstanceStore := MkInstanceStore {
  instances : gmap string AlertInstance;
  silences : gmap string AlertSilence }.

Definition NewMemoryAlertInstanceStore : MemoryAlertInstanceStore := MkInstanceStore ∅ ∅.

Definition with_instances (m : MemoryAlertInstanceStore)
    (f : gmap string AlertInstance → gmap string AlertInstance) : MemoryAlertInstanceStore :=
  MkInstanceStore (f (instances m)) (silences m).

Definition active_status (s : string) : bool :=
  bool_decide (s = InstanceStatusPending) || bool_decide (s = InstanceStatusFiring)
  || bool_decide (s = InstanceStatusAcknowledged).

(** ** Field updates of the handlers *)

Definition set_status (i : AlertInstance) (status : string) (now : time) : AlertInstance :=
  let fired := bool_decide (I_Status i = InstanceStatusPending)
               && bool_decide (status = InstanceStatusFiring)
               && bool_decide (I_FirstFiredAt i = None) in
  {| I_ID := I_ID i; I_RuleID := I_RuleID i; I_Fingerprint := I_Fingerprint i;
     I_Status := status; I_Severity := I_Severity i; I_Labels := I_Labels i;
     I_Annotations := I_Annotations i; I_StartedAt := I_StartedAt i;
     I_FiringScope := I_FiringScope i;
     I_FirstFiredAt := if fired then Some now else I_FirstFiredAt i;
     I_ResolvedAt := if bool_decide (status = InstanceStatusResolved)
                        && bool_decide (I_ResolvedAt i = None)
                     then Some now else I_ResolvedAt i;
     I_LastFiredAt := if fired then now else I_LastFiredAt i;
     I_SuppressedBy := I_SuppressedBy i; I_CreatedAt := I_CreatedAt i;
     I_UpdatedAt := now |}.

Definition set_fired (i : AlertInstance) (scope : FiringScope) (now : time) : AlertInstance :=
  {| I_ID := I_ID i; I_RuleID := I_RuleID i; I_Fingerprint := I_Fingerprint i;
     I_Status := InstanceStatusFiring; I_Severity := I_Severity i; I_Labels := I_Labels i;
     I_Annotations := I_Annotations i; I_StartedAt := I_StartedAt i;
     I_FiringScope := Some scope; I_FirstFiredAt := Some now;
     I_ResolvedAt := I_ResolvedAt i; I_LastFiredAt := now;
     I_SuppressedBy := I_SuppressedBy i; I_CreatedAt := I_CreatedAt i;
     I_UpdatedAt := now |}.

Definition set_last_fired (i : AlertInstance) (now : time) : AlertInstance :=
  {| I_ID := I_ID i; I_RuleID := I_RuleID i; I_Fingerprint := I_Fingerprint i;
     I_Status := I_Status i; I_Severity := I_Severity i; I_Labels := I_Labels i;
     I_Annotations := I_Annotations i; I_StartedAt := I_StartedAt i;
     I_FiringScope := I_FiringScope i; I_FirstFiredAt := I_FirstFiredAt i;
     I_ResolvedAt := I_ResolvedAt i; I_LastFiredAt := now;
     I_SuppressedBy := I_SuppressedBy i; I_CreatedAt := I_CreatedAt i;
     I_UpdatedAt := now |}.

(** The literal built by [CreateAlertInstanceContext]. *)
Definition new_instance (sha256_hex : list ascii → string) (now : time) (newid : string)
    (req : CreateInstanceRequest) : AlertInstance :=
  let severity := NormalizeSeverity (CI_Severity req) in
  let fingerprint := trim_space (CI_Fingerprint req) in
  {| I_ID := newid; I_RuleID := trim_space (CI_RuleID req);
     I_Fingerprint := if is_empty fingerprint
                      then GenerateFingerprint sha256_hex (CI_RuleID req) (CI_Labels req)
                      else fingerprint;
     I_Status := InstanceStatusPending;
     I_Severity := default_str severity SeverityMedium;
     I_Labels := CI_Labels req; I_Annotations := CI_Annotations req;
     I_StartedAt := now; I_FiringScope := None; I_FirstFiredAt := None;
     I_ResolvedAt := None; I_LastFiredAt := now; I_SuppressedBy := "";
     I_CreatedAt := now; I_UpdatedAt := now |}.

(** ** Operations *)

Section operations.
Context (sha256_hex : list ascii → string) `{MapRange}.
Implicit Types m : MemoryAlertInstanceStore.

Definition CreateAlertInstanceContext (ctx : Ctx) (now : time) (newid : string)
    (req : CreateInstanceRequest) m :
    MemoryAlertInstanceStore * result instance_error AlertInstance :=
  match ctx_check ctx with
  | Err e => (m, Err e)
  | Ok _ =>
      let inst := new_instance sha256_hex now newid req in
      (with_instances m <[I_ID inst := inst]>, Ok inst)
  end.

Definition GetAlertInstance (id : string) m : option AlertInstance :=
  instances m !! trim_space id.

Definition GetActiveInstanceByFingerprintContext (ctx : Ctx) (ruleID fingerprint : string) m :
    result instance_error (option AlertInstance) :=
  _ ← ctx_check ctx;
  let ruleID := trim_space ruleID in
  let fingerprint := trim_space fingerprint in
  Ok (snd <$> find_range (λ _ inst,
        bool_decide (I_RuleID inst = ruleID) && bool_decide (I_Fingerprint inst = fingerprint)
        && active_status (I_Status inst)) (instances m)).

(** [sort.Slice] with "newer update first, then larger id". *)
Definition inst_before (x y : AlertInstance) : Prop :=
  I_UpdatedAt y < I_UpdatedAt x
  ∨ I_UpdatedAt x = I_UpdatedAt y ∧ String.le (I_ID y) (I_ID x).

#[export] Instance inst_before_dec : RelDecision inst_before.
Proof. intros x y. unfold inst_before. apply _. Defined.

Definition ListAlertInstancesContext (ctx : Ctx) (filter : AlertInstanceFilter) m :
    result instance_error (list AlertInstance) :=
  _ ← ctx_check ctx;
  let status := NormalizeInstanceStatus (F_Status filter) in
  let severity := NormalizeSeverity (F_Severity filter) in
  let ruleID := trim_space (F_RuleID filter) in
  let out := select (λ inst,
    (is_empty ruleID || bool_decide (I_RuleID inst = ruleID))
    && (is_empty status || bool_decide (I_Status inst = status))
    && (is_empty severity || bool_decide (I_Severity inst = severity))) (instances m) in
  Ok (page (F_Limit filter) (F_Offset filter) (merge_sort inst_before out)).

Definition UpdateAlertInstanceStatusContext (ctx : Ctx) (now : time) (id status : string) m :
    MemoryAlertInstanceStore * result instance_error AlertInstance :=
  match ctx_check ctx with
  | Err e => (m, Err e)
  | Ok _ =>
      let id := trim_space id in
      let status := NormalizeInstanceStatus status in
      if is_empty status then (m, Err ErrInvalidInstanceStatus) else
      match instances m !! id with
      | None => (m, Err ErrInstanceNotFound)
      | Some inst =>
          if negb (CanTransitionInstanceStatus (I_Status inst) status)
          then (m, Err (ErrCannotTransition (I_Status inst) status))
          else if bool_decide (I_Status inst = status) then (m, Ok inst)
          else let inst := set_status inst status now in
               (with_instances m <[id := inst]>, Ok inst)
      end
  end.

Definition UpdateAlertInstanceLastFiredContext (ctx : Ctx) (now : time) (id : string) m :
    MemoryAlertInstanceStore * result instance_error unit :=
  match ctx_check ctx with
  | Err e => (m, Err e)
  | Ok _ =>
      let id := trim_space id in
      match instances m !! id with
      | None => (m, Err ErrInstanceNotFound)
      | Some inst => (with_instances m <[id := set_last_fired inst now]>, Ok tt)
      end
  end.

Definition DeleteAlertInstance (id : string) m :
    MemoryAlertInstanceStore * result instance_error unit :=
  let id := trim_space id in
  match instances m !! id with
  | None => (m, Err ErrInstanceNotFound)
  | Some _ => (with_instances m (delete id), Ok tt)
  end.

Definition FireAlertInstance (ctx : Ctx) (now : time) (id : string) (scope : FiringScope) m :
    MemoryAlertInstanceStore * result instance_error AlertInstance :=
  match NormalizeFiringScope scope with
  | Err e => (m, Err (ErrScope e))
  | Ok normalized =>
      match ctx_check ctx with
      | Err e => (m, Err e)
      | Ok _ =>
          match instances m !! trim_space id with
          | None => (m, Err ErrInstanceNotFound)
          | Some inst =>
              if bool_decide (I_Status inst = InstanceStatusFiring)
                 || bool_decide (I_Status inst = InstanceStatusAcknowledged)
              then (m, Ok inst)
              else if negb (bool_decide (I_Status inst = InstanceStatusPending))
                      || negb (bool_decide (I_FirstFiredAt inst = None))
                      || negb (bool_decide (I_FiringScope inst = None))
              then (m, Err ErrNotFreshPending)
              else let inst := set_fired inst normalized now in
                   (with_instances m <[I_ID inst := inst]>, Ok inst)
          end
      end
  end.

(** [if x == nil || v.After(x) { x = v }] *)
Definition later (x : option time) (v : time) : option time :=
  match x with
  | None => Some v
  | Some t => if t <? v then Some v else Some t
  end.

Definition timing_step (ruleID fingerprint : string) (out : AlertFingerprintTiming)
    (inst : AlertInstance) : AlertFingerprintTiming :=
  if bool_decide (I_RuleID inst = trim_space ruleID)
     && bool_decide (I_Fingerprint inst = trim_space fingerprint) then
    match I_FirstFiredAt inst with
    | None => out
    | Some f =>
        {| LastFirstFiredAt := later (LastFirstFiredAt out) f;
           LastResolvedAt := match I_ResolvedAt inst with
                             | None => LastResolvedAt out
                             | Some r => later (LastResolvedAt out) r
                             end |}
    end
  else out.

Definition AlertFingerprintTimingOp (ctx : Ctx) (ruleID fingerprint : string) m :
    result instance_error AlertFingerprintTiming :=
  _ ← ctx_check ctx;
  Ok (foldl (timing_step ruleID fingerprint)
        {| LastFirstFiredAt := None; LastResolvedAt := None |} (range (instances m)).*2).

(** The rows [ReadFiringAlertInstances] visits, in the order of their ids;
    [ruleIDs] is [None] for a nil slice. *)
Definition ReadFiringAlertInstances (ctx : Ctx) (ruleIDs : option (list string)) m :
    result instance_error (list AlertInstance) :=
  _ ← ctx_check ctx;
  let ids := List.filter (λ kv : string * AlertInstance,
    bool_decide (I_Status kv.2 = InstanceStatusFiring)
    && match ruleIDs with None => true | Some l => bool_decide (I_RuleID kv.2 ∈ l) end)
    (range (instances m)) in
  Ok (omap (λ id, instances m !! id) (sort_strings ids.*1)).

(** *** Silences *)

Definition CreateAlertSilence (now : time) (newid : string) (req : CreateSilenceRequest) m :
    MemoryAlertInstanceStore * AlertSilence :=
  let silence := {|
    S_ID := newid; S_Matchers := CS_Matchers req; S_Reason := trim_space (CS_Reason req);
    S_CreatedBy := default_str (trim_space (CS_CreatedBy req)) "owner";
    S_StartsAt := CS_StartsAt req; S_EndsAt := CS_EndsAt req; S_CreatedAt := now |} in
  (MkInstanceStore (instances m) (<[S_ID silence := silence]> (silences m)), silence).

Definition silence_before (x y : AlertSilence) : Prop := S_CreatedAt y ≤ S_CreatedAt x.
#[export] Instance silence_before_dec : RelDecision silence_before.
Proof. intros x y. unfold silence_before. apply _. Defined.

Definition silence_active (now : time) (s : AlertSilence) : bool :=
  negb ((now <? S_StartsAt s) || (S_EndsAt s <? now)).

Definition ListAlertSilencesContext (ctx : Ctx) (now : time) (limit : Z) (activeOnly : bool) m :
    result instance_error (list AlertSilence) :=
  _ ← ctx_check ctx;
  let out := select (λ s, negb activeOnly || silence_active now s) (silences m) in
  Ok (page limit 0 (merge_sort silence_before out)).

Definition GetAlertSilence (id : string) m : option AlertSilence :=
  silences m !! trim_space id.

Definition DeleteAlertSilence (id : string) m :
    MemoryAlertInstanceStore * result instance_error unit :=
  let id := trim_space id in
  match silences m !! id with
  | None => (m, Err ErrSilenceNotFound)
  | Some _ => (MkInstanceStore (instances m) (delete id (silences m)), Ok tt)
  end.
End operations.

(** ** The lifecycle of an instance

    [wf_instance] ties the timestamps and the recorded scope to the status;
    [evolves] is what may happen to an instance between two points in time. *)

Definition status_rank (s : string) : nat :=
  if bool_decide (s = InstanceStatusPending) then 0
  else if bool_decide (s = InstanceStatusResolved) then 2 else 1.

Inductive wf_instance (i : AlertInstance) : Prop :=
| wf_pending :
    I_Status i = InstanceStatusPending → I_FirstFiredAt i = None →
    I_ResolvedAt i = None → I_FiringScope i = None → wf_instance i
| wf_active :
    I_Status i = InstanceStatusFiring ∨ I_Status i = InstanceStatusAcknowledged →
    is_Some (I_FirstFiredAt i) → I_ResolvedAt i = None → wf_instance i
| wf_resolved :
    I_Status i = InstanceStatusResolved → is_Some (I_ResolvedAt i) →
    (I_FirstFiredAt i = None → I_FiringScope i = None) → wf_instance i.

Record evolves (i j : AlertInstance) : Prop := {
  ev_id : I_ID j = I_ID i;
  ev_rule : I_RuleID j = I_RuleID i;
  ev_fingerprint : I_Fingerprint j = I_Fingerprint i;
  ev_created : I_CreatedAt j = I_CreatedAt i ∧ I_StartedAt j = I_StartedAt i;
  ev_labels : I_Labels j = I_Labels i ∧ I_Annotations j = I_Annotations i
    ∧ I_Severity j = I_Severity i;
  ev_rank : (status_rank (I_Status i) ≤ status_rank (I_Status j))%nat;
  ev_first : is_Some (I_FirstFiredAt i) → I_FirstFiredAt j = I_FirstFiredAt i;
  ev_scope : is_Some (I_FiringScope i) → I_FiringScope j = I_FiringScope i;
  ev_resolved : is_Some (I_ResolvedAt i) → I_ResolvedAt j = I_ResolvedAt i }.

Definition wf_store (m : MemoryAlertInstanceStore) : Prop :=
  map_Forall (λ id i, I_ID i = id ∧ wf_instance i) (instances m).

#[export] Instance evolves_preorder : PreOrder evolves.
Proof.
  split.
  - intros i. by constructor.
  - intros i j k [] []. constructor; try (intuition congruence || lia).
    + intros Hi. rewrite <-ev_first0 by done. apply ev_first1. by rewrite ev_first0.
    + intros Hi. rewrite <-ev_scope0 by done. apply ev_scope1. by rewrite ev_scope0.
    + intros Hi. rewrite <-ev_resolved0 by done. apply ev_resolved1. by rewrite ev_resolved0.
Qed.

Lemma wf_instance_status i : wf_instance i → I_Status i ∈ instance_statuses.
Proof. by intros [-> _ _ _ | [-> | ->] _ _ | -> _ _]; apply (bool_decide_eq_true_1 _). Qed.

Lemma wf_new_instance sha now id req : wf_instance (new_instance sha now id req).
Proof. by apply wf_pending. Qed.

(** A status change that the transition table allows. *)
Lemma set_status_spec i status now :
  wf_instance i → status ∈ instance_statuses → I_Status i ≠ status →
  CanTransitionInstanceStatus (I_Status i) status = true →
  wf_instance (set_status i status now) ∧ evolves i (set_status i status now).
Proof.
  intros Hwf Hst Hne Hc%can_transition_spec; [|by apply wf_instance_status|done].
  destruct Hc as [|Hc]; [done|]. unfold set_status.
  destruct Hwf as [Hi Hf Hr Hs|Hi [t Hf] Hr|Hi Hr Hs]; rewrite ?Hi in *.
  - rewrite Hf, Hr. destruct Hc as [[-> _]|[[_ ->]|[[? _]|[? _]]]]; try done; simpl.
    + split; [by apply wf_resolved|]. constructor; simpl; rewrite ?Hi, ?Hf, ?Hr; try done.
      by apply (bool_decide_eq_true_1 _).
    + split; [by apply wf_active; [left|..]|].
      constructor; simpl; rewrite ?Hi, ?Hf, ?Hr; try done. by apply (bool_decide_eq_true_1 _).
  - assert (bool_decide (I_Status i = InstanceStatusPending) = false) as ->
      by by destruct Hi as [-> | ->].
    rewrite Hf, Hr. simpl.
    assert (status = InstanceStatusResolved ∨ (status = InstanceStatusFiring
      ∨ status = InstanceStatusAcknowledged)) as [->|Hs].
    { destruct Hc as [[? _]|[[? ?]|[[? ?]|[? ?]]]]; auto. }
    + split; [by apply wf_resolved|]. constructor; simpl; rewrite ?Hf, ?Hr; try done.
      by destruct Hi as [-> | ->]; apply (bool_decide_eq_true_1 _).
    + split.
      * apply wf_active; [done|done|]. simpl. by destruct Hs as [-> | ->].
      * constructor; simpl; rewrite ?Hf, ?Hr; try done; try (by destruct 1).
        by destruct Hi as [-> | ->], Hs as [-> | ->]; apply (bool_decide_eq_true_1 _).
  - exfalso. by destruct Hc as [[_ ?]|[[? _]|[[? _]|[? _]]]].
Qed.

Lemma set_fired_spec i scope now :
  wf_instance i → I_Status i = InstanceStatusPending →
  wf_instance (set_fired i scope now) ∧ evolves i (set_fired i scope now).
Proof.
  intros [Hi Hf Hr Hs|[Hi|Hi] _ _|Hi _ _] Hp; try (by rewrite Hp in Hi). split.
  - apply wf_active; simpl; eauto.
  - constructor; simpl; rewrite ?Hi, ?Hf, ?Hs; try done.
    by apply (bool_decide_eq_true_1 _). all: by intros [? [=]].
Qed.

Lemma set_last_fired_spec i now :
  wf_instance i → wf_instance (set_last_fired i now) ∧ evolves i (set_last_fired i now).
Proof.
  intros Hi. split; [|by constructor].
  destruct Hi; [by apply wf_pending|by apply wf_active|by apply wf_resolved].
Qed.

(** ** Runs of the store

    A run applies operations in any order, with any clock readings and any
    arguments.  [used] collects the ids [idgen.New] has returned; a new id is
    not among them. *)

Section runs.
Context (sha256_hex : list ascii → string).

Inductive inst_step : gset string * MemoryAlertInstanceStore →
    gset string * MemoryAlertInstanceStore → Prop :=
| step_create ctx now newid req u m : newid ∉ u →
    inst_step (u, m)
      ({[newid]} ∪ u, (CreateAlertInstanceContext sha256_hex ctx now newid req m).1)
| step_status ctx now id status u m :
    inst_step (u, m) (u, (UpdateAlertInstanceStatusContext ctx now id status m).1)
| step_last_fired ctx now id u m :
    inst_step (u, m) (u, (UpdateAlertInstanceLastFiredContext ctx now id m).1)
| step_fire ctx now id scope u m :
    inst_step (u, m) (u, (FireAlertInstance ctx now id scope m).1)
| step_delete id u m : inst_step (u, m) (u, (DeleteAlertInstance id m).1)
| step_silence now newid req u m :
    inst_step (u, m) (u, (CreateAlertSilence now newid req m).1)
| step_unsilence id u m : inst_step (u, m) (u, (DeleteAlertSilence id m).1).

Definition good (s : gset string * MemoryAlertInstanceStore) : Prop :=
  wf_store s.2 ∧ dom (instances s.2) ⊆ s.1.

(** Every operation writes at most one instance: a new one under a fresh id, an
    evolved one under its own id, or it removes one. *)
Inductive inst_effect (u : gset string) (m : gmap string AlertInstance) :
    gset string → gmap string AlertInstance → Prop :=
| eff_none : inst_effect u m u m
| eff_new i : I_ID i ∉ u → wf_instance i →
    inst_effect u m ({[I_ID i]} ∪ u) (<[I_ID i := i]> m)
| eff_burn id : inst_effect u m ({[id]} ∪ u) m
| eff_write id i j : m !! id = Some i → wf_instance j → evolves i j →
    inst_effect u m u (<[id := j]> m)
| eff_delete id : inst_effect u m u (delete id m).

Lemma inst_step_effect s s' :
  good s → inst_step s s' → inst_effect s.1 (instances s.2) s'.1 (instances s'.2).
Proof.
  intros [Hwf _] Hstep. destruct Hstep; simpl in *.
  - unfold CreateAlertInstanceContext. case_match; simpl; [|apply eff_burn].
    by apply (eff_new _ _ (new_instance sha256_hex now newid req)), wf_new_instance.
  - unfold UpdateAlertInstanceStatusContext. case_match; simpl; [|apply eff_none].
    case_match eqn:Hst; [apply eff_none|]. bool_prop.
    destruct (_ !! _) as [i|] eqn:Hi; [|apply eff_none].
    destruct (Hwf _ _ Hi) as [_ Hwi].
    case_match eqn:Hc; [apply eff_none|]. bool_prop.
    case_bool_decide; [apply eff_none|]. simpl.
    destruct (NormalizeInstanceStatus_cases status) as [Hk|Hk]; [|done].
    destruct (set_status_spec i (NormalizeInstanceStatus status) now) as [? ?]; try done.
    by eapply eff_write.
  - unfold UpdateAlertInstanceLastFiredContext. case_match; simpl; [|apply eff_none].
    destruct (_ !! _) as [i|] eqn:Hi; [|apply eff_none]. simpl.
    destruct (Hwf _ _ Hi) as [_ Hwi].
    by eapply eff_write; [done|..]; apply set_last_fired_spec.
  - unfold FireAlertInstance. case_match; simpl; [|apply eff_none].
    case_match; simpl; [|apply eff_none].
    destruct (_ !! _) as [i|] eqn:Hi; [|apply eff_none]. simpl.
    destruct (Hwf _ _ Hi) as [Hid Hwi].
    case_match; [apply eff_none|]. case_match eqn:Hc; [apply eff_none|]. bool_prop. simpl.
    rewrite Hid. by eapply eff_write; [done|..]; apply set_fired_spec.
  - unfold DeleteAlertInstance. case_match; [apply eff_delete|apply eff_none].
  - apply eff_none.
  - unfold DeleteAlertSilence. case_match; apply eff_none.
Qed.

Lemma inst_effect_good u m u' m' :
  inst_effect u m u' m' →
  map_Forall (λ id i, I_ID i = id ∧ wf_instance i) m → dom m ⊆ u →
  map_Forall (λ id i, I_ID i = id ∧ wf_instance i) m' ∧ dom m' ⊆ u' ∧ u ⊆ u'.
Proof.
  intros Heff Hwf Hd. destruct Heff as [|i Hn Hi|id|id i j Hi Hj Hev|id].
  - done.
  - split_and!; [by apply map_Forall_insert_2|set_solver|set_solver].
  - split_and!; [done|set_solver|set_solver].
  - split_and!; [|apply elem_of_dom_2 in Hi; set_solver|done].
    apply map_Forall_insert_2; [|done]. destruct (Hwf _ _ Hi) as [<- _].
    by rewrite (ev_id _ _ Hev).
  - split_and!; [by apply map_Forall_delete|set_solver|done].
Qed.

Lemma inst_step_good s s' : good s → inst_step s s' → good s' ∧ s.1 ⊆ s'.1.
Proof.
  intros Hs Hstep. pose proof (inst_step_effect _ _ Hs Hstep) as Heff.
  destruct Hs as [Hwf Hd]. by destruct (inst_effect_good _ _ _ _ Heff Hwf Hd) as (? & ? & ?).
Qed.

Lemma runs_good s s' : good s → rtc inst_step s s' → good s' ∧ s.1 ⊆ s'.1.
Proof.
  intros Hs Hr. revert Hs. induction Hr as [|s t s' Hst _ IH]; intros Hs; [done|].
  destruct (inst_step_good _ _ Hs Hst) as [Ht ?]. destruct (IH Ht). split; [done|set_solver].
Qed.

Lemma good_init : good (∅, NewMemoryAlertInstanceStore).
Proof. split; simpl; [apply map_Forall_empty|set_solver]. Qed.

(** One step keeps an instance, evolves it, or removes it; it does not bring a
    used id back. *)
Lemma inst_step_lookup s s' id j :
  good s → inst_step s s' → id ∈ s.1 → instances s'.2 !! id = Some j →
  ∃ i, instances s.2 !! id = Some i ∧ evolves i j.
Proof.
  intros Hs Hstep Hid Hj. destruct (inst_step_effect _ _ Hs Hstep) as [|i Hn Hi|id'|id' i k Hi Hk Hev|id'].
  - by exists j.
  - apply lookup_insert_Some in Hj as [[<- _]|[_ Hj]]; [done|]. by exists j.
  - by exists j.
  - apply lookup_insert_Some in Hj as [[<- <-]|[_ Hj]]; [by exists i|]. by exists j.
  - apply lookup_delete_Some in Hj as [_ Hj]. by exists j.
Qed.

Lemma runs_lookup s s' id j :
  good s → rtc inst_step s s' → id ∈ s.1 → instances s'.2 !! id = Some j →
  ∃ i, instances s.2 !! id = Some i ∧ evolves i j.
Proof.
  intros Hs Hr. revert Hs. induction Hr as [s|s t s' Hst Hr IH]; intros Hs Hid Hj.
  - by exists j.
  - destruct (inst_step_good _ _ Hs Hst) as [Ht Hu].
    destruct (IH Ht (Hu _ Hid) Hj) as (k & Hk & Hkj).
    destruct (inst_step_lookup _ _ _ _ Hs Hst Hid Hk) as (i & Hi & Hik).
    exists i. split; [done|by etrans].
Qed.

(** C18: lifecycle invariant: whatever operations ran, in whatever order and
    with whatever clock readings, every stored alert instance sits under its
    own id and is either pending and never fired, firing or acknowledged with
    a first firing time and no resolution time, or resolved with a resolution
    time; no recorded firing scope without a first firing time. *)
Theorem instance_lifecycle_invariant u m :
  rtc inst_step (∅, NewMemoryAlertInstanceStore) (u, m) → wf_store m.
Proof. intros Hr. by destruct (runs_good _ _ good_init Hr) as [[? _] _]. Qed.

(** C21: history is immutable: between two points of a run an instance keeps its
    id, rule, fingerprint, labels and creation times, never goes back from
    firing to pending or from resolved to anything else, and its first firing
    time, firing scope and resolution time, once set, never change. *)
Theorem instance_history_immutable s s' id i j :
  rtc inst_step (∅, NewMemoryAlertInstanceStore) s → rtc inst_step s s' →
  instances s.2 !! id = Some i → instances s'.2 !! id = Some j → evolves i j.
Proof.
  intros Hr Hr' Hi Hj. destruct (runs_good _ _ good_init Hr) as [Hs _].
  destruct (runs_lookup s s' id j) as (i' & ? & ?); [done..| |done|].
  - destruct Hs as [_ Hd]. apply Hd. by eapply elem_of_dom_2.
  - by simplify_eq.
Qed.
End runs.

(** A run of four operations: one alert is created, fires and is resolved. *)
Definition demo_sha (l : list ascii) : string := of_chars l.
Definition demo_req : CreateInstanceRequest := {|
  CI_RuleID := "arl_1"; CI_Fingerprint := "fp"; CI_Severity := "HIGH";
  CI_Labels := ∅; CI_Annotations := ∅ |}.
Definition demo_scope : FiringScope :=
  {| Version := 1; AssetIDs := ["b"; "a"; "b"]; GroupIDs := []; SyntheticCheckIDs := [] |}.
Definition demo_created : MemoryAlertInstanceStore :=
  (CreateAlertInstanceContext demo_sha None 10 "ainst_1" demo_req NewMemoryAlertInstanceStore).1.
Definition demo_firing : MemoryAlertInstanceStore :=
  (FireAlertInstance None 20 "ainst_1" demo_scope demo_created).1.
Definition demo_resolved : MemoryAlertInstanceStore :=
  (UpdateAlertInstanceStatusContext None 30 "ainst_1" "resolved" demo_firing).1.

Lemma demo_run_firing :
  rtc (inst_step demo_sha) (∅, NewMemoryAlertInstanceStore) ({["ainst_1"]} ∪ ∅, demo_firing).
Proof.
  eapply rtc_l; [apply (step_create demo_sha None 10 "ainst_1" demo_req); set_solver|].
  apply rtc_once, (step_fire demo_sha None 20 "ainst_1" demo_scope).
Qed.

Lemma demo_run_resolved :
  rtc (inst_step demo_sha) ({["ainst_1"]} ∪ ∅, demo_firing) ({["ainst_1"]} ∪ ∅, demo_resolved).
Proof. apply rtc_once, (step_status demo_sha None 30 "ainst_1" "resolved"). Qed.

Lemma instance_lifecycle_invariant_witness :
  wf_store demo_firing ∧
  (I_FirstFiredAt <$> instances demo_firing !! "ainst_1") = Some (Some 20).
Proof.
  split; [|by vm_compute]. apply (instance_lifecycle_invariant demo_sha _ _ demo_run_firing).
Defined.

Lemma instance_history_immutable_witness :
  ∃ i j, instances demo_firing !! "ainst_1" = Some i ∧
    instances demo_resolved !! "ainst_1" = Some j ∧ evolves i j ∧ I_ResolvedAt j = Some 30.
Proof.
  eexists _, _. split_and!; [reflexivity|reflexivity| |reflexivity].
  apply (instance_history_immutable demo_sha _ _ "ainst_1" _ _ demo_run_firing demo_run_resolved);
    reflexivity.
Defined.

(** ** Functional behaviour *)

(** Firing an instance of a well-formed store, on every branch: an invalid
    scope, a done context or an unknown id is refused and changes nothing; a
    firing or acknowledged instance is returned unchanged whatever the scope (a
    second call is idempotent and keeps the first scope); a resolved one is refused; a
    pending one always becomes firing with the normalised scope and [now] as
    first and last firing time, and no other instance changes. *)
Theorem fire_alert_instance_spec ctx now id scope m :
  wf_store m →
  match NormalizeFiringScope scope, ctx, GetAlertInstance id m with
  | Err e, _, _ => FireAlertInstance ctx now id scope m = (m, Err (ErrScope e))
  | Ok _, Some e, _ => FireAlertInstance ctx now id scope m = (m, Err (ErrContext e))
  | Ok _, None, None => FireAlertInstance ctx now id scope m = (m, Err ErrInstanceNotFound)
  | Ok sc, None, Some i =>
      if bool_decide (I_Status i = InstanceStatusPending) then
        ∃ j, FireAlertInstance ctx now id scope m = (with_instances m <[I_ID i := j]>, Ok j)
          ∧ evolves i j ∧ wf_instance j ∧ I_Status j = InstanceStatusFiring
          ∧ I_FirstFiredAt j = Some now ∧ I_LastFiredAt j = now ∧ I_FiringScope j = Some sc
      else if bool_decide (I_Status i = InstanceStatusResolved) then
        FireAlertInstance ctx now id scope m = (m, Err ErrNotFreshPending)
      else FireAlertInstance ctx now id scope m = (m, Ok i)
  end.
Proof.
  intros Hwf. unfold FireAlertInstance, GetAlertInstance.
  destruct (NormalizeFiringScope scope) as [sc|]; [|done]. destruct ctx; [done|]. simpl.
  destruct (instances m !! trim_space id) as [i|] eqn:Hi; [|done].
  destruct (Hwf _ _ Hi) as [_ Hwi].
  pose proof (set_fired_spec i sc now Hwi).
  destruct Hwi as [Hs Hf _ Hsc|[Hs|Hs] _ _|Hs _ _]; rewrite Hs; simpl; try done.
  rewrite Hf, Hsc. simpl. exists (set_fired i sc now). naive_solver.
Qed.

Lemma fire_alert_instance_spec_witness :
  wf_store demo_created ∧
  ∃ i j, GetAlertInstance "ainst_1" demo_created = Some i ∧
    FireAlertInstance None 20 "ainst_1" demo_scope demo_created =
      (with_instances demo_created <[I_ID i := j]>, Ok j) ∧
    I_FiringScope j = Some {| Version := 1; AssetIDs := ["a"; "b"]; GroupIDs := [];
                              SyntheticCheckIDs := [] |}.
Proof.
  assert (Hwf : wf_store demo_created).
  { apply map_Forall_insert_2; [|apply map_Forall_empty]. split; [done|]. by apply wf_pending. }
  split; [exact Hwf|].
  pose proof (fire_alert_instance_spec None 20 "ainst_1" demo_scope demo_created Hwf) as H.
  destruct (NormalizeFiringScope demo_scope) as [sc|] eqn:Hsc;
    [|vm_compute in Hsc; discriminate Hsc].
  vm_compute in Hsc. injection Hsc as <-.
  destruct H as (j & H1 & _ & _ & _ & _ & _ & H2).
  eexists _, j. split; [reflexivity|]. split; [exact H1|exact H2].
Defined.

(** The rows a filter admits. *)
Definition admits (filter : AlertInstanceFilter) (i : AlertInstance) : Prop :=
  (trim_space (F_RuleID filter) = "" ∨ I_RuleID i = trim_space (F_RuleID filter)) ∧
  (NormalizeInstanceStatus (F_Status filter) = ""
   ∨ I_Status i = NormalizeInstanceStatus (F_Status filter)) ∧
  (NormalizeSeverity (F_Severity filter) = ""
   ∨ I_Severity i = NormalizeSeverity (F_Severity filter)).

Lemma is_empty_orb s (b : bool) : is_empty s || b = true ↔ s = "" ∨ b = true.
Proof. by rewrite orb_true_iff, bool_decide_eq_true. Qed.

#[export] Instance inst_before_total : Total inst_before.
Proof.
  intros x y. unfold inst_before.
  destruct (total String.le (I_ID x) (I_ID y)); destruct (Z.lt_trichotomy (I_UpdatedAt x) (I_UpdatedAt y)) as [?|[?|?]]; auto.
Qed.

#[export] Instance inst_before_trans : Transitive inst_before.
Proof.
  intros x y z. unfold inst_before. intros [?|[? ?]] [?|[? ?]]; try (left; lia).
  right. split; [congruence|by etrans].
Qed.

(** Listing returns one page of the admitted instances sorted by last
    update, newest first: the rows are a contiguous part of a sorted
    permutation of all admitted instances, at most 500 of them, starting at
    the offset. *)
Lemma list_alert_instances_spec `{MapRange} filter m :
  ∃ rows, ListAlertInstancesContext None filter m =
      Ok (take (Z.to_nat (clamp_limit (F_Limit filter)))
            (drop (Z.to_nat (F_Offset filter)) rows)) ∧
    StronglySorted inst_before rows ∧
    (∀ i, i ∈ rows ↔ admits filter i ∧ ∃ id, instances m !! id = Some i) ∧
    1 ≤ clamp_limit (F_Limit filter) ≤ 500.
Proof.
  unfold ListAlertInstancesContext. simpl. eexists. split_and!.
  - unfold page. rewrite <-drop_neg_offset. reflexivity.
  - apply StronglySorted_merge_sort; apply _.
  - intros i. rewrite merge_sort_Permutation, elem_of_select.
    unfold admits. split.
    + intros (k & Hk & Hf). rewrite !andb_true_iff, !is_empty_orb, !bool_decide_eq_true in Hf.
      split; [tauto|eauto].
    + intros (Hf & k & Hk). exists k. rewrite !andb_true_iff, !is_empty_orb, !bool_decide_eq_true.
      tauto.
  - apply clamp_limit_bounds.
  - apply clamp_limit_bounds.
Qed.

(** [o] is the latest of the times that satisfy [P]. *)
Definition is_latest (o : option time) (P : time → Prop) : Prop :=
  match o with
  | None => ∀ t, ¬ P t
  | Some t => P t ∧ ∀ t', P t' → t' ≤ t
  end.

Lemma is_latest_later o v (P Q : time → Prop) :
  is_latest o P → (∀ t, Q t ↔ P t ∨ t = v) → is_latest (later o v) Q.
Proof.
  unfold is_latest, later. intros Ho HQ. destruct o as [t|]; [|naive_solver lia].
  destruct Ho as [HP Hmax]. destruct (t <? v) eqn:?; bool_prop; split.
  1, 3: naive_solver.
  all: intros t' [?%Hmax | ->]%HQ; lia.
Qed.

Lemma is_latest_ext o (P Q : time → Prop) :
  is_latest o P → (∀ t, Q t ↔ P t) → is_latest o Q.
Proof. unfold is_latest. destruct o; naive_solver. Qed.

Lemma is_latest_add {A} o v (x : A) seen (Q : A → time → Prop) :
  (∀ t, Q x t ↔ t = v) → is_latest o (λ t, ∃ y, y ∈ seen ∧ Q y t) →
  is_latest (later o v) (λ t, ∃ y, y ∈ x :: seen ∧ Q y t).
Proof.
  intros Hx Ho. eapply is_latest_later; [done|]. intros t. setoid_rewrite elem_of_cons.
  rewrite <-Hx. naive_solver.
Qed.

Lemma is_latest_skip {A} o (x : A) seen (Q : A → time → Prop) :
  (∀ t, ¬ Q x t) → is_latest o (λ t, ∃ y, y ∈ seen ∧ Q y t) →
  is_latest o (λ t, ∃ y, y ∈ x :: seen ∧ Q y t).
Proof.
  intros Hx Ho. eapply is_latest_ext; [done|]. intros t. setoid_rewrite elem_of_cons. naive_solver.
Qed.

Definition history (ruleID fingerprint : string) (i : AlertInstance) : Prop :=
  I_RuleID i = trim_space ruleID ∧ I_Fingerprint i = trim_space fingerprint.

Lemma timing_fold ruleID fingerprint l seen out :
  is_latest (LastFirstFiredAt out)
    (λ t, ∃ i, i ∈ seen ∧ history ruleID fingerprint i ∧ I_FirstFiredAt i = Some t) →
  is_latest (LastResolvedAt out)
    (λ t, ∃ i, i ∈ seen ∧ history ruleID fingerprint i ∧ is_Some (I_FirstFiredAt i)
       ∧ I_ResolvedAt i = Some t) →
  let out' := foldl (timing_step ruleID fingerprint) out l in
  is_latest (LastFirstFiredAt out')
    (λ t, ∃ i, i ∈ l ++ seen ∧ history ruleID fingerprint i ∧ I_FirstFiredAt i = Some t) ∧
  is_latest (LastResolvedAt out')
    (λ t, ∃ i, i ∈ l ++ seen ∧ history ruleID fingerprint i ∧ is_Some (I_FirstFiredAt i)
       ∧ I_ResolvedAt i = Some t).
Proof.
  revert seen out. induction l as [|i l IH]; intros seen out H1 H2; [done|]. simpl.
  destruct (IH (i :: seen) (timing_step ruleID fingerprint out i)) as [IH1 IH2].
  - unfold timing_step. destruct (_ && _) eqn:E; bool_prop.
    + destruct (I_FirstFiredAt i) as [f|] eqn:Hf; simpl.
      * apply is_latest_add; [unfold history; naive_solver|done].
      * apply is_latest_skip; [naive_solver|done].
    + apply is_latest_skip; [|done]. intros t [[? ?] _].
      apply andb_false_iff in E as [E|E]; by bool_prop.
  - unfold timing_step. destruct (_ && _) eqn:E; bool_prop.
    + destruct (I_FirstFiredAt i) as [f|] eqn:Hf; simpl.
      * destruct (I_ResolvedAt i) as [r|] eqn:Hr.
        -- apply is_latest_add; [unfold history; rewrite Hf; naive_solver|done].
        -- apply is_latest_skip; [naive_solver|done].
      * apply is_latest_skip; [|done]. rewrite Hf. by intros t (_ & [? [=]] & _).
    + apply is_latest_skip; [|done]. intros t [[? ?] _].
      apply andb_false_iff in E as [E|E]; by bool_prop.
  - assert (Hel : ∀ x, x ∈ l ++ i :: seen ↔ x ∈ i :: l ++ seen) by set_solver.
    split; (eapply is_latest_ext; [done|]); intros t; by setoid_rewrite Hel.
Qed.

Lemma fingerprint_timing `{MapRange} ruleID fingerprint m :
  ∃ out, AlertFingerprintTimingOp None ruleID fingerprint m = Ok out ∧
    is_latest (LastFirstFiredAt out) (λ t, ∃ id i, instances m !! id = Some i ∧
      history ruleID fingerprint i ∧ I_FirstFiredAt i = Some t) ∧
    is_latest (LastResolvedAt out) (λ t, ∃ id i, instances m !! id = Some i ∧
      history ruleID fingerprint i ∧ is_Some (I_FirstFiredAt i) ∧ I_ResolvedAt i = Some t).
Proof.
  eexists. split; [reflexivity|].
  destruct (timing_fold ruleID fingerprint (range (instances m)).*2 []
    {| LastFirstFiredAt := None; LastResolvedAt := None |}) as [H1 H2];
    [by intros t (? & ?%not_elem_of_nil & _)..|].
  split; (eapply is_latest_ext; [done|]); intros t; setoid_rewrite app_nil_r;
    setoid_rewrite elem_of_range_values; naive_solver.
Qed.

(** The fingerprint history of a rule is exact: it reports the latest first
    firing time and the latest resolution time over all instances of the rule
    and fingerprint that have fired, and nothing else. *)
Theorem fingerprint_timing_spec `{MapRange} ruleID fingerprint m :
  ∃ out, AlertFingerprintTimingOp None ruleID fingerprint m = Ok out ∧
    is_latest (LastFirstFiredAt out) (λ t, ∃ id i, instances m !! id = Some i ∧
      history ruleID fingerprint i ∧ I_FirstFiredAt i = Some t) ∧
    is_latest (LastResolvedAt out) (λ t, ∃ id i, instances m !! id = Some i ∧
      history ruleID fingerprint i ∧ is_Some (I_FirstFiredAt i) ∧ I_ResolvedAt i = Some t).
Proof. apply fingerprint_timing. Qed.
