(* ===== verification/Incidents.v ===== *)
(** * Incidents

    [internal/incidents/types.go], [internal/persistence/memory_incident_store.go] and
    [memory_auto_incident.go]: the incident status machine, the store of
    incidents with their alert links, and the automatic incident that an alert
    instance gets at most once. *)

From S2P Require Import Prelude GoStrings.

(** ** Data *)

Definition SeverityCritical := "critical".
Definition SeverityHigh := "high".
Definition SeverityMedium := "medium".
Definition SeverityLow := "low".
Definition StatusOpen := "open".
Definition StatusInvestigating := "investigating".
Definition StatusMitigated := "mitigated".
Definition StatusResolved := "resolved".
Definition StatusClosed := "closed".
Definition SourceManual := "manual".
Definition SourceAlertAuto := "alert_auto".
Definition LinkTypeTrigger := "trigger".
Definition LinkTypeRelated := "related".
Definition LinkTypeSymptom := "symptom".
Definition LinkTypeCause := "cause".

Definition severities := [SeverityCritical; SeverityHigh; SeverityMedium; SeverityLow].
Definition statuses :=
  [StatusOpen; StatusInvestigating; StatusMitigated; StatusResolved; StatusClosed].
Definition sources := [SourceManual; SourceAlertAuto].
Definition link_types := [LinkTypeTrigger; LinkTypeRelated; LinkTypeSymptom; LinkTypeCause].

Definition NormalizeSeverity : string → string := keyword severities.
Definition NormalizeStatus : string → string := keyword statuses.
Definition NormalizeSource : string → string := keyword sources.
Definition NormalizeLinkType : string → string := keyword link_types.

Definition one_of (l : list string) (s : string) : bool := bool_decide (s ∈ l).

Definition CanTransitionStatus (from to : string) : bool :=
  let from := NormalizeStatus from in
  let to := NormalizeStatus to in
  if is_empty from || is_empty to then false
  else if bool_decide (from = to) then true
  else if bool_decide (from = StatusOpen) then
    one_of [StatusInvestigating; StatusResolved; StatusClosed] to
  else if bool_decide (from = StatusInvestigating) then
    one_of [StatusMitigated; StatusResolved; StatusClosed] to
  else if bool_decide (from = StatusMitigated) then
    one_of [StatusInvestigating; StatusResolved; StatusClosed] to
  else if bool_decide (from = StatusResolved) then one_of [StatusClosed; StatusInvestigating] to
  else if bool_decide (from = StatusClosed) then bool_decide (to = StatusInvestigating)
  else false.

Inductive incident_error :=
| ErrContext (e : ctx_error)
| ErrIncidentNotFound
| ErrInvalidStatusTransition
| ErrAlertReferenceRequired
| ErrIncidentAlertLinkConflict
| ErrInvalidSeverity (* invalid incident severity *)
| ErrInvalidLinkType (* invalid incident alert link_type *)
| ErrNotFound.
#[export] Instance incident_error_eq_dec : EqDecision incident_error.
Proof. solve_decision. Defined.

Record CreateIncidentRequest := {
  CN_Title : string; CN_Summary : string; CN_Severity : string; CN_Source : string;
  CN_GroupID : string; CN_PrimaryAssetID : string; CN_Assignee : string;
  CN_Metadata : gmap string string; CN_CreatedBy : string }.

Record UpdateIncidentRequest := {
  UN_Title : option string; UN_Summary : option string; UN_Status : option string;
  UN_Severity : option string; UN_GroupID : option string;
  UN_PrimaryAssetID : option string; UN_Assignee : option string;
  UN_Metadata : option (gmap string string); UN_RootCause : option string;
  UN_ActionItems : option (list string); UN_LessonsLearned : option string }.

Record Incident := {
  N_ID : string; N_Title : string; N_Summary : string; N_Status : string;
  N_Severity : string; N_Source : string; N_GroupID : string; N_PrimaryAssetID : string;
  N_Assignee : string; N_CreatedBy : string; N_OpenedAt : time;
  N_MitigatedAt : option time; N_ResolvedAt : option time; N_ClosedAt : option time;
  N_RootCause : string; N_ActionItems : list string; N_LessonsLearned : string;
  N_Metadata : gmap string string; N_CreatedAt : time; N_UpdatedAt : time }.

Record LinkAlertRequest := {
  LR_AlertRuleID : string; LR_AlertInstanceID : string; LR_AlertFingerprint : string;
  LR_LinkType : string; LR_CreatedBy : string }.

Record AlertLink := {
  L_ID : string; L_IncidentID : string; L_AlertRuleID : string; L_AlertInstanceID : string;
  L_AlertFingerprint : string; L_LinkType : string; L_CreatedBy : string;
  L_CreatedAt : time }.

Record IncidentFilter := {
  NF_Limit : Z; NF_Offset : Z; NF_Status : string; NF_Severity : string;
  NF_GroupID : string; NF_Assignee : string; NF_Source : string }.

Record MemoryIncidentStore := MkIncidentStore {
  incidents : gmap string Incident;
  links : gmap string (list AlertLink) }.

Definition NewMemoryIncidentStore : MemoryIncidentStore := MkIncidentStore ∅ ∅.

(** [m.links[id]] of a missing key is the nil slice. *)
Definition links_of (m : MemoryIncidentStore) (id : string) : list AlertLink :=
  default [] (links m !! id).

(** [ctx.Err()] and [lockAlertEvaluation]. *)
Definition ctx_check (ctx : Ctx) : result incident_error unit :=
  match ctx with Some e => Err (ErrContext e) | None => Ok tt end.

(** ** Operations *)

Definition newMemoryIncident (now : time) (newid : string) (req : CreateIncidentRequest) :
    Incident := {|
  N_ID := newid; N_Title := trim_space (CN_Title req); N_Summary := trim_space (CN_Summary req);
  N_Status := StatusOpen;
  N_Severity := default_str (NormalizeSeverity (CN_Severity req)) SeverityMedium;
  N_Source := default_str (NormalizeSource (CN_Source req)) SourceManual;
  N_GroupID := trim_space (CN_GroupID req);
  N_PrimaryAssetID := trim_space (CN_PrimaryAssetID req);
  N_Assignee := trim_space (CN_Assignee req);
  N_CreatedBy := default_str (trim_space (CN_CreatedBy req)) "owner";
  N_OpenedAt := now; N_MitigatedAt := None; N_ResolvedAt := None; N_ClosedAt := None;
  N_RootCause := ""; N_ActionItems := []; N_LessonsLearned := "";
  N_Metadata := CN_Metadata req; N_CreatedAt := now; N_UpdatedAt := now |}.

Definition CreateIncidentContext (ctx : Ctx) (now : time) (newid : string)
    (req : CreateIncidentRequest) (m : MemoryIncidentStore) :
    MemoryIncidentStore * result incident_error Incident :=
  match ctx_check ctx with
  | Err e => (m, Err e)
  | Ok _ =>
      let incident := newMemoryIncident now newid req in
      (MkIncidentStore (<[N_ID incident := incident]> (incidents m)) (links m), Ok incident)
  end.

Definition GetIncident (id : string) (m : MemoryIncidentStore) : option Incident :=
  incidents m !! trim_space id.

Definition incident_before (x y : Incident) : Prop :=
  N_UpdatedAt y < N_UpdatedAt x
  ∨ N_UpdatedAt x = N_UpdatedAt y ∧ String.le (N_ID y) (N_ID x).
#[export] Instance incident_before_dec : RelDecision incident_before.
Proof. intros x y. unfold incident_before. apply _. Defined.

Definition ListIncidents `{MapRange} (filter : IncidentFilter) (m : MemoryIncidentStore) :
    list Incident :=
  let status := NormalizeStatus (NF_Status filter) in
  let severity := NormalizeSeverity (NF_Severity filter) in
  let source := NormalizeSource (NF_Source filter) in
  let groupID := trim_space (NF_GroupID filter) in
  let assignee := trim_space (NF_Assignee filter) in
  let out := select (λ i,
    (is_empty status || bool_decide (N_Status i = status))
    && (is_empty severity || bool_decide (N_Severity i = severity))
    && (is_empty source || bool_decide (N_Source i = source))
    && (is_empty groupID || bool_decide (N_GroupID i = groupID))
    && (is_empty assignee || bool_decide (N_Assignee i = assignee))) (incidents m) in
  page (NF_Limit filter) (NF_Offset filter) (merge_sort incident_before out).

(** [if *p == nil { *p = &now }] *)
Definition set_once (p : option time) (now : time) : option time :=
  match p with None => Some now | Some t => Some t end.

(** The part of [UpdateIncident] that writes the status and its time. *)
Definition update_status (now : time) (req : UpdateIncidentRequest) (i : Incident) :
    result incident_error (string * option time * option time * option time) :=
  let old := (N_Status i, N_MitigatedAt i, N_ResolvedAt i, N_ClosedAt i) in
  match UN_Status req with
  | None => Ok old
  | Some s =>
      let next := NormalizeStatus s in
      if is_empty next || negb (CanTransitionStatus (N_Status i) next)
      then Err ErrInvalidStatusTransition
      else if bool_decide (N_Status i = next) then Ok old
      else Ok (next,
        if bool_decide (next = StatusMitigated) then set_once (N_MitigatedAt i) now
        else N_MitigatedAt i,
        if bool_decide (next = StatusResolved) then set_once (N_ResolvedAt i) now
        else N_ResolvedAt i,
        if bool_decide (next = StatusClosed) then set_once (N_ClosedAt i) now
        else N_ClosedAt i)
  end.

Definition update_severity (req : UpdateIncidentRequest) (i : Incident) :
    result incident_error string :=
  match UN_Severity req with
  | None => Ok (N_Severity i)
  | Some s => let next := NormalizeSeverity s in
              if is_empty next then Err ErrInvalidSeverity else Ok next
  end.

(** A given field is trimmed, an absent one keeps its value. *)
Definition trimmed_or (given : option string) (old : string) : string :=
  match given with Some s => trim_space s | None => old end.

Definition apply_update (now : time) (req : UpdateIncidentRequest) (i : Incident) :
    result incident_error Incident :=
  severity ← update_severity req i;
  '(status, mitigated, resolved, closed) ← update_status now req i;
  Ok {| N_ID := N_ID i; N_Title := trimmed_or (UN_Title req) (N_Title i);
        N_Summary := trimmed_or (UN_Summary req) (N_Summary i);
        N_Status := status; N_Severity := severity; N_Source := N_Source i;
        N_GroupID := trimmed_or (UN_GroupID req) (N_GroupID i);
        N_PrimaryAssetID := trimmed_or (UN_PrimaryAssetID req) (N_PrimaryAssetID i);
        N_Assignee := trimmed_or (UN_Assignee req) (N_Assignee i);
        N_CreatedBy := N_CreatedBy i; N_OpenedAt := N_OpenedAt i;
        N_MitigatedAt := mitigated; N_ResolvedAt := resolved; N_ClosedAt := closed;
        N_RootCause := trimmed_or (UN_RootCause req) (N_RootCause i);
        N_ActionItems := default (N_ActionItems i) (UN_ActionItems req);
        N_LessonsLearned := trimmed_or (UN_LessonsLearned req) (N_LessonsLearned i);
        N_Metadata := default (N_Metadata i) (UN_Metadata req);
        N_CreatedAt := N_CreatedAt i; N_UpdatedAt := now |}.

Definition UpdateIncident (now : time) (id : string) (req : UpdateIncidentRequest)
    (m : MemoryIncidentStore) : MemoryIncidentStore * result incident_error Incident :=
  let id := trim_space id in
  match incidents m !! id with
  | None => (m, Err ErrIncidentNotFound)
  | Some incident =>
      match apply_update now req incident with
      | Err e => (m, Err e)
      | Ok incident =>
          (MkIncidentStore (<[id := incident]> (incidents m)) (links m), Ok incident)
      end
  end.

Definition DeleteIncident (id : string) (m : MemoryIncidentStore) :
    MemoryIncidentStore * result incident_error unit :=
  let id := trim_space id in
  match incidents m !! id with
  | None => (m, Err ErrIncidentNotFound)
  | Some _ => (MkIncidentStore (delete id (incidents m)) (delete id (links m)), Ok tt)
  end.

(** The test of the loop over the existing links. *)
Definition conflicts (ruleID instanceID : string) (link : AlertLink) : bool :=
  (negb (is_empty ruleID) && bool_decide (L_AlertRuleID link = ruleID))
  || (negb (is_empty instanceID) && bool_decide (L_AlertInstanceID link = instanceID)).

Definition LinkIncidentAlertContext (ctx : Ctx) (now : time) (newid incidentID : string)
    (req : LinkAlertRequest) (m : MemoryIncidentStore) :
    MemoryIncidentStore * result incident_error AlertLink :=
  let incidentID := trim_space incidentID in
  let linkType := NormalizeLinkType (LR_LinkType req) in
  let alertRuleID := trim_space (LR_AlertRuleID req) in
  let alertInstanceID := trim_space (LR_AlertInstanceID req) in
  let alertFingerprint := trim_space (LR_AlertFingerprint req) in
  match ctx_check ctx with
  | Err e => (m, Err e)
  | Ok _ =>
      match incidents m !! incidentID with
      | None => (m, Err ErrIncidentNotFound)
      | Some _ =>
          if is_empty linkType then (m, Err ErrInvalidLinkType)
          else if is_empty alertRuleID && is_empty alertInstanceID && is_empty alertFingerprint
          then (m, Err ErrAlertReferenceRequired)
          else if existsb (conflicts alertRuleID alertInstanceID) (links_of m incidentID)
          then (m, Err ErrIncidentAlertLinkConflict)
          else
            let link := {|
              L_ID := newid; L_IncidentID := incidentID; L_AlertRuleID := alertRuleID;
              L_AlertInstanceID := alertInstanceID; L_AlertFingerprint := alertFingerprint;
              L_LinkType := linkType;
              L_CreatedBy := default_str (trim_space (LR_CreatedBy req)) "owner";
              L_CreatedAt := now |} in
            (MkIncidentStore (incidents m)
               (<[incidentID := links_of m incidentID ++ [link]]> (links m)), Ok link)
      end
  end.

Definition link_before (x y : AlertLink) : Prop := L_CreatedAt y ≤ L_CreatedAt x.
#[export] Instance link_before_dec : RelDecision link_before.
Proof. intros x y. unfold link_before. apply _. Defined.

Definition ListIncidentAlertLinks (incidentID : string) (limit : Z) (m : MemoryIncidentStore) :
    result incident_error (list AlertLink) :=
  let incidentID := trim_space incidentID in
  match incidents m !! incidentID with
  | None => Err ErrIncidentNotFound
  | Some _ => Ok (page limit 0 (merge_sort link_before (links_of m incidentID)))
  end.

(** [append(links[:i], links[i+1:]...)] at the first link with the id. *)
Fixpoint remove_link (linkID : string) (l : list AlertLink) : option (list AlertLink) :=
  match l with
  | [] => None
  | link :: l' => if bool_decide (L_ID link = linkID) then Some l'
                  else cons link <$> remove_link linkID l'
  end.

Definition UnlinkIncidentAlert (incidentID linkID : string) (m : MemoryIncidentStore) :
    MemoryIncidentStore * result incident_error unit :=
  let incidentID := trim_space incidentID in
  let linkID := trim_space linkID in
  match incidents m !! incidentID with
  | None => (m, Err ErrIncidentNotFound)
  | Some _ =>
      match remove_link linkID (links_of m incidentID) with
      | None => (m, Err ErrNotFound)
      | Some l => (MkIncidentStore (incidents m) (<[incidentID := l]> (links m)), Ok tt)
      end
  end.

Definition is_auto (m : MemoryIncidentStore) (incidentID : string) : bool :=
  match incidents m !! incidentID with
  | Some i => bool_decide (N_Source i = SourceAlertAuto)
  | None => false
  end.

Definition HasAutoIncidentForAlertInstanceContext `{MapRange} (ctx : Ctx)
    (alertInstanceID : string) (m : MemoryIncidentStore) : result incident_error bool :=
  _ ← ctx_check ctx;
  let alertInstanceID := trim_space alertInstanceID in
  if is_empty alertInstanceID then Ok false
  else Ok (match find_range (λ incidentID ls, is_auto m incidentID
                  && existsb (λ link, bool_decide
                       (trim_space (L_AlertInstanceID link) = alertInstanceID)) ls) (links m) with
           | Some _ => true | None => false end).

Definition CreateAutoIncidentForAlertInstanceContext `{MapRange} (ctx : Ctx) (now : time)
    (newid newlinkid : string) (instanceID : string) (req : CreateIncidentRequest)
    (m : MemoryIncidentStore) : MemoryIncidentStore * result incident_error (option Incident) :=
  let instanceID := trim_space instanceID in
  if is_empty instanceID then (m, Err ErrAlertReferenceRequired) else
  match ctx_check ctx with
  | Err e => (m, Err e)
  | Ok _ =>
      match find_range (λ incidentID ls, is_auto m incidentID
                && existsb (λ link, bool_decide (L_AlertInstanceID link = instanceID)) ls)
              (links m) with
      | Some _ => (m, Ok None)
      | None =>
          let req := {| CN_Title := CN_Title req; CN_Summary := CN_Summary req;
            CN_Severity := CN_Severity req; CN_Source := SourceAlertAuto;
            CN_GroupID := CN_GroupID req; CN_PrimaryAssetID := CN_PrimaryAssetID req;
            CN_Assignee := CN_Assignee req; CN_Metadata := CN_Metadata req;
            CN_CreatedBy := CN_CreatedBy req |} in
          let incident := newMemoryIncident now newid req in
          let link := {| L_ID := newlinkid; L_IncidentID := N_ID incident;
            L_AlertRuleID := ""; L_AlertInstanceID := instanceID; L_AlertFingerprint := "";
            L_LinkType := LinkTypeTrigger; L_CreatedBy := N_CreatedBy incident;
            L_CreatedAt := N_CreatedAt incident |} in
          (MkIncidentStore (<[N_ID incident := incident]> (incidents m))
             (<[N_ID incident := [link]]> (links m)), Ok (Some incident))
      end
  end.

(** ** Runs

    An operation with its arguments; [exec] is the store it leaves.  Clock
    readings, generated ids and contexts are arguments, so a list of operations
    is an arbitrary interleaving of requests. *)

Section runs.
Context `{MapRange}.

Inductive inc_op :=
| OpCreate (ctx : Ctx) (now : time) (newid : string) (req : CreateIncidentRequest)
| OpUpdate (now : time) (id : string) (req : UpdateIncidentRequest)
| OpDelete (id : string)
| OpLink (ctx : Ctx) (now : time) (newid incidentID : string) (req : LinkAlertRequest)
| OpUnlink (incidentID linkID : string)
| OpAuto (ctx : Ctx) (now : time) (newid newlinkid instanceID : string)
    (req : CreateIncidentRequest).

Definition exec (o : inc_op) (m : MemoryIncidentStore) : MemoryIncidentStore :=
  match o with
  | OpCreate ctx now newid req => (CreateIncidentContext ctx now newid req m).1
  | OpUpdate now id req => (UpdateIncident now id req m).1
  | OpDelete id => (DeleteIncident id m).1
  | OpLink ctx now newid id req => (LinkIncidentAlertContext ctx now newid id req m).1
  | OpUnlink id linkID => (UnlinkIncidentAlert id linkID m).1
  | OpAuto ctx now newid newlinkid inst req =>
      (CreateAutoIncidentForAlertInstanceContext ctx now newid newlinkid inst req m).1
  end.

Definition run (ops : list inc_op) (m : MemoryIncidentStore) : MemoryIncidentStore :=
  foldl (λ m o, exec o m) m ops.

(** The incident id an operation may create. *)
Definition op_newid (o : inc_op) : option string :=
  match o with
  | OpCreate _ _ newid _ | OpAuto _ _ newid _ _ _ => Some newid
  | _ => None
  end.

(** Operations that remove no incident and no link. *)
Definition keeps (o : inc_op) : bool :=
  match o with OpDelete _ | OpUnlink _ _ => false | _ => true end.

(** *** The status machine *)

Lemma incident_transition_spec s t :
  s ∈ statuses → t ∈ statuses →
  CanTransitionStatus s t = true ↔
    s = t ∨ t = StatusInvestigating ∨ t = StatusClosed
    ∨ t = StatusResolved ∧ s ≠ StatusClosed ∨ t = StatusMitigated ∧ s = StatusInvestigating.
Proof.
  unfold statuses. rewrite !elem_of_cons, !elem_of_nil.
  intros [->|[->|[->|[->|[->|[]]]]]] [->|[->|[->|[->|[->|[]]]]]]; vm_compute; split;
    intuition (discriminate || auto).
Qed.

(** What the status says about the recorded times. *)
Record wf_incident (i : Incident) : Prop := {
  wf_status : N_Status i ∈ statuses;
  wf_severity : N_Severity i ∈ severities;
  wf_source : N_Source i ∈ sources;
  wf_mitigated : N_Status i = StatusMitigated → is_Some (N_MitigatedAt i);
  wf_resolved : N_Status i = StatusResolved → is_Some (N_ResolvedAt i);
  wf_closed : N_Status i = StatusClosed → is_Some (N_ClosedAt i);
  wf_open : N_Status i = StatusOpen →
    N_MitigatedAt i = None ∧ N_ResolvedAt i = None ∧ N_ClosedAt i = None }.

(** What may happen to an incident over time. *)
Record incident_evolves (i j : Incident) : Prop := {
  ev_id : N_ID j = N_ID i;
  ev_source : N_Source j = N_Source i;
  ev_author : N_CreatedBy j = N_CreatedBy i;
  ev_opened : N_OpenedAt j = N_OpenedAt i ∧ N_CreatedAt j = N_CreatedAt i;
  ev_reopen : N_Status i ≠ StatusOpen → N_Status j ≠ StatusOpen;
  ev_mitigated : is_Some (N_MitigatedAt i) → N_MitigatedAt j = N_MitigatedAt i;
  ev_resolved : is_Some (N_ResolvedAt i) → N_ResolvedAt j = N_ResolvedAt i;
  ev_closed : is_Some (N_ClosedAt i) → N_ClosedAt j = N_ClosedAt i }.

#[export] Instance incident_evolves_preorder : PreOrder incident_evolves.
Proof.
  split; [by constructor|]. intros i j k [] []. constructor; try (intuition congruence).
  - intros Hi. rewrite <-ev_mitigated0 by done. apply ev_mitigated1. by rewrite ev_mitigated0.
  - intros Hi. rewrite <-ev_resolved0 by done. apply ev_resolved1. by rewrite ev_resolved0.
  - intros Hi. rewrite <-ev_closed0 by done. apply ev_closed1. by rewrite ev_closed0.
Qed.

Lemma keyword_in ks s : keyword ks s ≠ "" → keyword ks s ∈ ks.
Proof. by destruct (keyword_cases ks s). Qed.

Lemma default_keyword_in ks s d : d ∈ ks → default_str (keyword ks s) d ∈ ks.
Proof.
  intros Hd. unfold default_str. case_bool_decide; [done|]. by apply keyword_in.
Qed.

Lemma wf_newMemoryIncident now id req : wf_incident (newMemoryIncident now id req).
Proof.
  constructor; simpl; try done.
  - by apply (bool_decide_eq_true_1 _).
  - by apply default_keyword_in, (bool_decide_eq_true_1 _).
  - by apply default_keyword_in, (bool_decide_eq_true_1 _).
Qed.

Lemma set_once_some p now : is_Some (set_once p now).
Proof. destruct p; simpl; eauto. Qed.

Lemma set_once_keep p now : is_Some p → set_once p now = p.
Proof. by intros [? ->]. Qed.

Lemma update_status_spec now req i s a b c :
  wf_incident i → update_status now req i = Ok (s, a, b, c) →
  s ∈ statuses ∧ (N_Status i ≠ StatusOpen → s ≠ StatusOpen) ∧
  (s = StatusMitigated → is_Some a) ∧ (s = StatusResolved → is_Some b) ∧
  (s = StatusClosed → is_Some c) ∧ (s = StatusOpen → a = None ∧ b = None ∧ c = None) ∧
  (is_Some (N_MitigatedAt i) → a = N_MitigatedAt i) ∧
  (is_Some (N_ResolvedAt i) → b = N_ResolvedAt i) ∧
  (is_Some (N_ClosedAt i) → c = N_ClosedAt i).
Proof.
  intros [Hst ? ? ? ? ? ?]. unfold update_status. destruct (UN_Status req) as [t|]; [|by intros [= <- <- <- <-]].
  destruct (_ || _) eqn:E; [done|]. apply orb_false_iff in E as [E Hc]. bool_prop.
  assert (Hn : NormalizeStatus t ∈ statuses) by by apply keyword_in.
  revert Hn E Hc. generalize (NormalizeStatus t) as next. intros next Hn _ Hc.
  case_bool_decide as Hne; [by intros [= <- <- <- <-]|].
  assert (Hno : next ≠ StatusOpen).
  { intros ->. apply incident_transition_spec in Hc; [|done..].
    destruct Hc as [?|[?|[?|[[? _]|[? _]]]]]; done. }
  intros [= <- <- <- <-]. split_and!; try done.
  - intros ->. simpl. apply set_once_some.
  - intros ->. simpl. apply set_once_some.
  - intros ->. simpl. apply set_once_some.
  - intros ?. case_bool_decide; [by apply set_once_keep|done].
  - intros ?. case_bool_decide; [by apply set_once_keep|done].
  - intros ?. case_bool_decide; [by apply set_once_keep|done].
Qed.
(** *** The store *)

Record wf_link (id : string) (l : AlertLink) : Prop := {
  wl_incident : L_IncidentID l = id;
  wl_rule : trim_space (L_AlertRuleID l) = L_AlertRuleID l;
  wl_instance : trim_space (L_AlertInstanceID l) = L_AlertInstanceID l;
  wl_type : L_LinkType l ∈ link_types;
  wl_reference : L_AlertRuleID l ≠ "" ∨ L_AlertInstanceID l ≠ "" ∨ L_AlertFingerprint l ≠ "" }.

(** The references a list of links makes, those not given left out. *)
Definition references (f : AlertLink → string) (ls : list AlertLink) : list string :=
  filter (λ s, s ≠ "") (f <$> ls).

Record wf_links (id : string) (ls : list AlertLink) : Prop := {
  wls_each : Forall (wf_link id) ls;
  wls_rules : NoDup (references L_AlertRuleID ls);
  wls_instances : NoDup (references L_AlertInstanceID ls) }.

Record wf_store (m : MemoryIncidentStore) : Prop := {
  ws_incidents : map_Forall (λ id i, N_ID i = id ∧ wf_incident i) (incidents m);
  ws_links : map_Forall (λ id ls, is_Some (incidents m !! id) ∧ wf_links id ls) (links m) }.

Lemma references_app f l k : references f (l ++ k) = references f l ++ references f k.
Proof. unfold references. by rewrite fmap_app, filter_app. Qed.

Lemma elem_of_references f ls s : s ∈ references f ls ↔ s ≠ "" ∧ ∃ l, l ∈ ls ∧ f l = s.
Proof.
  unfold references. rewrite list_elem_of_filter, list_elem_of_fmap. naive_solver.
Qed.

Lemma references_snoc f ls l :
  NoDup (references f ls) → (f l ≠ "" → ∀ k, k ∈ ls → f k ≠ f l) →
  NoDup (references f (ls ++ [l])).
Proof.
  intros Hnd Hl. rewrite references_app. apply NoDup_app. split_and!; [done| |].
  - intros s (Hs & k & Hk & <-)%elem_of_references (_ & k' & ->%list_elem_of_singleton & Heq)%elem_of_references.
    apply (Hl ltac:(congruence) k Hk). congruence.
  - unfold references. simpl. rewrite filter_cons. case_decide; [apply NoDup_singleton|constructor].
Qed.

Lemma wf_links_snoc id ls l :
  wf_links id ls → wf_link id l →
  existsb (conflicts (L_AlertRuleID l) (L_AlertInstanceID l)) ls = false →
  wf_links id (ls ++ [l]).
Proof.
  intros [HF Hr Hi] Hl Hc. rewrite existsb_false_elem in Hc.
  assert (∀ k, k ∈ ls → (L_AlertRuleID l ≠ "" → L_AlertRuleID k ≠ L_AlertRuleID l) ∧
    (L_AlertInstanceID l ≠ "" → L_AlertInstanceID k ≠ L_AlertInstanceID l)) as Hc'.
  { intros k Hk%Hc. unfold conflicts in Hk. apply orb_false_iff in Hk as [H1 H2].
    rewrite andb_false_iff in H1, H2.
    rewrite negb_false_iff, bool_decide_eq_true, bool_decide_eq_false in H1, H2. tauto. }
  constructor; [by apply Forall_app_2; [|apply Forall_singleton]|..];
    apply references_snoc; naive_solver.
Qed.

Lemma remove_link_sublist linkID l l' : remove_link linkID l = Some l' → l' `sublist_of` l.
Proof.
  revert l'. induction l as [|x l IH]; intros l'; simpl; [done|]. case_bool_decide.
  - intros [= <-]. by constructor.
  - destruct (remove_link linkID l) as [k|]; [|done]. intros [= <-]. constructor. by apply IH.
Qed.

Lemma wf_links_sublist id ls ls' : wf_links id ls → ls' `sublist_of` ls → wf_links id ls'.
Proof.
  intros [HF Hr Hi] Hs. constructor.
  - rewrite Forall_forall in *. intros l Hl. apply HF. by eapply elem_of_submseteq, sublist_submseteq.
  - by apply (sublist_NoDup _ _ Hr), filter_sublist, fmap_sublist.
  - by apply (sublist_NoDup _ _ Hi), filter_sublist, fmap_sublist.
Qed.

Lemma wf_links_of m id : wf_store m → wf_links id (links_of m id).
Proof.
  intros Hm. unfold links_of. destruct (links m !! id) as [ls|] eqn:E; simpl.
  - by destruct (ws_links _ Hm _ _ E).
  - repeat constructor.
Qed.

(** Writing an incident under its own id keeps the links attached. *)
Lemma wf_store_write m id i :
  wf_store m → N_ID i = id → wf_incident i →
  wf_store (MkIncidentStore (<[id := i]> (incidents m)) (links m)).
Proof.
  intros [Hi Hl] ? ?. constructor; simpl.
  - by apply map_Forall_insert_2.
  - intros k ls Hk. destruct (Hl _ _ Hk) as [Hs ?]. split; [|done].
    destruct (decide (k = id)) as [->|]; [by rewrite lookup_insert_eq|by rewrite lookup_insert_ne].
Qed.

Lemma wf_store_write_links m id ls :
  wf_store m → is_Some (incidents m !! id) → wf_links id ls →
  wf_store (MkIncidentStore (incidents m) (<[id := ls]> (links m))).
Proof. intros [Hi Hl] ? ?. constructor; simpl; [done|]. by apply map_Forall_insert_2. Qed.

Lemma apply_update_spec now req i j :
  wf_incident i → apply_update now req i = Ok j →
  wf_incident j ∧ incident_evolves i j ∧ N_UpdatedAt j = now.
Proof.
  intros Hi. unfold apply_update.
  intros (sev & Hsev & H')%bind_Ok.
  apply bind_Ok in H' as ([[[s a] b] c] & Hst & [= <-]).
  destruct (update_status_spec _ _ _ _ _ _ _ Hi Hst) as (?&?&?&?&?&?&?&?&?).
  assert (sev ∈ severities) as Hsv.
  { unfold update_severity in Hsev. destruct (UN_Severity req); [|injection Hsev as <-; apply Hi].
    case_bool_decide; [done|]. injection Hsev as <-. by apply keyword_in. }
  split_and!; [|by constructor|done]. by constructor; simpl; [..|apply Hi| | | |].
Qed.

Lemma wf_new_auto m newid newlinkid now instanceID req :
  wf_store m → instanceID ≠ "" → trim_space instanceID = instanceID →
  let i := newMemoryIncident now newid req in
  wf_store (MkIncidentStore (<[newid := i]> (incidents m))
    (<[newid := [{| L_ID := newlinkid; L_IncidentID := newid; L_AlertRuleID := "";
        L_AlertInstanceID := instanceID; L_AlertFingerprint := "";
        L_LinkType := LinkTypeTrigger; L_CreatedBy := N_CreatedBy i;
        L_CreatedAt := N_CreatedAt i |}]]> (links m))).
Proof.
  intros Hm Hne Ht i.
  refine (wf_store_write_links (MkIncidentStore (<[newid := i]> (incidents m)) (links m))
    newid _ _ _ _).
  - by apply wf_store_write, wf_newMemoryIncident.
  - simpl. rewrite lookup_insert_eq. eauto.
  - apply (wf_links_snoc newid []); [repeat constructor| |done].
    constructor; simpl; auto. by apply (bool_decide_eq_true_1 _).
Qed.

Lemma exec_wf o m : wf_store m → wf_store (exec o m).
Proof.
  intros Hm. destruct o as [ctx now newid req|now id req|id|ctx now newid id req|id lid
    |ctx now newid newlinkid inst req]; simpl.
  - unfold CreateIncidentContext. case_match; [|done].
    by apply wf_store_write, wf_newMemoryIncident.
  - unfold UpdateIncident. destruct (_ !! _) as [i|] eqn:Hi; [|done].
    destruct (ws_incidents _ Hm _ _ Hi) as [Hid Hwf].
    destruct (apply_update now req i) as [j|] eqn:Hj; [|done].
    destruct (apply_update_spec _ _ _ _ Hwf Hj) as (? & Hev & _).
    apply wf_store_write; [done| |done]. by rewrite (ev_id _ _ Hev).
  - unfold DeleteIncident. case_match; [|done]. destruct Hm as [Hi Hl]. constructor; simpl.
    + by apply map_Forall_delete.
    + intros k ls [Hne Hk]%lookup_delete_Some. destruct (Hl _ _ Hk) as [? ?].
      by rewrite lookup_delete_ne.
  - unfold LinkIncidentAlertContext. case_match; [|done].
    destruct (_ !! trim_space id) as [i|] eqn:Hi; [|done].
    destruct (is_empty (NormalizeLinkType _)) eqn:Hty; [done|].
    destruct (_ && _ && _) eqn:Href; [done|].
    destruct (existsb _ _) eqn:Hc; [done|]. simpl. bool_prop.
    apply wf_store_write_links; [done|by rewrite Hi|].
    apply wf_links_snoc; [by apply wf_links_of| |done].
    constructor; simpl; [done|by apply trim_space_idemp..|by apply keyword_in|].
    rewrite !andb_false_iff, !bool_decide_eq_false in Href. tauto.
  - unfold UnlinkIncidentAlert. destruct (_ !! trim_space id) as [i|] eqn:Hi; [|done].
    destruct (remove_link _ _) as [ls|] eqn:Hr; [|done].
    apply wf_store_write_links; [done|by rewrite Hi|].
    eapply wf_links_sublist; [by apply wf_links_of|by eapply remove_link_sublist].
  - unfold CreateAutoIncidentForAlertInstanceContext. case_bool_decide; [done|].
    case_match; [|done]. case_match; [done|].
    by apply wf_new_auto; [..|apply trim_space_idemp].
Qed.

Lemma run_wf ops m : wf_store m → wf_store (run ops m).
Proof. revert m. induction ops as [|o ops IH]; intros m Hm; [done|]. by apply IH, exec_wf. Qed.

Lemma wf_store_init : wf_store NewMemoryIncidentStore.
Proof. by constructor; apply map_Forall_empty. Qed.

(** C29: incident store invariant: after any sequence of operations each
    incident has a known status, severity and source and the time that its
    status requires (none while open); every link belongs to an existing incident,
    names at least one alert, and within one incident no two links name
    the same rule or the same alert instance. *)
Theorem incident_store_invariant ops : wf_store (run ops NewMemoryIncidentStore).
Proof. apply run_wf, wf_store_init. Qed.

Lemma exec_lookup o m id j :
  wf_store m → op_newid o ≠ Some id → incidents (exec o m) !! id = Some j →
  ∃ i, incidents m !! id = Some i ∧ incident_evolves i j.
Proof.
  intros Hm Hid.
  assert (Hrefl : incidents m !! id = Some j → ∃ i, incidents m !! id = Some i ∧ incident_evolves i j).
  { intros Hj. by exists j. }
  destruct o as [ctx now newid req|now id' req|id'|ctx now newid id' req|id' lid
    |ctx now newid newlinkid inst req]; simpl in *.
  - unfold CreateIncidentContext. case_match; [|done]. simpl.
    rewrite lookup_insert_ne by congruence. done.
  - unfold UpdateIncident. destruct (_ !! trim_space id') as [i|] eqn:Hi; [|done].
    destruct (ws_incidents _ Hm _ _ Hi) as [_ Hwf].
    destruct (apply_update now req i) as [k|] eqn:Hk; [|done].
    destruct (apply_update_spec _ _ _ _ Hwf Hk) as (? & Hev & _). simpl.
    intros [[<- <-]|[_ ?]]%lookup_insert_Some; [by exists i|auto].
  - unfold DeleteIncident. case_match; [|done]. simpl. intros [_ ?]%lookup_delete_Some. auto.
  - unfold LinkIncidentAlertContext. by repeat (case_match; try done).
  - unfold UnlinkIncidentAlert. by repeat (case_match; try done).
  - unfold CreateAutoIncidentForAlertInstanceContext. case_bool_decide; [done|].
    case_match; [|done]. case_match; [done|]. simpl.
    rewrite lookup_insert_ne by congruence. done.
Qed.

(** Incident history: however an incident is updated after some point of
    a run, it keeps its source, author and opening time, never returns to
    open, and the first mitigation, resolution and closing times, once set,
    stay, also across reopening. *)
Theorem incident_history ops0 ops id i j :
  Forall (λ o, op_newid o ≠ Some id) ops →
  incidents (run ops0 NewMemoryIncidentStore) !! id = Some i →
  incidents (run ops (run ops0 NewMemoryIncidentStore)) !! id = Some j →
  incident_evolves i j.
Proof.
  intros Hops. pose proof (run_wf ops0 _ wf_store_init) as Hm. revert Hm.
  generalize (run ops0 NewMemoryIncidentStore) as m. intros m Hm Hi Hj.
  cut (∃ i', incidents m !! id = Some i' ∧ incident_evolves i' j).
  { intros (i' & ? & ?). by simplify_eq. }
  clear Hi. revert m Hm Hj.
  induction Hops as [|o ops Ho _ IH]; intros m Hm Hj; [by exists j|].
  destruct (IH (exec o m)) as (k & Hk & Hkj); [by apply exec_wf|done|].
  destruct (exec_lookup _ _ _ _ Hm Ho Hk) as (i' & ? & ?). exists i'. split; [done|by etrans].
Qed.

(** *** Automatic incidents *)

(** Some automatic incident is linked to the alert instance. *)
Definition has_auto (m : MemoryIncidentStore) (instanceID : string) : Prop :=
  ∃ id i ls l, incidents m !! id = Some i ∧ N_Source i = SourceAlertAuto ∧
    links m !! id = Some ls ∧ l ∈ ls ∧ L_AlertInstanceID l = instanceID.

Lemma is_auto_spec m id :
  is_auto m id = true ↔ ∃ i, incidents m !! id = Some i ∧ N_Source i = SourceAlertAuto.
Proof.
  unfold is_auto. destruct (_ !! _) as [i|]; [|naive_solver].
  rewrite bool_decide_eq_true. naive_solver.
Qed.

Lemma auto_lookup_spec m s (f : AlertLink → bool) :
  (∀ id ls l, links m !! id = Some ls → l ∈ ls → f l = true ↔ L_AlertInstanceID l = s) →
  (if find_range (λ id ls, is_auto m id && existsb f ls) (links m) then true else false) = true
  ↔ has_auto m s.
Proof.
  intros Hf. unfold has_auto. destruct (find_range _ _) as [[id ls]|] eqn:E.
  - apply find_range_Some in E as [Hl E]. bool_prop.
    apply is_auto_spec in H0 as (i & ? & ?). apply existsb_elem in H1 as (l & ? & ?).
    split; [intros _|done]. exists id, i, ls, l. split_and!; try done. by eapply Hf.
  - rewrite find_range_None in E. split; [done|]. intros (id & i & ls & l & Hi & Hs & Hl & Hin & Heq).
    specialize (E _ _ Hl). apply andb_false_iff in E as [E|E].
    + assert (is_auto m id = true) by (apply is_auto_spec; eauto). congruence.
    + rewrite existsb_false_elem in E. specialize (E _ Hin).
      assert (f l = true) by by eapply Hf. congruence.
Qed.

(** The link that witnesses an automatic incident survives operations that
    remove nothing. *)
Definition auto_link (m : MemoryIncidentStore) (id : string) (l : AlertLink) : Prop :=
  (∃ i, incidents m !! id = Some i ∧ N_Source i = SourceAlertAuto) ∧ l ∈ links_of m id.

Lemma exec_auto_link o m id l :
  wf_store m → keeps o = true → op_newid o ≠ Some id → auto_link m id l → auto_link (exec o m) id l.
Proof.
  intros Hm Hk Hid [(i & Hi & Hs) Hl]. unfold auto_link, links_of in *.
  destruct o as [ctx now newid req|now id' req|id'|ctx now newid id' req|id' lid
    |ctx now newid newlinkid inst req]; simpl in *; try done.
  - unfold CreateIncidentContext. case_match; simpl; [|eauto].
    rewrite lookup_insert_ne by congruence. eauto.
  - unfold UpdateIncident. destruct (_ !! trim_space id') as [k|] eqn:Hk'; [|eauto].
    destruct (ws_incidents _ Hm _ _ Hk') as [_ Hwf].
    destruct (apply_update now req k) as [j|] eqn:Hj; [|eauto]. simpl.
    destruct (apply_update_spec _ _ _ _ Hwf Hj) as (_ & Hev & _). split; [|done].
    destruct (decide (trim_space id' = id)) as [<-|].
    + rewrite lookup_insert_eq. exists j. split; [done|]. simplify_eq. by rewrite (ev_source _ _ Hev).
    + rewrite lookup_insert_ne by done. eauto.
  - unfold LinkIncidentAlertContext. repeat (case_match; try by eauto).
    simpl. split; [eauto|]. destruct (decide (trim_space id' = id)) as [<-|].
    + rewrite lookup_insert_eq. simpl. apply elem_of_app. by left.
    + by rewrite lookup_insert_ne.
  - unfold CreateAutoIncidentForAlertInstanceContext. case_bool_decide; [eauto|].
    case_match; [|eauto]. case_match; [eauto|]. simpl.
    rewrite !lookup_insert_ne by congruence. eauto.
Qed.

Lemma run_auto_link ops m id l :
  wf_store m → forallb keeps ops = true → Forall (λ o, op_newid o ≠ Some id) ops →
  auto_link m id l → auto_link (run ops m) id l.
Proof.
  intros Hm Hk Hid. revert m Hm Hk.
  induction Hid as [|o ops Ho _ IH]; intros m Hm Hk Hl; simpl in *; [done|]. bool_prop.
  apply IH; [by apply exec_wf|done|by apply exec_auto_link].
Qed.

Lemma auto_link_has m id l : auto_link m id l → has_auto m (L_AlertInstanceID l).
Proof.
  unfold auto_link, links_of. intros [(i & Hi & Hs) Hl].
  destruct (links m !! id) as [ls|] eqn:E; [|set_solver]. by exists id, i, ls, l.
Qed.

Lemma wf_link_elem m id ls l : wf_store m → links m !! id = Some ls → l ∈ ls → wf_link id l.
Proof.
  intros Hm Hl Hin. destruct (ws_links _ Hm _ _ Hl) as [_ [HF _ _]].
  rewrite Forall_forall in HF. by apply HF.
Qed.

(** C27: at most one automatic incident: in any store the operations can
    reach, asking whether an alert instance has an automatic incident and
    creating one agree: when the answer is yes nothing is created and nothing
    changes; when it is no exactly one incident is added, of source
    [alert_auto], and from then on the answer is yes until that incident or a
    link is removed. *)
Theorem auto_incident_once ops0 now newid newlinkid s req :
  trim_space s ≠ "" →
  let m := run ops0 NewMemoryIncidentStore in
  match HasAutoIncidentForAlertInstanceContext None s m with
  | Ok true => CreateAutoIncidentForAlertInstanceContext None now newid newlinkid s req m
               = (m, Ok None)
  | Ok false => ∃ m' i,
      CreateAutoIncidentForAlertInstanceContext None now newid newlinkid s req m = (m', Ok (Some i)) ∧
      N_Source i = SourceAlertAuto ∧ incidents m' = <[newid := i]> (incidents m) ∧
      ∀ ops, forallb keeps ops = true → Forall (λ o, op_newid o ≠ Some newid) ops →
        HasAutoIncidentForAlertInstanceContext None s (run ops m') = Ok true
  | Err _ => False
  end.
Proof.
  intros Hs m. pose proof (run_wf ops0 _ wf_store_init) as Hm. fold m in Hm.
  generalize dependent m. intros m Hm.
  assert (Hhas : ∀ m, wf_store m →
    ∃ b, HasAutoIncidentForAlertInstanceContext None s m = Ok b ∧ (b = true ↔ has_auto m (trim_space s))).
  { clear m Hm. intros m Hm. unfold HasAutoIncidentForAlertInstanceContext. simpl.
    rewrite bool_decide_eq_false_2 by done. eexists. split; [reflexivity|].
    apply auto_lookup_spec. intros id ls l Hl Hin. rewrite bool_decide_eq_true.
    by rewrite (wl_instance _ _ (wf_link_elem _ _ _ _ Hm Hl Hin)). }
  destruct (Hhas m Hm) as (b & -> & Hb).
  assert (Hcreate := auto_lookup_spec m (trim_space s)
    (λ link, bool_decide (L_AlertInstanceID link = trim_space s))
    (λ _ _ _ _ _, bool_decide_eq_true _)).
  unfold CreateAutoIncidentForAlertInstanceContext. rewrite bool_decide_eq_false_2 by done. simpl.
  revert Hcreate. destruct (find_range _ _) as [p|]; intros Hcreate; destruct b; try done.
  - by assert (false = true) by by apply Hb, Hcreate.
  - by assert (false = true) by by apply Hcreate, Hb.
  - clear Hcreate.
    eexists _, _. split_and!; [reflexivity|done|done|].
    intros ops Hk Hf.
    match goal with |- context [run ops ?m'] => assert (Hm' : wf_store m') end.
    { by apply wf_new_auto; [..|apply trim_space_idemp]. }
    destruct (Hhas _ (run_wf ops _ Hm')) as (b & -> & Hb'). f_equal. apply Hb'.
    eapply (auto_link_has _ newid {| L_AlertInstanceID := trim_space s |}).
    apply run_auto_link; [done..|].
    split; unfold links_of; simpl; rewrite lookup_insert_eq; [by eexists|by left].
Qed.
End runs.

(** A run: an automatic incident is created, resolved and reopened. *)
Definition demo_request : CreateIncidentRequest := {|
  CN_Title := " disk full "; CN_Summary := ""; CN_Severity := "Critical"; CN_Source := "";
  CN_GroupID := ""; CN_PrimaryAssetID := ""; CN_Assignee := ""; CN_Metadata := ∅;
  CN_CreatedBy := "" |}.
Definition demo_status (s : string) : UpdateIncidentRequest := {|
  UN_Title := None; UN_Summary := None; UN_Status := Some s; UN_Severity := None;
  UN_GroupID := None; UN_PrimaryAssetID := None; UN_Assignee := None; UN_Metadata := None;
  UN_RootCause := None; UN_ActionItems := None; UN_LessonsLearned := None |}.
Definition demo_auto : inc_op := OpAuto None 10 "inc_1" "inclink_1" " ainst_1" demo_request.
Definition demo_run (l : list inc_op) : MemoryIncidentStore :=
  @run range_in_key_order l NewMemoryIncidentStore.

Lemma incident_history_witness :
  ∃ i j, incidents (demo_run [demo_auto]) !! "inc_1" = Some i ∧
    incidents (@run range_in_key_order [OpUpdate 20 "inc_1" (demo_status "RESOLVED");
      OpUpdate 30 "inc_1" (demo_status "investigating");
      OpUpdate 40 "inc_1" (demo_status "resolved")] (demo_run [demo_auto])) !! "inc_1" = Some j ∧
    incident_evolves i j ∧ N_ResolvedAt j = Some 20.
Proof.
  eexists _, _. split_and!; [reflexivity|reflexivity| |reflexivity].
  apply (@incident_history range_in_key_order [demo_auto]
    [OpUpdate 20 "inc_1" (demo_status "RESOLVED"); OpUpdate 30 "inc_1" (demo_status "investigating");
     OpUpdate 40 "inc_1" (demo_status "resolved")] "inc_1"); [|reflexivity|reflexivity].
  repeat constructor; discriminate.
Defined.

Lemma auto_incident_once_witness :
  trim_space " ainst_1" ≠ "" ∧
  @CreateAutoIncidentForAlertInstanceContext range_in_key_order None 20 "inc_2" "inclink_2"
    " ainst_1" demo_request (demo_run [demo_auto]) = (demo_run [demo_auto], Ok None).
Proof.
  split; [discriminate|].
  pose proof (@auto_incident_once range_in_key_order [demo_auto] 20 "inc_2" "inclink_2"
    " ainst_1" demo_request ltac:(discriminate)) as H. exact H.
Defined.
