(* ===== verification/InstanceStoreSpec.v ===== *)
(** * The alert instance store as its clients see it

    The evaluator talks to [persistence.AlertInstanceContextStore],
    [AlertInstanceFiringStore] and [AlertInstanceTimingStore].  The class
    [InstanceStore] lists the operations, [InstanceStoreSpec] what a client may rely on,
    in terms of the rows of the store; the memory store is an instance. *)

From S2P Require Import Prelude GoStrings Alerts AlertInstances.

Class InstanceStore (S : Type) := {
  is_create : Ctx → time → string → CreateInstanceRequest → S → S * result instance_error AlertInstance;
  is_active : Ctx → string → string → S → result instance_error (option AlertInstance);
  is_list : Ctx → AlertInstanceFilter → S → result instance_error (list AlertInstance);
  is_status : Ctx → time → string → string → S → S * result instance_error AlertInstance;
  is_touch : Ctx → time → string → S → S * result instance_error unit;
  is_fire : Ctx → time → string → FiringScope → S → S * result instance_error AlertInstance;
  is_timing : Ctx → string → string → S → result instance_error AlertFingerprintTiming;
  is_silences : Ctx → time → Z → bool → S → result instance_error (list AlertSilence) }.

(** An instance of the rule and fingerprint. *)
Definition of_key (ruleID fingerprint : string) (i : AlertInstance) : Prop :=
  I_RuleID i = trim_space ruleID ∧ I_Fingerprint i = trim_space fingerprint.
#[export] Instance of_key_dec r f i : Decision (of_key r f i).
Proof. unfold of_key. apply _. Defined.

#[export] Instance admits_dec f i : Decision (admits f i).
Proof. unfold admits. apply _. Defined.

(** The rows a filter admits, in some order. *)
Definition admitted (filter : AlertInstanceFilter) (rows : gmap string AlertInstance) :
    list AlertInstance :=
  base.filter (admits filter) (map_to_list rows).*2.

Class InstanceStoreSpec (S : Type) `{InstanceStore S} (sha256_hex : list ascii → string) := {
  rows : S → gmap string AlertInstance;
  silence_rows : S → gmap string AlertSilence;
  silences_law ctx now limit s :
    match is_silences ctx now limit true s with
    | Err e => ∃ c, ctx = Some c ∧ e = ErrContext c
    | Ok l => ctx = None ∧
        ∃ all, l = take (Z.to_nat (clamp_limit limit)) all ∧
          ∀ x, x ∈ all ↔ silence_active now x = true ∧ ∃ id, silence_rows s !! id = Some x
    end;
  create_law ctx now newid req s :
    match ctx with
    | Some e => is_create ctx now newid req s = (s, Err (ErrContext e))
    | None => let i := new_instance sha256_hex now newid req in
        ∃ s', is_create ctx now newid req s = (s', Ok i) ∧ rows s' = <[newid := i]> (rows s)
    end;
  active_law ctx ruleID fingerprint s :
    match is_active ctx ruleID fingerprint s with
    | Err e => ∃ c, ctx = Some c ∧ e = ErrContext c
    | Ok None => ctx = None ∧ ∀ id i, rows s !! id = Some i →
        of_key ruleID fingerprint i → active_status (I_Status i) = false
    | Ok (Some i) => ctx = None ∧ of_key ruleID fingerprint i ∧
        active_status (I_Status i) = true ∧ ∃ id, rows s !! id = Some i
    end;
  list_law ctx filter s :
    match is_list ctx filter s with
    | Err e => ∃ c, ctx = Some c ∧ e = ErrContext c
    | Ok l => ctx = None ∧ ∃ all, all ≡ₚ admitted filter (rows s) ∧
        l = take (Z.to_nat (clamp_limit (F_Limit filter))) (drop (Z.to_nat (F_Offset filter)) all)
    end;
  resolve_law ctx now id s :
    match is_status ctx now id InstanceStatusResolved s with
    | (s', Err _) => rows s' = rows s ∧ (ctx = None → ∀ i, rows s !! trim_space id = Some i →
        active_status (I_Status i) = false)
    | (s', Ok j) => ctx = None ∧ ∃ i, rows s !! trim_space id = Some i ∧
        rows s' = <[trim_space id := j]> (rows s) ∧
        j = if bool_decide (I_Status i = InstanceStatusResolved) then i
            else set_status i InstanceStatusResolved now
    end;
  touch_law ctx now id s :
    match is_touch ctx now id s with
    | (s', Err _) => rows s' = rows s
    | (s', Ok _) => ctx = None ∧ ∃ i, rows s !! trim_space id = Some i ∧
        rows s' = <[trim_space id := set_last_fired i now]> (rows s)
    end;
  fire_law ctx now id scope s :
    match is_fire ctx now id scope s with
    | (s', Err _) => rows s' = rows s ∧ (ctx = None → ∀ n i, NormalizeFiringScope scope = Ok n →
        rows s !! trim_space id = Some i → I_FirstFiredAt i = None → I_FiringScope i = None →
        I_Status i ≠ InstanceStatusPending)
    | (s', Ok j) => ctx = None ∧ ∃ i n, rows s !! trim_space id = Some i ∧
        NormalizeFiringScope scope = Ok n ∧
        (I_Status i = InstanceStatusPending → j = set_fired i n now ∧
           rows s' = <[I_ID i := j]> (rows s)) ∧
        (I_Status i ≠ InstanceStatusPending → j = i ∧ rows s' = rows s)
    end;
  timing_law ctx ruleID fingerprint s :
    match is_timing ctx ruleID fingerprint s with
    | Err e => ∃ c, ctx = Some c ∧ e = ErrContext c
    | Ok out => ctx = None ∧
        is_latest (LastFirstFiredAt out) (λ t, ∃ id i, rows s !! id = Some i ∧
          of_key ruleID fingerprint i ∧ I_FirstFiredAt i = Some t) ∧
        is_latest (LastResolvedAt out) (λ t, ∃ id i, rows s !! id = Some i ∧
          of_key ruleID fingerprint i ∧ is_Some (I_FirstFiredAt i) ∧ I_ResolvedAt i = Some t)
    end }.
Arguments rows {S _ _ _} _.
Arguments silence_rows {S _ _ _} _.

(** ** The memory store *)

Section memory.
Context (sha256_hex : list ascii → string) `{MapRange}.

#[export] Instance memory_instance_store : InstanceStore MemoryAlertInstanceStore := {|
  is_create := CreateAlertInstanceContext sha256_hex;
  is_active := GetActiveInstanceByFingerprintContext;
  is_list := ListAlertInstancesContext;
  is_status := UpdateAlertInstanceStatusContext;
  is_touch := UpdateAlertInstanceLastFiredContext;
  is_fire := FireAlertInstance;
  is_timing := AlertFingerprintTimingOp;
  is_silences := ListAlertSilencesContext |}.

Lemma active_can_resolve i :
  active_status (I_Status i) = true →
  CanTransitionInstanceStatus (I_Status i) InstanceStatusResolved = true.
Proof.
  unfold active_status. rewrite !orb_true_iff, !bool_decide_eq_true.
  by intros [[-> | ->] | ->].
Qed.

#[export] Program Instance memory_instance_store_spec :
  InstanceStoreSpec MemoryAlertInstanceStore sha256_hex := {| rows := instances; silence_rows := silences |}.
Next Obligation.
  intros [e|] now limit s; simpl; [by eexists|]. unfold ListAlertSilencesContext. simpl.
  split; [done|]. eexists. split; [unfold page; simpl; reflexivity|]. intros x.
  rewrite merge_sort_Permutation, elem_of_select. naive_solver.
Qed.
Next Obligation.
  intros [e|] now newid req s; simpl; [done|]. unfold CreateAlertInstanceContext. simpl. by eexists.
Qed.
Next Obligation.
  intros [e|] r f s; simpl; [by eexists|].
  unfold GetActiveInstanceByFingerprintContext. simpl.
  destruct (find_range _ _) as [[id i]|] eqn:E; simpl.
  - apply find_range_Some in E as [Hi E]. bool_prop. split_and!; eauto. by split.
  - rewrite find_range_None in E. split; [done|]. intros id i Hi [Hr Hf].
    specialize (E _ _ Hi). by rewrite !bool_decide_eq_true_2 in E.
Qed.
Next Obligation.
  intros [e|] f s; simpl; [by eexists|]. unfold ListAlertInstancesContext. simpl. split; [done|].
  eexists. split; [|unfold page; by rewrite <-drop_neg_offset].
  rewrite merge_sort_Permutation. unfold admitted, select.
  transitivity (base.filter (admits f) (range (instances s)).*2); [|by rewrite range_perm].
  apply reflexive_eq. induction (range (instances s)).*2 as [|i l IH]; [done|]. simpl.
  rewrite filter_cons. destruct (_ && _) eqn:E.
  - rewrite decide_True; [by rewrite IH|]. unfold admits.
    rewrite !andb_true_iff, !is_empty_orb, !bool_decide_eq_true in E. tauto.
  - rewrite decide_False; [done|]. unfold admits. intros Ha. apply not_true_iff_false in E. apply E.
    rewrite !andb_true_iff, !is_empty_orb, !bool_decide_eq_true. tauto.
Qed.
Next Obligation.
  intros ctx now id s. simpl. unfold UpdateAlertInstanceStatusContext.
  destruct ctx as [e|]; simpl; [by split|].
  change (NormalizeInstanceStatus InstanceStatusResolved) with InstanceStatusResolved. simpl.
  destruct (instances s !! trim_space id) as [i|] eqn:Hi; [|split; [done|]; intros _ ?; congruence].
  destruct (CanTransitionInstanceStatus _ _) eqn:Hc; simpl.
  - case_bool_decide as Hs; simpl; (split; [done|]); exists i.
    + rewrite bool_decide_eq_true_2 by done. by rewrite insert_id.
    + by rewrite bool_decide_eq_false_2.
  - split; [done|]. intros _ j [= <-]. apply not_true_iff_false. intros ?%active_can_resolve.
    congruence.
Qed.
Next Obligation.
  intros [e|] now id s; simpl; [done|]. unfold UpdateAlertInstanceLastFiredContext. simpl.
  destruct (instances s !! trim_space id) as [i|] eqn:Hi; [|done]. simpl. split; [done|]. by exists i.
Qed.
Next Obligation.
  intros ctx now id scope s. simpl. unfold FireAlertInstance.
  destruct (NormalizeFiringScope scope) as [n|] eqn:Hn; [|by split].
  destruct ctx as [e|]; simpl; [by split|].
  destruct (instances s !! trim_space id) as [i|] eqn:Hi; [|by split].
  destruct (_ || _) eqn:Hact; simpl.
  - split; [done|]. exists i, n. split_and!; try done.
    intros Hp. rewrite Hp in Hact. discriminate.
  - destruct (_ || _ || _) eqn:Hfresh; [|bool_prop; simpl; split; [done|]; exists i, n; by split_and!].
    split; [done|]. intros _ n' i' _ [= <-] Hf Hs Hp. rewrite Hf, Hs, Hp in Hfresh. done.
Qed.
Next Obligation.
  intros [e|] r f s; [simpl; by eexists|].
  destruct (fingerprint_timing r f s) as (out & Hout & ? & ?).
  change (is_timing None r f s) with (AlertFingerprintTimingOp None r f s).
  rewrite Hout. by split_and!.
Qed.
End memory.
