(* ===== verification/AlertEvaluator.v ===== *)
(** * The alert evaluator

    [internal/hubapi/alerting/alert_evaluator_instances.go],
    [alert_evaluation_timing.go], [alert_auto_incident.go],
    [maintenance_suppression.go] and [evaluateSingleRuleAt] of
    [alert_evaluator.go]: what happens to the instances of a rule when its condition
    is triggered or not.

    The evaluator runs against any [InstanceStore].  Everything it samples from
    outside, the clock, generated ids and whether the context is done, may
    change between two statements: the [n]-th sample of a call reads index [n]
    of the environment, so the theorems hold whenever a context is cancelled in the
    middle of an evaluation. *)

From S2P Require Import Prelude GoStrings Alerts AlertInstances InstanceStoreSpec.
From S2P Require Incidents.

(** ** Environment, world and monad *)

Inductive event :=
| EvBroadcastFired (ruleID severity : string)
| EvBroadcastResolved (ruleID instanceID : string)
| EvDispatch (ruleID instanceID state : string)
| EvPushAgents (ruleID instanceID state : string)
| EvIncidentCreated (incidentID : string).
#[export] Instance event_eq_dec : EqDecision event.
Proof. solve_decision. Defined.

(** The fields of [Deps] the evaluator reads.  [target_groups rule] stands for
    the [GroupID]s of [resolveRuleTargetAssetsContext], [None] for its error;
    [guardrails_ctx] is the callback [EvaluateGuardrailsContext], with [None]
    inside for its error. *)
Record env := {
  e_now : nat → time;
  e_id : nat → string;
  e_ctx : nat → Ctx;
  target_groups : Rule → option (list string);
  guardrails : bool;
  guardrails_ctx : option (string → time → option bool);
  device_name : string → option string }.

Section evaluator.
Context {S : Type} {sha256_hex : list ascii → string} `{InstanceStoreSpec S sha256_hex}.
Context `{MapRange} (E : env).

Record world := MkWorld {
  w_store : S;
  w_incidents : option Incidents.MemoryIncidentStore;
  w_events : list event;
  w_tick : nat }.

Definition M (A : Type) : Type := world → world * A.

#[local] Instance M_ret : MRet M := λ A a w, (w, a).
#[local] Instance M_bind : MBind M := λ A B f m w, f (m w).2 (m w).1.

Definition sample {A} (f : nat → A) : M A := λ w,
  (MkWorld (w_store w) (w_incidents w) (w_events w) (Datatypes.S (w_tick w)), f (w_tick w)).
Definition emit (e : event) : M unit := λ w,
  (MkWorld (w_store w) (w_incidents w) (w_events w ++ [e]) (w_tick w), tt).
Definition read {A} (f : S → A) : M A := λ w, (w, f (w_store w)).
Definition write {A} (f : S → S * A) : M A := λ w,
  let '(s, a) := f (w_store w) in
  (MkWorld s (w_incidents w) (w_events w) (w_tick w), a).

(** [ctx.Err() != nil] *)
Definition ctx_done : M bool := c ← sample (e_ctx E); mret (bool_decide (is_Some c)).

(** ** Calls to the store *)

Definition createInstance (req : CreateInstanceRequest) : M (result instance_error AlertInstance) :=
  c ← sample (e_ctx E); t ← sample (e_now E); i ← sample (e_id E);
  write (is_create c t i req).
Definition fireInstance (id : string) (scope : FiringScope) : M (result instance_error AlertInstance) :=
  c ← sample (e_ctx E); t ← sample (e_now E); write (is_fire c t id scope).
Definition resolveInstance (id : string) : M (result instance_error AlertInstance) :=
  c ← sample (e_ctx E); t ← sample (e_now E); write (is_status c t id InstanceStatusResolved).
Definition touchInstance (id : string) : M (result instance_error unit) :=
  c ← sample (e_ctx E); t ← sample (e_now E); write (is_touch c t id).
Definition activeInstance (ruleID fp : string) : M (result instance_error (option AlertInstance)) :=
  c ← sample (e_ctx E); read (is_active c ruleID fp).
Definition listInstances (f : AlertInstanceFilter) : M (result instance_error (list AlertInstance)) :=
  c ← sample (e_ctx E); read (is_list c f).
Definition listSilences (limit : Z) : M (result instance_error (list AlertSilence)) :=
  c ← sample (e_ctx E); t ← sample (e_now E); read (is_silences c t limit true).
Definition fingerprintTiming (ruleID fp : string) : M (result instance_error AlertFingerprintTiming) :=
  c ← sample (e_ctx E); read (is_timing c ruleID fp).

(** ** Suppression *)

Definition matchesSilence (rule : Rule) (silence : AlertSilence) : bool :=
  if bool_decide (S_Matchers silence = ∅) then false
  else forallb (λ kv : string * string, bool_decide (R_Labels rule !! kv.1 = Some kv.2))
         (range (S_Matchers silence)).

(** The groups named by the targets and those of the resolved assets. *)
Definition suppression_groups (rule : Rule) (assetGroups : list string) : gmap string unit :=
  list_to_map ((λ g, (g, tt)) <$>
    List.filter (λ g, negb (is_empty g)) ((T_GroupID <$> R_Targets rule) ++ assetGroups)).

Fixpoint any_group_suppressed (guard : string → time → option bool) (now : time)
    (groups : list string) : M bool :=
  match groups with
  | [] => mret false
  | g :: gs =>
      d ← ctx_done;
      if (d : bool) then mret true
      else match guard g now with
           | None | Some true => mret true
           | Some false => any_group_suppressed guard now gs
           end
  end.

Definition isAlertMaintenanceSuppressedContext (rule : Rule) : M bool :=
  d ← ctx_done;
  if (d : bool) then mret true
  else if bool_decide (guardrails_ctx E = None) && negb (guardrails E) then mret false
  else match target_groups E rule with
       | None => mret true
       | Some assetGroups =>
           let groups := suppression_groups rule assetGroups in
           if bool_decide (groups = ∅) then mret false
           else match guardrails_ctx E with
                | None => mret true
                | Some guard =>
                    now ← sample (e_now E);
                    any_group_suppressed guard now (range groups).*1
                end
       end.

(** [prefetch] is [None] for a nil prefetch. *)
Definition consulted_silences (prefetch : option (list AlertSilence)) :
    M (option (list AlertSilence)) :=
  match prefetch with
  | Some l => mret (Some l)
  | None =>
      r ← listSilences 500;
      mret (match r with
            | Ok l => if (500 <=? length l)%nat then None else Some l
            | Err _ => None
            end)
  end.

Definition isAlertSuppressedContext (rule : Rule) (prefetch : option (list AlertSilence)) : M bool :=
  d ← ctx_done;
  if (d : bool) then mret true else
  m ← isAlertMaintenanceSuppressedContext rule;
  if (m : bool) then mret true else
  silences ← consulted_silences prefetch;
  mret (match silences with
        | None => true
        | Some l => existsb (matchesSilence rule) l
        end).

(** ** Timing *)

(** One of the two holds: the anchor plus the seconds is not after [at]. *)
Definition hold_over (at_ : time) (anchor : option time) (seconds : Z) : bool :=
  if (seconds <? 0) || (MaxDurationSeconds <? seconds) then false
  else match anchor with
       | None => true
       | Some t => negb (at_ <? t + seconds * Second)
       end.

Definition alertFingerprintMayFire (rule : Rule) (fp : string) (at_ : time) : M bool :=
  r ← fingerprintTiming (R_ID rule) fp;
  match r with
  | Err _ => mret false
  | Ok h =>
      if hold_over at_ (LastFirstFiredAt h) (R_CooldownSeconds rule)
         && hold_over at_ (LastResolvedAt h) (R_ReopenAfterSeconds rule)
      then d ← ctx_done; mret (negb d && negb (at_ =? zero_time))
      else mret false
  end.

(** ** Automatic incidents *)

Definition maybeAutoCreateIncidentContext (rule : Rule)
    (inst : AlertInstance) : M unit :=
  has ← (λ w, (w, bool_decide (is_Some (w_incidents w))));
  d ← ctx_done;
  if negb has || d then mret tt
  else if negb (bool_decide (R_Severity rule = SeverityCritical)) then mret tt else
  now ← sample (e_now E);
  if now - I_StartedAt inst <? 5 * Minute then mret tt else
  let device := match I_FiringScope inst with
                | Some {| AssetIDs := [a] |} => default "" (device_name E a)
                | _ => ""
                end in
  let title := if is_empty device then R_Name rule
               else (R_Name rule +:+ " on " +:+ device)%string in
  let req := {| Incidents.CN_Title := title;
    Incidents.CN_Summary := (R_Name rule +:+ " has been firing for 5 minutes.")%string;
    Incidents.CN_Severity := Incidents.SeverityCritical;
    Incidents.CN_Source := Incidents.SourceAlertAuto; Incidents.CN_GroupID := "";
    Incidents.CN_PrimaryAssetID := ""; Incidents.CN_Assignee := "";
    Incidents.CN_Metadata := ∅; Incidents.CN_CreatedBy := "" |} in
  c ← sample (e_ctx E); t ← sample (e_now E); i ← sample (e_id E); l ← sample (e_id E);
  r ← (λ w, match w_incidents w with
            | None => (w, Ok None)
            | Some m =>
                let '(m', r) := Incidents.CreateAutoIncidentForAlertInstanceContext
                                  c t i l (I_ID inst) req m in
                (MkWorld (w_store w) (Some m') (w_events w) (w_tick w), r)
            end);
  match r with
  | Ok (Some inc) =>
      d ← ctx_done;
      if (d : bool) then mret tt else emit (EvIncidentCreated (Incidents.N_ID inc))
  | _ => mret tt
  end.

(** ** A triggered condition *)

Definition instance_request (rule : Rule) (fp : string) : CreateInstanceRequest := {|
  CI_RuleID := R_ID rule; CI_Fingerprint := fp; CI_Severity := R_Severity rule;
  CI_Labels := R_Labels rule; CI_Annotations := ∅ |}.

Definition createAndDispatchFiringInstance (rule : Rule) (fp : string) (scope : FiringScope) :
    M unit :=
  r ← createInstance (instance_request rule fp);
  match r with
  | Err _ => mret tt
  | Ok inst =>
      f ← fireInstance (I_ID inst) scope;
      match f with
      | Err _ => mret tt
      | Ok _ =>
          d ← ctx_done;
          if (d : bool) then mret tt else
          _ ← emit (EvBroadcastFired (R_ID rule) (R_Severity rule));
          _ ← emit (EvDispatch (R_ID rule) (I_ID inst) "firing");
          emit (EvPushAgents (R_ID rule) (I_ID inst) "firing")
      end
  end.

Definition fireOrRefireAlertWithScopeAt (rule : Rule) (prefetch : option (list AlertSilence))
    (at_ : time) (scope : FiringScope) : M unit :=
  d ← ctx_done;
  if (d : bool) then mret tt else
  let fp := GenerateFingerprint sha256_hex (R_ID rule) (R_Labels rule) in
  existing ← activeInstance (R_ID rule) fp;
  match existing with
  | Err _ => mret tt
  | Ok (Some inst) =>
      if bool_decide (I_Status inst = InstanceStatusPending) then
        s ← isAlertSuppressedContext rule prefetch;
        if (s : bool) then _ ← touchInstance (I_ID inst); mret tt else
        may ← alertFingerprintMayFire rule fp at_;
        if negb may then mret tt else
        r ← resolveInstance (I_ID inst);
        match r with
        | Err _ => mret tt
        | Ok _ => createAndDispatchFiringInstance rule fp scope
        end
      else
        r ← touchInstance (I_ID inst);
        match r with
        | Err _ => mret tt
        | Ok _ => maybeAutoCreateIncidentContext rule inst
        end
  | Ok None =>
      s ← isAlertSuppressedContext rule prefetch;
      if (s : bool) then _ ← createInstance (instance_request rule fp); mret tt else
      may ← alertFingerprintMayFire rule fp at_;
      if (may : bool) then createAndDispatchFiringInstance rule fp scope else mret tt
  end.

(** ** A condition that is not triggered *)

Definition stale_filter (rule : Rule) (status : string) : AlertInstanceFilter :=
  {| F_Limit := 100; F_Offset := 0; F_RuleID := R_ID rule; F_Status := status; F_Severity := "" |}.

(** The inner loop; the result tells whether the function returned. *)
Fixpoint resolve_batch (rule : Rule) (suppressed : bool) (resolved : Z)
    (instances : list AlertInstance) : M (bool * Z) :=
  match instances with
  | [] => mret (false, resolved)
  | inst :: rest =>
      d ← ctx_done;
      if (d : bool) then mret (true, resolved) else
      r ← resolveInstance (I_ID inst);
      match r with
      | Err _ => resolve_batch rule suppressed resolved rest
      | Ok _ =>
          d ← ctx_done;
          if (d : bool) then mret (true, resolved + 1)
          else if suppressed || bool_decide (I_Status inst = InstanceStatusPending)
          then resolve_batch rule suppressed (resolved + 1) rest
          else
            _ ← emit (EvBroadcastResolved (R_ID rule) (I_ID inst));
            _ ← emit (EvDispatch (R_ID rule) (I_ID inst) "resolved");
            _ ← emit (EvPushAgents (R_ID rule) (I_ID inst) "resolved");
            resolve_batch rule suppressed (resolved + 1) rest
      end
  end.

Fixpoint resolve_statuses (rule : Rule) (suppressed : bool) (resolved : Z)
    (statuses : list string) : M Z :=
  match statuses with
  | [] => mret resolved
  | status :: rest =>
      r ← listInstances (stale_filter rule status);
      match r with
      | Err _ => resolve_statuses rule suppressed resolved rest
      | Ok instances =>
          '(returned, resolved) ← resolve_batch rule suppressed resolved instances;
          if (returned : bool) then mret resolved
          else resolve_statuses rule suppressed resolved rest
      end
  end.

Definition resolveStaleInstancesContext (rule : Rule) (prefetch : option (list AlertSilence)) :
    M Z :=
  d ← ctx_done;
  if (d : bool) then mret 0 else
  suppressed ← isAlertSuppressedContext rule prefetch;
  resolve_statuses rule suppressed 0
    [InstanceStatusPending; InstanceStatusFiring; InstanceStatusAcknowledged].

(** ** Abstract specification of a triggered evaluation

    What an evaluation may do to the rows of the store, with the events it
    emits; [fire_refines] shows that the code does nothing else. *)

Abbreviation rowmap := (gmap string AlertInstance).

Section spec.
Context (rule : Rule) (prefetch : option (list AlertSilence)) (at_ : time) (scope : FiringScope).

Definition fingerprint : string := GenerateFingerprint sha256_hex (R_ID rule) (R_Labels rule).
Abbreviation mine := (of_key (R_ID rule) fingerprint).
Definition active (i : AlertInstance) : Prop := active_status (I_Status i) = true.
Definition fresh_row (t : time) (id : string) : AlertInstance :=
  new_instance sha256_hex t id (instance_request rule fingerprint).

Definition keyed (r : rowmap) : Prop :=
  map_Forall (λ id i, I_ID i = id ∧ trim_space id = id) r.
Definition no_active (r : rowmap) : Prop := ∀ id i, r !! id = Some i → mine i → ¬ active i.

(** Both holds are over for every earlier firing of the rule and fingerprint. *)
Definition holds_over (r : rowmap) : Prop :=
  (∀ id i t, r !! id = Some i → mine i → I_FirstFiredAt i = Some t →
     t + R_CooldownSeconds rule * Second ≤ at_) ∧
  (∀ id i t, r !! id = Some i → mine i → is_Some (I_FirstFiredAt i) → I_ResolvedAt i = Some t →
     t + R_ReopenAfterSeconds rule * Second ≤ at_).

(** No silence that the evaluation consults matches the rule: the prefetched
    ones, or else all silences that are active at some clock reading. *)
Definition unsilenced (sil : gmap string AlertSilence) : Prop :=
  match prefetch with
  | Some l => ∀ x, x ∈ l → matchesSilence rule x = false
  | None => ∃ k, ∀ id x, sil !! id = Some x → silence_active (e_now E k) x = true →
      matchesSilence rule x = false
  end.

(** The rows from which a fresh firing starts: no active row, or the pending
    placeholder has been resolved. *)
Inductive cleared (r : rowmap) : rowmap → Prop :=
| cleared_none : no_active r → cleared r r
| cleared_pending id i t : r !! id = Some i → mine i → I_Status i = InstanceStatusPending →
    cleared r (<[id := set_status i InstanceStatusResolved t]> r).

Definition fired_events (id : string) : list event :=
  [EvBroadcastFired (R_ID rule) (R_Severity rule); EvDispatch (R_ID rule) id "firing";
   EvPushAgents (R_ID rule) id "firing"].

Inductive fire_effect (n0 n1 : nat) (sil : gmap string AlertSilence) (r : rowmap) :
    rowmap → list event → Prop :=
| eff_idle : fire_effect n0 n1 sil r r []
| eff_refire id i t evs :
    r !! id = Some i → mine i → active i →
    evs = [] ∨ I_Status i ≠ InstanceStatusPending ∧ (∃ inc, evs = [EvIncidentCreated inc]) →
    fire_effect n0 n1 sil r (<[id := set_last_fired i t]> r) evs
| eff_placeholder k t :
    no_active r → (n0 ≤ k < n1)%nat → fire_effect n0 n1 sil r (<[e_id E k := fresh_row t (e_id E k)]> r) []
| eff_cleared r' :
    unsilenced sil → holds_over r → cleared r r' → fire_effect n0 n1 sil r r' []
| eff_created r' k t :
    unsilenced sil → holds_over r → cleared r r' → (n0 ≤ k < n1)%nat →
    fire_effect n0 n1 sil r (<[e_id E k := fresh_row t (e_id E k)]> r') []
| eff_fired r' k t k' n evs :
    unsilenced sil → holds_over r → cleared r r' → (n0 ≤ k < n1)%nat → (n0 ≤ k')%nat →
    NormalizeFiringScope scope = Ok n → evs = [] ∨ evs = fired_events (e_id E k) →
    fire_effect n0 n1 sil r
      (<[e_id E k := set_fired (fresh_row t (e_id E k)) n (e_now E k')]> r') evs.

(** *** Computations that only look *)

Definition later_world (n : nat) (w : world) : world :=
  MkWorld (w_store w) (w_incidents w) (w_events w) n.

(** [m] changes nothing but the number of samples and returns a result in [Q]. *)
Definition looks {A} (m : M A) (w : world) (Q : A → Prop) : Prop :=
  ∃ n a, m w = (later_world n w, a) ∧ (w_tick w ≤ n)%nat ∧ Q a.

Lemma looks_ret {A} (a : A) w (Q : A → Prop) : Q a → looks (mret a) w Q.
Proof. intros. exists (w_tick w), a. by destruct w. Qed.

Lemma looks_bind {A B} (m : M A) (f : A → M B) w (Q : A → Prop) (R : B → Prop) :
  looks m w Q → (∀ n a, Q a → looks (f a) (later_world n w) R) → looks (m ≫= f) w R.
Proof.
  intros (n & a & Hm & Hn & Ha) Hf. destruct (Hf n a Ha) as (n' & b & Hb & Hn' & HR).
  exists n', b. unfold mbind, M_bind. rewrite Hm. simpl. split_and!; [|simpl in *; lia|done].
  rewrite Hb. by destruct w.
Qed.

Lemma looks_sample {A} (f : nat → A) w (Q : A → Prop) :
  (∀ n, (w_tick w ≤ n)%nat → Q (f n)) → looks (sample f) w Q.
Proof. intros HQ. exists (Datatypes.S (w_tick w)), (f (w_tick w)). auto. Qed.

Lemma looks_read {A} (f : S → A) w (Q : A → Prop) : Q (f (w_store w)) → looks (read f) w Q.
Proof. intros. exists (w_tick w), (f (w_store w)). by destruct w. Qed.

Lemma looks_weaken {A} (m : M A) w (Q R : A → Prop) : looks m w Q → (∀ a, Q a → R a) → looks m w R.
Proof. intros (n & a & ? & ? & ?) HQ. exists n, a. auto. Qed.

Lemma looks_ctx_done w : looks ctx_done w (λ _, True).
Proof.
  eapply looks_bind; [by apply (looks_sample _ _ (λ _, True))|]. intros. by apply looks_ret.
Qed.

Lemma looks_if {A} (b : bool) (m1 m2 : M A) w (Q : A → Prop) :
  (b = true → looks m1 w Q) → (b = false → looks m2 w Q) → looks (if b then m1 else m2) w Q.
Proof. destruct b; auto. Qed.

Lemma looks_any_group guard now gs w : looks (any_group_suppressed guard now gs) w (λ _, True).
Proof.
  revert w. induction gs as [|g gs IH]; intros w; [by apply looks_ret|]. simpl.
  eapply looks_bind; [apply looks_ctx_done|]. intros n d _. apply looks_if; intros _.
  - by apply looks_ret.
  - destruct (guard g now) as [[|]|]; [by apply looks_ret|apply IH|by apply looks_ret].
Qed.

Lemma looks_maintenance w : looks (isAlertMaintenanceSuppressedContext rule) w (λ _, True).
Proof.
  eapply looks_bind; [apply looks_ctx_done|]. intros n d _. apply looks_if; intros _; [by apply looks_ret|].
  apply looks_if; intros _; [by apply looks_ret|].
  destruct (target_groups E rule) as [gs|]; [|by apply looks_ret].
  apply looks_if; intros _; [by apply looks_ret|].
  destruct (guardrails_ctx E) as [guard|]; [|by apply looks_ret].
  eapply looks_bind; [by apply (looks_sample _ _ (λ _, True))|]. intros. apply looks_any_group.
Qed.

Lemma looks_consulted w :
  looks (consulted_silences prefetch) w (λ o, ∀ l, o = Some l →
    (∀ x, x ∈ l → matchesSilence rule x = false) → unsilenced (silence_rows (w_store w))).
Proof.
  unfold consulted_silences, unsilenced. destruct prefetch as [l|]; [apply looks_ret; naive_solver|].
  eapply looks_bind; [|intros n r Hr; by apply looks_ret; exact Hr].
  unfold listSilences. eapply looks_bind; [by apply (looks_sample _ _ (λ _, True))|]. intros n c _.
  eapply looks_bind; [apply (looks_sample _ _ (λ t, ∃ k, t = e_now E k)); eauto|].
  intros n' t [k ->]. apply looks_read. cbn [w_store later_world].
  pose proof (silences_law c (e_now E k) 500 (w_store w)) as Hl.
  destruct (is_silences _ _ _ _ _) as [l|e]; [|done]. destruct Hl as [_ (all & -> & Hall)].
  destruct (500 <=? _)%nat eqn:Hlen; [done|]. intros l [= <-] Hx. exists k. intros id x Hid Hact.
  apply Hx. apply Nat.leb_gt in Hlen. rewrite length_take in Hlen.
  change (Z.to_nat (clamp_limit 500)) with 500%nat in *.
  rewrite take_ge by lia. apply Hall. eauto.
Qed.

Lemma looks_suppressed w :
  looks (isAlertSuppressedContext rule prefetch) w
    (λ b, b = false → unsilenced (silence_rows (w_store w))).
Proof.
  eapply looks_bind; [apply looks_ctx_done|]. intros n d _. apply looks_if; intros _; [by apply looks_ret|].
  eapply looks_bind; [apply looks_maintenance|]. intros n' m _. apply looks_if; intros _; [by apply looks_ret|].
  eapply looks_bind; [apply looks_consulted|]. intros n2 o Ho. apply looks_ret.
  destruct o as [l|]; [|done]. intros Hb. apply (Ho l); [done|]. by apply existsb_false_elem.
Qed.

Lemma hold_over_spec anchor seconds P :
  is_latest anchor P → hold_over at_ anchor seconds = true →
  ∀ t, P t → t + seconds * Second ≤ at_.
Proof.
  unfold hold_over, is_latest. intros Hl. destruct (_ || _); [done|].
  destruct anchor as [a|]; [|naive_solver].
  intros Hb t Ht. bool_prop. destruct Hl as [_ Hmax]. specialize (Hmax t Ht). lia.
Qed.

Lemma looks_may_fire w :
  looks (alertFingerprintMayFire rule fingerprint at_) w
    (λ b, b = true → holds_over (rows (w_store w))).
Proof.
  unfold alertFingerprintMayFire, fingerprintTiming.
  eapply (looks_bind _ _ _ (λ r, ∀ h, r = Ok h →
    hold_over at_ (LastFirstFiredAt h) (R_CooldownSeconds rule) = true →
    hold_over at_ (LastResolvedAt h) (R_ReopenAfterSeconds rule) = true →
    holds_over (rows (w_store w)))).
  - eapply looks_bind; [by apply (looks_sample _ _ (λ _, True))|]. intros n c _.
    apply looks_read. simpl. intros h Hh H3 H4.
    pose proof (timing_law c (R_ID rule) fingerprint (w_store w)) as Hl. rewrite Hh in Hl.
    destruct Hl as (_ & Hl1 & Hl2). split.
    + intros id i t ???. eapply hold_over_spec; [exact Hl1|done|]. by exists id, i.
    + intros id i t ????. eapply hold_over_spec; [exact Hl2|done|]. by exists id, i.
  - intros n r Hr. destruct r as [h|]; [|by apply looks_ret].
    apply looks_if; intros Hb; [|by apply looks_ret]. bool_prop.
    eapply looks_bind; [apply looks_ctx_done|]. intros. apply looks_ret. intros _. by eapply Hr.
Qed.

(** *** Computations that write *)

(** What [m] does to the rows and the events when started in [w]. *)
Definition does {A} (m : M A) (w : world) (P : A → rowmap → list event → nat → Prop) : Prop :=
  ∃ evs, w_events (m w).1 = w_events w ++ evs ∧ (w_tick w ≤ w_tick (m w).1)%nat ∧
    P (m w).2 (rows (w_store (m w).1)) evs (w_tick (m w).1).

Lemma does_ret {A} (a : A) w P : P a (rows (w_store w)) [] (w_tick w) → does (mret a) w P.
Proof. intros. exists []. by rewrite app_nil_r. Qed.

Lemma does_looks {A B} (m : M A) (f : A → M B) w (Q : A → Prop) P :
  looks m w Q → (∀ n a, (w_tick w ≤ n)%nat → Q a → does (f a) (later_world n w) P) →
  does (mbind f m) w P.
Proof.
  intros (n & a & Hm & Hn & Ha) Hf. unfold does, mbind, M_bind. rewrite Hm. simpl.
  destruct (Hf n a Hn Ha) as (evs & ? & ? & ?). exists evs.
  simpl in *. split_and!; [done|lia|done].
Qed.

Lemma does_if {A} (b : bool) (m1 m2 : M A) w P :
  (b = true → does m1 w P) → (b = false → does m2 w P) → does (if b then m1 else m2) w P.
Proof. destruct b; auto. Qed.

Lemma does_auto_incident inst w (r : rowmap) (P : unit → rowmap → list event → nat → Prop) :
  rows (w_store w) = r → (∀ n, (w_tick w ≤ n)%nat → P tt r [] n) →
  (∀ id n, (w_tick w ≤ n)%nat → P tt r [EvIncidentCreated id] n) →
  does (maybeAutoCreateIncidentContext rule inst) w P.
Proof.
  intros <- HP Hinc.
  assert (Hret : ∀ n, (w_tick w ≤ n)%nat → does (mret tt) (later_world n w) P).
  { intros n Hn. apply does_ret. by apply HP. }
  unfold maybeAutoCreateIncidentContext.
  eapply (does_looks _ _ _ (λ _, True)).
  { exists (w_tick w), (bool_decide (is_Some (w_incidents w))). by destruct w. }
  intros n1 has Hn1 _. eapply does_looks; [apply looks_ctx_done|]. intros n2 d Hn2 _.
  simpl in *. apply does_if; intros _; [apply (Hret n2); lia|].
  apply does_if; intros _; [apply (Hret n2); lia|].
  eapply does_looks; [by apply (looks_sample _ _ (λ _, True))|]. intros n3 now Hn3 _.
  simpl in *. apply does_if; intros _; [apply (Hret n3); lia|].
  do 4 (eapply does_looks; [by apply (looks_sample _ _ (λ _, True))|]; intros ? ? ? _).
  simpl in *. unfold does, mbind, M_bind. simpl.
  destruct (w_incidents w) as [m|]; simpl;
    [|exists []; rewrite app_nil_r; split_and!; [done|lia|apply HP; lia]].
  destruct (Incidents.CreateAutoIncidentForAlertInstanceContext _ _ _ _ _ _ _) as [m' r] eqn:Hc.
  simpl. destruct r as [[inc|]|];
    [|exists []; rewrite app_nil_r; split_and!; [done|simpl; lia|apply HP; simpl; lia]..].
  destruct (bool_decide (is_Some (e_ctx E _))); simpl.
  - exists []. rewrite app_nil_r. split_and!; [done|lia|apply HP; lia].
  - eexists. split_and!; [done|lia|apply Hinc; lia].
Qed.

Section writes.
Hypothesis trimmed_ids : ∀ k, trim_space (e_id E k) = e_id E k.

Lemma does_create_dispatch w n0 sil (r0 : rowmap) :
  (n0 ≤ w_tick w)%nat → unsilenced sil → holds_over r0 → cleared r0 (rows (w_store w)) →
  does (createAndDispatchFiringInstance rule fingerprint scope) w
    (λ _ r evs n1, fire_effect n0 n1 sil r0 r evs).
Proof.
  intros Hn Hsil Hh Hc. unfold createAndDispatchFiringInstance, createInstance.
  unfold does, mbind, M_bind, sample, write. simpl.
  set (n := w_tick w) in *.
  pose proof (create_law (e_ctx E n) (e_now E (Datatypes.S n)) (e_id E (Datatypes.S (Datatypes.S n)))
    (instance_request rule fingerprint) (w_store w)) as Hcr.
  destruct (e_ctx E n) as [e|].
  { rewrite Hcr. simpl. exists []. rewrite app_nil_r. split_and!; [done|simpl; lia|]. by apply eff_cleared. }
  destruct Hcr as (s1 & -> & Hs1). simpl.
  set (id := e_id E (Datatypes.S (Datatypes.S n))) in *.
  change (new_instance sha256_hex (e_now E (Datatypes.S n)) id (instance_request rule fingerprint))
    with (fresh_row (e_now E (Datatypes.S n)) id) in *.
  unfold fireInstance, mbind, M_bind, sample, write. simpl.
  match goal with |- context [is_fire ?c ?t ?i scope s1] =>
    pose proof (fire_law c t i scope s1) as Hf end.
  destruct (is_fire _ _ _ _ s1) as [s2 [j|e]] eqn:Hfire; simpl in *.
  - destruct Hf as (_ & i & nsc & Hi & Hnsc & Hp & _). unfold id in Hi. rewrite trimmed_ids, Hs1 in Hi.
    rewrite lookup_insert_eq in Hi. injection Hi as <-. destruct (Hp eq_refl) as [-> Hrows].
    rewrite Hs1, insert_insert_eq in Hrows. simpl in Hrows.
    unfold ctx_done, mbind, M_bind, sample. simpl. case_bool_decide; simpl.
    + exists []. rewrite app_nil_r, Hrows. split_and!; [done|lia|]. apply eff_fired; auto; lia.
    + exists (fired_events id). rewrite Hrows, <-!app_assoc. split_and!; [done|lia|].
      apply eff_fired; auto; lia.
  - exists []. rewrite app_nil_r, (proj1 Hf), Hs1. split_and!; [done|lia|]. apply eff_created; auto; lia.
Qed.

Lemma fire_does w :
  keyed (rows (w_store w)) →
  does (fireOrRefireAlertWithScopeAt rule prefetch at_ scope) w
    (λ _ r evs n1, fire_effect (w_tick w) n1 (silence_rows (w_store w)) (rows (w_store w)) r evs).
Proof.
  intros Hk. unfold fireOrRefireAlertWithScopeAt. fold fingerprint.
  eapply does_looks; [apply looks_ctx_done|]. intros n1 d Hn1 _.
  apply does_if; intros _; [by apply does_ret, eff_idle|].
  eapply (does_looks _ _ _ (λ r, match r with
    | Err _ => True
    | Ok None => no_active (rows (w_store w))
    | Ok (Some i) => rows (w_store w) !! I_ID i = Some i ∧ trim_space (I_ID i) = I_ID i
                     ∧ mine i ∧ active i end)).
  { eapply looks_bind; [by apply (looks_sample _ _ (λ _, True))|]. intros n c _.
    apply looks_read. simpl. pose proof (active_law c (R_ID rule) fingerprint (w_store w)) as Ha.
    destruct (is_active _ _ _ _) as [[i|]|]; [| |done].
    2:{ destruct Ha as [_ Ha]. intros id i Hi Hm Hact. specialize (Ha _ _ Hi Hm).
        unfold active in Hact. congruence. }
    destruct Ha as (_ & Hm & Hact & id & Hi). by destruct (Hk _ _ Hi) as [-> ?]. }
  intros n2 existing Hn2 Hex. simpl in *. destruct existing as [[inst|]|].
  - destruct Hex as (Hi & Htr & Hm & Hact). case_bool_decide as Hp.
    + eapply does_looks; [apply looks_suppressed|]. intros n3 s Hn3 Hs. simpl in *.
      destruct s.
      * unfold touchInstance, does, mbind, M_bind, sample, write. simpl.
        match goal with |- context [is_touch ?c ?t ?i ?st] =>
          pose proof (touch_law c t i st) as Ht end.
        destruct (is_touch _ _ _ _) as [s2 [[]|e]]; simpl in *; exists []; rewrite app_nil_r; (split_and!; [done|lia|]).
        -- destruct Ht as (_ & i & Hi' & ->). rewrite Htr in *. simplify_eq.
           eapply eff_refire; [done..|by left].
        -- rewrite Ht. apply eff_idle.
      * eapply does_looks; [apply looks_may_fire|]. intros n4 may Hn4 Hmay. simpl in *.
        destruct may; simpl; [|by apply does_ret, eff_idle].
        unfold resolveInstance, does, mbind, M_bind, sample, write. simpl.
        match goal with |- context [is_status ?c ?t ?i _ ?st] =>
          pose proof (resolve_law c t i st) as Hr end.
        destruct (is_status _ _ _ _ _) as [s2 [j|e]]; simpl in *.
        -- destruct Hr as (_ & i & Hi' & Hrows & ->). rewrite Htr in *. simplify_eq.
           rewrite bool_decide_eq_false_2 in Hrows by by rewrite Hp.
           destruct (does_create_dispatch (MkWorld s2 (w_incidents w) (w_events w)
             (Datatypes.S (Datatypes.S n4))) (w_tick w) (silence_rows (w_store w))
             (rows (w_store w))) as (evs & He & Ht & HP); simpl in *; [lia|auto..| |].
           { rewrite Hrows. by eapply cleared_pending. }
           exists evs. split_and!; [exact He|lia|exact HP].
        -- exists []. rewrite app_nil_r. split_and!; [done|lia|]. rewrite (proj1 Hr). apply eff_idle.
    + unfold touchInstance, does, mbind, M_bind, sample, write. simpl.
      match goal with |- context [is_touch ?c ?t ?i ?st] =>
        pose proof (touch_law c t i st) as Ht end.
      destruct (is_touch _ _ _ _) as [s2 [[]|e]]; simpl in *.
      * destruct Ht as (_ & i & Hi' & Hrows). rewrite Htr in *. simplify_eq.
        destruct (does_auto_incident inst (MkWorld s2 (w_incidents w) (w_events w)
          (Datatypes.S (Datatypes.S n2))) _
          (λ _ r evs n1, fire_effect (w_tick w) n1 (silence_rows (w_store w))
             (rows (w_store w)) r evs) Hrows) as (evs & He & Htk & HP).
        -- intros n _. eapply eff_refire; [done..|by left].
        -- intros id n _. eapply eff_refire; [done..|right; eauto].
        -- simpl in *. exists evs. split_and!; [exact He|lia|exact HP].
      * exists []. rewrite app_nil_r, Ht. split_and!; [done|lia|apply eff_idle].
  - eapply does_looks; [apply looks_suppressed|]. intros n3 s Hn3 Hs. simpl in *. destruct s.
    + unfold createInstance, does, mbind, M_bind, sample, write. simpl.
      match goal with |- context [is_create ?c ?t ?i ?q ?st] =>
        pose proof (create_law c t i q st) as Hc end.
      destruct (e_ctx E n3); [rewrite Hc; simpl; exists []; rewrite app_nil_r; split_and!; [done|simpl; lia|apply eff_idle]|].
      destruct Hc as (s2 & -> & Hrows). simpl. exists []. rewrite app_nil_r, Hrows. split_and!; [done|lia|].
      apply eff_placeholder; [done|lia].
    + eapply does_looks; [apply looks_may_fire|]. intros n4 may Hn4 Hmay. simpl in *.
      destruct may; [|by apply does_ret, eff_idle].
      apply (does_create_dispatch (later_world n4 w)); simpl; [lia|auto..|]. by apply cleared_none.
  - by apply does_ret, eff_idle.
Qed.

(** C1: refinement: whatever the evaluator is handed for a triggered rule, and
    whenever its context is cancelled on the way, it does exactly one of the
    steps of [fire_effect]: nothing, touch the active instance, add one
    pending placeholder, resolve the placeholder, or add one instance and fire it
    with the normalised scope; it fires only when no active instance is left, no
    consulted silence matches, and both the cooldown and the reopen hold of the
    fingerprint are over, and it announces a firing only after the store
    has recorded it. *)
Theorem fire_refines w :
  keyed (rows (w_store w)) →
  does (fireOrRefireAlertWithScopeAt rule prefetch at_ scope) w
    (λ _ r evs n1, fire_effect (w_tick w) n1 (silence_rows (w_store w)) (rows (w_store w)) r evs).
Proof. apply fire_does. Qed.
End writes.

(** *** What the specification guarantees *)

(** At most one active instance of the rule and fingerprint. *)
Definition single (r : rowmap) : Prop := ∀ id1 id2 i1 i2,
  r !! id1 = Some i1 → r !! id2 = Some i2 → mine i1 → mine i2 → active i1 → active i2 → id1 = id2.

(** Two firings of the rule and fingerprint are at least a cooldown apart. *)
Definition apart (t1 t2 : time) : Prop :=
  t1 + R_CooldownSeconds rule * Second ≤ t2 ∨ t2 + R_CooldownSeconds rule * Second ≤ t1.
Definition cooled (r : rowmap) : Prop := ∀ id1 id2 i1 i2 t1 t2,
  id1 ≠ id2 → r !! id1 = Some i1 → r !! id2 = Some i2 → mine i1 → mine i2 →
  I_FirstFiredAt i1 = Some t1 → I_FirstFiredAt i2 = Some t2 → apart t1 t2.

Record invariant (r : rowmap) : Prop := {
  inv_keyed : keyed r; inv_single : single r; inv_cooled : cooled r }.

(** Instances of other rules and fingerprints. *)
Definition others (r : rowmap) : rowmap := base.filter (λ kv, ¬ mine kv.2) r.

Lemma invariant_insert r id j :
  invariant r → I_ID j = id → trim_space id = id →
  (mine j → active j → ∀ id' i, r !! id' = Some i → mine i → active i → id' = id) →
  (∀ t, mine j → I_FirstFiredAt j = Some t → ∀ id' i t', id' ≠ id → r !! id' = Some i → mine i →
     I_FirstFiredAt i = Some t' → apart t t') →
  invariant (<[id := j]> r).
Proof.
  intros [Hk Hs Hc] Hid Htr Hact Hap. constructor.
  - by apply map_Forall_insert_2.
  - intros id1 id2 i1 i2 [[<- <-]|[? H1']]%lookup_insert_Some
      [[<- <-]|[? H2']]%lookup_insert_Some Hm1 Hm2 Ha1 Ha2; try done.
    + symmetry. by eapply Hact.
    + by eapply Hact.
    + by eapply Hs.
  - intros id1 id2 i1 i2 t1 t2 Hne [[<- <-]|[? H1']]%lookup_insert_Some
      [[<- <-]|[? H2']]%lookup_insert_Some Hm1 Hm2 Ht1 Ht2; try done.
    + by apply (Hap t1 Hm1 Ht1 id2 i2 t2); auto.
    + unfold apart in *. destruct (Hap t2 Hm2 Ht2 id1 i1 t1); auto.
    + by apply (Hc id1 id2 i1 i2).
Qed.

(** Rewriting a row of the rule keeps the invariant when it starts no firing. *)
Lemma invariant_rewrite r id i j :
  invariant r → r !! id = Some i → I_ID j = I_ID i → (mine j → mine i) →
  (active j → active i) → I_FirstFiredAt j = I_FirstFiredAt i → invariant (<[id := j]> r).
Proof.
  intros Hinv Hi Hid Hm Ha Hf. destruct (inv_keyed _ Hinv _ _ Hi) as [<- ?].
  apply invariant_insert; [done|done|done|..].
  - intros ?? id' i' ???. eapply (inv_single _ Hinv); eauto.
  - intros t ? Ht id' i' t' Hne ???. rewrite Hf in Ht.
    eapply (inv_cooled _ Hinv (I_ID i) id'); eauto.
Qed.

Lemma others_insert r id j : mine j → (∀ i, r !! id = Some i → mine i) →
  others (<[id := j]> r) = others r.
Proof.
  intros Hj Hi. unfold others. apply map_eq. intros k. apply option_eq. intros x.
  rewrite !map_lookup_filter_Some, lookup_insert_Some. simpl. split.
  - intros [[[<- <-]|[? ?]] ?]; [done|auto].
  - intros [Hx ?]. split; [|done]. destruct (decide (id = k)) as [<-|]; [by specialize (Hi _ Hx)|auto].
Qed.

Lemma set_resolved_first i t : I_FirstFiredAt (set_status i InstanceStatusResolved t) = I_FirstFiredAt i.
Proof.
  unfold set_status. cbn [I_FirstFiredAt].
  rewrite (bool_decide_eq_false_2 (InstanceStatusResolved = InstanceStatusFiring)) by done.
  by rewrite andb_false_r.
Qed.

Lemma cleared_invariant r r' :
  invariant r → cleared r r' →
  invariant r' ∧ no_active r' ∧ others r' = others r ∧ dom r' = dom r ∧
  (holds_over r → ∀ id i t, r' !! id = Some i → mine i → I_FirstFiredAt i = Some t →
     t + R_CooldownSeconds rule * Second ≤ at_).
Proof.
  intros Hinv [Hn|id i t Hi Hm Hp].
  - split_and!; try done. by intros [? _].
  - assert (Hact : active i) by (unfold active; by rewrite Hp).
    split_and!.
    + eapply invariant_rewrite; [done..| |apply set_resolved_first]. done.
    + intros id' i' [[<- <-]|[Hne Hi']]%lookup_insert_Some Hm' Ha'; [done|].
      apply Hne. by eapply (inv_single _ Hinv).
    + apply others_insert; [done|]. intros i' ?. by simplify_eq.
    + apply elem_of_dom_2 in Hi. rewrite dom_insert_L. set_solver.
    + intros [Hh _] id' i' t' [[<- <-]|[Hne Hi']]%lookup_insert_Some Hm' Hf; [|by eauto].
      rewrite set_resolved_first in Hf. by eauto.
Qed.

Section guarantees.
Hypothesis trimmed_ids : ∀ k, trim_space (e_id E k) = e_id E k.
Hypothesis hex_digest : ∀ l, trim_space (sha256_hex l) = sha256_hex l.

Lemma fresh_row_mine t id : mine (fresh_row t id).
Proof.
  assert (Ht : trim_space fingerprint = fingerprint) by apply hex_digest.
  split; [done|]. simpl. rewrite Ht. by case_bool_decide.
Qed.

Lemma fire_effect_invariant n0 n1 sil r r' evs :
  (∀ k, (n0 ≤ k)%nat → r !! e_id E k = None ∧ at_ ≤ e_now E k) →
  invariant r → fire_effect n0 n1 sil r r' evs →
  invariant r' ∧ others r' = others r ∧ ∃ ids, dom r' = dom r ∪ ids ∧
    ∀ id, id ∈ ids → ∃ k, (n0 ≤ k < n1)%nat ∧ id = e_id E k.
Proof.
  intros Henv Hinv He.
  assert (Hempty : ∀ d : gset string, d = d ∪ ∅) by set_solver.
  destruct He as [|id i t evs Hi Hm Ha _|k t Hn Hk|r' _ Hh Hc|r' k t _ Hh Hc Hk|r' k t k' n evs _ Hh Hc Hk Hk' Hn _].
  - split_and!; [done|done|]. exists ∅. set_solver.
  - split_and!.
    + eapply invariant_rewrite; eauto.
    + apply others_insert; [done|]. intros i' ?. by simplify_eq.
    + exists ∅. apply elem_of_dom_2 in Hi. rewrite dom_insert_L. set_solver.
  - destruct (Henv k (proj1 Hk)) as [Hnone Hnow]. split_and!.
    + apply invariant_insert; [done|done|done| |done].
      intros _ _ id' i' Hi' Hm' Ha'. by destruct (Hn _ _ Hi' Hm').
    + apply others_insert; [apply fresh_row_mine|]. by rewrite Hnone.
    + exists {[e_id E k]}. rewrite dom_insert_L. set_solver.
  - destruct (cleared_invariant _ _ Hinv Hc) as (? & _ & ? & -> & _).
    split_and!; [done|done|]. exists ∅. set_solver.
  - destruct (cleared_invariant _ _ Hinv Hc) as (Hinv' & Hn & Ho & Hd & _).
    destruct (Henv k (proj1 Hk)) as [Hnone Hnow]. split_and!.
    + apply invariant_insert; [done|done|done| |done].
      intros _ _ id' i' Hi' Hm' Ha'. by destruct (Hn _ _ Hi' Hm').
    + rewrite <-Ho. apply others_insert; [apply fresh_row_mine|].
      intros i Hi%elem_of_dom_2. rewrite Hd in Hi. by apply not_elem_of_dom in Hnone.
    + exists {[e_id E k]}. rewrite dom_insert_L, Hd. set_solver.
  - destruct (cleared_invariant _ _ Hinv Hc) as (Hinv' & Hna & Ho & Hd & Hc').
    destruct (Henv k (proj1 Hk)) as [Hnone _]. destruct (Henv k' Hk') as [_ Hnow]. split_and!.
    + apply invariant_insert; [done|done|done| |].
      * intros _ _ id' i' Hi' Hm' Ha'. by destruct (Hna _ _ Hi' Hm').
      * intros t1 _ [= <-] id' i' t' _ Hi' Hm' Ht'.
        right. specialize (Hc' Hh _ _ _ Hi' Hm' Ht'). lia.
    + rewrite <-Ho. apply others_insert; [apply fresh_row_mine|].
      intros i Hi%elem_of_dom_2. rewrite Hd in Hi. by apply not_elem_of_dom in Hnone.
    + exists {[e_id E k]}. rewrite dom_insert_L, Hd. set_solver.
Qed.
End guarantees.
End spec.

(** ** Sequences of evaluations of one rule *)

Record call := { c_prefetch : option (list AlertSilence); c_at : time; c_scope : FiringScope }.

Section runs.
Context (rule : Rule).

Definition evaluate (c : call) (w : world) : world :=
  (fireOrRefireAlertWithScopeAt rule (c_prefetch c) (c_at c) (c_scope c) w).1.

Definition evaluations (calls : list call) (w : world) : world :=
  foldl (λ w c, evaluate c w) w calls.

(** The evaluation time of a call is taken before the clock readings of its
    store operations. *)
Fixpoint timely (calls : list call) (w : world) : Prop :=
  match calls with
  | [] => True
  | c :: calls => (∀ k, (w_tick w ≤ k)%nat → c_at c ≤ e_now E k) ∧ timely calls (evaluate c w)
  end.

(** Ids not generated yet name no row. *)
Definition unused (w : world) : Prop :=
  ∀ k, (w_tick w ≤ k)%nat → rows (w_store w) !! e_id E k = None.

End runs.

(** ** Recovery *)

Section recovery.
Context (rule : Rule) (prefetch : option (list AlertSilence)).

Definition of_rule (i : AlertInstance) : Prop := I_RuleID i = trim_space (R_ID rule).

Definition resolved_events (id : string) : list event :=
  [EvBroadcastResolved (R_ID rule) id; EvDispatch (R_ID rule) id "resolved";
   EvPushAgents (R_ID rule) id "resolved"].

(** [n] active instances of the rule are resolved one after the other; a
    recovery is announced only for one that had fired, and never while the
    rule is suppressed. *)
Inductive resolves (suppressed : bool) : nat → rowmap → rowmap → list event → Prop :=
| res_nil r : resolves suppressed 0 r r []
| res_cons n r id i t r' evs1 evs :
    r !! id = Some i → of_rule i → active i →
    evs1 = [] ∨ suppressed = false ∧ I_Status i ≠ InstanceStatusPending
      ∧ evs1 = resolved_events id →
    resolves suppressed n (<[id := set_status i InstanceStatusResolved t]> r) r' evs →
    resolves suppressed (Datatypes.S n) r r' (evs1 ++ evs).

Lemma resolves_app s n1 n2 r1 r2 r3 e1 e2 :
  resolves s n1 r1 r2 e1 → resolves s n2 r2 r3 e2 → resolves s (n1 + n2) r1 r3 (e1 ++ e2).
Proof.
  induction 1; intros Happ; simpl; [done|]. rewrite <-app_assoc. econstructor; eauto.
Qed.

Lemma resolves_inactive s n r r' evs id j :
  resolves s n r r' evs → r !! id = Some j → ¬ active j → r' !! id = Some j.
Proof.
  induction 1 as [|n r id' i t r' e1 es Hi _ Ha _ _ IH]; intros Hj Hn; [done|].
  apply IH; [|done]. rewrite lookup_insert_ne; [done|]. intros ->. by simplify_eq.
Qed.

(** Nothing else happens to the rows. *)
Lemma resolves_lookup s n r r' evs id j :
  resolves s n r r' evs → r' !! id = Some j →
  r !! id = Some j ∨ I_Status j = InstanceStatusResolved ∧
    ∃ i, r !! id = Some i ∧ of_rule i ∧ active i ∧ I_RuleID j = I_RuleID i.
Proof.
  induction 1 as [|n r id' i t r' e1 es Hi Hr Ha _ _ IH]; [auto|].
  intros [[[<- <-]|[? Hj]]%lookup_insert_Some|(Hs & k & [[<- <-]|[? Hk]]%lookup_insert_Some & Hr' & Ha' & Heq)]%IH;
    [right|auto|right|right].
  - split; [done|]. by exists i.
  - split; [done|]. by exists i.
  - split; [done|]. by exists k.
Qed.

Lemma resolves_keyed s n r r' evs : resolves s n r r' evs → keyed r → keyed r'.
Proof.
  induction 1 as [|n r id i t r' e1 es Hi _ _ _ _ IH]; intros Hk; [done|]. apply IH.
  apply map_Forall_insert_2; [|done]. by destruct (Hk _ _ Hi) as [<- ?].
Qed.

Definition live : Prop := ∀ k, e_ctx E k = None.

Lemma ctx_done_eval w : ∃ n d, ctx_done w = (later_world n w, d) ∧ (live → d = false).
Proof.
  unfold ctx_done, mbind, M_bind, sample. simpl. eexists _, _. split; [done|]. by intros ->.
Qed.

Lemma bind_eval {A B} (m : M A) (f : A → M B) w : (m ≫= f) w = f (m w).2 (m w).1.
Proof. done. Qed.

Lemma resolve_eval id w : resolveInstance id w =
  let '(s, r) := is_status (e_ctx E (w_tick w)) (e_now E (Datatypes.S (w_tick w))) id
                   InstanceStatusResolved (w_store w) in
  (MkWorld s (w_incidents w) (w_events w) (Datatypes.S (Datatypes.S (w_tick w))), r).
Proof. done. Qed.

(** What is left of a batch when it is processed. *)
Definition pending_batch (r : rowmap) (insts : list AlertInstance) : Prop :=
  NoDup (I_ID <$> insts) ∧ Forall (λ i, r !! I_ID i = Some i ∧ trim_space (I_ID i) = I_ID i
    ∧ of_rule i ∧ active i) insts.

Lemma pending_batch_cons r i insts j :
  pending_batch r (i :: insts) → pending_batch (<[I_ID i := j]> r) insts.
Proof.
  intros [[Hni Hnd]%NoDup_cons [_ HF]%Forall_cons]. split; [done|].
  rewrite Forall_forall in *. intros k Hk. destruct (HF k Hk) as (? & ? & ? & ?).
  split_and!; try done. rewrite lookup_insert_ne; [done|]. intros Heq. apply Hni.
  rewrite Heq. by apply list_elem_of_fmap_2.
Qed.

Lemma resolve_batch_spec s insts : ∀ n w, pending_batch (rows (w_store w)) insts →
  ∃ w' ret k evs, resolve_batch rule s n insts w = (w', (ret, n + Z.of_nat k)) ∧
    w_events w' = w_events w ++ evs ∧
    resolves s k (rows (w_store w)) (rows (w_store w')) evs ∧
    (live → ret = false ∧ Forall (λ i, ∃ j, rows (w_store w') !! I_ID i = Some j ∧ ¬ active j) insts).
Proof.
  induction insts as [|i insts IH]; intros n w Hb; simpl.
  - exists w, false, 0%nat, []. rewrite app_nil_r, Z.add_0_r. split_and!; [done|done|constructor|auto].
  - destruct (ctx_done_eval w) as (n1 & d & Hd & Hlive). rewrite bind_eval, Hd. cbn [fst snd].
    destruct d.
    { exists (later_world n1 w), true, 0%nat, []. rewrite app_nil_r, Z.add_0_r.
      split_and!; [done|done|constructor|]. by intros ?%Hlive. }
    clear Hd Hlive. pose proof Hb as [_ [(Hi & Htr & Hr & Ha) _]%Forall_cons].
    rewrite bind_eval, resolve_eval. cbn [w_tick w_store later_world].
    match goal with |- context [is_status ?c ?t ?i _ ?st] =>
      pose proof (resolve_law c t i st) as Hres; assert (Hc : live → c = None) by auto end.
    destruct (is_status _ _ _ _ _) as [s2 [j|e]]; cbn [fst snd].
    + destruct Hres as (_ & i' & Hi' & Hrows & ->). rewrite Htr in *. simplify_eq.
      assert (Hnr : I_Status i ≠ InstanceStatusResolved).
      { intros Hx. unfold active in Ha. rewrite Hx in Ha. done. }
      rewrite bool_decide_eq_false_2 in Hrows by done.
      match goal with |- context [(ctx_done ≫= _) ?x] => set (w1 := x) in * end.
      destruct (ctx_done_eval w1) as (n2 & d & Hd & Hlive). rewrite bind_eval, Hd. cbn [fst snd].
      assert (Hstep : ∀ k r' evs1 evs, (evs1 = [] ∨ s = false ∧ I_Status i ≠ InstanceStatusPending
          ∧ evs1 = resolved_events (I_ID i)) → resolves s k (rows s2) r' evs →
          resolves s (Datatypes.S k) (rows (w_store w)) r' (evs1 ++ evs)).
      { intros. eapply res_cons; [done..|]. by rewrite <-Hrows. }
      assert (Hdone : ∀ k r' evs, resolves s k (rows s2) r' evs →
        ∃ j, r' !! I_ID i = Some j ∧ ¬ active j).
      { intros k r' evs Hk. eexists. split; [eapply resolves_inactive; [done|..]|].
        - by rewrite Hrows, lookup_insert_eq.
        - by unfold active.
        - by unfold active. }
      destruct d.
      { exists (later_world n2 w1), true, 1%nat, []. rewrite app_nil_r. split_and!; [done|done| |].
        - apply (Hstep _ _ [] []); [by left|constructor].
        - by intros ?%Hlive. }
      destruct (_ || _) eqn:Hsup.
      * destruct (IH (n + 1) (later_world n2 w1)) as (w' & ret & k & evs & Heq & Hev & Hk & Hl).
        { simpl. rewrite Hrows. by apply pending_batch_cons. }
        exists w', ret, (Datatypes.S k), evs. rewrite Heq. split_and!.
        -- do 2 f_equal. lia.
        -- done.
        -- apply (Hstep _ _ []); [by left|done].
        -- intros Hlv. destruct (Hl Hlv) as [-> HF]. split; [done|]. constructor; [by eapply Hdone|done].
      * apply orb_false_iff in Hsup as [-> Hp]. bool_prop.
        rewrite !bind_eval. unfold emit. cbn [fst snd].
        match goal with |- context [resolve_batch rule false (n + 1) insts ?x] =>
          destruct (IH (n + 1) x) as (w' & ret & k & evs & Heq & Hev & Hk & Hl) end.
        { simpl. rewrite Hrows. by apply pending_batch_cons. }
        simpl in *. exists w', ret, (Datatypes.S k), (resolved_events (I_ID i) ++ evs). rewrite Heq. split_and!.
        -- do 2 f_equal. lia.
        -- by rewrite Hev, <-!app_assoc.
        -- apply Hstep; [by right|done].
        -- intros Hlv. destruct (Hl Hlv) as [-> HF]. split; [done|]. constructor; [by eapply Hdone|done].
    + destruct Hres as [Hrows Hno].
      match goal with |- context [resolve_batch rule s n insts ?x] =>
        destruct (IH n x) as (w' & ret & k & evs & Heq & Hev & Hk & Hl) end.
      { simpl. rewrite Hrows, <-(insert_id (rows (w_store w)) (I_ID i) i) by done.
        by apply pending_batch_cons. }
      simpl in *. exists w', ret, k, evs. rewrite Heq. split_and!; [done|done|by rewrite <-Hrows|].
      intros Hlv. specialize (Hno (Hc Hlv) i). rewrite Htr in Hno. unfold active in Ha.
      rewrite (Hno Hi) in Ha. done.
Qed.

Definition open_statuses : list string :=
  [InstanceStatusPending; InstanceStatusFiring; InstanceStatusAcknowledged].

Lemma active_open i : active i ↔ I_Status i ∈ open_statuses.
Proof.
  unfold active, active_status, open_statuses.
  rewrite !orb_true_iff, !bool_decide_eq_true, !elem_of_cons, elem_of_nil. tauto.
Qed.

(** The rows [resolveStaleInstances] asks for. *)
Definition open_rows (r : rowmap) (st : string) : list AlertInstance :=
  admitted (stale_filter rule st) r.

Hypothesis rule_named : trim_space (R_ID rule) ≠ "".

Lemma elem_of_open_rows r st i :
  st ∈ open_statuses → i ∈ open_rows r st ↔ I_Status i = st ∧ of_rule i ∧ ∃ id, r !! id = Some i.
Proof.
  intros Hst. unfold open_rows, admitted. rewrite list_elem_of_filter, list_elem_of_fmap.
  assert (NormalizeInstanceStatus st = st ∧ st ≠ "") as [Hn ?].
  { unfold open_statuses in Hst. rewrite !elem_of_cons, elem_of_nil in Hst.
    by destruct Hst as [-> | [-> | [-> | []]]]. }
  unfold admits, of_rule. simpl. rewrite Hn. split.
  - intros ((Hr & Hs & _) & [id i'] & -> & Hi). rewrite elem_of_map_to_list in Hi. simpl.
    destruct Hr, Hs; naive_solver.
  - intros (? & ? & id & Hi). split; [auto|]. exists (id, i). by rewrite elem_of_map_to_list.
Qed.

Lemma NoDup_open_rows r st : keyed r → NoDup (I_ID <$> open_rows r st).
Proof.
  intros Hk. unfold open_rows, admitted.
  eapply sublist_NoDup; [|apply fmap_sublist, sublist_filter].
  rewrite <-list_fmap_compose.
  rewrite (list_fmap_ext _ fst); [apply NoDup_fst_map_to_list|].
  intros n [id i] Hn%list_elem_of_lookup_2. rewrite elem_of_map_to_list in Hn. simpl.
  by destruct (Hk _ _ Hn).
Qed.

Lemma open_rows_batch r st all n :
  keyed r → st ∈ open_statuses → all ≡ₚ open_rows r st → pending_batch r (take n all).
Proof.
  intros Hk Hst Hall. split.
  - rewrite fmap_take. eapply sublist_NoDup; [|apply sublist_take].
    rewrite Hall. by apply NoDup_open_rows.
  - apply Forall_forall. intros i (k & Hi & _)%elem_of_take. apply list_elem_of_lookup_2 in Hi.
    rewrite Hall, elem_of_open_rows in Hi by done. destruct Hi as (Hs & Hr & id & Hi).
    destruct (Hk _ _ Hi) as [Hid Htr]. rewrite Hid. split_and!; try done.
    apply active_open. by rewrite Hs.
Qed.

Lemma open_rows_shrink s n r r' evs st :
  keyed r → st ∈ open_statuses → resolves s n r r' evs →
  (∀ i, i ∈ open_rows r' st → i ∈ open_rows r st) ∧
  (length (open_rows r' st) ≤ length (open_rows r st))%nat.
Proof.
  intros Hk Hst Hres.
  assert (Hsub : ∀ i, i ∈ open_rows r' st → i ∈ open_rows r st).
  { intros i. rewrite !elem_of_open_rows by done. intros (Hs & Hr & id & Hi). split_and!; [done..|].
    destruct (resolves_lookup _ _ _ _ _ _ _ Hres Hi) as [?|[Hr' _]]; [eauto|].
    rewrite Hr' in Hs. subst st. by apply (bool_decide_eq_true_2 _) in Hst. }
  split; [done|]. apply submseteq_length, NoDup_submseteq; [|done].
  eapply NoDup_fmap_1, NoDup_open_rows, resolves_keyed; done.
Qed.

Lemma resolve_statuses_spec s sts : ∀ n w,
  (∀ st, st ∈ sts → st ∈ open_statuses) → keyed (rows (w_store w)) →
  ∃ w' k evs, resolve_statuses rule s n sts w = (w', n + Z.of_nat k) ∧
    w_events w' = w_events w ++ evs ∧ resolves s k (rows (w_store w)) (rows (w_store w')) evs ∧
    (live → (∀ st, st ∈ sts → (length (open_rows (rows (w_store w)) st) ≤ 100)%nat) →
       ∀ st, st ∈ sts → open_rows (rows (w_store w')) st = []).
Proof.
  induction sts as [|st sts IH]; intros n w Hsts Hk; simpl.
  - exists w, 0%nat, []. rewrite app_nil_r, Z.add_0_r. split_and!; [done|done|constructor|].
    by intros _ _ st ?%not_elem_of_nil.
  - assert (Hst : st ∈ open_statuses) by (apply Hsts; left).
    assert (Hsts' : ∀ st', st' ∈ sts → st' ∈ open_statuses) by (intros; apply Hsts; by right).
    unfold listInstances. rewrite !bind_eval. unfold read, sample. cbn [fst snd w_store w_tick].
    set (w1 := MkWorld (w_store w) (w_incidents w) (w_events w) (Datatypes.S (w_tick w))).
    pose proof (list_law (e_ctx E (w_tick w)) (stale_filter rule st) (w_store w)) as Hl.
    destruct (is_list _ _ _) as [l|e].
    + destruct Hl as (_ & all & Hall & ->).
      change (Z.to_nat (clamp_limit _)) with 100%nat. change (drop _ all) with all.
      destruct (resolve_batch_spec s (take 100 all) n w1) as (w2 & ret & k & evs & Heq & Hev & Hres & Hlive).
      { by eapply open_rows_batch. }
      rewrite bind_eval, Heq. cbn [fst snd]. destruct ret.
      * exists w2, k, evs. split_and!; [done..|]. by intros [? _]%Hlive.
      * destruct (IH (n + Z.of_nat k) w2) as (w3 & k2 & evs2 & Heq2 & Hev2 & Hres2 & Hlive2);
          [done|by eapply resolves_keyed|].
        exists w3, (k + k2)%nat, (evs ++ evs2). rewrite Heq2. split_and!.
        -- f_equal. lia.
        -- by rewrite Hev2, Hev, app_assoc.
        -- by eapply resolves_app.
        -- intros Hlv Hlen.
           assert (Hk2 : keyed (rows (w_store w2))) by by eapply resolves_keyed.
           assert (Hst0 : open_rows (rows (w_store w2)) st = []).
           { destruct (Hlive Hlv) as [_ HF]. rewrite Forall_forall in HF.
             rewrite take_ge in HF by (rewrite Hall; apply Hlen; left).
             destruct (open_rows (rows (w_store w2)) st) as [|i l] eqn:Ho; [done|].
             assert (Hi2 : i ∈ open_rows (rows (w_store w2)) st) by (rewrite Ho; left).
             pose proof (proj1 (open_rows_shrink _ _ _ _ _ _ Hk Hst Hres) i Hi2) as Hi1.
             assert (i ∈ all) as Hi3 by by rewrite Hall.
             destruct (HF _ Hi3) as (j & Hj & Hna). destruct Hna.
             apply elem_of_open_rows in Hi2 as (Hs & _ & id & Hid); [|done].
             destruct (Hk2 _ _ Hid) as [<- _]. simplify_eq. by apply active_open. }
           intros st' [->|Hst']%elem_of_cons.
           ++ destruct (open_rows (rows (w_store w3)) st) as [|i l] eqn:Ho; [done|].
              assert (Hi : i ∈ open_rows (rows (w_store w3)) st) by (rewrite Ho; left).
              eapply (proj1 (open_rows_shrink _ _ _ _ _ _ Hk2 Hst Hres2)) in Hi.
              rewrite Hst0 in Hi. by apply not_elem_of_nil in Hi.
           ++ apply Hlive2; [done| |done]. intros st2 Hst2.
              etrans; [|apply Hlen; by right].
              apply (proj2 (open_rows_shrink _ _ _ _ _ _ Hk (Hsts' _ Hst2) Hres)).
    + destruct (IH n w1 Hsts' Hk) as (w3 & k2 & evs2 & Heq2 & Hev2 & Hres2 & Hlive2).
      exists w3, k2, evs2. rewrite Heq2. split_and!; [done..|].
      intros Hlv. destruct Hl as (c & Hc & _). by rewrite Hlv in Hc.
Qed.

(** Recovery: when a rule's condition clears, its open instances are resolved one
    by one and nothing else in the store changes; the returned count is the
    number resolved; a recovery is announced only for instances that had fired and
    only when no consulted silence matches the rule.  If the context stays live and there
    are at most 100 open instances per status, none of the rule's
    instances is left open. *)
Theorem resolve_stale_spec w :
  keyed (rows (w_store w)) →
  ∃ w' k evs s, resolveStaleInstancesContext rule prefetch w = (w', Z.of_nat k) ∧
    w_events w' = w_events w ++ evs ∧
    resolves s k (rows (w_store w)) (rows (w_store w')) evs ∧
    (s = false → unsilenced rule prefetch (silence_rows (w_store w))) ∧
    (live → (∀ st, st ∈ open_statuses → (length (open_rows (rows (w_store w)) st) ≤ 100)%nat) →
       ∀ id i, rows (w_store w') !! id = Some i → of_rule i → ¬ active i).
Proof.
  intros Hk. unfold resolveStaleInstancesContext.
  destruct (ctx_done_eval w) as (n1 & d & Hd & Hlive). rewrite bind_eval, Hd. cbn [fst snd].
  destruct d.
  { exists (later_world n1 w), 0%nat, [], true. rewrite app_nil_r.
    split_and!; [done|done|constructor|done|by intros ?%Hlive]. }
  destruct (looks_suppressed rule prefetch (later_world n1 w)) as (n2 & s & Hs & _ & Hsil).
  rewrite bind_eval, Hs. cbn [fst snd].
  destruct (resolve_statuses_spec s open_statuses 0 (later_world n2 (later_world n1 w)))
    as (w' & k & evs & Heq & Hev & Hres & Hl); [done|done|].
  exists w', k, evs, s. change [_; _; _] with open_statuses. rewrite Heq. split_and!; try done.
  intros Hlv Hlen id i Hi Hr Ha%active_open.
  assert (i ∈ open_rows (rows (w_store w')) (I_Status i)) as Hin.
  { apply elem_of_open_rows; eauto. }
  rewrite (Hl Hlv Hlen _ Ha) in Hin. by apply not_elem_of_nil in Hin.
Qed.
End recovery.

(** ** The evaluator does fire *)

Section liveness.
Context (rule : Rule) (silences : list AlertSilence) (at_ : time) (scope : FiringScope).

Definition in_bounds (seconds : Z) : Prop := 0 ≤ seconds ≤ MaxDurationSeconds.

Lemma hold_over_complete anchor seconds P :
  is_latest anchor P → in_bounds seconds → (∀ t, P t → t + seconds * Second ≤ at_) →
  hold_over at_ anchor seconds = true.
Proof.
  unfold hold_over, is_latest, in_bounds. intros Hl Hb Hp.
  rewrite (proj2 (Z.ltb_ge seconds 0)), (proj2 (Z.ltb_ge _ seconds)) by lia. simpl.
  destruct anchor as [t|]; [|done]. destruct Hl as [Ht _]. apply Hp in Ht.
  by rewrite (proj2 (Z.ltb_ge at_ _)).
Qed.

Lemma live_ctx_done w : live → ctx_done w = (later_world (Datatypes.S (w_tick w)) w, false).
Proof. intros Hl. unfold ctx_done. rewrite bind_eval. unfold sample. simpl. by rewrite Hl. Qed.

Lemma live_unsuppressed w :
  live → guardrails_ctx E = None → guardrails E = false →
  (∀ x, x ∈ silences → matchesSilence rule x = false) →
  ∃ n, isAlertSuppressedContext rule (Some silences) w = (later_world n w, false) ∧ (w_tick w ≤ n)%nat.
Proof.
  intros Hl Hg1 Hg2 Hs. unfold isAlertSuppressedContext, isAlertMaintenanceSuppressedContext.
  rewrite bind_eval, live_ctx_done by done. cbn [fst snd].
  rewrite !bind_eval, live_ctx_done by done. cbn [fst snd]. rewrite Hg1, Hg2. simpl.
  apply existsb_false_elem in Hs. unfold mret, M_ret. simpl. rewrite bind_eval. simpl. rewrite Hs.
  eexists. split; [done|simpl; lia].
Qed.

Lemma live_may_fire w :
  live → in_bounds (R_CooldownSeconds rule) → in_bounds (R_ReopenAfterSeconds rule) →
  at_ ≠ zero_time → holds_over rule at_ (rows (w_store w)) →
  ∃ n, alertFingerprintMayFire rule (fingerprint rule) at_ w = (later_world n w, true) ∧ (w_tick w ≤ n)%nat.
Proof.
  intros Hl Hc Hr Hz [Hh1 Hh2]. unfold alertFingerprintMayFire, fingerprintTiming.
  rewrite !bind_eval. unfold sample, read. cbn [fst snd w_store].
  pose proof (timing_law (e_ctx E (w_tick w)) (R_ID rule) (fingerprint rule) (w_store w)) as Ht.
  destruct (is_timing _ _ _ _) as [h|e]; [|by destruct Ht as (c & Hc' & _); rewrite Hl in Hc'].
  destruct Ht as (_ & H1' & H2').
  rewrite (hold_over_complete _ _ _ H1'), (hold_over_complete _ _ _ H2'); [|naive_solver..].
  simpl. rewrite bind_eval, live_ctx_done by done. simpl.
  rewrite (proj2 (Z.eqb_neq _ _)) by done. simpl. eexists. split; [done|simpl; lia].
Qed.

End liveness.
End evaluator.

(** A silence mutes a rule exactly when it has matchers and every one of
    them is a label of the rule with the same value; an empty silence mutes
    nothing. *)
Lemma matches_silence_spec `{MapRange} rule silence :
  matchesSilence rule silence = true ↔ S_Matchers silence ≠ ∅ ∧ S_Matchers silence ⊆ R_Labels rule.
Proof.
  unfold matchesSilence. case_bool_decide as He; [split; [done|by intros [? _]]|].
  rewrite forallb_elem, map_subseteq_spec. split.
  - intros Hall. split; [done|]. intros k v Hk.
    apply elem_of_range in Hk. apply Hall in Hk. by bool_prop.
  - intros [_ Hsub] [k v] Hk%elem_of_range. apply bool_decide_eq_true. by apply Hsub.
Qed.

(** ** A concrete evaluator on the memory store *)

Section demo.
#[local] Existing Instance range_in_key_order.

Definition demo_digest (l : list ascii) : string := trim_space (of_chars l).
Definition demo_env : env := {|
  e_now := λ k, 100 * Hour + Z.of_nat k; e_id := demo_name; e_ctx := λ _, None;
  target_groups := λ _, Some []; guardrails := false; guardrails_ctx := None;
  device_name := λ _, None |}.
Definition demo_rule : Rule := {|
  R_ID := "arl_1"; R_Name := "disk"; R_Description := ""; R_Status := RuleStatusActive;
  R_Kind := RuleKindHeartbeatStale; R_Severity := SeverityHigh; R_TargetScope := TargetScopeGlobal;
  R_CooldownSeconds := 300; R_ReopenAfterSeconds := 60; R_EvaluationIntervalSeconds := 30;
  R_WindowSeconds := 300; R_Condition := []; R_Labels := {["env" := "prod"]}; R_Metadata := ∅;
  R_Targets := []; R_CreatedBy := "owner"; R_CreatedAt := 0; R_UpdatedAt := 0;
  R_LastEvaluatedAt := None; R_LastAutoAttemptAt := None |}.
Definition demo_silence : AlertSilence := {|
  S_ID := "sil_1"; S_Matchers := {["env" := "prod"]}; S_Reason := ""; S_CreatedBy := "owner";
  S_StartsAt := 0; S_EndsAt := 200 * Hour; S_CreatedAt := 0 |}.
#[local] Instance demo_store : InstanceStore MemoryAlertInstanceStore :=
  memory_instance_store demo_digest.
#[local] Instance demo_spec : InstanceStoreSpec MemoryAlertInstanceStore demo_digest :=
  memory_instance_store_spec demo_digest.
Definition demo_world : world (S := MemoryAlertInstanceStore) :=
  MkWorld NewMemoryAlertInstanceStore None [] 0.
Definition demo_firing_scope : FiringScope :=
  {| Version := 1; AssetIDs := ["a1"]; GroupIDs := []; SyntheticCheckIDs := [] |}.

(** Suppressed first, then firing, then touched. *)
Definition demo_calls : list call := [
  {| c_prefetch := Some [demo_silence]; c_at := 99 * Hour; c_scope := demo_firing_scope |};
  {| c_prefetch := Some []; c_at := 99 * Hour; c_scope := demo_firing_scope |};
  {| c_prefetch := Some []; c_at := 99 * Hour; c_scope := demo_firing_scope |}].

Definition demo_final : world :=
  evaluations (S := MemoryAlertInstanceStore) (sha256_hex := demo_digest) demo_env demo_rule
    demo_calls demo_world.

Lemma demo_final_rows :
  I_Status <$> (map_to_list (instances (w_store demo_final))).*2
  = [InstanceStatusFiring; InstanceStatusResolved].
Proof. by vm_compute. Qed.

Lemma demo_keyed : keyed (rows (w_store demo_world)).
Proof. apply map_Forall_empty. Qed.

Lemma demo_invariant : invariant (sha256_hex := demo_digest) demo_rule (rows (w_store demo_world)).
Proof. constructor; [apply demo_keyed|..]; repeat intros ?; by simplify_map_eq. Qed.

Lemma demo_unused : unused (sha256_hex := demo_digest) demo_env demo_world.
Proof. intros k _. apply lookup_empty. Qed.

Lemma demo_timely : timely (sha256_hex := demo_digest) demo_env demo_rule demo_calls demo_world.
Proof. repeat split; intros k _; unfold demo_env, Hour, Minute, Second; simpl; lia. Qed.

Lemma fire_refines_witness :
  keyed (instances (w_store demo_world)) ∧
  ∃ evs r n1, fire_effect (sha256_hex := demo_digest) demo_env demo_rule (Some []) (99 * Hour)
    demo_firing_scope 0 n1 ∅ ∅ r evs ∧ evs = fired_events demo_rule (demo_name 8)
    ∧ I_Status <$> (map_to_list r).*2 = [InstanceStatusFiring].
Proof.
  split; [apply demo_keyed|].
  destruct (fire_refines (sha256_hex := demo_digest) demo_env demo_rule (Some []) (99 * Hour)
    demo_firing_scope demo_name_trimmed demo_world demo_keyed) as (evs & Hev & Ht & Heff).
  eexists evs, _, _. split; [exact Heff|]. split; [|by vm_compute].
  transitivity (w_events demo_world ++ evs); [done|]. rewrite <-Hev. by vm_compute.
Defined.


Lemma resolve_stale_spec_witness :
  ∃ w', resolveStaleInstancesContext demo_env demo_rule (Some [])
      demo_final = (w', 1) ∧
    ∀ id i, instances (w_store w') !! id = Some i → of_rule demo_rule i → ¬ active i.
Proof.
  destruct (resolve_stale_spec (sha256_hex := demo_digest) demo_env demo_rule (Some [])
    ltac:(discriminate) demo_final) as (w' & k & evs & s & Heq & _ & _ & _ & Hlive).
  - apply (bool_decide_eq_true_1 _). by vm_compute.
  - exists w'. split; [rewrite Heq; f_equal; symmetry; etrans; [|exact (f_equal snd Heq)];
      by vm_compute|].
    refine (Hlive (λ k, eq_refl) _). apply Forall_forall.
    apply (bool_decide_eq_true_1 _). by vm_compute.
Defined.

End demo.
