(* ===== verification/Assets.v ===== *)
(** * Assets and their identity anchor

    The in-memory asset store of [internal/persistence/memory.go], the asset
    records of [internal/assets/types.go] and the merge of heartbeat metadata
    of [internal/persistence/asset_identity_anchor.go].

    The columns that [applyAssetCanonical] recomputes on every write and read
    from the source, the type and the metadata (tags, resource class, resource
    kind, attributes) and that no operation here looks at are left out of the
    record, with the tags of an update request. *)

From S2P Require Import Prelude GoStrings.

Definition MetadataKeyNameOverride := "name_override".
Definition MetadataKeyAgentDeviceFingerprint := "agent_device_fingerprint".
Definition MetadataKeyAgentDeviceKeyAlgorithm := "agent_device_key_alg".
Definition MetadataKeyAgentIdentityVerifiedAt := "agent_identity_verified_at".

Abbreviation metadata := (gmap string string).

Record Asset := {
  A_ID : string; A_Type : string; A_Name : string; A_Source : string; A_GroupID : string;
  A_Status : string; A_Platform : string; A_Metadata : metadata;
  A_CreatedAt : time; A_UpdatedAt : time; A_LastSeenAt : time }.

Record HeartbeatRequest := {
  H_AssetID : string; H_Type : string; H_Name : string; H_Source : string; H_GroupID : string;
  H_Status : string; H_Platform : string; H_Metadata : metadata;
  H_AllowAgentIdentityRotation : bool; H_AllowAgentIdentityTOFU : bool }.

Record UpdateRequest := { UA_Name : option string; UA_GroupID : option string }.

Record MemoryAssetStore := MkAssetStore {
  assets : gmap string Asset;
  retiredAgentIDs : gmap string time }.

Definition NewMemoryAssetStore : MemoryAssetStore := MkAssetStore ∅ ∅.

(** [m[k]] of a Go map: the empty string for a missing key. *)
Definition meta (m : metadata) (k : string) : string := default "" (m !! k).

(** [strings.TrimSpace(m[k])] *)
Definition meta_trim (m : metadata) (k : string) : string := trim_space (meta m k).

(** ** The identity anchor *)

Inductive asset_error :=
| ErrAgentIdentityContinuityConflict
| ErrAgentIdentityRetired
| ErrNotFound.
#[export] Instance asset_error_eq_dec : EqDecision asset_error.
Proof. solve_decision. Defined.

(** [rfc3339 s] tells whether [time.Parse(time.RFC3339Nano, s)] succeeds. *)
Definition validateVerifiedAgentRecoveryAnchor (rfc3339 : string → bool) (m : metadata)
    (fingerprint keyAlgorithm : string) : result asset_error unit :=
  let storedFingerprint := meta_trim m MetadataKeyAgentDeviceFingerprint in
  let storedKeyAlgorithm := meta_trim m MetadataKeyAgentDeviceKeyAlgorithm in
  let verifiedAt := meta_trim m MetadataKeyAgentIdentityVerifiedAt in
  if is_empty storedFingerprint || is_empty storedKeyAlgorithm
     || negb (bool_decide (storedFingerprint = trim_space fingerprint))
     || negb (bool_decide (storedKeyAlgorithm = trim_space keyAlgorithm))
  then Err ErrAgentIdentityContinuityConflict
  else if rfc3339 verifiedAt then Ok tt
  else Err ErrAgentIdentityContinuityConflict.

Definition mergeHeartbeatIdentityAnchor (existing reported : metadata)
    (allowRotation allowTOFU : bool) : metadata :=
  if allowRotation then reported else
  let merged := delete MetadataKeyAgentIdentityVerifiedAt reported in
  let drop_anchor (m : metadata) := delete MetadataKeyAgentDeviceKeyAlgorithm
                                     (delete MetadataKeyAgentDeviceFingerprint m) in
  if bool_decide (existing = ∅) then if allowTOFU then merged else drop_anchor merged else
  let existingFingerprint := meta_trim existing MetadataKeyAgentDeviceFingerprint in
  let reportedFingerprint := meta_trim reported MetadataKeyAgentDeviceFingerprint in
  let existingKeyAlgorithm := meta_trim existing MetadataKeyAgentDeviceKeyAlgorithm in
  let merged := if is_empty existingFingerprint && is_empty existingKeyAlgorithm && negb allowTOFU
                then drop_anchor merged else merged in
  let merged :=
    if negb (is_empty existingFingerprint) then
      let merged := <[MetadataKeyAgentDeviceFingerprint := existingFingerprint]> merged in
      if negb (is_empty existingKeyAlgorithm)
      then <[MetadataKeyAgentDeviceKeyAlgorithm := existingKeyAlgorithm]> merged
      else if negb (equal_fold existingFingerprint reportedFingerprint)
      then delete MetadataKeyAgentDeviceKeyAlgorithm merged
      else merged
    else if negb (is_empty existingKeyAlgorithm)
    then <[MetadataKeyAgentDeviceKeyAlgorithm := existingKeyAlgorithm]> merged
    else merged in
  let verifiedAt := meta_trim existing MetadataKeyAgentIdentityVerifiedAt in
  if negb (is_empty verifiedAt)
  then <[MetadataKeyAgentIdentityVerifiedAt := verifiedAt]> merged
  else merged.

(** ** Heartbeats *)

(** [strings.EqualFold(strings.TrimSpace(source), "agent")] *)
Definition is_agent_source (source : string) : bool := equal_fold (trim_space source) "agent".

(** The Go zero value of an asset, which [m.assets[id]] is for a missing id. *)
Definition zero_asset : Asset := {|
  A_ID := ""; A_Type := ""; A_Name := ""; A_Source := ""; A_GroupID := ""; A_Status := "";
  A_Platform := ""; A_Metadata := ∅; A_CreatedAt := zero_time; A_UpdatedAt := zero_time;
  A_LastSeenAt := zero_time |}.

Definition heartbeat_asset (found : option Asset) (req : HeartbeatRequest) (now : time) : Asset :=
  let existing := default zero_asset found in
  let groupID := trim_space (H_GroupID req) in
  let overrideName := meta_trim (A_Metadata existing) MetadataKeyNameOverride in
  let metadata := mergeHeartbeatIdentityAnchor (A_Metadata existing) (H_Metadata req)
                    (H_AllowAgentIdentityRotation req) (H_AllowAgentIdentityTOFU req) in
  {| A_ID := H_AssetID req; A_Type := H_Type req;
     A_Name := if negb (is_empty overrideName) then overrideName else H_Name req;
     A_Source := if bool_decide (found = None) || negb (is_agent_source (A_Source existing))
                 then H_Source req else A_Source existing;
     A_GroupID := if bool_decide (found = None) || negb (is_empty groupID)
                  then groupID else A_GroupID existing;
     A_Status := default_str (H_Status req) "online";
     A_Platform := H_Platform req;
     A_Metadata := if negb (is_empty overrideName)
                   then <[MetadataKeyNameOverride := overrideName]> metadata else metadata;
     A_CreatedAt := if bool_decide (found = None) then now else A_CreatedAt existing;
     A_UpdatedAt := now; A_LastSeenAt := now |}.

Definition upsertAssetHeartbeatLocked (req : HeartbeatRequest) (now : time)
    (m : MemoryAssetStore) : MemoryAssetStore * Asset :=
  let asset := heartbeat_asset (assets m !! H_AssetID req) req now in
  (MkAssetStore (<[H_AssetID req := asset]> (assets m)) (retiredAgentIDs m), asset).

Definition UpsertAssetHeartbeat (req : HeartbeatRequest) (now : time) (m : MemoryAssetStore) :
    MemoryAssetStore * result asset_error Asset :=
  match retiredAgentIDs m !! trim_space (H_AssetID req) with
  | Some _ => (m, Err ErrAgentIdentityRetired)
  | None => let '(m', a) := upsertAssetHeartbeatLocked req now m in (m', Ok a)
  end.

Definition UpdateAsset (id : string) (req : UpdateRequest) (now : time) (m : MemoryAssetStore) :
    MemoryAssetStore * result asset_error Asset :=
  match assets m !! id with
  | None => (m, Err ErrNotFound)
  | Some a =>
      let a' := {|
        A_ID := A_ID a; A_Type := A_Type a;
        A_Name := match UA_Name req with Some n => trim_space n | None => A_Name a end;
        A_Source := A_Source a;
        A_GroupID := match UA_GroupID req with Some g => trim_space g | None => A_GroupID a end;
        A_Status := A_Status a; A_Platform := A_Platform a;
        A_Metadata := match UA_Name req with
          | Some n => <[MetadataKeyNameOverride := trim_space n]> (A_Metadata a)
          | None => A_Metadata a end;
        A_CreatedAt := A_CreatedAt a; A_UpdatedAt := now; A_LastSeenAt := A_LastSeenAt a |} in
      (MkAssetStore (<[id := a']> (assets m)) (retiredAgentIDs m), Ok a')
  end.

Definition DeleteAsset (id : string) (m : MemoryAssetStore) :
    MemoryAssetStore * result asset_error unit :=
  match assets m !! id with
  | None => (m, Err ErrNotFound)
  | Some _ => (MkAssetStore (delete id (assets m)) (retiredAgentIDs m), Ok tt)
  end.

Definition GetAssetContext (id : string) (m : MemoryAssetStore) : option Asset := assets m !! id.

Definition seen_before (x y : Asset) : Prop := A_LastSeenAt y ≤ A_LastSeenAt x.
#[export] Instance seen_before_dec : RelDecision seen_before.
Proof. intros x y. unfold seen_before. apply _. Defined.

Definition ListAssetsByGroup `{MapRange} (groupID : string) (m : MemoryAssetStore) : list Asset :=
  merge_sort seen_before
    (select (λ a, bool_decide (trim_space (A_GroupID a) = trim_space groupID)) (assets m)).

(** ** Theorems *)

(** The anchor of an asset: its three identity entries, trimmed. *)
Definition anchor (m : metadata) : string * string * string :=
  (meta_trim m MetadataKeyAgentDeviceFingerprint, meta_trim m MetadataKeyAgentDeviceKeyAlgorithm,
   meta_trim m MetadataKeyAgentIdentityVerifiedAt).

Lemma meta_trim_insert m k k' v :
  meta_trim (<[k := v]> m) k' = if bool_decide (k = k') then trim_space v else meta_trim m k'.
Proof. unfold meta_trim, meta. case_bool_decide as H; [subst; by rewrite lookup_insert_eq|by rewrite lookup_insert_ne]. Qed.

Lemma meta_trim_delete m k k' :
  meta_trim (delete k m) k' = if bool_decide (k = k') then "" else meta_trim m k'.
Proof.
  unfold meta_trim, meta. case_bool_decide as H; [subst; by rewrite lookup_delete_eq|].
  by rewrite lookup_delete_ne.
Qed.

Lemma meta_trim_empty k : meta_trim ∅ k = "".
Proof. unfold meta_trim, meta. by rewrite lookup_empty. Qed.

Lemma meta_trim_idemp m k : trim_space (meta_trim m k) = meta_trim m k.
Proof. apply trim_space_idemp. Qed.

(** Decide the comparisons of two metadata keys. *)
Ltac decide_keys :=
  repeat match goal with
  | |- context [bool_decide (?a = ?b)] =>
      let v := eval vm_compute in (bool_decide (a = b)) in
      match v with
      | true => change (bool_decide (a = b)) with true
      | false => change (bool_decide (a = b)) with false
      end
  end.

Ltac meta_simpl :=
  repeat first
    [ rewrite meta_trim_insert | rewrite meta_trim_delete | rewrite meta_trim_empty
    | rewrite meta_trim_idemp ]; decide_keys; cbn iota.

Lemma merge_keeps_anchor existing reported tofu :
  let merged := mergeHeartbeatIdentityAnchor existing reported false tofu in
  let '(fp, alg, at_) := anchor existing in
  let '(fp', alg', at_') := anchor merged in
  at_' = at_ ∧ (fp ≠ "" → fp' = fp) ∧ (alg ≠ "" → alg' = alg) ∧
  (fp = "" → alg = "" → tofu = false → fp' = "" ∧ alg' = "") ∧
  (alg = "" → alg' ≠ "" → fp ≠ "" →
     equal_fold fp (meta_trim reported MetadataKeyAgentDeviceFingerprint) = true).
Proof.
  unfold anchor, mergeHeartbeatIdentityAnchor.
  destruct (bool_decide (existing = ∅)) eqn:He; bool_prop.
  { subst. destruct tofu; meta_simpl; by split_and!. }
  pose proof (meta_trim_idemp existing MetadataKeyAgentDeviceFingerprint) as Hfp.
  pose proof (meta_trim_idemp existing MetadataKeyAgentDeviceKeyAlgorithm) as Halg.
  pose proof (meta_trim_idemp existing MetadataKeyAgentIdentityVerifiedAt) as Hat.
  revert Hfp Halg Hat.
  generalize (meta_trim existing MetadataKeyAgentDeviceFingerprint) as fp.
  generalize (meta_trim existing MetadataKeyAgentDeviceKeyAlgorithm) as alg.
  generalize (meta_trim existing MetadataKeyAgentIdentityVerifiedAt) as at_.
  intros at_ alg fp Hfp Halg Hat.
  destruct (bool_decide (fp = "")) eqn:E1; destruct (bool_decide (alg = "")) eqn:E2;
    destruct (bool_decide (at_ = "")) eqn:E3; destruct tofu; bool_prop; simpl;
    try (destruct (equal_fold fp _) eqn:E4; simpl);
    meta_simpl; rewrite ?Hfp, ?Halg, ?Hat; subst; split_and!; try done; try congruence.
Qed.

(** A heartbeat without the rotation right never authors or changes a
    verified identity: a recorded fingerprint, key algorithm and verified-at time
    each survive whatever the agent reports; the verified-at time is never taken
    from the report; and without the trust-on-first-use right an asset without
    an anchor gets none. *)
Theorem heartbeat_keeps_anchor existing reported tofu :
  let merged := mergeHeartbeatIdentityAnchor existing reported false tofu in
  let '(fp, alg, at_) := anchor existing in
  let '(fp', alg', at_') := anchor merged in
  at_' = at_ ∧ (fp ≠ "" → fp' = fp) ∧ (alg ≠ "" → alg' = alg) ∧
  (fp = "" → alg = "" → tofu = false → fp' = "" ∧ alg' = "") ∧
  (alg = "" → alg' ≠ "" → fp ≠ "" →
     equal_fold fp (meta_trim reported MetadataKeyAgentDeviceFingerprint) = true).
Proof. apply merge_keeps_anchor. Qed.

(** The anchor of an asset with a complete one, after a heartbeat without the
    rotation right. *)
Lemma heartbeat_anchor x req now fp alg v :
  anchor (A_Metadata x) = (fp, alg, v) → fp ≠ "" → alg ≠ "" → H_AllowAgentIdentityRotation req = false →
  anchor (A_Metadata (heartbeat_asset (Some x) req now)) = (fp, alg, v).
Proof.
  intros Hx Hfp Halg Hrot. unfold heartbeat_asset. cbn -[mergeHeartbeatIdentityAnchor anchor].
  pose proof (merge_keeps_anchor (A_Metadata x) (H_Metadata req) (H_AllowAgentIdentityTOFU req)) as Hm.
  cbn zeta in Hm. rewrite Hx in Hm. rewrite Hrot.
  destruct (anchor (mergeHeartbeatIdentityAnchor _ _ _ _)) as [[fp' alg'] v'] eqn:Ha.
  destruct Hm as (-> & Hf & Hal & _). rewrite Hf, Hal in Ha by done.
  case_match; [|done]. unfold anchor in *. meta_simpl. done.
Qed.
