(* ===== verification/Enrollment.v ===== *)
(** * Agent enrollment

    [internal/enrollment/limits.go] and [types.go], the token scopes and outcomes of
    [internal/persistence/enrollment_token_scope.go] and
    [enrollment_token_outcome.go], and the in-memory store with its
    transactions, [memory_enrollment_store.go] and
    [memory_agent_enrollment_transactions.go].

    The transactions lock the group, asset and enrollment stores in that
    order, so each is one step on the three stores together ([hub]).  The hub
    always gives the enrollment store an asset store; the code's branches
    for a nil one are left out.  Sequence numbers do not overflow. *)

From S2P Require Import Prelude GoStrings Assets.

(** ** Limits *)

Definition DefaultTokenMaxUses : Z := 1.
Definition DefaultTokenMaxUsesCeiling : Z := 256.
Definition HardTokenMaxUsesCeiling : Z := 4096.
Definition DefaultMaxEnrolledAgents : Z := 1024.
Definition HardMaxEnrolledAgents : Z := 65536.

Definition BoundedLimit (value fallback hardMax : Z) : Z :=
  let fallback := if (fallback <=? 0) || (hardMax <? fallback) then hardMax else fallback in
  if value <=? 0 then fallback else if hardMax <? value then hardMax else value.

Definition NormalizeRequestedTokenMaxUses (value configuredCeiling : Z) : option Z :=
  let ceiling := BoundedLimit configuredCeiling DefaultTokenMaxUsesCeiling HardTokenMaxUsesCeiling in
  if value =? 0 then Some DefaultTokenMaxUses
  else if (value <? 0) || (ceiling <? value) || (HardTokenMaxUsesCeiling <? value) then None
  else Some value.

Definition ValidateStoredTokenMaxUses (value : Z) : bool :=
  negb ((value <? 1) || (HardTokenMaxUsesCeiling <? value)).

Definition normalizedMaxEnrolledAgents (value : Z) : Z :=
  BoundedLimit value DefaultMaxEnrolledAgents HardMaxEnrolledAgents.

(** ** Data *)

Definition DeviceProofVersionV1 := "v1".
Definition DeviceProofVersionV2 := "v2".
Definition TokenScopeAsset := "asset".
Definition TokenScopeGroup := "group".
Definition TokenScopeUnplaced := "unplaced".
Definition TokenScopeUnrestricted := "unrestricted".
Definition TokenScopeLegacyRevoked := "legacy_revoked".

Record EnrollmentToken := {
  ET_ID : string; ET_Label : string; ET_ExpiresAt : time; ET_MaxUses : Z; ET_UseCount : Z;
  ET_CreatedAt : time; ET_RevokedAt : option time; ET_Scope : string; ET_AssetID : string;
  ET_AllowedGroupID : string; ET_CreatedBy : string }.

(** The [Status] strings "pending", "active" and "revoked". *)
Inductive token_status := Pending | Active | Revoked.
#[export] Instance token_status_eq_dec : EqDecision token_status.
Proof. solve_decision. Defined.

Record AgentToken := {
  AT_ID : string; AT_AssetID : string; AT_Status : token_status; AT_EnrolledVia : string;
  AT_ExpiresAt : time; AT_LastUsedAt : option time; AT_CreatedAt : time;
  AT_RevokedAt : option time }.

Record CreateEnrollmentTokenParams := {
  P_TokenHash : string; P_Label : string; P_ExpiresAt : time; P_MaxUses : Z; P_Scope : string;
  P_AssetID : string; P_AllowedGroupID : string; P_CreatedBy : string }.

Record AgentEnrollmentCommitRequest := {
  Q_AssetID : string; Q_Hostname : string; Q_Platform : string; Q_GroupID : string;
  Q_EnrollmentTokenHash : string; Q_AgentTokenHash : string; Q_AgentTokenExpiresAt : time;
  Q_DeviceFingerprint : string; Q_DeviceKeyAlgorithm : string; Q_DeviceProofVersion : string;
  Q_MaxEnrolledAgents : Z }.

Record AgentEnrollmentCommitResult := {
  X_EnrollmentToken : EnrollmentToken; X_AgentToken : AgentToken; X_Asset : Asset;
  X_Recovery : bool; X_Readmitted : bool; X_RevokedAgentTokenIDs : list string }.

Record AgentApprovalPrepareRequest := {
  QP_AssetID : string; QP_AgentTokenHash : string; QP_PreparedTokenExpiresAt : time;
  QP_MaxEnrolledAgents : Z }.

Record AgentApprovalFinalizeRequest := {
  QF_PreparedTokenID : string; QF_AssetID : string; QF_Hostname : string; QF_Platform : string;
  QF_DeviceFingerprint : string; QF_DeviceKeyAlgorithm : string; QF_AgentTokenExpiresAt : time }.

Inductive enroll_error :=
| ErrContext (e : ctx_error)
| ErrEnrollmentTokenInvalid | ErrEnrollmentTokenUsed | ErrEnrollmentTokenExpired
| ErrEnrollmentTokenRevoked
| ErrRecoveryRequiresSingleUseToken | ErrContinuityConflict | ErrIdentityRetired
| ErrAgentIdentityProofV2Required | ErrEnrollmentTokenPredatesRotation
| ErrEnrollmentTokenScopeMismatch | ErrAgentFleetCapacityReached
| ErrPreparedAgentApprovalNotFound | ErrAgentApprovalAssetConflict
| ErrAgentCredentialInactive | ErrTokenNotFound
| ErrAssetIDRequired (* asset id is required *)
| ErrTokenExpiry (* token expiry must be in the future *)
| ErrDuplicateHash (* agent token hash already exists *)
| ErrInvalidParams. (* the refusals of validateEnrollmentTokenCreateParams *)
#[export] Instance enroll_error_eq_dec : EqDecision enroll_error.
Proof. solve_decision. Defined.

Record MemoryEnrollmentStore := MkEnrollmentStore {
  enrollmentTokens : gmap string EnrollmentToken;
  enrollmentByHash : gmap string string;
  agentTokens : gmap string AgentToken;
  agentByHash : gmap string string;
  identityRotatedAt : gmap string time;
  nextID : N }.

(** The three stores; [groups] is [None] for a store without group store. *)
Record hub := MkHub {
  enroll : MemoryEnrollmentStore;
  assetStore : MemoryAssetStore;
  groups : option (gset string) }.

Definition NewMemoryEnrollmentStore : MemoryEnrollmentStore := MkEnrollmentStore ∅ ∅ ∅ ∅ ∅ 0.
Definition new_hub (groupStore : option (gset string)) : hub :=
  MkHub NewMemoryEnrollmentStore NewMemoryAssetStore groupStore.

Definition with_enroll (h : hub) (m : MemoryEnrollmentStore) : hub :=
  MkHub m (assetStore h) (groups h).

Definition set_agent_tokens (m : MemoryEnrollmentStore)
    (f : gmap string AgentToken → gmap string AgentToken) : MemoryEnrollmentStore :=
  MkEnrollmentStore (enrollmentTokens m) (enrollmentByHash m) (f (agentTokens m))
    (agentByHash m) (identityRotatedAt m) (nextID m).

Definition set_enrollment_tokens (m : MemoryEnrollmentStore)
    (f : gmap string EnrollmentToken → gmap string EnrollmentToken) : MemoryEnrollmentStore :=
  MkEnrollmentStore (f (enrollmentTokens m)) (enrollmentByHash m) (agentTokens m)
    (agentByHash m) (identityRotatedAt m) (nextID m).

(** [fmt.Sprintf("etok-%d", n)] and [fmt.Sprintf("atok-%d", n)] *)
Definition etok (n : N) : string := ("etok-" +:+ pretty n)%string.
Definition atok (n : N) : string := ("atok-" +:+ pretty n)%string.

(** [BoundedPreparedApprovalExpiry] of [postgres_agent_approval.go]. *)
Definition maxPreparedAgentApprovalTTL : Z := 5 * Minute.
Definition boundedPreparedApprovalExpiry (requested now : time) : time :=
  let maximum := now + maxPreparedAgentApprovalTTL in
  if (requested =? zero_time) || (requested <=? now) || (maximum <? requested)
  then maximum else requested.

(** ** Enrollment tokens *)

(** The test that [ValidateEnrollmentToken], [ConsumeEnrollmentToken],
    [IncrementEnrollmentTokenUse] and [validateEnrollmentTokenLocked] share. *)
Definition token_usable (now : time) (t : EnrollmentToken) : bool :=
  negb (bool_decide (is_Some (ET_RevokedAt t)) || (ET_ExpiresAt t <=? now)
        || (ET_MaxUses t <? 1) || (HardTokenMaxUsesCeiling <? ET_MaxUses t)
        || (ET_MaxUses t <=? ET_UseCount t)).

Definition use_token (t : EnrollmentToken) : EnrollmentToken :=
  {| ET_ID := ET_ID t; ET_Label := ET_Label t; ET_ExpiresAt := ET_ExpiresAt t;
     ET_MaxUses := ET_MaxUses t; ET_UseCount := ET_UseCount t + 1; ET_CreatedAt := ET_CreatedAt t;
     ET_RevokedAt := ET_RevokedAt t; ET_Scope := ET_Scope t; ET_AssetID := ET_AssetID t;
     ET_AllowedGroupID := ET_AllowedGroupID t; ET_CreatedBy := ET_CreatedBy t |}.

Definition revoke_enrollment (now : time) (t : EnrollmentToken) : EnrollmentToken :=
  {| ET_ID := ET_ID t; ET_Label := ET_Label t; ET_ExpiresAt := ET_ExpiresAt t;
     ET_MaxUses := ET_MaxUses t; ET_UseCount := ET_UseCount t; ET_CreatedAt := ET_CreatedAt t;
     ET_RevokedAt := Some now; ET_Scope := ET_Scope t; ET_AssetID := ET_AssetID t;
     ET_AllowedGroupID := ET_AllowedGroupID t; ET_CreatedBy := ET_CreatedBy t |}.

Definition validateEnrollmentTokenCreateParams (p : CreateEnrollmentTokenParams) :
    result enroll_error unit :=
  let assetID := trim_space (P_AssetID p) in
  let groupID := trim_space (P_AllowedGroupID p) in
  let scope := trim_space (P_Scope p) in
  if is_empty (trim_space (P_TokenHash p)) then Err ErrInvalidParams
  else if is_empty (trim_space (P_CreatedBy p)) then Err ErrInvalidParams
  else if negb (ValidateStoredTokenMaxUses (P_MaxUses p)) then Err ErrInvalidParams
  else if bool_decide (scope = TokenScopeAsset) then
    guard_err (is_empty assetID || negb (P_MaxUses p =? 1)) ErrInvalidParams
  else if bool_decide (scope = TokenScopeGroup) then
    guard_err (negb (is_empty assetID) || is_empty groupID) ErrInvalidParams
  else if bool_decide (scope = TokenScopeUnplaced) || bool_decide (scope = TokenScopeUnrestricted)
  then guard_err (negb (is_empty assetID) || negb (is_empty groupID)) ErrInvalidParams
  else Err ErrInvalidParams.

Definition CreateEnrollmentToken (now : time) (p : CreateEnrollmentTokenParams) (h : hub) :
    hub * result enroll_error EnrollmentToken :=
  let hash := trim_space (P_TokenHash p) in
  let groupID := trim_space (P_AllowedGroupID p) in
  match validateEnrollmentTokenCreateParams p with
  | Err e => (h, Err e)
  | Ok _ =>
      if negb (is_empty groupID)
         && negb (match groups h with Some gs => bool_decide (groupID ∈ gs) | None => false end)
      then (h, Err ErrEnrollmentTokenScopeMismatch)
      else
        let m := enroll h in
        let n := N.succ (nextID m) in
        let tok := {| ET_ID := etok n; ET_Label := P_Label p; ET_ExpiresAt := P_ExpiresAt p;
          ET_MaxUses := P_MaxUses p; ET_UseCount := 0; ET_CreatedAt := now;
          ET_RevokedAt := None; ET_Scope := trim_space (P_Scope p);
          ET_AssetID := trim_space (P_AssetID p); ET_AllowedGroupID := groupID;
          ET_CreatedBy := trim_space (P_CreatedBy p) |} in
        (with_enroll h (MkEnrollmentStore (<[ET_ID tok := tok]> (enrollmentTokens m))
           (<[hash := ET_ID tok]> (enrollmentByHash m)) (agentTokens m) (agentByHash m)
           (identityRotatedAt m) n), Ok tok)
  end.

(** [m.enrollmentTokens[id]] of a hash entry whose row is gone is the zero
    token, which no test accepts. *)
Definition zero_token : EnrollmentToken := {|
  ET_ID := ""; ET_Label := ""; ET_ExpiresAt := zero_time; ET_MaxUses := 0; ET_UseCount := 0;
  ET_CreatedAt := zero_time; ET_RevokedAt := None; ET_Scope := ""; ET_AssetID := "";
  ET_AllowedGroupID := ""; ET_CreatedBy := "" |}.

Definition validateEnrollmentTokenLocked (tokenHash : string) (now : time)
    (m : MemoryEnrollmentStore) : EnrollmentToken * bool :=
  match enrollmentByHash m !! tokenHash with
  | None => (zero_token, false)
  | Some id => let tok := default zero_token (enrollmentTokens m !! id) in
               (tok, token_usable now tok)
  end.

Definition ValidateEnrollmentToken (now : time) (tokenHash : string) (h : hub) :
    EnrollmentToken * bool :=
  validateEnrollmentTokenLocked tokenHash now (enroll h).

Definition ConsumeEnrollmentToken (now : time) (tokenHash : string) (h : hub) :
    hub * (EnrollmentToken * bool) :=
  let m := enroll h in
  match enrollmentByHash m !! tokenHash with
  | None => (h, (zero_token, false))
  | Some id =>
      let tok := default zero_token (enrollmentTokens m !! id) in
      if negb (token_usable now tok) then (h, (tok, false))
      else let tok := use_token tok in
           (with_enroll h (set_enrollment_tokens m <[id := tok]>), (tok, true))
  end.

Definition IncrementEnrollmentTokenUse (now : time) (id : string) (h : hub) :
    hub * result enroll_error unit :=
  let m := enroll h in
  match enrollmentTokens m !! id with
  | None => (h, Err ErrEnrollmentTokenInvalid)
  | Some tok =>
      if negb (token_usable now tok) then (h, Err ErrEnrollmentTokenInvalid)
      else (with_enroll h (set_enrollment_tokens m <[id := use_token tok]>), Ok tt)
  end.

Definition RevokeEnrollmentToken (now : time) (id : string) (h : hub) :
    hub * result enroll_error unit :=
  let m := enroll h in
  match enrollmentTokens m !! id with
  | None => (h, Err ErrTokenNotFound)
  | Some tok =>
      match ET_RevokedAt tok with
      | Some _ => (h, Ok tt)
      | None => (with_enroll h (set_enrollment_tokens m <[id := revoke_enrollment now tok]>), Ok tt)
      end
  end.

Definition classifyUnusableEnrollmentToken (t : EnrollmentToken) (found : bool) (now : time) :
    enroll_error :=
  if negb found then ErrEnrollmentTokenInvalid
  else if bool_decide (is_Some (ET_RevokedAt t)) then ErrEnrollmentTokenRevoked
  else if ET_ExpiresAt t <=? now then ErrEnrollmentTokenExpired
  else if (1 <=? ET_MaxUses t) && (ET_MaxUses t <=? ET_UseCount t) then ErrEnrollmentTokenUsed
  else ErrEnrollmentTokenInvalid.

Definition readmitsRetiredIdentity (t : EnrollmentToken) (retiredAt : time) : bool :=
  (ET_MaxUses t =? 1) && (retiredAt <? ET_CreatedAt t).

(** *** Scopes *)

Definition initialEnrollmentGroupForToken (t : EnrollmentToken) (assetID requestedGroupID : string) :
    result enroll_error string :=
  let assetID := trim_space assetID in
  let requested := trim_space requestedGroupID in
  let allowed := trim_space (ET_AllowedGroupID t) in
  let conflicting := negb (is_empty requested) && negb (bool_decide (requested = allowed)) in
  if bool_decide (ET_Scope t = TokenScopeAsset) then
    if negb (bool_decide (trim_space (ET_AssetID t) = assetID)) then Err ErrEnrollmentTokenScopeMismatch
    else if conflicting then Err ErrEnrollmentTokenScopeMismatch else Ok allowed
  else if bool_decide (ET_Scope t = TokenScopeGroup) then
    if conflicting then Err ErrEnrollmentTokenScopeMismatch else Ok allowed
  else if bool_decide (ET_Scope t = TokenScopeUnplaced) then
    if negb (is_empty requested) then Err ErrEnrollmentTokenScopeMismatch else Ok ""
  else if bool_decide (ET_Scope t = TokenScopeUnrestricted) then Ok requested
  else Err ErrEnrollmentTokenScopeMismatch.

Definition validateEnrollmentRecoveryScope (t : EnrollmentToken) (assetID existingGroupID : string) :
    result enroll_error unit :=
  let assetID := trim_space assetID in
  let existing := trim_space existingGroupID in
  if bool_decide (ET_Scope t = TokenScopeAsset) then
    guard_err (negb (bool_decide (trim_space (ET_AssetID t) = assetID))) ErrEnrollmentTokenScopeMismatch
  else if bool_decide (ET_Scope t = TokenScopeGroup) then
    guard_err (negb (bool_decide (trim_space (ET_AllowedGroupID t) = existing)))
      ErrEnrollmentTokenScopeMismatch
  else if bool_decide (ET_Scope t = TokenScopeUnplaced) then
    guard_err (negb (is_empty existing)) ErrEnrollmentTokenScopeMismatch
  else if bool_decide (ET_Scope t = TokenScopeUnrestricted) then Ok tt
  else Err ErrEnrollmentTokenScopeMismatch.

Definition requireEnrollmentGroupLocked (gs : option (gset string)) (groupID : string) :
    result enroll_error string :=
  let groupID := trim_space groupID in
  match gs with
  | None => if negb (is_empty groupID) then Err ErrEnrollmentTokenScopeMismatch else Ok groupID
  | Some gs => if is_empty groupID then Ok groupID
               else if bool_decide (groupID ∈ gs) then Ok groupID
               else Err ErrEnrollmentTokenScopeMismatch
  end.

(** ** Agent tokens *)

Definition set_agent_status (st : token_status) (revokedAt : option time) (t : AgentToken) : AgentToken :=
  {| AT_ID := AT_ID t; AT_AssetID := AT_AssetID t; AT_Status := st;
     AT_EnrolledVia := AT_EnrolledVia t; AT_ExpiresAt := AT_ExpiresAt t;
     AT_LastUsedAt := AT_LastUsedAt t; AT_CreatedAt := AT_CreatedAt t; AT_RevokedAt := revokedAt |}.

Definition revoke (now : time) : AgentToken → AgentToken := set_agent_status Revoked (Some now).

Definition is_active_for (assetID : string) (t : AgentToken) : bool :=
  bool_decide (AT_AssetID t = assetID) && bool_decide (AT_Status t = Active).

(** The loops that revoke the active tokens of an asset. *)
Definition revoke_active (assetID : string) (now : time) (ts : gmap string AgentToken) :
    gmap string AgentToken :=
  (λ t, if is_active_for assetID t then revoke now t else t) <$> ts.

Definition new_agent_token (n : N) (assetID : string) (st : token_status) (via : string)
    (expiresAt now : time) : AgentToken :=
  {| AT_ID := atok n; AT_AssetID := assetID; AT_Status := st; AT_EnrolledVia := via;
     AT_ExpiresAt := expiresAt; AT_LastUsedAt := None; AT_CreatedAt := now; AT_RevokedAt := None |}.

(** The common end of [CreateAgentToken] and [RotateAgentToken]. *)
Definition issue_agent_token (now : time) (assetID tokenHash via : string) (expiresAt : time)
    (ts : gmap string AgentToken) (h : hub) : hub * result enroll_error AgentToken :=
  let m := enroll h in
  let n := N.succ (nextID m) in
  let tok := new_agent_token n assetID Active via expiresAt now in
  (with_enroll h (MkEnrollmentStore (enrollmentTokens m) (enrollmentByHash m)
     (<[AT_ID tok := tok]> ts) (<[tokenHash := AT_ID tok]> (agentByHash m))
     (match assets (assetStore h) !! assetID with
      | Some _ => <[assetID := now]> (identityRotatedAt m)
      | None => identityRotatedAt m end) n), Ok tok).

Definition CreateAgentToken (now : time) (assetID tokenHash via : string) (expiresAt : time) (h : hub) :
    hub * result enroll_error AgentToken :=
  let assetID := trim_space assetID in
  if is_empty assetID then (h, Err ErrAssetIDRequired)
  else issue_agent_token now assetID tokenHash via expiresAt (agentTokens (enroll h)) h.

Definition RotateAgentToken (now : time) (assetID tokenHash via : string) (expiresAt : time) (h : hub) :
    hub * result enroll_error AgentToken :=
  let assetID := trim_space assetID in
  if is_empty assetID then (h, Err ErrAssetIDRequired)
  else issue_agent_token now assetID tokenHash via expiresAt
         (revoke_active assetID now (agentTokens (enroll h))) h.

Definition zero_agent_token : AgentToken := {|
  AT_ID := ""; AT_AssetID := ""; AT_Status := Revoked; AT_EnrolledVia := "";
  AT_ExpiresAt := zero_time; AT_LastUsedAt := None; AT_CreatedAt := zero_time; AT_RevokedAt := None |}.

Definition ValidateAgentToken (now : time) (tokenHash : string) (h : hub) : AgentToken * bool :=
  match agentByHash (enroll h) !! tokenHash with
  | None => (zero_agent_token, false)
  | Some id =>
      let tok := default zero_agent_token (agentTokens (enroll h) !! id) in
      (tok, bool_decide (AT_Status tok = Active) && bool_decide (AT_RevokedAt tok = None)
            && (now <? AT_ExpiresAt tok))
  end.

Definition TouchAgentTokenLastUsed (now : time) (id : string) (h : hub) :
    hub * result enroll_error unit :=
  match agentTokens (enroll h) !! id with
  | None => (h, Err ErrTokenNotFound)
  | Some t =>
      let t := {| AT_ID := AT_ID t; AT_AssetID := AT_AssetID t; AT_Status := AT_Status t;
        AT_EnrolledVia := AT_EnrolledVia t; AT_ExpiresAt := AT_ExpiresAt t;
        AT_LastUsedAt := Some now; AT_CreatedAt := AT_CreatedAt t; AT_RevokedAt := AT_RevokedAt t |} in
      (with_enroll h (set_agent_tokens (enroll h) <[id := t]>), Ok tt)
  end.

Definition RevokeAgentToken (now : time) (id : string) (h : hub) : hub * result enroll_error unit :=
  match agentTokens (enroll h) !! id with
  | None => (h, Err ErrTokenNotFound)
  | Some t =>
      if negb (bool_decide (AT_Status t = Active)) then (h, Ok tt)
      else (with_enroll h (set_agent_tokens (enroll h) <[id := revoke now t]>), Ok tt)
  end.

Definition RevokeAgentTokensByAsset (now : time) (assetID : string) (h : hub) : hub :=
  with_enroll h (set_agent_tokens (enroll h) (revoke_active assetID now)).

Definition enrollment_dead (now : time) (t : EnrollmentToken) : bool := negb (token_usable now t).
Definition agent_dead (now : time) (t : AgentToken) : bool :=
  (bool_decide (AT_Status t = Revoked) && bool_decide (AT_LastUsedAt t = None))
  || (bool_decide (AT_Status t = Pending) && (AT_ExpiresAt t <=? now)).

(** Dead rows go, and with them the hashes that name them. *)
Definition DeleteDeadTokens (now : time) (h : hub) : hub * (nat * nat) :=
  let m := enroll h in
  let deadE := filter (λ kv, enrollment_dead now kv.2 = true) (enrollmentTokens m) in
  let deadA := filter (λ kv, agent_dead now kv.2 = true) (agentTokens m) in
  (with_enroll h (MkEnrollmentStore
     (filter (λ kv, enrollment_dead now kv.2 = false) (enrollmentTokens m))
     (filter (λ kv, deadE !! kv.2 = None) (enrollmentByHash m))
     (filter (λ kv, agent_dead now kv.2 = false) (agentTokens m))
     (filter (λ kv, deadA !! kv.2 = None) (agentByHash m))
     (identityRotatedAt m) (nextID m)), (size deadE, size deadA)).

(** ** Transactions *)

(** [enrolledFleetCardinalityLocked] *)
Definition fleet (now : time) (h : hub) : gset string :=
  dom (identityRotatedAt (enroll h))
  ∪ dom (filter (λ kv, is_agent_source (A_Source kv.2) = true) (assets (assetStore h)))
  ∪ list_to_set (AT_AssetID <$> (map_to_list (filter
      (λ kv, bool_decide (AT_Status kv.2 = Pending) && (now <? AT_ExpiresAt kv.2) = true)
      (agentTokens (enroll h)))).*2).

Definition enrolledFleetCardinalityLocked (now : time) (h : hub) : Z := Z.of_nat (size (fleet now h)).

(** The latest of the marker and the creation times of the asset's tokens. *)
Definition identityMarkerLocked (assetID : string) (a : Asset) (m : MemoryEnrollmentStore) : time :=
  match identityRotatedAt m !! assetID with
  | Some marker => marker
  | None => map_fold (λ _ t marker, if bool_decide (AT_AssetID t = assetID) && (marker <? AT_CreatedAt t)
                                    then AT_CreatedAt t else marker)
              (A_CreatedAt a) (agentTokens m)
  end.

Definition validateInitialIdentityFields (req : AgentEnrollmentCommitRequest) : result enroll_error unit :=
  let fingerprint := trim_space (Q_DeviceFingerprint req) in
  let algorithm := trim_space (Q_DeviceKeyAlgorithm req) in
  let version := trim_space (Q_DeviceProofVersion req) in
  if is_empty fingerprint && is_empty algorithm && is_empty version then Ok tt
  else guard_err (is_empty fingerprint || is_empty algorithm
         || (negb (bool_decide (version = DeviceProofVersionV1))
             && negb (bool_decide (version = DeviceProofVersionV2)))) ErrContinuityConflict.

Section transactions.
(** [time.Time.Format] with [time.RFC3339Nano], and whether [time.Parse] accepts a string. *)
Context (format_rfc3339 : time → string) (parses_rfc3339 : string → bool).

Definition identity_metadata (fingerprint algorithm : string) (now : time) : metadata :=
  <[MetadataKeyAgentDeviceFingerprint := fingerprint]>
  (<[MetadataKeyAgentDeviceKeyAlgorithm := algorithm]>
   {[MetadataKeyAgentIdentityVerifiedAt := format_rfc3339 now]}).

Definition buildInitialEnrolledAsset (req : AgentEnrollmentCommitRequest)
    (assetID groupID : string) (now : time) : Asset :=
  {| A_ID := assetID; A_Type := "node"; A_Name := Q_Hostname req; A_Source := "agent";
     A_GroupID := trim_space groupID; A_Status := "online"; A_Platform := Q_Platform req;
     A_Metadata := if negb (is_empty (trim_space (Q_DeviceFingerprint req)))
       then identity_metadata (trim_space (Q_DeviceFingerprint req))
              (trim_space (Q_DeviceKeyAlgorithm req)) now
       else ∅;
     A_CreatedAt := now; A_UpdatedAt := now; A_LastSeenAt := now |}.

(** The checks of [CommitAgentEnrollment], in order; the result is the token
    and the group of a new asset ([None] for a recovery). *)
Definition check_recovery (req : AgentEnrollmentCommitRequest) (assetID : string) (tok : EnrollmentToken)
    (existing : Asset) (m : MemoryEnrollmentStore) : result enroll_error unit :=
  _ ← validateEnrollmentRecoveryScope tok assetID (A_GroupID existing);
  _ ← guard_err (negb (bool_decide (trim_space (Q_DeviceProofVersion req) = DeviceProofVersionV2)))
        ErrAgentIdentityProofV2Required;
  _ ← guard_err (negb (ET_MaxUses tok =? 1)) ErrRecoveryRequiresSingleUseToken;
  _ ← match validateVerifiedAgentRecoveryAnchor parses_rfc3339 (A_Metadata existing)
              (Q_DeviceFingerprint req) (Q_DeviceKeyAlgorithm req) with
      | Ok _ => Ok tt | Err _ => Err ErrContinuityConflict end;
  guard_err (ET_CreatedAt tok <=? identityMarkerLocked assetID existing m)
    ErrEnrollmentTokenPredatesRotation.

Definition check_initial (req : AgentEnrollmentCommitRequest) (assetID : string) (tok : EnrollmentToken)
    (now : time) (h : hub) : result enroll_error string :=
  groupID ← initialEnrollmentGroupForToken tok assetID (Q_GroupID req);
  _ ← validateInitialIdentityFields req;
  _ ← guard_err (normalizedMaxEnrolledAgents (Q_MaxEnrolledAgents req)
                 <=? enrolledFleetCardinalityLocked now h) ErrAgentFleetCapacityReached;
  requireEnrollmentGroupLocked (groups h) groupID.

Definition check_commit (ctx : Ctx) (now : time) (req : AgentEnrollmentCommitRequest) (h : hub) :
    result enroll_error (EnrollmentToken * option string) :=
  let assetID := trim_space (Q_AssetID req) in
  let m := enroll h in
  _ ← match ctx with Some e => Err (ErrContext e) | None => Ok tt end;
  _ ← guard_err (is_empty assetID) ErrAssetIDRequired;
  _ ← guard_err (Q_AgentTokenExpiresAt req <=? now) ErrTokenExpiry;
  let '(tok, valid) := validateEnrollmentTokenLocked (Q_EnrollmentTokenHash req) now m in
  _ ← guard_err (negb valid) (classifyUnusableEnrollmentToken tok
        (bool_decide (is_Some (enrollmentByHash m !! Q_EnrollmentTokenHash req))) now);
  let existing := assets (assetStore h) !! assetID in
  _ ← match retiredAgentIDs (assetStore h) !! assetID with
      | Some retiredAt => guard_err (bool_decide (is_Some existing)
                                     || negb (readmitsRetiredIdentity tok retiredAt)) ErrIdentityRetired
      | None => Ok tt end;
  _ ← guard_err (bool_decide (is_Some (agentByHash m !! Q_AgentTokenHash req))) ErrDuplicateHash;
  match existing with
  | Some a => _ ← check_recovery req assetID tok a m; Ok (tok, None)
  | None => g ← check_initial req assetID tok now h; Ok (tok, Some g)
  end.

(** The mutations of [CommitAgentEnrollment], after every check has passed. *)
Definition apply_commit `{MapRange} (now : time) (req : AgentEnrollmentCommitRequest)
    (tok : EnrollmentToken) (group : option string) (h : hub) : hub * AgentEnrollmentCommitResult :=
  let assetID := trim_space (Q_AssetID req) in
  let m := enroll h in
  let st := assetStore h in
  let tok := use_token tok in
  let n := N.succ (nextID m) in
  let agentToken := new_agent_token n assetID Active (ET_ID tok) (Q_AgentTokenExpiresAt req) now in
  let asset := match assets st !! assetID with
               | Some a => a
               | None => buildInitialEnrolledAsset req assetID (default "" group) now end in
  (MkHub
     (MkEnrollmentStore (<[ET_ID tok := tok]> (enrollmentTokens m)) (enrollmentByHash m)
        (<[AT_ID agentToken := agentToken]> (revoke_active assetID now (agentTokens m)))
        (<[Q_AgentTokenHash req := AT_ID agentToken]> (agentByHash m))
        (<[assetID := now]> (identityRotatedAt m)) n)
     (MkAssetStore (<[assetID := asset]> (assets st)) (delete assetID (retiredAgentIDs st)))
     (groups h),
   {| X_EnrollmentToken := tok; X_AgentToken := agentToken; X_Asset := asset;
      X_Recovery := bool_decide (is_Some (assets st !! assetID));
      X_Readmitted := bool_decide (is_Some (retiredAgentIDs st !! assetID));
      X_RevokedAgentTokenIDs := AT_ID <$> select (is_active_for assetID) (agentTokens m) |}).

Definition CommitAgentEnrollment `{MapRange} (ctx : Ctx) (now : time) (req : AgentEnrollmentCommitRequest)
    (h : hub) : hub * result enroll_error AgentEnrollmentCommitResult :=
  match check_commit ctx now req h with
  | Err e => (h, Err e)
  | Ok (tok, group) => let '(h', r) := apply_commit now req tok group h in (h', Ok r)
  end.

Definition PrepareAgentApproval (ctx : Ctx) (now : time) (req : AgentApprovalPrepareRequest) (h : hub) :
    hub * result enroll_error AgentToken :=
  let assetID := trim_space (QP_AssetID req) in
  let m := enroll h in
  match ctx with
  | Some e => (h, Err (ErrContext e))
  | None =>
      if is_empty assetID then (h, Err ErrAssetIDRequired)
      else if bool_decide (is_Some (retiredAgentIDs (assetStore h) !! assetID)) then (h, Err ErrIdentityRetired)
      else if bool_decide (is_Some (assets (assetStore h) !! assetID)) then (h, Err ErrAgentApprovalAssetConflict)
      else if bool_decide (is_Some (agentByHash m !! QP_AgentTokenHash req)) then (h, Err ErrDuplicateHash)
      else if existsb (λ kv : string * AgentToken, bool_decide (AT_AssetID kv.2 = assetID)
                && bool_decide (AT_Status kv.2 = Pending) && (now <? AT_ExpiresAt kv.2))
                (map_to_list (agentTokens m))
      then (h, Err ErrAgentApprovalAssetConflict)
      else if normalizedMaxEnrolledAgents (QP_MaxEnrolledAgents req) <=? enrolledFleetCardinalityLocked now h
      then (h, Err ErrAgentFleetCapacityReached)
      else
        let n := N.succ (nextID m) in
        let tok := new_agent_token n assetID Pending "console-approval"
                     (boundedPreparedApprovalExpiry (QP_PreparedTokenExpiresAt req) now) now in
        (with_enroll h (MkEnrollmentStore (enrollmentTokens m) (enrollmentByHash m)
           (<[AT_ID tok := tok]> (agentTokens m)) (<[QP_AgentTokenHash req := AT_ID tok]> (agentByHash m))
           (identityRotatedAt m) n), Ok tok)
  end.

Definition check_finalize (ctx : Ctx) (now : time) (req : AgentApprovalFinalizeRequest) (h : hub) :
    result enroll_error AgentToken :=
  let assetID := trim_space (QF_AssetID req) in
  _ ← match ctx with Some e => Err (ErrContext e) | None => Ok tt end;
  _ ← guard_err (is_empty assetID) ErrContinuityConflict;
  match agentTokens (enroll h) !! trim_space (QF_PreparedTokenID req) with
  | None => Err ErrPreparedAgentApprovalNotFound
  | Some prepared =>
      _ ← guard_err (negb (bool_decide (AT_Status prepared = Pending))
            || bool_decide (is_Some (AT_RevokedAt prepared))
            || negb (bool_decide (AT_AssetID prepared = assetID))
            || (AT_ExpiresAt prepared <=? now)) ErrPreparedAgentApprovalNotFound;
      _ ← guard_err (QF_AgentTokenExpiresAt req <=? now) ErrTokenExpiry;
      _ ← guard_err (is_empty (trim_space (QF_DeviceFingerprint req))
            || is_empty (trim_space (QF_DeviceKeyAlgorithm req))) ErrContinuityConflict;
      _ ← guard_err (bool_decide (is_Some (retiredAgentIDs (assetStore h) !! assetID))) ErrIdentityRetired;
      _ ← guard_err (bool_decide (is_Some (assets (assetStore h) !! assetID))) ErrAgentApprovalAssetConflict;
      Ok prepared
  end.

Definition FinalizeAgentApproval (ctx : Ctx) (now : time) (req : AgentApprovalFinalizeRequest) (h : hub) :
    hub * result enroll_error Asset :=
  let assetID := trim_space (QF_AssetID req) in
  let m := enroll h in
  match check_finalize ctx now req h with
  | Err e => (h, Err e)
  | Ok p =>
      let asset := {| A_ID := assetID; A_Type := "node"; A_Name := QF_Hostname req;
        A_Source := "agent"; A_GroupID := ""; A_Status := "pending"; A_Platform := QF_Platform req;
        A_Metadata := identity_metadata (trim_space (QF_DeviceFingerprint req))
                        (trim_space (QF_DeviceKeyAlgorithm req)) now;
        A_CreatedAt := now; A_UpdatedAt := now; A_LastSeenAt := now |} in
      let prepared := {| AT_ID := AT_ID p; AT_AssetID := AT_AssetID p; AT_Status := Active;
        AT_EnrolledVia := AT_EnrolledVia p; AT_ExpiresAt := QF_AgentTokenExpiresAt req;
        AT_LastUsedAt := AT_LastUsedAt p; AT_CreatedAt := AT_CreatedAt p; AT_RevokedAt := AT_RevokedAt p |} in
      (MkHub (MkEnrollmentStore (enrollmentTokens m) (enrollmentByHash m)
                (<[AT_ID prepared := prepared]> (revoke_active assetID now (agentTokens m)))
                (agentByHash m) (<[assetID := now]> (identityRotatedAt m)) (nextID m))
             (MkAssetStore (<[assetID := asset]> (assets (assetStore h))) (retiredAgentIDs (assetStore h)))
             (groups h), Ok asset)
  end.
End transactions.

Definition CancelAgentApproval (ctx : Ctx) (now : time) (preparedTokenID : string) (h : hub) :
    hub * result enroll_error unit :=
  match ctx with
  | Some e => (h, Err (ErrContext e))
  | None =>
      match agentTokens (enroll h) !! trim_space preparedTokenID with
      | None => (h, Ok tt)
      | Some t => if negb (bool_decide (AT_Status t = Pending)) then (h, Ok tt)
                  else (with_enroll h (set_agent_tokens (enroll h) <[AT_ID t := revoke now t]>), Ok tt)
      end
  end.

(** A token that shows that the asset has been an agent. *)
Definition identity_bearing (assetID : string) (t : AgentToken) : bool :=
  bool_decide (AT_AssetID t = assetID)
  && (bool_decide (AT_Status t = Active) || bool_decide (is_Some (AT_LastUsedAt t))
      || negb (equal_fold (trim_space (AT_EnrolledVia t)) "console-approval")).

Definition revoke_live (assetID : string) (now : time) (ts : gmap string AgentToken) :
    gmap string AgentToken :=
  (λ t, if bool_decide (AT_AssetID t = assetID)
           && (bool_decide (AT_Status t = Active) || bool_decide (AT_Status t = Pending))
        then revoke now t else t) <$> ts.

Definition DecommissionAgentAsset (ctx : Ctx) (now : time) (assetID : string) (h : hub) :
    hub * result enroll_error unit :=
  let assetID := trim_space assetID in
  let m := enroll h in
  let st := assetStore h in
  match ctx with
  | Some e => (h, Err (ErrContext e))
  | None =>
      match assets st !! assetID with
      | None => (h, Err ErrTokenNotFound)
      | Some a =>
          let retire := is_agent_source (A_Source a)
            || bool_decide (is_Some (identityRotatedAt m !! assetID))
            || existsb (λ kv : string * AgentToken, identity_bearing assetID kv.2)
                 (map_to_list (agentTokens m)) in
          let retired := if retire && bool_decide (retiredAgentIDs st !! assetID = None)
                         then <[assetID := now]> (retiredAgentIDs st) else retiredAgentIDs st in
          (MkHub (MkEnrollmentStore (enrollmentTokens m) (enrollmentByHash m)
                    (revoke_live assetID now (agentTokens m)) (agentByHash m)
                    (delete assetID (identityRotatedAt m)) (nextID m))
                 (MkAssetStore (delete assetID (assets st)) retired) (groups h), Ok tt)
      end
  end.

Definition with_source_and_group (req : HeartbeatRequest) (assetID groupID : string) (tofu : bool) :
    HeartbeatRequest :=
  {| H_AssetID := assetID; H_Type := H_Type req; H_Name := H_Name req; H_Source := "agent";
     H_GroupID := groupID; H_Status := H_Status req; H_Platform := H_Platform req;
     H_Metadata := H_Metadata req;
     H_AllowAgentIdentityRotation := H_AllowAgentIdentityRotation req;
     H_AllowAgentIdentityTOFU := tofu |}.

(** The test on the credential of an authenticated agent. *)
Definition credential_active (now : time) (assetID : string) (t : AgentToken) : bool :=
  bool_decide (AT_Status t = Active) && bool_decide (AT_RevokedAt t = None)
  && (now <? AT_ExpiresAt t) && bool_decide (AT_AssetID t = assetID).

Definition CommitAuthenticatedAgentHeartbeat (ctx : Ctx) (now : time) (agentTokenID : string)
    (tokenTTL : Z) (req : HeartbeatRequest) (h : hub) : hub * result enroll_error Asset :=
  let assetID := trim_space (H_AssetID req) in
  match ctx with
  | Some e => (h, Err (ErrContext e))
  | None =>
      if is_empty assetID then (h, Err ErrAgentCredentialInactive) else
      match agentTokens (enroll h) !! trim_space agentTokenID with
      | None => (h, Err ErrAgentCredentialInactive)
      | Some t =>
          if negb (credential_active now assetID t) then (h, Err ErrAgentCredentialInactive) else
          match assets (assetStore h) !! assetID with
          | None => (h, Err ErrAgentCredentialInactive)
          | Some existing =>
              let t := {| AT_ID := AT_ID t; AT_AssetID := AT_AssetID t; AT_Status := AT_Status t;
                AT_EnrolledVia := AT_EnrolledVia t;
                AT_ExpiresAt := if (0 <? tokenTTL) && (AT_ExpiresAt t <? now + tokenTTL)
                                then now + tokenTTL else AT_ExpiresAt t;
                AT_LastUsedAt := Some now; AT_CreatedAt := AT_CreatedAt t;
                AT_RevokedAt := AT_RevokedAt t |} in
              let '(st, a) := upsertAssetHeartbeatLocked
                (with_source_and_group req assetID (A_GroupID existing) true) now (assetStore h) in
              (MkHub (set_agent_tokens (enroll h) <[AT_ID t := t]>) st (groups h), Ok a)
          end
      end
  end.

Definition CommitExistingOwnerAgentHeartbeat (ctx : Ctx) (now : time) (req : HeartbeatRequest) (h : hub) :
    hub * result enroll_error Asset :=
  let assetID := trim_space (H_AssetID req) in
  match ctx with
  | Some e => (h, Err (ErrContext e))
  | None =>
      if is_empty assetID then (h, Err ErrTokenNotFound)
      else if bool_decide (is_Some (retiredAgentIDs (assetStore h) !! assetID)) then (h, Err ErrIdentityRetired)
      else match assets (assetStore h) !! assetID with
           | None => (h, Err ErrTokenNotFound)
           | Some existing =>
               let '(st, a) := upsertAssetHeartbeatLocked
                 (with_source_and_group req assetID (A_GroupID existing) (H_AllowAgentIdentityTOFU req))
                 now (assetStore h) in
               (MkHub (enroll h) st (groups h), Ok a)
           end
  end.

Definition IsAgentIdentityRetired (assetID : string) (h : hub) : bool :=
  bool_decide (is_Some (retiredAgentIDs (assetStore h) !! trim_space assetID)).

Definition ValidateActiveAgentTokenID (ctx : Ctx) (now : time) (agentTokenID assetID : string) (h : hub) :
    result enroll_error unit :=
  let assetID := trim_space assetID in
  match ctx with
  | Some e => Err (ErrContext e)
  | None =>
      match agentTokens (enroll h) !! trim_space agentTokenID with
      | Some t => guard_err (negb (bool_decide (is_Some (assets (assetStore h) !! assetID))
                                   && credential_active now assetID t)) ErrAgentCredentialInactive
      | None => Err ErrAgentCredentialInactive
      end
  end.

(** ** Runs *)

Section runs.
Context (format_rfc3339 : time → string) (parses_rfc3339 : string → bool) `{MapRange}.

(** An operation with its arguments.  A heartbeat reaches the asset store
    without the right to rotate the identity anchor, which only a separately
    verified flow may set. *)
Inductive enroll_op :=
| OpCreateEnrollment (now : time) (p : CreateEnrollmentTokenParams)
| OpConsume (now : time) (tokenHash : string)
| OpIncrement (now : time) (id : string)
| OpRevokeEnrollment (now : time) (id : string)
| OpCreateAgent (now : time) (assetID tokenHash via : string) (expiresAt : time)
| OpRotateAgent (now : time) (assetID tokenHash via : string) (expiresAt : time)
| OpTouch (now : time) (id : string)
| OpRevokeAgent (now : time) (id : string)
| OpRevokeByAsset (now : time) (assetID : string)
| OpDeleteDead (now : time)
| OpCommit (ctx : Ctx) (now : time) (req : AgentEnrollmentCommitRequest)
| OpPrepare (ctx : Ctx) (now : time) (req : AgentApprovalPrepareRequest)
| OpFinalize (ctx : Ctx) (now : time) (req : AgentApprovalFinalizeRequest)
| OpCancel (ctx : Ctx) (now : time) (id : string)
| OpDecommission (ctx : Ctx) (now : time) (assetID : string)
| OpAgentHeartbeat (ctx : Ctx) (now : time) (id : string) (ttl : Z) (req : HeartbeatRequest)
| OpOwnerHeartbeat (ctx : Ctx) (now : time) (req : HeartbeatRequest)
| OpHeartbeat (now : time) (req : HeartbeatRequest)
| OpUpdateAsset (now : time) (id : string) (req : UpdateRequest)
| OpDeleteAsset (id : string).

Definition with_assets (h : hub) (st : MemoryAssetStore) : hub := MkHub (enroll h) st (groups h).

Definition exec_op (o : enroll_op) (h : hub) : hub :=
  match o with
  | OpCreateEnrollment now p => (CreateEnrollmentToken now p h).1
  | OpConsume now hash => (ConsumeEnrollmentToken now hash h).1
  | OpIncrement now id => (IncrementEnrollmentTokenUse now id h).1
  | OpRevokeEnrollment now id => (RevokeEnrollmentToken now id h).1
  | OpCreateAgent now a hash via e => (CreateAgentToken now a hash via e h).1
  | OpRotateAgent now a hash via e => (RotateAgentToken now a hash via e h).1
  | OpTouch now id => (TouchAgentTokenLastUsed now id h).1
  | OpRevokeAgent now id => (RevokeAgentToken now id h).1
  | OpRevokeByAsset now a => RevokeAgentTokensByAsset now a h
  | OpDeleteDead now => (DeleteDeadTokens now h).1
  | OpCommit ctx now req => (CommitAgentEnrollment format_rfc3339 parses_rfc3339 ctx now req h).1
  | OpPrepare ctx now req => (PrepareAgentApproval ctx now req h).1
  | OpFinalize ctx now req => (FinalizeAgentApproval format_rfc3339 ctx now req h).1
  | OpCancel ctx now id => (CancelAgentApproval ctx now id h).1
  | OpDecommission ctx now a => (DecommissionAgentAsset ctx now a h).1
  | OpAgentHeartbeat ctx now id ttl req => (CommitAuthenticatedAgentHeartbeat ctx now id ttl req h).1
  | OpOwnerHeartbeat ctx now req => (CommitExistingOwnerAgentHeartbeat ctx now req h).1
  | OpHeartbeat now req => with_assets h (UpsertAssetHeartbeat req now (assetStore h)).1
  | OpUpdateAsset now id req => with_assets h (UpdateAsset id req now (assetStore h)).1
  | OpDeleteAsset id => with_assets h (DeleteAsset id (assetStore h)).1
  end.

Definition run_ops (ops : list enroll_op) (h : hub) : hub := foldl (λ h o, exec_op o h) h ops.

(** *** Agent tokens over time *)

Definition token_rank (s : token_status) : nat :=
  match s with Pending => 0 | Active => 1 | Revoked => 2 end.

(** What may happen to an agent token. *)
Record token_evolves (t t' : AgentToken) : Prop := {
  te_id : AT_ID t' = AT_ID t;
  te_asset : AT_AssetID t' = AT_AssetID t;
  te_created : AT_CreatedAt t' = AT_CreatedAt t;
  te_rank : (token_rank (AT_Status t) ≤ token_rank (AT_Status t'))%nat;
  te_revoked : is_Some (AT_RevokedAt t) → AT_Status t = Revoked → is_Some (AT_RevokedAt t');
  te_pending : AT_Status t' = Pending → AT_ExpiresAt t' = AT_ExpiresAt t }.

(** The revocation time is recorded exactly for revoked tokens. *)
Definition token_ok (t : AgentToken) : Prop :=
  AT_Status t = Revoked ↔ is_Some (AT_RevokedAt t).

Definition wf_agent_tokens (n : N) (ts : gmap string AgentToken) : Prop :=
  map_Forall (λ id t, AT_ID t = id ∧ token_ok t ∧ ∃ k, (k ≤ n)%N ∧ id = atok k) ts.

#[export] Instance token_evolves_preorder : PreOrder token_evolves.
Proof.
  split; [by constructor|]. intros t u v [? ? ? ? Hr1 Hp1] [? ? ? Hk2 Hr2 Hp2].
  constructor; try congruence; [lia| |].
  - intros Hs Hst. apply Hr2; [auto|].
    destruct (AT_Status u) eqn:E; rewrite ?Hst in *; simpl in *; [lia|lia|done].
  - intros Hv. rewrite Hp2 by done. apply Hp1. rewrite Hv in Hk2.
    destruct (AT_Status u); simpl in *; [done|lia|lia].
Qed.

Lemma atok_inj m n : atok m = atok n → m = n.
Proof. unfold atok. intros E%(inj (String.append "atok-")). by apply (inj pretty) in E. Qed.

Lemma etok_inj m n : etok m = etok n → m = n.
Proof. unfold etok. intros E%(inj (String.append "etok-")). by apply (inj pretty) in E. Qed.

(** The effect of every operation on the agent tokens: rows evolve or vanish,
    and at most one new row appears, under the next sequence number. *)
Record tokens_step (n : N) (ts : gmap string AgentToken) (n' : N) (ts' : gmap string AgentToken) : Prop := {
  ts_next : (n ≤ n')%N;
  ts_rows : ∀ id t', ts' !! id = Some t' → token_ok t' ∧ AT_ID t' = id ∧
    ((∃ t, ts !! id = Some t ∧ token_evolves t t') ∨ (n < n')%N ∧ id = atok n') }.

Lemma tokens_step_refl n n' ts : wf_agent_tokens n ts → (n ≤ n')%N → tokens_step n ts n' ts.
Proof.
  intros Hwf ?. constructor; [done|]. intros id t Ht. destruct (Hwf _ _ Ht) as (? & ? & _).
  split_and!; try done. left. by exists t.
Qed.

Lemma tokens_step_trans n1 t1 n2 t2 n3 t3 :
  tokens_step n1 t1 n2 t2 → tokens_step n2 t2 n2 t3 → n3 = n2 → tokens_step n1 t1 n3 t3.
Proof.
  intros [H1 R1] [H2 R2] ->. constructor; [done|]. intros id t Ht.
  destruct (R2 _ _ Ht) as (? & ? & [(u & Hu & ?)|[? _]]); [|lia].
  split_and!; try done. destruct (R1 _ _ Hu) as (_ & _ & [(v & ? & ?)|?]); [|by right].
  left. exists v. split; [done|by etrans].
Qed.

Lemma tokens_step_insert n n' ts ts' id t' :
  tokens_step n ts n' ts' → token_ok t' → AT_ID t' = id →
  (∃ t, ts !! id = Some t ∧ token_evolves t t') ∨ (n < n')%N ∧ id = atok n' →
  tokens_step n ts n' (<[id := t']> ts').
Proof.
  intros [H1 R1] ???. constructor; [done|].
  intros k u [[<- <-]|[? Hu]]%lookup_insert_Some; auto.
Qed.

Lemma tokens_step_fmap n ts (f : AgentToken → AgentToken) :
  wf_agent_tokens n ts → (∀ t, token_ok t → token_ok (f t) ∧ token_evolves t (f t)) →
  ∀ n', (n ≤ n')%N → tokens_step n ts n' (f <$> ts).
Proof.
  intros Hwf Hf n' ?. constructor; [done|]. intros id t' Ht'.
  rewrite lookup_fmap in Ht'. apply fmap_Some in Ht' as (t & Ht & ->).
  destruct (Hwf _ _ Ht) as (Hid & Hok & _). destruct (Hf t Hok) as [? Hev].
  split_and!; [done| |left; by exists t]. by rewrite (te_id _ _ Hev).
Qed.

Lemma revoke_evolves now t : token_ok t → AT_Status t ≠ Revoked → token_ok (revoke now t) ∧ token_evolves t (revoke now t).
Proof.
  intros Hok Hne. split; [by split; [eauto|]|].
  constructor; simpl; try done. destruct (AT_Status t); simpl; [lia|lia|done].
Qed.

Lemma tokens_step_revoke_if n n' ts (b : AgentToken → bool) now :
  wf_agent_tokens n ts → (∀ t, b t = true → AT_Status t ≠ Revoked) → (n ≤ n')%N →
  tokens_step n ts n' ((λ t, if b t then revoke now t else t) <$> ts).
Proof.
  intros Hwf Hb Hn. apply tokens_step_fmap; [done| |done]. intros t Hok.
  destruct (b t) eqn:E; [by apply revoke_evolves; [|apply Hb]|]. by split.
Qed.

Lemma is_active_for_live a t : is_active_for a t = true → AT_Status t ≠ Revoked.
Proof. unfold is_active_for. intros E. bool_prop. congruence. Qed.

Lemma tokens_step_wf n ts n' ts' : wf_agent_tokens n ts → tokens_step n ts n' ts' → wf_agent_tokens n' ts'.
Proof.
  intros Hwf [Hn Hr] id t' Ht'. destruct (Hr _ _ Ht') as (? & ? & [(t & Ht & _)|[_ ->]]); split_and!; try done.
  - destruct (Hwf _ _ Ht) as (_ & _ & k & ? & ->). exists k. split; [lia|done].
  - by exists n'.
Qed.

Lemma N_lt_succ_le n : (n < N.succ n)%N ∧ (n ≤ N.succ n)%N.
Proof. lia. Qed.

(** A live token keeps its row when it is rewritten without touching its
    identity, status or revocation time. *)
Lemma touched_ok t t' :
  AT_ID t' = AT_ID t → AT_AssetID t' = AT_AssetID t → AT_CreatedAt t' = AT_CreatedAt t →
  AT_Status t' = AT_Status t → AT_RevokedAt t' = AT_RevokedAt t →
  (AT_Status t' = Pending → AT_ExpiresAt t' = AT_ExpiresAt t) →
  token_ok t → token_ok t' ∧ token_evolves t t'.
Proof.
  intros Hid Ha Hc Hs Hr Hx Hok. split; [unfold token_ok in *; by rewrite Hs, Hr|].
  constructor; try done; rewrite ?Hs, ?Hr; done.
Qed.

(** The token store of a hub after an operation. *)
Definition tokens_after (h h' : hub) : Prop :=
  tokens_step (nextID (enroll h)) (agentTokens (enroll h)) (nextID (enroll h')) (agentTokens (enroll h')).

Definition wf_tokens (h : hub) : Prop := wf_agent_tokens (nextID (enroll h)) (agentTokens (enroll h)).

Lemma tokens_after_same h h' :
  wf_tokens h → agentTokens (enroll h') = agentTokens (enroll h) →
  (nextID (enroll h) ≤ nextID (enroll h'))%N → tokens_after h h'.
Proof. intros Hwf Heq Hn. unfold tokens_after. rewrite Heq. by apply tokens_step_refl. Qed.

(** Insert an evolved version of an existing row. *)
Lemma tokens_step_rewrite n n' ts ts' id t t' :
  wf_agent_tokens n ts → tokens_step n ts n' ts' → ts !! id = Some t →
  AT_ID t' = id → token_ok t' → token_evolves t t' → tokens_step n ts n' (<[id := t']> ts').
Proof. intros Hwf Hst Ht Hid Hok Hev. apply tokens_step_insert; [done..|]. left. by exists t. Qed.

Lemma tokens_issue now a hash via e ts h :
  tokens_step (nextID (enroll h)) (agentTokens (enroll h)) (N.succ (nextID (enroll h))) ts →
  tokens_after h (issue_agent_token now a hash via e ts h).1.
Proof.
  intros Hst. unfold tokens_after, issue_agent_token. simpl.
  apply tokens_step_insert; [done| |done|].
  - by split; [|intros [? [=]]].
  - right. split; [lia|done].
Qed.

Lemma not_is_Some_None {A} (o : option A) : ¬ is_Some o → o = None.
Proof. apply eq_None_not_Some. Qed.

Lemma check_finalize_Ok ctx now req h p :
  check_finalize ctx now req h = Ok p →
  let a := trim_space (QF_AssetID req) in
  ctx = None ∧ a ≠ "" ∧ agentTokens (enroll h) !! trim_space (QF_PreparedTokenID req) = Some p ∧
  AT_Status p = Pending ∧ AT_RevokedAt p = None ∧ AT_AssetID p = a ∧ now < AT_ExpiresAt p ∧
  now < QF_AgentTokenExpiresAt req ∧ trim_space (QF_DeviceFingerprint req) ≠ "" ∧
  trim_space (QF_DeviceKeyAlgorithm req) ≠ "" ∧ retiredAgentIDs (assetStore h) !! a = None ∧
  assets (assetStore h) !! a = None.
Proof.
  unfold check_finalize. intros (u & Hctx & Hc)%bind_Ok. apply bind_Ok in Hc as (u1 & Ha & Hc).
  destruct (_ !! trim_space _) as [t|] eqn:Ht; [|done].
  apply bind_Ok in Hc as (u2 & Hp & Hc). apply bind_Ok in Hc as (u3 & He & Hc).
  apply bind_Ok in Hc as (u4 & Hd & Hc). apply bind_Ok in Hc as (u5 & Hr & Hc).
  apply bind_Ok in Hc as (u6 & Hx & [= <-]).
  destruct ctx; [done|]. apply guard_err_Ok in Ha, Hp, He, Hd, Hr, Hx. bool_prop.
  repeat match goal with H : ¬ is_Some _ |- _ => apply not_is_Some_None in H end.
  by split_and!.
Qed.

Lemma exec_tokens o h : wf_tokens h → tokens_after h (exec_op o h).
Proof.
  intros Hwf.
  assert (Hsame : ∀ h', enroll h' = enroll h → tokens_after h h').
  { intros h' Heq. apply tokens_after_same; [done|by rewrite Heq|rewrite Heq; lia]. }
  assert (Hid : tokens_after h h) by by apply Hsame.
  assert (Hrev : ∀ a now n', (nextID (enroll h) ≤ n')%N →
    tokens_step (nextID (enroll h)) (agentTokens (enroll h)) n' (revoke_active a now (agentTokens (enroll h)))).
  { intros a now n' ?. apply tokens_step_revoke_if; [done|apply is_active_for_live|done]. }
  destruct o; simpl.
  - unfold CreateEnrollmentToken. case_match; [|done]. case_match; [done|].
    apply tokens_after_same; [done|done|simpl; lia].
  - unfold ConsumeEnrollmentToken. case_match; [|done]. case_match; [done|]. by apply tokens_after_same.
  - unfold IncrementEnrollmentTokenUse. case_match; [|done]. case_match; [done|]. by apply tokens_after_same.
  - unfold RevokeEnrollmentToken. case_match; [|done]. case_match; [done|]. by apply tokens_after_same.
  - unfold CreateAgentToken. case_match; [done|]. apply tokens_issue, tokens_step_refl; [done|lia].
  - unfold RotateAgentToken. case_match; [done|]. apply tokens_issue, Hrev. lia.
  - unfold TouchAgentTokenLastUsed. destruct (_ !! id) as [t|] eqn:Ht; [|done].
    destruct (Hwf _ _ Ht) as (Heq & Hok & _). unfold tokens_after. simpl.
    eapply tokens_step_rewrite; [done|by apply tokens_step_refl|done|done|..];
      by apply (touched_ok t).
  - unfold RevokeAgentToken. destruct (_ !! id) as [t|] eqn:Ht; [|done].
    case_match eqn:Hact; [done|]. bool_prop. destruct (Hwf _ _ Ht) as (Heq & Hok & _).
    unfold tokens_after. simpl.
    eapply tokens_step_rewrite; [done|by apply tokens_step_refl|done|done|..];
      apply revoke_evolves; congruence.
  - unfold tokens_after. simpl. by apply Hrev.
  - unfold tokens_after. simpl. constructor; [done|].
    intros id t (Ht & _)%map_lookup_filter_Some. destruct (Hwf _ _ Ht) as (? & ? & _).
    split_and!; [done|done|]. left. by exists t.
  - unfold CommitAgentEnrollment. case_match; [|done]. case_match. unfold tokens_after, apply_commit. simpl.
    apply tokens_step_insert; [apply Hrev; lia| |done|].
    + by split; [|intros [? [=]]].
    + right. split; [lia|done].
  - unfold PrepareAgentApproval. repeat (case_match; [done|]). unfold tokens_after. simpl.
    apply tokens_step_insert; [apply tokens_step_refl; [done|lia]| |done|].
    + by split; [|intros [? [=]]].
    + right. split; [lia|done].
  - unfold FinalizeAgentApproval. destruct (check_finalize _ _ _ _) as [p|] eqn:Hc; [|done].
    apply check_finalize_Ok in Hc as (_ & _ & Ht & Hs & Hrv & _).
    destruct (Hwf _ _ Ht) as (Heq & Hok & _). unfold tokens_after. simpl. rewrite Heq.
    eapply tokens_step_rewrite; [done|by apply Hrev|done|done|..].
    + split; [done|]. simpl. rewrite Hrv. by intros [? ?].
    + constructor; simpl; try done. rewrite Hs. simpl. lia.
  - unfold CancelAgentApproval. case_match; [done|].
    destruct (_ !! trim_space id) as [t|] eqn:Ht; [|done]. case_match eqn:Hp; [done|]. bool_prop.
    destruct (Hwf _ _ Ht) as (Heq & Hok & _). unfold tokens_after. simpl. rewrite Heq.
    eapply tokens_step_rewrite; [done|by apply tokens_step_refl|done|done|..];
      apply revoke_evolves; congruence.
  - unfold DecommissionAgentAsset. case_match; [done|]. case_match; [|done]. unfold tokens_after. simpl.
    apply tokens_step_revoke_if; [done| |done]. intros t Hb Hs. rewrite Hs in Hb.
    by rewrite andb_false_r in Hb.
  - unfold CommitAuthenticatedAgentHeartbeat. case_match; [done|]. case_match; [done|].
    destruct (_ !! trim_space id) as [t|] eqn:Ht; [|done]. case_match eqn:Hc; [done|]. case_match; [|done].
    unfold credential_active in Hc. bool_prop.
    destruct (Hwf _ _ Ht) as (Heq & Hok & _). unfold tokens_after. simpl. rewrite Heq.
    eapply tokens_step_rewrite; [done|by apply tokens_step_refl|done|done|..];
      apply (touched_ok t); simpl; congruence.
  - unfold CommitExistingOwnerAgentHeartbeat. by repeat (case_match; try done).
  - by apply Hsame.
  - by apply Hsame.
  - by apply Hsame.
Qed.

Lemma exec_wf_tokens o h : wf_tokens h → wf_tokens (exec_op o h).
Proof. intros Hwf. eapply tokens_step_wf; [done|]. by apply exec_tokens. Qed.

Lemma run_wf_tokens ops h : wf_tokens h → wf_tokens (run_ops ops h).
Proof. revert h. induction ops as [|o ops IH]; intros h Hh; [done|]. by apply IH, exec_wf_tokens. Qed.

Lemma wf_tokens_init g : wf_tokens (new_hub g).
Proof. apply map_Forall_empty. Qed.

(** A token row, as long as it exists, is a later version of what it was. *)
Lemma run_evolves ops h id t t' :
  wf_tokens h → agentTokens (enroll h) !! id = Some t →
  agentTokens (enroll (run_ops ops h)) !! id = Some t' → token_evolves t t'.
Proof.
  intros Hwf Ht. destruct (Hwf _ _ Ht) as (_ & _ & k & Hk & Hid).
  assert (Hu : ∀ u, agentTokens (enroll h) !! id = Some u → token_evolves t u) by (intros u Hu; by simplify_eq).
  clear Ht. revert h Hwf Hk Hu t'. induction ops as [|o ops IH]; intros h Hwf Hk Hu t'; [apply Hu|]. simpl.
  pose proof (exec_tokens o h Hwf) as [Hn Hr]. apply IH; [by apply exec_wf_tokens|lia|].
  intros u Hu'. destruct (Hr _ _ Hu') as (_ & _ & [(v & Hv & ?)|[Hlt Heq]]).
  - etrans; [by apply Hu|done].
  - rewrite Hid in Heq. apply atok_inj in Heq. lia.
Qed.

(** Credentials only die: from any point of a run on, an agent token keeps
    its asset, moves only from pending to active to revoked, and once it is
    revoked it is never accepted again under its id, whatever enrolls,
    rotates, approves or readmits afterwards. *)
Theorem revoked_stays_revoked g ops0 ops id t :
  agentTokens (enroll (run_ops ops0 (new_hub g))) !! id = Some t →
  let h' := run_ops ops (run_ops ops0 (new_hub g)) in
  (∀ t', agentTokens (enroll h') !! id = Some t' → token_evolves t t') ∧
  (AT_Status t = Revoked → ∀ ctx now assetID, trim_space id = id →
     ¬ ∃ u, ValidateActiveAgentTokenID ctx now id assetID h' = Ok u).
Proof.
  pose proof (run_wf_tokens ops0 _ (wf_tokens_init g)) as Hwf. revert Hwf.
  generalize (run_ops ops0 (new_hub g)) as h. intros h Hwf Ht h'.
  assert (Hev : ∀ t', agentTokens (enroll h') !! id = Some t' → token_evolves t t')
    by (intros t'; by apply run_evolves).
  split; [done|]. intros Hr ctx now assetID Htr (u & Hv).
  unfold ValidateActiveAgentTokenID in Hv. destruct ctx; [done|]. rewrite Htr in Hv.
  destruct (agentTokens (enroll h') !! id) as [t'|] eqn:Ht'; [|done].
  apply guard_err_Ok in Hv. bool_prop. unfold credential_active in *. bool_prop.
  specialize (Hev _ eq_refl). pose proof (te_rank _ _ Hev) as Hrank.
  rewrite Hr in Hrank. destruct (AT_Status t'); simpl in Hrank; [lia|lia|done].
Qed.

(** *** Enrollment *)

(** The token lets the asset [a] live in the group [g] (empty for none). *)
Definition within_scope (t : EnrollmentToken) (a g : string) : Prop :=
  ET_Scope t = TokenScopeAsset ∧ trim_space (ET_AssetID t) = a
  ∨ ET_Scope t = TokenScopeGroup ∧ g = trim_space (ET_AllowedGroupID t)
  ∨ ET_Scope t = TokenScopeUnplaced ∧ g = ""
  ∨ ET_Scope t = TokenScopeUnrestricted.

(** What must hold for an enrollment of the asset [a] with the token [t]. *)
Record authorised (now : time) (req : AgentEnrollmentCommitRequest) (h : hub) (t : EnrollmentToken) : Prop := {
  au_named : trim_space (Q_AssetID req) ≠ "";
  au_expiry : now < Q_AgentTokenExpiresAt req;
  au_token : ∃ id, enrollmentByHash (enroll h) !! Q_EnrollmentTokenHash req = Some id ∧
    enrollmentTokens (enroll h) !! id = Some t;
  au_live : ET_RevokedAt t = None ∧ now < ET_ExpiresAt t;
  au_uses : 1 ≤ ET_MaxUses t ≤ HardTokenMaxUsesCeiling ∧ ET_UseCount t < ET_MaxUses t;
  au_hash : agentByHash (enroll h) !! Q_AgentTokenHash req = None;
  au_retired r : retiredAgentIDs (assetStore h) !! trim_space (Q_AssetID req) = Some r →
    assets (assetStore h) !! trim_space (Q_AssetID req) = None ∧ ET_MaxUses t = 1 ∧ r < ET_CreatedAt t;
  au_recovery a : assets (assetStore h) !! trim_space (Q_AssetID req) = Some a →
    ET_MaxUses t = 1 ∧ trim_space (Q_DeviceProofVersion req) = DeviceProofVersionV2 ∧
    identityMarkerLocked (trim_space (Q_AssetID req)) a (enroll h) < ET_CreatedAt t ∧
    trim_space (Q_DeviceFingerprint req) = meta_trim (A_Metadata a) MetadataKeyAgentDeviceFingerprint ∧
    trim_space (Q_DeviceKeyAlgorithm req) = meta_trim (A_Metadata a) MetadataKeyAgentDeviceKeyAlgorithm ∧
    trim_space (Q_DeviceFingerprint req) ≠ "" ∧
    parses_rfc3339 (meta_trim (A_Metadata a) MetadataKeyAgentIdentityVerifiedAt) = true;
  au_capacity : assets (assetStore h) !! trim_space (Q_AssetID req) = None →
    enrolledFleetCardinalityLocked now h < normalizedMaxEnrolledAgents (Q_MaxEnrolledAgents req) }.

Lemma recovery_scope_ok t a g u :
  validateEnrollmentRecoveryScope t a g = Ok u → within_scope t (trim_space a) (trim_space g).
Proof.
  unfold validateEnrollmentRecoveryScope, within_scope.
  repeat case_bool_decide; try (intros E%guard_err_Ok; bool_prop); auto; try done.
Qed.

Lemma initial_scope_ok t a rq g :
  initialEnrollmentGroupForToken t a rq = Ok g → within_scope t (trim_space a) g ∧ trim_space g = g.
Proof.
  unfold initialEnrollmentGroupForToken, within_scope.
  repeat (case_bool_decide || case_match); intros [= <-]; bool_prop; simplify_eq;
    rewrite ?trim_space_idemp; auto 6.
Qed.

Lemma require_group_ok gs g g' : requireEnrollmentGroupLocked gs g = Ok g' → g' = trim_space g.
Proof. unfold requireEnrollmentGroupLocked. repeat (case_match; try done); by intros [= <-]. Qed.

Lemma token_usable_spec now t :
  token_usable now t = true →
  ET_RevokedAt t = None ∧ now < ET_ExpiresAt t ∧ 1 ≤ ET_MaxUses t ≤ HardTokenMaxUsesCeiling ∧
  ET_UseCount t < ET_MaxUses t.
Proof.
  unfold token_usable. intros Hb. bool_prop.
  repeat match goal with Hn : ¬ is_Some _ |- _ => apply not_is_Some_None in Hn end. by split_and!.
Qed.

Lemma check_commit_Ok ctx now req h tok group :
  check_commit parses_rfc3339 ctx now req h = Ok (tok, group) →
  authorised now req h tok ∧ ctx = None ∧
  match assets (assetStore h) !! trim_space (Q_AssetID req) with
  | Some a => group = None ∧ within_scope tok (trim_space (Q_AssetID req)) (trim_space (A_GroupID a))
  | None => ∃ g, group = Some g ∧ trim_space g = g ∧ within_scope tok (trim_space (Q_AssetID req)) g
  end.
Proof.
  unfold check_commit. intros (u & Hctx & Hc)%bind_Ok. destruct ctx; [done|]. clear Hctx.
  apply bind_Ok in Hc as (u1 & Ha & Hc). apply bind_Ok in Hc as (u2 & He & Hc).
  destruct (validateEnrollmentTokenLocked _ _ _) as [tk valid] eqn:Hv.
  apply bind_Ok in Hc as (u3 & Hvalid & Hc). apply bind_Ok in Hc as (u4 & Hret & Hc).
  apply bind_Ok in Hc as (u5 & Hdup & Hc). apply guard_err_Ok in Ha, He, Hvalid, Hdup. bool_prop.
  unfold validateEnrollmentTokenLocked in Hv.
  destruct (enrollmentByHash (enroll h) !! _) as [id|] eqn:Hh; [|by simplify_eq]. injection Hv as Htk Hus.
  rewrite Htk, Hvalid in Hus.
  apply token_usable_spec in Hus as (? & ? & Hmax & ?).
  assert (Hrow : enrollmentTokens (enroll h) !! id = Some tk).
  { destruct (enrollmentTokens (enroll h) !! id); simpl in Htk; [congruence|].
    subst tk. simpl in Hmax. lia. } apply not_is_Some_None in Hdup.
  assert (Hretired : ∀ r, retiredAgentIDs (assetStore h) !! trim_space (Q_AssetID req) = Some r →
    assets (assetStore h) !! trim_space (Q_AssetID req) = None ∧ ET_MaxUses tk = 1 ∧ r < ET_CreatedAt tk).
  { intros r Hr. rewrite Hr in Hret. apply guard_err_Ok in Hret. bool_prop.
    unfold readmitsRetiredIdentity in *. bool_prop.
    repeat match goal with Hn : ¬ is_Some _ |- _ => apply not_is_Some_None in Hn end. by split_and!. }
  destruct (assets (assetStore h) !! trim_space (Q_AssetID req)) as [a|] eqn:Has.
  - apply bind_Ok in Hc as (u6 & Hrec & [= <- <-]). unfold check_recovery in Hrec.
    apply bind_Ok in Hrec as (v1 & Hscope & Hrec). apply bind_Ok in Hrec as (v2 & Hv2 & Hrec).
    apply bind_Ok in Hrec as (v3 & Hone & Hrec). apply bind_Ok in Hrec as (v4 & Hanchor & Hrec).
    apply guard_err_Ok in Hv2, Hone, Hrec. bool_prop.
    apply recovery_scope_ok in Hscope. rewrite trim_space_idemp in Hscope.
    unfold validateVerifiedAgentRecoveryAnchor in Hanchor.
    destruct (_ || _ || _ || _) eqn:Hmatch; [done|].
    destruct (parses_rfc3339 _) eqn:Hparse; [|done]. bool_prop.
    split_and!; try done. constructor; rewrite ?Has; try done; [by exists id|].
    intros a' [= <-]. split_and!; try done; congruence.
  - apply bind_Ok in Hc as (g & Hini & [= <- <-]). unfold check_initial in Hini.
    apply bind_Ok in Hini as (g0 & Hscope & Hini). apply bind_Ok in Hini as (v2 & _ & Hini).
    apply bind_Ok in Hini as (v3 & Hcap & Hgrp). apply guard_err_Ok in Hcap. bool_prop.
    apply initial_scope_ok in Hscope as [Hscope Htrim]. rewrite trim_space_idemp in Hscope.
    apply require_group_ok in Hgrp. rewrite Htrim in Hgrp. subst g0.
    split_and!; [|done|by exists g]. constructor; rewrite ?Has; try done; by exists id.
Qed.

(** What an enrollment leaves behind. *)
Record enrolled (now : time) (req : AgentEnrollmentCommitRequest) (h h' : hub) (t : EnrollmentToken)
    (r : AgentEnrollmentCommitResult) : Prop := {
  en_token : X_EnrollmentToken r = use_token t ∧
    enrollmentTokens (enroll h') !! ET_ID t = Some (use_token t);
  en_issued : agentTokens (enroll h') !! AT_ID (X_AgentToken r) = Some (X_AgentToken r) ∧
    AT_AssetID (X_AgentToken r) = trim_space (Q_AssetID req) ∧ AT_Status (X_AgentToken r) = Active;
  en_only id t' : agentTokens (enroll h') !! id = Some t' →
    AT_AssetID t' = trim_space (Q_AssetID req) → AT_Status t' = Active → t' = X_AgentToken r;
  en_others id t' : AT_AssetID t' ≠ trim_space (Q_AssetID req) →
    agentTokens (enroll h') !! id = Some t' ↔ agentTokens (enroll h) !! id = Some t';
  en_usable now' : now' < Q_AgentTokenExpiresAt req →
    ValidateAgentToken now' (Q_AgentTokenHash req) h' = (X_AgentToken r, true);
  en_asset : assets (assetStore h') !! trim_space (Q_AssetID req) = Some (X_Asset r) ∧
    ∀ a, assets (assetStore h) !! trim_space (Q_AssetID req) = Some a → X_Asset r = a;
  en_scope : within_scope t (trim_space (Q_AssetID req)) (trim_space (A_GroupID (X_Asset r)));
  en_flags : X_Recovery r = bool_decide (is_Some (assets (assetStore h) !! trim_space (Q_AssetID req))) ∧
    X_Readmitted r = IsAgentIdentityRetired (Q_AssetID req) h ∧
    IsAgentIdentityRetired (Q_AssetID req) h' = false;
  en_capacity : X_Recovery r = false →
    enrolledFleetCardinalityLocked now h' ≤ normalizedMaxEnrolledAgents (Q_MaxEnrolledAgents req) }.

Lemma revoke_active_lookup a now ts id t' :
  revoke_active a now ts !! id = Some t' →
  ∃ t, ts !! id = Some t ∧ t' = if is_active_for a t then revoke now t else t.
Proof. unfold revoke_active. rewrite lookup_fmap. intros (t & ? & ->)%fmap_Some. eauto. Qed.

Lemma revoke_active_none a now ts id t' :
  revoke_active a now ts !! id = Some t' → AT_AssetID t' = a → AT_Status t' = Active → False.
Proof.
  intros (t & _ & ->)%revoke_active_lookup. destruct (is_active_for a t) eqn:E; [done|].
  unfold is_active_for. intros Ha Hs.
  unfold is_active_for in E. by rewrite !bool_decide_eq_true_2 in E.
Qed.

Lemma revoke_active_other a now ts id t' :
  AT_AssetID t' ≠ a → revoke_active a now ts !! id = Some t' ↔ ts !! id = Some t'.
Proof.
  intros Hne. split.
  - intros (t & Ht & ->)%revoke_active_lookup. destruct (is_active_for a t) eqn:E; [|done].
    unfold is_active_for in E. bool_prop. simpl in Hne. congruence.
  - intros Ht. unfold revoke_active. rewrite lookup_fmap, Ht. simpl. do 2 f_equal.
    unfold is_active_for. by rewrite bool_decide_eq_false_2.
Qed.

(** A fresh sequence number names no token. *)
Lemma fresh_atok n ts : wf_agent_tokens n ts → ts !! atok (N.succ n) = None.
Proof.
  intros Hwf. destruct (ts !! _) as [t|] eqn:E; [|done].
  destruct (Hwf _ _ E) as (_ & _ & k & Hk & Heq). apply atok_inj in Heq. lia.
Qed.

Lemma fleet_grows_by_one now a h h' :
  fleet now h' ⊆ {[a]} ∪ fleet now h →
  enrolledFleetCardinalityLocked now h' ≤ enrolledFleetCardinalityLocked now h + 1.
Proof.
  intros Hsub. unfold enrolledFleetCardinalityLocked. apply subseteq_size in Hsub.
  pose proof (size_union_alt {[a]} (fleet now h)) as Hu. rewrite size_singleton in Hu.
  pose proof (subseteq_size (fleet now h ∖ {[a]}) (fleet now h) ltac:(set_solver)). lia.
Qed.

(** An identity of the fleet: a rotation marker, an agent asset, or a live
    approval reservation. *)
Lemma elem_of_fleet now h a :
  a ∈ fleet now h ↔ is_Some (identityRotatedAt (enroll h) !! a)
  ∨ (∃ x, assets (assetStore h) !! a = Some x ∧ is_agent_source (A_Source x) = true)
  ∨ (∃ id t, agentTokens (enroll h) !! id = Some t ∧ AT_Status t = Pending ∧ now < AT_ExpiresAt t
       ∧ AT_AssetID t = a).
Proof.
  unfold fleet. rewrite !elem_of_union, elem_of_list_to_set, !elem_of_dom, list_elem_of_fmap.
  setoid_rewrite list_elem_of_fmap. rewrite <-(assoc (∨)). apply or_iff_compat_l, Morphisms_Prop.or_iff_morphism.
  - unfold is_Some. setoid_rewrite map_lookup_filter_Some. naive_solver.
  - split.
    + intros (t & -> & [id t'] & -> & Hin). apply elem_of_map_to_list in Hin.
      apply map_lookup_filter_Some in Hin as [Hl Hb]. simpl in *. bool_prop. eauto 6.
    + intros (id & t & Ht & Hs & Hn & <-). exists t. split; [done|]. exists (id, t). split; [done|].
      apply elem_of_map_to_list, map_lookup_filter_Some. split; [done|]. simpl.
      apply andb_true_iff. by rewrite bool_decide_eq_true, Z.ltb_lt.
Qed.

Lemma apply_commit_enrolled now req h t group h' r :
  wf_tokens h → authorised now req h t →
  match assets (assetStore h) !! trim_space (Q_AssetID req) with
  | Some a => group = None ∧ within_scope t (trim_space (Q_AssetID req)) (trim_space (A_GroupID a))
  | None => ∃ g, group = Some g ∧ trim_space g = g ∧ within_scope t (trim_space (Q_AssetID req)) g
  end →
  apply_commit format_rfc3339 now req t group h = (h', r) → enrolled now req h h' t r.
Proof.
  intros Hwf Hau Hgrp [= <- <-]. set (a := trim_space (Q_AssetID req)) in *.
  pose proof (fresh_atok _ _ Hwf) as Hfresh.
  assert (Hf : ∀ id t', revoke_active a now (agentTokens (enroll h)) !! id = Some t' →
    id ≠ atok (N.succ (nextID (enroll h)))).
  { intros id t' (u & Hu & _)%revoke_active_lookup ->. congruence. }
  constructor; simpl; fold a.
  - split; [done|]. by rewrite lookup_insert_eq.
  - by rewrite lookup_insert_eq.
  - intros id t' [[<- <-]|[_ Hl]]%lookup_insert_Some ? ?; [done|]. by destruct (revoke_active_none _ _ _ _ _ Hl).
  - intros id t' Hne. etrans; [|by apply (revoke_active_other a now)]. etrans; [apply lookup_insert_Some|].
    split; [intros [[_ <-]|[_ ?]]; done|]. intros Hl. right. split; [|done]. by apply not_eq_sym, (Hf _ _ Hl).
  - intros now' Hn. unfold ValidateAgentToken. simpl. rewrite !lookup_insert_eq. simpl.
    by rewrite (proj2 (Z.ltb_lt _ _) Hn).
  - rewrite lookup_insert_eq. split; [done|]. by intros x ->.
  - destruct (assets (assetStore h) !! a) as [x|] eqn:E; [by destruct Hgrp|].
    destruct Hgrp as (g & -> & Hg & Hsc). simpl. by rewrite Hg, Hg.
  - unfold IsAgentIdentityRetired. simpl. by rewrite lookup_delete_eq.
  - intros Hnew. bool_prop. apply not_is_Some_None in Hnew.
    pose proof (au_capacity _ _ _ _ Hau Hnew) as Hcap. etrans; [apply (fleet_grows_by_one now a h)|lia].
    intros y Hy%elem_of_fleet. rewrite elem_of_union, elem_of_singleton, elem_of_fleet. simpl in Hy.
    destruct (decide (y = a)) as [->|Hne]; [by left|right].
    destruct Hy as [Hy|[(x & Hx & ?)|(id & u & [[_ <-]|[_ Hu]]%lookup_insert_Some & Hs & ? & Ha)]].
    + left. by rewrite lookup_insert_ne in Hy.
    + right; left. rewrite lookup_insert_ne in Hx by done. eauto.
    + done.
    + right; right. exists id, u. rewrite revoke_active_other in Hu by congruence. eauto.
Qed.

(** C8: enrollment is authorised and exclusive: a refused enrollment changes
    nothing; an accepted one needs a live enrollment token with uses left
    whose scope covers the asset and its group; a removed identity comes back
    only with a single-use token made after the removal, a known one only with
    a v2 proof of the verified fingerprint and a single-use token newer than the last rotation, a new one only below
    the fleet capacity.  It uses the enrollment token once, leaves exactly one
    active agent token for the asset, which works until it expires, keeps a
    known asset as it was, leaves the tokens of other assets alone, and never
    takes the fleet over its limit. *)
Theorem enrollment_authorised g ops ctx now req :
  let h := run_ops ops (new_hub g) in
  match CommitAgentEnrollment format_rfc3339 parses_rfc3339 ctx now req h with
  | (h', Err _) => h' = h
  | (h', Ok r) => ctx = None ∧ ∃ t, authorised now req h t ∧ enrolled now req h h' t r
  end.
Proof.
  intros h. pose proof (run_wf_tokens ops _ (wf_tokens_init g)) as Hwf. fold h in Hwf.
  generalize dependent h. intros h Hwf. unfold CommitAgentEnrollment.
  destruct (check_commit _ _ _ _ _) as [[t group]|] eqn:Hc; [|done].
  destruct (apply_commit _ _ _ _ _ _) as [h' r] eqn:Ha.
  destruct (check_commit_Ok _ _ _ _ _ _ Hc) as (Hau & Hctx & Hgrp). split; [done|].
  exists t. split; [done|]. by eapply apply_commit_enrolled.
Qed.
(** *** Enrollment tokens and retired identities *)

Definition uses_bounded (t : EnrollmentToken) : Prop :=
  0 ≤ ET_UseCount t ≤ ET_MaxUses t ∧ 1 ≤ ET_MaxUses t ≤ HardTokenMaxUsesCeiling.

Record hub_inv (h : hub) : Prop := {
  hi_uses id t : enrollmentTokens (enroll h) !! id = Some t → ET_ID t = id ∧ uses_bounded t;
  hi_retired id r : retiredAgentIDs (assetStore h) !! id = Some r →
    trim_space id = id ∧ assets (assetStore h) !! id = None }.

Lemma hub_inv_init g : hub_inv (new_hub g).
Proof. by constructor. Qed.

(** Operations that leave the enrollment tokens, or the assets, alone. *)
Lemma hub_inv_same h h' :
  hub_inv h → enrollmentTokens (enroll h') = enrollmentTokens (enroll h) →
  assetStore h' = assetStore h → hub_inv h'.
Proof. intros [Hu Hr] He Ha. constructor; rewrite ?He, ?Ha; done. Qed.

Lemma hub_inv_tokens h m :
  hub_inv h →
  (∀ id t, enrollmentTokens m !! id = Some t → ET_ID t = id ∧ uses_bounded t) →
  hub_inv (with_enroll h m).
Proof. intros [Hu Hr] Hm. by constructor. Qed.

Lemma hub_inv_assets h m st :
  hub_inv h → enrollmentTokens m = enrollmentTokens (enroll h) →
  (∀ id r, retiredAgentIDs st !! id = Some r → trim_space id = id ∧ assets st !! id = None) →
  hub_inv (MkHub m st (groups h)).
Proof. intros [Hu Hr] Hm Hs. constructor; simpl; [by rewrite Hm|done]. Qed.

Lemma use_token_bounded now t : uses_bounded t → token_usable now t = true → uses_bounded (use_token t).
Proof. unfold uses_bounded. intros ? (_ & _ & ? & ?)%token_usable_spec. simpl. lia. Qed.

(** A write of an asset that is not retired keeps the two tables apart. *)
Lemma retired_apart st id (a : Asset) :
  (∀ k r, retiredAgentIDs st !! k = Some r → trim_space k = k ∧ assets st !! k = None) →
  retiredAgentIDs st !! id = None →
  ∀ k r, retiredAgentIDs st !! k = Some r → trim_space k = k ∧ <[id := a]> (assets st) !! k = None.
Proof.
  intros Hs Hid k r Hk. destruct (Hs _ _ Hk) as [? ?]. split; [done|].
  rewrite lookup_insert_ne; [done|]. intros ->. congruence.
Qed.

Lemma live_not_retired h id a :
  hub_inv h → assets (assetStore h) !! id = Some a → retiredAgentIDs (assetStore h) !! id = None.
Proof.
  intros [_ Hr] Ha. destruct (retiredAgentIDs _ !! id) as [r|] eqn:E; [|done].
  apply Hr in E as [_ E]. congruence.
Qed.

Lemma hub_inv_insert_token h id t t' :
  hub_inv h → enrollmentTokens (enroll h) !! id = Some t → ET_ID t' = ET_ID t →
  (uses_bounded t → uses_bounded t') →
  hub_inv (with_enroll h (set_enrollment_tokens (enroll h) <[id := t']>)).
Proof.
  intros Hi Ht Hid Hb. apply hub_inv_tokens; [done|]. simpl.
  intros k u [[<- <-]|[_ Hu]]%lookup_insert_Some; [|by apply Hi].
  rewrite Hid. destruct (hi_uses _ Hi _ _ Ht). auto.
Qed.

Lemma usable_row now m id :
  token_usable now (default zero_token (enrollmentTokens m !! id)) = true →
  ∃ t, enrollmentTokens m !! id = Some t ∧ token_usable now t = true.
Proof.
  destruct (enrollmentTokens m !! id) as [t|]; [by exists t|]. intros (_ & _ & Hm & _)%token_usable_spec.
  simpl in Hm. lia.
Qed.

Lemma commit_inv ctx now req h :
  hub_inv h → hub_inv (CommitAgentEnrollment format_rfc3339 parses_rfc3339 ctx now req h).1.
Proof.
  intros Hi. unfold CommitAgentEnrollment. destruct (check_commit _ _ _ _ _) as [[t g]|] eqn:Hc; [|done].
  destruct (check_commit_Ok _ _ _ _ _ _ Hc) as (Hau & _ & _).
  destruct (au_token _ _ _ _ Hau) as (id & _ & Ht). destruct (hi_uses _ Hi _ _ Ht) as [Hid Hb].
  pose proof (au_uses _ _ _ _ Hau) as [? ?].
  unfold apply_commit. simpl. constructor; simpl.
  - intros k u [[<- <-]|[_ Hu]]%lookup_insert_Some; [|by apply Hi]. split; [done|].
    unfold uses_bounded in *. simpl. lia.
  - intros k r [Hne Hk]%lookup_delete_Some. destruct (hi_retired _ Hi _ _ Hk).
    by rewrite lookup_insert_ne.
Qed.

Lemma exec_inv o h : hub_inv h → hub_inv (exec_op o h).
Proof.
  intros Hi. destruct o; simpl.
  - unfold CreateEnrollmentToken. destruct (validateEnrollmentTokenCreateParams p) as [u|] eqn:Hv; [|done].
    case_match eqn:Hg; [done|]. clear Hg. apply hub_inv_tokens; [done|]. simpl.
    intros k t [[<- <-]|[_ Hu]]%lookup_insert_Some; [|by apply Hi]. split; [done|].
    unfold validateEnrollmentTokenCreateParams in Hv. do 3 (case_match; [done|]). bool_prop.
    unfold ValidateStoredTokenMaxUses in *. bool_prop. unfold uses_bounded. simpl. lia.
  - unfold ConsumeEnrollmentToken. case_match; [|done]. case_match eqn:Hu; [done|]. apply negb_false_iff in Hu.
    destruct (usable_row _ _ _ Hu) as (t & Ht & Hus). rewrite Ht. simpl.
    eapply hub_inv_insert_token; [done..|]. intros Hb. by eapply use_token_bounded.
  - unfold IncrementEnrollmentTokenUse. case_match eqn:Ht; [|done]. case_match eqn:Hu; [done|]. bool_prop.
    eapply hub_inv_insert_token; [done..|]. intros Hb. by eapply use_token_bounded.
  - unfold RevokeEnrollmentToken. case_match eqn:Ht; [|done]. case_match; [done|].
    by eapply hub_inv_insert_token.
  - unfold CreateAgentToken. case_match; [done|]. by eapply hub_inv_same.
  - unfold RotateAgentToken. case_match; [done|]. by eapply hub_inv_same.
  - unfold TouchAgentTokenLastUsed. case_match; [|done]. by eapply hub_inv_same.
  - unfold RevokeAgentToken. case_match; [|done]. case_match; [done|]. by eapply hub_inv_same.
  - by eapply hub_inv_same.
  - apply hub_inv_tokens; [done|]. simpl. intros k t (Hk & _)%map_lookup_filter_Some. by apply Hi.
  - by apply commit_inv.
  - unfold PrepareAgentApproval. repeat (case_match; [done|]). by eapply hub_inv_same.
  - unfold FinalizeAgentApproval. destruct (check_finalize _ _ _ _) eqn:Hc; [|done].
    apply check_finalize_Ok in Hc as (_ & _ & _ & _ & _ & _ & _ & _ & _ & _ & Hret & _). simpl.
    apply hub_inv_assets; [done..|]. simpl. apply retired_apart; [apply Hi|done].
  - unfold CancelAgentApproval. case_match; [done|]. case_match; [|done]. case_match; [done|].
    by eapply hub_inv_same.
  - unfold DecommissionAgentAsset. case_match; [done|].
    destruct (assets _ !! trim_space assetID) eqn:Ha; [|done]. simpl.
    apply hub_inv_assets; [done..|]. simpl. intros k r Hk.
    destruct (decide (k = trim_space assetID)) as [->|Hne].
    { by rewrite trim_space_idemp, lookup_delete_eq. }
    rewrite lookup_delete_ne by done. case_match; [rewrite lookup_insert_ne in Hk by done|]; by eapply Hi.
  - unfold CommitAuthenticatedAgentHeartbeat. case_match; [done|]. case_match; [done|].
    case_match; [|done]. case_match; [done|]. destruct (assets _ !! trim_space _) eqn:Ha; [|done]. simpl.
    apply hub_inv_assets; [done..|]. simpl. apply retired_apart; [apply Hi|]. by eapply live_not_retired.
  - unfold CommitExistingOwnerAgentHeartbeat. case_match; [done|]. case_match; [done|].
    case_match; [done|]. destruct (assets _ !! trim_space _) eqn:Ha; [|done]. simpl.
    apply hub_inv_assets; [done..|]. simpl. apply retired_apart; [apply Hi|]. by eapply live_not_retired.
  - unfold UpsertAssetHeartbeat. destruct (retiredAgentIDs _ !! _) eqn:Hr; [by eapply hub_inv_same|]. simpl.
    apply hub_inv_assets; [done..|]. simpl. apply retired_apart; [apply Hi|].
    destruct (retiredAgentIDs _ !! H_AssetID req) eqn:Hk; [|done].
    destruct (hi_retired _ Hi _ _ Hk) as [Htr _]. congruence.
  - unfold UpdateAsset. destruct (assets _ !! id) eqn:Ha; [|by eapply hub_inv_same]. simpl.
    apply hub_inv_assets; [done..|]. simpl. apply retired_apart; [apply Hi|]. by eapply live_not_retired.
  - unfold DeleteAsset. case_match; [|by eapply hub_inv_same]. simpl.
    apply hub_inv_assets; [done..|]. simpl. intros k r Hk. destruct (hi_retired _ Hi _ _ Hk).
    split; [done|]. rewrite lookup_delete_None. auto.
Qed.

Lemma run_inv ops h : hub_inv h → hub_inv (run_ops ops h).
Proof. revert h. induction ops as [|o ops IH]; intros h Hh; [done|]. by apply IH, exec_inv. Qed.

(** *** Uses of an enrollment token *)

(** The enrollment token that an operation spends, if it spends one. *)
Definition spends (o : enroll_op) (h : hub) : option string :=
  match o with
  | OpConsume now hash =>
      if (ConsumeEnrollmentToken now hash h).2.2 then enrollmentByHash (enroll h) !! hash else None
  | OpIncrement now id => if is_ok (IncrementEnrollmentTokenUse now id h).2 then Some id else None
  | OpCommit ctx now req =>
      match (CommitAgentEnrollment format_rfc3339 parses_rfc3339 ctx now req h).2 with
      | Ok r => Some (ET_ID (X_EnrollmentToken r))
      | Err _ => None
      end
  | _ => None
  end.

Fixpoint uses (id : string) (ops : list enroll_op) (h : hub) : Z :=
  match ops with
  | [] => 0
  | o :: ops => (if bool_decide (spends o h = Some id) then 1 else 0) + uses id ops (exec_op o h)
  end.

Definition remaining (id : string) (h : hub) : Z :=
  match enrollmentTokens (enroll h) !! id with
  | Some t => ET_MaxUses t - ET_UseCount t
  | None => 0
  end.

Lemma remaining_nonneg id h : hub_inv h → 0 ≤ remaining id h.
Proof.
  intros Hi. unfold remaining. destruct (_ !! id) as [t|] eqn:E; [|done].
  destruct (hi_uses _ Hi _ _ E) as [_ Hb]. unfold uses_bounded in Hb. lia.
Qed.

Lemma remaining_same id h h' :
  enrollmentTokens (enroll h') = enrollmentTokens (enroll h) → remaining id h' = remaining id h.
Proof. unfold remaining. by intros ->. Qed.

Lemma remaining_insert h id k t t' :
  enrollmentTokens (enroll h) !! k = Some t →
  ET_MaxUses t' = ET_MaxUses t →
  remaining id (with_enroll h (set_enrollment_tokens (enroll h) <[k := t']>))
  = remaining id h - (if bool_decide (k = id) then ET_UseCount t' - ET_UseCount t else 0).
Proof.
  intros Hk Hm. unfold remaining. simpl. case_bool_decide as E.
  - subst. rewrite lookup_insert_eq, Hk. lia.
  - rewrite lookup_insert_ne by done. lia.
Qed.

Lemma commit_spends id ctx now req h :
  hub_inv h →
  (if bool_decide (spends (OpCommit ctx now req) h = Some id) then 1 else 0)
  ≤ remaining id h - remaining id (exec_op (OpCommit ctx now req) h).
Proof.
  intros Hi. simpl. unfold CommitAgentEnrollment.
  destruct (check_commit _ _ _ _ _) as [[t g]|] eqn:Hc; [|simpl; lia].
  destruct (check_commit_Ok _ _ _ _ _ _ Hc) as (Hau & _ & _).
  destruct (au_token _ _ _ _ Hau) as (k & _ & Ht). destruct (hi_uses _ Hi _ _ Ht) as [Hid _].
  unfold apply_commit, remaining. simpl. rewrite Hid. case_bool_decide as E.
  - injection E as <-. rewrite lookup_insert_eq, Ht. simpl. lia.
  - rewrite lookup_insert_ne by congruence. lia.
Qed.

Lemma spend_step o h id n :
  hub_inv h → id = etok n → (n ≤ nextID (enroll h))%N →
  (if bool_decide (spends o h = Some id) then 1 else 0) ≤ remaining id h - remaining id (exec_op o h).
Proof.
  intros Hi Hid Hn.
  assert (Hsame : ∀ h', enrollmentTokens (enroll h') = enrollmentTokens (enroll h) →
    0 ≤ remaining id h - remaining id h').
  { intros h' Heq. rewrite (remaining_same id h h') by done. lia. }
  destruct o; try (by apply commit_spends); simpl.
  - unfold CreateEnrollmentToken. case_match; [|by apply Hsame]. case_match; [by apply Hsame|].
    unfold remaining. simpl. rewrite lookup_insert_ne; [lia|]. rewrite Hid. intros Hx%etok_inj. lia.
  - unfold ConsumeEnrollmentToken. destruct (enrollmentByHash _ !! _) as [k|] eqn:Hk; simpl; [|lia].
    destruct (negb (token_usable _ _)) eqn:Hu; simpl; [lia|]. apply negb_false_iff in Hu.
    destruct (usable_row _ _ _ Hu) as (t & Ht & Hus). rewrite Ht. simpl.
    rewrite (remaining_insert h id k t) by done. simpl. repeat case_bool_decide; naive_solver lia.
  - unfold IncrementEnrollmentTokenUse. destruct (enrollmentTokens _ !! id0) as [t|] eqn:Ht; simpl; [|lia].
    destruct (negb (token_usable _ _)); simpl; [lia|].
    rewrite (remaining_insert h id id0 t) by done. simpl. repeat case_bool_decide; naive_solver lia.
  - unfold RevokeEnrollmentToken. destruct (enrollmentTokens _ !! id0) as [t|] eqn:Ht; simpl; [|lia].
    case_match; simpl; [lia|]. rewrite (remaining_insert h id id0 t) by done. simpl.
    case_bool_decide; lia.
  - unfold CreateAgentToken. case_match; by apply Hsame.
  - unfold RotateAgentToken. case_match; by apply Hsame.
  - unfold TouchAgentTokenLastUsed. case_match; by apply Hsame.
  - unfold RevokeAgentToken. case_match; [|by apply Hsame]. case_match; by apply Hsame.
  - by apply Hsame.
  - unfold remaining. simpl. pose proof (remaining_nonneg id h Hi) as Hr. unfold remaining in Hr.
    destruct (filter _ _ !! id) as [t|] eqn:Hf; [|lia].
    apply map_lookup_filter_Some in Hf as [-> _]. lia.
  - unfold PrepareAgentApproval. repeat (case_match; [by apply Hsame|]). by apply Hsame.
  - unfold FinalizeAgentApproval. case_match; by apply Hsame.
  - unfold CancelAgentApproval. case_match; [by apply Hsame|]. case_match; [|by apply Hsame].
    case_match; by apply Hsame.
  - unfold DecommissionAgentAsset. case_match; [by apply Hsame|]. case_match; by apply Hsame.
  - unfold CommitAuthenticatedAgentHeartbeat. repeat (case_match; try by apply Hsame).
  - unfold CommitExistingOwnerAgentHeartbeat. repeat (case_match; try by apply Hsame).
  - by apply Hsame.
  - by apply Hsame.
  - by apply Hsame.
Qed.

Lemma exec_nextID o h : wf_tokens h → (nextID (enroll h) ≤ nextID (enroll (exec_op o h)))%N.
Proof. intros Hwf. apply (ts_next _ _ _ _ (exec_tokens o h Hwf)). Qed.

Lemma uses_bound ops h id n :
  hub_inv h → wf_tokens h → id = etok n → (n ≤ nextID (enroll h))%N → uses id ops h ≤ remaining id h.
Proof.
  revert h. induction ops as [|o ops IH]; intros h Hi Hwf Hid Hn; simpl; [by apply remaining_nonneg|].
  pose proof (spend_step o h id n Hi Hid Hn). pose proof (exec_nextID o h Hwf).
  specialize (IH (exec_op o h) (exec_inv _ _ Hi) (exec_wf_tokens _ _ Hwf) Hid ltac:(lia)). lia.
Qed.

(** An enrollment token is good for the uses it was issued for: however
    consumption, use counting and enrollments are interleaved with every other
    operation (the removal of dead rows included), a token issued with a
    maximum [n] is spent at most [n] times, and [n] is at most 4096. *)
Theorem token_spent_at_most g ops0 ops now p :
  let '(h, r) := CreateEnrollmentToken now p (run_ops ops0 (new_hub g)) in
  match r with
  | Ok t => uses (ET_ID t) ops h ≤ P_MaxUses p ∧ 1 ≤ P_MaxUses p ≤ HardTokenMaxUsesCeiling
  | Err _ => h = run_ops ops0 (new_hub g)
  end.
Proof.
  pose proof (run_inv ops0 _ (hub_inv_init g)) as Hi. pose proof (run_wf_tokens ops0 _ (wf_tokens_init g)) as Hwf.
  revert Hi Hwf. generalize (run_ops ops0 (new_hub g)) as h0. intros h0 Hi Hwf.
  pose proof (exec_inv (OpCreateEnrollment now p) h0 Hi) as Hi'.
  pose proof (exec_wf_tokens (OpCreateEnrollment now p) h0 Hwf) as Hwf'. simpl in Hi', Hwf'.
  unfold CreateEnrollmentToken in *. destruct (validateEnrollmentTokenCreateParams p); [|done].
  case_match; [done|]. simpl in *.
  pose proof (hi_uses _ Hi' (etok (N.succ (nextID (enroll h0)))) _ ltac:(apply lookup_insert_eq)) as [_ [_ Hb]].
  simpl in Hb. split; [|done]. etrans; [eapply uses_bound; [done..|simpl; done]|].
  unfold remaining. simpl. rewrite lookup_insert_eq. simpl. lia.
Qed.

(** *** Removed identities *)

Definition is_enrollment (o : enroll_op) : bool := match o with OpCommit _ _ _ => true | _ => false end.

(** Only an enrollment clears a retirement, and nothing postpones one. *)
Lemma retired_step o h id r :
  is_enrollment o = false → retiredAgentIDs (assetStore h) !! id = Some r →
  retiredAgentIDs (assetStore (exec_op o h)) !! id = Some r.
Proof.
  intros Ho Hr. destruct o; try done; simpl.
  - unfold CreateEnrollmentToken. repeat (case_match; try done).
  - unfold ConsumeEnrollmentToken. repeat (case_match; try done).
  - unfold IncrementEnrollmentTokenUse. repeat (case_match; try done).
  - unfold RevokeEnrollmentToken. repeat (case_match; try done).
  - unfold CreateAgentToken. by case_match.
  - unfold RotateAgentToken. by case_match.
  - unfold TouchAgentTokenLastUsed. by case_match.
  - unfold RevokeAgentToken. repeat (case_match; try done).
  - unfold PrepareAgentApproval. repeat (case_match; try done).
  - unfold FinalizeAgentApproval. repeat (case_match; try done).
  - unfold CancelAgentApproval. repeat (case_match; try done).
  - unfold DecommissionAgentAsset. case_match; [done|]. case_match; [|done]. simpl.
    case_match eqn:E; [|done]. bool_prop. rewrite lookup_insert_ne; [done|]. intros <-. congruence.
  - unfold CommitAuthenticatedAgentHeartbeat. repeat (case_match; try done).
  - unfold CommitExistingOwnerAgentHeartbeat. repeat (case_match; try done).
  - unfold UpsertAssetHeartbeat. by case_match.
  - unfold UpdateAsset. by case_match.
  - unfold DeleteAsset. by case_match.
Qed.

(** A removed agent stays out: once an identity is retired, no operation
    other than an enrollment brings it back; all along, the hub has no asset of
    that name, its heartbeats are refused, none of its credentials counts as
    that of an active agent, and neither approval nor a direct heartbeat can
    admit it. *)
Theorem retired_stays_out g ops0 ops id r :
  retiredAgentIDs (assetStore (run_ops ops0 (new_hub g))) !! id = Some r →
  Forall (λ o, is_enrollment o = false) ops →
  let h := run_ops ops (run_ops ops0 (new_hub g)) in
  retiredAgentIDs (assetStore h) !! id = Some r ∧ assets (assetStore h) !! id = None ∧
  (∀ ctx now tok, ∃ e, ValidateActiveAgentTokenID ctx now tok id h = Err e) ∧
  (∀ now req, trim_space (H_AssetID req) = id →
     UpsertAssetHeartbeat req now (assetStore h) = (assetStore h, Err ErrAgentIdentityRetired)) ∧
  (∀ ctx now tok ttl req, trim_space (H_AssetID req) = id →
     ∃ e, CommitAuthenticatedAgentHeartbeat ctx now tok ttl req h = (h, Err e)) ∧
  (∀ ctx now req, trim_space (QP_AssetID req) = id → ∃ e, PrepareAgentApproval ctx now req h = (h, Err e)) ∧
  (∀ ctx now req, trim_space (QF_AssetID req) = id →
     ∃ e, FinalizeAgentApproval format_rfc3339 ctx now req h = (h, Err e)).
Proof.
  intros Hr Hops h. pose proof (run_inv ops _ (run_inv ops0 _ (hub_inv_init g))) as Hi. fold h in Hi.
  assert (Hret : retiredAgentIDs (assetStore h) !! id = Some r).
  { unfold h. clear Hi h. revert Hr. generalize (run_ops ops0 (new_hub g)) as h0.
    induction Hops as [|o ops Ho Hops IH]; intros h0 Hr; [done|]. by apply IH, retired_step. }
  clearbody h. clear Hr Hops. destruct (hi_retired _ Hi _ _ Hret) as [Htr Hno]. split_and!; [done|done|..].
  - intros ctx now tok. unfold ValidateActiveAgentTokenID. destruct ctx; [by eexists|].
    case_match; [|by eexists]. rewrite Htr, Hno. simpl. by eexists.
  - intros now req Hid. unfold UpsertAssetHeartbeat. by rewrite Hid, Hret.
  - intros ctx now tok ttl req Hid. unfold CommitAuthenticatedAgentHeartbeat. rewrite Hid, Hno.
    repeat (case_match; try by eexists).
  - intros ctx now req Hid. unfold PrepareAgentApproval. rewrite Hid, Hret. destruct ctx; [by eexists|].
    case_match; [by eexists|]. simpl. by eexists.
  - intros ctx now req Hid. unfold FinalizeAgentApproval.
    destruct (check_finalize _ _ _ _) eqn:Hc; [|by eexists].
    apply check_finalize_Ok in Hc as (_ & _ & _ & _ & _ & _ & _ & _ & _ & _ & Hn & _). congruence.
Qed.

(** *** One active credential *)

Definition one_active (ts : gmap string AgentToken) : Prop :=
  ∀ i j t u, ts !! i = Some t → ts !! j = Some u → AT_Status t = Active → AT_Status u = Active →
    AT_AssetID t = AT_AssetID u → i = j.

(** Rows may vanish or stop being active, and keep their asset. *)
Lemma one_active_sub ts ts' :
  one_active ts →
  (∀ i t', ts' !! i = Some t' → AT_Status t' = Active →
     ∃ t, ts !! i = Some t ∧ AT_Status t = Active ∧ AT_AssetID t = AT_AssetID t') →
  one_active ts'.
Proof.
  intros Ho Hs i j t u Hi Hj Ht Hu Ha.
  destruct (Hs _ _ Hi Ht) as (t0 & ? & ? & ?), (Hs _ _ Hj Hu) as (u0 & ? & ? & ?).
  apply (Ho i j t0 u0); try done. congruence.
Qed.

(** The tokens of an asset are revoked before its new token is added. *)
Lemma one_active_issue a now ts k t :
  one_active ts → AT_AssetID t = a → one_active (<[k := t]> (revoke_active a now ts)).
Proof.
  intros Ho Ha.
  assert (Hrest : one_active (revoke_active a now ts)).
  { eapply one_active_sub; [done|]. intros i u' (u & Hu & ->)%revoke_active_lookup Hs. exists u.
    destruct (is_active_for a u); [done|]. done. }
  intros i j x y Hi Hj Hx Hy Hxy.
  apply lookup_insert_Some in Hi as [[<- <-]|[Hni Hi]], Hj as [[<- <-]|[Hnj Hj]]; [done|..].
  - destruct (revoke_active_none _ _ _ _ _ Hj); congruence.
  - destruct (revoke_active_none _ _ _ _ _ Hi); congruence.
  - by eapply (Hrest i j).
Qed.

Lemma one_active_insert ts k t :
  one_active ts → (AT_Status t = Active → ∃ u, ts !! k = Some u ∧ AT_Status u = Active ∧ AT_AssetID u = AT_AssetID t) →
  one_active (<[k := t]> ts).
Proof.
  intros Ho Ht. eapply one_active_sub; [done|].
  intros i t' [[<- <-]|[_ Hl]]%lookup_insert_Some Hs; [by apply Ht|]. by exists t'.
Qed.

Definition creates_agent_token (o : enroll_op) : bool :=
  match o with OpCreateAgent _ _ _ _ _ => true | _ => false end.

Lemma one_active_step o h :
  wf_tokens h → creates_agent_token o = false → one_active (agentTokens (enroll h)) →
  one_active (agentTokens (enroll (exec_op o h))).
Proof.
  intros Hwf Ho Hone. destruct o; try done; simpl.
  - unfold CreateEnrollmentToken. repeat (case_match; try done).
  - unfold ConsumeEnrollmentToken. repeat (case_match; try done).
  - unfold IncrementEnrollmentTokenUse. repeat (case_match; try done).
  - unfold RevokeEnrollmentToken. repeat (case_match; try done).
  - unfold RotateAgentToken. case_match; [done|]. by apply one_active_issue.
  - unfold TouchAgentTokenLastUsed. case_match; [|done]. simpl. apply one_active_insert; [done|]. eauto.
  - unfold RevokeAgentToken. case_match; [|done]. case_match; [done|]. by apply one_active_insert.
  - eapply one_active_sub; [done|]. intros i u' (u & Hu & ->)%revoke_active_lookup Hs. exists u.
    destruct (is_active_for assetID u); [done|]. done.
  - eapply one_active_sub; [done|]. intros i t (Hi & _)%map_lookup_filter_Some ?. eauto.
  - unfold CommitAgentEnrollment. case_match; [|done]. case_match. by apply one_active_issue.
  - unfold PrepareAgentApproval. repeat (case_match; [done|]). by apply one_active_insert.
  - unfold FinalizeAgentApproval. destruct (check_finalize _ _ _ _) as [p|] eqn:Hc; [|done].
    apply check_finalize_Ok in Hc as (_ & _ & _ & _ & _ & Ha & _). by apply one_active_issue.
  - unfold CancelAgentApproval. case_match; [done|]. case_match; [|done]. case_match; [done|].
    by apply one_active_insert.
  - unfold DecommissionAgentAsset. case_match; [done|]. case_match; [|done]. simpl.
    eapply one_active_sub; [done|]. intros i t' Ht' Hs. unfold revoke_live in Ht'.
    rewrite lookup_fmap in Ht'. apply fmap_Some in Ht' as (t & Ht & ->). exists t. by case_match.
  - unfold CommitAuthenticatedAgentHeartbeat. case_match; [done|]. case_match; [done|].
    destruct (_ !! trim_space id) as [t|] eqn:Ht; [|done]. case_match; [done|]. case_match; [|done]. simpl.
    destruct (Hwf _ _ Ht) as (Heq & _). apply one_active_insert; [done|]. rewrite Heq. eauto.
  - unfold CommitExistingOwnerAgentHeartbeat. repeat (case_match; try done).
Qed.

(** As long as agent tokens are issued by enrollment, approval or rotation
    (never by a bare create), an asset has at most one active agent token at
    any time. *)
Theorem one_active_agent_token g ops :
  Forall (λ o, creates_agent_token o = false) ops →
  one_active (agentTokens (enroll (run_ops ops (new_hub g)))).
Proof.
  intros Hops. pose proof (wf_tokens_init g) as Hwf.
  assert (Hone : one_active (agentTokens (enroll (new_hub g)))) by done.
  revert Hwf Hone. generalize (new_hub g) as h.
  induction Hops as [|o ops Ho Hops IH]; intros h Hwf Hone; [done|].
  apply IH; [by apply exec_wf_tokens|by apply one_active_step].
Qed.

(** *** Approvals *)

Lemma prepare_Ok ctx now req h h' t :
  wf_tokens h → PrepareAgentApproval ctx now req h = (h', Ok t) →
  let a := trim_space (QP_AssetID req) in
  ctx = None ∧ AT_Status t = Pending ∧ AT_AssetID t = a ∧ AT_ID t = atok (N.succ (nextID (enroll h))) ∧
  now < AT_ExpiresAt t ≤ now + maxPreparedAgentApprovalTTL ∧
  retiredAgentIDs (assetStore h) !! a = None ∧ assets (assetStore h) !! a = None ∧
  assetStore h' = assetStore h ∧
  agentTokens (enroll h') = <[AT_ID t := t]> (agentTokens (enroll h)) ∧
  agentByHash (enroll h') = <[QP_AgentTokenHash req := AT_ID t]> (agentByHash (enroll h)) ∧
  identityRotatedAt (enroll h') = identityRotatedAt (enroll h) ∧
  enrolledFleetCardinalityLocked now h < normalizedMaxEnrolledAgents (QP_MaxEnrolledAgents req).
Proof.
  intros Hwf. unfold PrepareAgentApproval. repeat (let E := fresh "E" in case_match eqn:E; [done|]). intros [= <- <-]. bool_prop.
  repeat match goal with Hn : ¬ is_Some _ |- _ => apply not_is_Some_None in Hn end. simpl.
  split_and!; try done; unfold boundedPreparedApprovalExpiry, maxPreparedAgentApprovalTTL, Minute, Second;
    repeat match goal with |- context [if ?b then _ else _] => destruct b eqn:? end; bool_prop; lia.
Qed.

(** C23: operator approval is two-phase: preparing one (refused for a retired or
    known asset, a known hash, an approval already open or a full fleet, without effect) creates no asset
    and reserves a place in the fleet with a token that no request can use and that expires within five
    minutes; whatever happens in between, it is finalised only before that expiry, only for the asset it
    was prepared for, and only while that asset is neither known nor retired; then the asset
    has the presented verified identity and the token is its only active one. *)
Theorem approval_two_phase g ops0 ops ctx now req ctx' now' req' :
  let h0 := run_ops ops0 (new_hub g) in
  match PrepareAgentApproval ctx now req h0 with
  | (h1, Err _) => h1 = h0
  | (h1, Ok t) =>
      assetStore h1 = assetStore h0 ∧ now < AT_ExpiresAt t ≤ now + maxPreparedAgentApprovalTTL ∧
      (∀ at_, ValidateAgentToken at_ (QP_AgentTokenHash req) h1 = (t, false)) ∧
      enrolledFleetCardinalityLocked now h1 ≤ normalizedMaxEnrolledAgents (QP_MaxEnrolledAgents req) ∧
      let h2 := run_ops ops h1 in
      let a := trim_space (QF_AssetID req') in
      match FinalizeAgentApproval format_rfc3339 ctx' now' req' h2 with
      | (h3, Err _) => h3 = h2
      | (h3, Ok x) => trim_space (QF_PreparedTokenID req') = AT_ID t →
          now' < AT_ExpiresAt t ∧ a = trim_space (QP_AssetID req) ∧
          assets (assetStore h2) !! a = None ∧ retiredAgentIDs (assetStore h2) !! a = None ∧
          assets (assetStore h3) !! a = Some x ∧
          anchor (A_Metadata x) = (trim_space (QF_DeviceFingerprint req'),
            trim_space (QF_DeviceKeyAlgorithm req'), trim_space (format_rfc3339 now')) ∧
          (trim_space (QF_DeviceFingerprint req') ≠ "" ∧ trim_space (QF_DeviceKeyAlgorithm req') ≠ "") ∧
          ∃ t', agentTokens (enroll h3) !! AT_ID t = Some t' ∧ AT_Status t' = Active ∧
            AT_AssetID t' = a ∧ AT_ExpiresAt t' = QF_AgentTokenExpiresAt req' ∧
            ∀ id u, agentTokens (enroll h3) !! id = Some u → AT_AssetID u = a → AT_Status u = Active → id = AT_ID t
      end
  end.
Proof.
  intros h0. pose proof (run_wf_tokens ops0 _ (wf_tokens_init g)) as Hwf. fold h0 in Hwf. clearbody h0.
  pose proof (exec_wf_tokens (OpPrepare ctx now req) h0 Hwf) as Hwf1. simpl in Hwf1.
  destruct (PrepareAgentApproval ctx now req h0) as [h1 [t|e]] eqn:Hp; simpl in Hwf1.
  2:{ revert Hp. unfold PrepareAgentApproval. repeat (case_match; [by intros [= -> _]|]). done. }
  destruct (prepare_Ok _ _ _ _ _ _ Hwf Hp) as (_ & Hs & Ha & Hid & Hexp & _ & _ & Hst & Htoks & Hhash & Hrot & Hcap).
  do 2 (split; [done|]). split; [|split].
  - intros at_. unfold ValidateAgentToken. rewrite Hhash, lookup_insert_eq, Htoks, lookup_insert_eq. simpl.
    by rewrite Hs.
  - etrans; [apply (fleet_grows_by_one now (AT_AssetID t) h0)|lia].
    intros y Hy%elem_of_fleet. rewrite elem_of_union, elem_of_singleton, elem_of_fleet.
    rewrite Hst, Hrot, Htoks in Hy.
    destruct Hy as [?|[?|(id & u & [[_ <-]|[_ Hu]]%lookup_insert_Some & ? & ? & <-)]]; eauto 10.
  - intros h2 a. unfold FinalizeAgentApproval.
    destruct (check_finalize _ _ _ _) as [p|] eqn:Hc; [|done]. intros Hsame.
    apply check_finalize_Ok in Hc as (_ & _ & Hrow & Hps & _ & Hpa & Hpe & _ & Hfp & Hka & Hret & Hnew).
    rewrite Hsame in Hrow.
    assert (Hrow1 : agentTokens (enroll h1) !! AT_ID t = Some t) by (rewrite Htoks; apply lookup_insert_eq).
    pose proof (run_evolves ops h1 _ _ _ Hwf1 Hrow1 Hrow) as Hev.
    pose proof (te_id _ _ Hev) as Hpid. pose proof (te_asset _ _ Hev) as Hpas.
    pose proof (te_pending _ _ Hev Hps) as Hpex. fold h2 a in Hnew, Hret, Hpa |- *. simpl.
    split_and!; try done; [lia|congruence|by rewrite lookup_insert_eq| |].
    + unfold anchor, identity_metadata. meta_simpl. by rewrite !trim_space_idemp.
    + eexists. rewrite Hpid, lookup_insert_eq. split; [done|]. simpl. split_and!; [done..|].
      intros id u [[<- _]|[_ Hu]]%lookup_insert_Some Hua Hus; [done|].
      by destruct (revoke_active_none _ _ _ _ _ Hu).
Qed.

(** *** Verified identities *)

(** Operations that neither remove an asset nor carry the right to rotate an identity. *)
Definition no_removal (o : enroll_op) : bool :=
  match o with
  | OpDeleteAsset _ | OpDecommission _ _ _ => false
  | OpHeartbeat _ req | OpOwnerHeartbeat _ _ req | OpAgentHeartbeat _ _ _ _ req =>
      negb (H_AllowAgentIdentityRotation req)
  | _ => true
  end.

Definition has_anchor (id fp alg v : string) (st : MemoryAssetStore) : Prop :=
  ∃ x, assets st !! id = Some x ∧ anchor (A_Metadata x) = (fp, alg, v).

Lemma has_anchor_heartbeat id fp alg v req now st :
  fp ≠ "" → alg ≠ "" → H_AllowAgentIdentityRotation req = false → has_anchor id fp alg v st →
  has_anchor id fp alg v (upsertAssetHeartbeatLocked req now st).1.
Proof.
  intros ??? (x & Hx & Ha). unfold has_anchor, upsertAssetHeartbeatLocked. simpl.
  destruct (decide (H_AssetID req = id)) as [->|].
  - rewrite lookup_insert_eq, Hx. eexists. split; [done|]. by apply heartbeat_anchor.
  - rewrite lookup_insert_ne by done. eauto.
Qed.

Lemma has_anchor_insert id fp alg v st id' y ret :
  has_anchor id fp alg v st → (assets st !! id' = None ∨ (∃ x, assets st !! id' = Some x ∧ anchor (A_Metadata y) = anchor (A_Metadata x))) →
  has_anchor id fp alg v (MkAssetStore (<[id' := y]> (assets st)) ret).
Proof.
  intros (x & Hx & Ha) Hy. unfold has_anchor. simpl. destruct (decide (id' = id)) as [->|].
  - rewrite lookup_insert_eq. destruct Hy as [?|(x' & Hx' & Hy)]; [congruence|]. rewrite Hx in Hx'. injection Hx' as <-.
    eexists. split; [done|]. by rewrite Hy.
  - rewrite lookup_insert_ne by done. eauto.
Qed.

Lemma anchor_step o h id fp alg v :
  fp ≠ "" → alg ≠ "" → no_removal o = true → has_anchor id fp alg v (assetStore h) →
  has_anchor id fp alg v (assetStore (exec_op o h)).
Proof.
  intros Hfp Halg Ho Hx. destruct o; try done; simpl in *; bool_prop.
  - unfold CreateEnrollmentToken. repeat (case_match; try done).
  - unfold ConsumeEnrollmentToken. repeat (case_match; try done).
  - unfold IncrementEnrollmentTokenUse. repeat (case_match; try done).
  - unfold RevokeEnrollmentToken. repeat (case_match; try done).
  - unfold CreateAgentToken. by case_match.
  - unfold RotateAgentToken. by case_match.
  - unfold TouchAgentTokenLastUsed. by case_match.
  - unfold RevokeAgentToken. repeat (case_match; try done).
  - unfold CommitAgentEnrollment. destruct (check_commit _ _ _ _ _) as [[t g]|]; [|done]. simpl.
    apply has_anchor_insert; [done|].
    destruct (assets (assetStore h) !! trim_space (Q_AssetID req)) eqn:E; [right|by left]. eauto.
  - unfold PrepareAgentApproval. repeat (case_match; try done).
  - unfold FinalizeAgentApproval. destruct (check_finalize _ _ _ _) as [p|] eqn:Hc; [|done].
    apply check_finalize_Ok in Hc as (_ & _ & _ & _ & _ & _ & _ & _ & _ & _ & _ & Hnew). simpl.
    apply has_anchor_insert; auto.
  - unfold CancelAgentApproval. repeat (case_match; try done).
  - unfold CommitAuthenticatedAgentHeartbeat. case_match; [done|]. case_match; [done|].
    case_match; [|done]. case_match; [done|]. case_match; [|done]. by apply has_anchor_heartbeat.
  - unfold CommitExistingOwnerAgentHeartbeat. case_match; [done|]. case_match; [done|].
    case_match; [done|]. case_match; [|done]. by apply has_anchor_heartbeat.
  - unfold UpsertAssetHeartbeat. case_match; [done|]. by apply has_anchor_heartbeat.
  - unfold UpdateAsset. destruct (assets _ !! id0) as [x|] eqn:E; [|done]. apply has_anchor_insert; [done|].
    right. exists x. split; [done|]. simpl. destruct (UA_Name req); [|done]. unfold anchor. by meta_simpl.
Qed.

(** A verified identity is stable: as long as an asset with a device
    fingerprint and key algorithm on record is not removed, no enrollment,
    approval, token operation, edit or heartbeat without the rotation right changes its
    fingerprint, its key algorithm or the time it was verified. *)
Theorem verified_identity_kept ops h id fp alg v :
  fp ≠ "" → alg ≠ "" → Forall (λ o, no_removal o = true) ops →
  has_anchor id fp alg v (assetStore h) → has_anchor id fp alg v (assetStore (run_ops ops h)).
Proof.
  intros Hfp Halg Hops. revert h. induction Hops as [|o ops Ho Hops IH]; intros h Hh; [done|].
  by apply IH, anchor_step.
Qed.
End runs.

(** ** A concrete hub *)

Definition demo_params : CreateEnrollmentTokenParams := {|
  P_TokenHash := "h1"; P_Label := "lab"; P_ExpiresAt := 1000; P_MaxUses := 1;
  P_Scope := "unrestricted"; P_AssetID := ""; P_AllowedGroupID := ""; P_CreatedBy := "op" |}.

Definition demo_enroll : AgentEnrollmentCommitRequest := {|
  Q_AssetID := "node"; Q_Hostname := "host"; Q_Platform := "linux"; Q_GroupID := "";
  Q_EnrollmentTokenHash := "h1"; Q_AgentTokenHash := "a1"; Q_AgentTokenExpiresAt := 900;
  Q_DeviceFingerprint := "fp"; Q_DeviceKeyAlgorithm := "ed25519"; Q_DeviceProofVersion := "v2";
  Q_MaxEnrolledAgents := 4 |}.

Definition demo_heartbeat : HeartbeatRequest := {|
  H_AssetID := "node"; H_Type := "node"; H_Name := "host"; H_Source := "agent"; H_GroupID := "";
  H_Status := ""; H_Platform := "linux";
  H_Metadata := {[MetadataKeyAgentDeviceFingerprint := "other"]};
  H_AllowAgentIdentityRotation := false; H_AllowAgentIdentityTOFU := true |}.

Definition demo_format (_ : time) : string := "t".
Definition demo_parses (s : string) : bool := negb (is_empty s).
Definition demo_ops : list enroll_op := [OpCreateEnrollment 10 demo_params; OpCommit None 20 demo_enroll].

Definition demo_run (ops : list enroll_op) : hub :=
  run_ops demo_format demo_parses (H := range_in_key_order) ops (new_hub None).

Lemma revoked_stays_revoked_witness :
  ∃ t, agentTokens (enroll (demo_run (demo_ops ++ [OpRevokeAgent 30 (atok 2)]))) !! atok 2 = Some t ∧
  let h' := run_ops demo_format demo_parses (H := range_in_key_order) [OpTouch 35 (atok 2); OpAgentHeartbeat None 40 (atok 2) 60 demo_heartbeat]
              (demo_run (demo_ops ++ [OpRevokeAgent 30 (atok 2)])) in
  (∀ t', agentTokens (enroll h') !! atok 2 = Some t' → token_evolves t t') ∧
  ¬ ∃ u, ValidateActiveAgentTokenID None 50 (atok 2) "node" h' = Ok u.
Proof.
  eexists. split; [vm_compute; reflexivity|]. intros h'.
  epose proof (revoked_stays_revoked demo_format demo_parses (H := range_in_key_order) None (demo_ops ++ [OpRevokeAgent 30 (atok 2)])
    [OpTouch 35 (atok 2); OpAgentHeartbeat None 40 (atok 2) 60 demo_heartbeat] (atok 2) _
    ltac:(vm_compute; reflexivity)) as [Hev Hrev].
  split; [exact Hev|]. apply Hrev; reflexivity.
Defined.

Lemma retired_stays_out_witness :
  let h := run_ops demo_format demo_parses (H := range_in_key_order) [OpHeartbeat 40 demo_heartbeat] (demo_run (demo_ops ++ [OpDecommission None 30 "node"])) in
  retiredAgentIDs (assetStore h) !! "node" = Some 30 ∧ assets (assetStore h) !! "node" = None.
Proof.
  intros h.
  destruct (retired_stays_out demo_format demo_parses (H := range_in_key_order) None
    (demo_ops ++ [OpDecommission None 30 "node"]) [OpHeartbeat 40 demo_heartbeat] "node" 30) as (Hr & Ha & _).
  - vm_compute. reflexivity.
  - repeat constructor.
  - split; [exact Hr|exact Ha].
Defined.

Lemma one_active_agent_token_witness :
  one_active (agentTokens (enroll (demo_run (demo_ops ++ [OpRotateAgent 30 "node" "a2" "operator" 900])))).
Proof. apply one_active_agent_token. repeat constructor. Defined.

Lemma verified_identity_kept_witness :
  has_anchor "node" "fp" "ed25519" "t" (assetStore (run_ops demo_format demo_parses (H := range_in_key_order)
    [OpAgentHeartbeat None 30 (atok 2) 60 demo_heartbeat] (demo_run demo_ops))).
Proof.
  apply verified_identity_kept; [discriminate|discriminate|repeat constructor|].
  eexists. split; vm_compute; reflexivity.
Defined.

Definition demo_prepare : AgentApprovalPrepareRequest := {|
  QP_AssetID := "node"; QP_AgentTokenHash := "a1"; QP_PreparedTokenExpiresAt := 500; QP_MaxEnrolledAgents := 4 |}.
Definition demo_finalize : AgentApprovalFinalizeRequest := {|
  QF_PreparedTokenID := "atok-1"; QF_AssetID := "node"; QF_Hostname := "host"; QF_Platform := "linux";
  QF_DeviceFingerprint := "fp"; QF_DeviceKeyAlgorithm := "ed25519"; QF_AgentTokenExpiresAt := 900 |}.

Lemma approval_two_phase_witness :
  ∃ h1 t h3 x, PrepareAgentApproval None 10 demo_prepare (new_hub None) = (h1, Ok t) ∧
    FinalizeAgentApproval demo_format None 20 demo_finalize h1 = (h3, Ok x) ∧ 20 < AT_ExpiresAt t.
Proof.
  pose proof (approval_two_phase demo_format demo_parses (H := range_in_key_order) None [] [] None 10 demo_prepare
    None 20 demo_finalize) as H.
  destruct (PrepareAgentApproval None 10 demo_prepare (new_hub None)) as [h1 [t|e]] eqn:Hp; [|exact (ltac:(discriminate Hp))].
  exists h1, t. unfold run_ops in H. cbn zeta in H. cbn [foldl] in H. rewrite Hp in H. destruct H as (_ & _ & _ & _ & H).
  destruct (FinalizeAgentApproval demo_format None 20 demo_finalize h1) as [h3 [x|e]] eqn:Hf.
  - exists h3, x. split; [done|]. split; [done|]. apply H.
    revert Hp. intros [= _ <-]. reflexivity.
  - exfalso. revert Hp. intros [= <- _]. vm_compute in Hf. discriminate Hf.
Defined.
