(* ===== verification/AlertRules.v ===== *)
(** * The alert rule store

    [internal/persistence/memory_alert_store.go], the claims of
    [memory_alert_rule_timing.go] and the pages of
    [memory_alert_rule_evaluation_page.go].  Each operation holds the store's
    mutex, so it is a function of the store; [time.Now()] and [idgen.New] are
    its arguments [now], [newid] and (one id per target) [target_id]. *)

From S2P Require Import Prelude GoStrings Alerts.

Inductive rule_error :=
| ErrContext (e : ctx_error)
| ErrRuleNotFound
| ErrDuration (e : duration_error)
| ErrPageSize | ErrPageCursor. (* invalid alert evaluation page size, cursor *)
#[export] Instance rule_error_eq_dec : EqDecision rule_error.
Proof. solve_decision. Defined.

Definition ctx_check (ctx : Ctx) : result rule_error unit :=
  match ctx with Some e => Err (ErrContext e) | None => Ok tt end.

Record AlertRuleFilter := {
  RF_Limit : Z; RF_Offset : Z; RF_Status : string; RF_Kind : string; RF_Severity : string }.

Record MemoryAlertStore := MkAlertStore {
  rules : gmap string Rule;
  evaluations : gmap string (list Evaluation);
  latestEvaluations : gmap string Evaluation }.

Definition NewMemoryAlertStore : MemoryAlertStore := MkAlertStore ∅ ∅ ∅.

Definition with_rules (m : MemoryAlertStore) (f : gmap string Rule → gmap string Rule) :
    MemoryAlertStore := MkAlertStore (f (rules m)) (evaluations m) (latestEvaluations m).

(** ** Rules *)

Definition new_targets (target_id : nat → string) (ruleID : string) (now : time)
    (targets : list RuleTargetInput) : list RuleTarget :=
  imap (λ j t, {| T_ID := target_id j; T_RuleID := ruleID; T_AssetID := trim_space (TI_AssetID t);
                  T_GroupID := trim_space (TI_GroupID t); T_Selector := TI_Selector t;
                  T_CreatedAt := now |}) targets.

Definition new_rule (now : time) (newid : string) (target_id : nat → string)
    (req : CreateRuleRequest) (d : CreateRuleDurations) : Rule :=
  {| R_ID := newid; R_Name := trim_space (CR_Name req);
     R_Description := trim_space (CR_Description req);
     R_Status := default_str (NormalizeRuleStatus (CR_Status req)) RuleStatusActive;
     R_Kind := default_str (NormalizeRuleKind (CR_Kind req)) RuleKindMetricThreshold;
     R_Severity := default_str (NormalizeSeverity (CR_Severity req)) SeverityMedium;
     R_TargetScope := default_str (NormalizeTargetScope (CR_TargetScope req)) TargetScopeGlobal;
     R_CooldownSeconds := Cooldown d; R_ReopenAfterSeconds := Reopen d;
     R_EvaluationIntervalSeconds := Interval d; R_WindowSeconds := Window d;
     R_Condition := CR_Condition req; R_Labels := CR_Labels req; R_Metadata := CR_Metadata req;
     R_Targets := new_targets target_id newid now (CR_Targets req);
     R_CreatedBy := default_str (trim_space (CR_CreatedBy req)) "owner";
     R_CreatedAt := now; R_UpdatedAt := now; R_LastEvaluatedAt := None;
     R_LastAutoAttemptAt := None |}.

Definition CreateAlertRule (now : time) (newid : string) (target_id : nat → string)
    (req : CreateRuleRequest) (m : MemoryAlertStore) : MemoryAlertStore * result rule_error Rule :=
  match ResolveCreateRuleDurations req with
  | Err e => (m, Err (ErrDuration e))
  | Ok d => let rule := new_rule now newid target_id req d in
            (with_rules m <[newid := rule]>, Ok rule)
  end.

Definition GetAlertRuleContext (ctx : Ctx) (id : string) (m : MemoryAlertStore) :
    result rule_error (option Rule) :=
  _ ← ctx_check ctx; Ok (rules m !! id).

Definition rule_before (x y : Rule) : Prop :=
  R_UpdatedAt y < R_UpdatedAt x ∨ R_UpdatedAt x = R_UpdatedAt y ∧ String.le (R_ID y) (R_ID x).
#[export] Instance rule_before_dec : RelDecision rule_before.
Proof. intros x y. unfold rule_before. apply _. Defined.

Definition rule_matches (f : AlertRuleFilter) (r : Rule) : bool :=
  let ok n v := is_empty n || bool_decide (v = n) in
  ok (NormalizeRuleStatus (RF_Status f)) (R_Status r)
  && ok (NormalizeRuleKind (RF_Kind f)) (R_Kind r)
  && ok (NormalizeSeverity (RF_Severity f)) (R_Severity r).

Definition ListAlertRules `{MapRange} (f : AlertRuleFilter) (m : MemoryAlertStore) : list Rule :=
  page (RF_Limit f) (RF_Offset f) (merge_sort rule_before (select (rule_matches f) (rules m))).

(** One optional duration of an update: too small means [low], too big is refused. *)
Definition update_duration (input : option Z) (current : Z) (small : Z → bool) (low : Z) :
    result rule_error Z :=
  match input with
  | None => Ok current
  | Some v => let v := if small v then low else v in
              if MaxDurationSeconds <? v then Err (ErrDuration ErrInvalidDurationSeconds) else Ok v
  end.

Definition update_keyword (normalize : string → string) (input : option string) (current : string) :
    string :=
  match input with Some s => default_str (normalize s) current | None => current end.

Definition UpdateAlertRule (now : time) (target_id : nat → string) (id : string)
    (req : UpdateRuleRequest) (m : MemoryAlertStore) : MemoryAlertStore * result rule_error Rule :=
  match rules m !! id with
  | None => (m, Err ErrRuleNotFound)
  | Some r =>
      let updated :=
        cooldown ← update_duration (UR_CooldownSeconds req) (R_CooldownSeconds r) (λ v, v <? 0) 0;
        reopen ← update_duration (UR_ReopenAfterSeconds req) (R_ReopenAfterSeconds r) (λ v, v <? 0) 0;
        interval ← update_duration (UR_EvaluationIntervalSeconds req) (R_EvaluationIntervalSeconds r)
          (λ v, v <=? 0) DefaultEvaluationIntervalSeconds;
        window ← update_duration (UR_WindowSeconds req) (R_WindowSeconds r) (λ v, v <=? 0)
          DefaultWindowSeconds;
        Ok {| R_ID := R_ID r;
           R_Name := match UR_Name req with Some n => trim_space n | None => R_Name r end;
           R_Description := match UR_Description req with Some d => trim_space d | None => R_Description r end;
           R_Status := update_keyword NormalizeRuleStatus (UR_Status req) (R_Status r);
           R_Kind := R_Kind r;
           R_Severity := update_keyword NormalizeSeverity (UR_Severity req) (R_Severity r);
           R_TargetScope := R_TargetScope r; R_CooldownSeconds := cooldown;
           R_ReopenAfterSeconds := reopen; R_EvaluationIntervalSeconds := interval;
           R_WindowSeconds := window;
           R_Condition := default (R_Condition r) (UR_Condition req);
           R_Labels := default (R_Labels r) (UR_Labels req);
           R_Metadata := default (R_Metadata r) (UR_Metadata req);
           R_Targets := match UR_Targets req with
                        | Some l => new_targets target_id (R_ID r) now l | None => R_Targets r end;
           R_CreatedBy := R_CreatedBy r; R_CreatedAt := R_CreatedAt r; R_UpdatedAt := now;
           R_LastEvaluatedAt := R_LastEvaluatedAt r; R_LastAutoAttemptAt := R_LastAutoAttemptAt r |} in
      match updated with
      | Err e => (m, Err e)
      | Ok r' => (with_rules m <[id := r']>, Ok r')
      end
  end.

Definition DeleteAlertRule (id : string) (m : MemoryAlertStore) :
    MemoryAlertStore * result rule_error unit :=
  match rules m !! id with
  | None => (m, Err ErrRuleNotFound)
  | Some _ => (MkAlertStore (delete id (rules m)) (delete id (evaluations m))
                 (delete id (latestEvaluations m)), Ok tt)
  end.

(** ** Evaluations *)

Definition set_rule_times (r : Rule) (evaluated attempted : option time) : Rule :=
  {| R_ID := R_ID r; R_Name := R_Name r; R_Description := R_Description r; R_Status := R_Status r;
     R_Kind := R_Kind r; R_Severity := R_Severity r; R_TargetScope := R_TargetScope r;
     R_CooldownSeconds := R_CooldownSeconds r; R_ReopenAfterSeconds := R_ReopenAfterSeconds r;
     R_EvaluationIntervalSeconds := R_EvaluationIntervalSeconds r; R_WindowSeconds := R_WindowSeconds r;
     R_Condition := R_Condition r; R_Labels := R_Labels r; R_Metadata := R_Metadata r;
     R_Targets := R_Targets r; R_CreatedBy := R_CreatedBy r; R_CreatedAt := R_CreatedAt r;
     R_UpdatedAt := R_UpdatedAt r; R_LastEvaluatedAt := evaluated; R_LastAutoAttemptAt := attempted |}.

Definition new_evaluation (now : time) (newid ruleID : string) (e : Evaluation) : Evaluation :=
  {| E_ID := default_str (trim_space (E_ID e)) newid; E_RuleID := trim_space ruleID;
     E_Status := default_str (NormalizeEvaluationStatus (E_Status e)) EvaluationStatusError;
     E_EvaluatedAt := if E_EvaluatedAt e =? zero_time then now else E_EvaluatedAt e;
     E_DurationMS := Z.max 0 (E_DurationMS e); E_CandidateCount := Z.max 0 (E_CandidateCount e);
     E_TriggeredCount := Z.max 0 (E_TriggeredCount e);
     E_Error := trim_space (E_Error e); E_Details := E_Details e |}.

(** [created] replaces the latest evaluation when it is later, or as late with
    a greater id. *)
Definition supersedes (created : Evaluation) (latest : option Evaluation) : bool :=
  match latest with
  | None => true
  | Some l => (E_EvaluatedAt l <? E_EvaluatedAt created)
              || ((E_EvaluatedAt created =? E_EvaluatedAt l) && str_lt (E_ID l) (E_ID created))
  end.

Definition RecordAlertEvaluationContext (ctx : Ctx) (now : time) (newid : string) (ruleID : string)
    (e : Evaluation) (m : MemoryAlertStore) : MemoryAlertStore * result rule_error Evaluation :=
  match ctx_check ctx with
  | Err er => (m, Err er)
  | Ok _ =>
      let ruleID := trim_space ruleID in
      match rules m !! ruleID with
      | None => (m, Err ErrRuleNotFound)
      | Some r =>
          let created := new_evaluation now newid ruleID e in
          (MkAlertStore
             (<[ruleID := set_rule_times r (Some (E_EvaluatedAt created)) (R_LastAutoAttemptAt r)]> (rules m))
             (<[ruleID := default [] (evaluations m !! ruleID) ++ [created]]> (evaluations m))
             (if supersedes created (latestEvaluations m !! ruleID)
              then <[ruleID := created]> (latestEvaluations m) else latestEvaluations m),
           Ok created)
      end
  end.

Definition evaluated_before (x y : Evaluation) : Prop := E_EvaluatedAt y ≤ E_EvaluatedAt x.
#[export] Instance evaluated_before_dec : RelDecision evaluated_before.
Proof. intros x y. unfold evaluated_before. apply _. Defined.

Definition ListAlertEvaluations (ruleID : string) (limit : Z) (m : MemoryAlertStore) :
    result rule_error (list Evaluation) :=
  match rules m !! trim_space ruleID with
  | None => Err ErrRuleNotFound
  | Some _ => Ok (take (Z.to_nat (clamp_limit limit))
                (merge_sort evaluated_before (default [] (evaluations m !! trim_space ruleID))))
  end.

(** ** Claims *)

Definition ClaimAlertRuleEvaluation (ctx : Ctx) (id : string) (at_ : time) (m : MemoryAlertStore) :
    MemoryAlertStore * result rule_error bool :=
  match ctx_check ctx with
  | Err e => (m, Err e)
  | Ok _ =>
      match rules m !! trim_space id with
      | None => (m, Ok false)
      | Some r =>
          if negb (bool_decide (R_Status r = RuleStatusActive)) || (at_ =? zero_time) then (m, Ok false)
          else
            let interval := if R_EvaluationIntervalSeconds r <=? 0
                            then DefaultEvaluationIntervalSeconds else R_EvaluationIntervalSeconds r in
            match R_LastAutoAttemptAt r with
            | Some last => if at_ <? last + wrap64 (interval * Second) then (m, Ok false)
                           else (with_rules m <[R_ID r := set_rule_times r (R_LastEvaluatedAt r) (Some at_)]>, Ok true)
            | None => (with_rules m <[R_ID r := set_rule_times r (R_LastEvaluatedAt r) (Some at_)]>, Ok true)
            end
      end
  end.

(** ** Pages of active rules *)

Record AlertRuleEvaluationCursor := MkCursor {
  Started : bool; AfterID : string; ThroughID : string }.

Definition zero_cursor : AlertRuleEvaluationCursor := MkCursor false "" "".

Record AlertRuleEvaluationPage := MkPage {
  PG_Rules : list Rule; PG_ThroughID : string; PG_Done : bool }.

Definition AlertRuleEvaluationPageSize : Z := 128.

Definition validateAlertRuleEvaluationPage (c : AlertRuleEvaluationCursor) (limit : Z) :
    result rule_error unit :=
  if (limit <? 1) || (AlertRuleEvaluationPageSize <? limit) then Err ErrPageSize
  else if (negb (Started c) && (negb (is_empty (AfterID c)) || negb (is_empty (ThroughID c))))
          || str_lt (ThroughID c) (AfterID c)
  then Err ErrPageCursor else Ok tt.

Definition is_active_rule (r : Rule) : bool := bool_decide (R_Status r = RuleStatusActive).

(** The heap of [container/heap] with the greatest id at its root: its
    contents, the root first.  The code reads only the root and the length,
    and sorts the rest. *)
Fixpoint heap_push (id : string) (ids : list string) : list string :=
  match ids with
  | [] => [id]
  | x :: l => if str_lt x id then id :: ids else x :: heap_push id l
  end.

(** The loop keeps the [n] smallest ids. *)
Definition offer (n : nat) (ids : list string) (id : string) : list string :=
  if (length ids <? n)%nat then heap_push id ids
  else match ids with
       | root :: rest => if str_lt id root then heap_push id rest else ids
       | [] => ids
       end.

Section page.
Context `{MapRange}.

Definition active_ids (m : MemoryAlertStore) : list string :=
  fst <$> List.filter (λ kv, is_active_rule kv.2) (range (rules m)).

Definition page_through (c : AlertRuleEvaluationCursor) (ids : list string) : string :=
  if Started c then ThroughID c
  else foldl (λ through id, if str_lt through id then id else through) (ThroughID c) ids.

Definition page_wants (c : AlertRuleEvaluationCursor) (id : string) : bool :=
  negb (String.leb id (AfterID c) || (Started c && str_lt (ThroughID c) id)).

Definition PageActiveAlertRules (ctx : Ctx) (c : AlertRuleEvaluationCursor) (limit : Z)
    (m : MemoryAlertStore) : result rule_error AlertRuleEvaluationPage :=
  _ ← validateAlertRuleEvaluationPage c limit;
  _ ← ctx_check ctx;
  let ids := foldl (offer (S (Z.to_nat limit))) [] (List.filter (page_wants c) (active_ids m)) in
  let listed := take (Z.to_nat limit) (sort_strings ids) in
  Ok {| PG_Rules := omap (λ id, rules m !! id) listed;
        PG_ThroughID := page_through c (active_ids m);
        PG_Done := (length ids <=? Z.to_nat limit)%nat |}.
End page.

(** ** Invariant *)

Record rule_ok (id : string) (r : Rule) : Prop := {
  ro_id : R_ID r = id;
  ro_status : R_Status r ∈ rule_statuses;
  ro_kind : R_Kind r ∈ rule_kinds;
  ro_severity : R_Severity r ∈ severities;
  ro_scope : R_TargetScope r ∈ target_scopes;
  ro_cooldown : in_range (R_CooldownSeconds r);
  ro_reopen : in_range (R_ReopenAfterSeconds r);
  ro_interval : 1 ≤ R_EvaluationIntervalSeconds r ≤ MaxDurationSeconds;
  ro_window : 1 ≤ R_WindowSeconds r ≤ MaxDurationSeconds }.

Record evaluation_ok (id : string) (e : Evaluation) : Prop := {
  eo_rule : E_RuleID e = id;
  eo_status : E_Status e ∈ evaluation_statuses;
  eo_counts : 0 ≤ E_DurationMS e ∧ 0 ≤ E_CandidateCount e ∧ 0 ≤ E_TriggeredCount e }.

(** [e] is at least as late as [x], and ties go to the greater id. *)
Definition latest_of (x e : Evaluation) : Prop := supersedes x (Some e) = false.

Record wf_rules (m : MemoryAlertStore) : Prop := {
  wr_rules : map_Forall rule_ok (rules m);
  wr_history id l : evaluations m !! id = Some l →
    is_Some (rules m !! id) ∧ Forall (evaluation_ok id) l ∧
    ∃ e, latestEvaluations m !! id = Some e ∧ e ∈ l ∧ Forall (λ x, latest_of x e) l;
  wr_latest id e : latestEvaluations m !! id = Some e → is_Some (evaluations m !! id) }.

Inductive rule_step : gset string * MemoryAlertStore → gset string * MemoryAlertStore → Prop :=
| step_create now newid tid req u m : newid ∉ u →
    rule_step (u, m) ({[newid]} ∪ u, (CreateAlertRule now newid tid req m).1)
| step_update now tid id req u m :
    rule_step (u, m) (u, (UpdateAlertRule now tid id req m).1)
| step_delete id u m : rule_step (u, m) (u, (DeleteAlertRule id m).1)
| step_record ctx now newid ruleID e u m :
    rule_step (u, m) (u, (RecordAlertEvaluationContext ctx now newid ruleID e m).1)
| step_claim ctx id at_ u m :
    rule_step (u, m) (u, (ClaimAlertRuleEvaluation ctx id at_ m).1).

Abbreviation rule_steps := (rtc rule_step).

Lemma default_keyword ks v d : d ∈ ks → default_str (keyword ks v) d ∈ ks.
Proof.
  intros Hd. unfold default_str. case_bool_decide; [done|].
  by destruct (keyword_cases ks v).
Qed.

Lemma update_keyword_ok ks i c : c ∈ ks → update_keyword (keyword ks) i c ∈ ks.
Proof. intros Hc. destruct i; [by apply default_keyword|done]. Qed.

Lemma update_duration_ok i c small low v lo :
  update_duration i c small low = Ok v → lo ≤ c ≤ MaxDurationSeconds →
  lo ≤ low → (∀ x, small x = false → lo ≤ x) → lo ≤ v ≤ MaxDurationSeconds.
Proof.
  intros Hv Hc Hl Hs. destruct i as [x|]; simpl in Hv; [|by injection Hv as <-].
  destruct (small x) eqn:E; destruct (_ <? _) eqn:E2; simplify_eq; bool_prop; [lia|].
  specialize (Hs _ E). lia.
Qed.

Lemma new_rule_ok now newid tid req d :
  ResolveCreateRuleDurations req = Ok d → rule_ok newid (new_rule now newid tid req d).
Proof.
  unfold ResolveCreateRuleDurations. intros Hd. inv_ok.
  repeat match goal with
  | Hr : resolve_field _ _ _ = Ok _ |- _ => apply resolve_field_spec in Hr as (? & ? & _); [|by vm_compute]
  end.
  constructor; simpl; try (apply default_keyword; by apply (bool_decide_eq_true_1 _)); try done;
    unfold in_range in *; naive_solver lia.
Qed.

Lemma set_rule_times_ok id r a b : rule_ok id r → rule_ok id (set_rule_times r a b).
Proof. intros []. by constructor. Qed.

Lemma update_rule_ok now tid id req m m' r r' :
  rules m !! id = Some r → rule_ok id r → UpdateAlertRule now tid id req m = (m', Ok r') →
  m' = with_rules m <[id := r']> ∧ rule_ok id r' ∧
  R_LastAutoAttemptAt r' = R_LastAutoAttemptAt r.
Proof.
  intros Hr Hok. unfold UpdateAlertRule. rewrite Hr.
  match goal with |- context [match ?u with Ok _ => _ | Err _ => _ end] => destruct u as [x|] eqn:Hu end; [|done].
  intros [= <- <-]. split; [done|]. inv_ok. destruct Hok. split; [|done].
  constructor; simpl; try done; try (by apply update_keyword_ok);
    (eapply update_duration_ok; [done|done|done|]; intros v Hv; cbv beta in Hv; bool_prop; lia).
Qed.

Lemma supersedes_irrefl e : supersedes e (Some e) = false.
Proof. simpl. by rewrite Z.ltb_irrefl, str_lt_irrefl, andb_false_r. Qed.

Lemma latest_of_spec x e :
  latest_of x e ↔ E_EvaluatedAt x < E_EvaluatedAt e ∨
    E_EvaluatedAt x = E_EvaluatedAt e ∧ String.le (E_ID x) (E_ID e).
Proof.
  unfold latest_of. simpl. rewrite orb_false_iff, andb_false_iff, Z.ltb_ge, Z.eqb_neq, str_lt_false.
  split; [intros [? [?|?]]; [left; lia|]|intros [?|[-> ?]]; [split; [lia|left; lia]|split; [lia|by right]]].
  destruct (decide (E_EvaluatedAt x = E_EvaluatedAt e)); [by right|left; lia].
Qed.

Lemma supersedes_spec x e :
  supersedes x (Some e) = true ↔ E_EvaluatedAt e < E_EvaluatedAt x ∨
    E_EvaluatedAt x = E_EvaluatedAt e ∧ str_lt (E_ID e) (E_ID x) = true.
Proof. simpl. by rewrite orb_true_iff, andb_true_iff, Z.ltb_lt, Z.eqb_eq. Qed.

(** A new latest evaluation stays above everything the old one was above. *)
Lemma supersedes_latest x e y : supersedes x (Some e) = true → latest_of y e → latest_of y x.
Proof.
  rewrite supersedes_spec, !latest_of_spec. intros [?|[Heq Hlt]] [?|[Heq2 Hle]]; try (left; lia).
  right. split; [lia|]. apply str_lt_iff in Hlt as [? _]. by etrans.
Qed.

Lemma new_evaluation_ok now newid ruleID e :
  evaluation_ok (trim_space ruleID) (new_evaluation now newid ruleID e).
Proof.
  constructor; simpl; [done| |lia]. apply default_keyword. by apply (bool_decide_eq_true_1 _).
Qed.

Lemma wf_with_rule m id r :
  wf_rules m → rule_ok id r → wf_rules (with_rules m <[id := r]>).
Proof.
  intros [Hr Hh Hl] Hok. constructor; simpl; [by apply map_Forall_insert_2| |done].
  intros k l Hk. destruct (Hh _ _ Hk) as ([? ?] & ? & ?). split; [|done].
  destruct (decide (id = k)) as [->|]; [rewrite lookup_insert_eq; eauto|by rewrite lookup_insert_ne].
Qed.

Lemma record_wf ctx now newid ruleID e m :
  wf_rules m → wf_rules (RecordAlertEvaluationContext ctx now newid ruleID e m).1.
Proof.
  intros Hwf. unfold RecordAlertEvaluationContext. destruct (ctx_check ctx); [|done].
  set (id := trim_space ruleID). destruct (rules m !! id) as [r|] eqn:Hr; [|done]. simpl.
  pose proof (new_evaluation_ok now newid id e) as Hok. unfold id in Hok at 1.
  rewrite trim_space_idemp in Hok. fold id in Hok.
  set (c := new_evaluation now newid id e) in *. destruct Hwf as [Hrs Hh Hl].
  constructor; simpl.
  - apply map_Forall_insert_2; [|done]. by apply set_rule_times_ok, (map_Forall_lookup_1 _ _ _ _ Hrs).
  - intros k l Hk. destruct (decide (k = id)) as [->|Hne].
    + rewrite lookup_insert_eq in Hk. rewrite lookup_insert_eq. injection Hk as <-. split; [by eexists|].
      destruct (evaluations m !! id) as [l0|] eqn:El; simpl.
      * destruct (Hh _ _ El) as (_ & Hall & e0 & He0 & Hin & Hmax). rewrite He0.
        split; [apply Forall_app; split; [done|by constructor]|].
        destruct (supersedes c (Some e0)) eqn:Es.
        -- exists c. rewrite lookup_insert_eq. split; [done|]. split; [set_solver|].
           apply Forall_app. split; [|constructor; [apply supersedes_irrefl|done]].
           eapply Forall_impl; [done|]. intros y. by apply supersedes_latest.
        -- exists e0. split; [done|]. split; [set_solver|]. apply Forall_app. split; [done|by constructor].
      * split; [by constructor|].
        assert (latestEvaluations m !! id = None) as Hnone.
        { destruct (latestEvaluations m !! id) eqn:E; [|done]. apply Hl in E as [? ?]. congruence. }
        rewrite Hnone. simpl. exists c. rewrite lookup_insert_eq. split; [done|]. split; [set_solver|].
        constructor; [apply supersedes_irrefl|done].
    + rewrite lookup_insert_ne in Hk by done. destruct (Hh _ _ Hk) as (? & ? & e0 & ? & ? & ?).
      rewrite lookup_insert_ne by done. split; [done|]. split; [done|]. exists e0. split; [|done].
      by case_match; [rewrite lookup_insert_ne|].
  - intros k x Hk. destruct (decide (k = id)) as [->|Hne]; [rewrite lookup_insert_eq; by eexists|].
    rewrite lookup_insert_ne by done. apply (Hl _ x). by case_match; [rewrite lookup_insert_ne in Hk|].
Qed.

Lemma claim_effect ctx id at_ m m' b :
  ClaimAlertRuleEvaluation ctx id at_ m = (m', b) → wf_rules m →
  m' = m ∧ b ≠ Ok true ∨
  ∃ r, b = Ok true ∧ rules m !! trim_space id = Some r ∧ R_Status r = RuleStatusActive ∧
    m' = with_rules m <[trim_space id := set_rule_times r (R_LastEvaluatedAt r) (Some at_)]> ∧
    (∀ last, R_LastAutoAttemptAt r = Some last → last + R_EvaluationIntervalSeconds r * Second ≤ at_).
Proof.
  unfold ClaimAlertRuleEvaluation. intros Hc Hwf. destruct (ctx_check ctx); [|left; by simplify_eq].
  destruct (rules m !! trim_space id) as [r|] eqn:Hr; [|left; by simplify_eq].
  pose proof (map_Forall_lookup_1 _ _ _ _ (wr_rules _ Hwf) Hr) as Hok.
  destruct (_ || _) eqn:Hg; [left; by simplify_eq|]. bool_prop.
  pose proof (ro_interval _ _ Hok) as Hi.
  destruct (R_EvaluationIntervalSeconds r <=? 0) eqn:Hpos; bool_prop; [lia|].
  assert (wrap64 (R_EvaluationIntervalSeconds r * Second) = R_EvaluationIntervalSeconds r * Second) as Hw.
  { unfold wrap64, Second, MaxDurationSeconds in *. rewrite Z.mod_small; lia. }
  rewrite Hw in Hc. rewrite (ro_id _ _ Hok) in Hc.
  destruct (R_LastAutoAttemptAt r) as [last|] eqn:Hl.
  - destruct (at_ <? _) eqn:Hlt; bool_prop; [left; by simplify_eq|].
    right. exists r. simplify_eq. split_and!; try done. intros l0 Hl0. assert (l0 = last) as -> by congruence. done.
  - right. exists r. simplify_eq. split_and!; try done. intros l0 Hl0. congruence.
Qed.

Lemma rule_step_wf u m u' m' : rule_step (u, m) (u', m') → wf_rules m → wf_rules m'.
Proof.
  intros Hs Hwf. inversion Hs as [? ? ? req|? ? id req|id| |ctx id at_]; subst.
  - unfold CreateAlertRule. destruct (ResolveCreateRuleDurations req) eqn:E; [|done].
    simpl. by apply wf_with_rule, new_rule_ok.
  - destruct (UpdateAlertRule _ _ _ _ _) as [m2 [r'|e]] eqn:E; simpl.
    + destruct (rules m !! id) as [r|] eqn:Hr; [|unfold UpdateAlertRule in E; by rewrite Hr in E].
      pose proof (map_Forall_lookup_1 _ _ _ _ (wr_rules _ Hwf) Hr) as Hok.
      destruct (update_rule_ok _ _ _ _ _ _ _ _ Hr Hok E) as (-> & ? & _). by apply wf_with_rule.
    + unfold UpdateAlertRule in E. destruct (rules m !! id); [|by simplify_eq].
      match type of E with context [match ?u with Ok _ => _ | Err _ => _ end] => destruct u end; by simplify_eq.
  - unfold DeleteAlertRule. destruct (rules m !! id); [|done]. destruct Hwf as [Hr Hh Hl].
    constructor; simpl; [by apply map_Forall_delete| |].
    + intros k l [? Hk]%lookup_delete_Some. rewrite !lookup_delete_ne by done. by apply Hh.
    + intros k l [? Hk]%lookup_delete_Some. rewrite lookup_delete_ne by done. by apply (Hl _ l).
  - by apply record_wf.
  - destruct (ClaimAlertRuleEvaluation _ _ _ _) as [m2 b] eqn:E. simpl.
    destruct (claim_effect _ _ _ _ _ _ E Hwf) as [[-> _]|(r & _ & Hr & _ & -> & _)]; [done|].
    apply wf_with_rule; [done|]. by apply set_rule_times_ok, (map_Forall_lookup_1 _ _ _ _ (wr_rules _ Hwf)).
Qed.

Lemma rule_steps_wf s s' : rule_steps s s' → wf_rules s.2 → wf_rules s'.2.
Proof.
  induction 1 as [|[u m] [u' m'] s' Hs _ IH]; [done|]. intros Hwf. by apply IH, (rule_step_wf u m u' m').
Qed.

Lemma wf_rules_init : wf_rules NewMemoryAlertStore.
Proof. constructor; simpl; [apply map_Forall_empty|done|done]. Qed.

(** The rule store keeps its rules and their history well formed: after any
    operations every rule has a known status, kind, severity and scope,
    durations within 0 and 2^31-1 seconds and a positive interval and window; history
    exists for existing rules only, its rows belong to their rule and have a
    known status and no negative count; and the
    latest evaluation of a rule is the one of its history with the greatest
    (time, id). *)
Theorem rule_store_invariant u m :
  rule_steps (∅, NewMemoryAlertStore) (u, m) → wf_rules m.
Proof. intros Hs. exact (rule_steps_wf _ _ Hs wf_rules_init). Qed.

(** ** Claims are spaced *)

(** The ids in use were issued; [k] is issued, and as long as its rule exists,
    it was last claimed at [t] or later. *)
Definition claimed_since (k : string) (t : time) (s : gset string * MemoryAlertStore) : Prop :=
  k ∈ s.1 ∧ ∀ r, rules s.2 !! k = Some r → ∃ l, R_LastAutoAttemptAt r = Some l ∧ t ≤ l.

Lemma claimed_since_insert k t u m id r :
  claimed_since k t (u, m) →
  (id = k → ∃ l, R_LastAutoAttemptAt r = Some l ∧ t ≤ l) →
  claimed_since k t (u, with_rules m <[id := r]>).
Proof.
  intros [Hk Hr] Hi. split; [done|]. simpl. intros r' [[Heq <-]|[_ Hl]]%lookup_insert_Some; auto.
Qed.

Lemma claimed_since_step k t s s' :
  rule_step s s' → wf_rules s.2 → claimed_since k t s → claimed_since k t s'.
Proof.
  intros Hs Hwf [Hk Hc]. destruct Hs as [? newid ? req u m Hf|? ? id req u m|id u m|? ? ? ruleID e u m|ctx id at_ u m];
    simpl in *.
  - unfold CreateAlertRule. destruct (ResolveCreateRuleDurations req); simpl; split; simpl; [set_solver| |set_solver|done].
    intros r [[-> _]|[_ Hl]]%lookup_insert_Some; [done|auto].
  - destruct (UpdateAlertRule _ _ _ _ _) as [m2 [r'|e]] eqn:E; simpl.
    + destruct (rules m !! id) as [r|] eqn:Hr; [|unfold UpdateAlertRule in E; by rewrite Hr in E].
      pose proof (map_Forall_lookup_1 _ _ _ _ (wr_rules _ Hwf) Hr) as Hok.
      destruct (update_rule_ok _ _ _ _ _ _ _ _ Hr Hok E) as (-> & _ & Hl).
      apply claimed_since_insert; [done|]. intros ->. rewrite Hl. auto.
    + unfold UpdateAlertRule in E. destruct (rules m !! id); [|by simplify_eq].
      match type of E with context [match ?u with Ok _ => _ | Err _ => _ end] => destruct u end; by simplify_eq.
  - unfold DeleteAlertRule. destruct (rules m !! id); [|done]. split; [done|]. simpl.
    intros r0 [_ Hr]%lookup_delete_Some. auto.
  - unfold RecordAlertEvaluationContext. destruct (ctx_check _); [|done].
    destruct (rules m !! trim_space ruleID) as [r|] eqn:Hr; [|done]. split; [done|]. simpl.
    intros r' [[Heq <-]|[_ Hl]]%lookup_insert_Some; [|auto]. simpl. apply Hc. by rewrite <-Heq.
  - destruct (ClaimAlertRuleEvaluation _ _ _ _) as [m2 b] eqn:E. simpl.
    destruct (claim_effect _ _ _ _ _ _ E Hwf) as [[-> _]|(r & _ & Hr & _ & -> & Hsp)]; [done|].
    apply claimed_since_insert; [done|]. intros Heq. exists at_. split; [done|].
    rewrite Heq in Hr. destruct (Hc _ Hr) as (l & Hl & ?). specialize (Hsp _ Hl).
    pose proof (ro_interval _ _ (map_Forall_lookup_1 _ _ _ _ (wr_rules _ Hwf) Hr)). unfold Second in *. lia.
Qed.

Lemma claimed_since_steps k t s s' :
  rule_steps s s' → wf_rules s.2 → claimed_since k t s → claimed_since k t s'.
Proof.
  induction 1 as [|[u m] [u1 m1] s' Hs _ IH]; [done|]. intros Hwf Hc.
  apply IH; [by apply (rule_step_wf u m u1 m1)|by eapply claimed_since_step].
Qed.

Lemma issued_step s s' :
  rule_step s s' → wf_rules s.2 → dom (rules s.2) ⊆ s.1 → dom (rules s'.2) ⊆ s'.1.
Proof.
  intros Hs Hwf Hd. destruct Hs as [? newid ? req u m Hf|? ? id req u m|id u m|? ? ? ruleID e u m|ctx id at_ u m]; simpl in *.
  - unfold CreateAlertRule. destruct (ResolveCreateRuleDurations req); simpl; set_solver.
  - unfold UpdateAlertRule. destruct (rules m !! id) eqn:E; [|done]. apply elem_of_dom_2 in E.
    match goal with |- context [match ?u with Ok _ => _ | Err _ => _ end] => destruct u end; simpl; set_solver.
  - unfold DeleteAlertRule. destruct (rules m !! id); simpl; set_solver.
  - unfold RecordAlertEvaluationContext. destruct (ctx_check _); [|done].
    destruct (rules m !! trim_space ruleID) eqn:E; [|done]. apply elem_of_dom_2 in E. simpl. set_solver.
  - destruct (ClaimAlertRuleEvaluation _ _ _ _) as [m2 b] eqn:E. simpl.
    destruct (claim_effect _ _ _ _ _ _ E Hwf) as [[-> _]|(r & _ & Hr & _ & -> & _)]; [done|].
    apply elem_of_dom_2 in Hr. simpl. set_solver.
Qed.

Lemma issued_steps s s' :
  rule_steps s s' → wf_rules s.2 → dom (rules s.2) ⊆ s.1 → dom (rules s'.2) ⊆ s'.1.
Proof.
  induction 1 as [|[u m] [u1 m1] s' Hs _ IH]; [done|]. intros Hwf Hd.
  apply IH; [by apply (rule_step_wf u m u1 m1)|by eapply issued_step].
Qed.

(** Automatic evaluations of a rule are spaced by its interval: of two
    claims that succeed, with any operations of the store in between (updates of the rule and claims
    by concurrent evaluators included), the later is at least the interval that the
    rule then has after the earlier, whatever clocks they were made with. *)
Theorem claims_spaced u m ctx id t m1 s2 ctx' t' m3 :
  rule_steps (∅, NewMemoryAlertStore) (u, m) →
  ClaimAlertRuleEvaluation ctx id t m = (m1, Ok true) →
  rule_steps (u, m1) s2 →
  ClaimAlertRuleEvaluation ctx' id t' s2.2 = (m3, Ok true) →
  ∃ r, rules s2.2 !! trim_space id = Some r ∧ R_Status r = RuleStatusActive ∧
    t + R_EvaluationIntervalSeconds r * Second ≤ t'.
Proof.
  intros H1 Hc1 H2 Hc2. pose proof (rule_steps_wf _ _ H1 wf_rules_init) as Hwf. simpl in Hwf.
  pose proof (issued_steps _ _ H1 wf_rules_init ltac:(done)) as Hd. simpl in Hd.
  assert (Hwf1 : wf_rules m1).
  { pose proof (rule_step_wf _ _ _ _ (step_claim ctx id t u m) Hwf) as Hx. by rewrite Hc1 in Hx. }
  destruct (claim_effect _ _ _ _ _ _ Hc1 Hwf) as [[_ ?]|(r & _ & Hr & _ & -> & _)]; [done|].
  assert (Hs : claimed_since (trim_space id) t (u, with_rules m <[trim_space id:=set_rule_times r (R_LastEvaluatedAt r) (Some t)]>)).
  { split; [apply elem_of_dom_2 in Hr; set_solver|]. simpl. rewrite lookup_insert_eq.
    intros ? [= <-]. by exists t. }
  apply (claimed_since_steps _ _ _ _ H2) in Hs; [|done].
  pose proof (rule_steps_wf _ _ H2 Hwf1) as Hwf2.
  destruct (claim_effect _ _ _ _ _ _ Hc2 Hwf2) as [[_ ?]|(r' & _ & Hr' & Hst & _ & Hsp)]; [done|].
  exists r'. split; [done|]. split; [done|]. destruct Hs as [_ Hs]. destruct (Hs _ Hr') as (l & Hl & ?).
  specialize (Hsp _ Hl). lia.
Qed.

(** ** Pages *)

Abbreviation descending := (StronglySorted (λ a b, str_lt b a = true)).
Abbreviation ascending := (StronglySorted (λ a b, str_lt a b = true)).

(** [ids] are the at most [n] smallest of the ids in [P]. *)
Record keeps (n : nat) (P : string → Prop) (ids : list string) : Prop := {
  kp_sorted : descending ids;
  kp_sub x : x ∈ ids → P x;
  kp_len : (length ids ≤ n)%nat;
  kp_rest x : P x → x ∉ ids → length ids = n ∧ ∀ y, y ∈ ids → str_lt y x = true }.

Lemma heap_push_perm id l : heap_push id l ≡ₚ id :: l.
Proof. induction l as [|x l IH]; simpl; [done|]. case_match; [done|]. rewrite IH. constructor. Qed.

Lemma heap_push_sorted id l : descending l → id ∉ l → descending (heap_push id l).
Proof.
  induction 1 as [|x l Hs IH Hx]; simpl; intros Hni; [repeat constructor|].
  destruct (str_lt x id) eqn:E.
  - constructor; [by constructor|]. constructor; [done|]. eapply Forall_impl; [done|].
    intros y Hy. by apply (str_lt_trans y x id).
  - constructor; [apply IH; set_solver|]. rewrite heap_push_perm. constructor; [|done].
    destruct (str_lt_total x id) as [?|?]; [set_solver|congruence|done].
Qed.

Lemma offer_keeps n P ids id :
  (1 ≤ n)%nat → ¬ P id → keeps n P ids → keeps n (λ x, P x ∨ x = id) (offer n ids id).
Proof.
  intros Hn Hid [Hs Hsub Hlen Hrest]. assert (Hni : id ∉ ids) by (intros ?%Hsub; done).
  unfold offer. destruct (length ids <? n)%nat eqn:Hlt.
  - apply Nat.ltb_lt in Hlt. constructor; [by apply heap_push_sorted| | |].
    + intros x. rewrite heap_push_perm, elem_of_cons. naive_solver.
    + rewrite heap_push_perm. simpl. lia.
    + intros x Hx. rewrite heap_push_perm, not_elem_of_cons. intros [? Hx']. destruct Hx as [Hx| ->]; [|done].
      destruct (Hrest x Hx Hx'). lia.
  - apply Nat.ltb_ge in Hlt. destruct ids as [|root rest]; [simpl in *; lia|].
    apply StronglySorted_inv in Hs as [Hs Hroot]. rewrite Forall_forall in Hroot.
    destruct (str_lt id root) eqn:Hr.
    + constructor; [apply heap_push_sorted; set_solver| | |].
      * intros x. rewrite heap_push_perm, elem_of_cons. intros [->|?]; [by right|left; apply Hsub; by right].
      * rewrite heap_push_perm. simpl in *. lia.
      * intros x Hx. rewrite heap_push_perm, not_elem_of_cons. intros [Hxi Hxr]. destruct Hx as [Hx| ->]; [|done].
        split; [simpl in *; lia|]. intros y. rewrite heap_push_perm, elem_of_cons.
        destruct (decide (x = root)) as [->|Hne].
        -- intros [->|Hy]; [done|]. by apply Hroot.
        -- destruct (Hrest x Hx) as [_ Hgt]; [set_solver|]. pose proof (Hgt root ltac:(by left)) as Hgr.
           intros [->|Hy]; [by apply (str_lt_trans id root x)|]. apply Hgt. by right.
    + constructor; [by constructor; [done|apply Forall_forall]| |done|].
      * intros x Hx. left. by apply Hsub.
      * intros x [Hx| ->] Hxi; [by apply Hrest|]. split; [simpl in *; lia|]. intros y Hy.
        assert (str_lt root id = true) as Hgt.
        { destruct (str_lt_total root id) as [?|?]; [set_solver|done|congruence]. }
        apply elem_of_cons in Hy as [->|Hy]; [done|]. apply (str_lt_trans y root id); [by apply Hroot|done].
Qed.

Lemma offers_keep n l P ids :
  (1 ≤ n)%nat → NoDup l → (∀ x, x ∈ l → ¬ P x) → keeps n P ids →
  keeps n (λ x, P x ∨ x ∈ l) (foldl (offer n) ids l).
Proof.
  intros Hn. revert P ids. induction l as [|id l IH]; intros P ids Hnd Hdis Hk.
  - destruct Hk. constructor; try done; [naive_solver|]. intros x [?|Hx%elem_of_nil]; [auto|done].
  - simpl. apply NoDup_cons in Hnd as [Hni Hnd].
    assert (Hk' : keeps n (λ x, P x ∨ x = id) (offer n ids id)).
    { apply offer_keeps; [done| |done]. apply Hdis. by left. }
    apply IH in Hk' as [? Hsub ? Hrest]; [|done|intros x Hx [Hp| ->]; [by apply (Hdis x); [right|]|done]].
    constructor; [done| |done|].
    + intros x Hx%Hsub. rewrite elem_of_cons. naive_solver.
    + intros x Hx. rewrite elem_of_cons in Hx. apply Hrest. naive_solver.
Qed.

(** What the page of a cursor is: the first [limit] active rules it wants. *)
Record page_exact (c : AlertRuleEvaluationCursor) (limit : Z) (m : MemoryAlertStore)
    (p : AlertRuleEvaluationPage) : Prop := {
  pe_sound r : r ∈ PG_Rules p →
    rules m !! R_ID r = Some r ∧ is_active_rule r = true ∧ page_wants c (R_ID r) = true;
  pe_sorted : ascending (R_ID <$> PG_Rules p);
  pe_length : Z.of_nat (length (PG_Rules p)) ≤ limit;
  pe_complete id r : rules m !! id = Some r → is_active_rule r = true → page_wants c id = true →
    r ∈ PG_Rules p ∨ PG_Done p = false ∧ ∀ r', r' ∈ PG_Rules p → str_lt (R_ID r') id = true;
  pe_more : PG_Done p = false → Z.of_nat (length (PG_Rules p)) = limit ∧
    ∃ id r, rules m !! id = Some r ∧ is_active_rule r = true ∧ page_wants c id = true ∧ r ∉ PG_Rules p;
  pe_through : if Started c then PG_ThroughID p = ThroughID c
    else (∀ id r, rules m !! id = Some r → is_active_rule r = true → String.le id (PG_ThroughID p)) ∧
         (PG_ThroughID p = "" ∨ ∃ r, rules m !! PG_ThroughID p = Some r ∧ is_active_rule r = true) }.

Section page_facts.
Context `{MapRange}.

Lemma elem_of_active_ids m id :
  id ∈ active_ids m ↔ ∃ r, rules m !! id = Some r ∧ is_active_rule r = true.
Proof.
  unfold active_ids. rewrite list_elem_of_fmap. setoid_rewrite list_elem_of_In. setoid_rewrite filter_In.
  setoid_rewrite <-list_elem_of_In. split.
  - intros ([k r] & -> & Hin%elem_of_range & Ha). eauto.
  - intros (r & Hr%elem_of_range & Ha). by exists (id, r).
Qed.

Lemma list_filter_filter {A} (f : A → bool) l : List.filter f l = filter (λ x, f x = true) l.
Proof.
  induction l as [|x l IH]; [done|]. rewrite filter_cons. simpl. rewrite IH.
  by destruct (f x) eqn:E; case_decide.
Qed.

Lemma NoDup_active_ids m : NoDup (active_ids m).
Proof.
  unfold active_ids. rewrite list_filter_filter. eapply sublist_NoDup; [apply (NoDup_fst_range (rules m))|].
  apply fmap_sublist, sublist_filter.
Qed.

Lemma page_through_spec l t :
  let t' := foldl (λ through id, if str_lt through id then id else through) t l in
  String.le t t' ∧ (∀ x, x ∈ l → String.le x t') ∧ (t' = t ∨ t' ∈ l).
Proof.
  revert t. induction l as [|x l IH]; intros t; simpl; [split_and!; [done|by intros x ?%elem_of_nil|by left]|].
  destruct (IH (if str_lt t x then x else t)) as (H1 & H2 & H3).
  assert (String.le t (if str_lt t x then x else t) ∧ String.le x (if str_lt t x then x else t)) as [? ?].
  { destruct (str_lt t x) eqn:E; [apply str_lt_iff in E as [? _]; done|]. by apply str_lt_false in E. }
  split_and!; [by etrans| |].
  - intros y [->|?]%elem_of_cons; [by etrans|auto].
  - destruct H3 as [->|?]; [|right; by right]. destruct (str_lt t x); [right; by left|by left].
Qed.

Lemma sorted_ids_ascending (ids : list string) : NoDup ids → ascending (sort_strings ids).
Proof.
  intros Hnd. assert (Hs : StronglySorted String.le (sort_strings ids)) by (apply (StronglySorted_merge_sort String.le)). 
  assert (Hn : NoDup (sort_strings ids)) by (unfold sort_strings; by rewrite merge_sort_Permutation).
  induction Hs as [|x l Hs IH Hx]; [constructor|]. apply NoDup_cons in Hn as [Hni Hn].
  constructor; [auto|]. rewrite Forall_forall in Hx |- *. intros y Hy. apply str_lt_iff.
  split; [auto|]. by intros ->.
Qed.

Lemma ascending_take_last n (l : list string) x y :
  ascending l → x ∈ l → x ∉ take n l → y ∈ take n l → str_lt y x = true.
Proof.
  intros Hs. revert n. induction Hs as [|z l Hs IH Hz]; intros n Hx Hxn Hy; [by apply elem_of_nil in Hx|].
  destruct n; [by apply elem_of_nil in Hy|]. simpl in *. rewrite Forall_forall in Hz.
  apply elem_of_cons in Hx as [->|Hx]; [set_solver|].
  apply elem_of_cons in Hy as [->|Hy]; [by apply Hz|]. apply (IH n); set_solver.
Qed.

Lemma descending_NoDup l : descending l → NoDup l.
Proof.
  induction 1 as [|x l _ IH Hx]; constructor; [|done]. rewrite Forall_forall in Hx.
  intros Hin%Hx. by rewrite str_lt_irrefl in Hin.
Qed.

Lemma ascending_sublist (k l : list string) : k `sublist_of` l → ascending l → ascending k.
Proof.
  induction 1 as [|x k l Hs IH|x k l Hs IH]; intros Ha; [constructor|..];
    apply StronglySorted_inv in Ha as [Ha Hx]; [|auto].
  constructor; [auto|]. rewrite Forall_forall in Hx |- *. intros y Hy.
  apply Hx. by eapply elem_of_sublist.
Qed.

Lemma omap_rows m (ids : list string) :
  wf_rules m → (∀ x, x ∈ ids → is_Some (rules m !! x)) →
  R_ID <$> omap (λ id, rules m !! id) ids = ids.
Proof.
  intros Hwf. induction ids as [|x ids IH]; intros Hin; [done|]. simpl.
  destruct (Hin x ltac:(by left)) as [r Hr]. rewrite Hr. simpl.
  f_equal; [apply (ro_id _ _ (map_Forall_lookup_1 _ _ _ _ (wr_rules _ Hwf) Hr))|apply IH].
  intros y Hy. apply Hin. by right.
Qed.

Lemma elem_of_rows m (ids : list string) r :
  wf_rules m → r ∈ omap (λ id, rules m !! id) ids ↔ R_ID r ∈ ids ∧ rules m !! R_ID r = Some r.
Proof.
  intros Hwf. rewrite list_elem_of_omap. split.
  - intros (x & Hx & Hr). pose proof (ro_id _ _ (map_Forall_lookup_1 _ _ _ _ (wr_rules _ Hwf) Hr)) as Hid.
    by rewrite Hid.
  - intros [Hin Hr]. by exists (R_ID r).
Qed.

Lemma elem_of_wanted c m x :
  x ∈ List.filter (page_wants c) (active_ids m) ↔
  ∃ r, rules m !! x = Some r ∧ is_active_rule r = true ∧ page_wants c x = true.
Proof.
  rewrite list_elem_of_In, filter_In, <-list_elem_of_In, elem_of_active_ids. naive_solver.
Qed.

Lemma page_active_rules c limit m :
  wf_rules m → validateAlertRuleEvaluationPage c limit = Ok tt →
  ∃ p, PageActiveAlertRules None c limit m = Ok p ∧ page_exact c limit m p.
Proof.
  intros Hwf Hv. unfold PageActiveAlertRules. rewrite Hv. simpl. eexists. split; [done|].
  assert (Hlim : 1 ≤ limit).
  { unfold validateAlertRuleEvaluationPage in Hv. destruct (_ || _) eqn:E; [done|]. bool_prop. lia. }
  set (n := Z.to_nat limit). set (wanted := List.filter (page_wants c) (active_ids m)).
  assert (Hnd : NoDup wanted).
  { unfold wanted. rewrite list_filter_filter. apply NoDup_filter, NoDup_active_ids. }
  assert (Hk : keeps (S n) (λ x, False ∨ x ∈ wanted) (foldl (offer (S n)) [] wanted)).
  { apply offers_keep; [lia|done|auto|]. constructor; simpl; [constructor|by intros x ?%elem_of_nil|lia|done]. }
  set (ids := foldl (offer (S n)) [] wanted) in *. destruct Hk as [Hs Hsub Hlen Hrest].
  assert (Hperm : sort_strings ids ≡ₚ ids) by apply merge_sort_Permutation.
  assert (Hasc : ascending (sort_strings ids)) by by apply sorted_ids_ascending, descending_NoDup.
  assert (Hsl : length (sort_strings ids) = length ids) by by rewrite Hperm.
  assert (Hrows : R_ID <$> omap (λ id, rules m !! id) (take n (sort_strings ids)) = take n (sort_strings ids)).
  { apply omap_rows; [done|]. intros x Hx%elem_of_take_sub. rewrite Hperm in Hx.
    apply Hsub in Hx as [[]|Hx]. apply elem_of_wanted in Hx as (r & Hr & _). by exists r. }
  assert (Hl : length (omap (λ id, rules m !! id) (take n (sort_strings ids))) = length (take n (sort_strings ids))).
  { rewrite <-Hrows at 2. by rewrite length_fmap. }
  constructor; cbn [PG_Rules PG_ThroughID PG_Done]; fold n.
  - intros r [Hin Hr]%elem_of_rows; [|done]. apply elem_of_take_sub in Hin. rewrite Hperm in Hin.
    apply Hsub in Hin as [[]|Hin]. apply elem_of_wanted in Hin as (r' & Hr' & ? & ?). by simplify_eq.
  - rewrite Hrows. eapply ascending_sublist; [|done]. apply sublist_take.
  - rewrite Hl, length_take. lia.
  - intros id r Hr Ha Hw. pose proof (ro_id _ _ (map_Forall_lookup_1 _ _ _ _ (wr_rules _ Hwf) Hr)) as Hid.
    destruct (decide (id ∈ take n (sort_strings ids))) as [Hin|Hni].
    { left. apply elem_of_rows; [done|]. by rewrite Hid. }
    right. assert (Hwn : False ∨ id ∈ wanted) by (right; apply elem_of_wanted; eauto).
    destruct (decide (id ∈ ids)) as [Hii|Hnii].
    + assert (Hover : (n < length ids)%nat).
      { apply Nat.nle_gt. intros Hle. apply Hni. rewrite take_ge by lia. by rewrite Hperm. }
      split; [by apply Nat.leb_gt|]. intros r' [Hr' _]%elem_of_rows; [|done].
      eapply (ascending_take_last n); [done| |done|done]. by rewrite Hperm.
    + destruct (Hrest id Hwn Hnii) as [Hfull Hlt]. split; [apply Nat.leb_gt; lia|].
      intros r' [Hr' _]%elem_of_rows; [|done]. apply Hlt. apply elem_of_take_sub in Hr'. by rewrite Hperm in Hr'.
  - intros Hmore%Nat.leb_gt. assert (Hfull : length ids = S n) by lia.
    split; [rewrite Hl, length_take; lia|].
    destruct (lookup_lt_is_Some_2 (sort_strings ids) n) as [x Hx]; [lia|].
    assert (Hin : x ∈ ids) by (rewrite <-Hperm; by eapply list_elem_of_lookup_2).
    apply Hsub in Hin as [[]|Hin]. apply elem_of_wanted in Hin as (r & Hr & Ha & Hw).
    pose proof (ro_id _ _ (map_Forall_lookup_1 _ _ _ _ (wr_rules _ Hwf) Hr)) as Hid.
    exists x, r. split_and!; try done. intros [Hin _]%elem_of_rows; [|done]. rewrite Hid in Hin.
    apply list_elem_of_lookup in Hin as [j Hj]. apply lookup_take_Some in Hj as [Hj Hjn].
    assert (NoDup (sort_strings ids)) as Hnds by (rewrite Hperm; by apply descending_NoDup).
    pose proof (NoDup_lookup _ _ _ _ Hnds Hj Hx). lia.
  - unfold page_through. destruct (Started c) eqn:Est; [done|].
    assert (ThroughID c = "") as ->.
    { unfold validateAlertRuleEvaluationPage in Hv. rewrite Est in Hv.
      repeat (let E := fresh in case_match eqn:E; [done|]). simpl in *. bool_prop. done. }
    destruct (page_through_spec (active_ids m) "") as (_ & Hmax & Hor). split.
    + intros id r Hr Ha. apply Hmax, elem_of_active_ids. eauto.
    + destruct Hor as [?|Hin]; [by left|right]. by apply elem_of_active_ids in Hin.
Qed.
End page_facts.

(** ** A concrete store *)

Definition demo_rule_req : CreateRuleRequest := {|
  CR_Name := "cpu"; CR_Description := ""; CR_Status := "Active"; CR_Kind := "metric_threshold";
  CR_Severity := "high"; CR_TargetScope := "global"; CR_CooldownSeconds := None;
  CR_ReopenAfterSeconds := None; CR_EvaluationIntervalSeconds := Some 60; CR_WindowSeconds := None;
  CR_Condition := []; CR_Labels := ∅; CR_Metadata := ∅; CR_Targets := []; CR_CreatedBy := "" |}.

Definition demo_evaluation : Evaluation := {|
  E_ID := ""; E_RuleID := ""; E_Status := "ok"; E_EvaluatedAt := 20; E_DurationMS := -3;
  E_CandidateCount := 1; E_TriggeredCount := 0; E_Error := ""; E_Details := [] |}.

Definition demo_store : MemoryAlertStore := (CreateAlertRule 10 "arl_1" demo_name demo_rule_req NewMemoryAlertStore).1.

Lemma demo_store_reachable : rule_steps (∅, NewMemoryAlertStore) ({["arl_1"]} ∪ ∅, demo_store).
Proof. apply rtc_once. by apply step_create. Defined.

Lemma rule_store_invariant_witness :
  wf_rules (RecordAlertEvaluationContext None 30 "e1" " arl_1 " demo_evaluation demo_store).1.
Proof.
  eapply rule_store_invariant. eapply rtc_r; [apply demo_store_reachable|]. apply step_record.
Defined.

Lemma claims_spaced_witness :
  let m1 := (ClaimAlertRuleEvaluation None "arl_1" (100 * Second) demo_store).1 in
  ∃ r, rules m1 !! "arl_1" = Some r ∧ R_Status r = RuleStatusActive ∧
    100 * Second + R_EvaluationIntervalSeconds r * Second ≤ 160 * Second.
Proof.
  intros m1.
  apply (claims_spaced ({["arl_1"]} ∪ ∅) demo_store None "arl_1" (100 * Second) m1 ({["arl_1"]} ∪ ∅, m1) None (160 * Second)
    (ClaimAlertRuleEvaluation None "arl_1" (160 * Second) m1).1).
  - apply demo_store_reachable.
  - vm_compute. reflexivity.
  - apply rtc_refl.
  - vm_compute. reflexivity.
Defined.
