(* ===== verification/AlertSweep.v ===== *)
(** * The sweep of the alert evaluator over the rules

    [evaluateAlertRuleSlice] of [internal/hubapi/alerting/alert_rule_evaluation_cursor.go]
    as a step relation.  A tick of the evaluator pages through the active
    rules from a cursor that outlives the tick, claims each rule of the page and moves the
    cursor over it; it gives up wherever its context is done.  Between two steps the
    rule store may change in any way (users edit rules, evaluations
    are recorded).  The evaluation of a claimed rule is [AlertEvaluator]; here it is one
    of those changes. *)

From S2P Require Import Prelude GoStrings Alerts AlertRules.

(** The loop over the rows of a page, from the id before them. *)
Fixpoint valid_rows (previous through : string) (l : list Rule) : bool :=
  match l with
  | [] => true
  | r :: l => if String.leb (R_ID r) previous || str_lt through (R_ID r)
                 || negb (bool_decide (R_Status r = RuleStatusActive))
              then false else valid_rows (R_ID r) through l
  end.

Definition validAlertRuleEvaluationPage (c : AlertRuleEvaluationCursor) (p : AlertRuleEvaluationPage) : bool :=
  if (AlertRuleEvaluationPageSize <? Z.of_nat (length (PG_Rules p)))
     || (negb (PG_Done p) && (length (PG_Rules p) =? 0)%nat)
     || (Started c && negb (bool_decide (PG_ThroughID p = ThroughID c)))
     || str_lt (PG_ThroughID p) (AfterID c)
  then false else valid_rows (AfterID c) (PG_ThroughID p) (PG_Rules p).

(** Where the slice is: not running, about to ask for a page, or working
    through the rest of a page. *)
Inductive phase := Idle | Paging | Considering (rest : list Rule) (done : bool).

(** [seen] and [always] are observations, not state of the program: the ids
    considered since the sweep began, in order, and the ids of the rules that have been
    active at every step since. *)
Record sweeper := MkSweeper {
  issued : gset string;
  store : MemoryAlertStore;
  cursor : AlertRuleEvaluationCursor;
  at_phase : phase;
  seen : list string;
  always : gset string }.

Definition active_set (m : MemoryAlertStore) : gset string :=
  dom (filter (λ kv, is_active_rule kv.2 = true) (rules m)).

Definition new_sweeper : sweeper := MkSweeper ∅ NewMemoryAlertStore zero_cursor Idle [] ∅.

Section steps.
Context `{MapRange}.

(** One page of the loop. *)
Definition slice_page (ctx : Ctx) (s : sweeper) : sweeper :=
  match PageActiveAlertRules ctx (cursor s) AlertRuleEvaluationPageSize (store s) with
  | Err _ => MkSweeper (issued s) (store s) (cursor s) Idle (seen s) (always s)
  | Ok p =>
      if negb (validAlertRuleEvaluationPage (cursor s) p)
      then MkSweeper (issued s) (store s) (cursor s) Idle (seen s) (always s)
      else MkSweeper (issued s) (store s) (MkCursor true (AfterID (cursor s)) (PG_ThroughID p))
             (Considering (PG_Rules p) (PG_Done p))
             (if Started (cursor s) then seen s else [])
             (if Started (cursor s) then always s else active_set (store s))
  end.

(** One rule of the page: claim it, and move the cursor whatever came of it. *)
Definition slice_rule (ctx : Ctx) (at_ : time) (r : Rule) (rest : list Rule) (done : bool) (s : sweeper) :
    sweeper :=
  let m := (ClaimAlertRuleEvaluation ctx (R_ID r) at_ (store s)).1 in
  MkSweeper (issued s) m (MkCursor (Started (cursor s)) (R_ID r) (ThroughID (cursor s)))
    (Considering rest done) (seen s ++ [R_ID r]) (always s ∩ active_set m).

Definition with_phase (ph : phase) (s : sweeper) : sweeper :=
  MkSweeper (issued s) (store s) (cursor s) ph (seen s) (always s).

Inductive sweep_step : sweeper → sweeper → Prop :=
| sweep_start s : at_phase s = Idle → sweep_step s (with_phase Paging s)
| sweep_stop s : sweep_step s (with_phase Idle s)
| sweep_page ctx s : at_phase s = Paging → sweep_step s (slice_page ctx s)
| sweep_rule ctx at_ r rest done s : at_phase s = Considering (r :: rest) done →
    sweep_step s (slice_rule ctx at_ r rest done s)
| sweep_next s : at_phase s = Considering [] false → sweep_step s (with_phase Paging s)
| sweep_finish s : at_phase s = Considering [] true →
    sweep_step s (MkSweeper (issued s) (store s) zero_cursor Idle (seen s) (always s))
| sweep_other s u' m' : rule_step (issued s, store s) (u', m') →
    sweep_step s (MkSweeper u' m' (cursor s) (at_phase s) (seen s) (always s ∩ active_set m')).

(** ** Invariant *)

(** The rest of a page covers what is left of the sweep, or is followed by more pages. *)
Definition page_covers (after : string) (al : gset string) (rest : list Rule) (done : bool) : Prop :=
  ∀ id, id ∈ al → str_lt after id = true →
    id ∈ R_ID <$> rest ∨ done = false ∧ ∀ r, r ∈ rest → str_lt (R_ID r) id = true.

Record sweep_inv (s : sweeper) : Prop := {
  si_wf : wf_rules (store s);
  si_cursor : if Started (cursor s) then String.le (AfterID (cursor s)) (ThroughID (cursor s))
              else cursor s = zero_cursor;
  si_seen : Started (cursor s) = true → ascending (seen s) ∧ Forall (λ x, String.le x (AfterID (cursor s))) (seen s);
  si_always : Started (cursor s) = true → ∀ id, id ∈ always s →
    id ∈ active_set (store s) ∧ String.le id (ThroughID (cursor s)) ∧
    (id ≠ "" → String.le id (AfterID (cursor s)) → id ∈ seen s);
  si_page rest done : at_phase s = Considering rest done → Started (cursor s) = true ∧
    ascending (AfterID (cursor s) :: (R_ID <$> rest)) ∧
    Forall (λ r, String.le (R_ID r) (ThroughID (cursor s))) rest ∧
    page_covers (AfterID (cursor s)) (always s) rest done }.

Lemma elem_of_active_set m id :
  id ∈ active_set m ↔ ∃ r, rules m !! id = Some r ∧ is_active_rule r = true.
Proof.
  unfold active_set. rewrite elem_of_dom. unfold is_Some. setoid_rewrite map_lookup_filter_Some. done.
Qed.

Lemma sweep_inv_init : sweep_inv new_sweeper.
Proof. constructor; simpl; try done. Qed.

Lemma page_wants_spec c id :
  page_wants c id = true ↔ str_lt (AfterID c) id = true ∧ (Started c = true → String.le id (ThroughID c)).
Proof.
  unfold page_wants, str_lt. rewrite negb_true_iff, orb_false_iff, andb_false_iff, !negb_true_iff, negb_false_iff, str_leb_iff.
  destruct (Started c); naive_solver.
Qed.

Lemma valid_rows_ok after through l :
  ascending (after :: (R_ID <$> l)) → Forall (λ r, String.le (R_ID r) through) l →
  Forall (λ r, is_active_rule r = true) l → valid_rows after through l = true.
Proof.
  revert after. induction l as [|r l IH]; intros after Ha Ht Hs; [done|]. simpl in *.
  apply StronglySorted_inv in Ha as [Ha Hx]. apply Forall_cons in Ht as [Ht Hts]. apply Forall_cons in Hs as [Hr Hs].
  apply Forall_cons in Hx as [Hx _]. unfold is_active_rule in Hr. apply str_lt_false in Ht.
  unfold str_lt in Hx. apply negb_true_iff in Hx. rewrite Ht, Hr, Hx. simpl. by apply IH.
Qed.

(** The facts about a page that the evaluator needs. *)
Lemma page_usable c m p :
  page_exact c AlertRuleEvaluationPageSize m p →
  (if Started c then String.le (AfterID c) (ThroughID c) else c = zero_cursor) →
  ascending (AfterID c :: (R_ID <$> PG_Rules p)) ∧
  Forall (λ r, String.le (R_ID r) (PG_ThroughID p)) (PG_Rules p) ∧
  String.le (AfterID c) (PG_ThroughID p) ∧
  (Started c = true → PG_ThroughID p = ThroughID c) ∧
  validAlertRuleEvaluationPage c p = true.
Proof.
  intros [Hsound Hsort Hlen Hcomp Hmore Hth] Hc.
  assert (Hasc : ascending (AfterID c :: (R_ID <$> PG_Rules p))).
  { constructor; [done|]. rewrite Forall_forall. intros x (r & -> & Hr)%list_elem_of_fmap.
    apply Hsound in Hr as (_ & _ & Hw). by apply page_wants_spec in Hw as [? _]. }
  assert (Hle : Forall (λ r, String.le (R_ID r) (PG_ThroughID p)) (PG_Rules p)).
  { rewrite Forall_forall. intros r Hr. destruct (Hsound _ Hr) as (Hrow & Ha & Hw).
    apply page_wants_spec in Hw as [_ Hw]. destruct (Started c); [rewrite Hth; auto|].
    destruct Hth as [Hth _]. by eapply Hth. }
  assert (Hat : String.le (AfterID c) (PG_ThroughID p)).
  { destruct (Started c); [by rewrite Hth|]. subst c. apply str_empty_le. }
  assert (Hst : Started c = true → PG_ThroughID p = ThroughID c).
  { intros Hs. by rewrite Hs in Hth. }
  split_and!; try done. unfold validAlertRuleEvaluationPage.
  assert (Hact : Forall (λ r, is_active_rule r = true) (PG_Rules p)).
  { rewrite Forall_forall. intros r Hr. by destruct (Hsound _ Hr) as (_ & ? & _). }
  rewrite (valid_rows_ok _ _ _ Hasc Hle Hact). apply str_lt_false in Hat. rewrite Hat.
  assert ((AlertRuleEvaluationPageSize <? Z.of_nat (length (PG_Rules p))) = false) as -> by (apply Z.ltb_ge; lia).
  assert (negb (PG_Done p) && (length (PG_Rules p) =? 0)%nat = false) as ->.
  { destruct (PG_Done p) eqn:E; [done|]. simpl. destruct (Hmore eq_refl) as [Hl _].
    apply Nat.eqb_neq. unfold AlertRuleEvaluationPageSize in Hl. lia. }
  destruct (Started c); simpl; [|done]. by rewrite bool_decide_eq_true_2 by auto.
Qed.

Lemma validate_cursor c :
  (if Started c then String.le (AfterID c) (ThroughID c) else c = zero_cursor) →
  validateAlertRuleEvaluationPage c AlertRuleEvaluationPageSize = Ok tt.
Proof.
  unfold validateAlertRuleEvaluationPage. simpl. destruct (Started c) eqn:E; [|by intros ->].
  intros Hle%str_lt_false. by rewrite Hle.
Qed.

Lemma slice_page_inv ctx s : sweep_inv s → at_phase s = Paging → sweep_inv (slice_page ctx s).
Proof.
  intros Hi Hp. unfold slice_page.
  assert (Hidle : sweep_inv (MkSweeper (issued s) (store s) (cursor s) Idle (seen s) (always s))).
  { destruct Hi. by constructor. }
  destruct ctx as [e|].
  { unfold PageActiveAlertRules. rewrite validate_cursor by apply Hi. simpl. done. }
  destruct (page_active_rules (cursor s) AlertRuleEvaluationPageSize (store s)) as (p & -> & Hex);
    [apply Hi|apply validate_cursor, Hi|].
  destruct (page_usable _ _ _ Hex (si_cursor _ Hi)) as (Hasc & Hle & Hat & Hst & Hval). rewrite Hval. simpl.
  destruct Hi as [Hwf Hcur Hseen Halw Hpg]. constructor; simpl; try done.
  - intros _. destruct (Started (cursor s)) eqn:E; [by apply Hseen|]. split; [constructor|done].
  - intros _ id Hid. destruct (Started (cursor s)) eqn:E.
    + rewrite Hst by done. by apply Halw.
    + split; [done|]. apply elem_of_active_set in Hid as (r & Hr & Ha).
      pose proof (pe_through _ _ _ _ Hex) as Hth. rewrite E in Hth. destruct Hth as [Hth _].
      split; [by eapply Hth|]. rewrite Hcur. simpl. intros Hne Hle'. destruct Hne.
      apply (anti_symm String.le); [done|apply str_empty_le].
  - intros rest done [= <- <-]. split_and!; try done. intros id Hid Hafter.
    assert (Hrow : ∃ r, rules (store s) !! id = Some r ∧ is_active_rule r = true ∧ page_wants (cursor s) id = true).
    { destruct (Started (cursor s)) eqn:E.
      - destruct (Halw eq_refl _ Hid) as (Hset & Hthr & _). apply elem_of_active_set in Hset as (r & ? & ?).
        exists r. split_and!; try done. by apply page_wants_spec.
      - apply elem_of_active_set in Hid as (r & ? & ?). exists r. split_and!; try done.
        apply page_wants_spec. rewrite E. done. }
    destruct Hrow as (r & Hr & Ha & Hw).
    destruct (pe_complete _ _ _ _ Hex _ _ Hr Ha Hw) as [Hin|Hmore]; [left|by right].
    apply list_elem_of_fmap. exists r. split; [|done].
    by rewrite (ro_id _ _ (map_Forall_lookup_1 _ _ _ _ (wr_rules _ Hwf) Hr)).
Qed.

Lemma ascending_snoc l x : ascending l → Forall (λ y, str_lt y x = true) l → ascending (l ++ [x]).
Proof.
  induction 1 as [|y l Hs IH Hy]; intros Hx; simpl; [repeat constructor|].
  apply Forall_cons in Hx as [Hyx Hx]. constructor; [auto|]. apply Forall_app. by split; [|constructor].
Qed.

Lemma slice_rule_inv ctx at_ r rest done s :
  sweep_inv s → at_phase s = Considering (r :: rest) done → sweep_inv (slice_rule ctx at_ r rest done s).
Proof.
  intros [Hwf Hcur Hseen Halw Hpg] Hp. destruct (Hpg _ _ Hp) as (Hst & Hasc & Hle & Hcov). rewrite Hst in Hcur.
  apply Forall_cons in Hle as [Hr Hle]. simpl in Hasc. pose proof Hasc as Hasc0.
  apply StronglySorted_inv in Hasc as [Hasc Haft]. apply Forall_cons in Haft as [Haft _].
  destruct (Hseen Hst) as [Hsa Hsl].
  unfold slice_rule. constructor; simpl.
  - eapply (rule_step_wf (issued s) (store s)); [apply step_claim|done].
  - by rewrite Hst.
  - intros _. split.
    + apply ascending_snoc; [done|]. eapply Forall_impl; [done|]. intros y Hy. exact (str_le_lt_trans _ _ _ Hy Haft).
    + apply Forall_app. split; [|by constructor]. eapply Forall_impl; [done|]. intros y Hy. simpl in Hy.
      etrans; [done|]. by apply str_lt_iff in Haft as [? _].
  - intros _ id [Hid Hset]%elem_of_intersection. destruct (Halw Hst _ Hid) as (_ & Hth & Hin).
    split_and!; try done. intros Hne Hidle. apply elem_of_app.
    destruct (str_lt (AfterID (cursor s)) id) eqn:E; [right|left; apply Hin; [done|by apply str_lt_false]].
    destruct (Hcov _ Hid E) as [Hrest|[_ Hlt]].
    + simpl in Hrest. apply elem_of_cons in Hrest as [->|Hrest]; [by left|].
      apply StronglySorted_inv in Hasc as [_ Hx]. rewrite Forall_forall in Hx. apply Hx in Hrest.
      apply str_lt_false in Hidle. congruence.
    + specialize (Hlt r ltac:(by left)). apply str_lt_false in Hidle. congruence.
  - intros rest' done' [= <- <-]. split_and!; try done.
    intros id [Hid _]%elem_of_intersection Hgt.
    destruct (Hcov _ Hid) as [Hrest|[? Hlt]]; [by eapply str_lt_trans| |].
    + left. simpl in Hrest. apply elem_of_cons in Hrest as [->|?]; [|done]. by rewrite str_lt_irrefl in Hgt.
    + right. split; [done|]. intros r' Hr'. apply Hlt. by right.
Qed.

Lemma sweep_step_inv s s' : sweep_step s s' → sweep_inv s → sweep_inv s'.
Proof.
  intros Hs Hi. destruct Hs as [s Hp|s|ctx s Hp|ctx at_ r rest done s Hp|s Hp|s Hp|s u' m' Hr].
  - destruct Hi. by constructor.
  - destruct Hi. by constructor.
  - by apply slice_page_inv.
  - by apply slice_rule_inv.
  - destruct Hi. by constructor.
  - destruct Hi. by constructor.
  - destruct Hi as [Hwf Hcur Hseen Halw Hpg]. constructor; simpl; try done.
    + by eapply rule_step_wf.
    + intros Hst id [Hid Hset]%elem_of_intersection. destruct (Halw Hst _ Hid) as (_ & ? & ?). done.
    + intros rest done Hp. destruct (Hpg _ _ Hp) as (? & ? & ? & Hcov). split_and!; try done.
      intros id [Hid _]%elem_of_intersection. by apply Hcov.
Qed.

Lemma sweep_steps_inv s s' : rtc sweep_step s s' → sweep_inv s → sweep_inv s'.
Proof. induction 1; [done|]. intros Hi. eauto using sweep_step_inv. Qed.

(** C22: a sweep considers each rule at most once, in ascending order of id, and when it
    ends it has considered every rule that was active all along, however many ticks
    it took, wherever their contexts ended and whatever happened to the other rules meanwhile; so no rule is starved
    by rules before it. *)
Theorem sweep_fair s :
  rtc sweep_step new_sweeper s → Started (cursor s) = true →
  ascending (seen s) ∧ NoDup (seen s) ∧
  (at_phase s = Considering [] true → ∀ id, id ∈ always s → id ≠ "" → id ∈ seen s).
Proof.
  intros Hs Hst. apply sweep_steps_inv in Hs; [|apply sweep_inv_init].
  destruct Hs as [_ _ Hseen Halw Hpg]. destruct (Hseen Hst) as [Ha _].
  split_and!; [done| |].
  - clear -Ha. induction Ha as [|x l _ IH Hx]; constructor; [|done]. rewrite Forall_forall in Hx.
    intros Hin%Hx. by rewrite str_lt_irrefl in Hin.
  - intros Hp id Hid Hne. destruct (Hpg _ _ Hp) as (_ & _ & _ & Hcov).
    destruct (Halw Hst _ Hid) as (_ & _ & Hin). apply Hin; [done|].
    destruct (str_lt (AfterID (cursor s)) id) eqn:E; [|by apply str_lt_false].
    destruct (Hcov _ Hid E) as [Hx|[? _]]; [by apply elem_of_nil in Hx|done].
Qed.

(** A page of the rule store is exactly the next [128] active rules after
    the cursor in ascending order of id, up to the bound fixed when the sweep began, and says truthfully whether
    more follow; it always passes the evaluator's validation, so with a live
    context a tick never stalls on a page. *)
Theorem page_serves_sweep s :
  rtc sweep_step new_sweeper s → at_phase s = Paging →
  ∃ p, PageActiveAlertRules None (cursor s) AlertRuleEvaluationPageSize (store s) = Ok p ∧
    page_exact (cursor s) AlertRuleEvaluationPageSize (store s) p ∧
    validAlertRuleEvaluationPage (cursor s) p = true ∧
    at_phase (slice_page None s) = Considering (PG_Rules p) (PG_Done p).
Proof.
  intros Hs Hp. apply sweep_steps_inv in Hs; [|apply sweep_inv_init].
  destruct (page_active_rules (cursor s) AlertRuleEvaluationPageSize (store s)) as (p & Hpage & Hex);
    [apply Hs|apply validate_cursor, Hs|].
  destruct (page_usable _ _ _ Hex (si_cursor _ Hs)) as (_ & _ & _ & _ & Hval).
  exists p. split_and!; try done. unfold slice_page. by rewrite Hpage, Hval.
Qed.
End steps.

(** ** A concrete sweep *)

#[local] Existing Instance range_in_key_order.

Definition demo_sweeper : sweeper := MkSweeper ({["arl_1"]} ∪ ∅) demo_store zero_cursor Idle [] (∅ ∩ active_set demo_store).

Lemma demo_sweeper_reachable : rtc sweep_step new_sweeper demo_sweeper.
Proof. apply rtc_once. apply (sweep_other new_sweeper). by apply step_create. Defined.

Definition demo_paging : sweeper := with_phase Paging demo_sweeper.
Definition demo_considering : sweeper := slice_page None demo_paging.

Lemma sweep_fair_witness :
  ∃ s, Started (cursor s) = true ∧ at_phase s = Considering [] true ∧ "arl_1" ∈ always s ∧ "arl_1" ∈ seen s.
Proof.
  set (r := default (new_rule 0 "" demo_name demo_rule_req
    {| Cooldown := 0; Reopen := 0; Interval := 0; Window := 0 |}) (rules demo_store !! "arl_1")).
  exists (slice_rule None (100 * Second) r [] true demo_considering).
  assert (Hreach : rtc sweep_step new_sweeper (slice_rule None (100 * Second) r [] true demo_considering)).
  { eapply rtc_r; [eapply rtc_r; [eapply rtc_r; [apply demo_sweeper_reachable|by apply sweep_start]|]|].
    - by apply (sweep_page None demo_paging).
    - apply (sweep_rule None (100 * Second) r [] true demo_considering). vm_compute. reflexivity. }
  destruct (sweep_fair _ Hreach) as (_ & _ & Hall); [vm_compute; reflexivity|].
  assert (Hal : "arl_1" ∈ always (slice_rule None (100 * Second) r [] true demo_considering)).
  { apply (bool_decide_eq_true_1 _). vm_compute. reflexivity. }
  split_and!; [vm_compute; reflexivity|vm_compute; reflexivity|exact Hal|].
  apply Hall; [vm_compute; reflexivity|exact Hal|done].
Defined.

Lemma page_serves_sweep_witness :
  ∃ p, PageActiveAlertRules None zero_cursor AlertRuleEvaluationPageSize demo_store = Ok p ∧
    validAlertRuleEvaluationPage zero_cursor p = true.
Proof.
  destruct (page_serves_sweep demo_paging) as (p & Hp & _ & Hv & _).
  - eapply rtc_r; [apply demo_sweeper_reachable|by apply sweep_start].
  - reflexivity.
  - exists p. split; [exact Hp|exact Hv].
Defined.
