(* ===== verification/JobQueue.v ===== *)
(** * The job queue

    [internal/jobqueue]: the queue table as its SQL statements read and write
    it ([queue.go], [recovery.go]), the completion of a claim together with
    its business result ([internal/persistence/postgres_job_execution.go]) and what a
    worker does with one claim ([worker.go]).

    Each SQL statement, and each transaction, is one step on the table: they
    select their rows [FOR UPDATE].  The rows that other transactions hold locked, which
    [SKIP LOCKED] passes over, are the argument [skip].  A statement that the
    database refuses changes nothing.  [time.Now()] and [idgen.New] are
    arguments. *)

From S2P Require Import Prelude GoStrings.

(** ** Types *)

Definition KindTerminalCommand := "terminal_command".
Definition KindActionRun := "action_run".
Definition KindUpdateRun := "update_run".
Definition KindScheduleRun := "schedule_run".
Definition ValidKinds : list string := [KindTerminalCommand; KindActionRun; KindUpdateRun; KindScheduleRun].

Inductive JobStatus := Queued | Processing | Completed | Failed | DeadLettered.
#[export] Instance JobStatus_eq_dec : EqDecision JobStatus.
Proof. solve_decision. Defined.

Record Job := {
  J_ID : string; J_Kind : string; J_Status : JobStatus; J_Payload : string; J_Attempts : Z;
  J_MaxAttempts : Z; J_Error : string; J_CreatedAt : time; J_UpdatedAt : time;
  J_AvailableAt : time; J_LockedAt : option time; J_CompletedAt : option time;
  J_LockToken : option string }.
#[export] Instance Job_eq_dec : EqDecision Job.
Proof. solve_decision. Defined.

Inductive queue_error :=
| ErrClaimLost
| ErrInvalidKind
| ErrIntegerRange (* integer out of range, raised by the database *)
| ErrFinalizer. (* the dead letter finalizer failed *)
#[export] Instance queue_error_eq_dec : EqDecision queue_error.
Proof. solve_decision. Defined.

(** The table [job_queue], by primary key. *)
Abbreviation table := (gmap string Job).

Definition ValidateKind (kind : string) : result queue_error unit :=
  guard_err (negb (bool_decide (kind ∈ ValidKinds))) ErrInvalidKind.

(** [New]: the effective number of attempts and claim timeout. *)
Definition new_max_attempts (maxAttempts : Z) : Z := if maxAttempts <=? 0 then 5 else maxAttempts.
Definition new_stale_claim (pollInterval : duration) : duration :=
  let pollInterval := if pollInterval <=? 0 then 500000000 else pollInterval in
  Z.max (pollInterval * 20) (30 * Second).

Definition leaseHeartbeatInterval (staleClaimAt : duration) : duration :=
  if staleClaimAt <=? 0 then 10 * Second
  else let interval := Z.quot staleClaimAt 3 in
       if interval <? 5 * Second then 5 * Second else interval.

(** ** Statements *)

Definition new_job (now : time) (id kind payload : string) (maxAttempts : Z) : Job :=
  {| J_ID := id; J_Kind := kind; J_Status := Queued; J_Payload := payload; J_Attempts := 0;
     J_MaxAttempts := maxAttempts; J_Error := ""; J_CreatedAt := now; J_UpdatedAt := now;
     J_AvailableAt := now; J_LockedAt := None; J_CompletedAt := None; J_LockToken := None |}.

Definition Enqueue (now : time) (newid kind payload : string) (maxAttempts : Z) (t : table) :
    table * result queue_error string :=
  match ValidateKind kind with
  | Err e => (t, Err e)
  | Ok _ => (<[newid := new_job now newid kind payload (new_max_attempts maxAttempts)]> t, Ok newid)
  end.

Definition claim_job (now : time) (token : string) (j : Job) : Job :=
  {| J_ID := J_ID j; J_Kind := J_Kind j; J_Status := Processing; J_Payload := J_Payload j;
     J_Attempts := J_Attempts j + 1; J_MaxAttempts := J_MaxAttempts j; J_Error := J_Error j;
     J_CreatedAt := J_CreatedAt j; J_UpdatedAt := now; J_AvailableAt := J_AvailableAt j;
     J_LockedAt := Some now; J_CompletedAt := J_CompletedAt j; J_LockToken := Some token |}.

Definition claimable (now : time) (skip : gset string) (id : string) (j : Job) : bool :=
  bool_decide (J_Status j = Queued) && (J_AvailableAt j <=? now) && bool_decide (id ∉ skip).

(** [ORDER BY available_at ASC, created_at ASC LIMIT 1]: rows that tie come in any order. *)
Definition older (x y : Job) : bool :=
  (J_AvailableAt x <? J_AvailableAt y)
  || ((J_AvailableAt x =? J_AvailableAt y) && (J_CreatedAt x <? J_CreatedAt y)).

Fixpoint oldest (l : list (string * Job)) : option (string * Job) :=
  match l with
  | [] => None
  | x :: l => match oldest l with
              | Some y => if older y.2 x.2 then Some y else Some x
              | None => Some x
              end
  end.

Definition Claim `{MapRange} (now : time) (token : string) (skip : gset string) (t : table) :
    table * option Job :=
  match oldest (List.filter (λ kv, claimable now skip kv.1 kv.2) (range t)) with
  | None => (t, None)
  | Some (id, j) => let j' := claim_job now token j in (<[id := j']> t, Some j')
  end.

(** [WHERE id = $1 AND status = 'processing' AND lock_token = $2] *)
Definition held (id token : string) (t : table) : option Job :=
  match t !! id with
  | Some j => if bool_decide (J_Status j = Processing) && bool_decide (J_LockToken j = Some token)
              then Some j else None
  | None => None
  end.

Definition complete_job (now : time) (j : Job) : Job :=
  {| J_ID := J_ID j; J_Kind := J_Kind j; J_Status := Completed; J_Payload := J_Payload j;
     J_Attempts := J_Attempts j; J_MaxAttempts := J_MaxAttempts j; J_Error := J_Error j;
     J_CreatedAt := J_CreatedAt j; J_UpdatedAt := now; J_AvailableAt := J_AvailableAt j;
     J_LockedAt := None; J_CompletedAt := Some now; J_LockToken := None |}.

Definition Complete (now : time) (id token : string) (t : table) : table * result queue_error unit :=
  match held id token t with
  | None => (t, Err ErrClaimLost)
  | Some j => (<[id := complete_job now j]> t, Ok tt)
  end.

Definition renew_job (now : time) (j : Job) : Job :=
  {| J_ID := J_ID j; J_Kind := J_Kind j; J_Status := J_Status j; J_Payload := J_Payload j;
     J_Attempts := J_Attempts j; J_MaxAttempts := J_MaxAttempts j; J_Error := J_Error j;
     J_CreatedAt := J_CreatedAt j; J_UpdatedAt := now; J_AvailableAt := J_AvailableAt j;
     J_LockedAt := Some now; J_CompletedAt := J_CompletedAt j; J_LockToken := J_LockToken j |}.

Definition RenewClaim (now : time) (id token : string) (t : table) : table * result queue_error unit :=
  match held id token t with
  | None => (t, Err ErrClaimLost)
  | Some j => (<[id := renew_job now j]> t, Ok tt)
  end.

(** [LEAST(30, CAST(power(2, GREATEST(attempts - 1, 0)) AS int))] seconds; a
    power that is not an [int] is an error of the database. *)
Definition backoff_seconds (attempts : Z) : option Z :=
  let p := 2 ^ Z.max (attempts - 1) 0 in
  if 2 ^ 31 - 1 <? p then None else Some (Z.min 30 p).

(** The row after a failed claim; [error] is the new error text for a row that is
    [dead] or not. *)
Definition release_job (now : time) (error : bool → string) (completedAt : option time) (j : Job) : option Job :=
  let dead := J_MaxAttempts j <=? J_Attempts j in
  let row availableAt :=
    {| J_ID := J_ID j; J_Kind := J_Kind j; J_Status := if dead then DeadLettered else Queued;
       J_Payload := J_Payload j; J_Attempts := J_Attempts j; J_MaxAttempts := J_MaxAttempts j;
       J_Error := error dead; J_CreatedAt := J_CreatedAt j; J_UpdatedAt := now;
       J_AvailableAt := availableAt; J_LockedAt := None;
       J_CompletedAt := if dead then Some now else completedAt; J_LockToken := None |} in
  if dead then Some (row (J_AvailableAt j))
  else match backoff_seconds (J_Attempts j) with
       | Some s => Some (row (now + s * Second))
       | None => None
       end.

Definition fail_job (now : time) (errMsg : string) (j : Job) : option Job :=
  release_job now (λ _, errMsg) (J_CompletedAt j) j.

(** [finalize] is the dead letter finalizer: whether it succeeds on a row. *)
Definition Fail (finalize : Job → bool) (now : time) (id token errMsg : string) (t : table) :
    table * result queue_error unit :=
  match held id token t with
  | None => (t, Err ErrClaimLost)
  | Some j =>
      match fail_job now errMsg j with
      | None => (t, Err ErrIntegerRange)
      | Some j' =>
          if bool_decide (J_Status j' = DeadLettered) && negb (finalize j') then (t, Err ErrFinalizer)
          else (<[id := j']> t, Ok tt)
      end
  end.

Definition recover_job (now : time) (j : Job) : option Job :=
  release_job now (λ dead, if is_empty (J_Error j)
                           then if dead then "job claim timed out after max attempts"
                                else "job claim timed out; retrying"
                           else J_Error j) None j.

Definition expired (now : time) (staleClaimAt : duration) (skip : gset string) (id : string) (j : Job) : bool :=
  bool_decide (J_Status j = Processing) && bool_decide (id ∉ skip)
  && match J_LockedAt j with Some l => l <? now - staleClaimAt | None => false end.

(** [ORDER BY locked_at, id] *)
Definition locked_before (x y : string * Job) : Prop :=
  default 0 (J_LockedAt x.2) < default 0 (J_LockedAt y.2)
  ∨ J_LockedAt x.2 = J_LockedAt y.2 ∧ String.le x.1 y.1.
#[export] Instance locked_before_dec : RelDecision locked_before.
Proof. intros x y. unfold locked_before. apply _. Defined.

Definition RecoverBatch : nat := 100.

Definition expired_batch `{MapRange} (now : time) (staleClaimAt : duration) (skip : gset string) (t : table) :
    list (string * Job) :=
  take RecoverBatch (merge_sort locked_before
    (List.filter (λ kv, expired now staleClaimAt skip kv.1 kv.2) (range t))).

Definition recover_rows (now : time) (l : list (string * Job)) : option (list (string * Job)) :=
  mapM (λ kv, pair kv.1 <$> recover_job now kv.2) l.

Definition RecoverStaleClaims `{MapRange} (finalize : Job → bool) (staleClaimAt : duration) (now : time)
    (skip : gset string) (t : table) : table * result queue_error (list Job) :=
  if staleClaimAt <=? 0 then (t, Ok [])
  else match recover_rows now (expired_batch now staleClaimAt skip t) with
       | None => (t, Err ErrIntegerRange)
       | Some rows =>
           let dead := List.filter (λ j, bool_decide (J_Status j = DeadLettered)) rows.*2 in
           if negb (forallb finalize dead) then (t, Err ErrFinalizer)
           else (foldl (λ t kv, <[kv.1 := kv.2]> t) t rows, Ok dead)
       end.

Definition PurgeOldJobs (olderThan : time) (t : table) : table :=
  filter (λ kv, (bool_decide (J_Status kv.2 = Completed) || bool_decide (J_Status kv.2 = DeadLettered))
                && (J_UpdatedAt kv.2 <? olderThan) = false) t.

(** The transactions that write the business result of a claim and complete
    it: [lockJobClaim] and [completeLockedJob]. *)
Definition lockJobClaim (job : Job) (dead : bool) (t : table) : result queue_error Job :=
  let token := default "" (J_LockToken job) in
  if is_empty (J_ID job) || (negb dead && is_empty token) then Err ErrClaimLost
  else match t !! J_ID job with
       | Some j =>
           if bool_decide (J_Status j = if dead then DeadLettered else Processing)
              && (dead || bool_decide (J_LockToken j = Some token))
              && bool_decide (J_Kind j = J_Kind job) && bool_decide (J_Payload j = J_Payload job)
           then Ok j else Err ErrClaimLost
       | None => Err ErrClaimLost
       end.

Definition FinishJobExecution (now : time) (job : Job) (t : table) : table * result queue_error unit :=
  match lockJobClaim job false t with
  | Err e => (t, Err e)
  | Ok j => (<[J_ID job := complete_job now j]> t, Ok tt)
  end.

(** ** A worker

    What [processOneWithQueue] does with the job it claimed, once the handler
    is through: [registered] says whether there is a handler for the kind, [committed] that the handler
    committed its result together with the completion ([job.Status] is completed), [lost] that
    a renewal reported the claim lost, and [failure] is the error of the handler.  The result says whether the
    dead letter callback runs. *)
Definition settle (finalize : Job → bool) (now : time) (registered committed lost : bool)
    (failure : option string) (job : Job) (t : table) : table * bool :=
  let id := J_ID job in
  let token := default "" (J_LockToken job) in
  let failed msg :=
    match Fail finalize now id token msg t with
    | (t', Ok _) => (t', J_MaxAttempts job <=? J_Attempts job)
    | (t', Err _) => (t', false)
    end in
  if negb registered then failed "no handler registered for job kind"
  else if committed || lost then (t, false)
  else match failure with
       | Some msg => failed msg
       | None => ((Complete now id token t).1, false)
       end.

(** ** Runs

    [u] holds the ids and lock tokens issued so far: [idgen.New] repeats none.
    A run lists the jobs it claimed, in order. *)

Section runs.
Context `{MapRange}.

Abbreviation state := (gset string * table)%type.

Inductive queue_step : list string → state → state → Prop :=
| q_enqueue now newid kind payload max u t : newid ∉ u →
    queue_step [] (u, t) ({[newid]} ∪ u, (Enqueue now newid kind payload max t).1)
| q_claim now token skip u t : token ∉ u → token ≠ "" →
    queue_step (match (Claim now token skip t).2 with Some j => [J_ID j] | None => [] end)
      (u, t) ({[token]} ∪ u, (Claim now token skip t).1)
| q_complete now id token u t : queue_step [] (u, t) (u, (Complete now id token t).1)
| q_renew now id token u t : queue_step [] (u, t) (u, (RenewClaim now id token t).1)
| q_fail finalize now id token msg u t :
    queue_step [] (u, t) (u, (Fail finalize now id token msg t).1)
| q_recover finalize stale now skip u t :
    queue_step [] (u, t) (u, (RecoverStaleClaims finalize stale now skip t).1)
| q_finish now job u t : queue_step [] (u, t) (u, (FinishJobExecution now job t).1)
| q_purge olderThan u t : queue_step [] (u, t) (u, PurgeOldJobs olderThan t).

Inductive queue_run : list string → state → state → Prop :=
| run_nil s : queue_run [] s s
| run_step l l' s s' s'' : queue_run l s s' → queue_step l' s' s'' → queue_run (l ++ l') s s''.

(** *** What a step does to a row *)

Inductive row_change (u u' : gset string) : Job → Job → Prop :=
| rc_same j : row_change u u' j j
| rc_claim now token j : J_Status j = Queued → token ∉ u → token ∈ u' → token ≠ "" →
    row_change u u' j (claim_job now token j)
| rc_complete now j : J_Status j = Processing → row_change u u' j (complete_job now j)
| rc_renew now j : J_Status j = Processing → row_change u u' j (renew_job now j)
| rc_release now error completedAt j j' :
    J_Status j = Processing → release_job now error completedAt j = Some j' → row_change u u' j j'.

Definition fresh_row (id : string) (j : Job) : Prop :=
  ∃ now kind payload max, kind ∈ ValidKinds ∧ 1 ≤ max ∧ j = new_job now id kind payload max.

Lemma oldest_spec l x :
  oldest l = Some x → x ∈ l ∧ ∀ y, y ∈ l → older y.2 x.2 = false.
Proof.
  revert x. induction l as [|z l IH]; intros x; [done|]. simpl.
  assert (Hself : ∀ w : Job, older w w = false).
  { intros w. unfold older. by rewrite !Z.ltb_irrefl, andb_false_r. }
  destruct (oldest l) as [y|] eqn:Ho.
  - destruct (IH y eq_refl) as [Hy Hmin]. destruct (older y.2 z.2) eqn:E; intros [= <-].
    + split; [by right|]. intros w [->|Hw]%elem_of_cons; [|auto].
      unfold older in *. apply orb_true_iff in E. apply not_true_iff_false. intros E'.
      apply orb_true_iff in E'. rewrite !andb_true_iff, !Z.ltb_lt, !Z.eqb_eq in *. lia.
    + split; [by left|]. intros w [->|Hw]%elem_of_cons; [done|]. specialize (Hmin w Hw).
      unfold older in *. apply not_true_iff_false. intros E'. apply orb_true_iff in E'.
      apply orb_false_iff in E, Hmin. rewrite !andb_false_iff, !Z.ltb_ge, !Z.eqb_neq in *.
      rewrite !andb_true_iff, !Z.ltb_lt, !Z.eqb_eq in *. lia.
  - destruct l as [|w l]; [|simpl in Ho; by destruct (oldest l); [destruct (older _ _)|]].
    intros [= <-]. split; [by left|]. intros w ->%list_elem_of_singleton. done.
Qed.

Lemma elem_of_filter_range (f : string → Job → bool) (t : table) kv :
  kv ∈ List.filter (λ kv, f kv.1 kv.2) (range t) ↔ t !! kv.1 = Some kv.2 ∧ f kv.1 kv.2 = true.
Proof. rewrite list_elem_of_In, filter_In, <-list_elem_of_In. destruct kv as [k v]. by rewrite elem_of_range. Qed.

Lemma job_claim_effect now token skip (t : table) :
  match Claim now token skip t with
  | (t', None) => t' = t ∧ ∀ id j, t !! id = Some j → claimable now skip id j = false
  | (t', Some j') => ∃ id j, t !! id = Some j ∧ claimable now skip id j = true ∧
      j' = claim_job now token j ∧ t' = <[id := j']> t ∧
      ∀ id0 j0, t !! id0 = Some j0 → claimable now skip id0 j0 = true → older j0 j = false
  end.
Proof.
  unfold Claim. destruct (oldest _) as [[id j]|] eqn:E.
  - apply oldest_spec in E as [Hin Hmin]. apply elem_of_filter_range in Hin as [Hj Hc]. simpl in *.
    exists id, j. split_and!; try done. intros id0 j0 H0 Hc0.
    apply (Hmin (id0, j0)). by apply elem_of_filter_range.
  - split; [done|]. intros id j Hj. apply not_true_iff_false. intros Hc.
    assert (Hin : (id, j) ∈ List.filter (λ kv, claimable now skip kv.1 kv.2) (range t)) by by apply elem_of_filter_range.
    destruct (List.filter _ _) as [|x l]; [by apply elem_of_nil in Hin|]. simpl in E.
    by destruct (oldest l); [destruct (older _ _)|].
Qed.

Lemma held_Some id token (t : table) j :
  held id token t = Some j ↔ t !! id = Some j ∧ J_Status j = Processing ∧ J_LockToken j = Some token.
Proof.
  unfold held. destruct (t !! id) as [x|]; [|naive_solver].
  destruct (bool_decide (J_Status x = Processing)) eqn:E1; destruct (bool_decide (J_LockToken x = Some token)) eqn:E2;
    bool_prop; simpl; naive_solver.
Qed.

Lemma lookup_foldl_insert (l : list (string * Job)) (t : table) id j :
  foldl (λ t kv, <[kv.1 := kv.2]> t) t l !! id = Some j → (id, j) ∈ l ∨ t !! id = Some j.
Proof.
  revert t. induction l as [|[k v] l IH]; intros t; simpl; [auto|].
  intros [Hin|Hl]%IH; [left; by right|]. apply lookup_insert_Some in Hl as [[<- <-]|[_ ?]]; [left; by left|auto].
Qed.

Lemma recover_rows_elem now l rows id j' :
  recover_rows now l = Some rows → (id, j') ∈ rows → ∃ j, (id, j) ∈ l ∧ recover_job now j = Some j'.
Proof.
  unfold recover_rows. intros Hm%mapM_Some Hin. induction Hm as [|[k j] [k' x] l rows Hx Hm IH]; [by apply elem_of_nil in Hin|].
  simpl in Hx. apply fmap_Some in Hx as (y & Hy & Heq). injection Heq as -> ->.
  apply elem_of_cons in Hin as [[= -> ->]|Hin].
  - exists j. split; [by left|done].
  - destruct (IH Hin) as (j0 & ? & ?). exists j0. split; [by right|done].
Qed.

Lemma expired_batch_elem now stale skip t id j :
  (id, j) ∈ expired_batch now stale skip t → t !! id = Some j ∧ J_Status j = Processing.
Proof.
  unfold expired_batch. intros Hin%elem_of_take_sub. rewrite merge_sort_Permutation in Hin.
  apply elem_of_filter_range in Hin as [Hj He]. simpl in *. unfold expired in He. by bool_prop.
Qed.

Lemma step_effect l u t u' t' :
  queue_step l (u, t) (u', t') → u ⊆ u' ∧
  ∀ id j', t' !! id = Some j' →
    (∃ j, t !! id = Some j ∧ row_change u u' j j' ∧
       (l = [J_ID j] ∧ J_Attempts j' = J_Attempts j + 1 ∨ J_Attempts j' = J_Attempts j ∧ (l = [] ∨ ∃ k x, t !! k = Some x ∧ k ≠ id ∧ l = [J_ID x])))
    ∨ id ∉ u ∧ id ∈ u' ∧ l = [] ∧ fresh_row id j'.
Proof.
  intros Hs. inversion Hs as [now newid kind payload max ? ? Hf|now token skip ? ? Hf Hne| | | | | |]; subst; clear Hs.
  - split; [set_solver|]. unfold Enqueue. destruct (ValidateKind kind) eqn:Hk; simpl; intros id j' Hj.
    + apply guard_err_Ok in Hk. bool_prop. apply lookup_insert_Some in Hj as [[<- <-]|[_ Hj]].
      * right. split_and!; [done|set_solver|done|]. exists now, kind, payload, (new_max_attempts max).
        split_and!; try done. unfold new_max_attempts. destruct (max <=? 0) eqn:E; bool_prop; lia.
      * left. exists j'. split_and!; [done|constructor|auto].
    + left. exists j'. split_and!; [done|constructor|auto].
  - split; [set_solver|]. intros id j' Hj. pose proof (job_claim_effect now token skip t) as Hc.
    destruct (Claim now token skip t) as [t1 [x|]]; simpl in *.
    + destruct Hc as (k & j & Hk & Hcl & -> & -> & _). unfold claimable in Hcl. bool_prop. left.
      apply lookup_insert_Some in Hj as [[<- <-]|[Hki Hj]].
      * exists j. split_and!; [done|by constructor; [..|set_solver|]|by left].
      * exists j'. split_and!; [done|constructor|]. right. split; [done|]. right. by exists k, j.
    + destruct Hc as [-> _]. left. exists j'. split_and!; [done|constructor|auto].
  - split; [done|]. unfold Complete. destruct (held _ _ _) as [j|] eqn:Hh; simpl; intros k j' Hj; left.
    + apply held_Some in Hh as (Ht & Hst & _). apply lookup_insert_Some in Hj as [[<- <-]|[_ Hj]].
      * exists j. split_and!; [done|by constructor|auto].
      * exists j'. split_and!; [done|constructor|auto].
    + exists j'. split_and!; [done|constructor|auto].
  - split; [done|]. unfold RenewClaim. destruct (held _ _ _) as [j|] eqn:Hh; simpl; intros k j' Hj; left.
    + apply held_Some in Hh as (Ht & Hst & _). apply lookup_insert_Some in Hj as [[<- <-]|[_ Hj]].
      * exists j. split_and!; [done|by constructor|auto].
      * exists j'. split_and!; [done|constructor|auto].
    + exists j'. split_and!; [done|constructor|auto].
  - split; [done|]. intros k j' Hj. left.
    assert (Hnop : t !! k = Some j' → ∃ j, t !! k = Some j ∧ row_change u' u' j j' ∧
      (@nil string = [J_ID j] ∧ J_Attempts j' = J_Attempts j + 1 ∨ J_Attempts j' = J_Attempts j ∧
       (@nil string = [] ∨ ∃ k0 x, t !! k0 = Some x ∧ k0 ≠ k ∧ [] = [J_ID x]))).
    { exists j'. split_and!; [done|constructor|auto]. }
    unfold Fail in Hj. destruct (held _ _ _) as [j|] eqn:Hh; [|auto]. destruct (fail_job _ _ _) as [x|] eqn:Hx; [|auto].
    case_match; [auto|]. apply held_Some in Hh as (Ht & Hst & _). simpl in Hj.
    apply lookup_insert_Some in Hj as [[<- <-]|[_ Hj]]; [|auto].
    exists j. split_and!; [done|by eapply rc_release|]. right. split; [|auto].
    unfold fail_job, release_job in Hx. repeat case_match; by simplify_eq.
  - split; [done|]. intros k j' Hj. left.
    assert (Hnop : t !! k = Some j' → ∃ j, t !! k = Some j ∧ row_change u' u' j j' ∧
      (@nil string = [J_ID j] ∧ J_Attempts j' = J_Attempts j + 1 ∨ J_Attempts j' = J_Attempts j ∧
       (@nil string = [] ∨ ∃ k0 x, t !! k0 = Some x ∧ k0 ≠ k ∧ [] = [J_ID x]))).
    { exists j'. split_and!; [done|constructor|auto]. }
    unfold RecoverStaleClaims in Hj. case_match; [auto|]. destruct (recover_rows _ _) as [rows|] eqn:Hr; [|auto].
    case_match; [auto|]. simpl in Hj. apply lookup_foldl_insert in Hj as [Hin|Hj]; [|auto].
    destruct (recover_rows_elem _ _ _ _ _ Hr Hin) as (j & Hb & Hx). apply expired_batch_elem in Hb as [Ht Hst].
    exists j. split_and!; [done|by eapply rc_release|]. right. split; [|auto].
    unfold recover_job, release_job in Hx. repeat case_match; by simplify_eq.
  - split; [done|]. unfold FinishJobExecution. destruct (lockJobClaim job false t) as [j|] eqn:Hl; simpl; intros k j' Hj; left.
    + unfold lockJobClaim in Hl. case_match; [done|]. destruct (t !! J_ID job) as [x|] eqn:Hx; [|done].
      case_match eqn:Hb; [|done]. injection Hl as ->. bool_prop.
      apply lookup_insert_Some in Hj as [[<- <-]|[_ Hj]].
      * exists j. split_and!; [done|by constructor|auto].
      * exists j'. split_and!; [done|constructor|auto].
    + exists j'. split_and!; [done|constructor|auto].
  - split; [done|]. unfold PurgeOldJobs. intros k j' [Hj _]%map_lookup_filter_Some. left.
    exists j'. split_and!; [done|constructor|auto].
Qed.

(** *** Invariant *)

Record wf_job (u : gset string) (id : string) (j : Job) : Prop := {
  wj_id : J_ID j = id;
  wj_kind : J_Kind j ∈ ValidKinds;
  wj_attempts : 0 ≤ J_Attempts j ≤ J_MaxAttempts j ∧ 1 ≤ J_MaxAttempts j;
  wj_status : match J_Status j with
    | Queued => J_Attempts j < J_MaxAttempts j ∧ J_LockToken j = None ∧ J_LockedAt j = None
    | Processing => 1 ≤ J_Attempts j ∧ is_Some (J_LockedAt j) ∧
        ∃ token, J_LockToken j = Some token ∧ token ∈ u ∧ token ≠ ""
    | Completed => 1 ≤ J_Attempts j ∧ J_LockToken j = None ∧ J_LockedAt j = None ∧ is_Some (J_CompletedAt j)
    | DeadLettered => J_Attempts j = J_MaxAttempts j ∧ J_LockToken j = None ∧ J_LockedAt j = None ∧
        is_Some (J_CompletedAt j)
    | Failed => False
    end }.

Record wf_queue (u : gset string) (t : table) : Prop := {
  wq_rows : map_Forall (wf_job u) t;
  wq_issued : dom t ⊆ u;
  wq_tokens i j x y token : t !! i = Some x → t !! j = Some y →
    J_LockToken x = Some token → J_LockToken y = Some token → i = j }.

Lemma wf_job_mono u u' id j : u ⊆ u' → wf_job u id j → wf_job u' id j.
Proof.
  intros Hu [Hi Hk Ha Hs]. constructor; try done. destruct (J_Status j); try done.
  destruct Hs as (? & ? & token & ? & ? & ?). split_and!; try done. exists token. set_solver.
Qed.

Lemma release_status now error c j j' :
  release_job now error c j = Some j' →
  J_LockToken j' = None ∧ J_LockedAt j' = None ∧ J_ID j' = J_ID j ∧ J_Kind j' = J_Kind j ∧
  J_Payload j' = J_Payload j ∧ J_Attempts j' = J_Attempts j ∧ J_MaxAttempts j' = J_MaxAttempts j ∧
  if J_MaxAttempts j <=? J_Attempts j then J_Status j' = DeadLettered ∧ J_CompletedAt j' = Some now
  else J_Status j' = Queued.
Proof. unfold release_job. repeat case_match; intros [= <-]; by split_and!. Qed.

Lemma row_change_wf u u' id j j' : u ⊆ u' → wf_job u id j → row_change u u' j j' → wf_job u' id j'.
Proof.
  intros Hu Hwf Hc. destruct Hc as [j|now token j Hq Hf Hin Hne|now j Hp|now j Hp|now er c j j' Hp Hr].
  - by eapply wf_job_mono.
  - destruct Hwf as [Hi Hk Ha Hs]. rewrite Hq in Hs. constructor; simpl; try done; [lia|].
    split_and!; [lia|by eexists|by exists token].
  - destruct Hwf as [Hi Hk Ha Hs]. rewrite Hp in Hs. constructor; simpl; try done.
    destruct Hs as (? & _ & _). by split_and!.
  - pose proof (wf_job_mono _ _ _ _ Hu Hwf) as [Hi Hk Ha Hs]. constructor; simpl; try done.
    rewrite Hp in Hs |- *. by destruct Hs as (? & _ & ?).
  - destruct Hwf as [Hi Hk Ha Hs]. rewrite Hp in Hs.
    destruct (release_status _ _ _ _ _ Hr) as (Ht & Hl & Hid & Hkd & _ & Hat & Hmx & Hst).
    constructor; rewrite ?Hid, ?Hkd, ?Hat, ?Hmx; try done.
    destruct (J_MaxAttempts j <=? J_Attempts j) eqn:E; bool_prop.
    + destruct Hst as [-> Hcp]. rewrite Ht, Hl, Hcp. split_and!; [lia|done|done|by eexists].
    + rewrite Hst, Ht, Hl. split_and!; [lia|done|done].
Qed.

Lemma fresh_row_wf u id j : fresh_row id j → wf_job u id j.
Proof. intros (now & kind & payload & max & Hk & Hm & ->). constructor; simpl; try done; [lia|]. split_and!; [lia|done|done]. Qed.

(** Where the token of a row comes from. *)
Lemma row_change_token u u' j j' token :
  row_change u u' j j' → J_LockToken j' = Some token →
  J_LockToken j = Some token ∧ (J_Status j' = Processing → J_Status j = Processing) ∧
    J_Attempts j' = J_Attempts j ∧ J_MaxAttempts j' = J_MaxAttempts j
  ∨ token ∉ u ∧ J_Attempts j' = J_Attempts j + 1.
Proof.
  intros Hc Ht. destruct Hc as [j|now tk j Hq Hf Hin Hne|now j Hp|now j Hp|now er c j j' Hp Hr]; simpl in *.
  - by left.
  - right. by injection Ht as ->.
  - done.
  - by left.
  - destruct (release_status _ _ _ _ _ Hr) as (Hn & _). congruence.
Qed.

Lemma token_issued u t id j token : wf_queue u t → t !! id = Some j → J_LockToken j = Some token → token ∈ u.
Proof.
  intros Hwf Hj Ht. pose proof (wj_status _ _ _ (map_Forall_lookup_1 _ _ _ _ (wq_rows _ _ Hwf) Hj)) as Hs.
  destruct (J_Status j); try (destruct_and! Hs; congruence); [|done].
  destruct Hs as (_ & _ & tk & Htk & Hin & _). congruence.
Qed.

Lemma step_wf l u t u' t' : queue_step l (u, t) (u', t') → wf_queue u t → wf_queue u' t'.
Proof.
  intros Hs Hwf. destruct (step_effect _ _ _ _ _ Hs) as [Hu Hrow]. constructor.
  - intros id j' Hj'. destruct (Hrow _ _ Hj') as [(j & Hj & Hc & _)|(_ & _ & _ & Hf)].
    + eapply row_change_wf; [done| |done]. exact (map_Forall_lookup_1 _ _ _ _ (wq_rows _ _ Hwf) Hj).
    + by apply fresh_row_wf.
  - intros id [j' Hj']%elem_of_dom. destruct (Hrow _ _ Hj') as [(j & Hj & _)|(_ & ? & _)]; [|done].
    apply elem_of_dom_2 in Hj. pose proof (wq_issued _ _ Hwf). set_solver.
  - intros i k x y token Hx Hy Htx Hty.
    assert (Hfresh : ∀ id j', fresh_row id j' → J_LockToken j' = None).
    { by intros ? ? (? & ? & ? & ? & _ & _ & ->). }
    destruct (Hrow _ _ Hx) as [(x0 & Hx0 & Hcx & Hlx)|(_ & _ & _ & Hf)]; [|apply Hfresh in Hf; congruence].
    destruct (Hrow _ _ Hy) as [(y0 & Hy0 & Hcy & Hly)|(_ & _ & _ & Hf)]; [|apply Hfresh in Hf; congruence].
    destruct (row_change_token _ _ _ _ _ Hcx Htx) as [(Hox & _ & _ & _)|[Hnx Hax]],
      (row_change_token _ _ _ _ _ Hcy Hty) as [(Hoy & _ & _ & _)|[Hny Hay]].
    + by eapply (wq_tokens _ _ Hwf).
    + destruct Hny. exact (token_issued _ _ _ _ _ Hwf Hx0 Hox).
    + destruct Hnx. exact (token_issued _ _ _ _ _ Hwf Hy0 Hoy).
    + destruct Hlx as [[Hlx _]|[? _]]; [|lia]. destruct Hly as [[Hly _]|[? _]]; [|lia].
      rewrite Hlx in Hly. injection Hly as Heq.
      pose proof (wj_id _ _ _ (map_Forall_lookup_1 _ _ _ _ (wq_rows _ _ Hwf) Hx0)).
      pose proof (wj_id _ _ _ (map_Forall_lookup_1 _ _ _ _ (wq_rows _ _ Hwf) Hy0)). congruence.
Qed.

Lemma wf_queue_init : wf_queue ∅ ∅.
Proof. constructor; [apply map_Forall_empty|by rewrite dom_empty_L|done]. Qed.

Lemma queue_run_wf l s s' : queue_run l s s' → wf_queue s.1 s.2 → wf_queue s'.1 s'.2.
Proof.
  induction 1 as [|l l' s [u t] [u' t'] _ IH Hs]; [done|]. intros Hwf. by eapply step_wf, IH.
Qed.

(** The queue table stays well formed over any run: a queued row has an
    attempt left and no lock, a row in process has a lock token of its own that no
    other row has, a completed row was delivered, and a dead-lettered row has used
    exactly its attempts; nobody waits in the unused status. *)
Theorem queue_invariant l u t : queue_run l (∅, ∅) (u, t) → wf_queue u t.
Proof. intros Hr. exact (queue_run_wf _ _ _ Hr wf_queue_init). Qed.

(** *** Deliveries *)

Definition deliveries (id : string) (l : list string) : Z := Z.of_nat (length (filter (λ x, x = id) l)).

Lemma deliveries_app id l l' : deliveries id (l ++ l') = deliveries id l + deliveries id l'.
Proof. unfold deliveries. rewrite filter_app, length_app. lia. Qed.

Lemma deliveries_other id l : (∀ x, x ∈ l → x ≠ id) → deliveries id l = 0.
Proof.
  unfold deliveries. induction l as [|x l IH]; intros Hl; [done|]. rewrite filter_cons.
  rewrite decide_False by (apply Hl; by left). apply IH. intros y Hy. apply Hl. by right.
Qed.

(** A step delivers a job that the table has. *)
Lemma step_label l u t u' t' x : queue_step l (u, t) (u', t') → x ∈ l → ∃ id j, t !! id = Some j ∧ x = J_ID j ∧ l = [x].
Proof.
  intros Hs Hx. inversion Hs as [|now token skip ? ? Hf Hne| | | | | |]; subst; try by apply elem_of_nil in Hx.
  pose proof (job_claim_effect now token skip t) as Hc. destruct (Claim now token skip t) as [t1 [y|]]; simpl in *;
    [|by apply elem_of_nil in Hx]. destruct Hc as (id & j & Hj & _ & -> & _). apply list_elem_of_singleton in Hx as ->.
  by exists id, j.
Qed.

Lemma deliveries_count l u t :
  queue_run l (∅, ∅) (u, t) →
  (∀ id j, t !! id = Some j → deliveries id l = J_Attempts j) ∧ (∀ id, id ∉ u → deliveries id l = 0).
Proof.
  intros Hr. remember (∅, ∅) as s0 eqn:E0. remember (u, t) as s eqn:Es. revert u t Es.
  induction Hr as [s|l l' s [u1 t1] s' Hr IH Hs]; intros u t ->; [subst; by injection E0 as -> ->|].
  specialize (IH E0 _ _ eq_refl) as [IHr IHn]. subst s.
  pose proof (queue_run_wf _ _ _ Hr wf_queue_init) as Hwf. simpl in Hwf.
  destruct (step_effect _ _ _ _ _ Hs) as [Hu Hrow]. split.
  - intros id j' Hj'. rewrite deliveries_app. destruct (Hrow _ _ Hj') as [(j & Hj & _ & Hl)|(Hn & _ & -> & Hf)].
    + rewrite (IHr _ _ Hj). pose proof (wj_id _ _ _ (map_Forall_lookup_1 _ _ _ _ (wq_rows _ _ Hwf) Hj)) as Hid.
      destruct Hl as [[-> Ha]|[Ha [->|(k & x & Hx & Hne & ->)]]]; rewrite Ha.
      * unfold deliveries. rewrite filter_cons, decide_True by done. done.
      * unfold deliveries. simpl. lia.
      * rewrite deliveries_other; [lia|]. intros y ->%list_elem_of_singleton.
        by rewrite (wj_id _ _ _ (map_Forall_lookup_1 _ _ _ _ (wq_rows _ _ Hwf) Hx)).
    + rewrite (IHn _ Hn). destruct Hf as (? & ? & ? & ? & _ & _ & ->). done.
  - intros id Hid. rewrite deliveries_app, (IHn id) by set_solver. apply deliveries_other.
    intros x Hx ->. destruct (step_label _ _ _ _ _ _ Hs Hx) as (k & j & Hj & Heq & _).
    pose proof (wj_id _ _ _ (map_Forall_lookup_1 _ _ _ _ (wq_rows _ _ Hwf) Hj)) as Hk.
    apply elem_of_dom_2 in Hj. pose proof (wq_issued _ _ Hwf). set_solver.
Qed.

(** C15: deliveries are counted and bounded: in any run, with any number of
    workers, failures and recoveries, the attempts of a job are exactly the times it
    was handed to a worker, and never more than its maximum; a job is dead-lettered exactly when
    its attempts are used up. *)
Theorem deliveries_bounded l u t id j :
  queue_run l (∅, ∅) (u, t) → t !! id = Some j →
  deliveries id l = J_Attempts j ∧ J_Attempts j ≤ J_MaxAttempts j ∧
  (J_Status j = DeadLettered → J_Attempts j = J_MaxAttempts j) ∧
  (J_Status j = Queued → J_Attempts j < J_MaxAttempts j).
Proof.
  intros Hr Hj. destruct (deliveries_count _ _ _ Hr) as [Hc _]. split; [by apply Hc|].
  pose proof (queue_run_wf _ _ _ Hr wf_queue_init) as Hwf. simpl in Hwf.
  destruct (map_Forall_lookup_1 _ _ _ _ (wq_rows _ _ Hwf) Hj) as [_ _ [? ?] Hs].
  split; [lia|]. split; intros E; rewrite E in Hs; by destruct_and! Hs.
Qed.

(** *** Claims *)

(** A row that a token no longer holds, it never holds again. *)
Lemma step_lost l u t u' t' id token :
  queue_step l (u, t) (u', t') → token ∈ u → held id token t = None → held id token t' = None.
Proof.
  intros Hs Hin Hh. destruct (held id token t') as [j'|] eqn:E; [|done].
  apply held_Some in E as (Hj' & Hp & Ht). destruct (step_effect _ _ _ _ _ Hs) as [_ Hrow].
  destruct (Hrow _ _ Hj') as [(j & Hj & Hc & _)|(_ & _ & _ & (? & ? & ? & ? & _ & _ & ->))]; [|done].
  destruct (row_change_token _ _ _ _ _ Hc Ht) as [(Ho & Hpr & _)|[Hn _]]; [|done].
  assert (held id token t = Some j) by (apply held_Some; auto). congruence.
Qed.

Lemma run_grows l s s' : queue_run l s s' → s.1 ⊆ s'.1.
Proof.
  induction 1 as [|l l' s [u t] [u' t'] _ IH Hs]; [done|]. destruct (step_effect _ _ _ _ _ Hs). set_solver.
Qed.

Lemma run_lost l s s' id token :
  queue_run l s s' → token ∈ s.1 → held id token s.2 = None → token ∈ s'.1 ∧ held id token s'.2 = None.
Proof.
  induction 1 as [|l l' s [u t] [u' t'] _ IH Hs]; [done|]. intros Hin Hh. destruct (IH Hin Hh) as [Hi Hn].
  simpl in *. split; [|by eapply step_lost]. destruct (step_effect _ _ _ _ _ Hs) as [Hu _]. set_solver.
Qed.

(** A held row keeps its deliveries. *)
Lemma step_held l u t u' t' id token j j' :
  queue_step l (u, t) (u', t') → token ∈ u → held id token t = Some j → held id token t' = Some j' →
  J_Attempts j' = J_Attempts j ∧ J_MaxAttempts j' = J_MaxAttempts j.
Proof.
  intros Hs Hin Hh Hh'. apply held_Some in Hh as (Hj & _ & _). apply held_Some in Hh' as (Hj' & _ & Ht).
  destruct (step_effect _ _ _ _ _ Hs) as [_ Hrow].
  destruct (Hrow _ _ Hj') as [(x & Hx & Hc & _)|(_ & _ & _ & (? & ? & ? & ? & _ & _ & ->))]; [|done].
  rewrite Hj in Hx. injection Hx as <-.
  by destruct (row_change_token _ _ _ _ _ Hc Ht) as [(_ & _ & ? & ?)|[Hn _]].
Qed.

Lemma run_held l s s' id token j j' :
  queue_run l s s' → token ∈ s.1 → held id token s.2 = Some j → held id token s'.2 = Some j' →
  J_Attempts j' = J_Attempts j ∧ J_MaxAttempts j' = J_MaxAttempts j.
Proof.
  intros Hr Hin Hh. revert j'. induction Hr as [|l l' s [u t] [u' t'] Hr IH Hs]; intros j'; [intros Hh'; by simplify_eq|].
  intros Hh'. simpl in *. specialize (IH Hin Hh).
  assert (Hu : token ∈ u) by by apply (run_grows _ _ _ Hr).
  destruct (held id token t) as [x|] eqn:E.
  - destruct (IH x eq_refl). destruct (step_held _ _ _ _ _ _ _ _ _ Hs Hu E Hh'). split; congruence.
  - apply (step_lost _ _ _ _ _ id token Hs Hu) in E. congruence.
Qed.

Lemma lost_operations id token t :
  held id token t = None →
  (∀ now, Complete now id token t = (t, Err ErrClaimLost)) ∧
  (∀ now, RenewClaim now id token t = (t, Err ErrClaimLost)) ∧
  (∀ fin now msg, Fail fin now id token msg t = (t, Err ErrClaimLost)) ∧
  (∀ now job, J_ID job = id → J_LockToken job = Some token → FinishJobExecution now job t = (t, Err ErrClaimLost)).
Proof.
  intros Hh. unfold Complete, RenewClaim, Fail, FinishJobExecution. rewrite Hh. split_and!; try done.
  intros now job Hid Htok. unfold lockJobClaim. rewrite Hid, Htok. simpl. destruct (_ || _); [done|].
  unfold held in Hh. destruct (t !! id) as [j|]; [|done].
  destruct (bool_decide (J_Status j = Processing)), (bool_decide (J_LockToken j = Some token)); done.
Qed.

Lemma claimed_held now token skip t t1 j :
  Claim now token skip t = (t1, Some j) → wf_queue ({[token]} ∪ dom t) t ∨ (∀ id x, t !! id = Some x → J_ID x = id) →
  held (J_ID j) token t1 = Some j.
Proof.
  intros Hc Hwf. pose proof (job_claim_effect now token skip t) as He. rewrite Hc in He.
  destruct He as (id & x & Hx & _ & -> & -> & _).
  assert (J_ID x = id) as Hid.
  { destruct Hwf as [Hwf|Hid]; [|by apply Hid]. exact (wj_id _ _ _ (map_Forall_lookup_1 _ _ _ _ (wq_rows _ _ Hwf) Hx)). }
  apply held_Some. simpl. rewrite Hid, lookup_insert_eq. done.
Qed.

(** C11: a claim is exclusive and fenced.  After a claim, and whatever workers,
    renewals, recoveries and purges do, either the worker still holds the row, and then
    no claim hands the job to another; or it has lost it, and then it
    never regains it: every later attempt to complete, fail, renew or commit under its token
    is refused and changes nothing. *)
Theorem claim_fencing l u t now token skip t1 j l2 u2 t2 :
  queue_run l (∅, ∅) (u, t) → token ∉ u → token ≠ "" →
  Claim now token skip t = (t1, Some j) →
  queue_run l2 ({[token]} ∪ u, t1) (u2, t2) →
  match held (J_ID j) token t2 with
  | Some j2 => J_Attempts j2 = J_Attempts j ∧
      ∀ now' token' skip' t3 j3, Claim now' token' skip' t2 = (t3, Some j3) → J_ID j3 ≠ J_ID j
  | None => ∀ l3 u3 t3, queue_run l3 (u2, t2) (u3, t3) →
      (∀ now', Complete now' (J_ID j) token t3 = (t3, Err ErrClaimLost)) ∧
      (∀ now', RenewClaim now' (J_ID j) token t3 = (t3, Err ErrClaimLost)) ∧
      (∀ fin now' msg, Fail fin now' (J_ID j) token msg t3 = (t3, Err ErrClaimLost)) ∧
      (∀ now', FinishJobExecution now' j t3 = (t3, Err ErrClaimLost))
  end.
Proof.
  intros H1 Hf Hne Hc H2. pose proof (queue_run_wf _ _ _ H1 wf_queue_init) as Hwf. simpl in Hwf.
  assert (Hrows : ∀ id x, t !! id = Some x → J_ID x = id).
  { intros id x Hx. exact (wj_id _ _ _ (map_Forall_lookup_1 _ _ _ _ (wq_rows _ _ Hwf) Hx)). }
  pose proof (claimed_held _ _ _ _ _ _ Hc (or_intror Hrows)) as Hh.
  assert (Hs : queue_run (l ++ [J_ID j]) (∅, ∅) ({[token]} ∪ u, t1)).
  { eapply run_step; [done|]. pose proof (q_claim now token skip u t Hf Hne) as Hq. by rewrite Hc in Hq. }
  pose proof (queue_run_wf _ _ _ H2 (queue_run_wf _ _ _ Hs wf_queue_init)) as Hwf2. simpl in Hwf2.
  destruct (held (J_ID j) token t2) as [j2|] eqn:E.
  - split.
    + assert (token ∈ ({[token]} ∪ u, t1).1) as Ht1 by (simpl; set_solver).
      by destruct (run_held _ _ _ _ _ _ _ H2 Ht1 Hh E).
    + intros now' token' skip' t3 j3 Hc3 Heq. pose proof (job_claim_effect now' token' skip' t2) as He. rewrite Hc3 in He.
      destruct He as (id & x & Hx & Hcl & -> & _). simpl in Heq.
      rewrite (wj_id _ _ _ (map_Forall_lookup_1 _ _ _ _ (wq_rows _ _ Hwf2) Hx)) in Heq. subst id.
      apply held_Some in E as (Hj2 & Hp & _). unfold claimable in Hcl. bool_prop. congruence.
  - assert (Hin : token ∈ u2) by (apply (run_grows _ _ _ H2); simpl; set_solver).
    intros l3 u3 t3 H3. destruct (run_lost _ _ _ _ _ H3 Hin E) as [_ Hlost]. simpl in Hlost.
    pose proof (job_claim_effect now token skip t) as He. rewrite Hc in He.
    destruct He as (id & x & _ & _ & Hj & _). destruct (lost_operations _ _ _ Hlost) as (? & ? & ? & Hfin).
    split_and!; try done. intros now'. apply Hfin; [done|]. by rewrite Hj.
Qed.

(** *** Failures *)

Lemma fail_effect finalize now id token msg t :
  match Fail finalize now id token msg t with
  | (t', Ok _) => ∃ j j', held id token t = Some j ∧ fail_job now msg j = Some j' ∧ t' = <[id := j']> t ∧
      (J_Status j' = DeadLettered → finalize j' = true)
  | (t', Err e) => t' = t ∧ (e = ErrClaimLost ∧ held id token t = None ∨
      ∃ j, held id token t = Some j ∧ (e = ErrIntegerRange ∧ fail_job now msg j = None ∨ e = ErrFinalizer))
  end.
Proof.
  unfold Fail. destruct (held id token t) as [j|]; [|auto]. destruct (fail_job now msg j) as [j'|] eqn:Hf.
  - destruct (bool_decide (J_Status j' = DeadLettered)) eqn:Hd; simpl.
    + destruct (finalize j') eqn:Hfin; simpl; [|split; [done|right; eauto]].
      exists j, j'. by split_and!.
    + bool_prop. exists j, j'. by split_and!.
  - split; [done|]. right. eauto.
Qed.

Lemma power_range a : 1 ≤ a → (2 ^ 31 - 1 <? 2 ^ Z.max (a - 1) 0) = (32 <=? a).
Proof.
  intros Ha. rewrite Z.max_l by lia. destruct (32 <=? a) eqn:E; bool_prop.
  - apply Z.ltb_lt. assert (2 ^ 31 ≤ 2 ^ (a - 1)) by (apply Z.pow_le_mono_r; lia). lia.
  - apply Z.ltb_ge. assert (2 ^ (a - 1) ≤ 2 ^ 30) by (apply Z.pow_le_mono_r; lia). lia.
Qed.

Lemma release_retry now error c j :
  1 ≤ J_Attempts j < J_MaxAttempts j →
  match release_job now error c j with
  | Some j' => J_Attempts j ≤ 31 ∧ J_Status j' = Queued ∧
      J_AvailableAt j' = now + Z.min 30 (2 ^ (J_Attempts j - 1)) * Second
  | None => 32 ≤ J_Attempts j
  end.
Proof.
  intros Ha. unfold release_job. destruct (J_MaxAttempts j <=? J_Attempts j) eqn:E; bool_prop; [lia|].
  unfold backoff_seconds. rewrite power_range by lia.
  destruct (32 <=? J_Attempts j) eqn:E2; bool_prop; [lia|]. rewrite Z.max_l by lia. split_and!; [lia|done|done].
Qed.

(** C38: retries back off: a failed claim with attempts left is queued again
    after 1, 2, 4, 8, 16 and then 30 seconds; but from the 32nd attempt on, the
    power no longer fits the [int] it is cast to, so the failure is refused and the row
    stays claimed, and a recovery whose batch contains such a row recovers nothing. *)
Theorem retry_backoff finalize now id token msg t j :
  held id token t = Some j → 1 ≤ J_Attempts j < J_MaxAttempts j →
  (if J_Attempts j <=? 31 then
     ∃ j', Fail finalize now id token msg t = (<[id := j']> t, Ok tt) ∧ J_Status j' = Queued ∧
       J_AvailableAt j' = now + Z.min 30 (2 ^ (J_Attempts j - 1)) * Second ∧
       now + Second ≤ J_AvailableAt j' ≤ now + 30 * Second
   else Fail finalize now id token msg t = (t, Err ErrIntegerRange) ∧
     ∀ stale skip, 0 < stale → (id, j) ∈ expired_batch now stale skip t →
       RecoverStaleClaims finalize stale now skip t = (t, Err ErrIntegerRange)).
Proof.
  intros Hh Ha. pose proof (release_retry now (λ _, msg) (J_CompletedAt j) j Ha) as Hr.
  pose proof (release_retry now (λ dead, if is_empty (J_Error j)
                           then if dead then "job claim timed out after max attempts"
                                else "job claim timed out; retrying"
                           else J_Error j) None j Ha) as Hrec.
  destruct (J_Attempts j <=? 31) eqn:E; bool_prop; unfold Fail, fail_job; rewrite Hh.
  - destruct (release_job _ _ _ _) as [j'|]; [|lia]. destruct Hr as (_ & Hst & Hav). exists j'.
    rewrite Hst. simpl. split_and!; try done; rewrite Hav; unfold Second;
      assert (1 ≤ 2 ^ (J_Attempts j - 1)) by (apply Z.le_trans with (2 ^ 0); [done|apply Z.pow_le_mono_r; lia]); lia.
  - destruct (release_job now (λ _, msg) (J_CompletedAt j) j) as [j'|]; [lia|]. split; [done|]. intros stale skip Hst Hin.
    unfold RecoverStaleClaims. destruct (stale <=? 0) eqn:E0; bool_prop; [lia|].
    destruct (recover_rows _ _) as [rows|] eqn:Hrows; [|done]. exfalso.
    unfold recover_rows in Hrows. apply mapM_Some_1 in Hrows.
    apply list_elem_of_lookup in Hin as [k Hk]. destruct (Forall2_lookup_l _ _ _ _ _ Hrows Hk) as (x & _ & Hx).
    simpl in Hx. apply fmap_Some in Hx as (j' & Hj' & _). unfold recover_job in Hj'. rewrite Hj' in Hrec. lia.
Qed.

(** The worker's view of a dead letter is the table's: when it settles a
    job it claimed, after any run of other operations, the dead letter callback runs
    exactly if this very step dead-lettered the row, with its business record finalised; and a
    worker whose claim is gone changes nothing. *)
Theorem dead_letter_agrees l u t now token skip t1 job l2 u2 t2 finalize now' registered committed lost failure :
  queue_run l (∅, ∅) (u, t) → token ∉ u → token ≠ "" →
  Claim now token skip t = (t1, Some job) → queue_run l2 ({[token]} ∪ u, t1) (u2, t2) →
  let '(t3, callback) := settle finalize now' registered committed lost failure job t2 in
  (callback = true ↔ ∃ j2 j3, held (J_ID job) token t2 = Some j2 ∧ t3 = <[J_ID job := j3]> t2 ∧
     J_Status j3 = DeadLettered ∧ finalize j3 = true) ∧
  (held (J_ID job) token t2 = None → t3 = t2 ∧ callback = false).
Proof.
  intros H1 Hf Hne Hc H2. pose proof (queue_run_wf _ _ _ H1 wf_queue_init) as Hwf. simpl in Hwf.
  assert (Hrows : ∀ id x, t !! id = Some x → J_ID x = id).
  { intros id x Hx. exact (wj_id _ _ _ (map_Forall_lookup_1 _ _ _ _ (wq_rows _ _ Hwf) Hx)). }
  pose proof (claimed_held _ _ _ _ _ _ Hc (or_intror Hrows)) as Hh.
  assert (Htok : J_LockToken job = Some token) by by apply held_Some in Hh as (_ & _ & ?).
  assert (Hat : ∀ j2, held (J_ID job) token t2 = Some j2 →
    J_Attempts j2 = J_Attempts job ∧ J_MaxAttempts j2 = J_MaxAttempts job).
  { intros j2 Hj2. assert (token ∈ ({[token]} ∪ u, t1).1) as Ht1 by (simpl; set_solver).
    exact (run_held _ _ _ _ _ _ _ H2 Ht1 Hh Hj2). }
  assert (Hfail : ∀ msg, let '(t3, cb) := match Fail finalize now' (J_ID job) token msg t2 with
      | (t', Ok _) => (t', J_MaxAttempts job <=? J_Attempts job) | (t', Err _) => (t', false) end in
    (cb = true ↔ ∃ j2 j3, held (J_ID job) token t2 = Some j2 ∧ t3 = <[J_ID job := j3]> t2 ∧
     J_Status j3 = DeadLettered ∧ finalize j3 = true) ∧ (held (J_ID job) token t2 = None → t3 = t2 ∧ cb = false)).
  { intros msg. pose proof (fail_effect finalize now' (J_ID job) token msg t2) as He.
    destruct (Fail _ _ _ _ _ _) as [t3 [x|e]].
    - destruct He as (j & j' & Hj & Hfj & -> & Hfin). destruct (Hat _ Hj) as [Ha Hm].
      destruct (release_status _ _ _ _ _ Hfj) as (_ & _ & _ & _ & _ & _ & _ & Hst). rewrite Ha, Hm in Hst.
      split; [|intros; congruence]. split.
      + intros E. rewrite E in Hst. destruct Hst as [Hd _]. exists j, j'. split_and!; auto.
      + intros (j2 & j3 & _ & Heq & Hd & _). apply (f_equal (.!! J_ID job)) in Heq.
        rewrite !lookup_insert_eq in Heq. injection Heq as ->.
        destruct (_ <=? _); [done|congruence].
    - destruct He as [-> He]. split; [|done]. split; [done|].
      intros (j2 & j3 & Hj2 & Heq & Hd & _). apply (f_equal (.!! J_ID job)) in Heq.
      apply held_Some in Hj2 as (Hj2 & Hp & _). rewrite lookup_insert_eq, Hj2 in Heq. congruence. }
  assert (Hnone : ∀ x y, ¬ ∃ j2 j3, held (J_ID job) token t2 = Some j2 ∧ t2 = <[x := j3]> t2 ∧
     J_Status j3 = DeadLettered ∧ y j3 = true ∧ x = J_ID job).
  { intros x y (j2 & j3 & Hj2 & Heq & Hd & _ & ->). apply (f_equal (.!! J_ID job)) in Heq.
    apply held_Some in Hj2 as (Hj2 & Hp & _). rewrite lookup_insert_eq, Hj2 in Heq. congruence. }
  unfold settle. rewrite Htok. simpl. destruct registered; simpl; [|apply Hfail].
  destruct (committed || lost); simpl.
  { split; [|done]. split; [done|]. intros (j2 & j3 & ? & ? & ? & ?). destruct (Hnone (J_ID job) finalize). eauto 10. }
  destruct failure as [msg|]; [apply Hfail|]. unfold Complete.
  destruct (held (J_ID job) token t2) as [j|] eqn:Hj; simpl.
  - split; [|done]. split; [done|]. intros (j2 & j3 & _ & Heq & Hd & _). apply (f_equal (.!! J_ID job)) in Heq.
    rewrite !lookup_insert_eq in Heq. injection Heq as <-. done.
  - split; [|done]. split; [done|]. by intros (? & ? & ? & _).
Qed.

(** A finished job is final: once completed or dead-lettered, a row never
    changes again, and can only be purged. *)
Theorem finished_is_final l u t l' u' t' id j :
  queue_run l (∅, ∅) (u, t) → t !! id = Some j → J_Status j = Completed ∨ J_Status j = DeadLettered →
  queue_run l' (u, t) (u', t') → t' !! id = Some j ∨ t' !! id = None.
Proof.
  intros H1 Hj Hst H2. pose proof (queue_run_wf _ _ _ H1 wf_queue_init) as Hwf. simpl in Hwf.
  assert (Hin : id ∈ u) by (apply elem_of_dom_2 in Hj; pose proof (wq_issued _ _ Hwf); set_solver).
  remember (u, t) as s eqn:E. remember (u', t') as s' eqn:E'. revert u' t' E'.
  induction H2 as [s|l1 l2 s [u1 t1] s' H2 IH Hs]; intros u' t' ->; [simplify_eq; by left|].
  specialize (IH E H1 _ _ eq_refl). destruct (t' !! id) as [j'|] eqn:Hj'; [left|by right].
  destruct (step_effect _ _ _ _ _ Hs) as [_ Hrow]. destruct (Hrow _ _ Hj') as [(x & Hx & Hc & _)|(Hn & _)].
  - destruct IH as [IH|IH]; [|congruence]. rewrite IH in Hx. injection Hx as <-.
    inversion Hc; subst; try done; exfalso; destruct Hst; congruence.
  - destruct Hn. pose proof (run_grows _ _ _ H2) as Hg. rewrite E in Hg. simpl in Hg. set_solver.
Qed.
End runs.

(** ** A concrete queue *)

#[local] Existing Instance range_in_key_order.

Definition demo_table : table := (Enqueue 10 "jq_1" KindActionRun "{}" 1 ∅).1.
Definition demo_claimed : table := (Claim 20 "k1" ∅ demo_table).1.
Definition demo_job : Job := claim_job 20 "k1" (new_job 10 "jq_1" KindActionRun "{}" 1).

Lemma demo_table_run : queue_run [] (∅, ∅) ({["jq_1"]} ∪ ∅, demo_table).
Proof. apply (run_step [] [] _ (∅, ∅)); [constructor|]. by apply q_enqueue. Defined.

Lemma demo_claimed_run : queue_run ["jq_1"] (∅, ∅) ({["k1"]} ∪ ({["jq_1"]} ∪ ∅), demo_claimed).
Proof.
  apply (run_step [] ["jq_1"] _ _ _ demo_table_run).
  assert (Hl : ["jq_1"] = match (Claim 20 "k1" ∅ demo_table).2 with Some j => [J_ID j] | None => [] end)
    by (vm_compute; reflexivity).
  rewrite Hl. apply (q_claim 20 "k1" ∅ _ demo_table); [|done].
  apply (bool_decide_eq_true_1 _). vm_compute. reflexivity.
Defined.

Lemma queue_invariant_witness : wf_queue ({["k1"]} ∪ ({["jq_1"]} ∪ ∅)) demo_claimed.
Proof. exact (queue_invariant _ _ _ demo_claimed_run). Defined.

Lemma deliveries_bounded_witness : deliveries "jq_1" ["jq_1"] = 1 ∧ J_Attempts demo_job ≤ J_MaxAttempts demo_job.
Proof.
  destruct (deliveries_bounded _ _ _ "jq_1" demo_job demo_claimed_run) as (Hd & Hm & _); [vm_compute; reflexivity|].
  split; [exact Hd|exact Hm].
Defined.

Definition demo_recovered : table := (RecoverStaleClaims (λ _, true) (30 * Second) (60 * Second) ∅ demo_claimed).1.

Lemma claim_fencing_witness :
  held "jq_1" "k1" demo_recovered = None ∧
  Complete 70 "jq_1" "k1" demo_recovered = (demo_recovered, Err ErrClaimLost).
Proof.
  assert (Hrun : queue_run [] ({["k1"]} ∪ ({["jq_1"]} ∪ ∅), demo_claimed)
                   ({["k1"]} ∪ ({["jq_1"]} ∪ ∅), demo_recovered)).
  { apply (run_step [] [] _ ({["k1"]} ∪ ({["jq_1"]} ∪ ∅), demo_claimed)); [constructor|]. apply q_recover. }
  pose proof (claim_fencing _ _ demo_table 20 "k1" ∅ demo_claimed demo_job [] ({["k1"]} ∪ ({["jq_1"]} ∪ ∅)) demo_recovered demo_table_run) as Hf.
  specialize (Hf ltac:(apply (bool_decide_eq_true_1 _); vm_compute; reflexivity) ltac:(done)
    ltac:(vm_compute; reflexivity) Hrun).
  change (J_ID demo_job) with "jq_1" in Hf.
  destruct (held "jq_1" "k1" demo_recovered) as [j|] eqn:E; [vm_compute in E; discriminate E|].
  split; [reflexivity|]. destruct (Hf [] _ _ (run_nil _)) as [Hc _]. apply Hc.
Defined.

Lemma dead_letter_agrees_witness :
  ∃ t3, settle (λ _, true) 30 true false false (Some "boom") demo_job demo_claimed = (t3, true) ∧
    ∃ j3, t3 = <["jq_1" := j3]> demo_claimed ∧ J_Status j3 = DeadLettered.
Proof.
  pose proof (dead_letter_agrees _ _ demo_table 20 "k1" ∅ demo_claimed demo_job [] _ _ (λ _, true) 30 true false false
    (Some "boom") demo_table_run ltac:(apply (bool_decide_eq_true_1 _); vm_compute; reflexivity) ltac:(done)
    ltac:(vm_compute; reflexivity) (run_nil _)) as Hd.
  destruct (settle (λ _, true) 30 true false false (Some "boom") demo_job demo_claimed) as [t3 cb] eqn:E.
  destruct Hd as [[Hd _] _]. assert (cb = true) as -> by (vm_compute in E; congruence).
  exists t3. split; [reflexivity|]. destruct (Hd eq_refl) as (_ & j3 & _ & Ht & Hs & _). exists j3. split; [exact Ht|exact Hs].
Defined.

Lemma finished_is_final_witness :
  ∃ j, J_Status j = DeadLettered ∧
    (PurgeOldJobs 100 demo_recovered !! "jq_1" = Some j ∨ PurgeOldJobs 100 demo_recovered !! "jq_1" = None).
Proof.
  assert (Hrun : queue_run (["jq_1"] ++ []) (∅, ∅) ({["k1"]} ∪ ({["jq_1"]} ∪ ∅), demo_recovered)).
  { apply (run_step _ _ _ _ _ demo_claimed_run). apply q_recover. }
  eexists. assert (Hs : J_Status (default demo_job (demo_recovered !! "jq_1")) = DeadLettered) by (vm_compute; reflexivity).
  split; [exact Hs|].
  apply (finished_is_final _ _ _ [] ({["k1"]} ∪ ({["jq_1"]} ∪ ∅)) (PurgeOldJobs 100 demo_recovered) _ _ Hrun).
  - vm_compute. reflexivity.
  - right. exact Hs.
  - apply (run_step [] [] _ ({["k1"]} ∪ ({["jq_1"]} ∪ ∅), demo_recovered)); [constructor|]. apply q_purge.
Defined.

(** A job on its 32nd of 50 attempts. *)
Definition demo_poison : Job := {|
  J_ID := "jq_2"; J_Kind := KindActionRun; J_Status := Processing; J_Payload := "{}"; J_Attempts := 32;
  J_MaxAttempts := 50; J_Error := "x"; J_CreatedAt := 0; J_UpdatedAt := 0; J_AvailableAt := 0;
  J_LockedAt := Some 5; J_CompletedAt := None; J_LockToken := Some "k2" |}.

Lemma retry_backoff_witness :
  Fail (λ _, true) 10 "jq_2" "k2" "boom" {["jq_2" := demo_poison]} = ({["jq_2" := demo_poison]}, Err ErrIntegerRange) ∧
  RecoverStaleClaims (λ _, true) (30 * Second) (60 * Second) ∅ {["jq_2" := demo_poison]}
    = ({["jq_2" := demo_poison]}, Err ErrIntegerRange).
Proof.
  assert (Hh : held "jq_2" "k2" {["jq_2" := demo_poison]} = Some demo_poison) by (vm_compute; reflexivity).
  destruct (retry_backoff (λ _, true) 10 "jq_2" "k2" "boom" _ demo_poison Hh) as [Hf _]; [simpl; lia|].
  destruct (retry_backoff (λ _, true) (60 * Second) "jq_2" "k2" "boom" _ demo_poison Hh) as [_ Hr]; [simpl; lia|].
  split; [exact Hf|]. apply Hr; [done|]. apply (bool_decide_eq_true_1 _). vm_compute. reflexivity.
Defined.
