(* ===== verification/KeyedLock.v ===== *)
(** * Locks by key

    [lockAssetLifecycle] of [internal/agentmgr/lifecycle.go] and [LockUser] of
    [internal/auth/challenge.go], which is the same code: a mutex per key in a map of
    entries with a count of their users, so that an entry can go when nobody
    uses it.

    A thread of the model is one call of the function, with the release that it returns; a
    goroutine that holds several keys is several threads.  The steps of a call,
    between which the other threads can run, are the section under the map's own mutex that finds or creates the entry and
    counts the caller in ([acquire]), taking the entry's mutex ([lock]), releasing
    it ([unlock]), and the section that counts the caller out and deletes the
    entry with its last user ([drop]).  Entries are allocated at fresh locations,
    as the threads hold pointers to them. *)

From S2P Require Import Prelude.

Record entry := MkEntry { locked : bool; users_of : Z }.

Inductive phase :=
| Waiting (key : string) (loc : nat)
| Holding (key : string) (loc : nat)
| Releasing (key : string) (loc : nat).

Record lock_state := MkLock {
  lifecycles : gmap string nat;
  heap : gmap nat entry;
  next_loc : nat;
  threads : gmap nat phase }.

Definition new_lock : lock_state := MkLock ∅ ∅ 0 ∅.

Definition phase_key (p : phase) : string :=
  match p with Waiting k _ | Holding k _ | Releasing k _ => k end.
Definition phase_loc (p : phase) : nat :=
  match p with Waiting _ l | Holding _ l | Releasing _ l => l end.

Definition zero_entry : entry := MkEntry false 0.

(** Up to [m.lifecycleMu.Unlock()]. *)
Definition acquire (t : nat) (key : string) (s : lock_state) : lock_state :=
  match lifecycles s !! key with
  | Some l =>
      let e := default zero_entry (heap s !! l) in
      MkLock (lifecycles s) (<[l := MkEntry (locked e) (users_of e + 1)]> (heap s)) (next_loc s)
        (<[t := Waiting key l]> (threads s))
  | None =>
      let l := next_loc s in
      MkLock (<[key := l]> (lifecycles s)) (<[l := MkEntry false 1]> (heap s)) (S l)
        (<[t := Waiting key l]> (threads s))
  end.

(** [entry.mu.Lock()], which waits for a free mutex. *)
Definition lock (t : nat) (s : lock_state) : option lock_state :=
  match threads s !! t with
  | Some (Waiting k l) =>
      let e := default zero_entry (heap s !! l) in
      if locked e then None
      else Some (MkLock (lifecycles s) (<[l := MkEntry true (users_of e)]> (heap s)) (next_loc s)
                   (<[t := Holding k l]> (threads s)))
  | _ => None
  end.

(** [entry.mu.Unlock()] *)
Definition unlock (t : nat) (s : lock_state) : option lock_state :=
  match threads s !! t with
  | Some (Holding k l) =>
      let e := default zero_entry (heap s !! l) in
      Some (MkLock (lifecycles s) (<[l := MkEntry false (users_of e)]> (heap s)) (next_loc s)
              (<[t := Releasing k l]> (threads s)))
  | _ => None
  end.

(** The rest of the release function. *)
Definition drop_user (t : nat) (s : lock_state) : option lock_state :=
  match threads s !! t with
  | Some (Releasing k l) =>
      let e := default zero_entry (heap s !! l) in
      let n := users_of e - 1 in
      Some (MkLock (if n =? 0 then delete k (lifecycles s) else lifecycles s)
              (<[l := MkEntry (locked e) n]> (heap s)) (next_loc s) (delete t (threads s)))
  | _ => None
  end.

Inductive lock_step : lock_state → lock_state → Prop :=
| ls_acquire t key s : threads s !! t = None → lock_step s (acquire t key s)
| ls_lock t s s' : lock t s = Some s' → lock_step s s'
| ls_unlock t s s' : unlock t s = Some s' → lock_step s s'
| ls_drop t s s' : drop_user t s = Some s' → lock_step s s'.

(** ** Invariant *)

(** The threads that use an entry. *)
Definition user_count (l : nat) (ths : gmap nat phase) : Z := count_where (λ p, phase_loc p = l) ths.

Record lock_inv (s : lock_state) : Prop := {
  li_thread t p : threads s !! t = Some p → lifecycles s !! phase_key p = Some (phase_loc p);
  li_entry k l : lifecycles s !! k = Some l →
    (l < next_loc s)%nat ∧ 0 < user_count l (threads s) ∧
    ∃ e, heap s !! l = Some e ∧ users_of e = user_count l (threads s) ∧
      (locked e = true ↔ ∃ t k', threads s !! t = Some (Holding k' l));
  li_inj k1 k2 l : lifecycles s !! k1 = Some l → lifecycles s !! k2 = Some l → k1 = k2;
  li_holder t1 t2 k1 k2 l : threads s !! t1 = Some (Holding k1 l) → threads s !! t2 = Some (Holding k2 l) → t1 = t2 }.

Lemma lock_inv_init : lock_inv new_lock.
Proof. by constructor. Qed.

Lemma acquire_inv t key s : threads s !! t = None → lock_inv s → lock_inv (acquire t key s).
Proof.
  intros Ht [Hth Hen Hinj Hho]. unfold acquire. destruct (lifecycles s !! key) as [l|] eqn:Hk.
  - destruct (Hen _ _ Hk) as (Hl & Hpos & e & He & Hu & Hlk). rewrite He. simpl. constructor; simpl.
    + intros t' p [[<- <-]|[_ Hp]]%lookup_insert_Some; [done|by apply (Hth t')].
    + intros k' l' Hk'. destruct (Hen _ _ Hk') as (? & ? & e' & He' & Hu' & Hlk').
      unfold user_count. rewrite count_where_insert by done. fold (user_count l' (threads s)). simpl. split_and!; [done|case_decide; lia|].
      destruct (decide (l = l')) as [->|Hne].
      * exists (MkEntry (locked e) (users_of e + 1)). rewrite lookup_insert_eq. split_and!; [done|simpl; lia|]. simpl.
        rewrite Hlk. split; intros (t' & k0 & Hh); exists t', k0.
        -- rewrite lookup_insert_ne; [done|]. intros ->. congruence.
        -- by apply lookup_insert_Some in Hh as [[_ ?]|[_ ?]].
      * exists e'. rewrite lookup_insert_ne by done. split_and!; [done|lia|].
        rewrite Hlk'. split; intros (t' & k0 & Hh); exists t', k0.
        -- rewrite lookup_insert_ne; [done|]. intros ->. congruence.
        -- by apply lookup_insert_Some in Hh as [[_ ?]|[_ ?]].
    + done.
    + intros t1 t2 k1 k2 l' [[_ ?]|[_ H1]]%lookup_insert_Some [[_ ?]|[_ H2]]%lookup_insert_Some; try done. by eapply Hho.
  - assert (Hfresh : ∀ t' p, threads s !! t' = Some p → phase_loc p ≠ next_loc s).
    { intros t' p Hp Heq. apply Hth in Hp. apply Hen in Hp as (? & _). lia. }
    constructor; simpl.
    + intros t' p [[<- <-]|[_ Hp]]%lookup_insert_Some; simpl; [by rewrite lookup_insert_eq|].
      rewrite lookup_insert_ne; [by apply (Hth t')|]. intros ->. apply Hth in Hp. congruence.
    + intros k' l' Hk'. unfold user_count. rewrite count_where_insert by done. fold (user_count l' (threads s)). simpl.
      apply lookup_insert_Some in Hk' as [[<- <-]|[Hne Hk']].
      * unfold user_count at 1 2. rewrite count_where_zero by done. rewrite decide_True by done. split_and!; [lia|lia|].
        exists (MkEntry false 1). rewrite lookup_insert_eq. split_and!; [done|done|]. simpl. split; [done|].
        intros (t' & k0 & [[_ ?]|[_ Hh]]%lookup_insert_Some); [done|]. by apply Hfresh in Hh.
      * destruct (Hen _ _ Hk') as (? & ? & e' & He' & Hu' & Hlk'). rewrite decide_False by lia.
        split_and!; [lia|lia|]. exists e'. rewrite lookup_insert_ne by lia. split_and!; [done|lia|].
        rewrite Hlk'. split; intros (t' & k0 & Hh); exists t', k0.
        -- rewrite lookup_insert_ne; [done|]. intros ->. congruence.
        -- by apply lookup_insert_Some in Hh as [[_ ?]|[_ ?]].
    + intros k1 k2 l [[<- <-]|[_ H1]]%lookup_insert_Some [[<- Heq]|[_ H2]]%lookup_insert_Some; try done.
      * apply Hen in H2 as [? _]. lia.
      * subst. apply Hen in H1 as [? _]. lia.
      * by eapply Hinj.
    + intros t1 t2 k1 k2 l' [[_ ?]|[_ H1]]%lookup_insert_Some [[_ ?]|[_ H2]]%lookup_insert_Some; try done. by eapply Hho.
Qed.

(** A thread changes its phase and the mutex of its entry with it. *)
Lemma switch_inv t p p' b s :
  threads s !! t = Some p → phase_key p' = phase_key p → phase_loc p' = phase_loc p →
  (b = true ↔ ∃ k, p' = Holding k (phase_loc p)) →
  (∀ t' k, t' ≠ t → threads s !! t' ≠ Some (Holding k (phase_loc p))) →
  lock_inv s →
  lock_inv (MkLock (lifecycles s)
    (<[phase_loc p := MkEntry b (users_of (default zero_entry (heap s !! phase_loc p)))]> (heap s))
    (next_loc s) (<[t := p']> (threads s))).
Proof.
  intros Ht Hk Hl Hb Hothers [Hth Hen Hinj Hho]. constructor; simpl.
  - intros t' q [[<- <-]|[_ Hq]]%lookup_insert_Some; [rewrite Hk, Hl; by apply (Hth t)|by apply (Hth t')].
  - intros k l Hkl. destruct (Hen _ _ Hkl) as (? & ? & e & He & Hu & Hlk).
    assert (Hsame : user_count l (<[t := p']> (threads s)) = user_count l (threads s)).
    { unfold user_count. rewrite (count_where_replace _ _ t p p'), Hl by done. lia. }
    rewrite Hsame. split_and!; [done|done|].
    destruct (decide (phase_loc p = l)) as [<-|Hne].
    + rewrite lookup_insert_eq, He. eexists. split; [done|]. simpl. split; [done|]. rewrite Hb. split.
      * intros [k' ->]. exists t, k'. by rewrite lookup_insert_eq.
      * intros (t' & k' & [[_ Heq]|[Hne Hh]]%lookup_insert_Some); [by exists k'|].
        destruct (Hothers t' k'); congruence.
    + rewrite lookup_insert_ne by done. exists e. split_and!; [done|done|]. rewrite Hlk.
      split; intros (t' & k' & Hh); exists t', k'.
      * rewrite lookup_insert_ne; [done|]. intros ->. rewrite Ht in Hh. injection Hh as ->. by simpl in Hne.
      * apply lookup_insert_Some in Hh as [[_ Heq]|[_ ?]]; [|done]. subst p'. by simpl in Hl.
  - done.
  - intros t1 t2 k1 k2 l [[<- E1]|[N1 H1]]%lookup_insert_Some [[<- E2]|[N2 H2]]%lookup_insert_Some; try done.
    + destruct (Hothers t2 k2); [done|]. subst p'. simpl in Hl. by rewrite <-Hl.
    + destruct (Hothers t1 k1); [done|]. subst p'. simpl in Hl. by rewrite <-Hl.
    + by eapply Hho.
Qed.

Lemma lock_spec t s s' :
  lock t s = Some s' → lock_inv s →
  ∃ k l, threads s !! t = Some (Waiting k l) ∧ threads s' = <[t := Holding k l]> (threads s) ∧ lock_inv s'.
Proof.
  unfold lock. intros Hs Hi. destruct (threads s !! t) as [[k l|k l|k l]|] eqn:Ht; try done.
  destruct (locked _) eqn:Hlk; [done|]. injection Hs as <-. exists k, l. split_and!; [done|done|].
  apply (switch_inv t (Waiting k l) (Holding k l) true s); try done; [by split; [exists k|]|].
  intros t' k' _ Hh. simpl in Hh. pose proof (li_thread _ Hi _ _ Hh) as Hu. simpl in Hu.
  destruct (li_entry _ Hi _ _ Hu) as (_ & _ & e & He & _ & Hiff). rewrite He in Hlk. simpl in Hlk.
  rewrite (proj2 Hiff) in Hlk by eauto. done.
Qed.

Lemma unlock_spec t s s' :
  unlock t s = Some s' → lock_inv s →
  ∃ k l, threads s !! t = Some (Holding k l) ∧ threads s' = <[t := Releasing k l]> (threads s) ∧ lock_inv s'.
Proof.
  unfold unlock. intros Hs Hi. destruct (threads s !! t) as [[k l|k l|k l]|] eqn:Ht; try done.
  injection Hs as <-. exists k, l. split_and!; [done|done|].
  apply (switch_inv t (Holding k l) (Releasing k l) false s); try done; [by split; [|intros [? ?]]|].
  intros t' k' Hne Hh. apply Hne. by eapply (li_holder _ Hi).
Qed.

Lemma drop_spec t s s' :
  drop_user t s = Some s' → lock_inv s →
  ∃ k l, threads s !! t = Some (Releasing k l) ∧ threads s' = delete t (threads s) ∧ lock_inv s'.
Proof.
  unfold drop_user. intros Hs Hi. destruct (threads s !! t) as [[k l|k l|k l]|] eqn:Ht; try done.
  injection Hs as <-. exists k, l. split_and!; [done|done|]. pose proof Hi as [Hth Hen Hinj Hho].
  pose proof (Hth _ _ Ht) as Hk. simpl in Hk. destruct (Hen _ _ Hk) as (Hl & _ & e & He & Hu & Hlk).
  rewrite He. simpl.
  pose proof (λ l', count_where_delete (λ p, phase_loc p = l') _ t _ Ht) as Hcount.
  change (∀ l', user_count l' (delete t (threads s)) = user_count l' (threads s) - (if decide (l = l') then 1 else 0)) in Hcount.
  assert (Hdel : ∀ k' l', (if users_of e - 1 =? 0 then delete k (lifecycles s) else lifecycles s) !! k' = Some l' →
    lifecycles s !! k' = Some l').
  { intros k' l' Hd. destruct (_ =? 0); [by apply lookup_delete_Some in Hd as [_ ?]|done]. }
  constructor; simpl.
  - intros t' p [Hne Hp]%lookup_delete_Some. pose proof (Hth _ _ Hp) as Hkp.
    destruct (users_of e - 1 =? 0) eqn:Hz; [|done]. bool_prop. rewrite lookup_delete_ne; [done|].
    intros ->. rewrite Hkp in Hk. injection Hk as Hloc.
    assert (Hp' : delete t (threads s) !! t' = Some p) by by rewrite lookup_delete_ne.
    pose proof (count_where_pos (λ p, phase_loc p = l) _ t' p Hp' Hloc) as Hpos.
    fold (user_count l (delete t (threads s))) in Hpos. rewrite Hcount, decide_True in Hpos by done. lia.
  - intros k' l' Hk'. assert (Hkl := Hdel _ _ Hk'). destruct (Hen _ _ Hkl) as (? & ? & e' & He' & Hu' & Hlk').
    rewrite Hcount. split; [done|].
    assert (Hiff : (∃ t' k0, threads s !! t' = Some (Holding k0 l')) ↔
                   ∃ t' k0, delete t (threads s) !! t' = Some (Holding k0 l')).
    { split; intros (t' & k0 & Hh); exists t', k0; [|by apply lookup_delete_Some in Hh as [_ ?]].
      rewrite lookup_delete_ne; [done|]. intros ->. congruence. }
    destruct (decide (l = l')) as [<-|Hne].
    + assert (k' = k) as -> by by apply (Hinj _ _ l).
      destruct (users_of e - 1 =? 0) eqn:Hz; [by rewrite lookup_delete_eq in Hk'|]. bool_prop.
      split; [lia|]. exists (MkEntry (locked e) (users_of e - 1)). rewrite lookup_insert_eq. simpl.
      split_and!; [done|lia|]. by rewrite Hlk.
    + split; [lia|]. exists e'. rewrite lookup_insert_ne by done. split_and!; [done|lia|]. by rewrite Hlk'.
  - intros k1 k2 l' H1 H2. apply (Hinj _ _ l'); by apply Hdel.
  - intros t1 t2 k1 k2 l' [_ H1]%lookup_delete_Some [_ H2]%lookup_delete_Some. by eapply Hho.
Qed.

(** A key that can be taken is held by nobody. *)
Lemma lock_free t s s' k l t' l' :
  lock_inv s → lock t s = Some s' → threads s !! t = Some (Waiting k l) → threads s !! t' = Some (Holding k l') → False.
Proof.
  intros Hi Hlock Ht Hh. unfold lock in Hlock. rewrite Ht in Hlock.
  pose proof (li_thread _ Hi _ _ Hh) as E1. pose proof (li_thread _ Hi _ _ Ht) as E2. simpl in *.
  assert (l' = l) as -> by congruence. destruct (li_entry _ Hi _ _ E2) as (_ & _ & e & He & _ & Hiff).
  rewrite He in Hlock. simpl in Hlock. rewrite (proj2 Hiff) in Hlock by eauto. done.
Qed.

Lemma lock_step_inv s s' : lock_step s s' → lock_inv s → lock_inv s'.
Proof.
  intros [t key s0 Ht|t s0 s1 Hs|t s0 s1 Hs|t s0 s1 Hs] Hi.
  - by apply acquire_inv.
  - by destruct (lock_spec _ _ _ Hs Hi) as (_ & _ & _ & _ & ?).
  - by destruct (unlock_spec _ _ _ Hs Hi) as (_ & _ & _ & _ & ?).
  - by destruct (drop_spec _ _ _ Hs Hi) as (_ & _ & _ & _ & ?).
Qed.

Lemma lock_steps_inv s s' : rtc lock_step s s' → lock_inv s → lock_inv s'.
Proof. induction 1; [done|]. eauto using lock_step_inv. Qed.

Lemma one_holder s t1 t2 k l1 l2 :
  lock_inv s → threads s !! t1 = Some (Holding k l1) → threads s !! t2 = Some (Holding k l2) → t1 = t2.
Proof.
  intros Hi H1 H2. pose proof (li_thread _ Hi _ _ H1) as E1. pose proof (li_thread _ Hi _ _ H2) as E2.
  simpl in *. assert (l1 = l2) as -> by congruence. by eapply (li_holder _ Hi).
Qed.

Lemma acquire_threads t key s : ∃ l, threads (acquire t key s) = <[t := Waiting key l]> (threads s).
Proof. unfold acquire. destruct (lifecycles s !! key); eauto. Qed.

(** A thread that waits can go on, or another thread holds its key. *)
Lemma waiting_progress s t k l :
  lock_inv s → threads s !! t = Some (Waiting k l) →
  is_Some (lock t s) ∨ ∃ t' l', threads s !! t' = Some (Holding k l') ∧ is_Some (unlock t' s).
Proof.
  intros Hi Ht. unfold lock. rewrite Ht. pose proof (li_thread _ Hi _ _ Ht) as Hk. simpl in Hk.
  destruct (li_entry _ Hi _ _ Hk) as (_ & _ & e & He & _ & Hlk). rewrite He. simpl.
  destruct (locked e); [right|left; by eexists]. destruct (proj1 Hlk eq_refl) as (t' & k' & Hh).
  pose proof (li_thread _ Hi _ _ Hh) as Hk'. simpl in Hk'. assert (k' = k) as -> by by apply (li_inj _ Hi _ _ l).
  exists t', l. split; [done|]. unfold unlock. rewrite Hh. by eexists.
Qed.

(** C12: the lock by key is a lock and leaks nothing, over any interleaving of
    any threads on any keys: no two threads hold a key together; an entry exists exactly for the keys in use, so
    the map is empty when no thread is in it; and a thread that waits for a key
    can always take it, unless another thread holds that very key and can release it. *)
Theorem keyed_lock s :
  rtc lock_step new_lock s →
  (∀ t1 t2 k l1 l2, threads s !! t1 = Some (Holding k l1) → threads s !! t2 = Some (Holding k l2) → t1 = t2) ∧
  (∀ k, is_Some (lifecycles s !! k) ↔ ∃ t p, threads s !! t = Some p ∧ phase_key p = k) ∧
  (∀ t k l, threads s !! t = Some (Waiting k l) →
     is_Some (lock t s) ∨ ∃ t' l', threads s !! t' = Some (Holding k l') ∧ is_Some (unlock t' s)).
Proof.
  intros Hs. apply lock_steps_inv in Hs as Hi; [|apply lock_inv_init]. split_and!.
  - intros t1 t2 k l1 l2. by apply one_holder.
  - intros k. split.
    + intros [l Hl]. destruct (li_entry _ Hi _ _ Hl) as (_ & Hpos & _).
      destruct (decide (map_Forall (λ _ p, phase_loc p ≠ l) (threads s))) as [Hall|Hex].
      { unfold user_count in Hpos. rewrite count_where_zero in Hpos by exact Hall. lia. }
      apply map_not_Forall in Hex as (t & p & Hp & Hnl); [|apply _].
      exists t, p. split; [done|]. apply dec_stable in Hnl. pose proof (li_thread _ Hi _ _ Hp) as Hkp.
      apply (li_inj _ Hi _ _ l); congruence.
    + intros (t & p & Hp & <-). rewrite (li_thread _ Hi _ _ Hp). by eexists.
  - intros t k l. by apply waiting_progress.
Qed.

(** Two threads on one key: the second waits for the first. *)
Definition demo_contended : lock_state :=
  acquire 2 "node" (default new_lock (lock 1 (acquire 1 "node" new_lock))).

Lemma keyed_lock_witness :
  lock 2 demo_contended = None ∧
  ∃ t' l', threads demo_contended !! t' = Some (Holding "node" l') ∧ is_Some (unlock t' demo_contended).
Proof.
  destruct (keyed_lock demo_contended) as (_ & _ & Hw).
  - eapply rtc_l; [by apply (ls_acquire 1 "node")|].
    eapply rtc_l; [apply (ls_lock 1); vm_compute; reflexivity|].
    apply rtc_once. apply (ls_acquire 2 "node"). vm_compute. reflexivity.
  - assert (Hn : lock 2 demo_contended = None) by (vm_compute; reflexivity). split; [exact Hn|].
    destruct (Hw 2%nat "node" 0%nat) as [Hl|Hh]; [vm_compute; reflexivity| |exact Hh].
    rewrite Hn in Hl. destruct Hl as [x Hx]. discriminate Hx.
Defined.
