(* ===== verification/LockedCalls.v ===== *)
(** * Calls under a lock by key

    The hub's pattern for work that must not overlap for one asset or one user: a call takes the lock of its key
    ([KeyedLock]), runs a few sections that are atomic each, and releases the lock when it
    returns.  Calls for other keys, and code that takes no lock, run in between.

    A call is a program of atomic actions ([prog]).  The machine ([step]) interleaves any number of
    calls action by action.  A weakest precondition ([wp]) reasons about one call on its own: it
    holds its key, so others change the state only as [rely] of that key allows; it
    must itself keep to [rely] of every other key and keep [during] of its own, and leave the invariant [inv] of its key when it
    returns.  [locked_sound] says that this is enough for every interleaving. *)

From S2P Require Import Prelude KeyedLock.

(** What is left of a call: an action on the state, which can log events, and the rest,
    which depends on the state that the action saw. *)
Inductive prog (S E R : Type) :=
| Return (r : R)
| Atomic (act : S → S * list E) (next : S → prog S E R).
Arguments Return {S E R} _.
Arguments Atomic {S E R} _ _.

(** An action that only looks, one that only writes, and one that only logs. *)
Definition read {S E R} (next : S → prog S E R) : prog S E R := Atomic (λ s, (s, [])) next.
Definition write {S E R} (f : S → S) (next : prog S E R) : prog S E R := Atomic (λ s, (f s, [])) (λ _, next).

(** At most [n] actions are left. *)
Fixpoint within {S E R} (n : nat) (p : prog S E R) {struct p} : Prop :=
  match p, n with
  | Return _, _ => True
  | Atomic _ _, O => False
  | Atomic _ next, S n => ∀ s, within n (next s)
  end.

Lemma within_le {S E R} n n' (p : prog S E R) : (n ≤ n')%nat → within n p → within n' p.
Proof.
  revert n' p. induction n as [|n IH]; intros n' [b|act next] Hle Hw; try done.
  destruct n' as [|n']; [lia|]. intros s. apply IH; [lia|]. apply Hw.
Qed.

(** A call on its own, with nothing in between. *)
Fixpoint exec {S E R} (p : prog S E R) (s : S) : R * S :=
  match p with
  | Return r => (r, s)
  | Atomic act next => exec (next s) (act s).1
  end.

(** ** The machine *)

Section machine.
Context {S E R C : Type} (start : C → option (string * prog S E R)) (outside : S → S → Prop).

(** A running call: what it was called with, what it has logged, what is left. *)
Record running := MkRunning { called : C; logged : list E; rest : prog S E R }.

Record state := MkState { shared : S; locks : lock_state; calls : gmap nat running }.

Definition init (s : S) : state := MkState s new_lock ∅.

Definition begin (t : nat) (c : C) (key : string) (p : prog S E R) (st : state) : state :=
  MkState (shared st) (acquire t key (locks st)) (<[t := MkRunning c [] p]> (calls st)).

Definition with_locks (st : state) (l : lock_state) : state := MkState (shared st) l (calls st).

(** One action of the call of a thread that holds its lock. *)
Definition run (t : nat) (st : state) : option state :=
  match threads (locks st) !! t, calls st !! t with
  | Some (Holding _ _), Some (MkRunning c es (Atomic act next)) =>
      Some (MkState (act (shared st)).1 (locks st)
              (<[t := MkRunning c (es ++ (act (shared st)).2) (next (shared st))]> (calls st)))
  | _, _ => None
  end.

(** The deferred release, when the call has returned. *)
Definition leave (t : nat) (st : state) : option state :=
  match calls st !! t with
  | Some (MkRunning _ _ (Return _)) => with_locks st <$> unlock t (locks st)
  | _ => None
  end.

(** The next step of a thread. *)
Definition advance (t : nat) (st : state) : option state :=
  match threads (locks st) !! t with
  | Some (Waiting _ _) => with_locks st <$> lock t (locks st)
  | Some (Holding _ _) => match run t st with Some st' => Some st' | None => leave t st end
  | Some (Releasing _ _) => with_locks st <$> drop_user t (locks st)
  | None => None
  end.

(** A call begins, a thread goes on, or code without the lock changes the state. *)
Inductive step (st : state) : state → Prop :=
| st_begin t c key p : threads (locks st) !! t = None → start c = Some (key, p) → step st (begin t c key p st)
| st_thread t st' : advance t st = Some st' → step st st'
| st_outside s' : outside (shared st) s' → step st (MkState s' (locks st) (calls st)).

Definition holds (st : state) (k : string) : Prop := ∃ t loc, threads (locks st) !! t = Some (Holding k loc).

(** The ways a thread can advance. *)
Lemma advance_cases t st st' :
  advance t st = Some st' →
  (∃ l, lock t (locks st) = Some l ∧ st' = with_locks st l) ∨ run t st = Some st' ∨
  leave t st = Some st' ∨ (∃ l, drop_user t (locks st) = Some l ∧ st' = with_locks st l).
Proof.
  unfold advance. destruct (threads (locks st) !! t) as [[k l|k l|k l]|]; [| | |done].
  - intros (l' & Hl & ->)%fmap_Some. left. eauto.
  - destruct (run t st); [intros [= <-]; auto|auto].
  - intros (l' & Hl & ->)%fmap_Some. do 3 right. eauto.
Qed.

End machine.
Arguments running : clear implicits.
Arguments state : clear implicits.

(** ** Reasoning about one call *)

Section logic.
Context {S E R C : Type} (start : C → option (string * prog S E R)) (outside : S → S → Prop).
Context (rely : string → S → S → Prop) (evolve : S → S → Prop).
Context (inv during : string → S → Prop) (post : string → C → R → list E → S → Prop).

(** What the logic needs to know of the conditions. *)
Class LockedSpec : Prop := {
  rely_preorder k :: PreOrder (rely k);
  rely_evolve k s s' : rely k s s' → evolve s s';
  evolve_preorder :: PreOrder evolve;
  inv_stable k s s' : inv k s → rely k s s' → inv k s';
  inv_during k s : inv k s → during k s;
  during_stable k s s' : during k s → rely k s s' → during k s';
  post_stable k c r es s s' : post k c r es s → evolve s s' → post k c r es s';
  outside_rely k s s' : outside s s' → rely k s s' }.

Fixpoint wp (k : string) (c : C) (p : prog S E R) (s : S) (es : list E) : Prop :=
  match p with
  | Return r => inv k s ∧ post k c r es s
  | Atomic act next => ∀ s', rely k s s' →
      evolve s' (act s').1 ∧ (∀ k', k' ≠ k → rely k' s' (act s').1) ∧ during k (act s').1 ∧
      wp k c (next s') (act s').1 (es ++ (act s').2)
  end.

Context `{LockedSpec}.

Lemma wp_rely k c p s s' es : wp k c p s es → rely k s s' → wp k c p s' es.
Proof.
  destruct p as [r|act next]; simpl.
  - intros [Hi Hp] Hr. split; [by eapply inv_stable|by eapply post_stable, rely_evolve].
  - intros Hw Hr s1 Hs1. apply Hw. by etrans.
Qed.

(** The condition of a thread in a call. *)
Definition call_ok (st : state S E R C) (t : nat) (ph : phase) : Prop :=
  ∃ r, calls st !! t = Some r ∧
  match ph with
  | Waiting k _ => logged r = [] ∧ ∀ s, inv k s → wp k (called r) (rest r) s []
  | Holding k _ => wp k (called r) (rest r) (shared st) (logged r)
  | Releasing k _ => ∃ x, rest r = Return x ∧ post k (called r) x (logged r) (shared st)
  end.

Record state_inv (st : state S E R C) : Prop := {
  si_locks : lock_inv (locks st);
  si_inv k : ¬ holds st k → inv k (shared st);
  si_during k : during k (shared st);
  si_call t ph : threads (locks st) !! t = Some ph → call_ok st t ph }.

Hypothesis start_ok : ∀ c k p s, start c = Some (k, p) → inv k s → wp k c p s [].

Lemma init_inv s : (∀ k, inv k s) → state_inv (init s).
Proof. intros Hs. split; [apply lock_inv_init|done|intros k; by apply inv_during, Hs|done]. Qed.

(** Nothing of a call changes while others keep to its rely. *)
Lemma call_ok_others st s' t ph :
  (∀ k loc, ph = Holding k loc → rely k (shared st) s') → evolve (shared st) s' →
  call_ok st t ph → call_ok (MkState s' (locks st) (calls st)) t ph.
Proof.
  intros Hr He (r & Hc & Hok). exists r. split; [done|]. destruct ph as [k l|k l|k l]; simpl in *.
  - done.
  - by eapply wp_rely; [|eapply Hr].
  - destruct Hok as (x & Hx & Hp). exists x. split; [done|]. by eapply post_stable.
Qed.

Lemma begin_inv t c key p st :
  threads (locks st) !! t = None → start c = Some (key, p) → state_inv st → state_inv (begin t c key p st).
Proof.
  intros Ht Hs [Hl Hi Hd Hc]. destruct (acquire_threads t key (locks st)) as [loc Hths]. split; simpl.
  - by apply acquire_inv.
  - intros k Hn. apply Hi. intros (t' & loc' & Hh). apply Hn. exists t', loc'. simpl.
    rewrite Hths, lookup_insert_ne; [done|]. congruence.
  - done.
  - intros t' ph. rewrite Hths. unfold call_ok. simpl. intros [[<- <-]|[Hne Hp]]%lookup_insert_Some.
    + exists (MkRunning c [] p). rewrite lookup_insert_eq. split_and!; [done|done|]. intros s. by apply start_ok.
    + rewrite lookup_insert_ne by done. by apply Hc.
Qed.

Lemma lock_thread_inv t l st : lock t (locks st) = Some l → state_inv st → state_inv (with_locks st l).
Proof.
  intros Hlock [Hl Hi Hd Hc]. destruct (lock_spec _ _ _ Hlock Hl) as (k & loc & Ht & Hths & Hl'). split; simpl; [done| |done|].
  - intros k' Hn. apply Hi. intros (t' & loc' & Hh). apply Hn. exists t', loc'. simpl.
    rewrite Hths, lookup_insert_ne; [done|]. congruence.
  - intros t' ph. rewrite Hths. unfold call_ok. simpl. intros [[<- <-]|[Hne Hp]]%lookup_insert_Some; [|by apply Hc].
    destruct (Hc _ _ Ht) as (r & Hr & Hlog & Hwp). exists r. split; [done|]. rewrite Hlog. apply Hwp, Hi.
    intros (t' & loc' & Hh). by eapply lock_free in Hlock.
Qed.

Lemma run_call_inv t st st' : run t st = Some st' → state_inv st → state_inv st'.
Proof.
  unfold run. intros Hrun [Hl Hi Hd Hc]. destruct (threads (locks st) !! t) as [[k loc|k loc|k loc]|] eqn:Ht; try done.
  destruct (Hc _ _ Ht) as (r & Hr & Hwp). rewrite Hr in Hrun. destruct r as [c es [x|act next]]; [done|].
  injection Hrun as <-. simpl in Hwp. destruct (Hwp (shared st)) as (Hev & Hothers & Hown & Hnext); [done|]. fold wp in Hnext.
  split; simpl; [done| | |].
  - intros k' Hn. assert (k' ≠ k) as Hk by (intros ->; apply Hn; by exists t, loc).
    eapply inv_stable; [apply Hi|by apply Hothers]. intros (t' & loc' & Hh). apply Hn. by exists t', loc'.
  - intros k'. destruct (decide (k' = k)) as [->|Hk]; [done|]. by eapply during_stable, Hothers.
  - intros t' ph Hph. destruct (decide (t' = t)) as [->|Hne].
    + rewrite Ht in Hph. injection Hph as <-. eexists. simpl. rewrite lookup_insert_eq. by split.
    + destruct (call_ok_others st (act (shared st)).1 t' ph) as (r & Hr' & Hok); [|done|by apply Hc|].
      { intros k' loc' ->. apply Hothers. intros ->. apply Hne. by eapply one_holder. }
      exists r. simpl. by rewrite lookup_insert_ne.
Qed.

Lemma leave_inv t st st' : leave t st = Some st' → state_inv st → state_inv st'.
Proof.
  unfold leave. intros Hleave [Hl Hi Hd Hc]. destruct (calls st !! t) as [[c es [x|act next]]|] eqn:Hr; try done.
  apply fmap_Some in Hleave as (l & Hu & ->). destruct (unlock_spec _ _ _ Hu Hl) as (k & loc & Ht & Hths & Hl').
  destruct (Hc _ _ Ht) as (r & Hr' & Hwp). rewrite Hr in Hr'. injection Hr' as <-. destruct Hwp as [Hinv Hpost]. simpl in Hpost.
  split; simpl; [done| |done|].
  - intros k' Hn. destruct (decide (k' = k)) as [->|Hne]; [done|]. apply Hi. intros (t' & loc' & Hh). apply Hn.
    exists t', loc'. simpl. rewrite Hths, lookup_insert_ne; [done|]. congruence.
  - intros t' ph. rewrite Hths. unfold call_ok. simpl. intros [[<- <-]|[Hne Hp]]%lookup_insert_Some; [|by apply Hc].
    eexists. split; [done|]. by exists x.
Qed.

Lemma drop_inv t l st : drop_user t (locks st) = Some l → state_inv st → state_inv (with_locks st l).
Proof.
  intros Hdrop [Hl Hi Hd Hc]. destruct (drop_spec _ _ _ Hdrop Hl) as (k & loc & Ht & Hths & Hl'). split; simpl; [done| |done|].
  - intros k' Hn. apply Hi. intros (t' & loc' & Hh). apply Hn. exists t', loc'. simpl.
    rewrite Hths, lookup_delete_ne; [done|]. congruence.
  - intros t' ph. rewrite Hths. intros [_ Hp]%lookup_delete_Some. by apply Hc.
Qed.

Lemma outside_inv s' st : outside (shared st) s' → state_inv st → state_inv (MkState s' (locks st) (calls st)).
Proof.
  intros Ho [Hl Hi Hd Hc]. split; simpl; [done| | |].
  - intros k Hn. eapply inv_stable; [by apply Hi|by apply outside_rely].
  - intros k. eapply during_stable; [by apply Hd|by apply outside_rely].
  - intros t ph Hph. apply call_ok_others; [intros; by apply outside_rely| |by apply Hc].
    eapply (rely_evolve ""). by apply outside_rely.
Qed.

Lemma step_inv st st' : step start outside st st' → state_inv st → state_inv st'.
Proof.
  intros [t c key p|t st1 Ha|s'] Hi; [by apply begin_inv| |by apply outside_inv].
  apply advance_cases in Ha as [(l & ? & ->)|[?|[?|(l & ? & ->)]]];
    eauto using lock_thread_inv, run_call_inv, leave_inv, drop_inv.
Qed.

(** Every interleaving keeps the invariant of every key that nobody holds, and every call
    that has returned has established its postcondition. *)
Lemma locked_sound s st : (∀ k, inv k s) → rtc (step start outside) (init s) st → state_inv st.
Proof.
  intros Hs Hr. assert (Hi := init_inv s Hs). revert Hi. induction Hr; eauto using step_inv.
Qed.

(** ** Progress *)

Lemma advance_holder st t k loc :
  state_inv st → threads (locks st) !! t = Some (Holding k loc) → is_Some (advance t st).
Proof.
  intros [_ _ _ Hc] Ht. destruct (Hc _ _ Ht) as (r & Hr & _). unfold advance, run, leave, unlock.
  rewrite Ht, Hr. destruct r as [c es [x|act next]]; by eexists.
Qed.

Lemma locked_progress st t ph :
  state_inv st → threads (locks st) !! t = Some ph →
  is_Some (advance t st) ∨
  ∃ t' loc, threads (locks st) !! t' = Some (Holding (phase_key ph) loc) ∧ is_Some (advance t' st).
Proof.
  intros Hi Ht. destruct ph as [k l|k l|k l].
  - destruct (waiting_progress _ _ _ _ (si_locks _ Hi) Ht) as [[l' Hl]|(t' & l' & Hh & _)].
    + left. unfold advance. rewrite Ht, Hl. by eexists.
    + right. exists t', l'. split; [done|]. by eapply advance_holder.
  - left. by eapply advance_holder.
  - left. unfold advance, drop_user. rewrite Ht. by eexists.
Qed.

End logic.

(** ** Bounds *)

Section bounds.
Context {S E R C : Type} (start : C → option (string * prog S E R)) (outside : S → S → Prop).

Definition calls_within (n : nat) (st : state S E R C) : Prop := ∀ t r, calls st !! t = Some r → within n (rest r).

Lemma run_within n s st :
  (∀ c k p, start c = Some (k, p) → within n p) → rtc (step start outside) (init s) st → calls_within n st.
Proof.
  intros Hstart Hr. assert (Hi : calls_within n (init s : state S E R C)) by (intros t r; simpl; by rewrite lookup_empty).
  revert Hi. induction Hr as [|st1 st2 st3 Hs _ IH]; [done|]. intros Hc. apply IH. clear IH.
  destruct Hs as [t c key p _ Hst|t st' Ha|s']; [| |done].
  - intros t' r. simpl. intros [[<- <-]|[_ Hr]]%lookup_insert_Some; [by eapply Hstart|by eapply Hc].
  - apply advance_cases in Ha as [(l & _ & ->)|[Hrun|[Hlv|(l & _ & ->)]]]; [done| | |done].
    + unfold run in Hrun. destruct (threads _ !! t) as [[]|]; try done.
      destruct (calls st1 !! t) as [[c es [x|act next]]|] eqn:Hr; try done. injection Hrun as <-.
      intros t' r. simpl. intros [[<- <-]|[_ Hr']]%lookup_insert_Some; [|by eapply Hc].
      apply Hc in Hr. destruct n as [|n]; [done|]. eapply (within_le n); [lia|]. apply Hr.
    + unfold leave in Hlv. destruct (calls st1 !! t) as [[c es [x|]]|]; try done.
      by apply fmap_Some in Hlv as (l & _ & ->).
Qed.

(** ** Schedules *)

Inductive op := Begin (t : nat) (c : C) | Go (t : nat).

Definition play_op (o : op) (st : state S E R C) : option (state S E R C) :=
  match o with
  | Begin t c =>
      match threads (locks st) !! t, start c with
      | None, Some (key, p) => Some (begin t c key p st)
      | _, _ => None
      end
  | Go t => advance t st
  end.

Fixpoint play (os : list op) (st : state S E R C) : option (state S E R C) :=
  match os with
  | [] => Some st
  | o :: os => match play_op o st with Some st' => play os st' | None => None end
  end.

Lemma play_op_step o st st' : play_op o st = Some st' → step start outside st st'.
Proof.
  destruct o as [t c|t]; simpl; [|by apply st_thread].
  destruct (threads _ !! t) eqn:Ht; [done|]. destruct (start c) as [[key p]|] eqn:Hc; [|done].
  intros [= <-]. by apply st_begin.
Qed.

Lemma play_steps os st st' : play os st = Some st' → rtc (step start outside) st st'.
Proof.
  revert st. induction os as [|o os IH]; intros st; simpl; [by intros [= ->]|].
  destruct (play_op o st) as [st1|] eqn:Ho; [|done]. intros Hs. eapply rtc_l; [by eapply play_op_step|]. by apply IH.
Qed.

Definition is_some {A} (o : option A) : bool := match o with Some _ => true | None => false end.

Lemma play_reachable os s st :
  is_some (play os st) = true → rtc (step start outside) (init s) st →
  rtc (step start outside) (init s) (default st (play os st)).
Proof. destruct (play os st) as [st'|] eqn:Hp; [|done]. intros _ Hs. eapply rtc_trans; [exact Hs|]. by eapply play_steps. Qed.

End bounds.
