(* ===== verification/AgentLifecycle.v ===== *)
(** * Connections of agents

    [AgentManager] of [internal/agentmgr] ([manager.go], [lifecycle.go] and the
    [Close]/[Done] of [conn.go]): [RegisterWithLifecycle], [UnregisterIfMatch] and
    [DispatchIfCurrent] all run under the lock of their asset, but drop the
    manager's own mutex around every callback and every look at the connection.  They are programs of
    [LockedCalls]: one action for each section under [m.mu], each use of a connection and
    each start and end of a callback.  Connections close by themselves at any time.  A callback is arbitrary
    code between its two events, except that it does not
    register or unregister its own asset, which the code forbids it (it would wait for itself). *)

From S2P Require Import Prelude KeyedLock LockedCalls.

(** A pointer to a connection, with the field of it that never changes. *)
Record AgentConn := MkConn { pointer : nat; AssetID : string }.

#[global] Instance AgentConn_eq_dec : EqDecision AgentConn.
Proof. solve_decision. Defined.

(** A callback, by its identity. *)
Definition callback := nat.

Inductive event :=
| Removed (c : AgentConn)
| Closed (c : AgentConn)
| CleanupStart (f : callback) (c : AgentConn)
| CleanupEnd (f : callback) (c : AgentConn)
| Added (c : AgentConn) (cleanup : option callback)
| PublishStart (f : callback) (c : AgentConn)
| PublishEnd (f : callback) (c : AgentConn)
| HandleStart (f : callback) (c : AgentConn)
| HandleEnd (f : callback) (c : AgentConn).

#[global] Instance event_eq_dec : EqDecision event.
Proof. solve_decision. Defined.

(** The fields of the manager, and the connections whose [done] is closed. *)
Record manager := MkManager {
  conns : gmap string AgentConn;
  disconnectCleanups : gmap string (option callback);
  closed : gset nat }.

Definition NewManager : manager := MkManager ∅ ∅ ∅.

(** The manager, with the events logged so far. *)
Record world := MkWorld { mgr : manager; trace : list event }.

Definition init_world : world := MkWorld NewManager [].

Definition call_prog := prog world event bool.

(** An action on the manager. *)
Definition on_manager (f : manager → manager * list event) (next : manager → call_prog) : call_prog :=
  Atomic (λ w, (MkWorld (f (mgr w)).1 (trace w ++ (f (mgr w)).2), (f (mgr w)).2)) (λ w, next (mgr w)).

Definition look (next : manager → call_prog) : call_prog := on_manager (λ m, (m, [])) next.
Definition log (e : event) (next : call_prog) : call_prog := on_manager (λ m, (m, [e])) (λ _, next).

(** [conn.Close()] *)
Definition Close (c : AgentConn) (next : call_prog) : call_prog :=
  on_manager (λ m, (MkManager (conns m) (disconnectCleanups m) ({[pointer c]} ∪ closed m), [Closed c])) (λ _, next).

(** [select { case <-conn.Done(): yes; default: no }] *)
Definition select_done (c : AgentConn) (yes no : call_prog) : call_prog :=
  look (λ m, if decide (pointer c ∈ closed m) then yes else no).

Definition call_cleanup (cleanup : option callback) (c : AgentConn) (next : call_prog) : call_prog :=
  match cleanup with
  | Some f => log (CleanupStart f c) (log (CleanupEnd f c) next)
  | None => next
  end.

Definition call_publish (publish : option callback) (c : AgentConn) (next : call_prog) : call_prog :=
  match publish with
  | Some f => log (PublishStart f c) (log (PublishEnd f c) next)
  | None => next
  end.

(** The connection that the section under [m.mu] removes. *)
Definition to_remove (m : manager) (assetID : string) (expectedConn : option AgentConn) : option AgentConn :=
  match conns m !! assetID with
  | Some conn =>
      match expectedConn with
      | Some expected => if decide (conn = expected) then Some conn else None
      | None => Some conn
      end
  | None => None
  end.

Definition unregisterInLifecycle (assetID : string) (expectedConn : option AgentConn) (next : bool → call_prog) : call_prog :=
  on_manager
    (λ m, match to_remove m assetID expectedConn with
          | Some conn =>
              (MkManager (delete assetID (conns m)) (delete assetID (disconnectCleanups m)) (closed m), [Removed conn])
          | None => (m, [])
          end)
    (λ m, match to_remove m assetID expectedConn with
          | Some conn =>
              let cleanup := default None (disconnectCleanups m !! assetID) in
              Close conn (call_cleanup cleanup conn (next true))
          | None => next false
          end).

Definition add (conn : AgentConn) (cleanup : option callback) (next : call_prog) : call_prog :=
  on_manager
    (λ m, (MkManager (<[AssetID conn := conn]> (conns m)) (<[AssetID conn := cleanup]> (disconnectCleanups m))
             (closed m), [Added conn cleanup]))
    (λ _, next).

(** [Get], [IsConnected], [Count] read the manager under its mutex. *)
Definition Get (m : manager) (assetID : string) : option AgentConn := conns m !! assetID.
Definition IsConnected (m : manager) (assetID : string) : bool := bool_decide (is_Some (conns m !! assetID)).
Definition Count (m : manager) : nat := size (conns m).

(** [m.Get(conn.AssetID)], compared with [conn]. *)
Definition is_current (m : manager) (conn : AgentConn) : bool :=
  bool_decide (Get m (AssetID conn) = Some conn).

(** The functions, from the lock of the asset to its release. *)
Definition RegisterWithLifecycle (conn : AgentConn) (cleanup publish : option callback) : call_prog :=
  look (λ m,
    if is_current m conn then Return false
    else
      unregisterInLifecycle (AssetID conn) None (λ replaced,
        add conn cleanup (call_publish publish conn (Return replaced)))).

Definition UnregisterIfMatch (assetID : string) (expectedConn : option AgentConn) : call_prog :=
  unregisterInLifecycle assetID expectedConn Return.

Definition DispatchIfCurrent (conn : AgentConn) (handle : callback) : call_prog :=
  look (λ m,
    if negb (is_current m conn) then Return false
    else
      select_done conn
        (unregisterInLifecycle (AssetID conn) (Some conn) (λ _, Return false))
        (log (HandleStart handle conn) (log (HandleEnd handle conn)
          (select_done conn
            (unregisterInLifecycle (AssetID conn) (Some conn) (λ _, Return true))
            (Return true))))).

(** A call with its arguments, where [None] is [nil]. *)
Inductive call :=
| CallRegister (conn : option AgentConn) (cleanup publish : option callback)
| CallUnregister (assetID : string) (expectedConn : option AgentConn)
| CallDispatch (conn : option AgentConn) (handle : option callback).

Definition Register (conn : option AgentConn) : call := CallRegister conn None None.
Definition Unregister (assetID : string) : call := CallUnregister assetID None.

(** The asset that a call locks and what it does then; [None] for a call that
    returns at its first test. *)
Definition start (c : call) : option (string * call_prog) :=
  match c with
  | CallRegister (Some conn) cleanup publish => Some (AssetID conn, RegisterWithLifecycle conn cleanup publish)
  | CallUnregister assetID expectedConn => Some (assetID, UnregisterIfMatch assetID expectedConn)
  | CallDispatch (Some conn) (Some handle) => Some (AssetID conn, DispatchIfCurrent conn handle)
  | _ => None
  end.

(** A connection is closed by somebody else. *)
Inductive hangup : world → world → Prop :=
| hang_up ptr w :
    hangup w (MkWorld (MkManager (conns (mgr w)) (disconnectCleanups (mgr w)) ({[ptr]} ∪ closed (mgr w))) (trace w)).

(** The hub: any number of calls and hangups. *)
Definition hub := state world event bool call.
Definition reachable (st : hub) : Prop := rtc (step start hangup) (init init_world) st.

(** ** What an asset goes through *)

Inductive life :=
| Offline
| Online (c : AgentConn) (cleanup : option callback)
| Publishing (f : callback) (c : AgentConn) (cleanup : option callback)
| Handling (f : callback) (c : AgentConn) (cleanup : option callback)
| Leaving (c : AgentConn) (cleanup : option callback)
| Retired (f : callback) (c : AgentConn)
| Cleaning (f : callback) (c : AgentConn).

(** The only next states there are. *)
Definition life_step (l : life) (e : event) : option life :=
  match l, e with
  | Offline, Added c cl => Some (Online c cl)
  | Online c cl, PublishStart f c' => if decide (c = c') then Some (Publishing f c cl) else None
  | Publishing f c cl, PublishEnd f' c' => if decide (f = f' ∧ c = c') then Some (Online c cl) else None
  | Online c cl, HandleStart f c' => if decide (c = c') then Some (Handling f c cl) else None
  | Handling f c cl, HandleEnd f' c' => if decide (f = f' ∧ c = c') then Some (Online c cl) else None
  | Online c cl, Removed c' => if decide (c = c') then Some (Leaving c cl) else None
  | Leaving c cl, Closed c' =>
      if decide (c = c') then Some (match cl with Some f => Retired f c | None => Offline end) else None
  | Retired f c, CleanupStart f' c' => if decide (f = f' ∧ c = c') then Some (Cleaning f c) else None
  | Cleaning f c, CleanupEnd f' c' => if decide (f = f' ∧ c = c') then Some Offline else None
  | _, _ => None
  end.

Fixpoint live (l : life) (es : list event) : option life :=
  match es with
  | [] => Some l
  | e :: es => match life_step l e with Some l' => live l' es | None => None end
  end.

Definition event_conn (e : event) : AgentConn :=
  match e with
  | Removed c | Closed c | CleanupStart _ c | CleanupEnd _ c | Added c _
  | PublishStart _ c | PublishEnd _ c | HandleStart _ c | HandleEnd _ c => c
  end.

(** The part of a trace that is about an asset. *)
Definition events_of (a : string) (es : list event) : list event :=
  filter (λ e, AssetID (event_conn e) = a) es.

(** The connection that the manager shows in a state of the asset. *)
Definition life_conn (l : life) : option AgentConn :=
  match l with
  | Online c _ | Publishing _ c _ | Handling _ c _ => Some c
  | _ => None
  end.

Definition life_cleanup (l : life) : option (option callback) :=
  match l with
  | Online _ cl | Publishing _ _ cl | Handling _ _ cl => Some cl
  | _ => None
  end.

Definition settled (l : life) : bool :=
  match l with Offline | Online _ _ => true | _ => false end.

(** ** What a call promises *)

(** The events of taking a connection down. *)
Definition retire_events (c : AgentConn) (cleanup : option callback) : list event :=
  Removed c :: Closed c :: match cleanup with Some f => [CleanupStart f c; CleanupEnd f c] | None => [] end.

Definition publish_events (publish : option callback) (c : AgentConn) : list event :=
  match publish with Some f => [PublishStart f c; PublishEnd f c] | None => [] end.

(** What a call with a result has logged. *)
Definition promise (c : call) (removed : bool) (es : list event) : Prop :=
  match c with
  | CallRegister (Some conn) cleanup publish =>
      (removed = false ∧ es = []) ∨
      (∃ old, es = old ++ Added conn cleanup :: publish_events publish conn ∧
         if removed then ∃ conn' cl, old = retire_events conn' cl ∧ conn' ≠ conn ∧ AssetID conn' = AssetID conn
         else old = [])
  | CallUnregister assetID expectedConn =>
      if removed
      then ∃ conn cl, es = retire_events conn cl ∧ AssetID conn = assetID ∧ (expectedConn = None ∨ expectedConn = Some conn)
      else es = []
  | CallDispatch (Some conn) (Some handle) =>
      ∃ tail, (tail = [] ∨ ∃ cl, tail = retire_events conn cl) ∧
        es = (if removed then [HandleStart handle conn; HandleEnd handle conn] else []) ++ tail
  | _ => False
  end.

(** ** Reasoning about a call on its own

    While a call holds the lock of asset [a], nobody else changes the entries of [a] in the
    manager; connections may close at any time. *)

Definition agrees (a : string) (l : life) (m : manager) : Prop :=
  conns m !! a = life_conn l ∧ disconnectCleanups m !! a = life_cleanup l ∧
  (∀ c, life_conn l = Some c → AssetID c = a).

Definition same_elsewhere (a : string) (m m' : manager) : Prop :=
  ∀ b, b ≠ a → conns m' !! b = conns m !! b ∧ disconnectCleanups m' !! b = disconnectCleanups m !! b.

Definition about (a : string) (e : event) : Prop := AssetID (event_conn e) = a.

(** Run from state [l] of the asset, with [es] already logged, the program only takes
    steps of [life], ends in a settled state and establishes [Q]. *)
Fixpoint good (a : string) (Q : bool → list event → Prop) (p : call_prog) (l : life) (es : list event) : Prop :=
  match p with
  | Return b => settled l = true ∧ Q b es
  | Atomic act next => ∀ w, agrees a l (mgr w) →
      ∃ l', live l (act w).2 = Some l' ∧ agrees a l' (mgr (act w).1) ∧ same_elsewhere a (mgr w) (mgr (act w).1) ∧
            Forall (about a) (act w).2 ∧ trace (act w).1 = trace w ++ (act w).2 ∧ good a Q (next w) l' (es ++ (act w).2)
  end.

#[local] Arguments good : simpl never.

Lemma good_look a Q next l es : (∀ m, agrees a l m → good a Q (next m) l es) → good a Q (look next) l es.
Proof. intros Hn w Hw. exists l. simpl. rewrite !app_nil_r. split_and!; auto. done. Qed.

Lemma agrees_same a l l' m :
  life_conn l' = life_conn l → life_cleanup l' = life_cleanup l → agrees a l m → agrees a l' m.
Proof. unfold agrees. by intros -> ->. Qed.

(** An event that leaves what the manager shows. *)
Lemma good_log a Q e next l l' es :
  life_step l e = Some l' → about a e → life_conn l' = life_conn l → life_cleanup l' = life_cleanup l →
  good a Q next l' (es ++ [e]) → good a Q (log e next) l es.
Proof.
  intros Hl He Hc Hcl Hn w Hw. exists l'. simpl. rewrite Hl. split_and!; [done|by eapply agrees_same|done| |done|done].
  by apply Forall_singleton.
Qed.

Lemma good_cleanup a Q cl c next es :
  AssetID c = a →
  good a Q next Offline (es ++ match cl with Some f => [CleanupStart f c; CleanupEnd f c] | None => [] end) →
  good a Q (call_cleanup cl c next) (match cl with Some f => Retired f c | None => Offline end) es.
Proof.
  intros Ha Hn. destruct cl as [f|]; simpl; [|by rewrite app_nil_r in Hn].
  eapply (good_log _ _ _ _ _ (Cleaning f c)); try done; [simpl; by rewrite decide_True|].
  eapply (good_log _ _ _ _ _ Offline); try done; [simpl; by rewrite decide_True|].
  by rewrite <-app_assoc.
Qed.

Lemma good_publish a Q pb c cl next es :
  AssetID c = a → good a Q next (Online c cl) (es ++ publish_events pb c) → good a Q (call_publish pb c next) (Online c cl) es.
Proof.
  intros Ha Hn. destruct pb as [f|]; simpl; [|by rewrite app_nil_r in Hn].
  eapply (good_log _ _ _ _ _ (Publishing f c cl)); try done; [simpl; by rewrite decide_True|].
  eapply (good_log _ _ _ _ _ (Online c cl)); try done; [simpl; by rewrite decide_True|].
  by rewrite <-app_assoc.
Qed.

Lemma settled_cases l : settled l = true → l = Offline ∨ ∃ c cl, l = Online c cl.
Proof. destruct l; naive_solver. Qed.

Lemma good_unregister a e next Q l es :
  settled l = true →
  (l = Offline ∨ is_Some e → good a Q (next false) l es) →
  (∀ c cl, l = Online c cl → e = None ∨ e = Some c → AssetID c = a →
     good a Q (next true) Offline (es ++ retire_events c cl)) →
  good a Q (unregisterInLifecycle a e next) l es.
Proof.
  intros Hset Hno Hyes w Hm. pose proof Hm as (Hc & Hcl & Ha). simpl.
  destruct (to_remove (mgr w) a e) as [c|] eqn:Hr.
  - assert (∃ cl, l = Online c cl ∧ (e = None ∨ e = Some c)) as (cl & -> & He).
    { unfold to_remove in Hr. rewrite Hc in Hr. destruct (settled_cases l Hset) as [-> | (c' & cl & ->)]; [done|].
      simpl in Hr. exists cl. destruct e; [case_decide|]; simplify_eq; auto. }
    specialize (Ha c eq_refl). exists (Leaving c cl). simpl. rewrite decide_True by done.
    split_and!; [done| | |by apply Forall_singleton|done|].
    + split_and!; simpl; [by rewrite lookup_delete_eq..|done].
    + intros b Hb. simpl. by rewrite !lookup_delete_ne.
    + rewrite Hcl. simpl. intros w' Hm'. eexists. simpl. rewrite decide_True by done.
      split_and!; [done| |done|by apply Forall_singleton|done|].
      * destruct cl; by eapply agrees_same, Hm'.
      * apply good_cleanup; [done|]. rewrite <-!app_assoc. by apply Hyes.
  - exists l. simpl. rewrite !app_nil_r. split_and!; [done|done|done|done|done|]. apply Hno.
    destruct (settled_cases l Hset) as [-> | (c' & cl & ->)]; [by left|right].
    unfold to_remove in Hr. rewrite Hc in Hr. simpl in Hr. destruct e; [by eexists|done].
Qed.

Lemma good_add a Q c cl next es :
  AssetID c = a → good a Q next (Online c cl) (es ++ [Added c cl]) → good a Q (add c cl next) Offline es.
Proof.
  intros <- Hn w Hm. exists (Online c cl). simpl. split_and!; [done| | |by apply Forall_singleton|done|done].
  - split_and!; simpl; [by rewrite lookup_insert_eq..|]. by intros ? [= <-].
  - intros b Hb. simpl. by rewrite !lookup_insert_ne.
Qed.

Lemma is_current_online a c l m :
  AssetID c = a → settled l = true → agrees a l m → is_current m c = true ↔ ∃ cl, l = Online c cl.
Proof.
  intros <- Hset (Hc & _). unfold is_current, Get. rewrite bool_decide_eq_true, Hc.
  destruct (settled_cases l Hset) as [-> | (c' & cl & ->)]; naive_solver.
Qed.

Lemma register_good c cl pb l :
  settled l = true → good (AssetID c) (promise (CallRegister (Some c) cl pb)) (RegisterWithLifecycle c cl pb) l [].
Proof.
  intros Hset. apply good_look. intros m Hm. destruct (is_current m c) eqn:Hcur; [split; [done|by left]|].
  apply good_unregister; [done| |].
  - intros [-> |[? ?]]; [|done]. apply good_add; [done|]. apply good_publish; [done|]. split; [done|]. right. by exists [].
  - intros c' cl' -> _ Ha. apply good_add; [done|]. apply good_publish; [done|]. split; [done|]. right.
    eexists (retire_events c' cl'). rewrite <-app_assoc. split; [done|]. exists c', cl'. split_and!; [done| |done].
    intros ->. apply not_true_iff_false in Hcur. apply Hcur. apply (is_current_online (AssetID c) _ (Online c cl')); eauto.
Qed.

Lemma unregister_good a e l :
  settled l = true → good a (promise (CallUnregister a e)) (UnregisterIfMatch a e) l [].
Proof.
  intros Hset. apply good_unregister; [done|done|]. intros c cl -> He Ha. split; [done|]. by exists c, cl.
Qed.

Lemma dispatch_good c h l :
  settled l = true → good (AssetID c) (promise (CallDispatch (Some c) (Some h))) (DispatchIfCurrent c h) l [].
Proof.
  intros Hset. apply good_look. intros m Hm. destruct (is_current m c) eqn:Hcur; simpl.
  2: { split; [done|]. exists []. auto. }
  apply (is_current_online (AssetID c) c l m) in Hcur as [cl ->]; try done. apply good_look. intros m1 _.
  case_decide.
  - apply good_unregister; [done|intros _; split; [done|]; exists []; auto|].
    intros c' cl' [= <- <-] _ _. split; [done|]. exists (retire_events c cl). eauto.
  - eapply (good_log _ _ _ _ _ (Handling h c cl)); try done; [simpl; by rewrite decide_True|].
    eapply (good_log _ _ _ _ _ (Online c cl)); try done; [simpl; by rewrite decide_True|].
    apply good_look. intros m2 _. case_decide.
    + apply good_unregister; [done|intros _; split; [done|]; exists []; auto|].
      intros c' cl' [= <- <-] _ _. split; [done|]. exists (retire_events c cl). eauto.
    + split; [done|]. exists []. auto.
Qed.

Lemma start_good c key p l : start c = Some (key, p) → settled l = true → good key (promise c) p l [].
Proof.
  destruct c as [[conn|] cl pb|a e|[conn|] [h|]]; intros [= <- <-] Hset; auto using register_good, unregister_good, dispatch_good.
Qed.

(** ** All calls together *)

Lemma events_of_app a es es' : events_of a (es ++ es') = events_of a es ++ events_of a es'.
Proof. apply filter_app. Qed.

Lemma events_of_all a es : Forall (about a) es → events_of a es = es.
Proof. induction 1 as [|e es He _ IH]; [done|]. unfold events_of in *. rewrite filter_cons_True, IH by done. done. Qed.

Lemma events_of_other a b es : Forall (about a) es → b ≠ a → events_of b es = [].
Proof.
  intros He Hb. induction He as [|e es He _ IH]; [done|]. unfold events_of in *. rewrite filter_cons_False; [done|].
  unfold about in He. by rewrite He.
Qed.

Lemma live_app l es es' : live l (es ++ es') = match live l es with Some l' => live l' es' | None => None end.
Proof. revert l. induction es as [|e es IH]; intros l; [done|]. simpl. by destruct (life_step l e). Qed.

(** The conditions of an asset: others keep its entries and its history, and it settles. *)
Definition rely (a : string) (w w' : world) : Prop :=
  conns (mgr w') !! a = conns (mgr w) !! a ∧ disconnectCleanups (mgr w') !! a = disconnectCleanups (mgr w) !! a ∧
  events_of a (trace w') = events_of a (trace w) ∧ trace w `prefix_of` trace w'.

Definition evolve (w w' : world) : Prop := trace w `prefix_of` trace w'.

Definition asset_in (a : string) (l : life) (w : world) : Prop :=
  live Offline (events_of a (trace w)) = Some l ∧ agrees a l (mgr w).

Definition asset_inv (a : string) (w : world) : Prop := ∃ l, asset_in a l w ∧ settled l = true.

Definition asset_during (a : string) (w : world) : Prop := ∃ l, asset_in a l w.

(** What a call promises, and that its events are one piece of the history of the asset. *)
Definition call_post (a : string) (c : call) (removed : bool) (es : list event) (w : world) : Prop :=
  promise c removed es ∧ ∃ before after, events_of a (trace w) = before ++ es ++ after.

Lemma asset_in_rely a l w w' : asset_in a l w → rely a w w' → asset_in a l w'.
Proof. intros [Hl (Hc & Hcl & Ha)] (H1 & H2 & H3 & _). unfold asset_in, agrees. by rewrite H1, H2, H3. Qed.

#[export] Instance lifecycle_spec : LockedSpec hangup rely evolve asset_inv asset_during call_post.
Proof.
  split.
  - intros a. split; [by intros w|]. intros w1 w2 w3 (H1 & H2 & H3 & H4) (G1 & G2 & G3 & G4). unfold rely.
    rewrite G1, G2, G3. split_and!; [done..|by etrans].
  - by intros a w w' (_ & _ & _ & ?).
  - unfold evolve. split; [by intros w|]. intros w1 w2 w3 ? ?. by etrans.
  - intros a w w' (l & Hl & Hset) Hr. exists l. split; [by eapply asset_in_rely|done].
  - intros a w (l & Hl & _). by exists l.
  - intros a w w' (l & Hl) Hr. exists l. by eapply asset_in_rely.
  - intros a c b es w w' (Hp & before & after & E) [tl Htl]. split; [done|]. exists before, (after ++ events_of a tl).
    by rewrite Htl, events_of_app, E, !app_assoc.
  - intros a w w' Hh. by destruct Hh.
Qed.

Lemma good_wp a c p l es w :
  good a (promise c) p l es → asset_in a l w → es `suffix_of` events_of a (trace w) → wp rely evolve asset_inv asset_during call_post a c p w es.
Proof.
  revert l es w. induction p as [b|act next IH]; intros l es w Hg Hin Hsuf; simpl.
  - destruct Hg as [Hset HQ]. split; [by exists l|]. split; [done|]. destruct Hsuf as [before ->]. exists before, []. by rewrite app_nil_r.
  - intros w' Hr. destruct (asset_in_rely _ _ _ _ Hin Hr) as [Hl' Hag']. pose proof Hr as (_ & _ & Hev & _).
    destruct (Hg w' Hag') as (l' & Hl & Hag & Helse & Habout & Htr & Hnext).
    assert (asset_in a l' (act w').1) as Hin'.
    { split; [|done]. rewrite Htr, events_of_app, (events_of_all a (act w').2) by done. by rewrite live_app, Hl'. }
    split_and!.
    + unfold evolve. rewrite Htr. by apply prefix_app_r.
    + intros b Hb. destruct (Helse b Hb) as [H1 H2]. unfold rely. rewrite Htr, events_of_app, (events_of_other a b (act w').2) by done.
      rewrite app_nil_r. split_and!; [done..|by apply prefix_app_r].
    + by exists l'.
    + apply (IH _ l'); [done|done|].
      rewrite Htr, events_of_app, (events_of_all a (act w').2), Hev by done. destruct Hsuf as [before ->]. exists before. by rewrite app_assoc.
Qed.

Lemma start_ok a c p w : start c = Some (a, p) → asset_inv a w → wp rely evolve asset_inv asset_during call_post a c p w [].
Proof. intros Hs (l & Hin & Hset). apply (good_wp _ _ _ l); [by eapply start_good|done|apply suffix_nil]. Qed.

Lemma reachable_inv st : reachable st → state_inv rely evolve asset_inv asset_during call_post st.
Proof.
  apply (locked_sound start hangup rely evolve asset_inv asset_during call_post).
  - intros c k p s. apply start_ok.
  - intros a. exists Offline. by split.
Qed.

Lemma within_unregister n a e next : (∀ b, within n (next b)) → within (S (S (S (S n)))) (unregisterInLifecycle a e next).
Proof.
  intros Hn w. destruct (to_remove (mgr w) a e); [|eapply within_le, Hn; lia]. intros _.
  destruct (default None _); simpl; intros; [apply Hn|]. eapply within_le, Hn. lia.
Qed.

Lemma start_within c key p : start c = Some (key, p) → within 9 p.
Proof.
  destruct c as [[conn|] cl pb|a e|[conn|] [h|]]; intros [= <- <-].
  - intros w. destruct (is_current (mgr w) conn); [done|]. eapply (within_le 7); [lia|]. apply (within_unregister 3).
    intros b _. destruct pb; simpl; auto.
  - eapply within_le, (within_unregister 0); [lia|done].
  - intros w. destruct (negb _); [done|]. intros w'. case_decide; [eapply within_le, (within_unregister 0); [lia|done]|].
    intros _ _ w''. case_decide; [by apply (within_unregister 0)|done].
Qed.

(** ** Cleanups *)

(** How often [c] was added with cleanup [f], and how often that cleanup was run for it. *)
Definition added (f : callback) (c : AgentConn) (es : list event) : nat :=
  length (filter (λ e, e = Added c (Some f)) es).
Definition cleaned (f : callback) (c : AgentConn) (es : list event) : nat :=
  length (filter (λ e, e = CleanupStart f c) es).

(** The cleanup that is still owed. *)
Definition owed (l : life) : option (callback * AgentConn) :=
  match l with
  | Online c (Some f) | Publishing _ c (Some f) | Handling _ c (Some f) | Leaving c (Some f) | Retired f c => Some (f, c)
  | _ => None
  end.

Definition owes (l : life) (f : callback) (c : AgentConn) : nat := if decide (owed l = Some (f, c)) then 1 else 0.

Lemma length_filter_cons (P : event → Prop) `{!∀ e, Decision (P e)} e es :
  length (filter P (e :: es)) = (length (filter P [e]) + length (filter P es))%nat.
Proof. rewrite <-length_app, <-filter_app. done. Qed.

Lemma life_step_owes l e l' f c :
  life_step l e = Some l' → (owes l f c + added f c [e] = cleaned f c [e] + owes l' f c)%nat.
Proof.
  unfold owes, added, cleaned. intros Hl. rewrite !filter_cons, !filter_nil.
  destruct l, e; simpl in Hl; try discriminate Hl;
    repeat match type of Hl with context [if ?b then _ else _] => destruct b; [|discriminate Hl] end;
    injection Hl as <-; repeat match goal with H : _ ∧ _ |- _ => destruct H end; subst.
  all: try match goal with o : option callback |- _ => destruct o end; cbn [owed];
    repeat case_decide; simpl; first [reflexivity | exfalso; congruence].
Qed.

Lemma live_owes l es l' f c :
  live l es = Some l' → (owes l f c + added f c es = cleaned f c es + owes l' f c)%nat.
Proof.
  revert l. induction es as [|e es IH]; intros l; simpl.
  - intros [= ->]. unfold added, cleaned. simpl. lia.
  - destruct (life_step l e) as [l1|] eqn:He; [|done]. intros Hl%IH.
    pose proof (life_step_owes _ _ _ f c He) as Hs.
    unfold added, cleaned in *. rewrite !(length_filter_cons _ e es). lia.
Qed.

(** ** The properties *)

(** C7: what an asset goes through is a run of [life], over any interleaving of any
    registrations, replacements, disconnects, dispatches and closing connections: one connection at a time; its publication and its
    handlers run while it is the current connection, one at a time, and never after it was replaced or removed;
    a removed connection is closed and cleaned up before the next one is shown; and each
    registration's cleanup runs exactly once, if the connection ever leaves.  The manager shows the
    state of the asset, and only a call that holds the asset's lock leaves it between two settled states. *)
Theorem agent_lifecycle st :
  reachable st → ∀ a, ∃ l,
    live Offline (events_of a (trace (shared st))) = Some l ∧
    Get (mgr (shared st)) a = life_conn l ∧ disconnectCleanups (mgr (shared st)) !! a = life_cleanup l ∧
    (¬ holds st a → settled l = true) ∧
    (∀ f c, added f c (events_of a (trace (shared st))) = (cleaned f c (events_of a (trace (shared st))) + owes l f c)%nat).
Proof.
  intros Hs%reachable_inv a. destruct (si_during _ _ _ _ _ _ Hs a) as (l & Hl & (Hc & Hcl & _)).
  exists l. split_and!; [done..| |].
  - intros Hn. destruct (si_inv _ _ _ _ _ _ Hs a Hn) as (l' & [Hl' _] & Hset). congruence.
  - intros f c. by apply (live_owes _ _ _ f c) in Hl.
Qed.

(** A call is atomic for its asset and does what its result says: when it has returned, its events are
    one uninterrupted piece of the history of the asset, and are exactly a replacement and publication, a
    removal of the expected connection with its cleanup, or a handler run, followed by the removal when the
    connection closed meanwhile. *)
Theorem agent_call_results st t key loc :
  reachable st → threads (locks st) !! t = Some (Releasing key loc) →
  ∃ r removed before after,
    calls st !! t = Some r ∧ rest r = Return removed ∧ promise (called r) removed (logged r) ∧
    events_of key (trace (shared st)) = before ++ logged r ++ after.
Proof.
  intros Hs%reachable_inv Ht. destruct (si_call _ _ _ _ _ _ Hs _ _ Ht) as (r & Hr & b & Hb & Hp & before & after & E).
  by exists r, b, before, after.
Qed.

(** Calls end: one that is under way can go on, or waits for its asset while the holder of that very lock can
    go on, and no call has more than nine actions left once it has its lock. *)
Theorem agent_calls_end st t ph :
  reachable st → threads (locks st) !! t = Some ph →
  (is_Some (advance t st) ∨
   ∃ t' loc, threads (locks st) !! t' = Some (Holding (phase_key ph) loc) ∧ is_Some (advance t' st)) ∧
  ∃ r, calls st !! t = Some r ∧ within 9 (rest r).
Proof.
  intros Hr Ht. apply reachable_inv in Hr as Hi. split; [by eapply locked_progress|].
  destruct (si_call _ _ _ _ _ _ Hi _ _ Ht) as (r & Hc & _). exists r. split; [done|].
  by eapply (run_within start hangup 9); [apply start_within|exact Hr|].
Qed.

(** A node that reconnects while a message of its first connection is handled: the
    first connection registers, a dispatch begins, the second registration waits. *)
Definition first : AgentConn := MkConn 1 "nas".
Definition second : AgentConn := MkConn 2 "nas".

Definition demo_start : list op :=
  Begin 1 (CallRegister (Some first) (Some 7%nat) (Some 8%nat)) :: replicate 8 (Go 1) ++
  [Begin 2 (CallDispatch (Some first) (Some 9%nat)); Begin 3 (Register (Some second))] ++
  replicate 4 (Go 2).

Definition demo_handling : hub := default (init init_world) (play start demo_start (init init_world)).

(** The first connection closes under its handler and is gone before the second comes. *)
Definition demo_hungup : hub :=
  let m := mgr (shared demo_handling) in
  MkState (MkWorld (MkManager (conns m) (disconnectCleanups m) ({[1%nat]} ∪ closed m)) (trace (shared demo_handling)))
    (locks demo_handling) (calls demo_handling).
Definition demo_replaced : hub := default demo_hungup (play start (replicate 7 (Go 2) ++ replicate 4 (Go 3)) demo_hungup).

Lemma demo_handling_reachable : reachable demo_handling.
Proof. apply play_reachable; [vm_compute; reflexivity|apply rtc_refl]. Qed.

Lemma demo_replaced_reachable : reachable demo_replaced.
Proof.
  apply play_reachable; [vm_compute; reflexivity|]. eapply rtc_r; [apply demo_handling_reachable|].
  apply st_outside, hang_up.
Qed.

Lemma agent_lifecycle_witness :
  events_of "nas" (trace (shared demo_replaced)) =
    [Added first (Some 7%nat); PublishStart 8%nat first; PublishEnd 8%nat first; HandleStart 9%nat first; HandleEnd 9%nat first] ++
    retire_events first (Some 7%nat) ++ [Added second None] ∧
  cleaned 7%nat first (events_of "nas" (trace (shared demo_replaced))) = 1%nat ∧
  ∃ l, live Offline (events_of "nas" (trace (shared demo_replaced))) = Some l ∧
       Get (mgr (shared demo_replaced)) "nas" = life_conn l.
Proof.
  split; [vm_compute; reflexivity|]. split; [vm_compute; reflexivity|].
  destruct (agent_lifecycle demo_replaced demo_replaced_reachable "nas") as (l & Hl & Hc & _).
  exists l. split; [exact Hl|exact Hc].
Defined.

Lemma agent_call_results_witness :
  ∃ r removed before after,
    calls demo_replaced !! 2%nat = Some r ∧ rest r = Return removed ∧ promise (called r) removed (logged r) ∧
    events_of "nas" (trace (shared demo_replaced)) = before ++ logged r ++ after.
Proof.
  apply (agent_call_results demo_replaced 2 "nas" 1); [apply demo_replaced_reachable|]. vm_compute. reflexivity.
Defined.

(** The second registration waits, and the dispatch it waits for can go on. *)
Lemma agent_calls_end_witness :
  is_Some (advance 3 demo_handling) ∨
  ∃ t' loc, threads (locks demo_handling) !! t' = Some (Holding "nas" loc) ∧ is_Some (advance t' demo_handling).
Proof.
  apply (agent_calls_end demo_handling 3 (Waiting "nas" 1)); [apply demo_handling_reachable|]. vm_compute. reflexivity.
Defined.
