(* ===== verification/AgentAdmission.v ===== *)
(** * Admission of agent connections

    [TryReserveAdmission] of [internal/agentmgr/manager.go]: the number of sockets that are open
    or being opened is limited, in all and from each source.  A reservation and a release are one section under
    [m.mu] each; every release function that was handed out has a [sync.Once]. *)

From S2P Require Import Prelude GoStrings.

Inductive AdmissionRejection := AdmissionAllowed | AdmissionGlobalLimit | AdmissionSourceLimit.

(** The counters, and the [once] of every release function that was handed out: the
    source key it captured and whether it ran. *)
Record admission := MkAdmission {
  admissions : Z;
  admissionsByKey : gmap string Z;
  releases : gmap nat (string * bool) }.

Definition new_admission : admission := MkAdmission 0 ∅ ∅.

Definition source_key (sourceKey : string) : string :=
  let k := trim_space sourceKey in if bool_decide (k = "") then "unknown" else k.

(** [m.admissionsByKey[sourceKey]], which is zero for a missing key. *)
Definition by_key (m : admission) (k : string) : Z := default 0 (admissionsByKey m !! k).

(** [release] is the name of the function that is returned; on a rejection it is empty. *)
Definition TryReserveAdmission (release : nat) (sourceKey : string) (globalLimit sourceLimit : Z)
  (m : admission) : admission * AdmissionRejection :=
  if (globalLimit <=? 0) || (sourceLimit <=? 0) then (m, AdmissionGlobalLimit)
  else
    let k := source_key sourceKey in
    if globalLimit <=? admissions m then (m, AdmissionGlobalLimit)
    else if sourceLimit <=? by_key m k then (m, AdmissionSourceLimit)
    else
      (MkAdmission (admissions m + 1) (<[k := by_key m k + 1]> (admissionsByKey m))
         (<[release := (k, false)]> (releases m)), AdmissionAllowed).

(** Calling a release function. *)
Definition Release (release : nat) (m : admission) : admission :=
  match releases m !! release with
  | Some (k, false) =>
      let n := if 0 <? admissions m then admissions m - 1 else admissions m in
      let count := by_key m k in
      let ks := if count <=? 1 then delete k (admissionsByKey m) else <[k := count - 1]> (admissionsByKey m) in
      MkAdmission n ks (<[release := (k, true)]> (releases m))
  | _ => m
  end.

Inductive admission_op :=
| Reserve (release : nat) (sourceKey : string) (globalLimit sourceLimit : Z)
| Free (release : nat).

(** A release function is new. *)
Definition fresh (o : admission_op) (m : admission) : Prop :=
  match o with Reserve r _ _ _ => releases m !! r = None | Free _ => True end.

Definition apply_op (o : admission_op) (m : admission) : admission :=
  match o with
  | Reserve r k g l => (TryReserveAdmission r k g l m).1
  | Free r => Release r m
  end.

(** The limits that the operations of a run are called with. *)
Definition limits (G L : Z) (o : admission_op) : Prop :=
  match o with Reserve _ _ g l => g ≤ G ∧ l ≤ L | Free _ => True end.

Inductive admission_step (G L : Z) (m : admission) : admission → Prop :=
| ad_step o : fresh o m → limits G L o → admission_step G L m (apply_op o m).

(** The sockets that hold a reservation, all of them and those from one source. *)
Definition live_socket (r : string * bool) : Prop := r.2 = false.
Definition live_socket_from (k : string) (r : string * bool) : Prop := r = (k, false).

#[global] Instance live_dec r : Decision (live_socket r).
Proof. unfold live_socket. apply _. Defined.
#[global] Instance live_from_dec k r : Decision (live_socket_from k r).
Proof. unfold live_socket_from. apply _. Defined.

Definition held (m : admission) : Z := count_where live_socket (releases m).
Definition held_from (k : string) (m : admission) : Z := count_where (live_socket_from k) (releases m).

(** ** Invariant *)

Record counts (G L : Z) (m : admission) : Prop := {
  ct_all : admissions m = held m;
  ct_from k : by_key m k = held_from k m;
  ct_entry k : is_Some (admissionsByKey m !! k) → 0 < held_from k m;
  ct_global : held m ≤ Z.max 0 G;
  ct_source k : held_from k m ≤ Z.max 0 L }.

Lemma counts_init G L : counts G L new_admission.
Proof. split; try done; unfold held, held_from; simpl; intros; rewrite ?(count_where_zero _ ∅) by done; try done; try lia. by destruct H. Qed.

Lemma by_key_insert m k v k' n rs : by_key (MkAdmission n (<[k := v]> (admissionsByKey m)) rs) k' = if decide (k = k') then v else by_key m k'.
Proof. unfold by_key. simpl. case_decide; subst; [by rewrite lookup_insert_eq|by rewrite lookup_insert_ne]. Qed.

Lemma reserve_counts G L r k g l m :
  releases m !! r = None → g ≤ G → l ≤ L → counts G L m → counts G L (TryReserveAdmission r k g l m).1.
Proof.
  intros Hr HG HL [Ha Hf He Hg Hs]. unfold TryReserveAdmission. destruct (_ || _) eqn:H0; [done|].
  destruct (g <=? admissions m) eqn:H1; [done|]. destruct (l <=? by_key m (source_key k)) eqn:H2; [done|]. simpl.
  bool_prop. set (k0 := source_key k) in *.
  assert (Hall : held (MkAdmission (admissions m + 1) (<[k0 := by_key m k0 + 1]> (admissionsByKey m)) (<[r := (k0, false)]> (releases m))) = held m + 1).
  { unfold held. simpl. by rewrite count_where_insert. }
  assert (Hfrom : ∀ k', held_from k' (MkAdmission (admissions m + 1) (<[k0 := by_key m k0 + 1]> (admissionsByKey m)) (<[r := (k0, false)]> (releases m)))
                   = held_from k' m + if decide (k0 = k') then 1 else 0).
  { intros k'. unfold held_from. simpl. rewrite count_where_insert by done. f_equal. unfold live_socket_from.
    repeat case_decide; naive_solver. }
  split; simpl.
  - rewrite Hall. lia.
  - intros k'. rewrite by_key_insert, Hfrom. case_decide; subst; rewrite ?Hf; lia.
  - intros k' Hk'. rewrite Hfrom. pose proof (count_where_nonneg (live_socket_from k') (releases m)) as Hn.
    fold (held_from k' m) in Hn. case_decide; [lia|]. rewrite lookup_insert_ne in Hk' by done. apply He in Hk'. lia.
  - rewrite Hall. lia.
  - intros k'. rewrite Hfrom. specialize (Hs k'). case_decide; subst; [|lia]. rewrite Hf in H2. lia.
Qed.

Lemma release_held m r k k' :
  releases m !! r = Some (k, false) →
  count_where live_socket (<[r := (k, true)]> (releases m)) = held m - 1 ∧
  count_where (live_socket_from k') (<[r := (k, true)]> (releases m)) = held_from k' m - (if decide (k = k') then 1 else 0).
Proof.
  intros Hr. rewrite !(count_where_replace _ _ r (k, false)) by done. split.
  - rewrite decide_True, decide_False by done. unfold held. lia.
  - rewrite (decide_False (P := live_socket_from k' (k, true))) by done. unfold held_from.
    assert (live_socket_from k' (k, false) ↔ k = k') by (unfold live_socket_from; naive_solver).
    repeat case_decide; naive_solver lia.
Qed.

Lemma release_counts G L r m : counts G L m → counts G L (Release r m).
Proof.
  intros [Ha Hf He Hg Hs]. unfold Release. destruct (releases m !! r) as [[k []]|] eqn:Hr; [done| |done].
  pose proof (λ k', release_held m r k k' Hr) as Hrel.
  pose proof (count_where_pos live_socket _ _ _ Hr eq_refl) as Hpos. fold (held m) in Hpos.
  pose proof (count_where_pos (live_socket_from k) _ _ _ Hr eq_refl) as Hposk. fold (held_from k m) in Hposk.
  rewrite Ha. replace (0 <? held m) with true by (symmetry; apply Z.ltb_lt; lia).
  assert (Hn : ∀ k', 0 ≤ held_from k' m) by (intros k'; unfold held_from; pose proof (count_where_nonneg (live_socket_from k') (releases m)); lia).
  split; simpl.
  - unfold held at 2. simpl. by rewrite (proj1 (Hrel k)).
  - intros k'. unfold held_from. simpl. rewrite (proj2 (Hrel k')), Hf. unfold by_key. simpl. pose proof (Hf k') as Hfk. unfold by_key in Hfk.
    destruct (decide (k = k')) as [<-|Hne].
    + destruct (held_from k m <=? 1) eqn:H1; bool_prop; [rewrite lookup_delete_eq|rewrite lookup_insert_eq]; simpl; lia.
    + destruct (held_from k m <=? 1); [rewrite lookup_delete_ne by done|rewrite lookup_insert_ne by done]; lia.
  - intros k' Hk'. unfold held_from. simpl. rewrite (proj2 (Hrel k')). rewrite Hf in Hk'.
    destruct (decide (k = k')) as [<-|Hne].
    + destruct (held_from k m <=? 1) eqn:H1; bool_prop; [rewrite lookup_delete_eq in Hk'; by destruct Hk'|lia].
    + rewrite Z.sub_0_r. apply He. destruct (held_from k m <=? 1); [by rewrite lookup_delete_ne in Hk'|by rewrite lookup_insert_ne in Hk'].
  - unfold held. simpl. rewrite (proj1 (Hrel k)). lia.
  - intros k'. unfold held_from. simpl. rewrite (proj2 (Hrel k')). specialize (Hs k'). case_decide; lia.
Qed.

Lemma run_counts G L m : rtc (admission_step G L) new_admission m → counts G L m.
Proof.
  intros Hr. assert (Hi := counts_init G L). revert Hi. induction Hr as [|m1 m2 m3 [o Hf Hl] _ IH]; [done|].
  intros Hi. apply IH. destruct o as [r k g l|r]; simpl in *; [by apply reserve_counts; destruct Hl|by apply release_counts].
Qed.

(** Admission is exact, over any run of reservations with limits up to [G] and [L]: a socket is admitted
    exactly when its limits are positive and fewer sockets than that are held, in all and from its source; the reason of a
    rejection says which, and a rejection changes nothing; a release frees one reservation the first time it is called and nothing afterwards;
    no more than [G] are ever held, nor [L] from one source, and sources without sockets leave no entry. *)
Theorem admission_exact G L m r k g l m' verdict :
  rtc (admission_step G L) new_admission m → releases m !! r = None →
  TryReserveAdmission r k g l m = (m', verdict) →
  admissions m = held m ∧ held m ≤ Z.max 0 G ∧
  (∀ k', held_from k' m ≤ Z.max 0 L ∧ (is_Some (admissionsByKey m !! k') → 0 < held_from k' m)) ∧
  (verdict = AdmissionAllowed ↔ 0 < g ∧ 0 < l ∧ held m < g ∧ held_from (source_key k) m < l) ∧
  (verdict = AdmissionSourceLimit ↔ 0 < g ∧ 0 < l ∧ held m < g ∧ l ≤ held_from (source_key k) m) ∧
  (verdict ≠ AdmissionAllowed → m' = m) ∧
  (verdict = AdmissionAllowed →
     held m' = held m + 1 ∧ held (Release r m') = held m ∧ Release r (Release r m') = Release r m').
Proof.
  intros Hrun Hr. destruct (run_counts _ _ _ Hrun) as [Ha Hf He Hg Hs]. unfold TryReserveAdmission. rewrite Ha, Hf.
  destruct ((g <=? 0) || (l <=? 0)) eqn:H0; [|destruct (g <=? held m) eqn:H1; [|destruct (l <=? held_from _ m) eqn:H2]]; intros [= <- <-]; bool_prop;
    (split; [done|]; split; [done|]; split; [by intros k'; auto|]);
    try (split_and!; [split; [done|lia]|split; [done|lia]|done|done]).
  - split_and!; [split; [done|lia]|split; [|done]|done|done]. intros _. lia.
  - split_and!; [split; [|done]; intros; lia|split; [done|lia]|done|]. intros _.
    assert (Hin : held (MkAdmission (held m + 1) (<[source_key k := held_from (source_key k) m + 1]> (admissionsByKey m))
      (<[r := (source_key k, false)]> (releases m))) = held m + 1) by (unfold held; simpl; by rewrite count_where_insert).
    split_and!; [done| |].
    + unfold Release. simpl. rewrite lookup_insert_eq. unfold held at 1. simpl.
      rewrite insert_insert_eq, count_where_insert by done. unfold held. simpl. lia.
    + unfold Release at 2 3. simpl. rewrite lookup_insert_eq. unfold Release. simpl. by rewrite lookup_insert_eq.
Qed.

(** Two sources under a limit of one socket each: the second socket of one is refused. *)
Definition demo : admission :=
  apply_op (Reserve 2 "10.0.0.2" 2 1) (apply_op (Reserve 1 " 10.0.0.1 " 2 1) new_admission).

Lemma demo_reachable : rtc (admission_step 2 1) new_admission demo.
Proof.
  eapply rtc_l; [apply (ad_step 2 1 _ (Reserve 1 " 10.0.0.1 " 2 1)); [reflexivity|simpl; lia]|].
  apply rtc_once. apply (ad_step 2 1 _ (Reserve 2 "10.0.0.2" 2 1)); [vm_compute; reflexivity|simpl; lia].
Qed.

Lemma admission_exact_witness :
  TryReserveAdmission 3 "10.0.0.1" 3 1 demo = (demo, AdmissionSourceLimit) ∧ held demo = 2 ∧ held demo ≤ Z.max 0 2.
Proof.
  assert (E : TryReserveAdmission 3 "10.0.0.1" 3 1 demo = (demo, AdmissionSourceLimit)) by (vm_compute; reflexivity).
  split; [exact E|]. split; [vm_compute; reflexivity|].
  refine (proj1 (proj2 (admission_exact 2 1 demo 3 "10.0.0.1" 3 1 demo AdmissionSourceLimit demo_reachable _ E))).
  vm_compute. reflexivity.
Defined.
