(* ===== verification/Accounts.v ===== *)
(** * Accounts, sessions and challenges

    [internal/auth]: the roles ([roles.go], [types.go]), the validator of service tokens
    ([token.go]), the store of second-factor challenges ([challenge.go]); and the in-memory
    account store ([internal/persistence/memory_auth_store.go]).  Every operation of a store is atomic
    under its mutex.  [SignIn] runs the handlers of [internal/hubapi/auth] over them. *)

From S2P Require Import Prelude GoStrings.

(** ** Roles *)

Definition RoleOwner : string := "owner".
Definition RoleAdmin : string := "admin".
Definition RoleOperator : string := "operator".
Definition RoleViewer : string := "viewer".

Definition IsValidRole (role : string) : bool :=
  bool_decide (role ∈ [RoleOwner; RoleAdmin; RoleOperator; RoleViewer]).

Definition IsReadOnlyRole (role : string) : bool := bool_decide (role = RoleViewer).

Definition NormalizeRole (role : string) : string :=
  default_str (keyword [RoleOwner; RoleAdmin; RoleOperator] role) RoleViewer.

Definition HasAdminPrivileges (role : string) : bool :=
  bool_decide (NormalizeRole role ∈ [RoleOwner; RoleAdmin]).

Definition HasWritePrivileges (role : string) : bool :=
  bool_decide (NormalizeRole role ∈ [RoleOwner; RoleAdmin; RoleOperator]).

(** The table of [LowerRole]; a missing key reads as 0. *)
Definition rank (role : string) : Z :=
  if decide (role = RoleOwner) then 3
  else if decide (role = RoleAdmin) then 2
  else if decide (role = RoleOperator) then 1 else 0.

Definition LowerRole (a b : string) : string :=
  let a := NormalizeRole a in
  let b := NormalizeRole b in
  if rank b <? rank a then b else a.

(** ** Tokens of services *)

(** The loop of [NewTokenValidator], with the tokens seen so far. *)
Fixpoint normalize_tokens (tokens : list string) (seen : gset string) : list string :=
  match tokens with
  | [] => []
  | token :: tokens =>
      let token := trim_space token in
      if is_empty token then normalize_tokens tokens seen
      else if decide (token ∈ seen) then normalize_tokens tokens seen
      else token :: normalize_tokens tokens ({[token]} ∪ seen)
  end.

Definition NewTokenValidator (tokens : list string) : list string := normalize_tokens tokens ∅.

(** The two headers of a request. *)
Definition extractToken (authorization x_labtether_token : string) : string :=
  let authHeader := trim_space authorization in
  match cut_at " "%char (chars authHeader) with
  | Some (scheme, rest) =>
      if equal_fold (of_chars scheme) "bearer" then trim_space (of_chars rest) else trim_space x_labtether_token
  | None => trim_space x_labtether_token
  end.

Definition Configured (v : list string) : bool := negb (bool_decide (v = [])).

Definition ValidateRequest (v : list string) (authorization x_labtether_token : string) : bool :=
  let provided := extractToken authorization x_labtether_token in
  Configured v && negb (is_empty provided) &&
  existsb (λ token, bool_decide (String.length provided = String.length token) && bool_decide (provided = token)) v.

(** ** Cryptography

    The functions that are called: bcrypt, the hash of tokens, the encryption of second-factor secrets
    under the key of the hub, and the check of a one-time code at a time. *)
Class Crypto := {
  compare_hash : string → string → bool;
  generate_hash : Z → string → option string;
  HashToken : string → string;
  DecryptTOTPSecret : string → option string;
  ValidateTOTPCode : time → string → string → bool }.

(** Challenges by their token. *)
Record challenge := MkChallenge { C_UserID : string; C_ExpiresAt : time }.

Abbreviation challenges := (gmap string challenge).

Section accounts.
Context `{Crypto}.

Definition CheckPassword (password hash : string) : bool := compare_hash hash password.
Definition CheckRecoveryCode (code hash : string) : bool := compare_hash hash (trim_space code).

(** ** The account store *)

(** [U_TOTPRecoveryCodes] is the list in its JSON text, [None] for the empty text. *)
Record User := MkUser {
  U_ID : string; U_Username : string; U_Role : string; U_AuthProvider : string;
  U_OIDCIssuer : string; U_OIDCSubject : string; U_PasswordHash : string; U_TOTPSecret : string;
  U_TOTPVerifiedAt : option time; U_TOTPRecoveryCodes : option (list string);
  U_CreatedAt : time; U_UpdatedAt : time }.

Record Session := MkSession {
  S_ID : string; S_UserID : string; S_TokenHash : string; S_ExpiresAt : time; S_CreatedAt : time }.

Record MemoryAuthStore := MkAuthStore { users : list User; sessions : list Session; nextID : N }.

Definition NewMemoryAuthStore : MemoryAuthStore := MkAuthStore [] [] 0.

Inductive auth_error := ErrUserNotFound | ErrUserExists | ErrIdentityExists | ErrIdentityRequired | ErrStore.

Definition user_id (n : N) : string := String.append "user-" (pretty n).
Definition session_id (n : N) : string := String.append "session-" (pretty n).

(** [GetUserByID], [GetUserByUsername] and the two lookups by identity: the first user that matches. *)
Definition GetUserByID (id : string) (s : MemoryAuthStore) : option User :=
  find (λ u, bool_decide (U_ID u = id)) (users s).
Definition GetUserByUsername (username : string) (s : MemoryAuthStore) : option User :=
  find (λ u, bool_decide (U_Username u = username)) (users s).

Definition has_identity (provider issuer subject : string) (u : User) : bool :=
  bool_decide (U_AuthProvider u = provider) && bool_decide (U_OIDCIssuer u = issuer) && bool_decide (U_OIDCSubject u = subject).

Definition GetUserByOIDCIdentity (provider issuer subject : string) (s : MemoryAuthStore) : option User :=
  find (has_identity (to_lower (trim_space provider)) (trim_space issuer) (trim_space subject)) (users s).
Definition GetUserByOIDCSubject (provider subject : string) (s : MemoryAuthStore) : option User :=
  find (has_identity (to_lower (trim_space provider)) "" (trim_space subject)) (users s).

Definition ListUsers (limit : Z) (s : MemoryAuthStore) : list User :=
  let n := Z.of_nat (length (users s)) in
  take (Z.to_nat (if (limit <=? 0) || (n <? limit) then n else limit)) (users s).

(** A new user at the end of the list, with the next number. *)
Definition add_user (f : string → User) (s : MemoryAuthStore) : MemoryAuthStore * User :=
  let u := f (user_id (N.succ (nextID s))) in
  (MkAuthStore (users s ++ [u]) (sessions s) (N.succ (nextID s)), u).

Definition new_user (now : time) (username hash role provider issuer subject : string) (id : string) : User :=
  MkUser id username role provider issuer subject hash "" None None now now.

Definition BootstrapFirstUser (now : time) (username passwordHash : string) (s : MemoryAuthStore) :
    MemoryAuthStore * option User :=
  match users s with
  | [] => let '(s, u) := add_user (new_user now username passwordHash RoleOwner "local" "" "") s in (s, Some u)
  | _ => (s, None)
  end.

Definition has_username (username : string) (s : MemoryAuthStore) : bool :=
  existsb (λ u, bool_decide (U_Username u = username)) (users s).

Definition CreateUserWithRole (now : time) (username passwordHash role authProvider oidcSubject : string)
    (s : MemoryAuthStore) : MemoryAuthStore * result auth_error User :=
  if has_username username s then (s, Err ErrUserExists)
  else let '(s, u) := add_user (new_user now username passwordHash role authProvider "" oidcSubject) s in (s, Ok u).

Definition CreateUser (now : time) (username passwordHash : string) (s : MemoryAuthStore) :
    MemoryAuthStore * result auth_error User :=
  CreateUserWithRole now username passwordHash RoleOwner "local" "" s.

(** The loop stops at the first user with the name or the identity. *)
Definition CreateUserWithOIDCIdentity (now : time) (username passwordHash role authProvider oidcIssuer oidcSubject : string)
    (s : MemoryAuthStore) : MemoryAuthStore * result auth_error User :=
  let authProvider := to_lower (trim_space authProvider) in
  let oidcIssuer := trim_space oidcIssuer in
  let oidcSubject := trim_space oidcSubject in
  if is_empty authProvider || is_empty oidcIssuer || is_empty oidcSubject then (s, Err ErrIdentityRequired)
  else
    match find (λ u, bool_decide (U_Username u = username) || has_identity authProvider oidcIssuer oidcSubject u) (users s) with
    | Some u => (s, Err (if decide (U_Username u = username) then ErrUserExists else ErrIdentityExists))
    | None =>
        let '(s, u) := add_user (new_user now username passwordHash role authProvider oidcIssuer oidcSubject) s in (s, Ok u)
    end.

(** Changes the first user that matches. *)
Fixpoint update_first (P : User → bool) (f : User → User) (us : list User) : option (list User * User) :=
  match us with
  | [] => None
  | u :: us =>
      if P u then Some (f u :: us, f u)
      else match update_first P f us with Some (us, u') => Some (u :: us, u') | None => None end
  end.

Definition set_OIDCIssuer (now : time) (issuer : string) (u : User) : User :=
  MkUser (U_ID u) (U_Username u) (U_Role u) (U_AuthProvider u) issuer (U_OIDCSubject u) (U_PasswordHash u)
    (U_TOTPSecret u) (U_TOTPVerifiedAt u) (U_TOTPRecoveryCodes u) (U_CreatedAt u) now.

Definition BindLegacyOIDCIdentity (now : time) (id authProvider oidcSubject oidcIssuer : string) (s : MemoryAuthStore) :
    MemoryAuthStore * result auth_error (option User) :=
  let authProvider := to_lower (trim_space authProvider) in
  let oidcSubject := trim_space oidcSubject in
  let oidcIssuer := trim_space oidcIssuer in
  if is_empty (trim_space id) || is_empty authProvider || is_empty oidcSubject || is_empty oidcIssuer
  then (s, Err ErrIdentityRequired)
  else if existsb (λ u, negb (bool_decide (U_ID u = id)) && has_identity authProvider oidcIssuer oidcSubject u) (users s)
  then (s, Err ErrIdentityExists)
  else
    match update_first (λ u, bool_decide (U_ID u = id) && has_identity authProvider "" oidcSubject u)
            (set_OIDCIssuer now oidcIssuer) (users s) with
    | Some (us, u) => (MkAuthStore us (sessions s) (nextID s), Ok (Some u))
    | None => (s, Ok None)
    end.

(** The setters by id. *)
Definition update_user (id : string) (f : User → User) (s : MemoryAuthStore) : MemoryAuthStore * result auth_error unit :=
  match update_first (λ u, bool_decide (U_ID u = id)) f (users s) with
  | Some (us, _) => (MkAuthStore us (sessions s) (nextID s), Ok tt)
  | None => (s, Err ErrUserNotFound)
  end.

Definition set_credentials (now : time) (hash secret : string) (verified : option time) (codes : option (list string))
    (u : User) : User :=
  MkUser (U_ID u) (U_Username u) (U_Role u) (U_AuthProvider u) (U_OIDCIssuer u) (U_OIDCSubject u) hash secret verified
    codes (U_CreatedAt u) now.

Definition UpdateUserPasswordHash (now : time) (id passwordHash : string) : MemoryAuthStore → MemoryAuthStore * result auth_error unit :=
  update_user id (λ u, set_credentials now passwordHash (U_TOTPSecret u) (U_TOTPVerifiedAt u) (U_TOTPRecoveryCodes u) u).

Definition set_role (now : time) (role : string) (u : User) : User :=
  MkUser (U_ID u) (U_Username u) role (U_AuthProvider u) (U_OIDCIssuer u) (U_OIDCSubject u) (U_PasswordHash u)
    (U_TOTPSecret u) (U_TOTPVerifiedAt u) (U_TOTPRecoveryCodes u) (U_CreatedAt u) now.

Definition UpdateUserRole (now : time) (id role : string) : MemoryAuthStore → MemoryAuthStore * result auth_error unit :=
  update_user id (set_role now role).

Definition SetUserTOTPSecret (now : time) (id encryptedSecret : string) : MemoryAuthStore → MemoryAuthStore * result auth_error unit :=
  update_user id (λ u, set_credentials now (U_PasswordHash u) encryptedSecret (U_TOTPVerifiedAt u) (U_TOTPRecoveryCodes u) u).

Definition ConfirmUserTOTP (now : time) (id : string) (recoveryCodes : list string) :
    MemoryAuthStore → MemoryAuthStore * result auth_error unit :=
  update_user id (λ u, set_credentials now (U_PasswordHash u) (U_TOTPSecret u) (Some now) (Some recoveryCodes) u).

Definition ClearUserTOTP (now : time) (id : string) : MemoryAuthStore → MemoryAuthStore * result auth_error unit :=
  update_user id (λ u, set_credentials now (U_PasswordHash u) "" None None u).

Definition UpdateUserRecoveryCodes (now : time) (id : string) (recoveryCodes : list string) :
    MemoryAuthStore → MemoryAuthStore * result auth_error unit :=
  update_user id (λ u, set_credentials now (U_PasswordHash u) (U_TOTPSecret u) (U_TOTPVerifiedAt u) (Some recoveryCodes) u).

Fixpoint delete_first {A} (P : A → bool) (l : list A) : option (list A) :=
  match l with
  | [] => None
  | x :: l => if P x then Some l else match delete_first P l with Some l => Some (x :: l) | None => None end
  end.

Definition DeleteUser (id : string) (s : MemoryAuthStore) : MemoryAuthStore * result auth_error unit :=
  match delete_first (λ u, bool_decide (U_ID u = id)) (users s) with
  | Some us => (MkAuthStore us (sessions s) (nextID s), Ok tt)
  | None => (s, Err ErrUserNotFound)
  end.

(** The codes without the first that the given code matches. *)
Definition spend_code (code : string) (hashes : list string) : option (list string) :=
  delete_first (CheckRecoveryCode code) hashes.

Definition ConsumeRecoveryCode (now : time) (userID code : string) (s : MemoryAuthStore) :
    MemoryAuthStore * result auth_error bool :=
  let userID := trim_space userID in
  match GetUserByID userID s with
  | None => (s, Err ErrUserNotFound)
  | Some u =>
      match U_TOTPRecoveryCodes u with
      | None => (s, Ok false)
      | Some hashes =>
          match spend_code code hashes with
          | None => (s, Ok false)
          | Some hashes =>
              ((update_user userID (λ u, set_credentials now (U_PasswordHash u) (U_TOTPSecret u) (U_TOTPVerifiedAt u) (Some hashes) u) s).1,
               Ok true)
          end
      end
  end.

(** ** Sessions *)

Definition SessionDuration : duration := 24 * Hour.

Definition ListSessionsByUserID (userID : string) (s : MemoryAuthStore) : list Session :=
  filter (λ x, S_UserID x = userID) (sessions s).

Definition CreateAuthSession (now : time) (userID tokenHash : string) (expiresAt : time) (s : MemoryAuthStore) :
    MemoryAuthStore * Session :=
  let x := MkSession (session_id (N.succ (nextID s))) userID tokenHash expiresAt now in
  (MkAuthStore (users s) (sessions s ++ [x]) (N.succ (nextID s)), x).

Definition ValidateSession (now : time) (tokenHash : string) (s : MemoryAuthStore) : option Session :=
  find (λ x, bool_decide (S_TokenHash x = tokenHash) && (now <? S_ExpiresAt x)) (sessions s).

Definition DeleteSession (id : string) (s : MemoryAuthStore) : MemoryAuthStore :=
  MkAuthStore (users s) (default (sessions s) (delete_first (λ x, bool_decide (S_ID x = id)) (sessions s))) (nextID s).

Definition DeleteSessionsByUserID (userID : string) (s : MemoryAuthStore) : MemoryAuthStore :=
  MkAuthStore (users s) (filter (λ x, S_UserID x ≠ userID) (sessions s)) (nextID s).

Definition DeleteExpiredSessions (now : time) (s : MemoryAuthStore) : MemoryAuthStore * Z :=
  let remaining := filter (λ x, now < S_ExpiresAt x) (sessions s) in
  (MkAuthStore (users s) remaining (nextID s), Z.of_nat (length (sessions s)) - Z.of_nat (length remaining)).

(** ** Challenges *)

Definition ChallengeTTL : duration := 5 * Minute.

(** [Create], with the random token. *)
Definition Create (now : time) (token userID : string) (cs : challenges) : challenges :=
  <[token := MkChallenge userID (now + ChallengeTTL)]> cs.

Definition Validate (now : time) (token : string) (cs : challenges) : challenges * option string :=
  match cs !! token with
  | Some ch => if C_ExpiresAt ch <? now then (delete token cs, None) else (cs, Some (C_UserID ch))
  | None => (delete token cs, None)
  end.

Definition Consume (now : time) (token : string) (cs : challenges) : challenges * option string :=
  match cs !! token with
  | Some ch => if C_ExpiresAt ch <? now then (delete token cs, None) else (delete token cs, Some (C_UserID ch))
  | None => (delete token cs, None)
  end.

Definition Cleanup (now : time) (cs : challenges) : challenges := filter (λ e, ¬ C_ExpiresAt e.2 < now) cs.

Definition RevokeForUser (userID : string) (cs : challenges) : challenges := filter (λ e, C_UserID e.2 ≠ userID) cs.

(** ** Facts about the store *)

#[local] Existing Instance pretty_N_inj.

Lemma user_id_inj m n : user_id m = user_id n → m = n.
Proof. intros Hm%(inj (String.append _)). by apply (inj pretty) in Hm. Qed.

Lemma session_id_inj m n : session_id m = session_id n → m = n.
Proof. intros Hm%(inj (String.append _)). by apply (inj pretty) in Hm. Qed.

Lemma get_user_some id s u : GetUserByID id s = Some u → u ∈ users s ∧ U_ID u = id.
Proof. intros [Hin Hid]%find_Some_elem. by bool_prop. Qed.

Lemma get_user_none id s : GetUserByID id s = None ↔ id ∉ U_ID <$> users s.
Proof.
  unfold GetUserByID. rewrite find_None_elem, list_elem_of_fmap. setoid_rewrite bool_decide_eq_false. naive_solver.
Qed.

Lemma get_user_elem u s : NoDup (U_ID <$> users s) → u ∈ users s → GetUserByID (U_ID u) s = Some u.
Proof.
  unfold GetUserByID. induction (users s) as [|v us IH]; [by intros _ ?%not_elem_of_nil|]. simpl.
  intros [Hn Hd]%NoDup_cons. rewrite elem_of_cons. intros [<-|Hin]; [by rewrite bool_decide_true|].
  rewrite bool_decide_false; [by apply IH|]. intros Heq. apply Hn. rewrite Heq. by apply list_elem_of_fmap_2.
Qed.

(** An update that keeps the identifying fields. *)
Class SameKey (f : User → User) : Prop := {
  same_id u : U_ID (f u) = U_ID u;
  same_name u : U_Username (f u) = U_Username u }.

#[export] Instance set_credentials_key now h s v c : SameKey (λ u, set_credentials now (h u) (s u) (v u) (c u) u).
Proof. by split. Qed.
#[export] Instance set_role_key now role : SameKey (set_role now role).
Proof. by split. Qed.
#[export] Instance set_issuer_key now issuer : SameKey (set_OIDCIssuer now issuer).
Proof. by split. Qed.

Lemma update_first_fmap {B} (g : User → B) P f us us' u :
  (∀ v, g (f v) = g v) → update_first P f us = Some (us', u) → g <$> us' = g <$> us.
Proof.
  intros Hg. revert us'. induction us as [|v us IH]; intros us'; simpl; [done|].
  destruct (P v); [intros [= <- <-]; simpl; by rewrite Hg|].
  destruct (update_first P f us) as [[us1 u1]|]; [|done]. intros [= <- <-]. simpl. f_equal. by apply IH.
Qed.

Lemma update_first_elem P f us us' u v :
  update_first P f us = Some (us', u) → v ∈ us' → v ∈ us ∨ ∃ v0, v0 ∈ us ∧ P v0 = true ∧ v = f v0.
Proof.
  revert us'. induction us as [|v0 us IH]; intros us'; simpl; [done|]. destruct (P v0) eqn:Hp.
  - intros [= <- <-]. rewrite !elem_of_cons. intros [->|?]; [right; exists v0; rewrite elem_of_cons; auto|auto].
  - destruct (update_first P f us) as [[us1 u1]|]; [|done]. intros [= <- <-]. rewrite !elem_of_cons.
    intros [->|Hin]; [auto|]. destruct (IH us1 eq_refl Hin) as [?|(v1 & ? & ? & ?)]; [auto|].
    right. exists v1. rewrite elem_of_cons. auto.
Qed.

Lemma update_first_find f id us us' u k :
  (∀ v, U_ID (f v) = U_ID v) → update_first (λ v, bool_decide (U_ID v = id)) f us = Some (us', u) →
  find (λ v, bool_decide (U_ID v = k)) us' =
    (if decide (k = id) then f <$> find (λ v, bool_decide (U_ID v = k)) us else find (λ v, bool_decide (U_ID v = k)) us).
Proof.
  intros Hf. revert us'. induction us as [|v us IH]; intros us'; simpl; [done|]. case_bool_decide as Hv.
  - intros [= <- <-]. simpl. rewrite Hf, Hv. case_decide as Hk; [subst k; by rewrite !bool_decide_true|].
    by rewrite !bool_decide_false by done.
  - destruct (update_first _ f us) as [[us1 u1]|]; [|done]. intros [= <- <-]. simpl. rewrite (IH us1) by done.
    case_decide as Hk; [subst k; by rewrite !bool_decide_false|]. by case_bool_decide.
Qed.

Lemma update_first_none (P : User → bool) f us : update_first P f us = None → ∀ v, v ∈ us → P v = false.
Proof.
  induction us as [|v us IH]; simpl; [by intros _ v ?%not_elem_of_nil|]. destruct (P v) eqn:Hp; [done|].
  destruct (update_first P f us) as [[??]|]; [done|]. intros _ v'. rewrite elem_of_cons. intros [->|?]; auto.
Qed.

(** What an update by id does. *)
Lemma update_user_spec id f s `{!SameKey f} :
  let s' := (update_user id f s).1 in
  sessions s' = sessions s ∧ nextID s' = nextID s ∧
  U_ID <$> users s' = U_ID <$> users s ∧ U_Username <$> users s' = U_Username <$> users s ∧
  (∀ v, v ∈ users s' → v ∈ users s ∨ ∃ v0, v0 ∈ users s ∧ U_ID v0 = id ∧ v = f v0) ∧
  ∀ k, GetUserByID k s' = if decide (k = id) then f <$> GetUserByID k s else GetUserByID k s.
Proof.
  unfold update_user. destruct (update_first _ f (users s)) as [[us u]|] eqn:Hu; simpl.
  - split_and!; [done|done|by eapply update_first_fmap; [apply same_id|]|by eapply update_first_fmap; [apply same_name|]| |].
    + intros v Hv. destruct (update_first_elem _ _ _ _ _ _ Hu Hv) as [?|(v0 & ? & ? & ?)]; [auto|]. bool_prop. eauto.
    + intros k. eapply update_first_find, Hu. apply same_id.
  - split_and!; [done..|auto|]. intros k. case_decide as Hk; [|done]. subst k.
    assert (GetUserByID id s = None) as ->; [|done]. apply find_None_elem. by apply (update_first_none _ f).
Qed.

Lemma delete_first_sublist {A} (P : A → bool) l l' : delete_first P l = Some l' → l' `sublist_of` l.
Proof.
  revert l'. induction l as [|x l IH]; intros l'; simpl; [done|]. destruct (P x); [intros [= <-]; by constructor|].
  destruct (delete_first P l) as [l1|]; [|done]. intros [= <-]. constructor. by apply IH.
Qed.

Lemma delete_first_none {A} (P : A → bool) l : delete_first P l = None → ∀ x, x ∈ l → P x = false.
Proof.
  induction l as [|x l IH]; simpl; [by intros _ x ?%not_elem_of_nil|]. destruct (P x) eqn:Hp; [done|].
  destruct (delete_first P l); [done|]. intros _ y. rewrite elem_of_cons. intros [->|?]; auto.
Qed.

(** With unique keys, nothing with the deleted key is left, and nothing else is lost. *)
Lemma delete_first_key {A} (key : A → string) k l l' :
  NoDup (key <$> l) → delete_first (λ x, bool_decide (key x = k)) l = Some l' →
  ∀ x, x ∈ l' ↔ x ∈ l ∧ key x ≠ k.
Proof.
  revert l'. induction l as [|x l IH]; intros l'; simpl; [done|]. intros [Hn Hd]%NoDup_cons. case_bool_decide as Hk.
  - intros [= <-] y. rewrite elem_of_cons. split; [|naive_solver]. intros Hy. split; [auto|].
    intros Hky. apply Hn. rewrite Hk, <-Hky. by apply list_elem_of_fmap_2.
  - destruct (delete_first _ l) as [l1|]; [|done]. intros [= <-] y. rewrite !elem_of_cons, (IH l1) by done. naive_solver.
Qed.

Lemma spend_find code hashes hs : spend_code code hashes = Some hs → ∃ h, find (CheckRecoveryCode code) hashes = Some h.
Proof.
  revert hs. unfold spend_code. induction hashes as [|h hashes IH]; intros hs; simpl; [done|].
  destruct (CheckRecoveryCode code h); [eauto|]. destruct (delete_first _ hashes) as [l|]; [|done]. intros _. by eapply IH.
Qed.

(** A recovery code changes the codes of one user or nothing; a yes means that a hash matched. *)
Lemma consume_cases now uid code s :
  (ConsumeRecoveryCode now uid code s).1 = s ∨
  ∃ hs, (ConsumeRecoveryCode now uid code s).1 =
    (update_user (trim_space uid) (λ u, set_credentials now (U_PasswordHash u) (U_TOTPSecret u) (U_TOTPVerifiedAt u) (Some hs) u) s).1.
Proof.
  unfold ConsumeRecoveryCode. destruct (GetUserByID _ s) as [u|]; [|by left]. destruct (U_TOTPRecoveryCodes u); [|by left].
  destruct (spend_code code _) as [hs|]; [|by left]. right. by exists hs.
Qed.

Lemma consume_true now uid code s :
  (ConsumeRecoveryCode now uid code s).2 = Ok true →
  ∃ u hashes h, GetUserByID (trim_space uid) s = Some u ∧ U_TOTPRecoveryCodes u = Some hashes ∧ find (CheckRecoveryCode code) hashes = Some h.
Proof.
  unfold ConsumeRecoveryCode. destruct (GetUserByID _ s) as [u|]; [|done]. destruct (U_TOTPRecoveryCodes u) as [hashes|] eqn:Hc; [|done].
  destruct (spend_code code _) as [hs|] eqn:Hs; [|done]. intros _. destruct (spend_find _ _ _ Hs) as [h Hh]. by exists u, hashes, h.
Qed.

(** ** Well-formed stores *)

(** An id that the store has given to a user. *)
Definition allocated (s : MemoryAuthStore) (id : string) : Prop := ∃ n, id = user_id n ∧ (n ≤ nextID s)%N.

Record wf_store (s : MemoryAuthStore) : Prop := {
  ws_ids : NoDup (U_ID <$> users s);
  ws_allocated u : u ∈ users s → allocated s (U_ID u);
  ws_names : NoDup (U_Username <$> users s);
  ws_identities u v : u ∈ users s → v ∈ users s → U_OIDCIssuer u ≠ "" →
    has_identity (U_AuthProvider u) (U_OIDCIssuer u) (U_OIDCSubject u) v = true → U_ID u = U_ID v;
  ws_sessions : NoDup (S_ID <$> sessions s);
  ws_session x : x ∈ sessions s → (∃ n, S_ID x = session_id n ∧ (n ≤ nextID s)%N) ∧ allocated s (S_UserID x);
  ws_verified u : u ∈ users s → U_TOTPVerifiedAt u ≠ None → U_TOTPSecret u ≠ "" }.

Lemma wf_new_store : wf_store NewMemoryAuthStore.
Proof.
  split; simpl; try constructor; intros; match goal with Hin : _ ∈ [] |- _ => by apply not_elem_of_nil in Hin end.
Qed.

Lemma allocated_mono s s' id : (nextID s ≤ nextID s')%N → allocated s id → allocated s' id.
Proof. intros Hn (n & -> & Hle). exists n. split; [done|lia]. Qed.

Lemma has_identity_true p i s u : has_identity p i s u = true ↔ U_AuthProvider u = p ∧ U_OIDCIssuer u = i ∧ U_OIDCSubject u = s.
Proof. unfold has_identity. rewrite !andb_true_iff, !bool_decide_eq_true. tauto. Qed.

(** Updates keep the store well formed when they keep identities apart and a verified secret in place. *)
Lemma wf_update_user_gen id f s `{!SameKey f} :
  (∀ u v, u ∈ users s → U_ID u = id → v ∈ users s → U_ID v ≠ id → U_OIDCIssuer (f u) ≠ "" →
     has_identity (U_AuthProvider (f u)) (U_OIDCIssuer (f u)) (U_OIDCSubject (f u)) v = false) →
  (∀ u, u ∈ users s → U_ID u = id → U_TOTPVerifiedAt (f u) ≠ None → U_TOTPSecret (f u) ≠ "") →
  wf_store s → wf_store (update_user id f s).1.
Proof.
  intros Hid Hver Hw. destruct (update_user_spec id f s) as (Hs & Hn & Hids & Hnames & Hel & Hget).
  assert (Hnd : NoDup (U_ID <$> users (update_user id f s).1)) by (rewrite Hids; apply Hw).
  assert (Hback : ∀ v, v ∈ users (update_user id f s).1 →
    (v ∈ users s ∧ U_ID v ≠ id) ∨ ∃ v0, v0 ∈ users s ∧ U_ID v0 = id ∧ v = f v0).
  { intros v Hv. destruct (Hel v Hv) as [Hin|?]; [|by right]. destruct (decide (U_ID v = id)) as [He|]; [|by left].
    right. apply (get_user_elem v _ Hnd) in Hv. rewrite Hget, decide_True in Hv by done.
    apply fmap_Some in Hv as (v0 & Hv0 & ->). apply get_user_some in Hv0 as [? ?]. exists v0. rewrite same_id in He. split_and!; [done|congruence|done]. }
  split.
  - done.
  - intros v Hv. eapply (allocated_mono s); [by rewrite Hn|].
    destruct (Hback v Hv) as [[? _]|(v0 & ? & ? & ->)]; [by apply Hw|]. rewrite same_id. by apply Hw.
  - rewrite Hnames. apply Hw.
  - intros u v [[Hu Hun]|(u0 & Hu & Hun & ->)]%Hback [[Hv Hvn]|(v0 & Hv & Hvn & ->)]%Hback Hne Hhas.
    + by apply (ws_identities _ Hw).
    + exfalso. apply has_identity_true in Hhas as (E1 & E2 & E3). assert (has_identity (U_AuthProvider (f v0)) (U_OIDCIssuer (f v0)) (U_OIDCSubject (f v0)) u = true) as Ht.
      { apply has_identity_true. done. }
      by rewrite Hid in Ht by congruence.
    + by rewrite Hid in Hhas.
    + by rewrite !same_id, Hun, Hvn.
  - rewrite Hs. apply Hw.
  - rewrite Hs. unfold allocated. rewrite Hn. apply Hw.
  - intros v [[? _]|(v0 & ? & ? & ->)]%Hback; [by apply Hw|by apply Hver].
Qed.

Lemma wf_update_user id f s `{!SameKey f} :
  (∀ u, U_AuthProvider (f u) = U_AuthProvider u ∧ U_OIDCIssuer (f u) = U_OIDCIssuer u ∧ U_OIDCSubject (f u) = U_OIDCSubject u) →
  (∀ u, u ∈ users s → U_ID u = id → U_TOTPVerifiedAt (f u) ≠ None → U_TOTPSecret (f u) ≠ "") →
  wf_store s → wf_store (update_user id f s).1.
Proof.
  intros Hid Hver Hw. apply wf_update_user_gen; [done| |done|done]. intros u v Hu Hun Hv Hvn. specialize (Hid u) as (E1 & E2 & E3). rewrite E1, E2, E3.
  intros Hne. apply not_true_iff_false. intros Hhas. apply Hvn. rewrite <-Hun. symmetry. by apply (ws_identities _ Hw).
Qed.

(** With unique ids, an update by id and more is an update by id. *)
Lemma update_first_by_id id Q f us us' u :
  NoDup (U_ID <$> us) → update_first (λ u, bool_decide (U_ID u = id) && Q u) f us = Some (us', u) →
  update_first (λ u, bool_decide (U_ID u = id)) f us = Some (us', u) ∧ ∃ v, v ∈ us ∧ U_ID v = id ∧ Q v = true.
Proof.
  revert us'. induction us as [|v us IH]; intros us'; simpl; [done|]. intros [Hn Hd]%NoDup_cons.
  case_bool_decide as Hid; simpl; [destruct (Q v) eqn:HQ|].
  - intros [= <- <-]. split; [done|]. exists v. rewrite elem_of_cons. auto.
  - destruct (update_first _ f us) as [[us1 u1]|]; [|done]. intros [= <- <-].
    destruct (IH us1 Hd eq_refl) as (_ & v1 & Hin & Hid1 & _). exfalso. apply Hn. rewrite Hid, <-Hid1. by apply list_elem_of_fmap_2.
  - destruct (update_first _ f us) as [[us1 u1]|]; [|done]. intros [= <- <-].
    destruct (IH us1 Hd eq_refl) as (-> & v1 & Hin & Hid1 & ?). split; [done|]. exists v1. rewrite elem_of_cons. auto.
Qed.

(** A store with fewer users and sessions. *)
Lemma wf_fewer us ss s :
  us `sublist_of` users s → ss `sublist_of` sessions s → wf_store s → wf_store (MkAuthStore us ss (nextID s)).
Proof.
  intros Hu Hss Hw. assert (Hin : ∀ u, u ∈ us → u ∈ users s) by (intros u ?; by eapply elem_of_sublist).
  split; simpl.
  - eapply sublist_NoDup; [apply (ws_ids _ Hw)|by apply fmap_sublist].
  - intros u ?%Hin. by apply Hw.
  - eapply sublist_NoDup; [apply (ws_names _ Hw)|by apply fmap_sublist].
  - intros u v ?%Hin ?%Hin. by apply Hw.
  - eapply sublist_NoDup; [apply (ws_sessions _ Hw)|by apply fmap_sublist].
  - intros x Hx. apply Hw. by eapply elem_of_sublist.
  - intros u ?%Hin. by apply Hw.
Qed.

Lemma wf_create_session now uid h e s : allocated s uid → wf_store s → wf_store (CreateAuthSession now uid h e s).1.
Proof.
  intros Ha Hw. split; simpl; try apply Hw.
  - intros u Hu. eapply allocated_mono; [|by apply Hw]. simpl. lia.
  - rewrite fmap_app. apply NoDup_app. split_and!; [apply Hw| |apply NoDup_singleton].
    intros i (x & -> & Hx)%list_elem_of_fmap. simpl. rewrite list_elem_of_singleton. intros Hi.
    destruct (ws_session _ Hw x Hx) as [(n & Hn & Hle) _]. rewrite Hn in Hi. apply session_id_inj in Hi. lia.
  - intros x [Hx| ->%list_elem_of_singleton]%elem_of_app; simpl.
    + destruct (ws_session _ Hw x Hx) as [(n & Hn & Hle) Hal]. split; [exists n; split; [done|lia]|].
      eapply allocated_mono; [|done]. simpl. lia.
    + split; [eexists; split; [done|lia]|]. eapply allocated_mono; [|done]. simpl. lia.
Qed.

(** The user that a creation adds has a new id. *)
Lemma wf_add_user f s :
  (∀ id, U_ID (f id) = id ∧ U_TOTPVerifiedAt (f id) = None) →
  (∀ id, U_Username (f id) ∉ U_Username <$> users s) →
  (∀ id v, v ∈ users s → U_OIDCIssuer (f id) ≠ "" →
     has_identity (U_AuthProvider (f id)) (U_OIDCIssuer (f id)) (U_OIDCSubject (f id)) v = false) →
  wf_store s → wf_store (add_user f s).1.
Proof.
  intros Hf Hname Hident Hw. destruct (Hf (user_id (N.succ (nextID s)))) as [Hid Hver].
  assert (Hold : ∀ v, v ∈ users s → U_ID v ≠ user_id (N.succ (nextID s))).
  { intros v Hv Heq. destruct (ws_allocated _ Hw v Hv) as (n & Hn & Hle). rewrite Hn in Heq. apply user_id_inj in Heq. lia. }
  split; simpl.
  - rewrite fmap_app. apply NoDup_app. split_and!; [apply Hw| |apply NoDup_singleton].
    intros i (x & -> & Hx)%list_elem_of_fmap. simpl. rewrite list_elem_of_singleton, Hid. by apply Hold.
  - intros u [Hu| ->%list_elem_of_singleton]%elem_of_app.
    + eapply allocated_mono; [|by apply Hw]. simpl. lia.
    + rewrite Hid. eexists. split; [done|]. simpl. lia.
  - rewrite fmap_app. apply NoDup_app. split_and!; [apply Hw| |apply NoDup_singleton].
    intros i Hi. simpl. rewrite list_elem_of_singleton. intros ->. by eapply Hname.
  - intros u v [Hu| ->%list_elem_of_singleton]%elem_of_app [Hv| ->%list_elem_of_singleton]%elem_of_app Hne Hhas.
    + by apply (ws_identities _ Hw).
    + exfalso. unfold has_identity in Hhas. apply andb_true_iff in Hhas as [[Hp Hi]%andb_true_iff Hs].
      apply bool_decide_eq_true in Hp, Hi, Hs. set (n := user_id (N.succ (nextID s))) in *.
      pose proof (Hident n u Hu) as Hno. rewrite Hi in Hno. specialize (Hno Hne).
      unfold has_identity in Hno. rewrite Hp, Hs, !bool_decide_true in Hno by done. done.
    + by rewrite Hident in Hhas.
    + done.
  - apply Hw.
  - intros x Hx. destruct (ws_session _ Hw x Hx) as [(n & Hn & Hle) Hal]. split; [exists n; split; [done|lia]|].
    eapply allocated_mono; [|done]. simpl. lia.
  - intros u [Hu| ->%list_elem_of_singleton]%elem_of_app; [by apply Hw|]. by rewrite Hver.
Qed.

Lemma add_user_get f s k :
  U_ID (f (user_id (N.succ (nextID s)))) = user_id (N.succ (nextID s)) → k ≠ user_id (N.succ (nextID s)) →
  GetUserByID k (add_user f s).1 = GetUserByID k s.
Proof.
  intros Hid Hk. unfold GetUserByID. simpl. induction (users s) as [|v us IH]; simpl.
  - by rewrite Hid, bool_decide_false by congruence.
  - by case_bool_decide.
Qed.

End accounts.
