(* ===== verification/SignIn.v ===== *)
(** * Signing in and changing credentials

    The handlers of [internal/hubapi/auth] that hold the lock of a user ([ChallengeStore.LockUser]):
    [auth_handlers.go], [auth_2fa_handlers.go], [auth_password_handlers.go], [auth_user_handlers.go] and
    [auth_session_helpers.go].  Each is a program of [LockedCalls] whose actions are the operations of the
    two stores ([Accounts]), each atomic under its own mutex.  Everything else that changes the stores
    (logout, cleanup, set-up, single sign-on, creation of users) takes no lock and runs in
    between ([outside]).  Any store operation can fail, with or without having taken effect. *)

From S2P Require Import Prelude GoStrings KeyedLock LockedCalls Accounts.

Section signin.
Context `{Crypto}.

(** What a sign-in proves: the password, and the second factor when it is on. *)
Record credential := MkCredential { password_hash : string; totp : option string }.

Definition active_totp (u : User) : option string :=
  if is_empty (U_TOTPSecret u) then None else match U_TOTPVerifiedAt u with Some _ => Some (U_TOTPSecret u) | None => None end.

Definition cred (u : User) : credential := MkCredential (U_PasswordHash u) (active_totp u).

(** How a session was obtained. *)
Inductive evidence :=
| ByPassword (password : string)
| ByCode (challenge_token code : string) (at_time : time)
| ByRecoveryCode (challenge_token code : string)
| AtSetup.

(** What the hub did: the observable effects and, for the proofs, what it had checked for them. *)
Inductive event :=
| Challenged (token uid : string) (c : credential) (password : string)
| Issued (sid uid : string) (c : credential) (how : evidence)
| Kept (sid uid : string) (c : credential) (session_token : string)
| Spent (uid code hash : string)
| SetUp (uid : string) (c : credential)
| Audited (action target : string)
| StreamsRevoked (actor : string).

(** The outcome of the next operations of the account store. *)
Inductive fault := Refused | Unanswered.

Record world := MkWorld {
  accounts : MemoryAuthStore;
  pending : challenges;
  clock : time;
  faults : list (option fault);
  trace : list event }.

Definition init_world (now : time) (fs : list (option fault)) : world := MkWorld NewMemoryAuthStore ∅ now fs [].

(** The cookie of a response, and the whole of it. *)
Inductive cookie := Unchanged | SetSession (raw : string) | Cleared.
Record response := MkResponse { code : Z; set_cookie : cookie; challenge_token : string }.
Definition reply (code : Z) : response := MkResponse code Unchanged "".

Abbreviation handler := (prog world event response).
Abbreviation StatusOK := 200.
Abbreviation StatusNoContent := 204.
Abbreviation StatusBadRequest := 400.
Abbreviation StatusUnauthorized := 401.
Abbreviation StatusForbidden := 403.
Abbreviation StatusNotFound := 404.
Abbreviation StatusConflict := 409.
Abbreviation StatusInternalServerError := 500.

(** ** Actions *)

(** An operation of the account store; [note] is what it means, given the store before and after. *)
Definition store_result {A} (f : time → MemoryAuthStore → MemoryAuthStore * result auth_error A) (w : world) :
    MemoryAuthStore * result auth_error A :=
  let '(a, r) := f (clock w) (accounts w) in
  match faults w with
  | Some Refused :: _ => (accounts w, Err ErrStore)
  | Some Unanswered :: _ => (a, Err ErrStore)
  | _ => (a, r)
  end.

Definition store_note {A} (f : time → MemoryAuthStore → MemoryAuthStore * result auth_error A)
    (note : MemoryAuthStore → MemoryAuthStore → list event) (w : world) : list event :=
  match faults w with
  | Some Refused :: _ => []
  | _ => note (accounts w) (store_result f w).1
  end.

Definition store_call {A} (f : time → MemoryAuthStore → MemoryAuthStore * result auth_error A)
    (note : MemoryAuthStore → MemoryAuthStore → list event) (next : result auth_error A → handler) : handler :=
  Atomic
    (λ w, (MkWorld (store_result f w).1 (pending w) (clock w) (tail (faults w)) (trace w ++ store_note f note w), store_note f note w))
    (λ w, next (store_result f w).2).

Definition silent : MemoryAuthStore → MemoryAuthStore → list event := λ _ _, [].

(** Reading, changing and deleting. *)
Definition get_user (id : string) (next : result auth_error (option User) → handler) : handler :=
  store_call (λ _ s, (s, Ok (GetUserByID id s))) silent next.

Definition delete_sessions (id : string) (next : result auth_error unit → handler) : handler :=
  store_call (λ _ s, (DeleteSessionsByUserID id s, Ok tt)) silent next.

(** An operation of the challenge store, with what it means. *)
Definition challenge_call {A} (f : time → challenges → challenges * A) (es : list event) (next : A → handler) : handler :=
  Atomic
    (λ w, (MkWorld (accounts w) (f (clock w) (pending w)).1 (clock w) (faults w) (trace w ++ es), es))
    (λ w, next (f (clock w) (pending w)).2).

Definition revoke_challenges (uid : string) (next : handler) : handler :=
  challenge_call (λ _ cs, (RevokeForUser uid cs, tt)) [] (λ _, next).

Definition now (next : time → handler) : handler := read (λ w, next (clock w)).

Definition log (e : event) (next : handler) : handler :=
  Atomic (λ w, (MkWorld (accounts w) (pending w) (clock w) (faults w) (trace w ++ [e]), [e])) (λ _, next).

Notation "'let*' x := e 'in' k" := (e (λ x, k)) (at level 200, x name, e at level 200, k at level 200, only parsing).

Definition auditIdentityChange (action target : string) (next : handler) : handler := log (Audited action target) next.
Definition revokeStreams (actor : string) (next : handler) : handler := log (StreamsRevoked actor) next.

(** ** Sign-in *)

Definition is_local (u : User) : bool := equal_fold (trim_space (U_AuthProvider u)) "local".

(** The note of a new session: the session that the store gained. *)
Definition issued (u : User) (how : evidence) (before after : MemoryAuthStore) : list event :=
  (λ s, Issued (S_ID s) (U_ID u) (cred u) how) <$> drop (length (sessions before)) (sessions after).

(** [raw] is the session token, [None] when no random bytes could be read. *)
Definition CompleteLogin (u : User) (how : evidence) (raw : option string) : handler :=
  match raw with
  | None => Return (reply StatusInternalServerError)
  | Some raw =>
      let* t := now in
      let* r := store_call (λ now s, let '(s, x) := CreateAuthSession now (U_ID u) (HashToken raw) (t + SessionDuration) s in (s, Ok x))
                  (issued u how) in
      match r with
      | Ok _ => Return (MkResponse StatusOK (SetSession raw) "")
      | Err _ => Return (reply StatusInternalServerError)
      end
  end.

(** [HandleAuthLogin] from the lock of the user [uid] that the name belonged to; [token] is the random challenge token. *)
Definition HandleAuthLogin (uid password token : string) (raw : option string) : handler :=
  let* r := get_user uid in
  match r with
  | Err _ => Return (reply StatusInternalServerError)
  | Ok found =>
      match found with
      | Some u =>
          if negb (is_local u) || negb (CheckPassword password (U_PasswordHash u)) then Return (reply StatusUnauthorized)
          else if negb (is_empty (U_TOTPSecret u)) && bool_decide (is_Some (U_TOTPVerifiedAt u)) then
            let* _ := challenge_call (λ now cs, (Create now token (U_ID u) cs, tt)) [Challenged token (U_ID u) (cred u) password] in
            Return (MkResponse StatusOK Unchanged token)
          else CompleteLogin u (ByPassword password) raw
      | None => Return (reply StatusUnauthorized)
      end
  end.

(** The note of a recovery code that is spent: the hash that it matched. *)
Definition spent (uid code : string) (before _ : MemoryAuthStore) : list event :=
  match GetUserByID (trim_space uid) before with
  | Some u =>
      match find (CheckRecoveryCode code) (default [] (U_TOTPRecoveryCodes u)) with Some h => [Spent uid code h] | None => [] end
  | None => []
  end.

Definition TryRecoveryCode (u : User) (code : string) (next : bool → handler) : handler :=
  let* r := store_call (λ now, ConsumeRecoveryCode now (U_ID u) code) (spent (U_ID u) code) in
  next (match r with Ok consumed => consumed | Err _ => false end).

(** [HandleLogin2FA] from the lock of the user that [Validate] named. *)
Definition HandleLogin2FA (userID token code : string) (raw : option string) : handler :=
  let* consumed := challenge_call (λ now, Consume now token) [] in
  if decide (consumed ≠ Some userID) then Return (reply StatusUnauthorized)
  else
    let* r := get_user userID in
    match r with
    | Ok (Some u) =>
        match DecryptTOTPSecret (U_TOTPSecret u) with
        | None => Return (reply StatusInternalServerError)
        | Some secret =>
            let* t := now in
            if ValidateTOTPCode t secret code then CompleteLogin u (ByCode token code t) raw
            else
              let* ok := TryRecoveryCode u code in
              if ok : bool then CompleteLogin u (ByRecoveryCode token code) raw
              else Return (reply StatusUnauthorized)
        end
    | _ => Return (reply StatusUnauthorized)
    end.

(** ** Revocation *)

(** The loop of [revokeOtherUserSessions]. *)
Fixpoint revoke_loop (currentHash : string) (ss : list Session) (retainedCurrent : bool)
    (next : result auth_error bool → handler) : handler :=
  match ss with
  | [] => next (Ok retainedCurrent)
  | s :: ss =>
      if decide (S_TokenHash s = currentHash) then revoke_loop currentHash ss true next
      else
        let* r := store_call (λ _ a, (DeleteSession (S_ID s) a, Ok tt)) silent in
        match r with
        | Err e => next (Err e)
        | Ok _ => revoke_loop currentHash ss retainedCurrent next
        end
  end.

(** [token] is the session cookie of the request, empty when there is none. *)
Definition revokeOtherUserSessions (userID token : string) (next : result auth_error bool → handler) : handler :=
  if is_empty token then
    let* r := delete_sessions userID in
    next (match r with Ok _ => Ok false | Err e => Err e end)
  else
    let* r := store_call (λ _ s, (s, Ok (ListSessionsByUserID userID s))) silent in
    match r with
    | Err e => next (Err e)
    | Ok ss => revoke_loop (HashToken token) ss false next
    end.

(** The note of a change of the credential: the sessions that stay belong to the token that made the change. *)
Definition kept (uid token : string) (_ after : MemoryAuthStore) : list event :=
  match GetUserByID uid after with
  | Some u => (λ s, Kept (S_ID s) uid (cred u) token) <$> ListSessionsByUserID uid after
  | None => []
  end.

Definition cleared_unless (retained : bool) : response :=
  MkResponse StatusOK (if retained then Unchanged else Cleared) "".

(** ** Password *)

Definition HandleChangePassword (userID currentPassword newPassword : string) (salt : Z) (cookie_token : string) : handler :=
  let* r := get_user userID in
  match r with
  | Err _ => Return (reply StatusInternalServerError)
  | Ok None => Return (reply StatusUnauthorized)
  | Ok (Some u) =>
      if negb (bool_decide (trim_space (to_lower (U_AuthProvider u)) = "local")) then Return (reply StatusBadRequest)
      else if negb (CheckPassword currentPassword (U_PasswordHash u)) then Return (reply StatusUnauthorized)
      else
        match generate_hash salt newPassword with
        | None => Return (reply StatusInternalServerError)
        | Some newHash =>
            revoke_challenges userID (
            let* retained := revokeOtherUserSessions userID cookie_token in
            match retained with
            | Err _ => Return (reply StatusInternalServerError)
            | Ok retained =>
                let* r := store_call (λ now, UpdateUserPasswordHash now userID newHash) (kept userID cookie_token) in
                match r with
                | Err _ => Return (reply StatusInternalServerError)
                | Ok _ => auditIdentityChange "auth.password.changed" userID (Return (cleared_unless retained))
                end
            end)
        end
  end.

(** ** Second factor *)

(** [encrypted] is the new secret, generated and encrypted, or [None] when that failed. *)
Definition Handle2FASetup (userID : string) (encrypted : option string) : handler :=
  let* r := get_user userID in
  match r with
  | Ok (Some u) =>
      if negb (is_empty (U_TOTPSecret u)) && bool_decide (is_Some (U_TOTPVerifiedAt u)) then Return (reply StatusConflict)
      else
        match encrypted with
        | None => Return (reply StatusInternalServerError)
        | Some secret =>
            let* r := store_call (λ now, SetUserTOTPSecret now userID secret) silent in
            Return (reply (if is_ok r then StatusOK else StatusInternalServerError))
        end
  | _ => Return (reply StatusInternalServerError)
  end.

(** [hashedCodes] are the hashes of the new recovery codes, or [None] when hashing failed. *)
Definition Handle2FAVerify (userID code : string) (hashedCodes : option (list string)) (cookie_token : string) : handler :=
  let* r := get_user userID in
  match r with
  | Ok (Some u) =>
      if is_empty (U_TOTPSecret u) then Return (reply StatusBadRequest)
      else if bool_decide (is_Some (U_TOTPVerifiedAt u)) then Return (reply StatusConflict)
      else
        match DecryptTOTPSecret (U_TOTPSecret u) with
        | None => Return (reply StatusInternalServerError)
        | Some secret =>
            let* t := now in
            if negb (ValidateTOTPCode t secret code) then Return (reply StatusUnauthorized)
            else
              match hashedCodes with
              | None => Return (reply StatusInternalServerError)
              | Some codes =>
                  revoke_challenges userID (
                  let* retained := revokeOtherUserSessions userID cookie_token in
                  match retained with
                  | Err _ => Return (reply StatusInternalServerError)
                  | Ok retained =>
                      let* r := store_call (λ now, ConfirmUserTOTP now userID codes) (kept userID cookie_token) in
                      match r with
                      | Err _ => Return (reply StatusInternalServerError)
                      | Ok _ => auditIdentityChange "auth.2fa.enabled" userID (Return (cleared_unless retained))
                      end
                  end)
              end
        end
  | _ => Return (reply StatusInternalServerError)
  end.

(** [ValidateTOTPCode(secret, code) || TryRecoveryCode(user, code)], for a user whose second factor is on. *)
Definition second_factor (userID code : string) (next : User → handler) : handler :=
  let* r := get_user userID in
  match r with
  | Ok (Some u) =>
      if is_empty (U_TOTPSecret u) || negb (bool_decide (is_Some (U_TOTPVerifiedAt u))) then Return (reply StatusBadRequest)
      else
        match DecryptTOTPSecret (U_TOTPSecret u) with
        | None => Return (reply StatusInternalServerError)
        | Some secret =>
            let* t := now in
            if ValidateTOTPCode t secret code then next u
            else
              let* ok := TryRecoveryCode u code in
              if ok : bool then next u else Return (reply StatusUnauthorized)
        end
  | _ => Return (reply StatusInternalServerError)
  end.

Definition Handle2FADisable (userID code cookie_token : string) : handler :=
  let* _ := second_factor userID code in
  revoke_challenges userID (
  let* retained := revokeOtherUserSessions userID cookie_token in
  match retained with
  | Err _ => Return (reply StatusInternalServerError)
  | Ok retained =>
      let* r := store_call (λ now, ClearUserTOTP now userID) (kept userID cookie_token) in
      match r with
      | Err _ => Return (reply StatusInternalServerError)
      | Ok _ => auditIdentityChange "auth.2fa.disabled" userID (Return (cleared_unless retained))
      end
  end).

Definition Handle2FARecoveryCodes (userID code : string) (hashedCodes : option (list string)) (cookie_token : string) : handler :=
  let* _ := second_factor userID code in
  match hashedCodes with
  | None => Return (reply StatusInternalServerError)
  | Some codes =>
      revoke_challenges userID (
      let* retained := revokeOtherUserSessions userID cookie_token in
      match retained with
      | Err _ => Return (reply StatusInternalServerError)
      | Ok retained =>
          let* r := store_call (λ now, UpdateUserRecoveryCodes now userID codes) silent in
          match r with
          | Err _ => Return (reply StatusInternalServerError)
          | Ok _ => Return (cleared_unless retained)
          end
      end)
  end.

(** ** Administration of users *)

(** The principal of a request. *)
Record caller := MkCaller { caller_id : string; caller_role : string; caller_is_key : bool }.

Definition callerIsOwner (c : caller) : bool := bool_decide (NormalizeRole (caller_role c) = RoleOwner).
Definition callerMayManageUser (c : caller) (target : User) : bool :=
  bool_decide (caller_id c = U_ID target) || negb (HasAdminPrivileges (U_Role target)) || callerIsOwner c.
Definition callerMayGrantRole (c : caller) (role : string) : bool := negb (HasAdminPrivileges role) || callerIsOwner c.

Definition revokeUserStreamsIfDemoted (uid oldRole newRole : string) (next : handler) : handler :=
  if (HasWritePrivileges oldRole && negb (HasWritePrivileges newRole)) ||
     (HasAdminPrivileges oldRole && negb (HasAdminPrivileges newRole))
  then revokeStreams uid next else next.

Definition MinPasswordLength : Z := 8.
Abbreviation len s := (Z.of_nat (String.length s)).

Definition ValidateLoginRequest (username password : string) : bool :=
  negb (is_empty username) && (len username <=? 64) && negb (is_empty password) &&
  (MinPasswordLength <=? len password) && (len password <=? 256).

(** The role part of [PATCH /auth/users/{id}]; [next] gets the user's role after it. *)
Definition patch_role (c : caller) (u : User) (role : option string) (next : string → handler) : handler :=
  match role with
  | None => next (U_Role u)
  | Some role =>
      let role := to_lower (trim_space role) in
      if negb (IsValidRole role) then Return (reply StatusBadRequest)
      else if bool_decide (NormalizeRole (U_Role u) = RoleOwner) && negb (bool_decide (role = RoleOwner)) then Return (reply StatusBadRequest)
      else if bool_decide (role = RoleOwner) then Return (reply StatusBadRequest)
      else if negb (HasAdminPrivileges (U_Role u)) && negb (callerMayGrantRole c role) then Return (reply StatusForbidden)
      else
        let* r := store_call (λ now, UpdateUserRole now (U_ID u) role) silent in
        match r with
        | Err _ => Return (reply StatusInternalServerError)
        | Ok _ => auditIdentityChange "auth.user.role_changed" (U_ID u) (revokeUserStreamsIfDemoted (U_ID u) (U_Role u) role (next role))
        end
  end.

Definition patch_password (c : caller) (u : User) (role : string) (password : option string) (salt : Z) : handler :=
  match password with
  | None => Return (reply StatusOK)
  | Some password =>
      if bool_decide (NormalizeRole role = RoleOwner) && negb (bool_decide (caller_id c = U_ID u)) then Return (reply StatusForbidden)
      else if negb (ValidateLoginRequest (U_Username u) password) then Return (reply StatusBadRequest)
      else
        match generate_hash salt password with
        | None => Return (reply StatusInternalServerError)
        | Some hash =>
            revoke_challenges (U_ID u) (
            let* r := delete_sessions (U_ID u) in
            match r with
            | Err _ => Return (reply StatusInternalServerError)
            | Ok _ =>
                let* r := store_call (λ now, UpdateUserPasswordHash now (U_ID u) hash) (kept (U_ID u) "") in
                match r with
                | Err _ => Return (reply StatusInternalServerError)
                | Ok _ =>
                    auditIdentityChange "auth.user.password_reset" (U_ID u) (
                    revokeStreams (U_ID u) (
                    Return (cleared_unless (negb (bool_decide (caller_id c = U_ID u))))))
                end
            end)
        end
  end.

(** [PATCH /auth/users/{id}] *)
Definition HandleAuthUserActions (c : caller) (id : string) (role password : option string) (salt : Z) : handler :=
  let* r := get_user id in
  match r with
  | Err _ => Return (reply StatusInternalServerError)
  | Ok None => Return (reply StatusNotFound)
  | Ok (Some u) =>
      if negb (callerMayManageUser c u) then Return (reply StatusForbidden)
      else let* role := patch_role c u role in patch_password c u role password salt
  end.

(** The end of both deletions; a failure to revoke the sessions is only logged. *)
Definition delete_account (id : string) (next : handler) : handler :=
  revoke_challenges id (
  let* _ := delete_sessions id in
  let* r := store_call (λ _, DeleteUser id) silent in
  match r with
  | Err _ => Return (reply StatusInternalServerError)
  | Ok _ => next
  end).

Definition HandleDeleteOwnAccount (userID : string) : handler :=
  let* r := get_user userID in
  match r with
  | Err _ => Return (reply StatusInternalServerError)
  | Ok None => Return (reply StatusNotFound)
  | Ok (Some u) =>
      if bool_decide (NormalizeRole (U_Role u) = RoleOwner) then Return (reply StatusForbidden)
      else delete_account userID (revokeStreams userID (Return (MkResponse StatusOK Cleared "")))
  end.

Definition handleDeleteUser (c : caller) (id : string) : handler :=
  let* r := get_user id in
  match r with
  | Err _ => Return (reply StatusInternalServerError)
  | Ok None => Return (reply StatusNotFound)
  | Ok (Some u) =>
      if bool_decide (U_Role u = "owner") then Return (reply StatusForbidden)
      else if negb (callerMayManageUser c u) then Return (reply StatusForbidden)
      else delete_account id (auditIdentityChange "auth.user.deleted" id (revokeStreams id (Return (reply StatusNoContent))))
  end.

(** [DELETE /auth/users/{id}/sessions] *)
Definition handleUserSessions (c : caller) (userID : string) : handler :=
  let* r := get_user userID in
  match r with
  | Err _ => Return (reply StatusInternalServerError)
  | Ok found =>
      if match found with Some u => negb (callerMayManageUser c u) | None => false end then Return (reply StatusForbidden)
      else
        revoke_challenges userID (
        let* r := delete_sessions userID in
        match r with
        | Err _ => Return (reply StatusInternalServerError)
        | Ok _ => auditIdentityChange "auth.user.sessions_revoked" userID (revokeStreams userID (Return (reply StatusOK)))
        end)
  end.
(** ** The hub *)

(** A request that reached its handler, past the rate limits; for a sign-in by password, the user that the name
    belonged to before the lock was taken, and for one by code the user that [Validate] named. *)
Inductive call :=
| CallLogin (uid username password token : string) (raw : option string)
| CallLogin2FA (uid token code : string) (raw : option string)
| CallChangePassword (uid currentPassword newPassword : string) (salt : Z) (cookie_token : string)
| Call2FASetup (uid : string) (encrypted : option string)
| Call2FAVerify (uid code : string) (hashedCodes : option (list string)) (cookie_token : string)
| Call2FADisable (uid code cookie_token : string)
| Call2FARecoveryCodes (uid code : string) (hashedCodes : option (list string)) (cookie_token : string)
| CallDeleteOwnAccount (uid : string)
| CallUpdateUser (c : caller) (id : string) (role password : option string) (salt : Z)
| CallDeleteUser (c : caller) (id : string)
| CallRevokeSessions (c : caller) (id : string).

(** The user that a call locks and what it does then; [None] for a request that is
    refused before. *)
Definition start (c : call) : option (string * handler) :=
  match c with
  | CallLogin uid username password token raw =>
      if ValidateLoginRequest (trim_space username) password then Some (uid, HandleAuthLogin uid password token raw) else None
  | CallLogin2FA uid token code raw =>
      let token := trim_space token in
      let code := trim_space code in
      if is_empty token || is_empty code then None else Some (uid, HandleLogin2FA uid token code raw)
  | CallChangePassword uid currentPassword newPassword salt cookie_token =>
      if is_empty uid || is_empty currentPassword || (len newPassword <? MinPasswordLength) || (256 <? len newPassword) then None
      else Some (uid, HandleChangePassword uid currentPassword newPassword salt cookie_token)
  | Call2FASetup uid encrypted => Some (uid, Handle2FASetup uid encrypted)
  | Call2FAVerify uid code codes cookie_token =>
      let code := trim_space code in
      if is_empty code then None else Some (uid, Handle2FAVerify uid code codes cookie_token)
  | Call2FADisable uid code cookie_token =>
      let code := trim_space code in
      if is_empty code then None else Some (uid, Handle2FADisable uid code cookie_token)
  | Call2FARecoveryCodes uid code codes cookie_token =>
      let code := trim_space code in
      if is_empty code then None else Some (uid, Handle2FARecoveryCodes uid code codes cookie_token)
  | CallDeleteOwnAccount uid => if is_empty uid then None else Some (uid, HandleDeleteOwnAccount uid)
  | CallUpdateUser c id role password salt =>
      if caller_is_key c || (bool_decide (role = None) && bool_decide (password = None)) then None
      else Some (id, HandleAuthUserActions c id role password salt)
  | CallDeleteUser c id =>
      if caller_is_key c || bool_decide (caller_id c = id) then None else Some (id, handleDeleteUser c id)
  | CallRevokeSessions c id => if caller_is_key c || is_empty id then None else Some (id, handleUserSessions c id)
  end.

Definition with_accounts (w : world) (a : MemoryAuthStore) : world := MkWorld a (pending w) (clock w) (faults w) (trace w).
Definition with_pending (w : world) (cs : challenges) : world := MkWorld (accounts w) cs (clock w) (faults w) (trace w).
Definition with_events (w : world) (es : list event) : world :=
  MkWorld (accounts w) (pending w) (clock w) (faults w) (trace w ++ es).

(** What happens without the lock: time passes and operations come to fail; the challenge store drops expired
    challenges; users sign out and sessions expire; set-up makes the first user and, later, signs it in
    ([HandleAuthBootstrapSetup]); an administrator makes users ([HandleAuthUsers]); single sign-on makes
    users, adopts them, changes their roles and signs them in ([ResolveOIDCUser], [HandleAuthOIDCCallback]). *)
Inductive outside (w : world) : world → Prop :=
| out_time t : outside w (MkWorld (accounts w) (pending w) t (faults w) (trace w))
| out_faults fs : outside w (MkWorld (accounts w) (pending w) (clock w) fs (trace w))
| out_validate token : outside w (with_pending w (Validate (clock w) token (pending w)).1)
| out_cleanup : outside w (with_pending w (Cleanup (clock w) (pending w)))
| out_logout id : outside w (with_accounts w (DeleteSession id (accounts w)))
| out_expired : outside w (with_accounts w (DeleteExpiredSessions (clock w) (accounts w)).1)
| out_setup username hash a u :
    BootstrapFirstUser (clock w) username hash (accounts w) = (a, Some u) →
    outside w (with_events (with_accounts w a) [SetUp (U_ID u) (cred u)])
| out_setup_session uid c raw expires :
    SetUp uid c ∈ trace w →
    let '(a, s) := CreateAuthSession (clock w) uid (HashToken raw) expires (accounts w) in
    outside w (with_events (with_accounts w a) [Issued (S_ID s) uid c AtSetup])
| out_create username hash role :
    outside w (with_accounts w (CreateUserWithRole (clock w) username hash role "local" "" (accounts w)).1)
| out_provision username hash role issuer subject :
    outside w (with_accounts w (CreateUserWithOIDCIdentity (clock w) username hash role "oidc" issuer subject (accounts w)).1)
| out_adopt id subject issuer :
    outside w (with_accounts w (BindLegacyOIDCIdentity (clock w) id "oidc" subject issuer (accounts w)).1)
| out_role id role : outside w (with_accounts w (UpdateUserRole (clock w) id role (accounts w)).1)
| out_oidc_session uid raw expires :
    allocated (accounts w) uid → (∀ u, GetUserByID uid (accounts w) = Some u → U_AuthProvider u = "oidc") →
    outside w (with_accounts w (CreateAuthSession (clock w) uid (HashToken raw) expires (accounts w)).1).

Definition hub := state world event response call.
Definition reachable (st : hub) : Prop := ∃ now fs, rtc (step start outside) (init (init_world now fs)) st.

(** ** What the hub keeps true *)

(** What had been checked for an event. *)
Definition event_ok (tr : list event) (e : event) : Prop :=
  match e with
  | Challenged _ _ c password => CheckPassword password (password_hash c) = true ∧ totp c ≠ None
  | Issued _ uid c (ByPassword password) => CheckPassword password (password_hash c) = true ∧ totp c = None
  | Issued _ uid c (ByCode token code t) =>
      (∃ password, Challenged token uid c password ∈ tr) ∧
      ∃ encrypted secret, totp c = Some encrypted ∧ DecryptTOTPSecret encrypted = Some secret ∧ ValidateTOTPCode t secret code = true
  | Issued _ uid c (ByRecoveryCode token code) =>
      (∃ password, Challenged token uid c password ∈ tr) ∧ ∃ hash, Spent uid code hash ∈ tr
  | Issued _ uid c AtSetup => SetUp uid c ∈ tr
  | Spent _ code hash => CheckRecoveryCode code hash = true
  | _ => True
  end.

Lemma event_ok_mono tr tr' e : tr `prefix_of` tr' → event_ok tr e → event_ok tr' e.
Proof.
  intros [tl ->]. assert (Hin : ∀ e0, e0 ∈ tr → e0 ∈ tr ++ tl) by (intros; rewrite elem_of_app; auto).
  destruct e as [| ? ? ? []| | | | | ]; simpl; naive_solver.
Qed.

Record wf (w : world) : Prop := {
  wf_accounts : wf_store (accounts w);
  wf_pending token ch : pending w !! token = Some ch → allocated (accounts w) (C_UserID ch);
  wf_setup uid c : SetUp uid c ∈ trace w → allocated (accounts w) uid;
  wf_trace e : e ∈ trace w → event_ok (trace w) e }.

Definition user_of (k : string) (w : world) : option User := GetUserByID k (accounts w).

Definition at_setup (tr : list event) (sid uid : string) : Prop := ∃ c, Issued sid uid c AtSetup ∈ tr.

(** A session was issued under the credential of its user, or is the one that the last change of it
    kept, or is that of the set-up. *)
Definition justified (tr : list event) (s : Session) (uid : string) (c : credential) : Prop :=
  (∃ how, Issued (S_ID s) uid c how ∈ tr) ∨
  (∃ token, Kept (S_ID s) uid c token ∈ tr ∧ HashToken token = S_TokenHash s) ∨
  at_setup tr (S_ID s) uid.

Record during (k : string) (w : world) : Prop := {
  du_wf : wf w;
  du_sessions u s : user_of k w = Some u → is_local u = true → s ∈ sessions (accounts w) → S_UserID s = k →
    justified (trace w) s k (cred u);
  du_pending u token ch : user_of k w = Some u → pending w !! token = Some ch → C_UserID ch = k →
    ∃ password, Challenged token k (cred u) password ∈ trace w }.

(** ** What others leave alone while a call holds the lock of user [k] *)

Definition same_account (u u' : User) : Prop :=
  U_AuthProvider u' = U_AuthProvider u ∧ U_PasswordHash u' = U_PasswordHash u ∧
  U_TOTPSecret u' = U_TOTPSecret u ∧ U_TOTPVerifiedAt u' = U_TOTPVerifiedAt u.

(** The sessions of [k] that are not the set-up's. *)
Definition live (k : string) (w : world) (s : Session) : Prop :=
  s ∈ sessions (accounts w) ∧ S_UserID s = k ∧ ¬ at_setup (trace w) (S_ID s) k.

Record kept_for (k : string) (w w' : world) : Prop := {
  kf_wf : wf w';
  kf_user u : user_of k w = Some u → ∃ u', user_of k w' = Some u' ∧ same_account u u';
  kf_sessions u s : user_of k w = Some u → is_local u = true → live k w' s → live k w s;
  kf_pending u token ch : user_of k w = Some u → pending w' !! token = Some ch → C_UserID ch = k → pending w !! token = Some ch;
  kf_new u : user_of k w = None → user_of k w' = Some u →
    (is_local u = true → ∀ s, ¬ live k w' s) ∧ ∀ token ch, pending w' !! token = Some ch → C_UserID ch ≠ k;
  kf_gone : allocated (accounts w) k → allocated (accounts w') k ∧ (user_of k w = None → user_of k w' = None) }.

Definition keep (k : string) (w w' : world) : Prop := trace w `prefix_of` trace w' ∧ (wf w → kept_for k w w').

Lemma same_account_refl u : same_account u u.
Proof. done. Qed.

Lemma same_account_local u u' : same_account u u' → is_local u' = is_local u.
Proof. intros (Hp & _). unfold is_local. by rewrite Hp. Qed.

Lemma same_account_cred u u' : same_account u u' → cred u' = cred u.
Proof. intros (_ & Hh & Hs & Hv). unfold cred, active_totp. by rewrite Hh, Hs, Hv. Qed.

Lemma at_setup_mono tr tr' sid k : tr `prefix_of` tr' → at_setup tr sid k → at_setup tr' sid k.
Proof. intros [tl ->] [c Hc]. exists c. rewrite elem_of_app. auto. Qed.

Lemma at_setup_dec tr sid k : at_setup tr sid k ∨ ¬ at_setup tr sid k.
Proof.
  induction tr as [|e tr IH]; [right; intros [c Hc]; by apply not_elem_of_nil in Hc|].
  destruct IH as [[c Hc]|Hn]; [left; exists c; rewrite elem_of_cons; auto|].
  destruct e as [|sid' uid c []| | | | |]; try (right; intros [c' Hc']; apply elem_of_cons in Hc' as [|Hc']; [done|by apply Hn; exists c']).
  destruct (decide (sid' = sid ∧ uid = k)) as [[-> ->]|Hne]; [left; exists c; rewrite elem_of_cons; auto|].
  right. intros [c' Hc']. apply elem_of_cons in Hc' as [[=]|Hc']; [by apply Hne|by apply Hn; exists c'].
Qed.

Lemma justified_mono tr tr' s k c : tr `prefix_of` tr' → justified tr s k c → justified tr' s k c.
Proof.
  intros Hp [(how & Hi)|[(tok & Hk & Hh)|Ha]]; [left|right; left|right; right; by eapply at_setup_mono];
    destruct Hp as [tl ->]; eexists; rewrite elem_of_app; eauto.
Qed.

#[export] Instance keep_preorder k : PreOrder (keep k).
Proof.
  split.
  - intros w. split; [done|]. intros Hw. split; [done|eauto using same_account_refl|done|done| |done]. intros u Hn Hs. congruence.
  - intros w1 w2 w3 [P1 K1] [P2 K2]. split; [by etrans|]. intros Hw.
    destruct (K1 Hw) as [W2 U1 S1 C1 N1 G1]. destruct (K2 W2) as [W3 U2 S2 C2 N2 G2]. split; [done| | | | |].
    + intros u (u2 & Hu2 & E1)%U1. destruct (U2 _ Hu2) as (u3 & Hu3 & E2). exists u3. split; [done|].
      destruct E1 as (? & ? & ? & ?), E2 as (? & ? & ? & ?). repeat split; congruence.
    + intros u s Hu Hl Hs. destruct (U1 _ Hu) as (u2 & Hu2 & E). eapply S1; [done|done|]. eapply S2; [done| |done].
      by rewrite (same_account_local _ _ E).
    + intros u tok ch Hu Hp Hk. destruct (U1 _ Hu) as (u2 & Hu2 & _). eapply C1; [done| |done]. by eapply C2.
    + intros u Hn Hu. destruct (user_of k w2) as [u2|] eqn:Hu2; [|by apply N2].
      destruct (N1 _ Hn eq_refl) as [Hs Hc]. destruct (U2 _ eq_refl) as (u3 & Hu3 & E).
      assert (u3 = u) as -> by congruence. rewrite <-(same_account_local _ _ E) in Hs. split.
      * intros Hl s Hlive. eapply (Hs Hl s), S2; [done| |done]. by rewrite <-(same_account_local _ _ E).
      * intros tok ch Hp Hk. apply (Hc tok ch); [|done]. by eapply C2.
    + intros Ha. destruct (G1 Ha) as [Ha2 Hn1]. destruct (G2 Ha2) as [Ha3 Hn2]. auto.
Qed.

Lemma during_keep k w w' : during k w → keep k w w' → during k w'.
Proof.
  intros [Hw Hs Hc] [Hp Hk]. destruct (Hk Hw) as [Hw' HU HS HC HN _]. split; [done| |].
  - intros u s Hu Hl Hin Hid.
    destruct (at_setup_dec (trace w') (S_ID s) k) as [Ha|Ha]; [by right; right|].
    destruct (user_of k w) as [u0|] eqn:Hu0.
    + destruct (HU _ eq_refl) as (u1 & Hu1 & E). assert (u1 = u) as -> by congruence.
      rewrite (same_account_cred _ _ E). eapply justified_mono; [done|].
      rewrite (same_account_local _ _ E) in Hl. destruct (HS _ s eq_refl Hl) as (? & ? & _); [by split_and!|]. by apply Hs.
    + destruct (HN _ eq_refl Hu) as [Hno _]. exfalso. by eapply (Hno Hl s).
  - intros u tok ch Hu Hpd Hid. destruct (user_of k w) as [u0|] eqn:Hu0.
    + destruct (HU _ eq_refl) as (u1 & Hu1 & E). assert (u1 = u) as -> by congruence. rewrite (same_account_cred _ _ E).
      destruct (Hc _ tok ch eq_refl) as [pw Hin]; [by eapply HC|done|]. exists pw. destruct Hp as [tl ->]. rewrite elem_of_app. auto.
    + destruct (HN _ eq_refl Hu) as [_ Hno]. by destruct (Hno tok ch).
Qed.

(** ** Steps that keep to the rely *)

Lemma wf_step w w' tl :
  trace w' = trace w ++ tl → wf_store (accounts w') → (nextID (accounts w) ≤ nextID (accounts w'))%N →
  (∀ tok ch, pending w' !! tok = Some ch → pending w !! tok = Some ch ∨ allocated (accounts w') (C_UserID ch)) →
  Forall (event_ok (trace w')) tl → (∀ uid c, SetUp uid c ∈ tl → allocated (accounts w') uid) → wf w → wf w'.
Proof.
  intros Ht Ha Hn Hp He Hs [_ Hwp Hws Hwt]. split; [done| | |].
  - intros tok ch [Hold|?]%Hp; [|done]. eapply allocated_mono; [done|]. by eapply Hwp.
  - intros uid c. rewrite Ht, elem_of_app. intros [Hin|Hin]; [|by eapply Hs]. eapply allocated_mono; [done|]. by eapply Hws.
  - intros e. rewrite Ht, elem_of_app, <-Ht. intros [Hin|Hin].
    + eapply event_ok_mono; [|by apply Hwt]. rewrite Ht. by apply prefix_app_r.
    + by eapply Forall_forall in He.
Qed.

Lemma keep_intro k w w' tl :
  trace w' = trace w ++ tl → (wf w → wf w') → (nextID (accounts w) ≤ nextID (accounts w'))%N →
  (wf w → ∀ u, user_of k w = Some u → ∃ u', user_of k w' = Some u' ∧ same_account u u') →
  (user_of k w = None → user_of k w' = None) →
  (∀ u s, user_of k w = Some u → is_local u = true → s ∈ sessions (accounts w') → S_UserID s = k →
     s ∈ sessions (accounts w) ∨ at_setup (trace w') (S_ID s) k) →
  (∀ tok ch, pending w' !! tok = Some ch → C_UserID ch = k → pending w !! tok = Some ch) → keep k w w'.
Proof.
  intros Ht Hw Hnext Hu Hn Hs Hp. assert (Hpre : trace w `prefix_of` trace w') by (rewrite Ht; by apply prefix_app_r).
  split; [done|]. intros Hwf. split; [by apply Hw|by apply Hu| |by intros u tok ch _; apply Hp| |].
  - intros u s Huk Hl (Hin & Hid & Hna). destruct (Hs _ _ Huk Hl Hin Hid) as [?|?]; [|done].
    split_and!; [done|done|]. intros Ha. by eapply Hna, at_setup_mono.
  - intros u Hnone Hsome. by rewrite (Hn Hnone) in Hsome.
  - intros Ha. split; [by eapply allocated_mono|done].
Qed.

(** The account store as it was. *)
Lemma keep_pending k w w' tl :
  trace w' = trace w ++ tl → accounts w' = accounts w → Forall (event_ok (trace w')) tl → (∀ uid c, SetUp uid c ∉ tl) →
  (∀ tok ch, pending w' !! tok = Some ch → pending w !! tok = Some ch) → keep k w w'.
Proof.
  intros Ht Ha He Hs Hp. apply (keep_intro _ _ _ tl); [done| |by rewrite Ha| | | |eauto].
  - intros Hw. apply (wf_step w _ tl); rewrite ?Ha; [done|apply Hw|done|by eauto|done| |done]. intros uid c Hin. by destruct (Hs uid c).
  - intros _ u Hu. exists u. unfold user_of. by rewrite Ha.
  - unfold user_of. by rewrite Ha.
  - rewrite Ha. eauto.
Qed.

(** The same users, and fewer sessions. *)
Lemma keep_sessions k w w' :
  trace w' = trace w → pending w' = pending w → users (accounts w') = users (accounts w) →
  nextID (accounts w') = nextID (accounts w) → sessions (accounts w') `sublist_of` sessions (accounts w) → keep k w w'.
Proof.
  intros Ht Hp Hu Hn Hs. assert (HU : ∀ k, user_of k w' = user_of k w) by (intros k'; unfold user_of, GetUserByID; by rewrite Hu).
  apply (keep_intro _ _ _ []); [by rewrite app_nil_r| |by rewrite Hn| | | |].
  - intros Hw. apply (wf_step w _ []); [by rewrite app_nil_r| |by rewrite Hn|by rewrite Hp; auto|constructor|by intros ? ? ?%not_elem_of_nil|done].
    destruct w' as [[us ss n] ? ? ? ?]. simpl in *. subst us n. by apply wf_fewer, Hw.
  - intros _ u. rewrite HU. eauto using same_account_refl.
  - by rewrite HU.
  - intros _ s _ _ Hin _. left. by eapply elem_of_sublist.
  - by rewrite Hp.
Qed.

(** An update of one user that leaves its credentials alone. *)
Lemma keep_update k w w' id f tl `{!SameKey f} :
  accounts w' = (update_user id f (accounts w)).1 → pending w' = pending w → trace w' = trace w ++ tl →
  Forall (event_ok (trace w')) tl → (∀ uid c, SetUp uid c ∉ tl) → (wf w → wf_store (accounts w')) →
  (∀ u, user_of k w = Some u → k = id → same_account u (f u)) → keep k w w'.
Proof.
  intros Ha Hp Ht He Hse Hwf Hsame. destruct (update_user_spec id f (accounts w)) as (Hs & Hn & _ & _ & _ & Hg).
  assert (HU : ∀ k, user_of k w' = if decide (k = id) then f <$> user_of k w else user_of k w) by (intros k'; unfold user_of; by rewrite Ha).
  apply (keep_intro _ _ _ tl); [done| |by rewrite Ha, Hn| | | |by rewrite Hp].
  - intros Hw. apply (wf_step w _ tl); [done|by apply Hwf|by rewrite Ha, Hn|by rewrite Hp; auto|done| |done].
    intros uid c Hin. by destruct (Hse uid c).
  - intros _ u Hu. rewrite HU, Hu. case_decide; simpl; [exists (f u); split; [done|by apply Hsame]|by exists u].
  - intros Hu. rewrite HU, Hu. by case_decide.
  - rewrite Ha, Hs. eauto.
Qed.

(** A new session, of somebody else, of somebody who signs in elsewhere, or of the set-up. *)
Lemma keep_new_session k w w' t uid h e tl :
  accounts w' = (CreateAuthSession t uid h e (accounts w)).1 → pending w' = pending w → trace w' = trace w ++ tl →
  (wf w → Forall (event_ok (trace w')) tl) → (∀ id c, SetUp id c ∉ tl) → (wf w → allocated (accounts w) uid) →
  (∀ u, user_of k w = Some u → is_local u = true → uid = k → at_setup (trace w') (S_ID (CreateAuthSession t uid h e (accounts w)).2) k) →
  keep k w w'.
Proof.
  intros Ha Hp Ht He Hse Hal Hok.
  assert (HU : ∀ k, user_of k w' = user_of k w) by (intros k'; unfold user_of, GetUserByID; by rewrite Ha).
  apply (keep_intro _ _ _ tl); [done| |by rewrite Ha; simpl; lia| | | |by rewrite Hp].
  - intros Hw. apply (wf_step w _ tl); [done| |by rewrite Ha; simpl; lia|by rewrite Hp; auto|by apply He| |done].
    + rewrite Ha. apply wf_create_session; [by apply Hal|apply Hw].
    + intros id c Hin. by destruct (Hse id c).
  - intros _ u. rewrite HU. eauto using same_account_refl.
  - by rewrite HU.
  - intros u s Hu Hl. rewrite Ha. simpl. intros [?| ->%list_elem_of_singleton]%elem_of_app Hid; [by left|]. right. by eapply Hok.
Qed.

(** A new user. *)
Lemma keep_add_user k w w' f tl :
  accounts w' = (add_user f (accounts w)).1 → pending w' = pending w → trace w' = trace w ++ tl →
  (∀ id, U_ID (f id) = id) → (wf w → wf_store (accounts w')) → Forall (event_ok (trace w')) tl →
  (∀ id c, SetUp id c ∈ tl → allocated (accounts w') id) → keep k w w'.
Proof.
  intros Ha Hp Ht Hid Hwf He Hse. split; [rewrite Ht; by apply prefix_app_r|]. intros Hw.
  assert (Hnew : k ≠ user_id (N.succ (nextID (accounts w))) → user_of k w' = user_of k w).
  { intros Hk. unfold user_of. rewrite Ha. apply add_user_get; [by rewrite Hid|done]. }
  assert (Hfresh : ¬ allocated (accounts w) (user_id (N.succ (nextID (accounts w))))).
  { intros (n & Hn & Hle). apply user_id_inj in Hn. lia. }
  assert (Hsome : ∀ u, user_of k w = Some u → k ≠ user_id (N.succ (nextID (accounts w)))).
  { intros u [Hu <-]%get_user_some Heq. apply Hfresh. rewrite <-Heq. by apply Hw. }
  split.
  - apply (wf_step w _ tl); [done|by apply Hwf|by rewrite Ha; simpl; lia|by rewrite Hp; auto|done|done|done].
  - intros u Hu. rewrite Hnew by by eapply Hsome. eauto using same_account_refl.
  - intros u s _ _ (Hin & Hs & Hna). split_and!; [by rewrite Ha in Hin|done|]. intros Hset. eapply Hna, at_setup_mono; [|done].
    rewrite Ht. by apply prefix_app_r.
  - by rewrite Hp.
  - intros u Hnone Hu. destruct (decide (k = user_id (N.succ (nextID (accounts w))))) as [->|Hk]; [|rewrite Hnew in Hu by done; congruence].
    split.
    + intros _ s (Hin & Hs & _). rewrite Ha in Hin. apply Hfresh. rewrite <-Hs. by apply Hw.
    + intros tok ch Hpd Hch. rewrite Hp in Hpd. apply Hfresh. rewrite <-Hch. by eapply Hw.
  - intros Hal. split; [eapply allocated_mono; [|done]; rewrite Ha; simpl; lia|]. intros Hnone. rewrite Hnew; [done|].
    intros ->. by apply Hfresh.
Qed.

Lemma find_none_name username us :
  existsb (λ u, bool_decide (U_Username u = username)) us = false → username ∉ U_Username <$> us.
Proof.
  intros Hf (u & -> & Hu)%list_elem_of_fmap. rewrite existsb_false_elem in Hf. specialize (Hf u Hu). by bool_prop.
Qed.

Lemma keep_create k w username hash role :
  keep k w (with_accounts w (CreateUserWithRole (clock w) username hash role "local" "" (accounts w)).1).
Proof.
  unfold CreateUserWithRole. destruct (has_username username (accounts w)) eqn:Hn; [destruct w; reflexivity|].
  eapply (keep_add_user _ _ _ _ []); [done|done|by rewrite app_nil_r|done| |constructor|by intros ? ? ?%not_elem_of_nil].
  intros Hw. apply wf_add_user; [done|intros ?; by apply find_none_name|done|apply Hw].
Qed.

Lemma keep_provision k w username hash role issuer subject :
  keep k w (with_accounts w (CreateUserWithOIDCIdentity (clock w) username hash role "oidc" issuer subject (accounts w)).1).
Proof.
  unfold CreateUserWithOIDCIdentity. case_match eqn:Hreq; [destruct w; reflexivity|].
  case_match eqn:Hfind; [destruct w; reflexivity|].
  eapply (keep_add_user _ _ _ _ []); [done|done|by rewrite app_nil_r|done| |constructor|by intros ? ? ?%not_elem_of_nil].
  rewrite find_None_elem in Hfind. intros Hw. apply wf_add_user; [done| | |apply Hw].
  - intros ? (u & Hu & Hin)%list_elem_of_fmap. specialize (Hfind u Hin). simpl in Hu. bool_prop. congruence.
  - intros ? v Hin _. specialize (Hfind v Hin). by bool_prop.
Qed.

(** The adoption of an issuer-less user keeps identities apart. *)
Lemma keep_adopt k w id subject issuer :
  keep k w (with_accounts w (BindLegacyOIDCIdentity (clock w) id "oidc" subject issuer (accounts w)).1).
Proof.
  set (issuer' := trim_space issuer). set (f := set_OIDCIssuer (clock w) issuer').
  set (r := BindLegacyOIDCIdentity (clock w) id "oidc" subject issuer (accounts w)).
  assert (Hr : r.1 = accounts w ∨ ∃ us u,
    existsb (λ u, negb (bool_decide (U_ID u = id)) && has_identity "oidc" issuer' (trim_space subject) u) (users (accounts w)) = false ∧
    update_first (λ u, bool_decide (U_ID u = id) && has_identity "oidc" "" (trim_space subject) u) f (users (accounts w)) = Some (us, u) ∧
    r.1 = MkAuthStore us (sessions (accounts w)) (nextID (accounts w))).
  { unfold r, BindLegacyOIDCIdentity. case_match; [by left|].
    destruct (existsb _ _) eqn:Hother; [by left|]. destruct (update_first _ _ _) as [[us u]|] eqn:Hup; [|by left]. right. by exists us, u. }
  split; [done|]. intros Hw. destruct Hr as [->|(us & u & Hother & Hup & ->)]; [destruct w; apply (reflexivity (R := keep k)), Hw|].
  apply update_first_by_id in Hup as [Hup (u0 & Hu0 & Hid0 & Hq)]; [|apply Hw].
  assert (Ha : MkAuthStore us (sessions (accounts w)) (nextID (accounts w)) = (update_user id f (accounts w)).1) by (unfold update_user; by rewrite Hup).
  rewrite Ha. eapply (keep_update k w _ id f []); [done|done|by rewrite app_nil_r|constructor|by intros ? ? ?%not_elem_of_nil| |by intros|done].
  intros _. apply wf_update_user_gen; [apply _| | |apply Hw].
  - intros u1 v1 Hu1 Hi1 Hv1 Hn1 _. rewrite existsb_false_elem in Hother. specialize (Hother v1 Hv1).
    assert (u1 = u0) as ->.
    { apply (get_user_elem _ _ (ws_ids _ (wf_accounts _ Hw))) in Hu1, Hu0. congruence. }
    apply has_identity_true in Hq as (Hq1 & _ & Hq3). simpl. rewrite Hq1, Hq3. rewrite bool_decide_false in Hother by done. done.
  - intros u1 Hu1 _. simpl. by apply (ws_verified _ (wf_accounts _ Hw)).
Qed.

Lemma keep_role k w id role : keep k w (with_accounts w (UpdateUserRole (clock w) id role (accounts w)).1).
Proof.
  eapply (keep_update k w _ id (set_role (clock w) role) []); [done|done|by rewrite app_nil_r|constructor|by intros ? ? ?%not_elem_of_nil| |by intros].
  intros Hw. apply wf_update_user; [apply _|done| |apply Hw]. intros u Hu _. simpl. by apply (ws_verified _ (wf_accounts _ Hw)).
Qed.

Lemma delete_session_sublist id s : sessions (DeleteSession id s) `sublist_of` sessions s.
Proof. unfold DeleteSession. simpl. destruct (delete_first _ _) eqn:Hd; [by eapply delete_first_sublist|done]. Qed.

Lemma keep_setup k w username hash a u :
  BootstrapFirstUser (clock w) username hash (accounts w) = (a, Some u) →
  keep k w (with_events (with_accounts w a) [SetUp (U_ID u) (cred u)]).
Proof.
  unfold BootstrapFirstUser. destruct (users (accounts w)) as [|u0 us] eqn:Hus; [|done]. intros [= <- <-].
  eapply (keep_add_user _ _ _ _ [SetUp _ _]); [done|done|done|done| |by apply Forall_singleton|].
  - intros Hw. apply wf_add_user; [done| | |apply Hw]; rewrite Hus; [intros ? ?%not_elem_of_nil; done|intros ? ? ?%not_elem_of_nil; done].
  - intros i c [= -> _]%list_elem_of_singleton. eexists. split; [done|]. simpl. lia.
Qed.

Lemma keep_setup_session k w uid c raw expires :
  SetUp uid c ∈ trace w →
  let r := CreateAuthSession (clock w) uid (HashToken raw) expires (accounts w) in
  keep k w (with_events (with_accounts w r.1) [Issued (S_ID r.2) uid c AtSetup]).
Proof.
  intros Hin r. eapply (keep_new_session k w _ (clock w) uid (HashToken raw) expires [_]); [done..| | | |].
  - intros _. apply Forall_singleton. simpl. rewrite elem_of_app. auto.
  - by intros i c' [=]%list_elem_of_singleton.
  - intros Hw. by eapply Hw.
  - intros u _ _ <-. exists c. simpl. rewrite elem_of_app, list_elem_of_singleton. auto.
Qed.

Lemma keep_oidc_session k w uid raw expires :
  allocated (accounts w) uid → (∀ u, GetUserByID uid (accounts w) = Some u → U_AuthProvider u = "oidc") →
  keep k w (with_accounts w (CreateAuthSession (clock w) uid (HashToken raw) expires (accounts w)).1).
Proof.
  intros Ha Hp. eapply (keep_new_session k w _ (clock w) uid (HashToken raw) expires []);
    [done|done|by rewrite app_nil_r|constructor|by intros ? ? ?%not_elem_of_nil|done|].
  intros u Hu Hl ->. apply Hp in Hu. unfold is_local in Hl. rewrite Hu in Hl. by vm_compute in Hl.
Qed.

Lemma keep_outside k w w' : outside w w' → keep k w w'.
Proof.
  assert (Hnil : ∀ id c, SetUp id c ∉ []) by by intros ? ? ?%not_elem_of_nil.
  destruct 1.
  - by apply (keep_pending k w _ []); simpl; rewrite ?app_nil_r; [..|constructor| |].
  - by apply (keep_pending k w _ []); simpl; rewrite ?app_nil_r; [..|constructor| |].
  - apply (keep_pending k w _ []); simpl; rewrite ?app_nil_r; [done|done|constructor|done|].
    intros tok ch. unfold Validate. repeat case_match; simpl; rewrite ?lookup_delete_Some; naive_solver.
  - apply (keep_pending k w _ []); simpl; rewrite ?app_nil_r; [done|done|constructor|done|].
    intros tok ch. unfold Cleanup. rewrite map_lookup_filter_Some. naive_solver.
  - apply keep_sessions; [done..|]. apply delete_session_sublist.
  - apply keep_sessions; [done..|]. simpl. apply sublist_filter.
  - by eapply keep_setup.
  - by apply keep_setup_session.
  - apply keep_create.
  - apply keep_provision.
  - apply keep_adopt.
  - apply keep_role.
  - by apply keep_oidc_session.
Qed.

(** The conditions of [LockedCalls]: nothing is asked of a returned call. *)
Abbreviation settled := (λ _ _ _ _ _, True).

#[export] Instance signin_spec : LockedSpec (E := event) (R := response) (C := call) outside keep (λ _ _, True) during during settled.
Proof.
  split; try done.
  - apply _.
  - intros k w w'. apply during_keep.
  - intros k w w'. apply during_keep.
  - intros k w w'. apply keep_outside.
Qed.

(** ** Rules for the handlers

    [ok k P p]: from a state where [P] holds, [p] keeps the conditions of its user and leaves
    those of the others alone. *)

Abbreviation holding k c := (wp keep (λ _ _, True) during during settled k c).

Definition ok (k : string) (P : world → Prop) (p : handler) : Prop :=
  ∀ (c : call) w es, during k w → P w → holding k c p w es.

Definition stable (k : string) (P : world → Prop) : Prop := ∀ w w', wf w → keep k w w' → P w → P w'.

(** What an action must do. *)
Definition step_ok (k : string) (w w' : world) : Prop := (∀ k', k' ≠ k → keep k' w w') ∧ during k w'.

Lemma step_ok_keep k w w' : during k w → (∀ k', keep k' w w') → step_ok k w w'.
Proof. intros Hd Hk. split; [by intros|]. by eapply during_keep. Qed.

Lemma ok_return k P r : ok k P (Return r).
Proof. by intros c w es Hd _. Qed.

Lemma ok_action k P act next :
  stable k P →
  (∀ w, during k w → P w → step_ok k w (act w).1 ∧ ∃ Q : world → Prop, Q (act w).1 ∧ ok k Q (next w)) →
  ok k P (Atomic act next).
Proof.
  intros Hst Hact c w es Hd HP w' Hk. assert (Hd' := during_keep _ _ _ Hd Hk).
  assert (HP' : P w') by (eapply Hst; [apply Hd|done|done]). destruct (Hact w' Hd' HP') as ([Ho Hown] & Q & HQ & Hnext).
  split_and!; [done|done|done|]. by apply Hnext.
Qed.

Lemma ok_weaken k (P Q : world → Prop) p : (∀ w, during k w → P w → Q w) → ok k Q p → ok k P p.
Proof. intros HPQ Hok c w es Hd HP. apply Hok; auto. Qed.

(** An operation of the account store: what it does when it takes effect, and what is known with each
    answer; an operation that failed says nothing. *)
Definition after_store {A} (f : time → MemoryAuthStore → MemoryAuthStore * result auth_error A)
    (note : MemoryAuthStore → MemoryAuthStore → list event) (w : world) (fs : list (option fault)) : world :=
  let a := (f (clock w) (accounts w)).1 in MkWorld a (pending w) (clock w) fs (trace w ++ note (accounts w) a).

Lemma ok_store {A} k P (Q : result auth_error A → world → Prop) f note next :
  stable k P →
  (∀ w fs, during k w → P w → step_ok k w (after_store f note w fs) ∧ Q (f (clock w) (accounts w)).2 (after_store f note w fs)) →
  ok k (λ _, True) (next (Err ErrStore)) → (∀ r, ok k (Q r) (next r)) → ok k P (store_call f note next).
Proof.
  intros Hst Hf Herr Hok. apply ok_action; [done|]. intros w Hd HP. unfold store_note, store_result. simpl.
  destruct (Hf w (tail (faults w)) Hd HP) as [Hs HQ]. unfold after_store in Hs, HQ.
  destruct (f (clock w) (accounts w)) as [a r] eqn:Hfw. simpl in *.
  destruct (faults w) as [|[[]|] fs]; simpl in *; rewrite ?Hfw; simpl.
  - split; [done|]. by exists (Q r).
  - rewrite app_nil_r. split; [|by exists (λ _, True)]. apply step_ok_keep; [done|]. intros k'.
    by apply (keep_pending k' w _ []); simpl; rewrite ?app_nil_r; [..|constructor|intros ? ? ?%not_elem_of_nil|].
  - split; [done|]. by exists (λ _, True).
  - split; [done|]. by exists (Q r).
Qed.

(** Operations that only look. *)
Lemma ok_look {A} k P (Q : result auth_error A → world → Prop) f next :
  stable k P → (∀ r, stable k (Q r)) → (∀ w t, (f t (accounts w)).1 = accounts w) →
  (∀ w, during k w → P w → Q (f (clock w) (accounts w)).2 w) →
  ok k (λ _, True) (next (Err ErrStore)) → (∀ r, ok k (Q r) (next r)) → ok k P (store_call f silent next).
Proof.
  intros Hst HstQ Hf HQ Herr Hok. apply (ok_store _ _ Q); [done| |done|done]. intros w fs Hd HP.
  assert (Hk : ∀ k', keep k' w (after_store f silent w fs)).
  { intros k'. apply (keep_pending k' w _ []); [done|apply Hf|constructor|by intros ? ? ?%not_elem_of_nil|done]. }
  split; [by apply step_ok_keep|]. eapply HstQ; [apply Hd|apply Hk|by apply HQ].
Qed.

Lemma ok_now k P next : stable k P → (∀ t, ok k P (next t)) → ok k P (now next).
Proof.
  intros Hst Hok. apply ok_action; [done|]. intros w Hd HP. simpl. split; [|by exists P].
  apply step_ok_keep; [done|]. by intros.
Qed.

Lemma ok_log k P e next : stable k P → event_ok [] e → (∀ uid c, SetUp uid c ≠ e) → ok k P next → ok k P (log e next).
Proof.
  intros Hst He Hse Hok. apply ok_action; [done|]. intros w Hd HP. simpl.
  assert (Hk : ∀ k', keep k' w (MkWorld (accounts w) (pending w) (clock w) (faults w) (trace w ++ [e]))).
  { intros k'. apply (keep_pending k' w _ [e]); [done|done| |by intros uid c ?%list_elem_of_singleton; eapply Hse|done].
    apply Forall_singleton. eapply event_ok_mono; [|done]. apply prefix_nil. }
  split; [by apply step_ok_keep|]. exists P. split; [|done]. eapply Hst; [apply Hd|apply Hk|done].
Qed.

(** ** What a handler knows of its user *)

(** The account is still as it was read. *)
Definition knows (k : string) (u : User) (w : world) : Prop := ∃ u', user_of k w = Some u' ∧ same_account u u'.

Definition quiet (k : string) (w : world) : Prop := ∀ token ch, pending w !! token = Some ch → C_UserID ch ≠ k.

(** Only sessions with the token of the request are left. *)
Definition only (k token : string) (u : User) (w : world) : Prop :=
  is_local u = true → ∀ s, live k w s → token ≠ "" ∧ S_TokenHash s = HashToken token.

Definition revoked (k token : string) (u : User) (w : world) : Prop := knows k u w ∧ quiet k w ∧ only k token u w.

Lemma stable_true k : stable k (λ _, True).
Proof. done. Qed.

Lemma stable_knows k u : stable k (knows k u).
Proof.
  intros w w' Hw [_ Hk] (u1 & Hu1 & E1). destruct (kf_user _ _ _ (Hk Hw) _ Hu1) as (u2 & Hu2 & E2). exists u2. split; [done|].
  destruct E1 as (? & ? & ? & ?), E2 as (? & ? & ? & ?). repeat split; congruence.
Qed.

Lemma stable_quiet k u : stable k (λ w, knows k u w ∧ quiet k w).
Proof.
  intros w w' Hw Hk [Hu Hq]. split; [by eapply stable_knows|]. destruct Hk as [_ Hk], Hu as (u1 & Hu1 & _).
  intros tok ch Hp Hid. eapply Hq; [|done]. by eapply (kf_pending _ _ _ (Hk Hw)).
Qed.

Lemma stable_revoked k token u : stable k (revoked k token u).
Proof.
  intros w w' Hw Hk (Hu & Hq & Ho). destruct (stable_quiet _ _ _ _ Hw Hk (conj Hu Hq)) as [Hu' Hq']. split_and!; [done|done|].
  destruct Hk as [_ Hk], Hu as (u1 & Hu1 & E). intros Hl s Hs. apply Ho; [done|].
  eapply (kf_sessions _ _ _ (Hk Hw)); [done|by rewrite (same_account_local _ _ E)|done].
Qed.

(** What an event needs is not lost. *)
Definition ready (k : string) (u : User) (how : evidence) (w : world) : Prop :=
  knows k u w ∧ event_ok (trace w) (Issued "" k (cred u) how).

Lemma stable_ready k u how : stable k (ready k u how).
Proof.
  intros w w' Hw Hk [Hu He]. split; [by eapply stable_knows|]. eapply event_ok_mono; [apply Hk|exact He].
Qed.

#[local] Hint Resolve stable_true stable_knows stable_quiet stable_revoked stable_ready ok_return : core.

Lemma no_setup_events (es : list event) : (∀ e, e ∈ es → ∀ uid c, e ≠ SetUp uid c) → ∀ uid c, SetUp uid c ∉ es.
Proof. intros Hn uid c Hin. by eapply Hn. Qed.

Lemma ok_get_user k next :
  ok k (λ _, True) (next (Err ErrStore)) → ok k (λ _, True) (next (Ok None)) →
  (∀ u, U_ID u = k → ok k (knows k u) (next (Ok (Some u)))) → ok k (λ _, True) (get_user k next).
Proof.
  intros He Hn Hs. apply (ok_look _ _ (λ r w, match r with Ok (Some u) => knows k u w ∧ U_ID u = k | Ok None => True | Err e => e = ErrStore end));
    [done| |done| |done|].
  - intros [[u|]|e]; [|by intros w w'..]. intros w w' Hw Hk [Hu Hid]. split; [by eapply stable_knows|done].
  - intros w Hd _. simpl. destruct (GetUserByID k (accounts w)) as [u|] eqn:Hu; [|done].
    split; [|by apply get_user_some in Hu as [_ ?]]. exists u. by split.
  - intros [[u|]|e]; [| |intros c w es Hd He'; subst e; by apply He].
    + intros c w es Hd [Hu Hid]. by apply (Hs u Hid).
    + done.
Qed.

(** A new session of the user, with what it needed. *)
Lemma ok_complete_login k u how raw : U_ID u = k → ok k (ready k u how) (CompleteLogin u how raw).
Proof.
  intros Hid. destruct raw as [raw|]; simpl; [|done]. apply ok_now; [done|]. intros t.
  apply (ok_store _ _ (λ _ _, True)); [done| |done|by intros []]. intros w fs Hd [(u1 & Hu1 & E) He]. split; [|done].
  unfold after_store, issued. simpl. rewrite drop_app_length. simpl.
  set (s := MkSession _ _ _ _ _). set (w' := MkWorld _ _ _ _ _).
  assert (Hal : allocated (accounts w) k) by (apply get_user_some in Hu1 as [Hin <-]; by apply (du_wf _ _ Hd)).
  assert (Hev : Forall (event_ok (trace w')) [Issued (S_ID s) (U_ID u) (cred u) how]).
  { apply Forall_singleton. rewrite Hid. eapply (event_ok_mono (trace w)); [by apply prefix_app_r|]. by destruct how. }
  assert (Hns : ∀ id c, SetUp id c ∉ [Issued (S_ID s) (U_ID u) (cred u) how]) by by intros ? ? ?%list_elem_of_singleton.
  split.
  - intros k' Hk'. apply (keep_new_session k' w w' (clock w) (U_ID u) (HashToken raw) (t + SessionDuration) _ eq_refl eq_refl eq_refl);
      [done|done|by rewrite Hid|]. intros ? _ _ Heq. congruence.
  - destruct Hd as [Hw Hs Hc]. split.
    + apply (wf_step w w' _ eq_refl); [|simpl; lia|auto|done|by intros ? ? ?%Hns|done].
      apply (wf_create_session (clock w) (U_ID u) (HashToken raw) (t + SessionDuration)); [by rewrite Hid|apply Hw].
    + intros u2 s2 Hu2 Hl Hin Huid. assert (u2 = u1) as -> by (unfold user_of in *; simpl in Hu2; unfold GetUserByID in *; simpl in Hu2; congruence).
      simpl in Hin. apply elem_of_app in Hin as [Hin| ->%list_elem_of_singleton].
      * eapply justified_mono; [|by apply Hs]. by apply prefix_app_r.
      * left. exists how. simpl. rewrite elem_of_app, list_elem_of_singleton. right.
        by rewrite (same_account_cred _ _ E), Hid.
    + intros u2 tok ch Hu2 Hp Huid. destruct (Hc u2 tok ch) as [pw Hpw]; [done..|]. exists pw. simpl. rewrite elem_of_app. auto.
Qed.

(** An operation of the challenge store that forgets challenges. *)
Lemma ok_forget {A} k P (Q : A → world → Prop) (f : time → challenges → challenges * A) next :
  stable k P →
  (∀ t cs tok ch, (f t cs).1 !! tok = Some ch → cs !! tok = Some ch) →
  (∀ w, during k w → P w → P (with_pending w (f (clock w) (pending w)).1) → Q (f (clock w) (pending w)).2 (with_pending w (f (clock w) (pending w)).1)) →
  (∀ a, ok k (Q a) (next a)) → ok k P (challenge_call f [] next).
Proof.
  intros Hst Hf HQ Hok. apply ok_action; [done|]. intros w Hd HP. simpl. rewrite app_nil_r.
  set (w' := MkWorld _ _ _ _ _). assert (Hk : ∀ k', keep k' w w').
  { intros k'. apply (keep_pending k' w _ []); simpl; rewrite ?app_nil_r; [done|done|constructor|by intros ? ? ?%not_elem_of_nil|by intros ? ? ?%Hf]. }
  split; [by apply step_ok_keep|]. eexists. split; [|apply Hok]. apply HQ; [done|done|]. eapply Hst; [apply Hd|apply Hk|done].
Qed.

Lemma revoke_pending uid cs tok ch : RevokeForUser uid cs !! tok = Some ch ↔ cs !! tok = Some ch ∧ C_UserID ch ≠ uid.
Proof. unfold RevokeForUser. by rewrite map_lookup_filter_Some. Qed.

Lemma ok_revoke_challenges k P Q next :
  stable k P → (∀ w, P w → quiet k w → Q w) → ok k Q next → ok k P (revoke_challenges k next).
Proof.
  intros Hst HQ Hok. apply (ok_forget _ _ (λ _ w, P w ∧ quiet k w)); [done| | |].
  - intros t cs tok ch. simpl. by rewrite revoke_pending; intros [? _].
  - intros w Hd _ HP. split; [done|]. intros tok ch. simpl. by rewrite revoke_pending; intros [_ ?].
  - intros _. eapply ok_weaken; [|exact Hok]. intros w _ [? ?]. by apply HQ.
Qed.

(** The challenge of a password that was just checked. *)
Lemma ok_challenge k u token password next :
  U_ID u = k → CheckPassword password (U_PasswordHash u) = true → active_totp u ≠ None → ok k (λ _, True) (next ()) →
  ok k (knows k u) (challenge_call (λ now cs, (Create now token (U_ID u) cs, ())) [Challenged token (U_ID u) (cred u) password] next).
Proof.
  intros Hid Hpw Htotp Hok. apply ok_action; [done|]. intros w Hd (u1 & Hu1 & E). simpl. set (w' := MkWorld _ _ _ _ _).
  split; [|by exists (λ _, True)]. assert (Hal : allocated (accounts w) k) by (apply get_user_some in Hu1 as [Hin <-]; by apply (du_wf _ _ Hd)).
  assert (Hns : ∀ id c, SetUp id c ∉ [Challenged token (U_ID u) (cred u) password]) by by intros ? ? ?%list_elem_of_singleton.
  assert (Hev : Forall (event_ok (trace w')) [Challenged token (U_ID u) (cred u) password]) by by apply Forall_singleton.
  assert (Hwf : wf w → wf w').
  { apply (wf_step w w' _ eq_refl); [apply Hd|done| |done|by intros ? ? ?%Hns]. intros tok ch. simpl. unfold Create.
    intros [[<- <-]|[_ ?]]%lookup_insert_Some; [right; simpl; by rewrite Hid|by left]. }
  split.
  - intros k' Hk'. apply (keep_intro k' w w' _ eq_refl Hwf); [done|eauto using same_account_refl|done|eauto|].
    intros tok ch. simpl. unfold Create. intros [[<- <-]|[_ ?]]%lookup_insert_Some; [|done]. simpl. congruence.
  - destruct Hd as [Hw Hs Hc]. split; [by apply Hwf| |].
    + intros u2 s2 Hu2 Hl Hin Huid. eapply justified_mono; [|by apply Hs]. by apply prefix_app_r.
    + intros u2 tok ch Hu2 Hp Huid. assert (u2 = u1) as -> by (unfold user_of in *; simpl in Hu2; congruence).
      simpl in Hp. unfold Create in Hp. apply lookup_insert_Some in Hp as [[<- _]|[_ Hp]].
      * exists password. simpl. rewrite elem_of_app, list_elem_of_singleton, (same_account_cred _ _ E), Hid. auto.
      * destruct (Hc u1 tok ch) as [pw Hin]; [done..|]. exists pw. simpl. rewrite elem_of_app. auto.
Qed.

(** Operations of the account store that only remove sessions. *)
Lemma ok_remove_sessions k P (Q : world → Prop) (f : MemoryAuthStore → MemoryAuthStore) next :
  stable k P →
  (∀ s, users (f s) = users s ∧ nextID (f s) = nextID s ∧ sessions (f s) `sublist_of` sessions s) →
  (∀ w w', during k w → P w' → accounts w' = f (accounts w) → trace w' = trace w → P w → Q w') →
  ok k (λ _, True) (next (Err ErrStore)) → ok k Q (next (Ok ())) → ok k P (store_call (λ _ s, (f s, Ok ())) silent next).
Proof.
  intros Hst Hf HQ Herr Hok. apply (ok_store _ _ (λ r w, r = Ok () ∧ Q w)); [done| |done|].
  - intros w fs Hd HP. unfold after_store. simpl. rewrite app_nil_r. set (w' := MkWorld _ _ _ _ _).
    destruct (Hf (accounts w)) as (Hu & Hn & Hs). assert (Hk : ∀ k', keep k' w w') by (intros k'; by apply keep_sessions).
    split; [by apply step_ok_keep|]. split; [done|]. eapply (HQ w w'); [done| |done|done|done]. eapply Hst; [apply Hd|apply Hk|done].
  - intros r c w es Hd [-> HQw]. by apply Hok.
Qed.

Lemma ok_delete_sessions k P (Q : world → Prop) next :
  stable k P → (∀ w, P w → (∀ s, ¬ live k w s) → Q w) →
  ok k (λ _, True) (next (Err ErrStore)) → ok k Q (next (Ok ())) → ok k P (delete_sessions k next).
Proof.
  intros Hst HQ Herr Hok. apply (ok_remove_sessions _ _ Q (DeleteSessionsByUserID k)); [done| | |done|done].
  - intros s. split_and!; [done|done|]. simpl. apply sublist_filter.
  - intros w w' _ HP Ha _ _. apply HQ; [done|]. intros s (Hin & Hid & _). rewrite Ha in Hin. simpl in Hin.
    apply list_elem_of_filter in Hin as [? _]. done.
Qed.

(** The loop deletes every session that does not have the token of the request. *)
Definition looping (k token : string) (u : User) (ss : list Session) (w : world) : Prop :=
  knows k u w ∧ quiet k w ∧ (is_local u = true → ∀ s, live k w s → S_TokenHash s = HashToken token ∨ s ∈ ss).

Lemma stable_looping k token u ss : stable k (looping k token u ss).
Proof.
  intros w w' Hw Hk (Hu & Hq & Ho). destruct (stable_quiet _ _ _ _ Hw Hk (conj Hu Hq)) as [Hu' Hq']. split_and!; [done|done|].
  destruct Hk as [_ Hk], Hu as (u1 & Hu1 & E). intros Hl s Hs. apply Ho; [done|].
  eapply (kf_sessions _ _ _ (Hk Hw)); [done|by rewrite (same_account_local _ _ E)|done].
Qed.

Lemma ok_revoke_loop k token u ss retained next :
  token ≠ "" → ok k (λ _, True) (next (Err ErrStore)) → (∀ b, ok k (revoked k token u) (next (Ok b))) →
  ok k (looping k token u ss) (revoke_loop (HashToken token) ss retained next).
Proof.
  intros Htok Herr Hok. revert retained. induction ss as [|s ss IH]; intros retained; simpl.
  - eapply ok_weaken; [|apply Hok]. intros w _ (Hu & Hq & Ho). split_and!; [done|done|]. intros Hl s Hs.
    destruct (Ho Hl s Hs) as [?|?%not_elem_of_nil]; done.
  - case_decide as Hh.
    + eapply ok_weaken; [|apply IH]. intros w _ (Hu & Hq & Ho). split_and!; [done|done|]. intros Hl x Hx.
      destruct (Ho Hl x Hx) as [?|[->|?]%elem_of_cons]; auto.
    + apply (ok_remove_sessions _ _ (looping k token u ss) (DeleteSession (S_ID s))); [apply stable_looping| | |done|apply IH].
      * intros a. split_and!; [done|done|apply delete_session_sublist].
      * intros w w' Hd (Hu & Hq & Ho) Ha Ht _. split_and!; [done|done|]. intros Hl x Hx.
        destruct (Ho Hl x Hx) as [?|[->|?]%elem_of_cons]; [auto| |auto]. exfalso. destruct Hx as (Hin & _). rewrite Ha in Hin.
        unfold DeleteSession in Hin. simpl in Hin. destruct (delete_first _ _) as [l|] eqn:Hdel; simpl in Hin.
        -- pose proof (delete_first_key S_ID _ _ _ (ws_sessions _ (wf_accounts _ (du_wf _ _ Hd))) Hdel) as Hkey.
           by apply Hkey in Hin as [_ ?].
        -- pose proof (delete_first_none _ _ Hdel s Hin) as Hf. simpl in Hf. by rewrite bool_decide_true in Hf.
Qed.

Lemma ok_revoke_other k token u next :
  ok k (λ _, True) (next (Err ErrStore)) → (∀ b, ok k (revoked k token u) (next (Ok b))) →
  ok k (λ w, knows k u w ∧ quiet k w) (revokeOtherUserSessions k token next).
Proof.
  intros Herr Hok. unfold revokeOtherUserSessions. case_bool_decide as Htok.
  - apply (ok_delete_sessions _ _ (revoked k token u)); [done| |done|done]. intros w [Hu Hq] Hn. split_and!; [done|done|].
    intros _ s Hs. by apply Hn in Hs.
  - apply (ok_look _ _ (λ r w, match r with Ok ss => looping k token u ss w | Err e => e = ErrStore end)); [done| |done| |done|].
    + intros [ss|e]; [apply stable_looping|by intros w w'..].
    + intros w Hd [Hu Hq]. simpl. split_and!; [done|done|]. intros _ s (Hin & Hid & _). right.
      unfold ListSessionsByUserID. by rewrite list_elem_of_filter.
    + intros [ss|e]; [by apply ok_revoke_loop|]. intros c w es Hd ->. by apply Herr.
Qed.

(** ** Changes of the account *)

(** An update that keeps who the user is. *)
Class SameIdentity (f : User → User) : Prop := {
  si_key :: SameKey f;
  si_identity u : U_AuthProvider (f u) = U_AuthProvider u ∧ U_OIDCIssuer (f u) = U_OIDCIssuer u ∧ U_OIDCSubject (f u) = U_OIDCSubject u }.

#[export] Instance set_credentials_identity now h s v c : SameIdentity (λ u, set_credentials now (h u) (s u) (v u) (c u) u).
Proof. split; [apply _|done]. Qed.
#[export] Instance set_role_identity now role : SameIdentity (set_role now role).
Proof. split; [apply _|done]. Qed.

(** The update is fine for the others; it remains to justify what the user then has. *)
Lemma update_step k w f `{!SameIdentity f} fs es :
  let w' := MkWorld (update_user k f (accounts w)).1 (pending w) (clock w) fs (trace w ++ es) in
  during k w →
  (∀ u, user_of k w = Some u → U_TOTPVerifiedAt (f u) ≠ None → U_TOTPSecret (f u) ≠ "") →
  Forall (event_ok (trace w')) es → (∀ id c, SetUp id c ∉ es) →
  (∀ u s, user_of k w = Some u → is_local u = true → s ∈ sessions (accounts w) → S_UserID s = k → justified (trace w') s k (cred (f u))) →
  (∀ u tok ch, user_of k w = Some u → pending w !! tok = Some ch → C_UserID ch = k → ∃ pw, Challenged tok k (cred (f u)) pw ∈ trace w') →
  step_ok k w w'.
Proof.
  intros w' Hd Hver Hev Hns Hj Hp. destruct (update_user_spec k f (accounts w)) as (Hs & Hn & _ & _ & _ & Hg).
  assert (Hst : wf w → wf_store (accounts w')).
  { intros Hw. apply wf_update_user; [apply _|apply si_identity| |apply Hw]. intros u Hin Hid. apply Hver. rewrite <-Hid. apply get_user_elem; [apply Hw|done]. }
  assert (Hu : user_of k w' = f <$> user_of k w) by (unfold user_of; simpl; rewrite Hg; by rewrite decide_True).
  split.
  - intros k' Hk'. eapply (keep_update k' w w' k f es); [done|done|done|done|done|done|]. intros u _ ?. by destruct Hk'.
  - split.
    + apply (wf_step w w' es); [done|apply Hst, Hd|simpl; by rewrite Hn|auto|done|by intros ? ? ?%Hns|apply Hd].
    + intros u s Huk Hl Hin Hid. rewrite Hu in Huk. apply fmap_Some in Huk as (u0 & Hu0 & ->). simpl in Hin. rewrite Hs in Hin.
      apply Hj; [done| |done|done]. unfold is_local in *. by destruct (si_identity u0) as (<- & _).
    + intros u tok ch Huk Hpd Hid. rewrite Hu in Huk. apply fmap_Some in Huk as (u0 & Hu0 & ->). by eapply Hp.
Qed.

(** An update that changes no credential. *)
Lemma ok_update k P (f : time → User → User) `{!∀ now, SameIdentity (f now)} next :
  stable k P →
  (∀ w u now, during k w → P w → user_of k w = Some u →
     cred (f now u) = cred u ∧ (U_TOTPVerifiedAt (f now u) ≠ None → U_TOTPSecret (f now u) ≠ "")) →
  ok k (λ _, True) (next (Err ErrStore)) → (∀ r, ok k (λ _, True) (next r)) →
  ok k P (store_call (λ now, update_user k (f now)) silent next).
Proof.
  intros Hst Hc Herr Hok. apply (ok_store _ _ (λ _ _, True)); [done| |done|done]. intros w fs Hd HP. split; [|done].
  apply (update_step k w (f (clock w))); [done| |constructor|by intros ? ? ?%not_elem_of_nil| |].
  - intros u Hu. by eapply Hc.
  - intros u s Hu Hl Hin Hid. destruct (Hc w u (clock w) Hd HP Hu) as [-> _]. eapply justified_mono; [by apply prefix_app_r|]. by apply Hd.
  - intros u tok ch Hu Hp Hid. destruct (Hc w u (clock w) Hd HP Hu) as [-> _].
    destruct (du_pending _ _ Hd u tok ch) as [pw Hpw]; [done..|]. exists pw. simpl. rewrite elem_of_app. auto.
Qed.

(** A change of the credential, after everything under the old one was revoked. *)
Lemma ok_change k token u (f : time → User → User) `{!∀ now, SameIdentity (f now)} next :
  (∀ w u' now, wf w → user_of k w = Some u' → same_account u u' → U_TOTPVerifiedAt (f now u') ≠ None → U_TOTPSecret (f now u') ≠ "") →
  ok k (λ _, True) (next (Err ErrStore)) → (∀ r, ok k (λ _, True) (next r)) →
  ok k (revoked k token u) (store_call (λ now, update_user k (f now)) (kept k token) next).
Proof.
  intros Hver Herr Hok. apply (ok_store _ _ (λ _ _, True)); [done| |done|done]. intros w fs Hd ((u1 & Hu1 & E) & Hq & Ho).
  split; [|done]. destruct (update_user_spec k (f (clock w)) (accounts w)) as (Hs & _ & _ & _ & _ & Hg).
  assert (Hk : kept k token (accounts w) (update_user k (f (clock w)) (accounts w)).1 =
    (λ s, Kept (S_ID s) k (cred (f (clock w) u1)) token) <$> ListSessionsByUserID k (accounts w)).
  { unfold kept. rewrite Hg, decide_True by done. unfold user_of in Hu1. rewrite Hu1. simpl. unfold ListSessionsByUserID. by rewrite Hs. }
  assert (Hu : ∀ u', user_of k w = Some u' → u' = u1) by congruence.
  unfold after_store. rewrite Hk. apply (update_step k w (f (clock w))); [done| | | | |].
  - intros u' Hu'. rewrite (Hu _ Hu') in *. by eapply Hver; [apply Hd|..].
  - apply Forall_fmap, Forall_true. done.
  - by intros id c (s & [=] & _)%list_elem_of_fmap.
  - intros u' s Hu' Hl Hin Hid. rewrite (Hu _ Hu') in *.
    destruct (at_setup_dec (trace w) (S_ID s) k) as [Ha|Ha]; [right; right; eapply at_setup_mono; [|done]; by apply prefix_app_r|].
    right; left. exists token. destruct (Ho) with s as [_ Hh]; [by rewrite <-(same_account_local _ _ E)|by split_and!|].
    split; [|done]. simpl. rewrite elem_of_app, list_elem_of_fmap. right. exists s. split; [done|].
    unfold ListSessionsByUserID. by rewrite list_elem_of_filter.
  - intros u' tok ch Hu' Hp Hid. by destruct (Hq tok ch).
Qed.

Lemma ok_delete_user k next :
  ok k (λ _, True) (next (Err ErrStore)) → (∀ r, ok k (λ _, True) (next r)) →
  ok k (λ _, True) (store_call (λ _, DeleteUser k) silent next).
Proof.
  intros Herr Hok. apply (ok_store _ _ (λ _ _, True)); [done| |done|done]. intros w fs Hd _. split; [|done].
  unfold after_store, DeleteUser. destruct (delete_first _ (users (accounts w))) as [us|] eqn:Hdel; simpl.
  2: { apply step_ok_keep; [done|]. intros k'. by apply (keep_pending k' w _ []); simpl; [..|constructor|intros ? ? ?%not_elem_of_nil|]. }
  rewrite app_nil_r. set (w' := MkWorld _ _ _ _ _). pose proof (du_wf _ _ Hd) as Hw.
  pose proof (delete_first_key U_ID k _ _ (ws_ids _ (wf_accounts _ Hw)) Hdel) as Hkey.
  assert (Hws : wf_store (accounts w')) by (apply (wf_fewer us (sessions (accounts w)) (accounts w)); [by eapply delete_first_sublist|done|apply Hw]).
  assert (Hwf : wf w').
  { by apply (wf_step w w' []); [rewrite app_nil_r| | |auto|constructor|intros ? ? ?%not_elem_of_nil|]. }
  assert (Hget : ∀ k', k' ≠ k → user_of k' w' = user_of k' w).
  { intros k' Hk'. unfold user_of. destruct (GetUserByID k' (accounts w)) as [u|] eqn:Hu.
    - apply get_user_some in Hu as [Hin Hid]. rewrite <-Hid. apply get_user_elem; [apply Hws|]. apply Hkey. split; [done|congruence].
    - apply get_user_none. intros (u & -> & Hin)%list_elem_of_fmap. apply Hkey in Hin as [Hin _].
      rewrite (get_user_elem u) in Hu; [done|apply Hw|done]. }
  split.
  - intros k' Hk'. apply (keep_intro k' w w' []); [by rewrite app_nil_r|done|done| | |auto|auto].
    + intros _ u. rewrite Hget by done. eauto using same_account_refl.
    + by rewrite Hget.
  - assert (Hnone : user_of k w' = None).
    { apply get_user_none. intros (u & Hid & Hin)%list_elem_of_fmap. apply Hkey in Hin as [_ Hne]. by destruct Hne. }
    split; [done| |]; intros; congruence.
Qed.

(** [TryRecoveryCode]: when it says yes, a code of the list was matched and spent. *)
Lemma ok_try_recovery k u code (R : world → Prop) P next :
  stable k P → (∀ w h, P w → Spent (U_ID u) code h ∈ trace w → R w) →
  ok k R (next true) → ok k (λ _, True) (next false) → ok k P (TryRecoveryCode u code next).
Proof.
  intros Hst HR Htrue Hfalse. unfold TryRecoveryCode.
  apply (ok_store _ _ (λ r w, match r with Ok true => R w | _ => True end)); [done| |done|].
  2: { intros [[]|e]; [done|done|done]. }
  intros w fs Hd HP. unfold after_store. set (uid := trim_space (U_ID u)). set (w' := MkWorld _ _ _ _ _).
  assert (Hev : Forall (event_ok (trace w')) (spent (U_ID u) code (accounts w) (accounts w'))).
  { unfold spent. destruct (GetUserByID _ _); [|constructor]. destruct (find _ _) eqn:Hf; [|constructor].
    apply find_Some_elem in Hf as [_ Hf]. by apply Forall_singleton. }
  assert (Hns : ∀ id c, SetUp id c ∉ spent (U_ID u) code (accounts w) (accounts w')).
  { intros id c. unfold spent. repeat case_match; rewrite ?list_elem_of_singleton; [done|by intros ?%not_elem_of_nil..]. }
  assert (Hk : ∀ k', keep k' w w').
  { intros k'. destruct (consume_cases (clock w) (U_ID u) code (accounts w)) as [Ha|(hs & Ha)].
    - by eapply (keep_pending k' w w').
    - eapply (keep_update k' w w' uid (λ v, set_credentials (clock w) (U_PasswordHash v) (U_TOTPSecret v) (U_TOTPVerifiedAt v) (Some hs) v) _);
        [exact Ha|done|done|done|done| |done].
      intros Hw. simpl. rewrite Ha. apply wf_update_user; [apply _|done| |apply Hw].
      intros v Hv _. simpl. by apply (ws_verified _ (wf_accounts _ Hw)). }
  split; [by apply step_ok_keep|]. destruct (ConsumeRecoveryCode (clock w) (U_ID u) code (accounts w)).2 as [[]|] eqn:Hr; [|done|done].
  apply consume_true in Hr as (v & hashes & h & Hv & Hcodes & Hh). eapply (HR _ h); [by eapply Hst; [apply Hd|apply Hk|]|].
  simpl. rewrite elem_of_app. right. unfold spent. rewrite Hv, Hcodes. simpl. by rewrite Hh, list_elem_of_singleton.
Qed.

(** ** The handlers *)

#[local] Hint Extern 1 (ok _ _ (Return _)) => apply ok_return : core.

Lemma ok_audit k action target next : ok k (λ _, True) next → ok k (λ _, True) (auditIdentityChange action target next).
Proof. intros Hok. by apply ok_log. Qed.

Lemma ok_streams k actor next : ok k (λ _, True) next → ok k (λ _, True) (revokeStreams actor next).
Proof. intros Hok. by apply ok_log. Qed.

#[local] Hint Resolve ok_audit ok_streams : core.

Lemma ok_true k P p : ok k (λ _, True) p → ok k P p.
Proof. by apply ok_weaken. Qed.

Lemma active_totp_none u : active_totp u = None ↔ negb (is_empty (U_TOTPSecret u)) && bool_decide (is_Some (U_TOTPVerifiedAt u)) = false.
Proof.
  unfold active_totp. destruct (bool_decide (U_TOTPSecret u = "")); simpl; [done|]. by destruct (U_TOTPVerifiedAt u).
Qed.

Lemma login_ok k password token raw : ok k (λ _, True) (HandleAuthLogin k password token raw).
Proof.
  apply ok_get_user; [done|done|]. intros u Hid. destruct (negb (is_local u) || negb (CheckPassword _ _)) eqn:Hchk; [done|]. bool_prop.
  destruct (negb (is_empty (U_TOTPSecret u)) && _) eqn:Htotp.
  - apply ok_challenge; [done|done| |done]. intros Hn. apply active_totp_none in Hn. by rewrite Hn in Htotp.
  - apply active_totp_none in Htotp. eapply ok_weaken; [|by apply ok_complete_login]. intros w _ Hu. by split.
Qed.

(** The challenge that was consumed stood for the credential that is still that of the user. *)
(** With the user at hand, a code that fits, or a recovery code that was spent, makes a session. *)
Lemma login2fa_user k token code raw challenged u :
  stable k challenged → (∀ w u, challenged w → user_of k w = Some u → ∃ password, Challenged token k (cred u) password ∈ trace w) →
  ok k (λ w, U_ID u = k ∧ knows k u w ∧ challenged w)
    match DecryptTOTPSecret (U_TOTPSecret u) with
    | None => Return (reply StatusInternalServerError)
    | Some secret =>
        let* t := now in
        if ValidateTOTPCode t secret code then CompleteLogin u (ByCode token code t) raw
        else
          let* ok := TryRecoveryCode u code in
          if ok : bool then CompleteLogin u (ByRecoveryCode token code) raw
          else Return (reply StatusUnauthorized)
    end.
Proof.
  intros Hst Hch. assert (Hstk : stable k (λ w, U_ID u = k ∧ knows k u w ∧ challenged w)).
  { intros w w' Hw Hk (Hid & Hu & Hc). split_and!; [done|by eapply stable_knows|by eapply Hst]. }
  assert (Hchal : ∀ w, knows k u w → challenged w → ∃ password, Challenged token k (cred u) password ∈ trace w).
  { intros w (u1 & Hu1 & E) Hc. rewrite <-(same_account_cred _ _ E). by eapply Hch. }
  destruct (DecryptTOTPSecret _) as [secret|] eqn:Hdec; [|done]. apply ok_now; [done|]. intros t.
  destruct (decide (U_ID u = k)) as [Hid|Hn]; [|intros c w es Hd (Hid & _); by destruct Hn].
  destruct (ValidateTOTPCode t secret code) eqn:Hcode.
  - eapply ok_weaken; [|by apply ok_complete_login]. intros w Hd (_ & Hu & Hc). split; [done|]. simpl.
    destruct (Hchal _ Hu Hc) as [pw Hpw]. split; [by exists pw|]. exists (U_TOTPSecret u), secret. split_and!; [|done|done].
    pose proof (wf_trace _ (du_wf _ _ Hd) _ Hpw) as [_ Htotp]. simpl in Htotp. unfold active_totp in *. case_bool_decide; [done|].
    by destruct (U_TOTPVerifiedAt u).
  - apply (ok_try_recovery _ _ _ (ready k u (ByRecoveryCode token code))); [done| |by apply ok_complete_login|done].
    intros w h (_ & Hu & Hc) Hsp. split; [done|]. simpl. split; [by apply Hchal|]. exists h. by rewrite <-Hid.
Qed.

Lemma login2fa_ok k token code raw : ok k (λ _, True) (HandleLogin2FA k token code raw).
Proof.
  set (challenged := λ w, allocated (accounts w) k ∧ ∀ u, user_of k w = Some u → ∃ password, Challenged token k (cred u) password ∈ trace w).
  assert (Hch : stable k challenged).
  { intros w w' Hw [[tl Htl] Hk] [Ha Hc]. destruct (kf_gone _ _ _ (Hk Hw) Ha) as [Ha' Hn]. split; [done|]. intros u Hu.
    destruct (user_of k w) as [u0|] eqn:Hu0; [|by rewrite (Hn eq_refl) in Hu].
    destruct (kf_user _ _ _ (Hk Hw) _ Hu0) as (u1 & Hu1 & E). assert (u1 = u) as -> by congruence.
    destruct (Hc _ eq_refl) as [pw Hpw]. exists pw. rewrite (same_account_cred _ _ E), Htl, elem_of_app. auto. }
  unfold HandleLogin2FA. apply (ok_forget _ _ (λ consumed w, consumed = Some k → challenged w)); [done| | |].
  - intros t cs tok ch. unfold Consume. repeat case_match; simpl; rewrite ?lookup_delete_Some; naive_solver.
  - intros w Hd _ _ Hcons. unfold Consume in Hcons. destruct (pending w !! token) as [ch|] eqn:Hp; [|done].
    case_match; [done|]. injection Hcons as Hcons. split; [rewrite <-Hcons; by eapply (wf_pending _ (du_wf _ _ Hd))|].
    intros u Hu. simpl. by eapply (du_pending _ _ Hd).
  - intros consumed. case_decide as Hne; [done|]. destruct (decide (consumed = Some k)) as [->|]; [clear Hne|done].
    apply (ok_weaken _ _ challenged); [auto|].
    apply (ok_look _ _ (λ r w, match r with Ok (Some u) => U_ID u = k ∧ knows k u w ∧ challenged w | _ => True end)); [done| |done| |done|].
    + intros [[u|]|e]; [|by intros w w'..]. intros w w' Hw Hk (Hid & Hu & Hc). split_and!; [done|by eapply stable_knows|by eapply Hch].
    + intros w Hd Hc. simpl. destruct (GetUserByID k (accounts w)) as [u|] eqn:Hu; [|done].
      split_and!; [by apply get_user_some in Hu as [_ ?]|by exists u|done].
    + intros [[u|]|e]; [|done|done]. apply (login2fa_user _ _ _ _ challenged); [done|]. intros w v [_ Hc]. apply Hc.
Qed.

(** Everything under the old credential is revoked, and then it is changed. *)
Lemma revoke_and_change k token u (f : time → User → User) `{!∀ now, SameIdentity (f now)} (done_ : bool → handler) :
  (∀ w u' now, wf w → user_of k w = Some u' → same_account u u' → U_TOTPVerifiedAt (f now u') ≠ None → U_TOTPSecret (f now u') ≠ "") →
  (∀ b, ok k (λ _, True) (done_ b)) →
  ok k (knows k u)
    (revoke_challenges k (
      let* retained := revokeOtherUserSessions k token in
      match retained with
      | Err _ => Return (reply StatusInternalServerError)
      | Ok retained =>
          let* r := store_call (λ now, update_user k (f now)) (kept k token) in
          match r with
          | Err _ => Return (reply StatusInternalServerError)
          | Ok _ => done_ retained
          end
      end)).
Proof.
  intros Hver Hdone. eapply ok_revoke_challenges; [done|intros w Hu Hq; exact (conj Hu Hq)|].
  apply (ok_revoke_other _ _ u); [done|]. intros b. eapply (ok_change k token u f); [done|done|]. intros [[]|]; [apply Hdone|done].
Qed.

Lemma change_password_ok k cur new salt token : ok k (λ _, True) (HandleChangePassword k cur new salt token).
Proof.
  apply ok_get_user; [done|done|]. intros u Hid. repeat (case_match; [done|]). case_match; [|done].
  apply revoke_and_change; [apply _| |intros b; auto]. intros w u' now Hw Hu _. simpl.
  apply get_user_some in Hu as [Hu _]. by apply (ws_verified _ (wf_accounts _ Hw)).
Qed.

Lemma setup_ok k encrypted : ok k (λ _, True) (Handle2FASetup k encrypted).
Proof.
  apply ok_get_user; [done|done|]. intros u Hid. case_match eqn:Hon; [done|]. apply active_totp_none in Hon.
  destruct encrypted as [secret|]; [|done]. eapply ok_update; [apply _|done| |done|auto].
  intros w u' now Hd (u1 & Hu1 & E) Hu'. assert (u1 = u') as -> by congruence.
  assert (Hv : U_TOTPVerifiedAt u' = None).
  { destruct (U_TOTPVerifiedAt u') as [t|] eqn:Hv; [|done]. apply get_user_some in Hu' as [Hin _].
    assert (U_TOTPSecret u' ≠ "") as Hs by (apply (ws_verified _ (wf_accounts _ (du_wf _ _ Hd))); [done|by rewrite Hv]).
    destruct E as (_ & _ & E1 & E2). unfold active_totp in Hon. rewrite <-E1, <-E2, Hv, bool_decide_false in Hon by done. done. }
  split; [|simpl; by rewrite Hv]. unfold cred, active_totp. simpl. rewrite Hv. by repeat case_bool_decide.
Qed.

Lemma verify_ok k code codes token : ok k (λ _, True) (Handle2FAVerify k code codes token).
Proof.
  apply ok_get_user; [done|done|]. intros u Hid. case_bool_decide as Hsec; [done|]. case_match; [done|]. case_match; [|done].
  apply ok_now; [done|]. intros t. case_match; [done|]. destruct codes as [codes|]; [|done].
  apply revoke_and_change; [apply _| |intros b; auto]. intros w u' now Hw Hu (_ & _ & Hs & _) _. simpl. by rewrite Hs.
Qed.

Lemma second_factor_ok k code next :
  (∀ u, ok k (knows k u) (next u)) → ok k (λ _, True) (second_factor k code next).
Proof.
  intros Hnext. apply ok_get_user; [done|done|]. intros u Hid. case_match; [done|]. case_match; [|done].
  apply ok_now; [done|]. intros t. case_match; [apply Hnext|]. by apply (ok_try_recovery _ _ _ (knows k u)).
Qed.

Lemma disable_ok k code token : ok k (λ _, True) (Handle2FADisable k code token).
Proof. apply second_factor_ok. intros u. apply revoke_and_change; [apply _|done|intros b; auto]. Qed.

Lemma recovery_codes_ok k code codes token : ok k (λ _, True) (Handle2FARecoveryCodes k code codes token).
Proof.
  apply second_factor_ok. intros u. destruct codes as [codes|]; [|done].
  eapply ok_revoke_challenges; [done|intros w Hu Hq; exact (conj Hu Hq)|]. apply (ok_revoke_other _ _ u); [done|]. intros b.
  eapply ok_update; [apply _|done| |done|intros [[]|]; auto]. intros w u' now Hd _ Hu. split; [done|]. simpl.
  apply get_user_some in Hu as [Hu _]. by apply (ws_verified _ (wf_accounts _ (du_wf _ _ Hd))).
Qed.

(** A change of the role leaves the credential as it is. *)
Lemma patch_role_ok k c u role next :
  U_ID u = k → (∀ r, ok k (knows k u) (next r)) → ok k (knows k u) (patch_role c u role next).
Proof.
  intros Hid Hnext. destruct role as [role|]; [|apply Hnext]. unfold patch_role. set (new := to_lower (trim_space role)).
  do 4 (case_match; [apply ok_return|]). rewrite Hid.
  apply (ok_store _ _ (λ r w, knows k u w ∨ is_ok r = false)); [done| |done|].
  - intros w fs Hd Hu. assert (Hs : step_ok k w (after_store (λ now, UpdateUserRole now k new) silent w fs)).
    { apply (update_step k w (set_role (clock w) new) fs []); [done| |constructor|by intros ? ? ?%not_elem_of_nil| |].
      - intros v Hv. simpl. apply get_user_some in Hv as [Hv _]. by apply (ws_verified _ (wf_accounts _ (du_wf _ _ Hd))).
      - intros v s Hv Hl Hin Hsid. eapply justified_mono; [by apply prefix_app_r|]. exact (du_sessions _ _ Hd v s Hv Hl Hin Hsid).
      - intros v tok ch Hv Hp Hcid. destruct (du_pending _ _ Hd v tok ch) as [pw Hpw]; [done..|]. exists pw. simpl. rewrite elem_of_app. auto. }
    split; [done|]. left. destruct Hu as (u1 & Hu1 & E).
    destruct (update_user_spec k (set_role (clock w) new) (accounts w)) as (_ & _ & _ & _ & _ & Hg).
    exists (set_role (clock w) new u1). split; [|done]. unfold user_of, after_store. simpl. unfold UpdateUserRole.
    rewrite Hg, decide_True by done. unfold user_of in Hu1. by rewrite Hu1.
  - intros [[]|e]; [|done]. apply (ok_weaken _ _ (knows k u)); [by intros w _ [?|?]|]. apply ok_log; [done..|].
    unfold revokeUserStreamsIfDemoted. case_match; [|apply Hnext]. by apply ok_log.
Qed.

Lemma patch_password_ok k c u role password salt : U_ID u = k → ok k (knows k u) (patch_password c u role password salt).
Proof.
  intros Hid. destruct password as [password|]; simpl; [|done]. repeat (case_match; [done|]). case_match; [|done]. rewrite Hid.
  eapply ok_revoke_challenges; [done|intros w Hu Hq; exact (conj Hu Hq)|].
  apply (ok_delete_sessions _ _ (revoked k "" u)); [done| |done|].
  { intros w [Hu Hq] Hn. split_and!; [done|done|]. intros _ x Hs. by apply Hn in Hs. }
  eapply ok_change; [apply _| |done|intros [[]|]; auto]. intros w u' now Hw Hu _. simpl.
  apply get_user_some in Hu as [Hu _]. by apply (ws_verified _ (wf_accounts _ Hw)).
Qed.

Lemma update_ok c k role password salt : ok k (λ _, True) (HandleAuthUserActions c k role password salt).
Proof.
  apply ok_get_user; [done|done|]. intros u Hid. case_match; [done|]. apply patch_role_ok; [done|]. intros r. by apply patch_password_ok.
Qed.

Lemma delete_account_ok k next : ok k (λ _, True) next → ok k (λ _, True) (delete_account k next).
Proof.
  intros Hnext. apply (ok_revoke_challenges _ _ (λ _, True)); [done|done|]. apply (ok_delete_sessions _ _ (λ _, True)); [done|done| |];
    (apply ok_delete_user; [done|]; intros [[]|]; done).
Qed.

Lemma delete_own_ok k : ok k (λ _, True) (HandleDeleteOwnAccount k).
Proof. apply ok_get_user; [done|done|]. intros u Hid. case_match; [done|]. apply ok_true, delete_account_ok. auto. Qed.

Lemma delete_user_ok c k : ok k (λ _, True) (handleDeleteUser c k).
Proof. apply ok_get_user; [done|done|]. intros u Hid. repeat (case_match; [done|]). apply ok_true, delete_account_ok. auto. Qed.

Lemma revoke_sessions_ok c k : ok k (λ _, True) (handleUserSessions c k).
Proof.
  assert (Hrest : ok k (λ _, True) (revoke_challenges k (
    let* r := delete_sessions k in
    match r with
    | Err _ => Return (reply StatusInternalServerError)
    | Ok _ => auditIdentityChange "auth.user.sessions_revoked" k (revokeStreams k (Return (reply StatusOK)))
    end))).
  { apply (ok_revoke_challenges _ _ (λ _, True)); [done|done|]. apply (ok_delete_sessions _ _ (λ _, True)); auto. }
  apply ok_get_user; [done|done|]. intros u Hid. case_match; [done|]. by apply ok_true.
Qed.

Lemma begun_ok c k p w : start c = Some (k, p) → during k w → holding k c p w [].
Proof.
  intros Hs Hd. cut (ok k (λ _, True) p); [intros Hok; by apply Hok|]. destruct c; simpl in Hs; repeat case_match; simplify_eq;
    auto using login_ok, login2fa_ok, change_password_ok, setup_ok, verify_ok, disable_ok, recovery_codes_ok, delete_own_ok,
      update_ok, delete_user_ok, revoke_sessions_ok.
Qed.

Lemma reached_inv st : reachable st → state_inv keep (λ _ _, True) during during settled st.
Proof.
  intros (t & fs & Hr). eapply (locked_sound start outside keep (λ _ _, True) during during settled);
    [intros c k p s; apply begun_ok| |exact Hr].
  intros k. split.
  - split; [apply wf_new_store|intros tok ch; simpl; by rewrite lookup_empty|intros ? ? ?%not_elem_of_nil; done|intros ? ?%not_elem_of_nil; done].
  - by intros u s Hu.
  - by intros u tok ch Hu.
Qed.

(** What was presented for a session under a credential. *)
Definition presented (tr : list event) (uid : string) (c : credential) (how : evidence) : Prop :=
  match how with
  | ByPassword password => CheckPassword password (password_hash c) = true ∧ totp c = None
  | ByCode token code t =>
      (∃ password, Challenged token uid c password ∈ tr ∧ CheckPassword password (password_hash c) = true) ∧
      ∃ encrypted secret, totp c = Some encrypted ∧ DecryptTOTPSecret encrypted = Some secret ∧ ValidateTOTPCode t secret code = true
  | ByRecoveryCode token code =>
      (∃ password, Challenged token uid c password ∈ tr ∧ CheckPassword password (password_hash c) = true) ∧
      ∃ hash, Spent uid code hash ∈ tr ∧ CheckRecoveryCode code hash = true
  | AtSetup => False
  end.

(** C2: no sign-in survives the credential it was made with, whatever calls overlap and whichever store
    operations fail.  Each session of a local user was obtained with the password and the second factor that are
    that user's now; or is the session that made the last change of them; or is the first
    session of the set-up.  Each pending second-factor challenge stands for the present password. *)
Theorem sessions_justified st u :
  reachable st → u ∈ users (accounts (shared st)) → is_local u = true →
  let tr := trace (shared st) in
  (∀ s, s ∈ sessions (accounts (shared st)) → S_UserID s = U_ID u →
     (∃ how, Issued (S_ID s) (U_ID u) (cred u) how ∈ tr ∧ presented tr (U_ID u) (cred u) how) ∨
     (∃ token, Kept (S_ID s) (U_ID u) (cred u) token ∈ tr ∧ HashToken token = S_TokenHash s) ∨
     (∃ c, Issued (S_ID s) (U_ID u) c AtSetup ∈ tr)) ∧
  (∀ token ch, pending (shared st) !! token = Some ch → C_UserID ch = U_ID u →
     active_totp u ≠ None ∧ ∃ password, Challenged token (U_ID u) (cred u) password ∈ tr ∧ CheckPassword password (U_PasswordHash u) = true).
Proof.
  intros Hr Hu Hl tr. pose proof (si_during _ _ _ _ _ _ (reached_inv st Hr) (U_ID u)) as Hd.
  destruct Hd as [Hw Hs Hp]. assert (Huk : user_of (U_ID u) (shared st) = Some u) by (apply get_user_elem; [apply Hw|done]).
  assert (Hch : ∀ token password, Challenged token (U_ID u) (cred u) password ∈ tr → CheckPassword password (U_PasswordHash u) = true ∧ active_totp u ≠ None).
  { intros token pw Hin. apply (wf_trace _ Hw _ Hin). }
  split.
  - intros s Hin Hid. destruct (Hs u s Huk Hl Hin Hid) as [(how & Hi)|[?|?]]; [|auto|auto].
    pose proof (wf_trace _ Hw _ Hi) as He. destruct how as [pw|token code t|token code|].
    + left. by exists (ByPassword pw).
    + left. exists (ByCode token code t). split; [done|]. destruct He as [(pw & Hin') ?]. split; [|done]. exists pw. split; [done|]. by eapply Hch.
    + left. exists (ByRecoveryCode token code). split; [done|]. destruct He as [(pw & Hin') (h & Hh)]. split; [exists pw; split; [done|by eapply Hch]|].
      exists h. split; [done|]. apply (wf_trace _ Hw _ Hh).
    + right; right. by exists (cred u).
  - intros token ch Hpd Hid. destruct (Hp u token ch Huk Hpd Hid) as [pw Hin]. destruct (Hch _ _ Hin) as [? ?]. split; [done|]. by exists pw.
Qed.

(** C39: the account store stays well formed over any run: ids, user names and identities of single sign-on are
    unique, ids are never given twice, every session belongs to an id that was given to a user, and a
    verified second factor has a secret. *)
Theorem accounts_well_formed st :
  reachable st → wf_store (accounts (shared st)) ∧
  ∀ token ch, pending (shared st) !! token = Some ch → allocated (accounts (shared st)) (C_UserID ch).
Proof.
  intros Hr. pose proof (si_during _ _ _ _ _ _ (reached_inv st Hr) "") as Hd. split; [apply Hd|apply (wf_pending _ (du_wf _ _ Hd))].
Qed.

(** ** One change of the password on its own *)

Lemma exec_store_call {A} f note (next : result auth_error A → handler) w :
  faults w = [] →
  exec (store_call f note next) w = exec (next (f (clock w) (accounts w)).2) (after_store f note w []).
Proof.
  intros Hf. unfold store_call. simpl. unfold store_result, store_note, after_store. rewrite Hf. simpl.
  unfold store_result. rewrite Hf. by destruct (f (clock w) (accounts w)).
Qed.

Definition survives (k token : string) (s : Session) : Prop := S_UserID s ≠ k ∨ (token ≠ "" ∧ S_TokenHash s = HashToken token).

(** The world after everything else was revoked. *)
Record revoked_from (k token : string) (w w' : world) : Prop := {
  rf_users : users (accounts w') = users (accounts w);
  rf_pending : pending w' = pending w;
  rf_clock : clock w' = clock w;
  rf_faults : faults w' = [];
  rf_sessions s : s ∈ sessions (accounts w') ↔ s ∈ sessions (accounts w) ∧ survives k token s }.

Lemma exec_revoke_loop k token ss w b next :
  faults w = [] → token ≠ "" → NoDup (S_ID <$> sessions (accounts w)) → (∀ s, s ∈ ss → S_UserID s = k) →
  (∀ s, s ∈ sessions (accounts w) → S_UserID s = k → S_TokenHash s ≠ HashToken token → s ∈ ss) →
  (∀ s, s ∈ ss → ∀ x, x ∈ sessions (accounts w) → S_ID x = S_ID s → x = s) →
  ∃ b' w', exec (revoke_loop (HashToken token) ss b next) w = exec (next (Ok b')) w' ∧ revoked_from k token w w'.
Proof.
  intros Hf Htok. revert w b Hf. induction ss as [|s ss IH]; intros w b Hf Hnd Hk Hall Hid; simpl.
  - exists b, w. split; [done|]. split; [done..|]. intros x. split; [|by intros [? _]]. intros Hx. split; [done|].
    destruct (decide (S_UserID x = k)) as [Hxk|]; [|by left]. right. split; [done|].
    destruct (decide (S_TokenHash x = HashToken token)) as [|Hne]; [done|]. by destruct (not_elem_of_nil x (Hall x Hx Hxk Hne)).
  - case_decide as Hh.
    + apply IH; [done|done|set_solver| |set_solver]. intros x Hx Hxk Hne.
      pose proof (Hall x Hx Hxk Hne) as [->|?]%elem_of_cons; done.
    + rewrite exec_store_call by done. set (w1 := after_store _ _ _ _).
      assert (Hs1 : ∀ x, x ∈ sessions (accounts w1) ↔ x ∈ sessions (accounts w) ∧ S_ID x ≠ S_ID s).
      { intros x. unfold w1, after_store, DeleteSession. simpl. destruct (delete_first _ _) as [l|] eqn:Hdel; simpl.
        - by eapply delete_first_key.
        - split; [|by intros [? _]]. intros Hx. split; [done|]. pose proof (delete_first_none _ _ Hdel x Hx) as Hb. simpl in Hb. by bool_prop. }
      destruct (IH w1 b) as (b' & w' & He & Hrf); [done| |set_solver| | |].
      * eapply sublist_NoDup; [exact Hnd|]. apply fmap_sublist, delete_session_sublist.
      * intros x [Hx Hxid]%Hs1 Hxk Hne. pose proof (Hall x Hx Hxk Hne) as [->|?]%elem_of_cons; done.
      * intros x Hx y [Hy _]%Hs1. apply Hid; set_solver.
      * exists b', w'. split; [exact He|]. destruct Hrf as [Hu Hp Hc Hfa Hse]. split; [by rewrite Hu|by rewrite Hp|by rewrite Hc|done|].
        intros x. rewrite Hse, Hs1. split; [tauto|]. intros [Hx Hsur]. split_and!; [done| |done]. intros Hxs.
        assert (x = s) as -> by (apply (Hid s); set_solver). destruct Hsur as [Hn|[_ ?]]; [|done]. apply Hn, Hk. set_solver.
Qed.

Lemma exec_revoke_other k token w next :
  faults w = [] → wf w →
  ∃ b w', exec (revokeOtherUserSessions k token next) w = exec (next (Ok b)) w' ∧ revoked_from k token w w'.
Proof.
  intros Hf Hw. unfold revokeOtherUserSessions. case_bool_decide as Htok.
  - unfold delete_sessions. rewrite exec_store_call by done. exists false; eexists. split; [done|]. split; [done..|].
    intros s. simpl. rewrite list_elem_of_filter. unfold survives. naive_solver.
  - rewrite exec_store_call by done. simpl. unfold after_store. simpl. rewrite app_nil_r. set (w1 := MkWorld _ _ _ _ _).
    destruct (exec_revoke_loop k token (ListSessionsByUserID k (accounts w)) w1 false next) as (b & w' & He & Hrf); [done|done| | | | |].
    + apply (wf_accounts _ Hw).
    + intros s. unfold ListSessionsByUserID. by rewrite list_elem_of_filter; intros [? _].
    + intros s Hs Hk _. unfold ListSessionsByUserID. by rewrite list_elem_of_filter.
    + intros s. unfold ListSessionsByUserID. rewrite list_elem_of_filter. intros [_ Hs] x Hx Hid. simpl in Hx.
      apply list_elem_of_lookup_1 in Hs as [i Hi], Hx as [j Hj]. pose proof (ws_sessions _ (wf_accounts _ Hw)) as Hnd.
      assert (i = j) as ->; [|congruence]. eapply NoDup_lookup; [exact Hnd| |]; rewrite list_lookup_fmap; [by rewrite Hi|by rewrite Hj; simpl; rewrite Hid].
    + exists b, w'. split; [exact He|]. destruct Hrf. by split.
Qed.

(** A password change that no store operation disturbs does all or nothing: with the present password of a
    local account it sets the new hash, leaves no challenge of the user and no session of the user but those with the
    token of the request, and touches nobody else's; otherwise it refuses and changes nothing. *)
Theorem change_password_spec k cur new salt token w u :
  wf w → faults w = [] → user_of k w = Some u →
  let '(r, w') := exec (HandleChangePassword k cur new salt token) w in
  if bool_decide (trim_space (to_lower (U_AuthProvider u)) = "local") && CheckPassword cur (U_PasswordHash u) && bool_decide (is_Some (generate_hash salt new))
  then
    code r = StatusOK ∧
    (∀ x, GetUserByID x (accounts w') = if decide (x = k)
       then (λ u h, set_credentials (clock w) h (U_TOTPSecret u) (U_TOTPVerifiedAt u) (U_TOTPRecoveryCodes u) u) u <$> generate_hash salt new
       else GetUserByID x (accounts w)) ∧
    (∀ s, s ∈ sessions (accounts w') ↔ s ∈ sessions (accounts w) ∧ survives k token s) ∧
    pending w' = RevokeForUser k (pending w)
  else code r ∈ [StatusBadRequest; StatusUnauthorized; StatusInternalServerError] ∧ accounts w' = accounts w ∧ pending w' = pending w.
Proof.
  intros Hw Hf Hu. unfold HandleChangePassword, get_user. rewrite exec_store_call by done. simpl. unfold user_of in Hu. rewrite Hu.
  set (w1 := after_store _ _ _ _). case_bool_decide as Hloc; simpl; [|split_and!; [set_solver|done|done]].
  destruct (CheckPassword cur _); simpl; [|split_and!; [set_solver|done|done]].
  destruct (generate_hash salt new) as [h|]; [rewrite bool_decide_true by by eexists|split_and!; [set_solver|done|done]].
  unfold revoke_challenges, challenge_call. cbn [exec fst snd]. set (w2 := MkWorld _ _ _ _ _).
  destruct (exec_revoke_other k token w2 (λ retained, match retained with
    | Err _ => Return (reply StatusInternalServerError)
    | Ok retained => store_call (λ now, UpdateUserPasswordHash now k h) (kept k token) (λ r,
        match r with
        | Err _ => Return (reply StatusInternalServerError)
        | Ok _ => auditIdentityChange "auth.password.changed" k (Return (cleared_unless retained))
        end)
    end)) as (b & w3 & -> & [Hus Hpd Hck Hfa Hse]); [done| |].
  { apply (wf_step w w2 []); [unfold w2; simpl; by rewrite !app_nil_r|apply Hw|simpl; lia| |constructor|by intros ? ? ?%not_elem_of_nil|done].
    intros tok ch. simpl. rewrite revoke_pending. tauto. }
  rewrite exec_store_call by done.
  destruct (update_user_spec k (λ u, set_credentials (clock w3) h (U_TOTPSecret u) (U_TOTPVerifiedAt u) (U_TOTPRecoveryCodes u) u) (accounts w3))
    as (Hs4 & _ & _ & _ & _ & Hg4).
  assert (Hget : ∀ x, GetUserByID x (accounts w3) = GetUserByID x (accounts w)) by (intros x; unfold GetUserByID; by rewrite Hus).
  assert (Hok : (UpdateUserPasswordHash (clock w3) k h (accounts w3)).2 = Ok ()).
  { unfold UpdateUserPasswordHash, update_user. destruct (update_first _ _ _) as [[??]|] eqn:Hup; [done|].
    pose proof (update_first_none _ _ _ Hup) as Hn. rewrite <-(Hget k) in Hu. apply get_user_some in Hu as [Hin Hid].
    apply Hn in Hin. by bool_prop. }
  rewrite Hok. simpl. unfold UpdateUserPasswordHash. split_and!; [done| | |done].
  - intros x. rewrite Hg4, Hget, Hck. case_decide as Hx; [|done]. subst x. by rewrite Hu.
  - intros s. rewrite Hs4, Hse. done.
Qed.

End signin.

(** ** A hub to look at *)

Definition demo_crypto : Crypto := {|
  compare_hash hash password := bool_decide (hash = String.append "h" password);
  generate_hash _ password := Some (String.append "h" password);
  HashToken token := String.append "t" token;
  DecryptTOTPSecret encrypted := Some encrypted;
  ValidateTOTPCode _ secret code := bool_decide (secret = code) |}.
#[local] Existing Instance demo_crypto.

(** The first user is set up, signs in, and changes the password. *)
Definition demo_setup : hub :=
  let w := init_world 0 [] in
  let '(a, u) := BootstrapFirstUser 0 "admin" "hsecret-one" (accounts w) in
  init (match u with Some u => with_events (with_accounts w a) [SetUp (U_ID u) (cred u)] | None => w end).

Definition demo_calls : list (op (C := call)) :=
  Begin 1 (CallLogin "user-1" "admin" "secret-one" "c" (Some "one")) :: replicate 6 (Go 1) ++
  Begin 2 (CallChangePassword "user-1" "secret-one" "secret-two" 0 "one") :: replicate 8 (Go 2).

Definition demo_changed : hub := default demo_setup (play start demo_calls demo_setup).

Lemma demo_setup_reachable : reachable demo_setup.
Proof.
  exists 0, []. apply rtc_once.
  apply (st_outside start outside (init (init_world 0 []))).
  apply (out_setup (init_world 0 []) "admin" "hsecret-one"). reflexivity.
Qed.

Lemma demo_changed_reachable : reachable demo_changed.
Proof.
  destruct demo_setup_reachable as (t & fs & Hr). exists t, fs. apply play_reachable; [vm_compute; reflexivity|exact Hr].
Qed.

Definition demo_user : User := default (MkUser "" "" "" "" "" "" "" "" None None 0 0) (GetUserByID "user-1" (accounts (shared demo_changed))).
Definition demo_session : Session := MkSession "session-2" "user-1" "tone" 86400000000000 0.

(** The session that changed the password stays. *)
Lemma sessions_justified_witness :
  (∃ how, Issued "session-2" "user-1" (MkCredential "hsecret-two" None) how ∈ trace (shared demo_changed) ∧
     presented (trace (shared demo_changed)) "user-1" (MkCredential "hsecret-two" None) how) ∨
  (∃ token, Kept "session-2" "user-1" (MkCredential "hsecret-two" None) token ∈ trace (shared demo_changed) ∧ HashToken token = "tone") ∨
  (∃ c, Issued "session-2" "user-1" c AtSetup ∈ trace (shared demo_changed)).
Proof.
  destruct (sessions_justified demo_changed demo_user demo_changed_reachable) as [Hs _];
    [vm_compute; left|vm_compute; reflexivity|].
  apply (Hs demo_session); [vm_compute; left|vm_compute; reflexivity].
Defined.

Lemma accounts_well_formed_witness :
  length (users (accounts (shared demo_changed))) = 1%nat ∧ wf_store (accounts (shared demo_changed)).
Proof. split; [vm_compute; reflexivity|]. apply (accounts_well_formed demo_changed demo_changed_reachable). Defined.

Lemma demo_setup_wf : wf (shared demo_setup).
Proof. apply (du_wf _ _ (si_during _ _ _ _ _ _ (reached_inv _ demo_setup_reachable) "")). Qed.

Definition demo_owner : User := MkUser "user-1" "admin" "owner" "local" "" "" "hsecret-one" "" None None 0 0.

Lemma change_password_spec_witness :
  let '(r, w') := exec (HandleChangePassword "user-1" "secret-one" "secret-two" 0 "one") (shared demo_setup) in
  code r = 200 ∧ U_PasswordHash <$> GetUserByID "user-1" (accounts w') = Some "hsecret-two".
Proof.
  pose proof (change_password_spec "user-1" "secret-one" "secret-two" 0 "one" (shared demo_setup) demo_owner demo_setup_wf
    ltac:(vm_compute; reflexivity) ltac:(vm_compute; reflexivity)) as Hspec.
  destruct (exec (HandleChangePassword "user-1" "secret-one" "secret-two" 0 "one") (shared demo_setup)) as [r w'].
  assert (Hb : bool_decide (trim_space (to_lower (U_AuthProvider demo_owner)) = "local") && CheckPassword "secret-one" (U_PasswordHash demo_owner)
    && bool_decide (is_Some (generate_hash 0 "secret-two")) = true) by (vm_compute; reflexivity).
  rewrite Hb in Hspec. destruct Hspec as (Hcode & Hget & _). split; [exact Hcode|]. rewrite Hget. vm_compute. reflexivity.
Defined.

(** Set-up signs its user in without the lock: a password change that falls between the two steps
    does not end that session, which was issued under the password of the set-up. *)
Lemma setup_session_outlives_change :
  ∃ st, reachable st ∧ GetUserByID "user-1" (accounts (shared st)) = Some demo_user ∧ U_PasswordHash demo_user = "hsecret-two" ∧
    S_TokenHash <$> sessions (accounts (shared st)) = ["tone"; "tsetup"] ∧
    List.filter (λ e, match e with Issued sid _ _ _ | Kept sid _ _ _ => bool_decide (sid = "session-3") | _ => false end) (trace (shared st)) =
      [Issued "session-3" "user-1" (MkCredential "hsecret-one" None) AtSetup].
Proof.
  destruct demo_changed_reachable as (t & fs & Hr). eexists. split.
  - exists t, fs. eapply rtc_r; [exact Hr|]. apply (st_outside start outside).
    apply (out_setup_session _ "user-1" (MkCredential "hsecret-one" None) "setup" 0). vm_compute. left.
  - split_and!; vm_compute; reflexivity.
Qed.
