(* ===== verification/RateLimit.v ===== *)
(** * The rate limiter of requests

    [enforceRateLimitKey] of [cmd/labtether/http_helpers.go] and its table of counters
    ([RateLimiter] in [server_types.go]).  A counter lets a number of calls through and starts again after its
    window; the table is shared by all buckets, is pruned now and then, and drops the counter that ends first when
    it is full.  The clock is read before the mutex is taken; the theorems are about calls that take the mutex in the order
    of their clocks. *)

From S2P Require Import Prelude.

Record rateCounter := MkCounter { Count : Z; ResetAt : time }.
Record RateLimiter := MkLimiter { Windows : gmap string rateCounter; PrunedAt : time }.

Definition maxRateLimitWindows : Z := 4096.

(** The zero value of the struct. *)
Definition new_limiter : RateLimiter := MkLimiter ∅ zero_time.

Section limiter.
Context `{MapRange}.

Definition windows_len (m : gmap string rateCounter) : Z := Z.of_nat (size m).

(** The pruning loop. *)
Definition prune (now : time) (s : RateLimiter) : RateLimiter :=
  if ((100 <? windows_len (Windows s)) && (PrunedAt s + Minute <? now)) || (maxRateLimitWindows <=? windows_len (Windows s))
  then MkLimiter (filter (λ e, ¬ ResetAt e.2 < now) (Windows s)) now
  else s.

(** The search for the counter to evict, with [evictKey] and [earliest]. *)
Definition evict_step (acc : string * time) (e : string * rateCounter) : string * time :=
  if (acc.2 =? zero_time) || (ResetAt e.2 <? acc.2) then (e.1, ResetAt e.2) else acc.

Definition evict (key : string) (m : gmap string rateCounter) : gmap string rateCounter :=
  if decide (m !! key = None) then
    if maxRateLimitWindows <=? windows_len m then delete (foldl evict_step ("", zero_time) (range m)).1 m else m
  else m.

(** What happens to the counter of the key: it is restarted when it is new or over, and then
    counts the call or refuses it. *)
Definition count_call (now : time) (limit : Z) (window : duration) (found : option rateCounter) : rateCounter * bool :=
  let counter := default (MkCounter 0 zero_time) found in
  let counter := if (ResetAt counter =? zero_time) || (ResetAt counter <? now) then MkCounter 0 (now + window) else counter in
  if limit <=? Count counter then (counter, false) else (MkCounter (Count counter + 1) (ResetAt counter), true).

Definition enforceRateLimitKey (now : time) (key : string) (limit : Z) (window : duration) (s : RateLimiter) :
    RateLimiter * bool :=
  let s := prune now s in
  let m := evict key (Windows s) in
  let '(counter, pass) := count_call now limit window (m !! key) in
  (MkLimiter (<[key := counter]> m) (PrunedAt s), pass).

Definition enforceRateLimitGlobal (now : time) (bucket : string) (limit : Z) (window : duration) (s : RateLimiter) :
    RateLimiter * bool :=
  if (limit <=? 0) || (window <=? 0) then (s, true) else enforceRateLimitKey now bucket limit window s.

(** [client] is [requestClientKey(r)]. *)
Definition enforceRateLimit (now : time) (client bucket : string) (limit : Z) (window : duration) (s : RateLimiter) :
    RateLimiter * bool :=
  if (limit <=? 0) || (window <=? 0) then (s, true)
  else enforceRateLimitKey now (String.append bucket (String.append ":" client)) limit window s.

(** ** Runs *)

(** A call for a key at a time, with the limit and the window of its bucket. *)
Record call := MkCall { L_Now : time; L_Key : string; L_Limit : Z; L_Window : duration }.

(** The calls in the order in which they take the mutex, each with its answer. *)
Fixpoint run (s : RateLimiter) (cs : list call) : RateLimiter * list (call * bool) :=
  match cs with
  | [] => (s, [])
  | c :: cs =>
      let '(s, pass) := enforceRateLimitKey (L_Now c) (L_Key c) (L_Limit c) (L_Window c) s in
      let '(s, answers) := run s cs in (s, (c, pass) :: answers)
  end.

(** A counter of its own for one key. *)
Fixpoint run_alone (found : option rateCounter) (cs : list call) : list (call * bool) :=
  match cs with
  | [] => []
  | c :: cs => let '(counter, pass) := count_call (L_Now c) (L_Limit c) (L_Window c) found in (c, pass) :: run_alone (Some counter) cs
  end.

(** The clocks of the calls do not go back, and run after the first year. *)
Definition in_order (cs : list call) : Prop :=
  StronglySorted (λ a b, L_Now a <= L_Now b) cs ∧ ∀ c, c ∈ cs → zero_time < L_Now c ∧ 0 < L_Window c.

(** The keys of the calls fit into the table. *)
Definition few_keys (cs : list call) : Prop :=
  Z.of_nat (size (list_to_set (L_Key <$> cs) : gset string)) <= maxRateLimitWindows.

(** The calls of [key] in [cs]; those among the answers that passed at a time of [[from, until]]. *)
Definition of_key (key : string) (cs : list call) : list call := filter (λ c, L_Key c = key) cs.
Definition answers_of (key : string) (l : list (call * bool)) : list (call * bool) := filter (λ a, L_Key a.1 = key) l.
Definition passed (from until : time) (l : list (call * bool)) : Z :=
  Z.of_nat (length (filter (λ a, a.2 = true ∧ from <= L_Now a.1 <= until) l)).

(** ** The table is bounded *)

Lemma size_prune now s : (size (Windows (prune now s)) ≤ size (Windows s))%nat.
Proof. unfold prune. destruct (_ || _); simpl; [|lia]. apply map_size_filter. Qed.

Lemma evict_fold_key (l : list (string * rateCounter)) acc :
  (foldl evict_step acc l).1 = acc.1 ∨ (foldl evict_step acc l).1 ∈ l.*1.
Proof.
  revert acc. induction l as [|e l IH]; intros acc; [by left|]. simpl. rewrite elem_of_cons.
  destruct (IH (evict_step acc e)) as [->|]; [|auto]. unfold evict_step. destruct (_ || _); auto.
Qed.

Lemma evict_key_member (m : gmap string rateCounter) :
  m ≠ ∅ → is_Some (m !! (foldl evict_step ("", zero_time) (range m)).1).
Proof.
  intros Hm. assert (Hk : (foldl evict_step ("", zero_time) (range m)).1 ∈ (range m).*1).
  { destruct (range m) as [|e l] eqn:Hl.
    - destruct Hm. apply map_to_list_empty_iff, Permutation_nil. by rewrite <-Hl, range_perm.
    - simpl. rewrite elem_of_cons. apply evict_fold_key. }
  apply list_elem_of_fmap in Hk as ([k c] & -> & Hin%elem_of_range). by exists c.
Qed.

Lemma size_evict key (m : gmap string rateCounter) :
  windows_len m <= maxRateLimitWindows →
  windows_len (evict key m) <= maxRateLimitWindows ∧ (evict key m !! key = None → windows_len (evict key m) < maxRateLimitWindows).
Proof.
  intros Hlen. unfold evict. case_decide as Hk; [|split; [done|intros; done]].
  destruct (Z.leb_spec maxRateLimitWindows (windows_len m)) as [Hfull|Hroom]; [|split; [lia|done]].
  assert (Hm : m ≠ ∅) by (intros ->; unfold windows_len, maxRateLimitWindows in Hfull; rewrite map_size_empty in Hfull; lia).
  destruct (evict_key_member m Hm) as [c Hc]. unfold windows_len in *. rewrite map_size_delete_Some by eauto.
  unfold maxRateLimitWindows in *. split; lia.
Qed.

Lemma enforce_bounded now key limit window s :
  windows_len (Windows s) <= maxRateLimitWindows →
  windows_len (Windows (enforceRateLimitKey now key limit window s).1) <= maxRateLimitWindows.
Proof.
  intros Hs. unfold enforceRateLimitKey. destruct (count_call _ _ _ _) as [c pass]. simpl.
  pose proof (size_prune now s) as Hp.
  destruct (size_evict key (Windows (prune now s))) as [Hle Hlt]; [unfold windows_len in *; lia|].
  unfold windows_len in *. rewrite map_size_insert. destruct (evict key _ !! key); simpl; [done|]. specialize (Hlt eq_refl). lia.
Qed.

Lemma run_bounded s cs :
  windows_len (Windows s) <= maxRateLimitWindows → windows_len (Windows (run s cs).1) <= maxRateLimitWindows.
Proof.
  revert s. induction cs as [|c cs IH]; intros s Hs; [done|]. simpl.
  pose proof (enforce_bounded (L_Now c) (L_Key c) (L_Limit c) (L_Window c) s Hs) as Hn.
  destruct (enforceRateLimitKey _ _ _ _ s) as [s' pass]. simpl in Hn. specialize (IH s' Hn). by destruct (run s' cs).
Qed.

(** ** Keys do not disturb each other *)

(** What a counter is worth from [now] on. *)
Definition live (now : time) (c : option rateCounter) : option rateCounter :=
  match c with Some x => if decide (ResetAt x < now) then None else Some x | None => None end.

Lemma live_mono m n a b : live m a = live m b → m <= n → live n a = live n b.
Proof. destruct a as [[]|], b as [[]|]; simpl; repeat case_decide; simpl in *; intros; simplify_eq; try done; lia. Qed.

Lemma count_call_live now limit window a b :
  zero_time < now → live now a = live now b → count_call now limit window a = count_call now limit window b.
Proof.
  intros Hz Hl. assert (Hc : ∀ c, count_call now limit window c = count_call now limit window (live now c)); [|by rewrite Hc, Hl, <-Hc].
  intros [[n r]|]; [|done]. simpl. case_decide as Hr; [|done]. unfold count_call. simpl.
  by rewrite (proj2 (Z.ltb_lt r now)), orb_true_r by done.
Qed.

Lemma prune_live now s k : live now (Windows (prune now s) !! k) = live now (Windows s !! k).
Proof.
  unfold prune. destruct (_ || _); [|done]. simpl.
  destruct (Windows s !! k) as [c|] eqn:Hk.
  - destruct (decide (ResetAt c < now)) as [Hr|Hr].
    + rewrite (proj2 (map_lookup_filter_None _ _ k)) by (right; intros x Hx; simplify_eq; simpl; lia). simpl. by rewrite decide_True.
    + rewrite (proj2 (map_lookup_filter_Some _ _ k c)) by done. done.
  - rewrite (proj2 (map_lookup_filter_None _ _ k)) by (by left). done.
Qed.

Lemma prune_dom now s : dom (Windows (prune now s)) ⊆ dom (Windows s).
Proof. unfold prune. destruct (_ || _); [|done]. apply dom_filter_subseteq. Qed.

(** There is room for a key of a set that fits and that the table stays within. *)
Lemma evict_room key (m : gmap string rateCounter) (K : gset string) :
  dom m ⊆ K → key ∈ K → Z.of_nat (size K) <= maxRateLimitWindows → evict key m = m.
Proof.
  intros Hd Hk Hs. unfold evict. case_decide as Hn; [|done].
  destruct (Z.leb_spec maxRateLimitWindows (windows_len m)) as [Hfull|]; [|done]. exfalso.
  assert (Hsub : {[key]} ∪ dom m ⊆ K) by set_solver. apply subseteq_size in Hsub.
  rewrite size_union, size_singleton, size_dom in Hsub by (apply not_elem_of_dom in Hn; set_solver).
  unfold windows_len in Hfull. lia.
Qed.

(** One call among others: the answer depends on the key's own counter, and no other counter is touched. *)
Lemma enforce_own now key limit window s (K : gset string) c :
  zero_time < now → dom (Windows s) ⊆ K → key ∈ K → Z.of_nat (size K) <= maxRateLimitWindows →
  live now (Windows s !! key) = live now c →
  let '(s', pass) := enforceRateLimitKey now key limit window s in
  (Windows s' !! key, pass) = (Some (count_call now limit window c).1, (count_call now limit window c).2) ∧
  (∀ k, k ≠ key → live now (Windows s' !! k) = live now (Windows s !! k)) ∧ dom (Windows s') ⊆ K.
Proof.
  intros Hz Hd Hk Hsz Hl. unfold enforceRateLimitKey. pose proof (prune_dom now s) as Hp.
  rewrite (evict_room key _ K) by (done || set_solver).
  rewrite <-(prune_live now s key) in Hl. rewrite (count_call_live _ _ _ _ c) by done.
  destruct (count_call now limit window c) as [x pass]. simpl. rewrite lookup_insert_eq. split; [done|]. split.
  - intros k Hne. by rewrite lookup_insert_ne, prune_live.
  - rewrite dom_insert. set_solver.
Qed.

Lemma run_own key (K : gset string) cs s c t :
  StronglySorted (λ a b, L_Now a <= L_Now b) cs → (∀ x, x ∈ cs → zero_time < L_Now x ∧ t <= L_Now x ∧ L_Key x ∈ K) →
  dom (Windows s) ⊆ K → Z.of_nat (size K) <= maxRateLimitWindows → live t (Windows s !! key) = live t c →
  answers_of key (run s cs).2 = run_alone c (of_key key cs).
Proof.
  intros Hs Hc Hd Hsz. revert s c t Hs Hc Hd. induction cs as [|x cs IH]; intros s c t Hs Hc Hd Hl; [done|].
  apply StronglySorted_inv in Hs as [Hs Hall]. rewrite Forall_forall in Hall.
  destruct (Hc x) as (Hz & Ht & Hk); [by left|]. simpl.
  assert (Hl' : live (L_Now x) (Windows s !! key) = live (L_Now x) c) by (by eapply live_mono).
  assert (Hrest : ∀ y, y ∈ cs → zero_time < L_Now y ∧ L_Now x <= L_Now y ∧ L_Key y ∈ K).
  { intros y Hy. destruct (Hc y) as (? & ? & ?); [by right|]. auto. }
  pose proof (enforce_own (L_Now x) (L_Key x) (L_Limit x) (L_Window x) s K) as Hown.
  destruct (enforceRateLimitKey _ _ _ _ s) as [s' pass] eqn:He. unfold of_key, answers_of in *.
  destruct (run s' cs) as [s'' ans] eqn:Hr. simpl. rewrite !filter_cons. simpl.
  case_decide as Hkey; [subst key|].
  - destruct (Hown c) as ([= Hw Hp] & _ & Hd'); [done..|]. simpl. destruct (count_call _ _ _ c) as [c' p']. simpl in *. subst pass.
    f_equal. rewrite <-(IH s' (Some c') (L_Now x)); [by rewrite Hr|done..|]. by rewrite Hw.
  - destruct (Hown (Windows s !! L_Key x)) as (_ & Hoth & Hd'); [done..|]. rewrite <-(IH s' c (L_Now x)); [by rewrite Hr|done..|].
    by rewrite Hoth.
Qed.

Lemma run_isolated cs key : in_order cs → few_keys cs → answers_of key (run new_limiter cs).2 = run_alone None (of_key key cs).
Proof.
  intros [Hs Hc] Hfew.
  apply (run_own key (list_to_set (L_Key <$> cs)) cs new_limiter None zero_time); [done| |set_solver|done|done].
  intros x Hx. destruct (Hc x Hx). split; [done|]. split; [lia|]. apply elem_of_list_to_set, list_elem_of_fmap. by exists x.
Qed.

(** The table that all buckets share gives each key the answers it would get from a counter of its own:
    neither the other keys nor the pruning can be noticed, as long as the keys fit into the table.  Whatever the calls, the table
    keeps its bound. *)
Theorem rate_limit_isolated cs key :
  windows_len (Windows (run new_limiter cs).1) <= maxRateLimitWindows ∧
  (in_order cs → few_keys cs → answers_of key (run new_limiter cs).2 = run_alone None (of_key key cs)).
Proof. split; [by apply run_bounded|apply run_isolated]. Qed.

(** ** What a counter lets through *)

Lemma passed_cons from until a l :
  passed from until (a :: l) = (if decide (a.2 = true ∧ from <= L_Now a.1 <= until) then 1 else 0) + passed from until l.
Proof. unfold passed. rewrite filter_cons. case_decide; simpl; lia. Qed.

Lemma passed_cons_le from until a l : passed from until (a :: l) <= 1 + passed from until l.
Proof. rewrite passed_cons. case_decide; lia. Qed.

Lemma passed_cons_skip from until a l :
  a.2 = false ∨ L_Now a.1 < from ∨ until < L_Now a.1 → passed from until (a :: l) = passed from until l.
Proof. intros Ha. rewrite passed_cons, decide_False; [done|]. intros [Hp Ht]. destruct Ha as [Ha|Ha]; [congruence|lia]. Qed.

Lemma passed_app from until l k : passed from until (l ++ k) = passed from until l + passed from until k.
Proof. unfold passed. rewrite filter_app, length_app. lia. Qed.

Lemma passed_nonneg from until l : 0 <= passed from until l.
Proof. unfold passed. lia. Qed.

Lemma passed_widen from until from' l : from' <= from → passed from until l <= passed from' until l.
Proof. intros Hf. induction l as [|a l IH]; [done|]. rewrite !passed_cons. repeat case_decide; try lia; naive_solver lia. Qed.

(** Calls of one bucket in order, from a time on. *)
Definition bucket_calls (limit : Z) (window : duration) (t : time) (cs : list call) : Prop :=
  StronglySorted (λ a b, L_Now a <= L_Now b) cs ∧ ∀ c, c ∈ cs → L_Limit c = limit ∧ L_Window c = window ∧ t <= L_Now c.

Lemma bucket_calls_cons limit window t c cs :
  bucket_calls limit window t (c :: cs) →
  L_Limit c = limit ∧ L_Window c = window ∧ t <= L_Now c ∧ bucket_calls limit window (L_Now c) cs.
Proof.
  intros [[Hs Hall]%StronglySorted_inv Hc]. rewrite Forall_forall in Hall. destruct (Hc c) as (-> & -> & ?); [by left|].
  do 3 (split; [done|]). split; [done|]. intros y Hy. destruct (Hc y) as (? & ? & ?); [by right|]. auto.
Qed.

Section counter.
Context (limit : Z) (window : duration) (Hlimit : 0 < limit) (Hwindow : 0 < window).

(** What is left of the limit at a time. *)
Definition left_over (now : time) (c : option rateCounter) : Z :=
  match live now c with Some x => limit - Count x | None => limit end.
Definition counter_ok (c : option rateCounter) : Prop :=
  match c with Some x => 1 <= Count x <= limit | None => True end.

(** The two cases of a call: a new window begins, or the present one goes on. *)
Lemma count_call_cases now c : zero_time < now → counter_ok c →
  let '(x, pass) := count_call now limit window c in
  counter_ok (Some x) ∧
  ((pass = true ∧ live now c = None ∧ x = MkCounter 1 (now + window)) ∨
   (∃ y, c = Some y ∧ now <= ResetAt y ∧ ResetAt x = ResetAt y ∧
      ((pass = true ∧ Count y < limit ∧ Count x = Count y + 1) ∨ (pass = false ∧ Count y = limit ∧ x = y)))).
Proof.
  intros Hz Hok. unfold count_call. destruct c as [[n r]|]; simpl in *.
  - destruct (Z.eqb_spec r zero_time) as [->|Hr]; simpl.
    + rewrite (proj2 (Z.leb_gt limit 0)), decide_True by lia. split; [simpl; lia|]. by left.
    + destruct (Z.ltb_spec r now) as [Hlt|Hge]; simpl.
      * rewrite (proj2 (Z.leb_gt limit 0)), decide_True by lia. split; [simpl; lia|]. by left.
      * destruct (Z.leb_spec limit n); simpl; (split; [simpl; lia|]); right; exists (MkCounter n r); simpl; (split_and!; [done|lia|done|]); [right|left]; split_and!; done || lia.
  - rewrite (proj2 (Z.leb_gt limit 0)) by lia. split; [simpl; lia|]. by left.
Qed.

(** Nothing passes at a time that is over. *)
Lemma passes_later cs t c from until : bucket_calls limit window t cs → until < t → passed from until (run_alone c cs) = 0.
Proof.
  revert t c. induction cs as [|x cs IH]; intros t c Hb Ht; [done|]. apply bucket_calls_cons in Hb as (_ & _ & Hx & Hb). simpl.
  destruct (count_call _ _ _ c). rewrite passed_cons_skip by (simpl; right; right; lia). apply (IH (L_Now x)); [done|lia].
Qed.

(** Up to the end of the present window, or of a window that begins at [t] or later, what is left of the limit
    is all that passes. *)
Lemma passes_one_window cs t c from until :
  zero_time < t → bucket_calls limit window t cs → counter_ok c → until <= t + window →
  (∀ x, live t c = Some x → until <= ResetAt x) →
  passed from until (run_alone c cs) <= left_over t c.
Proof.
  revert t c. induction cs as [|x cs IH]; intros t c Hz Hb Hok Hu Hx.
  { unfold left_over. destruct c as [y|]; simpl in *; [case_decide|]; lia || (unfold passed; simpl; lia). }
  apply bucket_calls_cons in Hb as (Hl & Hw & Ht & Hb). simpl. rewrite Hl, Hw.
  pose proof (count_call_cases (L_Now x) c) as Hc. destruct (count_call _ _ _ c) as [y pass].
  destruct Hc as [Hoky Hc]; [lia|done|].
  pose proof (IH (L_Now x) (Some y) ltac:(lia) Hb Hoky ltac:(lia)) as Hrest. unfold left_over in *.
  destruct Hc as [(-> & Hlive & ->)|(z & -> & Hz' & Hr & [(-> & Hlt & Hn)|(-> & Hn & ->)])]; simpl in *.
  - destruct (live t c) as [z|] eqn:Hlt.
    + specialize (Hx z eq_refl). assert (ResetAt z < L_Now x).
      { destruct c as [z'|]; [|done]. simpl in *. repeat case_decide; simplify_eq; lia. }
      rewrite passed_cons_skip, (passes_later _ (L_Now x)) by (done || lia || (simpl; right; right; lia)).
      destruct c as [z'|]; simpl in *; [|done]. destruct (decide (ResetAt z' < t)); simplify_eq; lia.
    + rewrite decide_False in Hrest by lia. specialize (Hrest ltac:(intros ? [= <-]; simpl; lia)). simpl in Hrest.
      pose proof (passed_cons_le from until (x, true) (run_alone (Some (MkCounter 1 (L_Now x + window))) cs)). lia.
  - rewrite (decide_False (P := ResetAt z < t)) in * by lia. rewrite decide_False in Hrest by lia.
    specialize (Hrest ltac:(intros ? [= <-]; rewrite Hr; by apply Hx)).
    pose proof (passed_cons_le from until (x, true) (run_alone (Some y) cs)). lia.
  - rewrite (decide_False (P := ResetAt z < t)) in * by lia. rewrite decide_False in Hrest by lia.
    specialize (Hrest ltac:(intros ? [= <-]; by apply Hx)). by rewrite passed_cons_skip by (by left).
Qed.

(** Two windows meet an interval of the length of one. *)
Lemma passes_two_windows cs t c from until :
  zero_time < t → bucket_calls limit window t cs → counter_ok c → until <= t + window →
  passed from until (run_alone c cs) <= left_over t c + limit.
Proof.
  revert t c. induction cs as [|x cs IH]; intros t c Hz Hb Hok Hu.
  { unfold left_over. destruct c as [y|]; simpl in *; [case_decide|]; lia || (unfold passed; simpl; lia). }
  apply bucket_calls_cons in Hb as (Hl & Hw & Ht & Hb). simpl. rewrite Hl, Hw.
  pose proof (count_call_cases (L_Now x) c) as Hc. destruct (count_call _ _ _ c) as [y pass].
  destruct Hc as [Hoky Hc]; [lia|done|]. unfold left_over in *.
  destruct Hc as [(-> & Hlive & ->)|(z & -> & Hz' & Hr & [(-> & Hlt & Hn)|(-> & Hn & ->)])]; simpl in *.
  - pose proof (passes_one_window cs (L_Now x) (Some (MkCounter 1 (L_Now x + window))) from until) as Hone.
    unfold left_over in Hone. simpl in Hone. rewrite decide_False in Hone by lia.
    specialize (Hone ltac:(lia) Hb Hoky ltac:(lia) ltac:(intros ? [= <-]; simpl; lia)). simpl in Hone.
    pose proof (passed_cons_le from until (x, true) (run_alone (Some (MkCounter 1 (L_Now x + window))) cs)).
    destruct c as [z|]; simpl in *; [destruct (decide (ResetAt z < t))|]; lia.
  - pose proof (IH (L_Now x) (Some y) ltac:(lia) Hb Hoky ltac:(lia)) as Hrest. simpl in Hrest.
    rewrite (decide_False (P := ResetAt z < t)) by lia. rewrite decide_False in Hrest by lia.
    pose proof (passed_cons_le from until (x, true) (run_alone (Some y) cs)). lia.
  - pose proof (IH (L_Now x) (Some z) ltac:(lia) Hb Hoky ltac:(lia)) as Hrest. simpl in Hrest.
    rewrite (decide_False (P := ResetAt z < t)) by lia. rewrite decide_False in Hrest by lia.
    by rewrite passed_cons_skip by (by left).
Qed.

(** The calls before the interval only move the counter. *)
Lemma passes_interval cs t c from :
  zero_time < t → bucket_calls limit window t cs → counter_ok c →
  passed from (from + window) (run_alone c cs) <= 2 * limit - 1.
Proof.
  revert t c. induction cs as [|x cs IH]; intros t c Hz Hb Hok; [unfold passed; simpl; lia|].
  apply bucket_calls_cons in Hb as (Hl & Hw & Ht & Hb).
  destruct (decide (from <= L_Now x)) as [Hf|Hf].
  - assert (Hx : bucket_calls limit window (L_Now x) (x :: cs)).
    { destruct Hb as [Hs Hc]. split.
      + constructor; [done|]. apply Forall_forall. intros y Hy. by apply Hc.
      + intros y [->|Hy]%elem_of_cons; [auto with lia|by apply Hc]. }
    destruct (live (L_Now x) c) as [y|] eqn:Hlive.
    + pose proof (passes_two_windows (x :: cs) (L_Now x) c from (from + window) ltac:(lia) Hx Hok ltac:(lia)) as Htwo.
      unfold left_over in Htwo. rewrite Hlive in Htwo. destruct c as [z|]; simpl in *; [|done]. case_decide; simplify_eq. lia.
    + pose proof (passes_one_window (x :: cs) (L_Now x) c from (from + window) ltac:(lia) Hx Hok ltac:(lia)) as Hone.
      unfold left_over in Hone. rewrite Hlive in Hone. specialize (Hone ltac:(done)). lia.
  - simpl. rewrite Hl, Hw. pose proof (count_call_cases (L_Now x) c) as Hc. destruct (count_call _ _ _ c) as [y pass].
    destruct Hc as [Hoky _]; [lia|done|]. rewrite passed_cons_skip by (simpl; lia). apply (IH (L_Now x)); [lia|done..].
Qed.

(** The counter has counted calls of its window. *)
Definition counted (c : option rateCounter) (past : list (call * bool)) (now : time) : Prop :=
  match c with Some x => ResetAt x - window <= now ∧ Count x <= passed (ResetAt x - window) now past | None => True end.

Lemma refused_after_limit cs t c past :
  zero_time < t → bucket_calls limit window t cs → counter_ok c → (∀ a, a ∈ past → L_Now a.1 <= t) → counted c past t →
  ∀ l1 a l2, run_alone c cs = l1 ++ a :: l2 → a.2 = false → limit <= passed (L_Now a.1 - window) (L_Now a.1) (past ++ l1).
Proof.
  revert t c past. induction cs as [|x cs IH]; intros t c past Hz Hb Hok Hpast Hcnt l1 a l2 Hrun Ha; [by destruct l1|].
  apply bucket_calls_cons in Hb as (Hl & Hw & Ht & Hb). simpl in Hrun. rewrite Hl, Hw in Hrun.
  pose proof (count_call_cases (L_Now x) c) as Hc. destruct (count_call _ _ _ c) as [y pass]. destruct Hc as [Hoky Hc]; [lia|done|].
  assert (Hgrow : ∀ from, passed from (L_Now x) past = passed from t past).
  { intros from. clear -Hpast Ht. induction past as [|b past IH]; [done|]. rewrite !passed_cons.
    rewrite IH by (intros; apply Hpast; by right). f_equal. pose proof (Hpast b ltac:(by left)). repeat case_decide; try lia; naive_solver lia. }
  destruct l1 as [|b l1]; simplify_eq/=.
  - rewrite app_nil_r. destruct Hc as [(? & _)|(z & -> & Hz' & _ & [(? & _)|(_ & Hn & ->)])]; [done..|]. simpl in Hcnt.
    rewrite Hgrow. pose proof (passed_widen (ResetAt z - window) t (L_Now x - window) past). lia.
  - match goal with H : run_alone _ cs = _ |- _ => rename H into Hrun end.
    specialize (IH (L_Now x) (Some y) (past ++ [(x, pass)]) ltac:(lia) Hb Hoky).
    rewrite cons_middle, app_assoc. eapply IH; [| |exact Hrun|done].
    + intros b [Hb'|Hb']%elem_of_app; [specialize (Hpast b Hb'); lia|]. apply list_elem_of_singleton in Hb' as ->. simpl. lia.
    + simpl. rewrite passed_app, Hgrow, passed_cons. simpl. rewrite (Z.add_comm (passed _ t past)).
      pose proof (passed_nonneg (ResetAt y - window) t past). pose proof (passed_nonneg (ResetAt y - window) (L_Now x) []).
      destruct Hc as [(-> & _ & ->)|(z & -> & Hz' & Hr & [(-> & Hlt & Hn)|(-> & Hn & ->)])]; simpl in *.
      * rewrite decide_True by (split; [done|lia]). lia.
      * rewrite Hr in *. rewrite decide_True by (split; [done|lia]). lia.
      * lia.
Qed.
End counter.

(** In an interval as long as the window fewer than twice the limit pass, whatever calls of other keys are
    made; and a call is refused only when as many calls as the limit have passed within the window that ends with it. *)
Theorem rate_limit_window cs key limit window :
  in_order cs → few_keys cs → 0 < limit → 0 < window → (∀ c, c ∈ cs → L_Key c = key → L_Limit c = limit ∧ L_Window c = window) →
  let answers := answers_of key (run new_limiter cs).2 in
  (∀ from, passed from (from + window) answers <= 2 * limit - 1) ∧
  (∀ l1 c l2, answers = l1 ++ (c, false) :: l2 → limit <= passed (L_Now c - window) (L_Now c) l1).
Proof.
  intros Ho Hfew Hl Hw Hk answers. unfold answers. rewrite run_isolated by done. destruct Ho as [Hs Hc].
  assert (Hb : bucket_calls limit window (zero_time + 1) (of_key key cs)).
  { split; [by apply StronglySorted_filter|]. intros c [Hck Hin]%list_elem_of_filter. destruct (Hk c) as [-> ->], (Hc c); auto with lia. }
  split.
  - intros from. eapply passes_interval; [done..| |exact Hb|done]. lia.
  - intros l1 c l2 Hr. pose proof (refused_after_limit limit window Hl (of_key key cs) (zero_time + 1) None [] ltac:(lia) Hb I) as Hrefused.
    apply (Hrefused ltac:(intros a Ha; by apply not_elem_of_nil in Ha) I l1 (c, false) l2); done.
Qed.
End limiter.

(** ** Concrete runs *)

(** Two calls in ten seconds, of two clients. *)
Definition demo_calls : list call :=
  [MkCall 0 "login:a" 2 (10 * Second); MkCall (9 * Second) "login:a" 2 (10 * Second); MkCall (9 * Second) "login:b" 2 (10 * Second);
   MkCall (10 * Second) "login:a" 2 (10 * Second); MkCall (11 * Second) "login:a" 2 (10 * Second); MkCall (12 * Second) "login:a" 2 (10 * Second);
   MkCall (13 * Second) "login:a" 2 (10 * Second)].

Lemma demo_calls_in_order : in_order demo_calls.
Proof.
  split.
  - repeat constructor; vm_compute; discriminate.
  - intros c Hc. unfold demo_calls in Hc. repeat (apply elem_of_cons in Hc as [->|Hc]; [done|]). by apply not_elem_of_nil in Hc.
Qed.

Lemma rate_limit_isolated_witness :
  in_order demo_calls ∧ few_keys demo_calls ∧
  answers_of "login:b" (run (H := range_in_key_order) new_limiter demo_calls).2 =
    [(MkCall (9 * Second) "login:b" 2 (10 * Second), true)].
Proof.
  split; [apply demo_calls_in_order|]. split; [vm_compute; discriminate|].
  etrans; [apply (rate_limit_isolated (H := range_in_key_order) demo_calls "login:b"); [apply demo_calls_in_order|vm_compute; discriminate]|reflexivity].
Defined.

(** The bound is reached: three of the two calls per ten seconds pass between the seconds 2 and 12. *)
Lemma rate_limit_window_witness :
  in_order demo_calls ∧
  snd <$> answers_of "login:a" (run (H := range_in_key_order) new_limiter demo_calls).2 = [true; true; false; true; true; false] ∧
  passed (2 * Second) (12 * Second) (answers_of "login:a" (run (H := range_in_key_order) new_limiter demo_calls).2) = 3 ∧
  2 <= passed 0 (10 * Second) (take 2 (answers_of "login:a" (run (H := range_in_key_order) new_limiter demo_calls).2)).
Proof.
  split; [apply demo_calls_in_order|]. split; [reflexivity|]. split; [reflexivity|].
  apply (rate_limit_window (H := range_in_key_order) demo_calls "login:a" 2 (10 * Second)) with
    (c := MkCall (10 * Second) "login:a" 2 (10 * Second))
    (l2 := drop 3 (answers_of "login:a" (run (H := range_in_key_order) new_limiter demo_calls).2));
    [apply demo_calls_in_order|vm_compute; discriminate|done|done| |reflexivity].
  intros c Hc. unfold demo_calls in Hc. repeat (apply elem_of_cons in Hc as [->|Hc]; [done|]). by apply not_elem_of_nil in Hc.
Defined.
