(* ===== verification/ApiKeys.v ===== *)
(** * API keys

    [internal/apikeys]: the format of keys, the scopes that a key grants and the assets it is bound to; the
    in-memory key store ([internal/persistence/memory_apikeys.go]); the handlers that create,
    change and delete keys ([internal/hubapi/auth/apikey_handlers.go], [identity_mutation_guard.go]) behind the guards
    of their routes ([cmd/labtether/http_handlers.go], [auth_scope_guards.go], [asset_authorization.go]); and
    the principal that a request's context carries ([internal/apiv2/context.go], [principal.go]). *)

From S2P Require Import Prelude GoStrings Accounts.

(** A Go slice: [None] is nil, which is not the same as an empty slice where the code compares with nil. *)
Abbreviation slice := (option (list string)).
Definition elems (s : slice) : list string := default [] s.

(** [append([]string(nil), s...)] is nil when there is nothing to append. *)
Definition copy_slice (s : slice) : slice := match elems s with [] => None | l => Some l end.

(** ** Format *)

Record GeneratedKey := MkGenerated { G_Raw : string; G_Prefix : string; G_Hash : string }.

(** [HashKey] is SHA-256 in hexadecimal. *)
Class KeyHash := HashKey : string → string.

(** [GenerateKey] from the random prefix and secret, in base 32. *)
Definition GenerateKey `{KeyHash} (prefix secret : string) : GeneratedKey :=
  let raw := String.append "lt_" (String.append prefix (String.append "_" secret)) in
  MkGenerated raw prefix (HashKey raw).

Definition ExtractPrefix (raw : string) : option string :=
  if negb (has_prefix raw "lt_") then None
  else match cut_at "_" (chars (trim_prefix raw "lt_")) with
       | Some (c :: prefix, _) => Some (of_chars (c :: prefix))
       | _ => None
       end.

Definition IsAPIKeyFormat (s : string) : bool := bool_decide (is_Some (ExtractPrefix s)).

(** ** Scopes *)

Definition knownScopeCategories : list string :=
  ["assets"; "files"; "services"; "processes"; "docker"; "connectors"; "groups"; "alerts"; "shell"; "network"; "disks"; "packages";
   "cron"; "users"; "homeassistant"; "agents"; "collectors"; "web-services"; "webhooks"; "schedules"; "actions"; "events"; "search";
   "metrics"; "hub"; "failover"; "bulk"; "terminal"; "dead-letters"; "logs"; "credentials"; "audit"; "settings"; "discovery"; "topology";
   "updates"; "incidents"; "notifications"].

(** The tests of [ScopeAllows] on one granted scope. *)
Definition grants (required g : string) : bool :=
  bool_decide (g = "*") || bool_decide (g = required) ||
  (has_suffix g ":*" && has_prefix required (String.append (trim_suffix g ":*") ":")) ||
  (negb (contains_char g ":"%char) && has_prefix required (String.append g ":")).

Definition ScopeAllows (granted : list string) (required : string) : bool :=
  negb (is_empty required) && existsb (grants required) granted.

Definition AssetAllowed (allowedAssets : list string) (assetID : string) : bool :=
  bool_decide (allowedAssets = []) || bool_decide (assetID ∈ allowedAssets).

(** What is before the first colon. *)
Definition scope_category (s : string) : string :=
  match cut_at ":"%char (chars s) with Some (category, _) => of_chars category | None => s end.

Definition known_scope (s : string) : bool :=
  bool_decide (s = "*") || bool_decide (scope_category s ∈ knownScopeCategories).

(** [ValidateScopes] returns no error. *)
Definition ValidateScopes (scopes : list string) : bool := negb (bool_decide (scopes = [])) && forallb known_scope scopes.

Definition ScopeCheck (grantedScopes : slice) (required : string) : bool :=
  match grantedScopes with None => true | Some granted => ScopeAllows granted required end.
Definition AssetCheck (allowedAssets : slice) (assetID : string) : bool := AssetAllowed (elems allowedAssets) assetID.

(** ** Principals *)

(** The values that [context.Context] carries; a value that is not there reads as its zero value. *)
Record context := MkContext {
  C_user : string; C_role : string; C_scopes : slice; C_assets : slice; C_apikey : string; C_session : string }.
#[global] Instance context_eq_dec : EqDecision context.
Proof. solve_decision. Defined.

Definition background : context := MkContext "" "" None None "" "".
Definition ContextWithPrincipal (userID role : string) (c : context) : context :=
  MkContext userID role (C_scopes c) (C_assets c) (C_apikey c) (C_session c).
Definition ContextWithScopes (scopes : slice) (c : context) : context :=
  MkContext (C_user c) (C_role c) scopes (C_assets c) (C_apikey c) (C_session c).
Definition ContextWithAllowedAssets (assets : slice) (c : context) : context :=
  MkContext (C_user c) (C_role c) (C_scopes c) assets (C_apikey c) (C_session c).
Definition ContextWithAPIKeyID (keyID : string) (c : context) : context :=
  MkContext (C_user c) (C_role c) (C_scopes c) (C_assets c) keyID (C_session c).
Definition ContextWithAuthSessionID (sessionID : string) (c : context) : context :=
  MkContext (C_user c) (C_role c) (C_scopes c) (C_assets c) (C_apikey c) (trim_space sessionID).

Definition IsAPIKeyPrincipal (c : context) : bool :=
  negb (is_empty (trim_space (C_apikey c))) || has_prefix (to_lower (trim_space (C_user c))) "apikey:".

Definition IsMutatingMethod (method : string) : bool := bool_decide (method ∉ ["GET"; "HEAD"; "OPTIONS"]).

Definition callerIsOwner (c : context) : bool := bool_decide (NormalizeRole (C_role c) = RoleOwner).

(** ** The store *)

Record APIKey := MkKey {
  K_ID : string; K_Name : string; K_Prefix : string; K_SecretHash : string; K_Role : string; K_Scopes : slice;
  K_AllowedAssets : slice; K_ExpiresAt : option time; K_CreatedBy : string; K_CreatedAt : time; K_LastUsedAt : option time }.

Abbreviation keys := (gmap string APIKey).

Inductive key_error := ErrKeyNotFound | ErrKeyExists | ErrKeyStore.

Definition CreateAPIKey (key : APIKey) (m : keys) : keys * result key_error unit :=
  match m !! K_ID key with Some _ => (m, Err ErrKeyExists) | None => (<[K_ID key := key]> m, Ok tt) end.

Definition LookupAPIKeyByHash `{MapRange} (secretHash : string) (m : keys) : option APIKey :=
  snd <$> find_range (λ _ k, bool_decide (K_SecretHash k = secretHash)) m.

Definition GetAPIKey (id : string) (m : keys) : option APIKey := m !! id.
Definition ListAPIKeys `{MapRange} (m : keys) : list APIKey := (range m).*2.

(** The fields that an update names are replaced. *)
Definition update_key (name : option string) (scopes allowedAssets : option slice) (expiresAt : option (option time)) (k : APIKey) : APIKey :=
  MkKey (K_ID k) (default (K_Name k) name) (K_Prefix k) (K_SecretHash k) (K_Role k) (default (K_Scopes k) scopes)
    (default (K_AllowedAssets k) allowedAssets) (default (K_ExpiresAt k) expiresAt) (K_CreatedBy k) (K_CreatedAt k) (K_LastUsedAt k).

Definition UpdateAPIKey (id : string) (name : option string) (scopes allowedAssets : option slice) (expiresAt : option (option time))
    (m : keys) : keys * result key_error unit :=
  match m !! id with
  | None => (m, Err ErrKeyNotFound)
  | Some k => (<[id := update_key name scopes allowedAssets expiresAt k]> m, Ok tt)
  end.

Definition DeleteAPIKey (id : string) (m : keys) : keys := delete id m.

Definition touch_key (now : time) (k : APIKey) : APIKey :=
  MkKey (K_ID k) (K_Name k) (K_Prefix k) (K_SecretHash k) (K_Role k) (K_Scopes k) (K_AllowedAssets k) (K_ExpiresAt k)
    (K_CreatedBy k) (K_CreatedAt k) (Some now).
Definition TouchAPIKeyLastUsed (now : time) (id : string) (m : keys) : keys :=
  match m !! id with None => m | Some k => <[id := touch_key now k]> m end.

(** ** The handlers *)

Definition maxAPIKeyNameLength : Z := 120.
Definition maxAPIKeyScopeCount : Z := 64.
Definition maxAPIKeyAssetCount : Z := 200.
Definition maxAPIKeyAssetIDLen : Z := 255.

Definition str_len (s : string) : Z := Z.of_nat (String.length s).
Definition list_len {A} (l : list A) : Z := Z.of_nat (length l).

(** A byte of a control character; the bytes of the other runes are larger. *)
Definition control_byte (c : ascii) : bool := ((byte_of c <? 32) || (byte_of c =? 127))%N.

(** The loop of [normalizeAPIKeyAllowedAssets], with the ids in [seen]. *)
Fixpoint normalize_assets (seen : gset string) (values : list string) : option (list string) :=
  match values with
  | [] => Some []
  | value :: values =>
      let assetID := trim_space value in
      if is_empty assetID || (maxAPIKeyAssetIDLen <? str_len assetID) then None
      else if existsb control_byte (chars assetID) then None
      else if decide (assetID ∈ seen) then None
      else cons assetID <$> normalize_assets ({[assetID]} ∪ seen) values
  end.

(** [None] is the error. *)
Definition normalizeAPIKeyAllowedAssets (values : list string) : option slice :=
  if maxAPIKeyAssetCount <? list_len values then None
  else match values with [] => Some None | _ => Some <$> normalize_assets ∅ values end.

Record CreateKeyRequest := MkCreate {
  Q_Name : string; Q_Role : string; Q_Scopes : slice; Q_AllowedAssets : slice; Q_ExpiresAt : option time }.

(** The member [expires_at] of an update: absent, null, not a time, or a time. *)
Inductive expiry_field := ExpiryAbsent | ExpiryNull | ExpiryInvalid | ExpiryAt (t : time).

Record UpdateKeyRequest := MkUpdate {
  P_Name : option string; P_Role : option string; P_Scopes : option slice; P_AllowedAssets : option slice; P_ExpiresAt : expiry_field }.

Inductive key_response := KeyCreated (k : APIKey) (raw : string) | KeyShown (k : APIKey) | KeysListed (ks : list APIKey)
| KeyUpdated | KeyDeleted | Refused (status : Z).

(** A handler returns the store, its response and the stream keys that it revoked. *)
Definition key_outcome : Type := keys * key_response * list string.

Definition StreamActorKey (actorID : string) : string := String.append "actor:" (trim_space actorID).
Definition StreamSessionKey (sessionID : string) : string := String.append "session:" (trim_space sessionID).
Definition key_actor (id : string) : string := String.append "apikey:" id.

Definition valid_name (name : string) : bool := negb (is_empty name) && (str_len name <=? maxAPIKeyNameLength).

Definition handleAPIKeyCreate (now : time) (generated : GeneratedKey) (id : string) (c : context) (req : CreateKeyRequest) (m : keys) : key_outcome :=
  let name := trim_space (Q_Name req) in
  if negb (valid_name name) then (m, Refused 400, [])
  else if negb (IsValidRole (Q_Role req)) then (m, Refused 400, [])
  else if bool_decide (Q_Role req = RoleOwner) then (m, Refused 400, [])
  else if negb (ValidateScopes (elems (Q_Scopes req))) then (m, Refused 400, [])
  else if maxAPIKeyScopeCount <? list_len (elems (Q_Scopes req)) then (m, Refused 400, [])
  else match normalizeAPIKeyAllowedAssets (elems (Q_AllowedAssets req)) with
       | None => (m, Refused 400, [])
       | Some allowedAssets =>
           let key := MkKey id name (G_Prefix generated) (G_Hash generated) (NormalizeRole (Q_Role req)) (Q_Scopes req)
                        allowedAssets (Q_ExpiresAt req) (C_user c) now None in
           match CreateAPIKey key m with
           | (m, Ok _) => (m, KeyCreated key (G_Raw generated), [])
           | (m, Err _) => (m, Refused 500, [])
           end
       end.

Definition requireAPIKeyManagement (c : context) (id : string) (m : keys) : bool :=
  match GetAPIKey id m with
  | None => true
  | Some key =>
      negb (HasAdminPrivileges (K_Role key)) || callerIsOwner c ||
      (let creator := trim_space (K_CreatedBy key) in negb (is_empty creator) && bool_decide (creator = C_user c))
  end.

(** What the update writes to [expires_at]; the outer [None] is the error. *)
Definition expiry_update (e : expiry_field) : option (option (option time)) :=
  match e with
  | ExpiryAbsent => Some None
  | ExpiryNull => Some (Some None)
  | ExpiryInvalid => None
  | ExpiryAt t => if t =? zero_time then None else Some (Some (Some t))
  end.

Definition handleAPIKeyUpdate (c : context) (id : string) (req : UpdateKeyRequest) (m : keys) : key_outcome :=
  if decide (P_Role req ≠ None) then (m, Refused 400, [])
  else if negb (requireAPIKeyManagement c id m) then (m, Refused 403, [])
  else
    let name := trim_space <$> P_Name req in
    if match name with Some name => negb (valid_name name) | None => false end then (m, Refused 400, [])
    else if match P_Scopes req with
            | Some scopes => negb (ValidateScopes (elems scopes)) || (maxAPIKeyScopeCount <? list_len (elems scopes))
            | None => false
            end then (m, Refused 400, [])
    else match (match P_AllowedAssets req with
                | Some assets => Some <$> normalizeAPIKeyAllowedAssets (elems assets)
                | None => Some None
                end), expiry_update (P_ExpiresAt req) with
         | Some allowedAssets, Some expiresAt =>
             match UpdateAPIKey id name (P_Scopes req) allowedAssets expiresAt m with
             | (m, Ok _) => (m, KeyUpdated, [StreamActorKey (key_actor id)])
             | (m, Err ErrKeyNotFound) => (m, Refused 404, [])
             | (m, Err _) => (m, Refused 500, [])
             end
         | _, _ => (m, Refused 400, [])
         end.

Definition handleAPIKeyDelete (c : context) (id : string) (m : keys) : key_outcome :=
  if negb (requireAPIKeyManagement c id m) then (m, Refused 403, [])
  else (DeleteAPIKey id m, KeyDeleted, [StreamActorKey (key_actor id)]).

Definition handleAPIKeyGet (id : string) (m : keys) : key_outcome :=
  match GetAPIKey id m with None => (m, Refused 404, []) | Some key => (m, KeyShown key, []) end.

Definition handleAPIKeysList `{MapRange} (m : keys) : key_outcome := (m, KeysListed (ListAPIKeys m), []).

(** ** The routes *)

(** [/api/v2/keys] and [/api/v2/keys/{id}]. *)
Inductive key_request :=
| ListKeys | CreateKey (req : CreateKeyRequest) | GetKey (id : string) | PatchKey (id : string) (req : UpdateKeyRequest) | RemoveKey (id : string).

Definition key_method (q : key_request) : string :=
  match q with ListKeys | GetKey _ => "GET" | CreateKey _ => "POST" | PatchKey _ _ => "PATCH" | RemoveKey _ => "DELETE" end.

(** [rejectAPIKeyIdentityMutation] *)
Definition rejectAPIKeyIdentityMutation (c : context) : bool := IsAPIKeyPrincipal c.

Definition HandleAPIKeys `{MapRange} (now : time) (generated : GeneratedKey) (newID : string) (c : context) (create : option CreateKeyRequest)
    (m : keys) : key_outcome :=
  match create with
  | None => handleAPIKeysList m
  | Some req => if rejectAPIKeyIdentityMutation c then (m, Refused 403, []) else handleAPIKeyCreate now generated newID c req m
  end.

(** What [/api/v2/keys/{id}] does with its key: read, update or delete it. *)
Inductive key_action := ShowKey | ChangeKey (req : UpdateKeyRequest) | EndKey.

Definition HandleAPIKeyActions (c : context) (id : string) (a : key_action) (m : keys) : key_outcome :=
  if is_empty id then (m, Refused 404, [])
  else match a with
       | ShowKey => handleAPIKeyGet id m
       | ChangeKey req => if rejectAPIKeyIdentityMutation c then (m, Refused 403, []) else handleAPIKeyUpdate c id req m
       | EndKey => if rejectAPIKeyIdentityMutation c then (m, Refused 403, []) else handleAPIKeyDelete c id m
       end.

Definition requireReadWriteScopes (readScope writeScope method : string) (c : context) : bool :=
  let required := if IsMutatingMethod method then writeScope else readScope in
  is_empty required || ScopeCheck (C_scopes c) required.

Definition denyAssetRestrictedGlobalAPI (c : context) : bool := negb (bool_decide (elems (C_assets c) = [])).

(** The route behind [withAdminAuth], for an authenticated principal. *)
Definition serve_keys `{MapRange} (now : time) (generated : GeneratedKey) (newID : string) (c : context) (q : key_request) (m : keys) :
    key_outcome :=
  if negb (HasAdminPrivileges (C_role c)) then (m, Refused 403, [])
  else if negb (requireReadWriteScopes "settings:read" "settings:write" (key_method q) c) then (m, Refused 403, [])
  else if denyAssetRestrictedGlobalAPI c then (m, Refused 403, [])
  else match q with
       | ListKeys => HandleAPIKeys now generated newID c None m
       | CreateKey req => HandleAPIKeys now generated newID c (Some req) m
       | GetKey id => HandleAPIKeyActions c id ShowKey m
       | PatchKey id req => HandleAPIKeyActions c id (ChangeKey req) m
       | RemoveKey id => HandleAPIKeyActions c id EndKey m
       end.

(** ** Facts on keys and scopes *)

(** A generated key has the format of a key, with its prefix. *)
Lemma generated_format `{KeyHash} prefix secret :
  prefix ≠ "" → contains_char prefix "_"%char = false → ExtractPrefix (G_Raw (GenerateKey prefix secret)) = Some prefix.
Proof.
  intros Hp Hc. unfold ExtractPrefix, GenerateKey, G_Raw. rewrite (proj2 (has_prefix_spec _ "lt_")) by eauto. cbn [negb].
  rewrite trim_prefix_append, chars_append.
  assert (Hcut : cut_at "_"%char (chars prefix ++ chars (String.append "_" secret)) = Some (chars prefix, chars secret)).
  { apply cut_at_some. split; [done|]. rewrite <-contains_char_spec. by rewrite Hc. }
  rewrite Hcut. destruct prefix as [|c prefix]; [done|]. simpl. by rewrite of_chars_chars.
Qed.

Lemma scope_category_prefix p rest : scope_category (String.append p (String.append ":" rest)) = scope_category p.
Proof.
  unfold scope_category. rewrite chars_append. destruct (cut_at ":"%char (chars p)) as [[a b]|] eqn:Hc.
  - apply cut_at_some in Hc as [-> Hn]. rewrite <-app_assoc. simpl.
    by rewrite (proj2 (cut_at_some ":"%char (a ++ _) a _) (conj eq_refl Hn)).
  - apply cut_at_none in Hc. change (chars (String.append ":" rest)) with (":"%char :: chars rest). rewrite (proj2 (cut_at_some ":"%char (chars p ++ _) (chars p) (chars rest)) (conj eq_refl Hc)).
    apply of_chars_chars.
Qed.

(** What one granted scope covers: everything, itself, or what begins with its category. *)
Lemma grants_spec required g :
  grants required g = true ↔
  g = "*" ∨ g = required ∨
  ∃ p rest, required = String.append p (String.append ":" rest) ∧
    (g = String.append p ":*" ∨ (g = p ∧ contains_char p ":"%char = false)).
Proof.
  unfold grants. rewrite !orb_true_iff, !andb_true_iff, negb_true_iff, !bool_decide_eq_true.
  assert (Happ : ∀ p r, String.append (String.append p ":") r = String.append p (String.append ":" r)).
  { intros p r. apply chars_inj. by rewrite !chars_append, <-app_assoc. }
  split.
  - intros [[[->| ->]|[[p ->]%has_suffix_spec [rest Hr]%has_prefix_spec]]|[Hc [rest Hr]%has_prefix_spec]]; [by left|right; by left|..].
    + rewrite trim_suffix_append, Happ in Hr. eauto 10.
    + rewrite Happ in Hr. eauto 10.
  - intros [->|[->|(p & rest & -> & [->|[-> Hc]])]]; [auto..| |].
    + left. right. rewrite trim_suffix_append, <-Happ. split; [apply has_suffix_spec|apply has_prefix_spec]; eauto.
    + right. split; [done|]. rewrite <-Happ. apply has_prefix_spec. eauto.
Qed.

(** C1: the scopes of a key never reach past their categories: scopes that the hub accepts allow
    a required scope only if one of them is the wildcard of everything, or names a known category, that of the required scope; and they do
    allow whatever one of them covers. *)
Theorem scopes_within_categories granted required :
  ValidateScopes granted = true →
  (ScopeAllows granted required = true →
     "*" ∈ granted ∨ ∃ g, g ∈ granted ∧ scope_category g = scope_category required ∧ scope_category g ∈ knownScopeCategories) ∧
  (required ≠ "" → (∃ g, g ∈ granted ∧ grants required g = true) → ScopeAllows granted required = true).
Proof.
  unfold ValidateScopes, ScopeAllows. intros [_ Hk]%andb_true_iff. rewrite forallb_elem in Hk. split.
  - intros [_ (g & Hg & Hr)%existsb_elem]%andb_true_iff. specialize (Hk g Hg). unfold known_scope in Hk.
    apply orb_true_iff in Hk. rewrite !bool_decide_eq_true in Hk. destruct Hk as [->|Hk]; [by left|].
    apply grants_spec in Hr as [->|[->|(p & rest & -> & [->|[-> _]])]]; [by left|right; eauto|right..].
    + exists (String.append p ":*"). split; [done|]. split; [|done].
      change ":*" with (String.append ":" "*"). by rewrite !scope_category_prefix.
    + exists p. split; [done|]. split; [|done]. by rewrite scope_category_prefix.
  - intros Hne (g & Hg & Hr). rewrite bool_decide_eq_false_2 by done. apply existsb_elem. eauto.
Qed.

Lemma scopes_within_categories_witness :
  ValidateScopes ["assets:*"; "files:read"] = true ∧ ScopeAllows ["assets:*"; "files:read"] "assets:write" = true ∧
  ScopeAllows ["assets:*"; "files:read"] "files:write" = false.
Proof.
  split; [vm_compute; reflexivity|]. split; [|vm_compute; reflexivity].
  apply (scopes_within_categories ["assets:*"; "files:read"] "assets:write"); [vm_compute; reflexivity|done|].
  exists "assets:*". split; [by left|vm_compute; reflexivity].
Defined.

(** ** What changes a key *)

Record assets_ok (s : slice) : Prop := {
  ao_count : list_len (elems s) <= maxAPIKeyAssetCount;
  ao_nodup : NoDup (elems s);
  ao_each a : a ∈ elems s → a ≠ "" ∧ trim_space a = a ∧ str_len a <= maxAPIKeyAssetIDLen }.

(** The keys that the handlers write. *)
Record key_ok (k : APIKey) : Prop := {
  ko_name : valid_name (K_Name k) = true;
  ko_role : K_Role k ∈ [RoleAdmin; RoleOperator; RoleViewer];
  ko_scopes : ValidateScopes (elems (K_Scopes k)) = true ∧ list_len (elems (K_Scopes k)) <= maxAPIKeyScopeCount;
  ko_assets : assets_ok (K_AllowedAssets k) }.

(** What no update changes. *)
Definition key_identity (k : APIKey) : string * string * string * string * string * time :=
  (K_ID k, K_Prefix k, K_SecretHash k, K_Role k, K_CreatedBy k, K_CreatedAt k).

(** An admin key is managed by the owner and by its creator only. *)
Definition may_manage (c : context) (k : APIKey) : Prop :=
  HasAdminPrivileges (K_Role k) = true → callerIsOwner c = true ∨ (trim_space (K_CreatedBy k) ≠ "" ∧ trim_space (K_CreatedBy k) = C_user c).

(** What may have happened to the row of an id. *)
Definition authorised_row (c : context) (hash newID id : string) (before after : option APIKey) : Prop :=
  match before, after with
  | None, None => True
  | None, Some k => id = newID ∧ K_ID k = id ∧ K_SecretHash k = hash ∧ K_CreatedBy k = C_user c ∧ key_ok k
  | Some k, None => may_manage c k
  | Some k, Some k' => k' = k ∨ (may_manage c k ∧ key_identity k' = key_identity k ∧ (key_ok k → key_ok k'))
  end.

Lemma normalize_assets_spec seen values l :
  normalize_assets seen values = Some l →
  NoDup l ∧ (∀ a, a ∈ l → a ∉ seen ∧ a ≠ "" ∧ trim_space a = a ∧ str_len a <= maxAPIKeyAssetIDLen) ∧ length l = length values.
Proof.
  revert seen l. induction values as [|v values IH]; intros seen l; simpl.
  - intros [= <-]. split; [constructor|]. split; [|done]. intros a Ha. by apply not_elem_of_nil in Ha.
  - destruct (_ || _) eqn:Hv; [done|]. bool_prop. case_match; [done|]. case_decide as Hs; [done|].
    destruct (normalize_assets _ values) as [l'|] eqn:Hn; [|done]. intros [= <-].
    destruct (IH _ _ Hn) as (Hnd & Hin & Hlen). split_and!.
    + constructor; [|done]. intros Hv. by destruct (Hin _ Hv) as [[]%not_elem_of_union _]; set_solver.
    + intros a [->|Ha]%elem_of_cons; [|destruct (Hin a Ha) as ([]%not_elem_of_union & ?); done].
      split; [done|]. split; [done|]. split; [apply trim_space_idemp|lia].
    + simpl. by rewrite Hlen.
Qed.

Lemma normalized_assets_ok values s : normalizeAPIKeyAllowedAssets values = Some s → assets_ok s.
Proof.
  unfold normalizeAPIKeyAllowedAssets. destruct (Z.ltb_spec maxAPIKeyAssetCount (list_len values)) as [|Hlen]; [done|].
  destruct values as [|v values]; [intros [= <-]; split; simpl; [done|constructor|intros a Ha; by apply not_elem_of_nil in Ha]|].
  destruct (normalize_assets ∅ (v :: values)) as [l|] eqn:Hn; [|done]. intros [= <-].
  apply normalize_assets_spec in Hn as (Hnd & Hin & Hll). split; simpl; [unfold list_len in *; lia|done|]. intros a Ha. naive_solver.
Qed.

Lemma requireAPIKeyManagement_spec c id m k :
  requireAPIKeyManagement c id m = true → m !! id = Some k → may_manage c k.
Proof.
  unfold requireAPIKeyManagement, GetAPIKey, may_manage. intros Hr Hk Ha. rewrite Hk, Ha in Hr. simpl in Hr.
  apply orb_true_iff in Hr as [Hr|Hr]; [by left|right]. bool_prop. done.
Qed.

Lemma create_authorised now gen id c req m id' :
  authorised_row c (G_Hash gen) id id' (m !! id') ((handleAPIKeyCreate now gen id c req m).1.1 !! id').
Proof.
  assert (Hsame : authorised_row c (G_Hash gen) id id' (m !! id') (m !! id')) by (destruct (m !! id'); simpl; auto).
  unfold handleAPIKeyCreate. destruct (negb (valid_name _)) eqn:Hname; [done|]. destruct (negb (IsValidRole _)) eqn:Hrole; [done|].
  case_bool_decide as Howner; [done|]. destruct (negb (ValidateScopes _)) eqn:Hs; [done|].
  destruct (Z.ltb_spec maxAPIKeyScopeCount (list_len (elems (Q_Scopes req)))) as [|Hcount]; [done|].
  destruct (normalizeAPIKeyAllowedAssets _) as [assets|] eqn:Ha; [|done].
  unfold CreateAPIKey. simpl. destruct (m !! id) as [k|] eqn:Hk; [done|]. simpl. bool_prop.
  destruct (decide (id' = id)) as [->|Hne]; [|by rewrite lookup_insert_ne]. rewrite lookup_insert_eq, Hk. simpl.
  split_and!; [done..|]. split; simpl; [done| |done|by eapply normalized_assets_ok].
  unfold IsValidRole in *. bool_prop. unfold RoleOwner, RoleAdmin, RoleOperator, RoleViewer in *.
  match goal with H : Q_Role req ∈ _ |- _ => rename H into Hin end.
  repeat (apply elem_of_cons in Hin as [Hin|Hin]; [rewrite Hin in *; try done; vm_compute; set_solver|]). by apply not_elem_of_nil in Hin.
Qed.

Lemma update_authorised c hash new id req m id' :
  authorised_row c hash new id' (m !! id') ((handleAPIKeyUpdate c id req m).1.1 !! id').
Proof.
  assert (Hsame : authorised_row c hash new id' (m !! id') (m !! id')) by (destruct (m !! id'); simpl; auto).
  unfold handleAPIKeyUpdate. case_decide; [done|]. destruct (negb (requireAPIKeyManagement c id m)) eqn:Hm; [done|].
  destruct (match trim_space <$> P_Name req with Some name => _ | None => _ end) eqn:Hname; [done|].
  destruct (match P_Scopes req with Some scopes => _ | None => _ end) eqn:Hs; [done|].
  destruct (match P_AllowedAssets req with Some assets => _ | None => _ end) as [assets|] eqn:Ha; [|done].
  destruct (expiry_update _) as [expires|]; [|done]. unfold UpdateAPIKey. destruct (m !! id) as [k|] eqn:Hk; [|done]. simpl.
  bool_prop. destruct (decide (id' = id)) as [->|Hne]; [|by rewrite lookup_insert_ne]. rewrite lookup_insert_eq, Hk. simpl. right.
  split; [by eapply requireAPIKeyManagement_spec|]. split; [done|]. intros [Hn Hr Hsc Has]. split; simpl.
  - destruct (P_Name req); simpl in *; bool_prop; done.
  - done.
  - destruct (P_Scopes req); simpl in *; [bool_prop|]; done.
  - destruct (P_AllowedAssets req) as [l|]; simplify_eq/=; [|done].
    destruct (normalizeAPIKeyAllowedAssets _) as [s|] eqn:Hnorm; simplify_eq/=. by eapply normalized_assets_ok.
Qed.

Lemma delete_authorised c hash new id m id' :
  authorised_row c hash new id' (m !! id') ((handleAPIKeyDelete c id m).1.1 !! id').
Proof.
  assert (Hsame : authorised_row c hash new id' (m !! id') (m !! id')) by (destruct (m !! id'); simpl; auto).
  unfold handleAPIKeyDelete. destruct (negb (requireAPIKeyManagement c id m)) eqn:Hm; [done|]. simpl. unfold DeleteAPIKey. bool_prop.
  destruct (decide (id' = id)) as [->|Hne]; [|by rewrite lookup_delete_ne]. rewrite lookup_delete_eq.
  destruct (m !! id) as [k|] eqn:Hk; [|done]. by eapply requireAPIKeyManagement_spec.
Qed.

Lemma serve_keys_rows `{MapRange} now generated newID c q m id :
  authorised_row c (G_Hash generated) newID id (m !! id) ((serve_keys now generated newID c q m).1.1 !! id).
Proof.
  assert (Hsame : authorised_row c (G_Hash generated) newID id (m !! id) (m !! id)) by (destruct (m !! id); simpl; auto).
  unfold serve_keys, HandleAPIKeyActions, HandleAPIKeys, handleAPIKeyGet. repeat (case_match; try done);
    (apply create_authorised || apply update_authorised || apply delete_authorised).
Qed.

(** Only an administrator who is signed in in person changes API keys, never a key; an admin key of somebody else only
    the owner.  No change touches the identity of a key, its role or its creator; what is written passes the
    checks, and carries the creator's name.  A refusal changes nothing. *)
Theorem key_changes_authorised `{MapRange} now generated newID c q m :
  let '(m', response, _) := serve_keys now generated newID c q m in
  (∀ id, authorised_row c (G_Hash generated) newID id (m !! id) (m' !! id)) ∧
  (m' ≠ m → HasAdminPrivileges (C_role c) = true ∧ IsAPIKeyPrincipal c = false ∧ elems (C_assets c) = []) ∧
  (∀ status, response = Refused status → m' = m).
Proof.
  assert (Hsame : ∀ id, authorised_row c (G_Hash generated) newID id (m !! id) (m !! id)) by (intros id; destruct (m !! id); simpl; auto).
  unfold serve_keys. destruct (HasAdminPrivileges (C_role c)) eqn:Hadmin; [|done].
  destruct (requireReadWriteScopes _ _ _ c); [|done]. destruct (denyAssetRestrictedGlobalAPI c) eqn:Hdeny; [done|].
  unfold denyAssetRestrictedGlobalAPI in Hdeny. simpl. unfold HandleAPIKeyActions, HandleAPIKeys, rejectAPIKeyIdentityMutation. bool_prop.
  destruct q as [|req|id|id req|id]; [done| | | |].
  - destruct (IsAPIKeyPrincipal c) eqn:Hkey; [done|]. pose proof (create_authorised now generated newID c req m) as Hrow.
    assert (Href : ∀ st, (handleAPIKeyCreate now generated newID c req m).1.2 = Refused st → (handleAPIKeyCreate now generated newID c req m).1.1 = m).
    { intros st. unfold handleAPIKeyCreate, CreateAPIKey. repeat (case_match; try done). simplify_eq/=. done. }
    destruct (handleAPIKeyCreate _ _ _ _ _ _) as [[m' resp] ks]. eauto.
  - case_bool_decide; [done|]. unfold handleAPIKeyGet. by destruct (GetAPIKey id m).
  - case_bool_decide; [done|]. destruct (IsAPIKeyPrincipal c) eqn:Hkey; [done|].
    pose proof (update_authorised c (G_Hash generated) newID id req m) as Hrow.
    assert (Href : ∀ st, (handleAPIKeyUpdate c id req m).1.2 = Refused st → (handleAPIKeyUpdate c id req m).1.1 = m).
    { intros st. unfold handleAPIKeyUpdate, UpdateAPIKey. repeat (case_match; try done); simplify_eq/=; done. }
    destruct (handleAPIKeyUpdate _ _ _ _) as [[m' resp] ks]. eauto.
  - case_bool_decide; [done|]. destruct (IsAPIKeyPrincipal c) eqn:Hkey; [done|].
    pose proof (delete_authorised c (G_Hash generated) newID id m) as Hrow.
    assert (Href : ∀ st, (handleAPIKeyDelete c id m).1.2 = Refused st → (handleAPIKeyDelete c id m).1.1 = m).
    { intros st. unfold handleAPIKeyDelete. by case_match. }
    destruct (handleAPIKeyDelete _ _ _) as [[m' resp] ks]. eauto.
Qed.
