(* ===== verification/RequestAuth.v ===== *)
(** * Who a request speaks for

    The authentication of requests ([cmd/labtether/request_auth_middleware.go]): stream tickets, sessions, API keys,
    the token of the console and that of the owner, in the order in which the middleware tries them; the
    role floor of the routes that read host data ([host_data_access_policy.go]); and the one-time tickets of streams
    ([stream_ticket_principal.go]).  A request is authenticated in one step, whose reads of the stores may fail.  The runs
    interleave requests, tickets and changes of keys ([ApiKeys]) with any change of the accounts ([Accounts]). *)

From S2P Require Import Prelude GoStrings Accounts ApiKeys RateLimit.

(** ** Routes that read host data *)

Definition hostDataRoutePrefixes : list string :=
  ["/terminal/"; "/api/v2/terminal/"; "/desktop/"; "/recordings"; "/files/"; "/api/v1/file-connections"; "/api/v1/file-transfers";
   "/api/v1/remote-bookmarks"; "/api/v2/file-transfers"; "/processes/"; "/cron/"; "/users/"; "/logs/journal/"; "/actions/runs"].

Definition pathSegmentsAfter (path prefix : string) : list string :=
  if negb (has_prefix path prefix) then [] else trim_space <$> split_on "/"%char (trim_prefix path prefix).

(** The segment at an index of a path that is long enough. *)
Definition segment (rest : list string) (i : nat) : string := default "" (rest !! i).
Definition second_is (names : list string) (rest : list string) : bool :=
  bool_decide (2 ≤ length rest)%nat && bool_decide (segment rest 1 ∈ names).

Definition requestRequiresOperatorRole (path : string) : bool :=
  existsb (has_prefix path) hostDataRoutePrefixes ||
  (let rest := pathSegmentsAfter path "/api/v2/assets/" in
   bool_decide (2 ≤ length rest)%nat &&
   (let sub := segment rest 1 in
    has_prefix sub "files" || has_prefix sub "processes" || bool_decide (sub ∈ ["cron"; "users"; "logs"; "exec"]))) ||
  second_is ["clipboard"] (pathSegmentsAfter path "/api/v1/nodes/") ||
  existsb (λ prefix, second_is ["logs"] (pathSegmentsAfter path prefix)) ["/api/v1/docker/containers/"; "/api/v2/docker/containers/"] ||
  existsb (λ prefix,
    let rest := pathSegmentsAfter path prefix in
    bool_decide (4 ≤ length rest)%nat &&
    ((bool_decide (segment rest 1 = "containers") && bool_decide (segment rest 3 ∈ ["exec"; "logs"; "inspect"])) ||
     (bool_decide (segment rest 1 = "stacks") && bool_decide (segment rest 3 = "compose"))))
    ["/portainer/assets/"; "/api/v2/portainer/assets/"] ||
  existsb (λ prefix, second_is ["filesystem"] (pathSegmentsAfter path prefix)) ["/truenas/assets/"; "/api/v2/truenas/assets/"] ||
  existsb (λ prefix, second_is ["syslog"] (pathSegmentsAfter path prefix)) ["/proxmox/nodes/"; "/api/v2/proxmox/nodes/"].

(** ** Requests *)

(** What the middleware reads of a request.  [R_Ticket] is the query parameter, when it is there; [R_NativeOrigin] says that
    the origin is opaque or that of a native application. *)
Record request := MkRequest {
  R_Method : string; R_Path : string; R_EscapedPath : string; R_Ticket : option string; R_Cookie : string;
  R_Authorization : string; R_XToken : string; R_TLS : bool; R_Loopback : bool; R_ForwardedHTTPS : bool;
  R_NativeOrigin : bool; R_Client : string }.

Definition rejectHostDataForRole (r : request) (role : string) : bool :=
  (requestRequiresOperatorRole (R_Path r) || requestRequiresOperatorRole (R_EscapedPath r)) && negb (HasWritePrivileges role).

Definition methodAllowedForRole (role method : string) : bool := negb (IsMutatingMethod method) || HasWritePrivileges role.

(** [ExtractSessionToken] of the cookie's value. *)
Definition ExtractSessionToken (r : request) : string := trim_space (R_Cookie r).
Definition ExtractBearerToken (r : request) : string := extractToken (R_Authorization r) (R_XToken r).

(** The session and the action of a path under one of the two prefixes of streams. *)
Definition two_parts (path : string) : option (string * string) :=
  match split_on "/"%char path with [a; b] => Some (trim_space a, trim_space b) | _ => None end.

Definition isSessionStreamPath (path prefix : string) (allowedActions : list string) : bool :=
  has_prefix path prefix &&
  match two_parts (trim_prefix path prefix) with
  | Some (id, action) => negb (is_empty id) && bool_decide (action ∈ allowedActions)
  | None => false
  end.

Definition isNativeAppStreamPath (path : string) : bool :=
  isSessionStreamPath path "/terminal/sessions/" ["stream"] || isSessionStreamPath path "/desktop/sessions/" ["stream"; "audio"].

Definition streamTicketFallbackForbidden (r : request) : bool :=
  bool_decide (R_Method r = "GET") && isNativeAppStreamPath (R_Path r) && (bool_decide (R_Ticket r ≠ None) || R_NativeOrigin r).

(** The session whose stream a path opens. *)
Definition stream_target (path : string) : option string :=
  let after (prefix : string) := let rest := trim_prefix path prefix in if bool_decide (rest = path) || is_empty rest then None else Some rest in
  match (match after "/terminal/sessions/" with
         | Some rest => Some (rest, ["stream"])
         | None => match after "/desktop/sessions/" with Some rest => Some (rest, ["stream"; "audio"]) | None => None end
         end) with
  | None => None
  | Some (rest, actions) =>
      match two_parts rest with
      | Some (sessionID, action) => if is_empty sessionID then None else if decide (action ∈ actions) then Some sessionID else None
      | None => None
      end
  end.

(** ** State *)

Record streamTicket := MkTicket {
  T_SessionID : string; T_ActorID : string; T_Role : string; T_Scopes : slice; T_AllowedAssets : slice; T_APIKeyID : string;
  T_AuthSessionID : string; T_ExpiresAt : time }.

Definition streamTicketTTL : duration := 60 * Second.

(** What start-up configures: whether the listener has TLS, the owner's tokens and that of the console. *)
Record server := MkServer { tlsEnabled : bool; authValidator : list string; consoleServiceValidator : list string }.

Record world := MkWorld {
  authStore : MemoryAuthStore; apiKeyStore : keys; streamTickets : gmap string streamTicket; rateLimiter : RateLimiter; clock : time }.

Definition with_tickets (w : world) (t : gmap string streamTicket) : world :=
  MkWorld (authStore w) (apiKeyStore w) t (rateLimiter w) (clock w).
Definition with_limiter (w : world) (l : RateLimiter) : world :=
  MkWorld (authStore w) (apiKeyStore w) (streamTickets w) l (clock w).

(** The reads of the stores that can fail. *)
Inductive store_read := ReadSession | ReadUser | ReadKey | ReadCreator | ReadTicketKey | ReadTicketUser | ReadTicketSessions.

(** With which credential a request was admitted; the middleware itself only sees the context. *)
Inductive credential := ByTicket (ticket : string) | BySession | ByKey | ByConsole | ByOwner.

Inductive verdict := Admit (by_ : credential) (c : context) | Deny (status : Z).

Section auth.
Context `{Crypto, KeyHash, MapRange} (srv : server).

(** ** Stream tickets *)

Definition expire_tickets (now : time) (t : gmap string streamTicket) : gmap string streamTicket :=
  filter (λ e, ¬ T_ExpiresAt e.2 < now) t.

(** The context that a ticket stands for. *)
Definition ticket_context (e : streamTicket) : context :=
  let c := ContextWithPrincipal (T_ActorID e) (T_Role e) background in
  let c := if decide (T_Scopes e = None) then c else ContextWithScopes (copy_slice (T_Scopes e)) c in
  let c := if decide (T_AllowedAssets e = None) then c else ContextWithAllowedAssets (copy_slice (T_AllowedAssets e)) c in
  let c := if is_empty (T_APIKeyID e) then c else ContextWithAPIKeyID (T_APIKeyID e) c in
  if is_empty (T_AuthSessionID e) then c else ContextWithAuthSessionID (T_AuthSessionID e) c.

Definition consumeStreamTicketAuth (r : request) (w : world) : world * option (string * context) :=
  if decide (R_Method r ≠ "GET") then (w, None)
  else match stream_target (R_Path r) with
       | None => (w, None)
       | Some sessionID =>
           let ticket := trim_space (default "" (R_Ticket r)) in
           if is_empty ticket then (w, None)
           else
             let tickets := expire_tickets (clock w) (streamTickets w) in
             match tickets !! ticket with
             | None => (with_tickets w tickets, None)
             | Some entry =>
                 if T_ExpiresAt entry <? clock w then (with_tickets w (delete ticket tickets), None)
                 else if negb (bool_decide (T_SessionID entry = sessionID)) then (with_tickets w tickets, None)
                 else (with_tickets w (delete ticket tickets), Some (ticket, ticket_context entry))
             end
       end.

(** [ticket] is the fresh random text. *)
Definition issueStreamTicket (ticket : string) (c : context) (sessionID : string) (w : world) : world * option time :=
  let sessionID := trim_space sessionID in
  let actorID := trim_space (C_user c) in
  let role := NormalizeRole (C_role c) in
  if is_empty sessionID then (w, None)
  else if is_empty actorID || is_empty role then (w, None)
  else
    let expiresAt := clock w + streamTicketTTL in
    let entry := MkTicket sessionID actorID role (copy_slice (C_scopes c)) (copy_slice (C_assets c)) (C_apikey c) (C_session c) expiresAt in
    (with_tickets w (<[ticket := entry]> (expire_tickets (clock w) (streamTickets w))), Some expiresAt).

Definition streamRoleRank (role : string) : Z :=
  if decide (NormalizeRole role = RoleOwner) then 3
  else if decide (NormalizeRole role = RoleAdmin) then 2
  else if decide (NormalizeRole role = RoleOperator) then 1 else 0.

Definition expired (now : time) (expiresAt : option time) : bool := match expiresAt with Some t => t <? now | None => false end.

Definition streamTicketPrincipalActive (fails : store_read → bool) (w : world) (actorID role apiKeyID authSessionID : string) : bool :=
  let actorID := trim_space actorID in
  if bool_decide (actorID = "owner") then true
  else if negb (is_empty apiKeyID) then
    negb (fails ReadTicketKey) &&
    match GetAPIKey apiKeyID (apiKeyStore w) with
    | None => false
    | Some key => negb (expired (clock w) (K_ExpiresAt key)) && (streamRoleRank role <=? streamRoleRank (K_Role key))
    end
  else if negb (is_empty authSessionID) then
    negb (fails ReadTicketUser) &&
    match GetUserByID actorID (authStore w) with
    | None => false
    | Some user =>
        (streamRoleRank role <=? streamRoleRank (U_Role user)) && negb (fails ReadTicketSessions) &&
        existsb (λ session, bool_decide (S_ID session = authSessionID) && (clock w <? S_ExpiresAt session))
          (ListSessionsByUserID actorID (authStore w))
    end
  else false.

Definition streamTicketRequestActive (fails : store_read → bool) (w : world) (c : context) : bool :=
  streamTicketPrincipalActive fails w (C_user c) (C_role c) (C_apikey c) (C_session c).

Definition StreamPrincipalKeys (c : context) : list string :=
  let actor := trim_space (C_user c) in
  (if is_empty actor || bool_decide (actor = "owner") then [] else [StreamActorKey actor]) ++
  (if is_empty (C_session c) then [] else [StreamSessionKey (C_session c)]).

Definition dropStreamTickets (ks : list string) (t : gmap string streamTicket) : gmap string streamTicket :=
  filter (λ e,
    let c := ContextWithPrincipal (T_ActorID e.2) (T_Role e.2) background in
    let c := if is_empty (T_AuthSessionID e.2) then c else ContextWithAuthSessionID (T_AuthSessionID e.2) c in
    Forall (λ k, k ∉ ks) (StreamPrincipalKeys c)) t.

(** ** The middleware *)

(** [Err] is a failing store; [Ok None] is a request without a session. *)
Definition authenticatedSessionRequest (fails : store_read → bool) (r : request) (w : world) : result unit (option context) :=
  let token := ExtractSessionToken r in
  if is_empty token then Ok None
  else if fails ReadSession then Err tt
  else match ValidateSession (clock w) (HashToken token) (authStore w) with
       | None => Ok None
       | Some session =>
           if fails ReadUser then Err tt
           else match GetUserByID (S_UserID session) (authStore w) with
                | None => Ok None
                | Some user =>
                    Ok (Some (ContextWithAuthSessionID (S_ID session)
                                (ContextWithPrincipal (S_UserID session) (NormalizeRole (U_Role user)) background)))
                end
       end.

(** [Ok None] is a key whose creator is gone. *)
Definition apiKeyCreatorCappedRole (fails : store_read → bool) (w : world) (key : APIKey) (role : string) : result unit (option string) :=
  let creator := trim_space (K_CreatedBy key) in
  if is_empty creator || bool_decide (creator = "owner") || bool_decide (creator = "system") then Ok (Some role)
  else if fails ReadCreator then Err tt
  else match GetUserByID creator (authStore w) with
       | None => Ok None
       | Some user => Ok (Some (LowerRole role (U_Role user)))
       end.

Definition apiKeyRequestIsSecure (r : request) : bool := R_TLS r || tlsEnabled srv || (R_Loopback r && R_ForwardedHTTPS r).

(** The branch of API keys, from the check of the transport on. *)
Definition authenticate_key (policy : string → string → bool) (fails : store_read → bool) (r : request) (bearer : string) (w : world) :
    world * verdict :=
  if negb (apiKeyRequestIsSecure r) then (w, Deny 403)
  else if fails ReadKey then (w, Deny 503)
  else match LookupAPIKeyByHash (HashKey bearer) (apiKeyStore w) with
       | None => (w, Deny 401)
       | Some key =>
           if expired (clock w) (K_ExpiresAt key) then (w, Deny 401)
           else if negb (ValidateScopes (elems (K_Scopes key))) then (w, Deny 401)
           else
             let role := NormalizeRole (K_Role key) in
             if bool_decide (role = RoleOwner) then (w, Deny 401)
             else match apiKeyCreatorCappedRole fails w key role with
                  | Err _ => (w, Deny 503)
                  | Ok None => (w, Deny 401)
                  | Ok (Some role) =>
                      if negb (policy role (R_Method r)) then (w, Deny 403)
                      else if rejectHostDataForRole r role then (w, Deny 403)
                      else
                        let '(l, pass) := enforceRateLimit (clock w) (R_Client r) (key_actor (K_ID key)) 600 Minute (rateLimiter w) in
                        if negb pass then (with_limiter w l, Deny 429)
                        else
                          let '(l, pass) := enforceRateLimitGlobal (clock w) (String.append "apikey-global:" (K_ID key)) 3000 Minute l in
                          if negb pass then (with_limiter w l, Deny 429)
                          else (with_limiter w l,
                                Admit ByKey (ContextWithAPIKeyID (K_ID key) (ContextWithAllowedAssets (K_AllowedAssets key)
                                  (ContextWithScopes (K_Scopes key) (ContextWithPrincipal (key_actor (K_ID key)) role background)))))
                  end
       end.

(** The tokens of the console and of the owner. *)
Definition authenticate_token (policy : string → string → bool) (r : request) (w : world) : world * verdict :=
  if ValidateRequest (consoleServiceValidator srv) (R_Authorization r) (R_XToken r) then
    if negb (bool_decide (R_Method r = "GET")) || negb (bool_decide (R_Path r = "/settings/runtime")) then (w, Deny 403)
    else (w, Admit ByConsole (ContextWithScopes (Some ["settings:read"]) (ContextWithPrincipal "console-service" RoleAdmin background)))
  else if negb (ValidateRequest (authValidator srv) (R_Authorization r) (R_XToken r)) then (w, Deny 401)
  else if negb (policy RoleOwner (R_Method r)) then (w, Deny 403)
  else (w, Admit ByOwner (ContextWithPrincipal "owner" RoleOwner background)).

Definition withAuthMethodPolicy (policy : string → string → bool) (fails : store_read → bool) (r : request) (w : world) : world * verdict :=
  match consumeStreamTicketAuth r w with
  | (w, Some (ticket, c)) =>
      if rejectHostDataForRole r (C_role c) then (w, Deny 403)
      else if negb (streamTicketRequestActive fails w c) then (w, Deny 401)
      else (w, Admit (ByTicket ticket) c)
  | (w, None) =>
      if streamTicketFallbackForbidden r then (w, Deny 401)
      else match authenticatedSessionRequest fails r w with
           | Err _ => (w, Deny 503)
           | Ok (Some c) =>
               if negb (policy (C_role c) (R_Method r)) then (w, Deny 403)
               else if rejectHostDataForRole r (C_role c) then (w, Deny 403)
               else (w, Admit BySession c)
           | Ok None =>
               let bearer := ExtractBearerToken r in
               if IsAPIKeyFormat bearer then authenticate_key policy fails r bearer w else authenticate_token policy r w
           end
  end.

Definition withAuth := withAuthMethodPolicy methodAllowedForRole.
Definition withReadCapabilityAuth := withAuthMethodPolicy (λ _ _, true).

(** A user signed in, in person: [withSelfServiceAuth]. *)
Definition withSelfServiceAuth (fails : store_read → bool) (r : request) (w : world) : verdict :=
  match authenticatedSessionRequest fails r w with
  | Err _ => Deny 503
  | Ok None => Deny 401
  | Ok (Some c) => Admit BySession c
  end.

Definition withAdminAuth (fails : store_read → bool) (r : request) (w : world) : world * verdict :=
  match withAuth fails r w with
  | (w, Admit by_ c) => if HasAdminPrivileges (C_role c) then (w, Admit by_ c) else (w, Deny 403)
  | denied => denied
  end.

(** ** Runs *)

Inductive event := Entered (by_ : credential) (c : context) | Issued (ticket sessionID : string) (c : context) (at_ : time).

(** [h_ids] are the ids of keys that were ever given out. *)
Record hub := MkHub { h_world : world; h_ids : gset string; h_trace : list event }.

Definition admitted (v : verdict) : list event := match v with Admit b c => [Entered b c] | Deny _ => [] end.

(** Every context comes from a request that was admitted before, however long ago.  Random tickets and new ids are fresh.  The
    accounts change in any way that keeps them well formed ([Accounts.wf_store]), other buckets use the limiter. *)
Inductive step (h : hub) : hub → Prop :=
| step_request policy fails r w v :
    withAuthMethodPolicy policy fails r (h_world h) = (w, v) → step h (MkHub w (h_ids h) (h_trace h ++ admitted v))
| step_issue b c sessionID ticket w expires :
    Entered b c ∈ h_trace h → (∀ sid c' t, Issued ticket sid c' t ∉ h_trace h) →
    issueStreamTicket ticket c sessionID (h_world h) = (w, Some expires) →
    step h (MkHub w (h_ids h) (h_trace h ++ [Issued ticket (trim_space sessionID) c (clock (h_world h))]))
| step_keys b c q generated newID m response ks :
    Entered b c ∈ h_trace h → newID ∉ h_ids h →
    serve_keys (clock (h_world h)) generated newID c q (apiKeyStore (h_world h)) = (m, response, ks) →
    step h (MkHub (MkWorld (authStore (h_world h)) m (dropStreamTickets ks (streamTickets (h_world h))) (rateLimiter (h_world h)) (clock (h_world h)))
              ({[newID]} ∪ h_ids h) (h_trace h))
| step_revoke ks :
    step h (MkHub (with_tickets (h_world h) (dropStreamTickets ks (streamTickets (h_world h)))) (h_ids h) (h_trace h))
| step_touch id :
    step h (MkHub (MkWorld (authStore (h_world h)) (TouchAPIKeyLastUsed (clock (h_world h)) id (apiKeyStore (h_world h)))
                     (streamTickets (h_world h)) (rateLimiter (h_world h)) (clock (h_world h))) (h_ids h) (h_trace h))
| step_accounts a l now :
    wf_store a → clock (h_world h) <= now →
    step h (MkHub (MkWorld a (apiKeyStore (h_world h)) (streamTickets (h_world h)) l now) (h_ids h) (h_trace h)).

(** A hub starts without tickets; its accounts and keys are what an earlier run has stored. *)
Record initial (h : hub) : Prop := {
  in_accounts : wf_store (authStore (h_world h));
  in_keys id k : apiKeyStore (h_world h) !! id = Some k → K_ID k = id ∧ id ∈ h_ids h;
  in_tickets : streamTickets (h_world h) = ∅;
  in_trace : h_trace h = [] }.

Definition reachable (h : hub) : Prop := ∃ h0, initial h0 ∧ rtc step h0 h.

(** ** The invariant *)

(** What every admitted principal satisfies. *)
Record proper (c : context) : Prop := {
  pr_scopes s : C_scopes c = Some s → ValidateScopes s = true;
  pr_owner : trim_space (C_user c) = "owner" → C_role c = RoleOwner;
  pr_role : NormalizeRole (C_role c) = C_role c;
  pr_session : trim_space (C_session c) = C_session c;
  pr_key : C_apikey c ≠ "" → C_scopes c ≠ None ∧ C_role c ≠ RoleOwner }.

Record ticket_of (e : streamTicket) (c : context) : Prop := {
  to_user : T_ActorID e = trim_space (C_user c); to_role : T_Role e = C_role c; to_scopes : T_Scopes e = C_scopes c;
  to_assets : T_AllowedAssets e = copy_slice (C_assets c); to_apikey : T_APIKeyID e = C_apikey c; to_session : T_AuthSessionID e = C_session c }.

Record hub_inv (h : hub) : Prop := {
  hi_accounts : wf_store (authStore (h_world h));
  hi_keys id k : apiKeyStore (h_world h) !! id = Some k → K_ID k = id ∧ id ∈ h_ids h;
  hi_proper b c : Entered b c ∈ h_trace h → proper c;
  hi_tickets t e : streamTickets (h_world h) !! t = Some e →
    ∃ b c at_, Issued t (T_SessionID e) c at_ ∈ h_trace h ∧ Entered b c ∈ h_trace h ∧ (∀ c', Entered (ByTicket t) c' ∉ h_trace h) ∧
      at_ <= clock (h_world h) ∧ T_ExpiresAt e = at_ + streamTicketTTL ∧ ticket_of e c;
  hi_used t c : Entered (ByTicket t) c ∈ h_trace h → ∃ sid c' at_, Issued t sid c' at_ ∈ h_trace h }.

(** *** Roles and names *)

Lemma NormalizeRole_cases role : NormalizeRole role ∈ [RoleOwner; RoleAdmin; RoleOperator; RoleViewer].
Proof.
  unfold NormalizeRole, default_str. destruct (keyword_cases [RoleOwner; RoleAdmin; RoleOperator] role) as [Hk| ->].
  - case_bool_decide; [by do 3 right; left|]. set_solver.
  - rewrite bool_decide_eq_true_2 by done. by do 3 right; left.
Qed.

Lemma NormalizeRole_idemp role : NormalizeRole (NormalizeRole role) = NormalizeRole role.
Proof.
  pose proof (NormalizeRole_cases role) as Hr.
  repeat (apply elem_of_cons in Hr as [->|Hr]; [by vm_compute|]). by apply not_elem_of_nil in Hr.
Qed.

Lemma streamRoleRank_rank role : streamRoleRank role = rank (NormalizeRole role).
Proof. done. Qed.

Lemma LowerRole_spec a b :
  NormalizeRole (LowerRole a b) = LowerRole a b ∧ rank (LowerRole a b) <= rank (NormalizeRole a) ∧ rank (LowerRole a b) <= rank (NormalizeRole b).
Proof. unfold LowerRole. destruct (Z.ltb_spec (rank (NormalizeRole b)) (rank (NormalizeRole a))); split; try apply NormalizeRole_idemp; lia. Qed.

Lemma key_actor_not_owner id : trim_space (key_actor id) ≠ "owner".
Proof. intros Ht. unfold key_actor in Ht. cbn [String.append] in Ht. by apply trim_space_head in Ht; [|destruct id]. Qed.

Lemma user_id_not_owner s id : allocated s id → trim_space id ≠ "owner".
Proof. intros (n & -> & _) Ht. unfold user_id in Ht. cbn [String.append] in Ht. apply trim_space_head in Ht; [done|]. reflexivity. Qed.

(** *** Slices *)

Lemma elems_copy s : elems (copy_slice s) = elems s.
Proof. unfold copy_slice. by destruct (elems s). Qed.

Lemma valid_copy s : (∀ l, s = Some l → ValidateScopes l = true) → copy_slice s = s.
Proof. destruct s as [[|x l]|]; [|done..]. intros Hv. by specialize (Hv [] eq_refl). Qed.

(** *** What each way in yields *)

Lemma session_context fails r w c :
  authenticatedSessionRequest fails r w = Ok (Some c) →
  ∃ x u, x ∈ sessions (authStore w) ∧ S_TokenHash x = HashToken (ExtractSessionToken r) ∧ clock w < S_ExpiresAt x ∧
    u ∈ users (authStore w) ∧ U_ID u = S_UserID x ∧ c = MkContext (U_ID u) (NormalizeRole (U_Role u)) None None "" (trim_space (S_ID x)).
Proof.
  unfold authenticatedSessionRequest. case_bool_decide; [done|]. case_match; [done|].
  destruct (ValidateSession _ _ _) as [x|] eqn:Hx; [|done]. case_match; [done|].
  destruct (GetUserByID _ _) as [u|] eqn:Hu; [|done]. intros [= <-].
  unfold ValidateSession in Hx. apply find_Some_elem in Hx as [Hin Ht]. apply andb_true_iff in Ht as [Ht He]. apply bool_decide_eq_true in Ht. apply Z.ltb_lt in He.
  apply get_user_some in Hu as [Huin Huid]. exists x, u. by rewrite Huid.
Qed.

(** The key that admits a request. *)
Record admitting_key (w : world) (r : request) (k : APIKey) (c : context) : Prop := {
  ak_stored : ∃ id, apiKeyStore w !! id = Some k;
  ak_hash : K_SecretHash k = HashKey (ExtractBearerToken r);
  ak_secure : apiKeyRequestIsSecure r = true;
  ak_live : expired (clock w) (K_ExpiresAt k) = false;
  ak_scopes : ValidateScopes (elems (K_Scopes k)) = true;
  ak_context : c = MkContext (key_actor (K_ID k)) (C_role c) (K_Scopes k) (K_AllowedAssets k) (K_ID k) "";
  ak_role : NormalizeRole (C_role c) = C_role c ∧ C_role c ≠ RoleOwner ∧ rank (C_role c) <= rank (NormalizeRole (K_Role k));
  ak_creator : let creator := trim_space (K_CreatedBy k) in creator ∉ [""; "owner"; "system"] →
    ∃ u, u ∈ users (authStore w) ∧ U_ID u = creator ∧ rank (C_role c) <= rank (NormalizeRole (U_Role u)) }.

Lemma rank_owner role : rank role <= 2 → role ≠ RoleOwner.
Proof. intros Hr ->. unfold rank in Hr. rewrite decide_True in Hr by done. lia. Qed.

Lemma rank_not_owner role : role ≠ RoleOwner → rank role <= 2.
Proof. intros Hr. unfold rank. rewrite decide_False by done. repeat case_decide; lia. Qed.

Lemma capped_role fails w k role role' :
  NormalizeRole role = role → apiKeyCreatorCappedRole fails w k role = Ok (Some role') →
  NormalizeRole role' = role' ∧ rank role' <= rank role ∧
  (trim_space (K_CreatedBy k) ∉ [""; "owner"; "system"] →
   ∃ u, u ∈ users (authStore w) ∧ U_ID u = trim_space (K_CreatedBy k) ∧ rank role' <= rank (NormalizeRole (U_Role u))).
Proof.
  intros Hn. unfold apiKeyCreatorCappedRole. destruct (_ || _) eqn:Hc.
  - intros [= <-]. split; [done|]. split; [done|]. intros Hnot. exfalso. apply Hnot.
    rewrite !orb_true_iff, !bool_decide_eq_true in Hc. rewrite !elem_of_cons. tauto.
  - destruct (fails ReadCreator); [done|]. destruct (GetUserByID _ _) as [u|] eqn:Hu; [|done]. intros [= <-].
    apply get_user_some in Hu as [Hin Hid]. destruct (LowerRole_spec role (U_Role u)) as (Hx & Hy & Hz). rewrite Hn in Hy.
    split; [done|]. split; [done|]. eauto.
Qed.

Lemma key_context policy fails r w w' b c :
  authenticate_key policy fails r (ExtractBearerToken r) w = (w', Admit b c) →
  b = ByKey ∧ (∃ l, w' = with_limiter w l) ∧ policy (C_role c) (R_Method r) = true ∧ rejectHostDataForRole r (C_role c) = false ∧
  ∃ k, admitting_key w r k c.
Proof.
  unfold authenticate_key. destruct (negb _) eqn:Hsec; [done|]. destruct (fails ReadKey); [done|].
  destruct (LookupAPIKeyByHash _ _) as [k|] eqn:Hk; [|done]. destruct (expired _ _) eqn:He; [done|].
  destruct (negb (ValidateScopes _)) eqn:Hs; [done|]. case_bool_decide as Ho; [done|].
  destruct (apiKeyCreatorCappedRole _ _ _ _) as [[role|]|] eqn:Hc; [|done..].
  destruct (negb (policy _ _)) eqn:Hp; [done|]. destruct (rejectHostDataForRole r role) eqn:Hd; [done|].
  destruct (enforceRateLimit _ _ _ _ _ _) as [l pass]. destruct pass; [|done].
  destruct (enforceRateLimitGlobal _ _ _ _ _) as [l' pass]. destruct pass; [|done]. simpl. intros [= <- <- <-]. simpl.
  bool_prop. split; [done|]. split; [by exists l'|]. split; [done|]. split; [done|]. exists k.
  unfold LookupAPIKeyByHash in Hk. destruct (find_range _ _) as [[id k']|] eqn:Hf; [|done]. injection Hk as ->.
  apply find_range_Some in Hf as [Hf Hh]. apply bool_decide_eq_true in Hh.
  apply (capped_role _ _ _ _ _ (NormalizeRole_idemp _)) in Hc as (Hn & Hr & Hcr).
  split; simpl; [eauto|done..| |exact Hcr]. split; [done|]. split; [|done]. apply rank_owner. apply rank_not_owner in Ho. lia.
Qed.

(** *** What the middleware may change *)

Record frame (w w' : world) : Prop := {
  fr_accounts : authStore w' = authStore w; fr_keys : apiKeyStore w' = apiKeyStore w; fr_clock : clock w' = clock w;
  fr_tickets : streamTickets w' ⊆ streamTickets w }.

Lemma frame_refl w : frame w w.
Proof. done. Qed.

Lemma frame_limiter w l : frame w (with_limiter w l).
Proof. done. Qed.

Lemma frame_trans w1 w2 w3 : frame w1 w2 → frame w2 w3 → frame w1 w3.
Proof. intros [A1 K1 C1 T1] [A2 K2 C2 T2]. split; [congruence..|]. by etrans. Qed.

Lemma consume_spec r w w' o :
  consumeStreamTicketAuth r w = (w', o) →
  frame w w' ∧
  match o with
  | Some (ticket, c) => ∃ e, streamTickets w !! ticket = Some e ∧ clock w <= T_ExpiresAt e ∧ R_Method r = "GET" ∧
      stream_target (R_Path r) = Some (T_SessionID e) ∧ c = ticket_context e ∧ streamTickets w' !! ticket = None ∧ R_Ticket r ≠ None
  | None => True
  end.
Proof.
  assert (Hsub : expire_tickets (clock w) (streamTickets w) ⊆ streamTickets w) by apply map_filter_subseteq.
  unfold consumeStreamTicketAuth. case_decide as Hm; [by intros [= <- <-]|].
  destruct (stream_target (R_Path r)) as [sid|] eqn:Ht; [|by intros [= <- <-]]. case_bool_decide as Hempty; [by intros [= <- <-]|].
  destruct (expire_tickets _ _ !! _) as [e|] eqn:He; [|by intros [= <- <-]].
  pose proof (lookup_weaken _ _ _ _ He Hsub) as He'.
  destruct (Z.ltb_spec (T_ExpiresAt e) (clock w)) as [|Hlive].
  { intros [= <- <-]. split; [|done]. split; [done..|]. simpl. etrans; [apply delete_subseteq|done]. }
  case_bool_decide as Hsid; simpl; intros [= <- <-]; [|done]. split.
  - split; [done..|]. simpl. etrans; [apply delete_subseteq|done].
  - exists e. subst sid. split_and!; try done; [apply lookup_delete_eq|].
    intros Hn. by rewrite Hn in Hempty.
Qed.

(** The routes that read host data are closed to viewers. *)
Definition floor_kept (r : request) (c : context) : Prop := requestRequiresOperatorRole (R_Path r) = true → HasWritePrivileges (C_role c) = true.

Lemma not_rejected r c : rejectHostDataForRole r (C_role c) = false → floor_kept r c.
Proof.
  unfold rejectHostDataForRole, floor_kept. intros Hr Hp. rewrite Hp in Hr. simpl in Hr. by apply negb_false_iff in Hr.
Qed.

(** What an admission says about the moment before it. *)
Definition admission (policy : string → string → bool) (fails : store_read → bool) (r : request) (w w' : world) (b : credential) (c : context) : Prop :=
  match b with
  | ByTicket ticket => ∃ e, streamTickets w !! ticket = Some e ∧ clock w <= T_ExpiresAt e ∧ R_Method r = "GET" ∧
      stream_target (R_Path r) = Some (T_SessionID e) ∧ c = ticket_context e ∧ streamTickets w' !! ticket = None ∧
      streamTicketRequestActive fails w' c = true
  | BySession => authenticatedSessionRequest fails r w = Ok (Some c) ∧ policy (C_role c) (R_Method r) = true
  | ByKey => (∃ k, admitting_key w r k c) ∧ policy (C_role c) (R_Method r) = true
  | ByConsole => R_Method r = "GET" ∧ R_Path r = "/settings/runtime" ∧
      ValidateRequest (consoleServiceValidator srv) (R_Authorization r) (R_XToken r) = true ∧
      c = MkContext "console-service" RoleAdmin (Some ["settings:read"]) None "" ""
  | ByOwner => ValidateRequest (authValidator srv) (R_Authorization r) (R_XToken r) = true ∧ policy RoleOwner (R_Method r) = true ∧
      c = MkContext "owner" RoleOwner None None "" ""
  end.

Lemma token_spec policy r w w' v :
  authenticate_token policy r w = (w', v) → w' = w ∧ ∀ fails b c, v = Admit b c → admission policy fails r w w' b c ∧ floor_kept r c ∧ ∀ t, b ≠ ByTicket t.
Proof.
  unfold authenticate_token. destruct (ValidateRequest (consoleServiceValidator srv) _ _) eqn:Hc.
  - destruct (_ || _) eqn:Hr; intros [= <- <-]; split; try done; intros fails b c [= <- <-]. apply orb_false_iff in Hr as [Hm Hp].
    apply negb_false_iff, bool_decide_eq_true in Hm, Hp. split; [done|]. split; [by intros _|done].
  - destruct (ValidateRequest (authValidator srv) _ _) eqn:Ho; simpl; [|by intros [= <- <-]].
    destruct (policy RoleOwner _) eqn:Hp; simpl; intros [= <- <-]; (split; [done|]); [|done]. intros fails b c [= <- <-]. done.
Qed.

Lemma key_frame policy fails r bearer w w' v : authenticate_key policy fails r bearer w = (w', v) → frame w w'.
Proof.
  unfold authenticate_key. destruct (negb _); [by intros [= <- <-]|]. destruct (fails ReadKey); [by intros [= <- <-]|].
  destruct (LookupAPIKeyByHash _ _) as [k|]; [|by intros [= <- <-]]. destruct (expired _ _); [by intros [= <- <-]|].
  destruct (negb (ValidateScopes _)); [by intros [= <- <-]|]. case_bool_decide; [by intros [= <- <-]|].
  destruct (apiKeyCreatorCappedRole _ _ _ _) as [[role|]|]; [|by intros [= <- <-]..].
  destruct (negb (policy _ _)); [by intros [= <- <-]|]. destruct (rejectHostDataForRole r role); [by intros [= <- <-]|].
  destruct (enforceRateLimit _ _ _ _ _ _) as [l pass]. destruct pass; simpl; [|by intros [= <- <-]].
  destruct (enforceRateLimitGlobal _ _ _ _ _) as [l' pass]. destruct pass; simpl; by intros [= <- <-].
Qed.

Lemma frame_session fails r w w' : frame w w' → authenticatedSessionRequest fails r w' = authenticatedSessionRequest fails r w.
Proof. intros [Ha Hk Hc Ht]. unfold authenticatedSessionRequest. by rewrite Ha, Hc. Qed.

Lemma frame_key w w' r k c : frame w w' → admitting_key w' r k c → admitting_key w r k c.
Proof. intros [Ha Hk Hc Ht] [K1 K2 K3 K4 K5 K6 K7 K8]. rewrite ?Ha, ?Hk, ?Hc in *. by split. Qed.

Lemma middleware_spec policy fails r w w' v :
  withAuthMethodPolicy policy fails r w = (w', v) →
  frame w w' ∧ ∀ b c, v = Admit b c → admission policy fails r w w' b c ∧ floor_kept r c ∧
    ((∀ t, b ≠ ByTicket t) → isNativeAppStreamPath (R_Path r) = true → R_Method r = "GET" → R_Ticket r = None).
Proof.
  unfold withAuthMethodPolicy. destruct (consumeStreamTicketAuth r w) as [w1 o] eqn:Hcons. apply consume_spec in Hcons as [Hf Ho].
  destruct o as [[ticket c]|].
  - destruct (rejectHostDataForRole r _) eqn:Hd; [by intros [= <- <-]|]. destruct (streamTicketRequestActive _ _ _) eqn:Ha; simpl; [|by intros [= <- <-]].
    intros [= <- <-]. split; [done|]. intros b c' [= <- <-]. destruct Ho as (e & Ho). split; [exists e; naive_solver|].
    split; [by apply not_rejected|]. intros Hb. by destruct (Hb ticket).
  - destruct (streamTicketFallbackForbidden r) eqn:Hfall; [by intros [= <- <-]|].
    assert (Hpath : isNativeAppStreamPath (R_Path r) = true → R_Method r = "GET" → R_Ticket r = None).
    { intros Hn Hm. unfold streamTicketFallbackForbidden in Hfall. rewrite Hn, Hm in Hfall. simpl in Hfall. bool_prop. by apply dec_stable. }
    destruct (authenticatedSessionRequest fails r w1) as [[c|]|] eqn:Hs; [| |by intros [= <- <-]].
    + destruct (policy _ _) eqn:Hp; simpl; [|by intros [= <- <-]]. destruct (rejectHostDataForRole r _) eqn:Hd; [by intros [= <- <-]|].
      intros [= <- <-]. split; [done|]. intros b c' [= <- <-]. rewrite (frame_session _ _ _ _ Hf) in Hs. split; [done|]. split; [by apply not_rejected|done].
    + destruct (IsAPIKeyFormat _).
      * intros Hk. pose proof (key_frame _ _ _ _ _ _ _ Hk) as Hkf. split; [by eapply frame_trans|].
        intros b c ->. apply key_context in Hk as (-> & _ & Hp & Hd & k & Hk). split; [|split; [by apply not_rejected|done]].
        split; [|done]. exists k. by eapply frame_key.
      * intros [-> Hv]%token_spec. split; [done|]. intros b c Hbc. destruct (Hv fails b c Hbc) as (Hadm & Hfl & Hb). split; [|by split].
        destruct b; simpl in *; [by destruct (Hb ticket)|by rewrite <-(frame_session _ _ _ _ Hf)| |done..].
        destruct Hadm as [[k Hk] Hp]. split; [|done]. exists k. by eapply frame_key.
Qed.

(** *** The invariant holds *)

(** A ticket carries the principal it was issued to, with all its restrictions. *)
Record same_principal (c0 c : context) : Prop := {
  sp_user : C_user c = trim_space (C_user c0); sp_role : C_role c = C_role c0; sp_scopes : C_scopes c = C_scopes c0;
  sp_assets : elems (C_assets c) = elems (C_assets c0); sp_apikey : C_apikey c = C_apikey c0; sp_session : C_session c = C_session c0 }.

Lemma ticket_principal e c0 : proper c0 → ticket_of e c0 → same_principal c0 (ticket_context e).
Proof.
  intros [Hs Ho Hr Hx Hk] [Ha Hrole Hsc Has Hkey Hsess]. unfold ticket_context. rewrite Ha, Hrole, Hsc, Has, Hkey, Hsess.
  assert (Hcopy : copy_slice (C_scopes c0) = C_scopes c0) by (apply valid_copy; intros l Hl; by apply Hs).
  pose proof (elems_copy (C_assets c0)) as Hel. pose proof (elems_copy (copy_slice (C_assets c0))) as Hel2.
  destruct (decide (C_scopes c0 = None)) as [Hn|Hn], (decide (copy_slice (C_assets c0) = None)) as [Ham|Ham];
    repeat case_bool_decide; split; simpl; try congruence; try (rewrite Ham in Hel; simpl in Hel; congruence).
Qed.

Lemma same_principal_proper c0 c : proper c0 → same_principal c0 c → proper c.
Proof.
  intros [Hs Ho Hr Hx Hk] [Su Sr Ss Sa Sk Sx]. split; rewrite ?Su, ?Sr, ?Ss, ?Sk, ?Sx; try done. by rewrite trim_space_idemp.
Qed.

Lemma admission_proper policy fails r h w' b c :
  hub_inv h → admission policy fails r (h_world h) w' b c → proper c.
Proof.
  intros [Ha Hk Hp Ht Hu]. destruct b as [ticket| | | |]; simpl.
  - intros (e & He & _ & _ & _ & -> & _). destruct (Ht _ _ He) as (b0 & c0 & at_ & _ & Hin & _ & _ & _ & Hof).
    eapply same_principal_proper, ticket_principal; [by eapply Hp..|done].
  - intros [Hs _]. apply session_context in Hs as (x & u & Hx & _ & _ & Hin & Hid & ->). split; simpl; [done| |apply NormalizeRole_idemp|apply trim_space_idemp|done].
    intros Ho. destruct (user_id_not_owner _ (U_ID u) (ws_allocated _ Ha u Hin) Ho).
  - intros [[k [_ _ _ _ Hsc Hc Hr _]] _]. rewrite Hc. destruct Hr as (Hr & Hne & _). split; simpl.
    + intros s Hs. by rewrite Hs in Hsc.
    + intros Ho. by apply key_actor_not_owner in Ho.
    + done.
    + done.
    + intros _. split; [|done]. intros Hs. by rewrite Hs in Hsc.
  - intros (_ & _ & _ & ->). split; simpl; try done. intros s [= <-]. by vm_compute.
  - intros (_ & _ & ->). by split.
Qed.

Lemma elem_of_trace_snoc (e x : event) tr : e ∈ tr ++ [x] ↔ e ∈ tr ∨ e = x.
Proof. by rewrite elem_of_app, list_elem_of_singleton. Qed.

(** Fewer tickets, the same keys up to their identity, any accounts: what most steps do. *)
Lemma inv_shrink h w ids :
  hub_inv h → wf_store (authStore w) → (∀ id k, apiKeyStore w !! id = Some k → K_ID k = id ∧ id ∈ ids) →
  streamTickets w ⊆ streamTickets (h_world h) → clock (h_world h) <= clock w → hub_inv (MkHub w ids (h_trace h)).
Proof.
  intros [Ha Hk Hp Ht Hu] Hwf Hkeys Hsub Hclk. split; simpl; [done|done|done| |done].
  intros t e He. destruct (Ht t e) as (b & c & at_ & H1' & H2' & H3' & H4' & H5' & H6'); [by eapply lookup_weaken|].
  exists b, c, at_. split_and!; try done. lia.
Qed.

Lemma request_inv policy fails r h w v :
  hub_inv h → withAuthMethodPolicy policy fails r (h_world h) = (w, v) → hub_inv (MkHub w (h_ids h) (h_trace h ++ admitted v)).
Proof.
  intros Hi Hmw. apply middleware_spec in Hmw as [[Fa Fk Fc Ft] Hv].
  assert (Hi' : hub_inv (MkHub w (h_ids h) (h_trace h))).
  { apply inv_shrink; [done|rewrite Fa; apply Hi|rewrite Fk; apply Hi|done|lia]. }
  destruct v as [b c|]; simpl; [|by rewrite app_nil_r]. destruct (Hv b c eq_refl) as (Hadm & _).
  pose proof (admission_proper _ _ _ _ _ _ _ Hi Hadm) as Hprop. destruct Hi' as [Ha Hk Hp Ht Hu]. split; simpl in *; [done|done| | |].
  - intros b' c' [Hin|[= -> ->]]%elem_of_trace_snoc; [by eapply Hp|done].
  - intros t e He. destruct (Ht t e He) as (b' & c' & at_ & H1' & H2' & H3' & H4' & H5' & H6'). exists b', c', at_. rewrite !elem_of_trace_snoc.
    split_and!; try tauto. intros c''. rewrite elem_of_trace_snoc. intros [Hin|[= <- <-]]; [by eapply H3'|].
    destruct Hadm as (e' & _ & _ & _ & _ & _ & Hn & _). congruence.
  - intros t c1 [Hin|[= <- <-]]%elem_of_trace_snoc.
    + destruct (Hu _ _ Hin) as (sid & c'' & at_ & ?). exists sid, c'', at_. rewrite elem_of_trace_snoc. by left.
    + destruct Hadm as (e & He & _). destruct Hi as [_ _ _ Hti _]. destruct (Hti _ _ He) as (b' & c' & at_ & Hin & _).
      exists (T_SessionID e), c', at_. rewrite elem_of_trace_snoc. by left.
Qed.

Lemma issue_inv h b c sessionID ticket w expires :
  hub_inv h → Entered b c ∈ h_trace h → (∀ sid c' t, Issued ticket sid c' t ∉ h_trace h) →
  issueStreamTicket ticket c sessionID (h_world h) = (w, Some expires) →
  hub_inv (MkHub w (h_ids h) (h_trace h ++ [Issued ticket (trim_space sessionID) c (clock (h_world h))])).
Proof.
  intros [Ha Hk Hp Ht Hu] Hin Hfresh. unfold issueStreamTicket. do 2 (case_match; [done|]). intros [= <- <-].
  pose proof (Hp _ _ Hin) as Hprop. split; simpl; [done|done| | |].
  - intros b' c' [Hin'|?]%elem_of_trace_snoc; [by eapply Hp|done].
  - intros t e. destruct (decide (t = ticket)) as [->|Hne].
    + rewrite lookup_insert_eq. intros [= <-]. exists b, c, (clock (h_world h)). simpl. rewrite !elem_of_trace_snoc.
      split_and!; [by right|by left| |lia|done|].
      * intros c'. rewrite elem_of_trace_snoc. intros [Hused|?]; [|done]. destruct (Hu _ _ Hused) as (sid & c'' & at_ & Hiss). by eapply Hfresh.
      * destruct Hprop as [Hs _ Hr _ _]. split; simpl; [done|done|apply valid_copy; intros l Hl; by apply Hs|done..].
    + rewrite lookup_insert_ne by done. intros He.
      destruct (Ht t e) as (b' & c' & at_ & H1' & H2' & H3' & H4' & H5' & H6'); [eapply lookup_weaken; [exact He|apply map_filter_subseteq]|].
      exists b', c', at_. rewrite !elem_of_trace_snoc. split_and!; try tauto. intros c''. rewrite elem_of_trace_snoc. intros [?|?]; [by eapply H3'|done].
  - intros t c' [Hused|?]%elem_of_trace_snoc; [|done]. destruct (Hu _ _ Hused) as (sid & c'' & at_ & ?). exists sid, c'', at_. rewrite elem_of_trace_snoc. by left.
Qed.

Lemma keys_inv h c q generated newID m response ks :
  hub_inv h → newID ∉ h_ids h → serve_keys (clock (h_world h)) generated newID c q (apiKeyStore (h_world h)) = (m, response, ks) →
  ∀ id k, m !! id = Some k → K_ID k = id ∧ id ∈ {[newID]} ∪ h_ids h.
Proof.
  intros Hi Hfresh Hserve id k Hk. destruct Hi as [_ Hkeys _ _ _].
  pose proof (serve_keys_rows (clock (h_world h)) generated newID c q (apiKeyStore (h_world h)) id) as Hrow.
  rewrite Hserve in Hrow. simpl in Hrow. rewrite Hk in Hrow. destruct (apiKeyStore (h_world h) !! id) as [k0|] eqn:Hk0; simpl in Hrow.
  - destruct (Hkeys _ _ Hk0) as [Hid Hin]. destruct Hrow as [->|(_ & Hident & _)]; [set_solver|]. unfold key_identity in Hident.
    split; [congruence|set_solver].
  - destruct Hrow as (-> & <- & _). set_solver.
Qed.

Lemma hub_step_inv h h' : hub_inv h → step h h' → hub_inv h'.
Proof.
  intros Hi Hs. pose proof Hi as [Ha Hk Hp Ht Hu].
  destruct Hs as [policy fails r w v Hmw|b c sid ticket w e Hin Hfr Hiss|b c q gen newID m resp ks Hin Hfr Hkeys|ks|id|a l now Hwf Hclk].
  - by eapply request_inv.
  - by eapply issue_inv.
  - apply inv_shrink; simpl; [done|done|by eapply keys_inv|apply map_filter_subseteq|lia].
  - apply inv_shrink; simpl; [done|done|done|apply map_filter_subseteq|lia].
  - apply inv_shrink; simpl; [done|done| |done|lia]. unfold TouchAPIKeyLastUsed. intros id' k.
    destruct (apiKeyStore (h_world h) !! id) as [k0|] eqn:Hk0; [|apply Hk].
    destruct (decide (id' = id)) as [->|Hne]; [rewrite lookup_insert_eq; intros [= <-]; exact (Hk _ _ Hk0)|rewrite lookup_insert_ne by done; apply Hk].
  - by apply inv_shrink.
Qed.

Lemma reachable_hub_inv h : reachable h → hub_inv h.
Proof.
  intros (h0 & [Ia Ik It Itr] & Hr). assert (Hi : hub_inv h0).
  { split; [exact Ia|exact Ik|rewrite Itr|rewrite It|rewrite Itr].
    - intros b c Hin. by apply not_elem_of_nil in Hin.
    - intros t e Ht. by rewrite lookup_empty in Ht.
    - intros t c Hin. by apply not_elem_of_nil in Hin. }
  revert Hi. clear Ia Ik It Itr. induction Hr as [|h h1 h2 Hs _ IH]; [done|]. intros Hi. by apply IH, (hub_step_inv h).
Qed.

(** ** Who is admitted *)

(** The credential behind a ticket is still good, for the role of the ticket. *)
Definition live_credential (w : world) (c : context) : Prop :=
  (C_user c = "owner" ∧ C_role c = RoleOwner) ∨
  (∃ k, apiKeyStore w !! C_apikey c = Some k ∧ expired (clock w) (K_ExpiresAt k) = false ∧ rank (C_role c) <= rank (NormalizeRole (K_Role k))) ∨
  (∃ x u, x ∈ sessions (authStore w) ∧ S_ID x = C_session c ∧ S_UserID x = C_user c ∧ clock w < S_ExpiresAt x ∧
     u ∈ users (authStore w) ∧ U_ID u = C_user c ∧ rank (C_role c) <= rank (NormalizeRole (U_Role u))).

Definition backed (policy : string → string → bool) (h : hub) (r : request) (b : credential) (c : context) : Prop :=
  let w := h_world h in
  match b with
  | BySession => policy (C_role c) (R_Method r) = true ∧
      ∃ x u, x ∈ sessions (authStore w) ∧ S_TokenHash x = HashToken (ExtractSessionToken r) ∧ clock w < S_ExpiresAt x ∧
        u ∈ users (authStore w) ∧ U_ID u = S_UserID x ∧ c = MkContext (U_ID u) (NormalizeRole (U_Role u)) None None "" (trim_space (S_ID x))
  | ByKey => policy (C_role c) (R_Method r) = true ∧ ∃ k, apiKeyStore w !! C_apikey c = Some k ∧ admitting_key w r k c
  | ByConsole => R_Method r = "GET" ∧ R_Path r = "/settings/runtime" ∧ C_scopes c = Some ["settings:read"] ∧
      ValidateRequest (consoleServiceValidator srv) (R_Authorization r) (R_XToken r) = true
  | ByOwner => policy RoleOwner (R_Method r) = true ∧ ValidateRequest (authValidator srv) (R_Authorization r) (R_XToken r) = true ∧
      C_user c = "owner" ∧ C_role c = RoleOwner
  | ByTicket ticket => R_Method r = "GET" ∧
      ∃ b0 c0 sessionID at_, Entered b0 c0 ∈ h_trace h ∧ Issued ticket sessionID c0 at_ ∈ h_trace h ∧
        (∀ c', Entered (ByTicket ticket) c' ∉ h_trace h) ∧ stream_target (R_Path r) = Some sessionID ∧
        at_ <= clock w <= at_ + streamTicketTTL ∧ same_principal c0 c ∧ live_credential w c
  end.

Lemma active_live fails w c :
  trim_space (C_user c) = C_user c → proper c → streamTicketRequestActive fails w c = true → live_credential w c.
Proof.
  intros Ht [_ Ho Hn _ _]. rewrite Ht in Ho. unfold streamTicketRequestActive, streamTicketPrincipalActive. rewrite Ht.
  case_bool_decide as Hown; [intros _; left; auto|]. case_bool_decide as Hkey; simpl.
  - case_bool_decide as Hsess; [done|]. simpl. destruct (fails ReadTicketUser); [done|]. simpl.
    destruct (GetUserByID _ _) as [u|] eqn:Hu; [|done]. intros [[Hr _]%andb_true_iff (x & Hx & Hlive)%existsb_elem]%andb_true_iff.
    apply andb_true_iff in Hlive as [Hid%bool_decide_eq_true He%Z.ltb_lt]. apply Z.leb_le in Hr.
    apply get_user_some in Hu as [Hin Huid]. apply list_elem_of_filter in Hx as [Hxu Hx].
    right; right. exists x, u. rewrite !streamRoleRank_rank, Hn in Hr. split_and!; done.
  - destruct (fails ReadTicketKey); [done|]. simpl. destruct (GetAPIKey _ _) as [k|] eqn:Hk; [|done]. intros [He Hr]%andb_true_iff.
    apply negb_true_iff in He. apply Z.leb_le in Hr. rewrite !streamRoleRank_rank, Hn in Hr. right; left. by exists k.
Qed.

(** C4: nobody is admitted on more than a credential is worth at that moment.  A session speaks for its user with the
    user's present role; a key within its scopes, and with no more than its own role and the present role of the one who made it, never as
    the owner; a ticket once, for its own stream, within a minute, for the principal it was issued to with all
    restrictions, while that credential is good; the console's token only reads the runtime settings.  Only people are
    unrestricted, and viewers do not reach routes that read host data. *)
Theorem requests_backed h policy fails r w' b c :
  reachable h → withAuthMethodPolicy policy fails r (h_world h) = (w', Admit b c) →
  backed policy h r b c ∧ floor_kept r c ∧ (C_apikey c ≠ "" → C_role c ≠ RoleOwner ∧ ∃ scopes, C_scopes c = Some scopes ∧ ValidateScopes scopes = true).
Proof.
  intros Hr%reachable_hub_inv Hmw. pose proof (middleware_spec _ _ _ _ _ _ Hmw) as [Hf Hv].
  destruct (Hv b c eq_refl) as (Hadm & Hfl & _). pose proof (admission_proper _ _ _ _ _ _ _ Hr Hadm) as Hprop.
  split; [|split; [done|]].
  - destruct b as [ticket| | | |]; simpl in *.
    + destruct Hadm as (e & He & Hexp & Hm & Hpath & -> & _ & Hact). split; [done|].
      destruct (hi_tickets _ Hr _ _ He) as (b0 & c0 & at_ & Hiss & Hin & Hun & Hat & Hex & Hof).
      pose proof (ticket_principal _ _ (hi_proper _ Hr _ _ Hin) Hof) as Hsame.
      exists b0, c0, (T_SessionID e), at_. split_and!; [done..| |done|]; [lia|].
      assert (Hact' : streamTicketRequestActive fails (h_world h) (ticket_context e) = true).
      { destruct Hf as [Fa Fk Fc _]. unfold streamTicketRequestActive, streamTicketPrincipalActive in *. by rewrite Fa, Fk, Fc in Hact. }
      eapply active_live; [|done..]. by rewrite (sp_user _ _ Hsame), trim_space_idemp.
    + destruct Hadm as [Hs Hp]. split; [done|]. by eapply session_context.
    + destruct Hadm as [[k Hk] Hp]. split; [done|]. exists k. split; [|done]. destruct (ak_stored _ _ _ _ Hk) as [id Hid].
      rewrite (ak_context _ _ _ _ Hk). simpl. by rewrite (proj1 (hi_keys _ Hr _ _ Hid)).
    + destruct Hadm as (? & ? & ? & ->). done.
    + destruct Hadm as (? & ? & ->). done.
  - intros Hk. destruct (pr_key _ Hprop Hk) as [Hs Ho]. split; [done|]. destruct (C_scopes c) as [s|] eqn:Hsc; [|done].
    exists s. split; [done|]. by apply (pr_scopes _ Hprop).
Qed.

(** ** Keys over time *)

Lemma step_ids h h' : step h h' → h_ids h ⊆ h_ids h'.
Proof. destruct 1; simpl; set_solver. Qed.

(** A row may go, but neither come back nor become another key. *)
Definition row_kept (before after : option APIKey) : Prop :=
  match before, after with
  | None, Some _ => False
  | Some k, Some k' => key_identity k' = key_identity k
  | _, None => True
  end.

Lemma row_kept_refl o : row_kept o o.
Proof. by destruct o. Qed.

Lemma step_row h h' id :
  hub_inv h → step h h' → id ∈ h_ids h →
  row_kept (apiKeyStore (h_world h) !! id) (apiKeyStore (h_world h') !! id).
Proof.
  intros Hi Hs Hid.
  destruct Hs as [policy fails r w v Hmw|b c sid ticket w e Hin Hfr Hiss|b c q gen newID m resp ks Hin Hfr Hkeys|ks|id'|a l now Hwf Hclk]; simpl; try apply row_kept_refl.
  - apply middleware_spec in Hmw as [[_ Fk _ _] _]. rewrite Fk. apply row_kept_refl.
  - assert (apiKeyStore w = apiKeyStore (h_world h)) as ->; [|apply row_kept_refl]. revert Hiss. unfold issueStreamTicket.
    repeat (case_match; try done). by intros [= <- _].
  - pose proof (serve_keys_rows (clock (h_world h)) gen newID c q (apiKeyStore (h_world h)) id) as Hrow. rewrite Hkeys in Hrow. simpl in Hrow.
    destruct (apiKeyStore (h_world h) !! id) as [k|], (m !! id) as [k'|]; simpl in Hrow; try done.
    + destruct Hrow as [->|(_ & Hident & _)]; done.
    + destruct Hrow as (-> & _). done.
  - unfold TouchAPIKeyLastUsed. destruct (apiKeyStore (h_world h) !! id') as [k0|] eqn:Hk0; [|apply row_kept_refl].
    destruct (decide (id = id')) as [->|Hne]; [rewrite Hk0, lookup_insert_eq; done|rewrite lookup_insert_ne by done; apply row_kept_refl].
Qed.

Lemma steps_row h h' id :
  hub_inv h → rtc step h h' → id ∈ h_ids h →
  hub_inv h' ∧
  row_kept (apiKeyStore (h_world h) !! id) (apiKeyStore (h_world h') !! id).
Proof.
  intros Hi Hr. revert Hi. induction Hr as [h|h h1 h2 Hs _ IH]; intros Hi Hid.
  - split; [done|apply row_kept_refl].
  - pose proof (step_row _ _ _ Hi Hs Hid) as Hrow. destruct IH as [Hi2 Hrow2]; [by eapply hub_step_inv|by apply (step_ids _ _ Hs)|]. split; [done|].
    destruct (apiKeyStore (h_world h) !! id), (apiKeyStore (h_world h1) !! id), (apiKeyStore (h_world h2) !! id); simpl in *; try done. congruence.
Qed.

(** A key is what it was made: as long as it exists its secret, role and creator stay; once it is gone it does not
    come back, and from then on neither the key nor a ticket issued to it admits anybody, whatever happens in between. *)
Theorem ended_key_stays_out h h' id :
  reachable h → rtc step h h' → id ∈ h_ids h → id ≠ "" →
  (∀ k k', apiKeyStore (h_world h) !! id = Some k → apiKeyStore (h_world h') !! id = Some k' → key_identity k' = key_identity k) ∧
  (apiKeyStore (h_world h) !! id = None →
   apiKeyStore (h_world h') !! id = None ∧
   ∀ policy fails r w b c, withAuthMethodPolicy policy fails r (h_world h') = (w, Admit b c) → C_apikey c ≠ id).
Proof.
  intros Hr Hs Hid Hne. pose proof (steps_row h h' id (reachable_hub_inv _ Hr) Hs Hid) as [Hi' Hrow].
  split; [intros k k' Hk Hk'; by rewrite Hk, Hk' in Hrow|]. intros Hnone. rewrite Hnone in Hrow.
  assert (Hgone : apiKeyStore (h_world h') !! id = None) by (by destruct (apiKeyStore (h_world h') !! id)). split; [done|].
  intros policy fails r w b c Hmw Hc. pose proof (middleware_spec _ _ _ _ _ _ Hmw) as [Hf Hv]. destruct (Hv b c eq_refl) as (Hadm & _).
  pose proof (admission_proper _ _ _ _ _ _ _ Hi' Hadm) as Hprop. destruct b as [ticket| | | |]; simpl in *.
  - destruct Hadm as (e & _ & _ & _ & _ & _ & _ & Hact). revert Hact. unfold streamTicketRequestActive, streamTicketPrincipalActive, GetAPIKey.
    case_bool_decide as Hown.
    + intros _. destruct (pr_key _ Hprop) as [_ Ho]; [congruence|]. by apply Ho, (pr_owner _ Hprop).
    + rewrite Hc, bool_decide_eq_false_2 by done. destruct Hf as [_ -> _ _]. rewrite Hgone. simpl. by rewrite andb_false_r.
  - destruct Hadm as [(x & u & _ & _ & _ & _ & _ & ->)%session_context _]. done.
  - destruct Hadm as [[k Hk] _]. destruct (ak_stored _ _ _ _ Hk) as [id' Hid']. destruct (hi_keys _ Hi' _ _ Hid') as [Hkid _].
    rewrite (ak_context _ _ _ _ Hk) in Hc. simpl in Hc. congruence.
  - destruct Hadm as (_ & _ & _ & ->). done.
  - destruct Hadm as (_ & _ & ->). done.
Qed.
End auth.

(** ** A concrete run *)

Definition demo_crypto : Crypto := {|
  compare_hash hash password := bool_decide (hash = String.append "h" password);
  generate_hash _ password := Some (String.append "h" password);
  HashToken token := String.append "t" token;
  DecryptTOTPSecret encrypted := Some encrypted;
  ValidateTOTPCode _ secret code := bool_decide (secret = code) |}.
Definition demo_key_hash : KeyHash := String.append "k".
#[local] Existing Instances demo_crypto demo_key_hash range_in_key_order.

Definition demo_server : server := MkServer true ["owner-token"] ["console-token"].

(** An administrator with a session. *)
Definition demo_accounts : MemoryAuthStore :=
  (CreateAuthSession 0 "user-1" "tone" SessionDuration
     (add_user (new_user 0 "ada" "hsecret" RoleAdmin "local" "" "") NewMemoryAuthStore).1).1.

Lemma demo_accounts_wf : wf_store demo_accounts.
Proof.
  apply wf_create_session; [exists 1%N; split; [reflexivity|vm_compute; discriminate]|].
  apply wf_add_user; [done|intros id Hin; by apply not_elem_of_nil in Hin|done|apply wf_new_store].
Qed.

Definition demo_start : hub := MkHub (MkWorld demo_accounts ∅ ∅ new_limiter 0) ∅ [].

Definition do_request (r : request) (h : hub) : hub :=
  let '(w, v) := withAuth demo_server (λ _, false) r (h_world h) in MkHub w (h_ids h) (h_trace h ++ admitted v).

Lemma do_request_step r h : step demo_server h (do_request r h).
Proof. unfold do_request. destruct (withAuth _ _ _ _) as [w v] eqn:Hw. by eapply step_request. Qed.

(** Requests with the cookie, with the key, and with the ticket. *)
Definition with_cookie : request := MkRequest "POST" "/api/v2/keys" "/api/v2/keys" None "one" "" "" true false false false "10.0.0.9".
Definition with_key : request :=
  MkRequest "POST" "/desktop/sessions/s1/stream-ticket" "/desktop/sessions/s1/stream-ticket" None "" "Bearer lt_abcd_s3cret" "" true false false false "10.0.0.9".
Definition with_ticket : request :=
  MkRequest "GET" "/desktop/sessions/s1/stream" "/desktop/sessions/s1/stream" (Some "tk") "" "" "" true false false false "10.0.0.9".

Definition ada : context := MkContext "user-1" "admin" None None "" "session-2".
Definition key_holder : context := MkContext "apikey:key-1" "operator" (Some ["terminal:*"]) (Some ["nas"]) "key-1" "".

(** Ada makes a key, which obtains a ticket for a desktop. *)
Definition demo_signed_in : hub := do_request with_cookie demo_start.
Definition demo_key_made : hub :=
  let h := demo_signed_in in
  let w := h_world h in
  let '(m, _, ks) := serve_keys 0 (GenerateKey "abcd" "s3cret") "key-1" ada
      (CreateKey (MkCreate "ci" "operator" (Some ["terminal:*"]) (Some ["nas"]) None)) (apiKeyStore w) in
  MkHub (MkWorld (authStore w) m (dropStreamTickets ks (streamTickets w)) (rateLimiter w) (clock w)) ({["key-1"]} ∪ h_ids h) (h_trace h).
Definition demo_key_used : hub := do_request with_key demo_key_made.
Definition demo_ticket_issued : hub :=
  let h := demo_key_used in
  let '(w, _) := issueStreamTicket "tk" key_holder "s1" (h_world h) in
  MkHub w (h_ids h) (h_trace h ++ [Issued "tk" (trim_space "s1") key_holder (clock (h_world h))]).

Lemma demo_trace : h_trace demo_key_used = [Entered BySession ada; Entered ByKey key_holder].
Proof. vm_compute. reflexivity. Qed.

Lemma demo_key_used_reachable : reachable demo_server demo_key_used.
Proof.
  exists demo_start. split.
  - split; [apply demo_accounts_wf|intros id k Hk; simpl in Hk; by rewrite lookup_empty in Hk|done|done].
  - eapply rtc_r; [|apply do_request_step]. eapply rtc_r; [eapply rtc_once, do_request_step|]. fold demo_signed_in.
    assert (Hin : Entered BySession ada ∈ h_trace demo_signed_in) by (vm_compute; left).
    unfold demo_key_made. destruct (serve_keys _ _ _ _ _ _) as [[m resp] ks] eqn:Hk.
    eapply step_keys; [exact Hin|vm_compute; discriminate|exact Hk].
Qed.

Lemma demo_ticket_reachable : reachable demo_server demo_ticket_issued.
Proof.
  destruct demo_key_used_reachable as (h0 & Hi & Hr). exists h0. split; [done|]. eapply rtc_r; [exact Hr|].
  unfold demo_ticket_issued. destruct (issueStreamTicket _ _ _ _) as [w o] eqn:Hiss.
  assert (Ho : o = Some (clock (h_world demo_key_used) + streamTicketTTL)).
  { change o with (w, o).2. rewrite <-Hiss. vm_compute. reflexivity. }
  subst o. apply (step_issue demo_server demo_key_used ByKey key_holder "s1" "tk" w (clock (h_world demo_key_used) + streamTicketTTL)); [..|exact Hiss].
  - rewrite demo_trace. by right; left.
  - intros sid c t. rewrite demo_trace. rewrite !elem_of_cons. intros [?|[?|?%not_elem_of_nil]]; done.
Qed.

Lemma requests_backed_witness :
  ∃ w, withAuth demo_server (λ _, false) with_ticket (h_world demo_ticket_issued) = (w, Admit (ByTicket "tk") key_holder) ∧
    backed demo_server methodAllowedForRole demo_ticket_issued with_ticket (ByTicket "tk") key_holder.
Proof.
  destruct (withAuth demo_server (λ _, false) with_ticket (h_world demo_ticket_issued)) as [w v] eqn:Hw. exists w.
  assert (Hv : v = Admit (ByTicket "tk") key_holder).
  { change v with (w, v).2. rewrite <-Hw. vm_compute. reflexivity. }
  subst v. split; [done|]. apply (requests_backed demo_server demo_ticket_issued _ _ _ _ _ _ demo_ticket_reachable Hw).
Defined.

(** The key is deleted, and stays out. *)
Definition demo_key_gone : hub :=
  let h := demo_ticket_issued in
  let w := h_world h in
  let '(m, _, ks) := serve_keys 0 (GenerateKey "" "") "key-2" ada (RemoveKey "key-1") (apiKeyStore w) in
  MkHub (MkWorld (authStore w) m (dropStreamTickets ks (streamTickets w)) (rateLimiter w) (clock w)) ({["key-2"]} ∪ h_ids h) (h_trace h).

Lemma demo_key_gone_step : step demo_server demo_ticket_issued demo_key_gone.
Proof.
  assert (Hin : Entered BySession ada ∈ h_trace demo_ticket_issued) by (vm_compute; left).
  unfold demo_key_gone. destruct (serve_keys _ _ _ _ _ _) as [[m resp] ks] eqn:Hk.
  eapply step_keys; [exact Hin|vm_compute; discriminate|exact Hk].
Qed.

Lemma demo_key_gone_reachable : reachable demo_server demo_key_gone.
Proof. destruct demo_ticket_reachable as (h0 & Hi & Hr). exists h0. split; [done|]. eapply rtc_r; [exact Hr|apply demo_key_gone_step]. Qed.

Lemma ended_key_stays_out_witness :
  apiKeyStore (h_world demo_key_gone) !! "key-1" = None ∧
  ∀ policy fails r w b c, withAuthMethodPolicy demo_server policy fails r (h_world (do_request with_key demo_key_gone)) = (w, Admit b c) → C_apikey c ≠ "key-1".
Proof.
  assert (Hnone : apiKeyStore (h_world demo_key_gone) !! "key-1" = None) by (vm_compute; reflexivity). split; [done|].
  apply (ended_key_stays_out demo_server demo_key_gone (do_request with_key demo_key_gone) "key-1");
    [apply demo_key_gone_reachable|apply rtc_once, do_request_step|apply (bool_decide_eq_true_1 ("key-1" ∈ h_ids demo_key_gone)); vm_compute; reflexivity|done|done].
Defined.

(** A ticket that an API key obtained outlives the user who made the key: the check of [streamTicketPrincipalActive] looks at
    the key alone, where [apiKeyCreatorCappedRole] would refuse the key itself. *)
Lemma ticket_outlives_creator :
  let h := demo_ticket_issued in
  let w := MkWorld NewMemoryAuthStore (apiKeyStore (h_world h)) (streamTickets (h_world h)) (rateLimiter (h_world h)) (clock (h_world h)) in
  reachable demo_server (MkHub w (h_ids h) (h_trace h)) ∧
  (withAuth demo_server (λ _, false) with_key w).2 = Deny 401 ∧
  (withAuth demo_server (λ _, false) with_ticket w).2 = Admit (ByTicket "tk") key_holder.
Proof.
  split; [|split; vm_compute; reflexivity]. destruct demo_ticket_reachable as (h0 & Hi & Hr). exists h0. split; [done|].
  eapply rtc_r; [exact Hr|]. apply step_accounts; [apply wf_new_store|vm_compute; discriminate].
Qed.
