(* ===== verification/Scrollback.v ===== *)
(** * Terminal scrollback

    [internal/terminal]: the ring of lines that a terminal session keeps
    ([scrollback.go]) and the merge of a stored buffer with what a multiplexer captured
    ([scrollback_merge.go]).  Terminal output is a list of bytes. *)

From S2P Require Import Prelude GoStrings.
From Equations Require Import Equations.

Definition bytes := list ascii.

Definition newline : ascii := "010".
Definition carriage_return : ascii := "013".
Definition escape : ascii := "027".

(** [bytes.IndexByte(data, '\n')], with the data cut after it: the line with its
    newline, and the rest. *)
Fixpoint cut_line (data : bytes) : option (bytes * bytes) :=
  match data with
  | [] => None
  | b :: data =>
      if decide (b = newline) then Some ([b], data)
      else match cut_line data with Some (line, rest) => Some (b :: line, rest) | None => None end
  end.

Lemma cut_line_app data line rest : cut_line data = Some (line, rest) → data = line ++ rest ∧ line ≠ [].
Proof.
  revert line. induction data as [|b data IH]; intros line; simpl; [done|]. case_decide; [by intros [= <- <-]|].
  destruct (cut_line data) as [[line' rest']|]; [|done]. intros [= <- <-]. by destruct (IH line' eq_refl) as [-> _].
Qed.

Lemma cut_line_shorter data line rest : cut_line data = Some (line, rest) → (length rest < length data)%nat.
Proof.
  intros [-> Hl]%cut_line_app. rewrite length_app. destruct line; [done|]. simpl. lia.
Qed.

(** ** The ring *)

(** [lines] has [maxLines] entries, empty until they are first written. *)
Record RingBuffer := MkRing {
  lines : list bytes;
  maxLines : nat;
  head : nat;
  count : nat;
  partial : bytes }.

Definition NewRingBuffer (max : nat) : RingBuffer := MkRing (replicate max []) max 0 0 [].

(** [None] is the panic of an index out of range, on a ring without lines. *)
Definition pushLine (line : bytes) (rb : RingBuffer) : option RingBuffer :=
  if decide (head rb < length (lines rb))%nat then
    Some (MkRing (<[head rb := line]> (lines rb)) (maxLines rb) ((head rb + 1) mod maxLines rb)
            (if decide (count rb < maxLines rb)%nat then S (count rb) else count rb) (partial rb))
  else None.

Definition with_partial (rb : RingBuffer) (p : bytes) : RingBuffer :=
  MkRing (lines rb) (maxLines rb) (head rb) (count rb) p.

(** Remembers what a value was computed from, for a recursion that needs to know. *)
Definition inspect {A} (x : A) : { y | x = y } := exist _ x eq_refl.

(** The loop of [writeLocked]. *)
Equations? write_lines (data : bytes) (rb : RingBuffer) : option RingBuffer by wf (length data) lt :=
  write_lines data rb with inspect (cut_line data) => {
    | exist _ None _ := Some (match data with [] => rb | _ => with_partial rb data end);
    | exist _ (Some (line, rest)) Hcut :=
        match pushLine line rb with Some rb' => write_lines rest rb' | None => None end }.
Proof. by eapply cut_line_shorter. Qed.

(** [data = append(rb.partial, p...)] when there is a partial line. *)
Definition writeLocked (p : bytes) (rb : RingBuffer) : option RingBuffer :=
  match partial rb with
  | [] => write_lines p rb
  | part => write_lines (part ++ p) (with_partial rb [])
  end.

Definition Write (p : bytes) (rb : RingBuffer) : option RingBuffer := writeLocked p rb.

Definition SeedIfEmpty (p : bytes) (rb : RingBuffer) : option (RingBuffer * bool) :=
  if bool_decide (count rb ≠ 0%nat) || bool_decide (partial rb ≠ []) || bool_decide (p = [])
  then Some (rb, false)
  else match writeLocked p rb with Some rb' => Some (rb', true) | None => None end.

(** The lines from the oldest to the newest, in the loop of [Snapshot] and [ByteSize]. *)
Definition stored_lines (rb : RingBuffer) : list bytes :=
  let start := if decide (count rb = maxLines rb) then head rb else 0%nat in
  (λ i, default [] (lines rb !! ((start + i) mod maxLines rb)%nat)) <$> seq 0 (count rb).

Definition Snapshot (rb : RingBuffer) : bytes :=
  if bool_decide (count rb = 0%nat) && bool_decide (partial rb = []) then []
  else concat (stored_lines rb) ++ partial rb.

Definition Lines (rb : RingBuffer) : nat := count rb.

Definition ByteSize (rb : RingBuffer) : nat :=
  foldl (λ size line, (size + length line)%nat) (length (partial rb)) (stored_lines rb).

(** A run of calls. *)
Inductive ring_op := OpWrite (p : bytes) | OpSeed (p : bytes).

Definition ring_exec (rb : RingBuffer) (o : ring_op) : option RingBuffer :=
  match o with
  | OpWrite p => Write p rb
  | OpSeed p => fst <$> SeedIfEmpty p rb
  end.

Fixpoint ring_run (rb : RingBuffer) (os : list ring_op) : option RingBuffer :=
  match os with
  | [] => Some rb
  | o :: os => match ring_exec rb o with Some rb' => ring_run rb' os | None => None end
  end.

(** ** The reference: a stream of bytes, read byte by byte *)

Definition stream_step (st : list bytes * bytes) (b : ascii) : list bytes * bytes :=
  if decide (b = newline) then (st.1 ++ [st.2 ++ [b]], []) else (st.1, st.2 ++ [b]).

(** The complete lines, and what follows the last of them. *)
Definition stream (data : bytes) : list bytes * bytes := foldl stream_step ([], []) data.

(** The bytes that count: a seed only when nothing came before it. *)
Definition received (os : list ring_op) : bytes :=
  foldl (λ data o, match o with OpWrite p => data ++ p | OpSeed p => if decide (data = []) then p else data end) [] os.

Lemma stream_cut st data line rest :
  cut_line data = Some (line, rest) → foldl stream_step st data = foldl stream_step (st.1 ++ [st.2 ++ line], []) rest.
Proof.
  revert st line. induction data as [|b data IH]; intros [ls cur] line; simpl; [done|]. unfold stream_step at 2. simpl.
  case_decide; [by intros [= <- <-]|]. destruct (cut_line data) as [[line' rest']|]; [|done]. intros [= <- <-].
  rewrite (IH _ line') by done. simpl. by rewrite <-app_assoc.
Qed.

Lemma stream_no_cut st data : cut_line data = None → foldl stream_step st data = (st.1, st.2 ++ data).
Proof.
  revert st. induction data as [|b data IH]; intros [ls cur]; simpl; [by rewrite app_nil_r|].
  case_decide; [done|]. destruct (cut_line data) as [[? ?]|]; [done|]. intros _. unfold stream_step at 2.
  rewrite decide_False, IH by done. simpl. by rewrite <-app_assoc.
Qed.

Lemma stream_concat st data : concat (foldl stream_step st data).1 ++ (foldl stream_step st data).2 = concat st.1 ++ st.2 ++ data.
Proof.
  revert st. induction data as [|b data IH]; intros [ls cur]; simpl; [by rewrite app_nil_r|].
  rewrite IH. unfold stream_step. simpl. case_decide; simpl; [|by rewrite <-app_assoc].
  rewrite concat_app. simpl. by rewrite app_nil_r, <-!app_assoc.
Qed.

(** ** The ring keeps the end of the stream *)

(** The ring of [n] lines after the lines [ls] and the unfinished line [cur]. *)
Record ring_is (n : nat) (ls : list bytes) (cur : bytes) (rb : RingBuffer) : Prop := {
  ri_max : maxLines rb = n;
  ri_length : length (lines rb) = n;
  ri_head : head rb = (length ls mod n)%nat;
  ri_count : count rb = Nat.min n (length ls);
  ri_partial : partial rb = cur;
  ri_lines i : (i < length ls)%nat → (length ls ≤ i + n)%nat → lines rb !! (i mod n)%nat = ls !! i }.

Lemma ring_init n : ring_is n [] [] (NewRingBuffer n).
Proof.
  split; simpl; try done; [by rewrite length_replicate|by destruct n; [|rewrite Nat.Div0.mod_0_l]|lia|intros; lia].
Qed.

(** Two lines that are less than [n] apart do not share a slot. *)
Lemma mod_distinct i j n : (i < j)%nat → (j < i + n)%nat → (i mod n ≠ j mod n)%nat.
Proof.
  intros Hij Hn Heq. pose proof (Nat.div_mod_eq i n). pose proof (Nat.div_mod_eq j n).
  destruct (Nat.le_gt_cases (j / n) (i / n)) as [Hle|Hlt].
  - pose proof (Nat.mul_le_mono_l _ _ n Hle). lia.
  - pose proof (Nat.mul_le_mono_l (S (i / n)) _ n Hlt). lia.
Qed.

Lemma push_ring n ls cur rb line :
  (0 < n)%nat → ring_is n ls cur rb → ∃ rb', pushLine line rb = Some rb' ∧ ring_is n (ls ++ [line]) cur rb'.
Proof.
  intros Hn [Hm Hl Hh Hc Hp Hls]. unfold pushLine.
  assert (Hlt : (length ls mod n < n)%nat) by by apply Nat.mod_upper_bound, Nat.neq_0_lt_0.
  rewrite decide_True by (rewrite Hh, Hl; exact Hlt). eexists. split; [done|].
  split; simpl; rewrite ?length_app, ?length_insert; simpl; try done.
  - rewrite Hh, Hm. by rewrite Nat.Div0.add_mod_idemp_l.
  - rewrite Hc, Hm. case_decide; lia.
  - intros i Hi Hi'. rewrite Hh. destruct (decide (i = length ls)) as [->|Hne].
    + rewrite list_lookup_insert_eq by lia. by rewrite lookup_app_r, Nat.sub_diag.
    + rewrite list_lookup_insert_ne by (apply not_eq_sym, mod_distinct; lia).
      rewrite lookup_app_l by lia. apply Hls; lia.
Qed.

Lemma with_partial_ring n ls cur cur' rb : ring_is n ls cur rb → ring_is n ls cur' (with_partial rb cur').
Proof. by intros [? ? ? ? ? ?]; split. Qed.

Lemma write_lines_ring n ls data rb :
  (0 < n)%nat → ring_is n ls [] rb →
  ∃ rb', write_lines data rb = Some rb' ∧
    ring_is n (foldl stream_step (ls, []) data).1 (foldl stream_step (ls, []) data).2 rb'.
Proof.
  intros Hn. revert ls. funelim (write_lines data rb); intros ls Hr; clear Heqcall.
  - destruct (push_ring n ls [] rb line Hn Hr) as (rb' & Hp & Hr'). rewrite Hp.
    rewrite (stream_cut _ _ line rest) by done. by apply (H rb' n).
  - rewrite (stream_no_cut _ data) by done. eexists. split; [done|]. simpl.
    destruct data; [done|]. by eapply with_partial_ring.
Qed.

(** A partial line never holds a newline. *)
Lemma stream_app st data data' : foldl stream_step st (data ++ data') = foldl stream_step (foldl stream_step st data) data'.
Proof. apply foldl_app. Qed.

Lemma stream_partial_no_newline st data :
  newline ∉ st.2 → newline ∉ (foldl stream_step st data).2.
Proof.
  revert st. induction data as [|b data IH]; intros [ls cur] Hn; simpl; [done|]. apply IH. unfold stream_step. simpl.
  case_decide; simpl; [set_solver|]. simpl in Hn. rewrite elem_of_app, list_elem_of_singleton. naive_solver.
Qed.

Lemma stream_feed ls cur : newline ∉ cur → foldl stream_step (ls, []) cur = (ls, cur).
Proof.
  intros Hn. rewrite stream_no_cut; [done|]. clear ls. induction cur as [|b cur IH]; [done|]. simpl.
  rewrite decide_False by set_solver. by rewrite IH by set_solver.
Qed.

Lemma write_ring n data p rb :
  (0 < n)%nat → ring_is n (stream data).1 (stream data).2 rb →
  ∃ rb', writeLocked p rb = Some rb' ∧ ring_is n (stream (data ++ p)).1 (stream (data ++ p)).2 rb'.
Proof.
  intros Hn Hr. unfold writeLocked. rewrite (ri_partial _ _ _ _ Hr). unfold stream in *. rewrite stream_app.
  assert (Hno : newline ∉ (foldl stream_step ([], []) data).2) by (apply stream_partial_no_newline; set_solver).
  destruct (foldl stream_step ([], []) data) as [ls cur]. simpl in *. destruct cur as [|b cur].
  - by apply write_lines_ring.
  - destruct (write_lines_ring n ls ((b :: cur) ++ p) (with_partial rb []) Hn) as (rb' & Hw & Hr').
    { by eapply with_partial_ring. }
    exists rb'. split; [done|]. by rewrite stream_app, stream_feed in Hr' by done.
Qed.

Lemma stream_empty data : stream data = ([], []) ↔ data = [].
Proof.
  split; [|by intros ->]. intros Hs. pose proof (stream_concat ([], []) data) as Hc.
  unfold stream in Hs. rewrite Hs in Hc. by symmetry.
Qed.

Lemma ring_empty n data rb :
  (0 < n)%nat → ring_is n (stream data).1 (stream data).2 rb → (count rb = 0%nat ∧ partial rb = [] ↔ data = []).
Proof.
  intros Hn [_ _ _ Hc Hp _]. rewrite Hc, Hp, <-(stream_empty data). destruct (stream data) as [ls cur]. simpl. split.
  - intros [Hl ->]. destruct ls; [done|]. simpl in Hl. lia.
  - intros [= -> ->]. simpl. by rewrite Nat.min_0_r.
Qed.

Lemma exec_ring n data o rb :
  (0 < n)%nat → ring_is n (stream data).1 (stream data).2 rb →
  let data' := match o with OpWrite p => data ++ p | OpSeed p => if decide (data = []) then p else data end in
  ∃ rb', ring_exec rb o = Some rb' ∧ ring_is n (stream data').1 (stream data').2 rb'.
Proof.
  intros Hn Hr. destruct o as [p|p]; simpl; [by apply write_ring|]. unfold SeedIfEmpty.
  pose proof (ring_empty n data rb Hn Hr) as Hemp. destruct (decide (data = [])) as [->|Hne].
  - destruct (proj2 Hemp eq_refl) as [-> ->]. simpl. case_bool_decide; [subst; by exists rb|].
    destruct (write_ring n [] p rb Hn Hr) as (rb' & Hw & Hr'). rewrite Hw. by exists rb'.
  - exists rb. split; [|done].
    assert (bool_decide (count rb ≠ 0%nat) || bool_decide (partial rb ≠ []) = true) as ->; [|done].
    apply not_false_iff_true. rewrite orb_false_iff, !bool_decide_eq_false. intros [H1 H2]. apply Hne, Hemp.
    split; by apply dec_stable.
Qed.

Lemma run_ring n data os rb :
  (0 < n)%nat → ring_is n (stream data).1 (stream data).2 rb →
  let data' := foldl (λ data o, match o with OpWrite p => data ++ p | OpSeed p => if decide (data = []) then p else data end) data os in
  ∃ rb', ring_run rb os = Some rb' ∧ ring_is n (stream data').1 (stream data').2 rb'.
Proof.
  intros Hn. revert data rb. induction os as [|o os IH]; intros data rb Hr; simpl; [by exists rb|].
  destruct (exec_ring n data o rb Hn Hr) as (rb' & -> & Hr'). by apply IH.
Qed.

Lemma stored_ring n ls cur rb :
  (0 < n)%nat → ring_is n ls cur rb → stored_lines rb = drop (length ls - n) ls.
Proof.
  intros Hn [Hm Hl Hh Hc Hp Hls]. unfold stored_lines. rewrite Hc, Hm, Hh. apply list_eq. intros i.
  rewrite list_lookup_fmap, lookup_drop.
  destruct (decide (i < Nat.min n (length ls))%nat) as [Hi|Hi].
  - rewrite lookup_seq_lt by done. simpl. case_decide as Hfull.
    + rewrite Nat.Div0.add_mod_idemp_l.
      replace (length ls + i)%nat with ((length ls - n + i) + 1 * n)%nat by lia.
      rewrite Nat.Div0.mod_add, Hls by lia.
      destruct (lookup_lt_is_Some_2 ls (length ls - n + i)) as [x ->]; [lia|done].
    + replace (length ls - n)%nat with 0%nat by lia. simpl. rewrite Hls by lia.
      destruct (lookup_lt_is_Some_2 ls i) as [x ->]; [lia|done].
  - rewrite lookup_seq_ge by lia. simpl. symmetry. apply lookup_ge_None_2. lia.
Qed.

Lemma byte_size_concat size (ls : list bytes) : foldl (λ size line, (size + length line)%nat) size ls = (size + length (concat ls))%nat.
Proof.
  revert size. induction ls as [|l ls IH]; intros size; simpl; [lia|]. rewrite IH, length_app. lia.
Qed.

(** C30: a ring of [n] lines is the end of a stream: however the bytes were cut into writes, it never panics; it
    shows the last [n] complete lines of everything written and then the unfinished line, in the order
    written; [Lines] and [ByteSize] count exactly what is shown; and a seed counts only when nothing was written before it. *)
Theorem ring_refines_stream n os :
  (0 < n)%nat →
  ∃ rb, ring_run (NewRingBuffer n) os = Some rb ∧
    let '(ls, cur) := stream (received os) in
    concat ls ++ cur = received os ∧
    Snapshot rb = concat (drop (length ls - n) ls) ++ cur ∧
    Lines rb = Nat.min n (length ls) ∧ ByteSize rb = length (Snapshot rb).
Proof.
  intros Hn. destruct (run_ring n [] os _ Hn (ring_init n)) as (rb & Hrun & Hr). exists rb. split; [done|].
  fold (received os) in Hr. pose proof (stream_concat ([], []) (received os)) as Hc. fold (stream (received os)) in Hc.
  destruct (stream (received os)) as [ls cur]. simpl in *. split; [done|].
  pose proof (stored_ring _ _ _ _ Hn Hr) as Hst. pose proof (ri_partial _ _ _ _ Hr) as Hp.
  assert (Hsnap : Snapshot rb = concat (drop (length ls - n) ls) ++ cur).
  { unfold Snapshot. rewrite Hst, Hp. case_bool_decide as Hz; [|done]. case_bool_decide; [|done]. subst. simpl.
    rewrite (ri_count _ _ _ _ Hr) in Hz. by replace ls with (@nil bytes) by (destruct ls; [done|simpl in Hz; lia]). }
  split_and!; [done|by rewrite <-(ri_count _ _ _ _ Hr)|].
  unfold ByteSize. rewrite byte_size_concat, Hst, Hp, Hsnap, length_app. lia.
Qed.

(** A ring of two lines: three lines in four pieces and the start of a fourth. *)
Lemma ring_refines_stream_witness :
  ∃ rb, ring_run (NewRingBuffer 2) [OpSeed (chars "a"); OpWrite (newline :: chars "b"); OpSeed (chars "x");
                                    OpWrite (newline :: chars "c"); OpWrite (newline :: chars "d")] = Some rb ∧
        Snapshot rb = chars "b" ++ [newline] ++ chars "c" ++ [newline] ++ chars "d" ∧ Lines rb = 2%nat.
Proof.
  destruct (ring_refines_stream 2 [OpSeed (chars "a"); OpWrite (newline :: chars "b"); OpSeed (chars "x");
              OpWrite (newline :: chars "c"); OpWrite (newline :: chars "d")]) as (rb & Hrun & _ & Hs & Hl & _); [lia|].
  exists rb. split; [exact Hrun|]. split; [rewrite Hs; vm_compute; reflexivity|rewrite Hl; vm_compute; reflexivity].
Defined.

(** ** Merging a stored buffer with a capture *)

Definition is_param (c : ascii) : bool :=
  ((48 <=? byte_of c) && (byte_of c <=? 57))%N || bool_decide (c = ";"%char).
Definition is_letter (c : ascii) : bool :=
  ((97 <=? byte_of c) && (byte_of c <=? 122))%N || ((65 <=? byte_of c) && (byte_of c <=? 90))%N.

(** The rest of [\x1b\[[0-9;]*[a-zA-Z]] after its first two bytes: what follows the match. *)
Fixpoint match_params (s : bytes) : option bytes :=
  match s with
  | [] => None
  | c :: s => if is_param c then match_params s else if is_letter c then Some s else None
  end.

(** What follows a match at the start of [s]. *)
Definition match_ansi (s : bytes) : option bytes :=
  match s with
  | c :: d :: s => if decide (c = escape ∧ d = "["%char) then match_params s else None
  | _ => None
  end.

Lemma match_params_shorter s rest : match_params s = Some rest → (length rest < length s)%nat.
Proof.
  induction s as [|c s IH]; simpl; [done|]. destruct (is_param c); [intros ?%IH; lia|].
  destruct (is_letter c); [|done]. intros [= ->]. lia.
Qed.

Lemma match_ansi_shorter s rest : match_ansi s = Some rest → (length rest < length s)%nat.
Proof.
  destruct s as [|c [|d s]]; simpl; [done|done|]. case_decide; [|done]. intros ?%match_params_shorter. lia.
Qed.

(** [ansiRegex.ReplaceAllString(s, ...)] with the empty string. *)
Equations? StripANSI (s : bytes) : bytes by wf (length s) lt :=
  StripANSI [] := [];
  StripANSI (c :: s) with inspect (match_ansi (c :: s)) => {
    | exist _ (Some rest) Hm := StripANSI rest;
    | exist _ None _ := c :: StripANSI s }.
Proof. exact (match_ansi_shorter (c :: s) rest Hm). Qed.

Equations? splitLines (data : bytes) : list bytes by wf (length data) lt :=
  splitLines data with inspect (cut_line data) => {
    | exist _ None _ := match data with [] => [] | _ => [data] end;
    | exist _ (Some (line, rest)) Hcut := line :: splitLines rest }.
Proof. by eapply cut_line_shorter. Qed.

(** [strings.TrimRight(s, "\r\n")] *)
Fixpoint trim_right_crlf (s : bytes) : bytes :=
  match s with
  | [] => []
  | c :: s =>
      match trim_right_crlf s with
      | [] => if decide (c = newline ∨ c = carriage_return) then [] else [c]
      | t => c :: t
      end
  end.

Definition slicesEqual (a b : list bytes) : bool :=
  bool_decide (length a = length b) && bool_decide (trim_right_crlf <$> a = trim_right_crlf <$> b).

Definition mergeOverlapWindow : nat := 100.

(** The lines without their escape sequences. *)
Definition plain (ls : list bytes) : list bytes := StripANSI <$> ls.

Definition overlaps (a b : list bytes) (n : nat) : bool := slicesEqual (drop (length a - n) a) (take n b).

(** The search from the longest overlap down. *)
Fixpoint match_length (a b : list bytes) (n : nat) : nat :=
  match n with
  | O => O
  | S n' => if overlaps a b n then n else match_length a b n'
  end.

Definition stored_tail (stored : bytes) : list bytes :=
  let ls := splitLines stored in plain (drop (length ls - mergeOverlapWindow) ls).
Definition capture_head (capture : bytes) : list bytes := plain (take mergeOverlapWindow (splitLines capture)).

Definition reconnected : bytes := chars "--- reconnected ---" ++ [newline].

Definition MergeScrollback (stored tmuxCapture : bytes) : bytes :=
  match stored, tmuxCapture with
  | _, [] => stored
  | [], _ => tmuxCapture
  | _, _ =>
      let a := stored_tail stored in
      let b := capture_head tmuxCapture in
      match match_length a b (Nat.min (length a) (length b)) with
      | O => stored ++ reconnected ++ tmuxCapture
      | n => stored ++ concat (drop n (splitLines tmuxCapture))
      end
  end.

Lemma split_lines_concat data : concat (splitLines data) = data.
Proof.
  funelim (splitLines data); clear Heqcall.
  - simpl. rewrite H. by destruct (cut_line_app _ _ _ Hcut) as [-> _].
  - destruct data; [done|]. simpl. by rewrite app_nil_r.
Qed.

Lemma match_length_spec a b n :
  let k := match_length a b n in
  (k ≤ n)%nat ∧ (k ≠ 0%nat → overlaps a b k = true) ∧ (∀ k', (k < k' ≤ n)%nat → overlaps a b k' = false).
Proof.
  induction n as [|n (IH1 & IH2 & IH3)]; simpl; [split_and!; [done|done|lia]|].
  destruct (overlaps a b (S n)) eqn:Ho; [split_and!; [done|done|lia]|].
  split_and!; [lia|done|]. intros k' Hk. destruct (decide (k' = S n)) as [->|]; [done|]. apply IH3. lia.
Qed.

(** A merge keeps the stored bytes and appends the capture without its first [n] lines, where [n] is the
    longest overlap, up to the window: the last [n] stored lines and the first [n] captured lines agree
    up to escape sequences and line ends, and no longer overlap does; without one, the whole capture
    follows a marker. *)
Theorem merge_scrollback_spec stored capture :
  stored ≠ [] → capture ≠ [] →
  ∃ n seen rest,
    (n ≤ mergeOverlapWindow)%nat ∧ capture = seen ++ rest ∧ seen = concat (take n (splitLines capture)) ∧
    (n ≠ 0%nat → overlaps (stored_tail stored) (capture_head capture) n = true) ∧
    (∀ n', (n < n' ≤ length (stored_tail stored))%nat → (n' ≤ length (capture_head capture))%nat →
       overlaps (stored_tail stored) (capture_head capture) n' = false) ∧
    MergeScrollback stored capture = stored ++ (if decide (n = 0%nat) then reconnected else []) ++ rest.
Proof.
  intros Hs Hc. set (a := stored_tail stored). set (b := capture_head capture).
  destruct (match_length_spec a b (Nat.min (length a) (length b))) as (Hle & Hov & Hmax).
  set (n := match_length a b (Nat.min (length a) (length b))) in *.
  exists n, (concat (take n (splitLines capture))), (concat (drop n (splitLines capture))).
  split_and!; [| |done|done| |].
  - assert (length b ≤ mergeOverlapWindow)%nat; [|lia]. unfold b, capture_head, plain.
    rewrite length_fmap, length_take. lia.
  - by rewrite <-concat_app, take_drop, split_lines_concat.
  - intros n' H1 H2. apply Hmax. lia.
  - unfold MergeScrollback. destruct stored as [|x stored]; [done|]. destruct capture as [|y capture]; [done|].
    fold a b n. destruct n as [|n]; simpl; [|done]. by rewrite drop_0, split_lines_concat.
Qed.

Definition text (s : string) : bytes := chars s ++ [newline].

Lemma merge_scrollback_spec_witness :
  MergeScrollback (text "line1" ++ text "line2") (text "line2" ++ text "line3") = text "line1" ++ text "line2" ++ text "line3" ∧
  ∃ n seen rest, text "line2" ++ text "line3" = seen ++ rest ∧
    MergeScrollback (text "line1" ++ text "line2") (text "line2" ++ text "line3") =
      (text "line1" ++ text "line2") ++ (if decide (n = 0%nat) then reconnected else []) ++ rest.
Proof.
  split; [vm_compute; reflexivity|].
  destruct (merge_scrollback_spec (text "line1" ++ text "line2") (text "line2" ++ text "line3"))
    as (n & seen & rest & _ & Hc & _ & _ & _ & Hm); [discriminate|discriminate|].
  exists n, seen, rest. split; [exact Hc|exact Hm].
Defined.

(** When the stored bytes end inside a line, the line end of the matching captured line is among
    the bytes that are dropped, and the next captured line continues that line. *)
Lemma merge_joins_unfinished_line :
  MergeScrollback (chars "ready") (text "ready" ++ text "done") = text "readydone".
Proof. vm_compute. reflexivity. Qed.
