(* ===== verification/Groups.v ===== *)
(** * Groups of assets

    [internal/groups], the in-memory group store
    ([internal/persistence/memory_group_store.go]), the assembly of the tree
    ([buildGroupTree] of [postgres_group_store.go], which both stores use) and the
    handlers that move and change groups ([hubapi/resources/groups_handlers.go]).

    Groups point to their parents by id.  Nothing in the store keeps the pointers free of
    cycles; the walks along them are fuelled here, and the theorems say when they end:
    [IsAncestor] always, [computeDepth] of [GetGroupTree] exactly for a store without a cycle. *)

From S2P Require Import Prelude GoStrings.

(** ** Data *)

(** A [float64], by its bits: coordinates are only copied. *)
Definition float64 := Z.

(** [G_JumpChain] is the raw JSON, empty for [nil]. *)
Record Group := MkGroup {
  G_ID : string; G_Name : string; G_Slug : string; G_ParentGroupID : string; G_Icon : string;
  G_SortOrder : Z; G_Timezone : string; G_Location : string;
  G_Latitude : option float64; G_Longitude : option float64;
  G_Metadata : gmap string string; G_JumpChain : string;
  G_CreatedAt : time; G_UpdatedAt : time }.

Record CreateRequest := MkCreateGroup {
  CG_Name : string; CG_Slug : string; CG_ParentGroupID : string; CG_Icon : string;
  CG_SortOrder : Z; CG_Timezone : string; CG_Location : string;
  CG_Latitude : option float64; CG_Longitude : option float64;
  CG_Metadata : gmap string string; CG_JumpChain : string }.

Record UpdateRequest := MkUpdateGroup {
  UG_Name : option string; UG_Slug : option string; UG_ParentGroupID : option string;
  UG_Icon : option string; UG_SortOrder : option Z; UG_Timezone : option string;
  UG_Location : option string; UG_Latitude : option float64; UG_Longitude : option float64;
  UG_Metadata : option (gmap string string); UG_JumpChain : option string }.

Inductive TreeNode := MkTreeNode { T_Group : Group; T_Children : list TreeNode; T_Depth : Z }.

(** [RR_Factors] is the JSON text of the factors. *)
Record ReliabilityRecord := MkReliability {
  RR_ID : string; RR_GroupID : string; RR_Score : Z; RR_Grade : string; RR_Factors : string;
  RR_WindowHours : Z; RR_ComputedAt : time }.

Record MemoryGroupStore := MkGroupStore {
  groups : gmap string Group;
  reliabilityHistory : gmap string (list ReliabilityRecord) }.

Definition NewMemoryGroupStore : MemoryGroupStore := MkGroupStore ∅ ∅.

Inductive group_error := ErrNotFound | ErrContext | ErrCycle | ErrOwnParent | ErrNameRequired.

(** ** Slugs *)

Definition slug_char (c : ascii) : bool :=
  ((97 <=? byte_of c) && (byte_of c <=? 122))%N || ((48 <=? byte_of c) && (byte_of c <=? 57))%N
  || bool_decide (c = "-"%char).

(** [strings.Trim(s, "-")] *)
Fixpoint trim_left_dashes (s : list ascii) : list ascii :=
  match s with
  | c :: s' => if decide (c = "-"%char) then trim_left_dashes s' else s
  | [] => []
  end.
Definition trim_dashes (s : list ascii) : list ascii :=
  rev (trim_left_dashes (rev (trim_left_dashes s))).

Definition slugify (name : string) : string :=
  let s := lower_l (chars (trim_space name)) in
  let s := (λ c, if decide (c = " "%char) then "-"%char else c) <$> s in
  let s := List.filter slug_char s in
  let s := of_chars (trim_dashes s) in
  default_str s "group".

(** ** Operations of the store *)

Definition CreateGroup (now : time) (newid : string) (req : CreateRequest) (m : MemoryGroupStore) :
    MemoryGroupStore * Group :=
  let slug := trim_space (CG_Slug req) in
  let slug := if is_empty slug then slugify (CG_Name req) else slug in
  let g := {|
    G_ID := newid; G_Name := trim_space (CG_Name req); G_Slug := slug;
    G_ParentGroupID := trim_space (CG_ParentGroupID req); G_Icon := trim_space (CG_Icon req);
    G_SortOrder := CG_SortOrder req; G_Timezone := trim_space (CG_Timezone req);
    G_Location := trim_space (CG_Location req); G_Latitude := CG_Latitude req;
    G_Longitude := CG_Longitude req; G_Metadata := CG_Metadata req;
    G_JumpChain := CG_JumpChain req; G_CreatedAt := now; G_UpdatedAt := now |} in
  (MkGroupStore (<[newid := g]> (groups m)) (reliabilityHistory m), g).

Definition GetGroup (id : string) (m : MemoryGroupStore) : option Group := groups m !! trim_space id.

(** [*req.F] trimmed where it is given, the old value where it is [nil]. *)
Definition update_text (old : string) (new : option string) : string :=
  match new with Some v => trim_space v | None => old end.
Definition update_opt {A} (old : option A) (new : option A) : option A :=
  match new with Some v => Some v | None => old end.

Definition updated_group (now : time) (req : UpdateRequest) (g : Group) : Group := {|
  G_ID := G_ID g; G_Name := update_text (G_Name g) (UG_Name req);
  G_Slug := update_text (G_Slug g) (UG_Slug req);
  G_ParentGroupID := update_text (G_ParentGroupID g) (UG_ParentGroupID req);
  G_Icon := update_text (G_Icon g) (UG_Icon req);
  G_SortOrder := default (G_SortOrder g) (UG_SortOrder req);
  G_Timezone := update_text (G_Timezone g) (UG_Timezone req);
  G_Location := update_text (G_Location g) (UG_Location req);
  G_Latitude := update_opt (G_Latitude g) (UG_Latitude req);
  G_Longitude := update_opt (G_Longitude g) (UG_Longitude req);
  G_Metadata := default (G_Metadata g) (UG_Metadata req);
  G_JumpChain := default (G_JumpChain g) (UG_JumpChain req);
  G_CreatedAt := G_CreatedAt g; G_UpdatedAt := now |}.

Definition UpdateGroup (now : time) (id : string) (req : UpdateRequest) (m : MemoryGroupStore) :
    MemoryGroupStore * result group_error Group :=
  let id := trim_space id in
  match groups m !! id with
  | None => (m, Err ErrNotFound)
  | Some g =>
      let g := updated_group now req g in
      (MkGroupStore (<[id := g]> (groups m)) (reliabilityHistory m), Ok g)
  end.

(** A child of the deleted group goes to its parent. *)
Definition reparent (now : time) (id parent : string) (child : Group) : Group :=
  if decide (G_ParentGroupID child = id) then {|
    G_ID := G_ID child; G_Name := G_Name child; G_Slug := G_Slug child; G_ParentGroupID := parent;
    G_Icon := G_Icon child; G_SortOrder := G_SortOrder child; G_Timezone := G_Timezone child;
    G_Location := G_Location child; G_Latitude := G_Latitude child; G_Longitude := G_Longitude child;
    G_Metadata := G_Metadata child; G_JumpChain := G_JumpChain child;
    G_CreatedAt := G_CreatedAt child; G_UpdatedAt := now |}
  else child.

Definition DeleteGroup (now : time) (id : string) (m : MemoryGroupStore) :
    MemoryGroupStore * result group_error unit :=
  let id := trim_space id in
  match groups m !! id with
  | None => (m, Err ErrNotFound)
  | Some g =>
      (MkGroupStore (delete id (reparent now id (G_ParentGroupID g) <$> groups m))
         (delete id (reliabilityHistory m)), Ok tt)
  end.

(** The walk of [IsAncestor]; [None] when the fuel is used up. *)
Fixpoint walk_up (fuel : nat) (gs : gmap string Group) (candidate current : string) (visited : gset string) :
    option bool :=
  match fuel with
  | O => None
  | S fuel =>
      match gs !! current with
      | None => Some false
      | Some g =>
          let parent := G_ParentGroupID g in
          if is_empty parent then Some false
          else if decide (parent = candidate) then Some true
          else if decide (parent ∈ visited) then Some false
          else walk_up fuel gs candidate parent ({[parent]} ∪ visited)
      end
  end.

Definition ancestor_fuel (gs : gmap string Group) : nat := S (S (size gs)).

Definition IsAncestor (candidateAncestorID descendantID : string) (m : MemoryGroupStore) : option bool :=
  let candidate := trim_space candidateAncestorID in
  let descendant := trim_space descendantID in
  if is_empty candidate || is_empty descendant then Some false
  else walk_up (ancestor_fuel (groups m)) (groups m) candidate descendant ∅.

(** ** The tree *)

Section tree.
Context `{MapRange}.

Definition group_before (x y : Group) : Prop :=
  G_SortOrder x < G_SortOrder y ∨ G_SortOrder x = G_SortOrder y ∧ String.le (G_Name x) (G_Name y).

#[export] Instance group_before_dec : RelDecision group_before.
Proof. intros x y. unfold group_before. apply _. Defined.

Definition ListGroups (m : MemoryGroupStore) : list Group := merge_sort group_before (range (groups m)).*2.

(** [computeDepth] with its memo table; [None] when the fuel is used up. *)
Fixpoint computeDepth (fuel : nat) (byID : gmap string Group) (id : string) (depthOf : gmap string Z) :
    option (Z * gmap string Z) :=
  match fuel with
  | O => None
  | S fuel =>
      match depthOf !! id with
      | Some d => Some (d, depthOf)
      | None =>
          match byID !! id with
          | Some g =>
              if is_empty (G_ParentGroupID g) then Some (0, <[id := 0]> depthOf)
              else
                match computeDepth fuel byID (G_ParentGroupID g) depthOf with
                | Some (d, depthOf) => Some (d + 1, <[id := d + 1]> depthOf)
                | None => None
                end
          | None => Some (0, <[id := 0]> depthOf)
          end
      end
  end.

(** The loop over all groups. *)
Fixpoint compute_depths (fuel : nat) (byID : gmap string Group) (all : list Group) (depthOf : gmap string Z) :
    option (gmap string Z) :=
  match all with
  | [] => Some depthOf
  | g :: all =>
      match computeDepth fuel byID (G_ID g) depthOf with
      | Some (_, depthOf) => compute_depths fuel byID all depthOf
      | None => None
      end
  end.

Record groupFlatEntry := MkFlat { fe_group : Group; fe_depth : Z }.

Definition flat_before (x y : groupFlatEntry) : Prop :=
  fe_depth x < fe_depth y ∨ fe_depth x = fe_depth y ∧ group_before (fe_group x) (fe_group y).

#[export] Instance flat_before_dec : RelDecision flat_before.
Proof. intros x y. unfold flat_before. apply _. Defined.

(** [buildGroupTree].  The nodes are shared pointers: a node is found by the id of
    its group, and [children] of a node are ids of nodes. *)
Record treeNodePtr := MkNode { n_group : Group; n_depth : Z; n_children : list string }.

Record tree_state := MkTree { nodeMap : gmap string treeNodePtr; roots : list string }.

Definition add_entry (t : tree_state) (entry : groupFlatEntry) : tree_state :=
  let g := fe_group entry in
  let nodes := <[G_ID g := MkNode g (fe_depth entry) []]> (nodeMap t) in
  if is_empty (G_ParentGroupID g) then MkTree nodes (roots t ++ [G_ID g])
  else
    match nodes !! G_ParentGroupID g with
    | Some parent =>
        MkTree (<[G_ParentGroupID g := MkNode (n_group parent) (n_depth parent) (n_children parent ++ [G_ID g])]> nodes) (roots t)
    | None => MkTree nodes (roots t)
    end.

(** [toTreeNode]; [None] when the fuel is used up, or for a pointer to nothing. *)
Fixpoint toTreeNode (fuel : nat) (nodes : gmap string treeNodePtr) (id : string) : option TreeNode :=
  match fuel with
  | O => None
  | S fuel =>
      n ← nodes !! id;
      children ← mapM (toTreeNode fuel nodes) (n_children n);
      Some (MkTreeNode (n_group n) children (n_depth n))
  end.

Definition buildGroupTree (flat : list groupFlatEntry) : option (list TreeNode) :=
  let t := foldl add_entry (MkTree ∅ []) flat in
  mapM (toTreeNode (S (length flat)) (nodeMap t)) (roots t).

(** The fuel bounds the depth of the recursion. *)
Definition GetGroupTree (fuel : nat) (m : MemoryGroupStore) : option (list TreeNode) :=
  let all := ListGroups m in
  let byID := list_to_map ((λ g, (G_ID g, g)) <$> rev all) : gmap string Group in
  depthOf ← compute_depths fuel byID all ∅;
  let flat := (λ g, MkFlat g (default 0 (depthOf !! G_ID g))) <$> all in
  buildGroupTree (merge_sort flat_before flat).

End tree.

(** ** The handlers *)

(** [handleGroupMove], with nothing between the check and the update. *)
Definition handleGroupMove (now : time) (groupID parentGroupID : string) (m : MemoryGroupStore) :
    option (MemoryGroupStore * result group_error Group) :=
  let groupID := trim_space groupID in
  let newParentID := trim_space parentGroupID in
  let update := Some (UpdateGroup now groupID
    (MkUpdateGroup None None (Some newParentID) None None None None None None None None) m) in
  if decide (newParentID = groupID) then Some (m, Err ErrOwnParent)
  else if is_empty newParentID then update
  else match IsAncestor groupID newParentID m with
       | Some true => Some (m, Err ErrCycle)
       | Some false => update
       | None => None
       end.

Definition handleGroupReorder (now : time) (groupID : string) (sort_order : Z) (m : MemoryGroupStore) :
    MemoryGroupStore * result group_error Group :=
  UpdateGroup now (trim_space groupID)
    (MkUpdateGroup None None None None (Some sort_order) None None None None None None) m.

(** [POST /groups]; a jump chain in the request is already normalised. *)
Definition handleGroupCreate (now : time) (newid : string) (req : CreateRequest) (m : MemoryGroupStore) :
    MemoryGroupStore * result group_error Group :=
  let name := trim_space (CG_Name req) in
  if is_empty name then (m, Err ErrNameRequired)
  else
    let '(m, g) := CreateGroup now newid (MkCreateGroup name (CG_Slug req) (CG_ParentGroupID req) (CG_Icon req)
      (CG_SortOrder req) (CG_Timezone req) (CG_Location req) (CG_Latitude req) (CG_Longitude req)
      (CG_Metadata req) (CG_JumpChain req)) m in (m, Ok g).

(** [PUT] or [PATCH /groups/{id}]: the request goes to the store as it is. *)
Definition handleGroupPut (now : time) (groupID : string) (req : UpdateRequest) (m : MemoryGroupStore) :
    MemoryGroupStore * result group_error Group :=
  UpdateGroup now (trim_space groupID) req m.

(** ** Ancestors *)

(** [x] has the parent [y]. *)
Definition child_of (gs : gmap string Group) (x y : string) : Prop :=
  ∃ g, gs !! x = Some g ∧ G_ParentGroupID g = y ∧ y ≠ "".

Definition acyclic (gs : gmap string Group) : Prop := ∀ x, ¬ tc (child_of gs) x x.

Lemma child_of_fun gs x y z : child_of gs x y → child_of gs x z → y = z.
Proof. intros (g & Hg & <- & _) (g' & Hg' & <- & _). congruence. Qed.

Lemma tc_child_inv gs x y z : child_of gs x y → tc (child_of gs) x z → z = y ∨ tc (child_of gs) y z.
Proof.
  intros Hxy Ht. inversion Ht as [? ? H|? y' ? H1 H2]; subst.
  - left. by eapply child_of_fun.
  - right. by rewrite (child_of_fun _ _ _ _ Hxy H1).
Qed.

Lemma no_child_no_ancestor gs x z : (∀ y, ¬ child_of gs x y) → ¬ tc (child_of gs) x z.
Proof. intros Hn Ht. inversion Ht; subst; by eapply Hn. Qed.

(** What the walk has seen is closed but for the group where it stands. *)
Definition walked (gs : gmap string Group) (current : string) (visited : gset string) : Prop :=
  ∀ v w, v ∈ visited → v ≠ current → child_of gs v w → w ∈ visited.

Lemma walked_closed gs current visited p z :
  walked gs current visited → child_of gs current p → p ∈ visited → tc (child_of gs) current z → z ∈ visited.
Proof.
  intros Hw Hp Hin.
  assert (Hc : ∀ v w, v ∈ visited → child_of gs v w → w ∈ visited).
  { intros v w Hv Hvw. destruct (decide (v = current)) as [->|Hne]; [|by eapply Hw].
    by rewrite (child_of_fun _ _ _ _ Hvw Hp). }
  assert (Ht : ∀ v, v ∈ visited → tc (child_of gs) v z → z ∈ visited).
  { intros v Hv Ht. induction Ht; eauto. }
  intros [-> |Hz]%(tc_child_inv _ _ p); [done|eauto|done].
Qed.

Lemma walk_up_spec gs candidate fuel current visited :
  candidate ∉ visited → walked gs current visited →
  (size (dom gs ∖ (visited ∖ {[current]})) + (if decide (current ∈ visited) then 1 else 2) ≤ fuel)%nat →
  ∃ b, walk_up fuel gs candidate current visited = Some b ∧ (b = true ↔ tc (child_of gs) current candidate).
Proof.
  revert current visited. induction fuel as [|fuel IH]; intros current visited Hcand Hw Hf; [case_decide; lia|].
  simpl. destruct (gs !! current) as [g|] eqn:Hg.
  2: { exists false. split; [done|]. split; [done|]. intros Ht. exfalso. eapply no_child_no_ancestor, Ht.
       intros y (g & Hg' & _). congruence. }
  case_bool_decide as Hemp.
  { exists false. split; [done|]. split; [done|]. intros Ht. exfalso. eapply no_child_no_ancestor, Ht.
    intros y (g' & Hg' & <- & Hne). congruence. }
  assert (Hp : child_of gs current (G_ParentGroupID g)) by by exists g.
  destruct (decide (G_ParentGroupID g = candidate)) as [<-|Hc].
  { exists true. split; [done|]. split; [intros _; by apply tc_once|done]. }
  destruct (decide (G_ParentGroupID g ∈ visited)) as [Hv|Hv].
  - exists false. split; [done|]. split; [done|]. intros Ht. by eapply walked_closed in Ht.
  - destruct (IH (G_ParentGroupID g) ({[G_ParentGroupID g]} ∪ visited)) as (b & Hb & Hiff).
    + set_solver.
    + intros v w Hv' Hne Hvw. assert (v ∈ visited) as Hin by set_solver. destruct (decide (v = current)) as [->|Hvc].
      * rewrite (child_of_fun _ _ _ _ Hvw Hp). set_solver.
      * apply elem_of_union_r. by eapply Hw.
    + rewrite decide_True by set_solver.
      assert (Heq : ({[G_ParentGroupID g]} ∪ visited) ∖ {[G_ParentGroupID g]} = visited) by set_solver.
      rewrite Heq. assert (Hin : current ∈ dom gs) by by apply elem_of_dom_2 in Hg.
      case_decide as Hcv.
      * assert (size (dom gs ∖ visited) < size (dom gs ∖ (visited ∖ {[current]})))%nat; [|lia].
        apply subset_size. set_solver.
      * assert (visited ∖ {[current]} = visited) as Hs by set_solver. rewrite Hs in Hf. lia.
    + exists b. split; [done|]. rewrite Hiff. split; [by apply tc_l|].
      intros [? |?]%(tc_child_inv _ _ (G_ParentGroupID g)); done.
Qed.

Lemma is_ancestor_walk c d m :
  ∃ b, IsAncestor c d m = Some b ∧
    (b = true ↔ trim_space c ≠ "" ∧ trim_space d ≠ "" ∧ tc (child_of (groups m)) (trim_space d) (trim_space c)).
Proof.
  unfold IsAncestor. repeat case_bool_decide; simpl; try by (exists false; naive_solver).
  destruct (walk_up_spec (groups m) (trim_space c) (ancestor_fuel (groups m)) (trim_space d) ∅) as (b & Hb & Hiff).
  - set_solver.
  - intros v w Hv. set_solver.
  - rewrite decide_False by set_solver. unfold ancestor_fuel.
    assert (dom (groups m) ∖ (∅ ∖ {[trim_space d]}) = dom (groups m)) as -> by set_solver. rewrite size_dom. lia.
  - exists b. split; [done|]. rewrite Hiff. naive_solver.
Qed.

(** ** Depths *)

(** [x] is [n] parents away from the end of its chain. *)
Definition has_depth (gs : gmap string Group) (x : string) (n : nat) : Prop :=
  ∃ y, nsteps (child_of gs) n x y ∧ ∀ z, ¬ child_of gs y z.

Lemma has_depth_parent gs x y n : child_of gs x y → has_depth gs x n → ∃ n', n = S n' ∧ has_depth gs y n'.
Proof.
  intros Hxy (z & Hn & Hz). inversion Hn as [|n' ? y' ? H1 H2]; subst; [by destruct (Hz y)|].
  exists n'. split; [done|]. rewrite (child_of_fun _ _ _ _ Hxy H1). by exists z.
Qed.

Lemma has_depth_child gs x y n : child_of gs x y → has_depth gs y n → has_depth gs x (S n).
Proof. intros Hxy (z & Hn & Hz). exists z. split; [by econstructor|done]. Qed.

Lemma has_depth_end gs x n : (∀ y, ¬ child_of gs x y) → has_depth gs x n → n = 0%nat.
Proof. intros Hx (z & Hn & _). inversion Hn; subst; [done|]. by edestruct Hx. Qed.

Lemma has_depth_fun gs x n n' : has_depth gs x n → has_depth gs x n' → n = n'.
Proof.
  revert x n'. induction n as [|n IH]; intros x n' (y & Hn & Hy) Hn'.
  - inversion Hn; subst. symmetry. by eapply has_depth_end.
  - inversion Hn as [|? ? z ? H1 H2]; subst. destruct (has_depth_parent _ _ _ _ H1 Hn') as (m & -> & Hm).
    f_equal. apply (IH z); [by exists y|done].
Qed.

(** Without a cycle a chain has no more steps than there are groups. *)
Lemma chain_nodes gs n x y :
  acyclic gs → nsteps (child_of gs) n x y →
  ∃ l, length l = n ∧ NoDup l ∧ ∀ v, v ∈ l → v ∈ dom gs ∧ rtc (child_of gs) x v.
Proof.
  intros Ha. induction 1 as [x|n x z y Hxz _ (l & Hl & Hnd & Hin)].
  - exists []. split_and!; [done|constructor|set_solver].
  - exists (x :: l). split_and!; [by rewrite <-Hl| |].
    + constructor; [|done]. intros [_ Hr]%Hin. apply (Ha x). by eapply tc_rtc_r; [apply tc_once|].
    + intros v [-> |[Hd Hr]%Hin]%elem_of_cons; [|split; [done|by eapply rtc_l]].
      split; [|apply rtc_refl]. destruct Hxz as (g & Hg & _). by apply elem_of_dom_2 in Hg.
Qed.

Lemma chain_bounded gs n x y : acyclic gs → nsteps (child_of gs) n x y → (n ≤ size gs)%nat.
Proof.
  intros Ha Hn. destruct (chain_nodes gs n x y Ha Hn) as (l & <- & Hnd & Hin).
  rewrite <-(size_list_to_set (C := gset string) l) by done. rewrite <-size_dom. apply subseteq_size.
  intros v Hv%elem_of_list_to_set. by apply Hin.
Qed.

Lemma child_of_dec gs x : (∃ y, child_of gs x y) ∨ ∀ y, ¬ child_of gs x y.
Proof.
  destruct (gs !! x) as [g|] eqn:Hg; [|right; intros y (g & Hg' & _); congruence].
  destruct (decide (G_ParentGroupID g = "")) as [He|Hne]; [|left; by exists (G_ParentGroupID g), g].
  right. intros y (g' & Hg' & <- & Hn). congruence.
Qed.

Lemma depth_or_chain gs k x : (∃ n, (n < k)%nat ∧ has_depth gs x n) ∨ ∃ y, nsteps (child_of gs) k x y.
Proof.
  revert x. induction k as [|k IH]; intros x; [right; by exists x; constructor|].
  destruct (child_of_dec gs x) as [[y Hy]|Hn].
  - destruct (IH y) as [(n & Hn & Hd)|[z Hz]]; [left; exists (S n); split; [lia|by eapply has_depth_child]|].
    right. exists z. by econstructor.
  - left. exists 0%nat. split; [lia|]. exists x. split; [constructor|done].
Qed.

Lemma acyclic_depth gs x : acyclic gs → ∃ n, (n ≤ size gs)%nat ∧ has_depth gs x n.
Proof.
  intros Ha. destruct (depth_or_chain gs (S (size gs)) x) as [(n & Hn & Hd)|[y Hy]]; [exists n; split; [lia|done]|].
  apply chain_bounded in Hy; [lia|done].
Qed.

Lemma cycle_no_depth gs x n : tc (child_of gs) x x → ¬ has_depth gs x n.
Proof.
  intros Hc Hd. assert (Hgen : ∀ n y, has_depth gs y n → tc (child_of gs) y y → False); [|by eapply Hgen].
  clear. induction n as [|n IH]; intros y Hd Hc; inversion Hc as [? ? H|? z ? H1 H2]; subst.
  - by apply (has_depth_parent _ _ _ _ H) in Hd as (? & ? & _).
  - by apply (has_depth_parent _ _ _ _ H1) in Hd as (? & ? & _).
  - apply (has_depth_parent _ _ _ _ H) in Hd as (m & [= <-] & Hd). by apply (IH y).
  - apply (has_depth_parent _ _ _ _ H1) in Hd as (m & [= <-] & Hd). apply (IH z); [done|]. by eapply tc_r.
Qed.

(** The memo table holds depths. *)
Definition memo_ok (gs : gmap string Group) (depthOf : gmap string Z) : Prop :=
  ∀ k d, depthOf !! k = Some d → ∃ n, d = Z.of_nat n ∧ has_depth gs k n.

Lemma memo_insert gs depthOf x n : memo_ok gs depthOf → has_depth gs x n → memo_ok gs (<[x := Z.of_nat n]> depthOf).
Proof. intros Hm Hd k d [[<- <-]|[_ Hk]]%lookup_insert_Some; [by exists n|by apply Hm]. Qed.

Lemma memo_sub (depthOf depthOf' : gmap string Z) gs x n :
  memo_ok gs depthOf → has_depth gs x n → depthOf ⊆ depthOf' → depthOf ⊆ <[x := Z.of_nat n]> depthOf'.
Proof.
  intros Hm Hd Hs. apply map_subseteq_spec. intros k d Hk. destruct (decide (k = x)) as [->|Hne].
  - destruct (Hm _ _ Hk) as (n' & -> & Hd'). rewrite lookup_insert_eq. by rewrite (has_depth_fun _ _ _ _ Hd Hd').
  - rewrite lookup_insert_ne by done. by eapply lookup_weaken.
Qed.

Lemma computeDepth_some gs fuel x n depthOf :
  memo_ok gs depthOf → has_depth gs x n → (n < fuel)%nat →
  ∃ depthOf', computeDepth fuel gs x depthOf = Some (Z.of_nat n, depthOf') ∧
    memo_ok gs depthOf' ∧ depthOf ⊆ depthOf' ∧ depthOf' !! x = Some (Z.of_nat n).
Proof.
  revert x n depthOf. induction fuel as [|fuel IH]; intros x n depthOf Hm Hd Hf; [lia|]. simpl.
  destruct (depthOf !! x) as [d|] eqn:Hx.
  { destruct (Hm _ _ Hx) as (n' & -> & Hd'). rewrite (has_depth_fun _ _ _ _ Hd Hd') in *. by exists depthOf. }
  assert (Hend : (∀ y, ¬ child_of gs x y) → ∃ depthOf', Some (0, <[x := 0]> depthOf) = Some (Z.of_nat n, depthOf') ∧
    memo_ok gs depthOf' ∧ depthOf ⊆ depthOf' ∧ depthOf' !! x = Some (Z.of_nat n)).
  { intros Hn. assert (n = 0%nat) as -> by by eapply has_depth_end. exists (<[x := 0]> depthOf).
    split_and!; [done|by apply (memo_insert gs depthOf x 0)|by apply (memo_sub depthOf depthOf gs x 0)|apply lookup_insert_eq]. }
  destruct (gs !! x) as [g|] eqn:Hg; [|apply Hend; intros y (g & Hg' & _); congruence].
  case_bool_decide as Hp; [apply Hend; intros y (g' & Hg' & <- & Hne); congruence|]. clear Hend.
  assert (Hc : child_of gs x (G_ParentGroupID g)) by by exists g.
  destruct (has_depth_parent _ _ _ _ Hc Hd) as (n' & -> & Hd').
  destruct (IH _ n' depthOf Hm Hd') as (depthOf' & -> & Hm' & Hs & _); [lia|].
  replace (Z.of_nat n' + 1) with (Z.of_nat (S n')) by lia. eexists.
  split_and!; [done|by apply memo_insert|by apply (memo_sub _ _ gs)|apply lookup_insert_eq].
Qed.

Lemma computeDepth_memo gs fuel x depthOf d depthOf' :
  memo_ok gs depthOf → computeDepth fuel gs x depthOf = Some (d, depthOf') →
  memo_ok gs depthOf' ∧ ∃ n, d = Z.of_nat n ∧ has_depth gs x n.
Proof.
  revert x d depthOf'. induction fuel as [|fuel IH]; intros x d depthOf' Hm; [done|]. simpl.
  destruct (depthOf !! x) as [d0|] eqn:Hx; [intros [= <- <-]; by split; [|apply Hm]|].
  assert (Hend : (∀ y, ¬ child_of gs x y) → memo_ok gs (<[x := 0]> depthOf) ∧ ∃ n, 0 = Z.of_nat n ∧ has_depth gs x n).
  { intros He. assert (Hd : has_depth gs x 0) by (exists x; split; [constructor|done]).
    split; [by apply (memo_insert gs depthOf x 0)|by exists 0%nat]. }
  destruct (gs !! x) as [g|] eqn:Hg; [|intros [= <- <-]; apply Hend; intros y (g & Hg' & _); congruence].
  case_bool_decide as Hp; [intros [= <- <-]; apply Hend; intros y (g' & Hg' & <- & Hne); congruence|].
  destruct (computeDepth fuel gs (G_ParentGroupID g) depthOf) as [[d1 D1]|] eqn:Hc; [|done]. intros [= <- <-].
  destruct (IH _ _ _ Hm Hc) as (Hm' & n & -> & Hd).
  assert (Hx' : has_depth gs x (S n)) by (eapply has_depth_child, Hd; by exists g).
  replace (Z.of_nat n + 1) with (Z.of_nat (S n)) by lia. split; [by apply memo_insert|by exists (S n)].
Qed.

Lemma compute_depths_some gs fuel all depthOf :
  memo_ok gs depthOf → acyclic gs → (size gs < fuel)%nat →
  ∃ depthOf', compute_depths fuel gs all depthOf = Some depthOf' ∧ memo_ok gs depthOf' ∧ depthOf ⊆ depthOf' ∧
    ∀ g, g ∈ all → is_Some (depthOf' !! G_ID g).
Proof.
  intros Hm Ha Hf. revert depthOf Hm. induction all as [|g all IH]; intros depthOf Hm; simpl.
  { exists depthOf. split_and!; [done|done|done|]. intros g Hg. by apply elem_of_nil in Hg. }
  destruct (acyclic_depth gs (G_ID g) Ha) as (n & Hn & Hd).
  destruct (computeDepth_some gs fuel _ n depthOf Hm Hd) as (D1 & -> & Hm1 & Hs1 & Hg1); [lia|].
  destruct (IH D1 Hm1) as (D2 & -> & Hm2 & Hs2 & Hall). exists D2. split_and!; [done|done|by etrans|].
  intros g' [-> |Hg']%elem_of_cons; [|by apply Hall]. eexists. by eapply lookup_weaken.
Qed.

Lemma compute_depths_none gs fuel all x depthOf :
  memo_ok gs depthOf → (∀ n, ¬ has_depth gs x n) → x ∈ G_ID <$> all → compute_depths fuel gs all depthOf = None.
Proof.
  intros Hm Hn. revert depthOf Hm. induction all as [|g all IH]; intros depthOf Hm Hx; simpl; [by apply elem_of_nil in Hx|].
  destruct (computeDepth fuel gs (G_ID g) depthOf) as [[d D1]|] eqn:Hc; [|done].
  apply computeDepth_memo in Hc as (Hm1 & n & _ & Hd); [|done].
  apply elem_of_cons in Hx as [-> |Hx]; [by destruct (Hn n)|by apply IH].
Qed.

(** ** The tree is the store *)

(** Every group is stored under its own, non-empty id. *)
Definition wf_groups (gs : gmap string Group) : Prop := ∀ k g, gs !! k = Some g → G_ID g = k ∧ k ≠ "".

Definition all_groups (gs : gmap string Group) : list Group := (map_to_list gs).*2.

(** The groups under a parent, and the top level for "". *)
Definition groups_under (gs : gmap string Group) (parent : string) : list Group :=
  filter (λ g, G_ParentGroupID g = parent) (all_groups gs).

(** A node of the tree: its group, its depth, and below it exactly the groups whose
    parent it is, each once and in order. *)
Inductive tree_ok (gs : gmap string Group) : Z → TreeNode → Prop :=
| tree_ok_node d g cs :
    gs !! G_ID g = Some g → (T_Group <$> cs) ≡ₚ groups_under gs (G_ID g) → StronglySorted group_before (T_Group <$> cs) →
    Forall (tree_ok gs (d + 1)) cs → tree_ok gs d (MkTreeNode g cs d).

Definition forest_ok (gs : gmap string Group) (forest : list TreeNode) : Prop :=
  (T_Group <$> forest) ≡ₚ groups_under gs "" ∧ StronglySorted group_before (T_Group <$> forest) ∧
  Forall (tree_ok gs 0) forest.

Section build.
Implicit Types e : groupFlatEntry.

Notation id_of e := (G_ID (fe_group e)).
Notation parent_of e := (G_ParentGroupID (fe_group e)).

Definition kids (l : list groupFlatEntry) (k : string) : list groupFlatEntry := filter (λ e, parent_of e = k) l.

Definition kid_ids (l : list groupFlatEntry) (k : string) : list string := (λ e, id_of e) <$> kids l k.

(** Parents are less deep than their children. *)
Definition parents_lower (l : list groupFlatEntry) : Prop :=
  ∀ e e', e ∈ l → e' ∈ l → parent_of e' = id_of e → fe_depth e' = fe_depth e + 1.

Lemma kid_ids_snoc l' e k : kid_ids (l' ++ [e]) k = kid_ids l' k ++ (if decide (parent_of e = k) then [id_of e] else []).
Proof.
  unfold kid_ids, kids. rewrite filter_app, fmap_app. f_equal. rewrite filter_cons, filter_nil. by case_decide.
Qed.

Lemma add_entry_lookup t e k :
  parent_of e ≠ id_of e → nodeMap t !! "" = None →
  nodeMap (add_entry t e) !! k =
    if decide (k = id_of e) then Some (MkNode (fe_group e) (fe_depth e) [])
    else if decide (parent_of e = k)
    then (λ n, MkNode (n_group n) (n_depth n) (n_children n ++ [id_of e])) <$> nodeMap t !! k
    else nodeMap t !! k.
Proof.
  intros Hself Hempty. unfold add_entry. rewrite lookup_insert_ne by done.
  destruct (decide (k = id_of e)) as [->|Hk].
  - case_bool_decide; [by simpl; rewrite lookup_insert_eq|].
    destruct (nodeMap t !! parent_of e); simpl; [rewrite lookup_insert_ne by done|]; by rewrite lookup_insert_eq.
  - case_bool_decide as Hp; simpl.
    + rewrite lookup_insert_ne by done. rewrite Hp. case_decide; [subst; by rewrite Hempty|done].
    + case_decide as Hpk.
      * subst k. destruct (nodeMap t !! parent_of e) as [pn|] eqn:Hpn; simpl; [by rewrite lookup_insert_eq|].
        by rewrite lookup_insert_ne.
      * destruct (nodeMap t !! parent_of e); simpl; [rewrite lookup_insert_ne by done|]; by rewrite lookup_insert_ne.
Qed.

Lemma add_entry_roots t e :
  roots (add_entry t e) = roots t ++ (if decide (parent_of e = "") then [id_of e] else []).
Proof.
  unfold add_entry. case_bool_decide; case_decide; try done. simpl.
  destruct (_ !! parent_of e); simpl; by rewrite app_nil_r.
Qed.

Lemma build_nodes l' :
  NoDup ((λ e, id_of e) <$> l') → (∀ e, e ∈ l' → id_of e ≠ "") → StronglySorted flat_before l' → parents_lower l' →
  let t := foldl add_entry (MkTree ∅ []) l' in
  roots t = kid_ids l' "" ∧
  ∀ k n, nodeMap t !! k = Some n ↔
    ∃ e, e ∈ l' ∧ id_of e = k ∧ n = MkNode (fe_group e) (fe_depth e) (kid_ids l' k).
Proof.
  induction l' as [|e l' IH] using rev_ind; intros Hnd Hne Hs Hp.
  { split; [done|]. intros k n. simpl. rewrite lookup_empty. split; [done|]. intros (e & He & _). by apply elem_of_nil in He. }
  rewrite fmap_app in Hnd. apply NoDup_app in Hnd as (Hnd & Hdisj & _).
  assert (Hlast : ∀ x, x ∈ l' → flat_before x e).
  { intros x Hx. apply StronglySorted_app in Hs as (Hs & _ & _). apply Hs; [done|by apply list_elem_of_singleton]. }
  destruct IH as [Hr Hn].
  { done. } { intros x Hx. apply Hne. set_solver. } { by apply StronglySorted_app in Hs as (_ & ? & _). }
  { intros x y Hx Hy. apply Hp; set_solver. }
  assert (Hnew : ∀ x, x ∈ l' ++ [e] → parent_of x = id_of e → False).
  { intros x Hx Hpx. pose proof (Hp e x ltac:(set_solver) Hx Hpx) as Hd.
    apply elem_of_app in Hx as [Hx|Hx]; [|apply list_elem_of_singleton in Hx as ->; lia].
    destruct (Hlast x Hx) as [?|[? _]]; lia. }
  assert (Hold : ∀ k, k ≠ id_of e → (∃ x, x ∈ l' ++ [e] ∧ id_of x = k) ↔ ∃ x, x ∈ l' ∧ id_of x = k).
  { intros k Hk. split; intros (x & Hx & Hid); exists x; set_solver. }
  rewrite foldl_app. simpl. set (t := foldl add_entry (MkTree ∅ []) l') in *.
  assert (Hfresh : kid_ids (l' ++ [e]) (id_of e) = []).
  { unfold kid_ids, kids. rewrite filter_none; [done|]. intros x Hx Hpx. by apply (Hnew x). }
  assert (Hempty : nodeMap t !! "" = None).
  { apply eq_None_not_Some. intros [n (x & Hx & Hid & _)%Hn]. apply (Hne x); [set_solver|done]. }
  assert (Hself : parent_of e ≠ id_of e) by (intros Hp'; apply (Hnew e); [set_solver|done]).
  split; [by rewrite add_entry_roots, Hr, kid_ids_snoc|]. intros k n. rewrite add_entry_lookup by done.
  case_decide as Hk; [subst k|].
  - rewrite Hfresh. split; [intros [= <-]; exists e; set_solver|].
    intros (x & Hx & Hid & ->). assert (x = e) as ->; [|done].
    apply elem_of_app in Hx as [Hx|Hx]; [|by apply list_elem_of_singleton in Hx].
    exfalso. apply (Hdisj (id_of e)); [rewrite <-Hid; by apply (list_elem_of_fmap_2 (λ e, id_of e))|by left].
  - rewrite kid_ids_snoc. split.
    + case_decide as Hpk.
      * intros (n' & Hn' & ->)%fmap_Some. apply Hn in Hn' as (x & Hx & Hid & ->). exists x. set_solver.
      * intros (x & Hx & Hid & ->)%Hn. exists x. rewrite app_nil_r. set_solver.
    + intros (x & Hx & Hid & ->).
      assert (Hx' : x ∈ l').
      { apply elem_of_app in Hx as [Hx|Hx]; [done|]. apply list_elem_of_singleton in Hx as ->. congruence. }
      assert (Hlk : nodeMap t !! k = Some (MkNode (fe_group x) (fe_depth x) (kid_ids l' k))) by (apply Hn; by exists x).
      rewrite Hlk. case_decide; simpl; [done|by rewrite app_nil_r].
Qed.

(** Entries of one depth are sorted as groups. *)
Lemma same_depth_sorted l' d k :
  StronglySorted flat_before l' → (∀ e, e ∈ kids l' k → fe_depth e = d) → StronglySorted group_before (fe_group <$> kids l' k).
Proof.
  intros Hs Hd. assert (Hss : StronglySorted flat_before (kids l' k)) by by apply StronglySorted_filter.
  induction Hss as [|e es Hss IH Hall]; simpl; [constructor|].
  constructor; [apply IH; intros e' He'; apply Hd; by right|].
  apply Forall_fmap. rewrite Forall_forall in Hall. apply Forall_forall. intros e' He'.
  destruct (Hall e' He') as [Hlt|[_ ?]]; [|done]. rewrite (Hd e), (Hd e') in Hlt; [lia|by right|by left].
Qed.

(** The node of an entry becomes a good tree, with fuel for the depth below it. *)
Lemma to_tree_node gs l' D nodes fuel e :
  (∀ k n, nodes !! k = Some n ↔ ∃ e, e ∈ l' ∧ id_of e = k ∧ n = MkNode (fe_group e) (fe_depth e) (kid_ids l' k)) →
  (fe_group <$> l') ≡ₚ all_groups gs → (∀ e, e ∈ l' → gs !! id_of e = Some (fe_group e)) →
  StronglySorted flat_before l' → parents_lower l' → (∀ e, e ∈ l' → fe_depth e < D) →
  e ∈ l' → D - fe_depth e ≤ Z.of_nat fuel →
  ∃ t, toTreeNode fuel nodes (id_of e) = Some t ∧ T_Group t = fe_group e ∧ tree_ok gs (fe_depth e) t.
Proof.
  intros Hn Hperm Hgs Hs Hp HD. revert e. induction fuel as [|fuel IH]; intros e He Hf; [specialize (HD e He); lia|].
  simpl. rewrite (proj2 (Hn (id_of e) _)) by (by exists e). simpl.
  assert (Hkid : ∀ k, k ∈ kids l' (id_of e) → k ∈ l' ∧ fe_depth k = fe_depth e + 1).
  { intros k [Hpk Hk]%list_elem_of_filter. split; [done|]. by apply Hp. }
  assert (Hcs : ∃ cs, Forall2 (λ k t, toTreeNode fuel nodes k = Some t) (kid_ids l' (id_of e)) cs ∧
    (T_Group <$> cs) = fe_group <$> kids l' (id_of e) ∧ Forall (tree_ok gs (fe_depth e + 1)) cs).
  { unfold kid_ids. induction (kids l' (id_of e)) as [|k ks IHk]; [exists []; split_and!; [constructor|done|constructor]|].
    destruct (Hkid k) as [Hk Hd]; [by left|]. destruct (IH k Hk) as (t & Ht & Hg & Hok); [lia|].
    destruct IHk as (cs & Hm & Hg' & Hok'); [intros k' Hk'; apply Hkid; by right|].
    exists (t :: cs). split_and!; [by constructor|csimpl; by rewrite Hg, Hg'|].
    constructor; [by rewrite <-Hd|done]. }
  destruct Hcs as (cs & Hcs%mapM_Some & Hg & Hok). rewrite Hcs. simpl. eexists. split; [done|]. split; [done|]. constructor; [by apply Hgs| | |done].
  - rewrite Hg. unfold groups_under, kids. by rewrite <-Hperm, filter_fmap_list.
  - rewrite Hg. apply (same_depth_sorted l' (fe_depth e + 1)); [done|]. intros k Hk. by apply Hkid.
Qed.
End build.

#[export] Instance group_before_total : Total group_before.
Proof.
  intros x y. unfold group_before. destruct (Z.lt_trichotomy (G_SortOrder x) (G_SortOrder y)) as [?|[?|?]]; [by do 2 left| |by right; left].
  destruct (total String.le (G_Name x) (G_Name y)); [left|right]; right; done.
Qed.

#[export] Instance group_before_trans : Transitive group_before.
Proof.
  intros x y z. unfold group_before. intros [?|[? ?]] [?|[? ?]]; try (left; lia).
  right. split; [congruence|by etrans].
Qed.

#[export] Instance flat_before_total : Total flat_before.
Proof.
  intros x y. unfold flat_before. destruct (Z.lt_trichotomy (fe_depth x) (fe_depth y)) as [?|[?|?]]; [by do 2 left| |by right; left].
  destruct (total group_before (fe_group x) (fe_group y)); [left|right]; right; done.
Qed.

#[export] Instance flat_before_trans : Transitive flat_before.
Proof.
  intros x y z. unfold flat_before. intros [?|[? ?]] [?|[? ?]]; try (left; lia).
  right. split; [congruence|by etrans].
Qed.

Section get_tree.
Context `{MapRange}.

Lemma list_groups_perm m : ListGroups m ≡ₚ all_groups (groups m).
Proof. unfold ListGroups. by rewrite merge_sort_Permutation, range_perm. Qed.

Lemma all_groups_ids gs : wf_groups gs → (λ g, (G_ID g, g)) <$> all_groups gs = map_to_list gs.
Proof.
  intros Hw. unfold all_groups. rewrite <-list_fmap_compose. trans (id <$> map_to_list gs); [|apply list_fmap_id].
  apply list_fmap_ext. intros i [k g] Hi%list_elem_of_lookup_2. simpl.
  apply elem_of_map_to_list in Hi. by destruct (Hw _ _ Hi) as [-> _].
Qed.

Lemma by_id_groups m :
  wf_groups (groups m) → (list_to_map ((λ g, (G_ID g, g)) <$> rev (ListGroups m)) : gmap string Group) = groups m.
Proof.
  intros Hw. trans (list_to_map (map_to_list (groups m)) : gmap string Group); [|apply list_to_map_to_list].
  assert (Hp : (λ g, (G_ID g, g)) <$> rev (ListGroups m) ≡ₚ map_to_list (groups m)).
  { rewrite <-(all_groups_ids _ Hw), <-list_groups_perm. by rewrite <-Permutation_rev. }
  apply list_to_map_proper; [|done]. rewrite Hp. apply NoDup_fst_map_to_list.
Qed.

Lemma elem_of_all_groups gs g : wf_groups gs → g ∈ all_groups gs ↔ gs !! G_ID g = Some g.
Proof.
  intros Hw. unfold all_groups. rewrite list_elem_of_fmap. split.
  - intros ([k g'] & -> & Hk%elem_of_map_to_list). simpl. by destruct (Hw _ _ Hk) as [-> _].
  - intros Hg. exists (G_ID g, g). split; [done|]. by apply elem_of_map_to_list.
Qed.

Lemma get_tree_some m fuel :
  wf_groups (groups m) → acyclic (groups m) → (size (groups m) < fuel)%nat →
  ∃ forest, GetGroupTree fuel m = Some forest ∧ forest_ok (groups m) forest.
Proof.
  intros Hw Ha Hf. unfold GetGroupTree. rewrite by_id_groups by done. set (gs := groups m) in *.
  destruct (compute_depths_some gs fuel (ListGroups m) ∅) as (depthOf & -> & Hm & _ & Hall); [done|done|done|]. simpl.
  set (flat := merge_sort flat_before _).
  assert (Hflat : flat ≡ₚ (λ g, MkFlat g (default 0 (depthOf !! G_ID g))) <$> all_groups gs).
  { unfold flat. by rewrite merge_sort_Permutation, list_groups_perm. }
  assert (He : ∀ e, e ∈ flat → gs !! G_ID (fe_group e) = Some (fe_group e) ∧
                 ∃ n, fe_depth e = Z.of_nat n ∧ has_depth gs (G_ID (fe_group e)) n ∧ (n ≤ size gs)%nat).
  { intros e. rewrite Hflat. intros (g & -> & Hg)%list_elem_of_fmap. simpl. split; [by apply elem_of_all_groups|].
    destruct (Hall g) as [d Hd]; [by rewrite list_groups_perm|]. rewrite Hd. simpl.
    destruct (Hm _ _ Hd) as (n & -> & Hn). exists n. split_and!; [done|done|].
    destruct (acyclic_depth gs (G_ID g) Ha) as (n' & Hle & Hn'). by rewrite (has_depth_fun _ _ _ _ Hn Hn'). }
  assert (Hgroups : (fe_group <$> flat) ≡ₚ all_groups gs).
  { rewrite Hflat, <-list_fmap_compose. by rewrite list_fmap_id. }
  assert (Hnd : NoDup ((λ e, G_ID (fe_group e)) <$> flat)).
  { change (λ e, G_ID (fe_group e)) with (G_ID ∘ fe_group). rewrite list_fmap_compose, Hgroups.
    change G_ID with (fst ∘ (λ g, (G_ID g, g))). rewrite list_fmap_compose, all_groups_ids by done. apply NoDup_fst_map_to_list. }
  assert (Hne : ∀ e, e ∈ flat → G_ID (fe_group e) ≠ "") by (intros e [Hg _]%He; by apply Hw in Hg as [_ ?]).
  assert (Hs : StronglySorted flat_before flat) by (apply StronglySorted_merge_sort; apply _).
  assert (Hp : parents_lower flat).
  { intros e e' Hin Hin' Hpar. destruct (He _ Hin) as [Hg (n & -> & Hn & _)]. destruct (He _ Hin') as [Hg' (n' & -> & Hn' & _)].
    assert (Hc : child_of gs (G_ID (fe_group e')) (G_ID (fe_group e))).
    { exists (fe_group e'). split_and!; [done|done|by apply Hne]. }
    destruct (has_depth_parent _ _ _ _ Hc Hn') as (n1 & -> & Hn1). rewrite (has_depth_fun _ _ _ _ Hn Hn1). lia. }
  destruct (build_nodes flat Hnd Hne Hs Hp) as [Hr Hn]. unfold buildGroupTree. rewrite Hr.
  assert (Hlen : length flat = size gs).
  { rewrite <-(length_fmap fe_group flat), Hgroups. unfold all_groups. by rewrite length_fmap, length_map_to_list. }
  assert (Hroots : ∀ e, e ∈ kids flat "" → e ∈ flat ∧ fe_depth e = 0).
  { intros e [Hpe Hin]%list_elem_of_filter. split; [done|]. destruct (He _ Hin) as [Hg (n & -> & Hdn & _)].
    assert (n = 0%nat) as ->; [|done]. eapply has_depth_end, Hdn. intros y (g & Hg' & <- & Hy). congruence. }
  assert (Hforest : ∃ forest, Forall2 (λ k t, toTreeNode (S (length flat)) (nodeMap (foldl add_entry (MkTree ∅ []) flat)) k = Some t) (kid_ids flat "") forest ∧
    T_Group <$> forest = fe_group <$> kids flat "" ∧ Forall (tree_ok gs 0) forest).
  { unfold kid_ids. induction (kids flat "") as [|e es IH]; [exists []; split_and!; [constructor|done|constructor]|].
    destruct (Hroots e) as [Hin Hd]; [by left|].
    destruct (to_tree_node gs flat (Z.of_nat (S (size gs))) _ (S (length flat)) e Hn Hgroups) as (t & Ht & Hg & Hok); try done.
    { intros x Hx. by apply He. } { intros x Hx. destruct (He _ Hx) as [_ (n & -> & _ & ?)]. lia. } { rewrite Hlen. lia. }
    destruct IH as (ts & H2 & Hg' & Hok'); [intros x Hx; apply Hroots; by right|].
    exists (t :: ts). split_and!; [by constructor|csimpl; by rewrite Hg, Hg'|]. constructor; [by rewrite <-Hd|done]. }
  destruct Hforest as (forest & H2%mapM_Some & Hg & Hok). exists forest. split; [done|]. split_and!; [| |done].
  - rewrite Hg. unfold groups_under, kids. by rewrite <-Hgroups, filter_fmap_list.
  - rewrite Hg. apply (same_depth_sorted flat 0); [done|]. intros e Hin. by apply Hroots.
Qed.

Lemma get_tree_none m fuel x : wf_groups (groups m) → tc (child_of (groups m)) x x → GetGroupTree fuel m = None.
Proof.
  intros Hw Hc. unfold GetGroupTree. rewrite by_id_groups by done. rewrite (compute_depths_none _ _ _ x); [done|done| |].
  - intros n. by apply cycle_no_depth.
  - assert (∃ g, groups m !! x = Some g) as [g Hg] by (inversion Hc as [? ? (g & ? & _)|? ? ? (g & ? & _)]; eauto).
    apply list_elem_of_fmap. exists g. destruct (Hw _ _ Hg) as [Hid _]. split; [done|].
    rewrite list_groups_perm. apply elem_of_all_groups; [done|]. by rewrite Hid.
Qed.
End get_tree.

(** ** Runs *)

(** The operations of the API that are meant to keep the tree a tree.  An id is issued once: no group has
    named it as its parent before. *)
Inductive group_step (m : MemoryGroupStore) : MemoryGroupStore → Prop :=
| gs_create now newid req :
    groups m !! newid = None → newid ≠ "" → trim_space (CG_ParentGroupID req) ≠ newid →
    (∀ k g, groups m !! k = Some g → G_ParentGroupID g ≠ newid) →
    group_step m (handleGroupCreate now newid req m).1
| gs_move now id parent m' r : handleGroupMove now id parent m = Some (m', r) → group_step m m'
| gs_reorder now id order : group_step m (handleGroupReorder now id order m).1
| gs_put now id req : UG_ParentGroupID req = None → group_step m (handleGroupPut now id req m).1
| gs_delete now id : group_step m (DeleteGroup now id m).1.

Lemma tc_last (R : relation string) x y : tc R x y → ∃ z, R z y.
Proof. induction 1; eauto. Qed.

Lemma tc_add_edge (R R' : relation string) a b x y :
  (∀ x y, R' x y → R x y ∨ x = a ∧ y = b) → tc R' x y → tc R x y ∨ rtc R x a ∧ rtc R b y.
Proof.
  intros Hsub. induction 1 as [x y H|x y z H _ IH].
  - destruct (Hsub _ _ H) as [?|[-> ->]]; [left; by apply tc_once|right; split; apply rtc_refl].
  - destruct (Hsub _ _ H) as [Hxy|[-> ->]].
    + destruct IH as [?|[? ?]]; [left; by eapply tc_l|right; split; [by eapply rtc_l|done]].
    + right. split; [apply rtc_refl|]. destruct IH as [?|[_ ?]]; [by apply tc_rtc|done].
Qed.

Lemma acyclic_add_edge gs gs' a b :
  (∀ x y, child_of gs' x y → child_of gs x y ∨ x = a ∧ y = b) → b ≠ a → ¬ tc (child_of gs) b a → acyclic gs → acyclic gs'.
Proof.
  intros Hsub Hne Hn Ha x Hx. destruct (tc_add_edge _ _ a b _ _ Hsub Hx) as [?|[H1 H2]]; [by apply (Ha x)|].
  assert (Hba : rtc (child_of gs) b a) by by etrans.
  apply rtc_tc in Hba as [?|?]; done.
Qed.

Lemma acyclic_sub gs gs' : (∀ x y, child_of gs' x y → tc (child_of gs) x y) → acyclic gs → acyclic gs'.
Proof.
  intros Hsub Ha x Hx. apply (Ha x). revert Hx. generalize x at 2 4. intros y.
  induction 1 as [x y H|x y z H _ IH]; [by apply Hsub|]. eapply tc_trans; [by apply Hsub|done].
Qed.

Definition tree_store (m : MemoryGroupStore) : Prop := wf_groups (groups m) ∧ acyclic (groups m).

Lemma update_wf now id req m : wf_groups (groups m) → wf_groups (groups (UpdateGroup now id req m).1).
Proof.
  intros Hw. unfold UpdateGroup. destruct (groups m !! trim_space id) as [g|] eqn:Hg; [|done]. simpl.
  intros k g' [[<- <-]|[_ Hk]]%lookup_insert_Some; [exact (Hw _ _ Hg)|exact (Hw _ _ Hk)].
Qed.

Lemma create_groups now newid req m :
  trim_space (CG_Name req) ≠ "" →
  ∃ g, groups (handleGroupCreate now newid req m).1 = <[newid := g]> (groups m) ∧
       G_ParentGroupID g = trim_space (CG_ParentGroupID req) ∧ G_ID g = newid.
Proof. intros Hn. unfold handleGroupCreate. case_bool_decide; [done|]. simpl. eauto. Qed.

Lemma update_group_tree now id req m :
  tree_store m →
  (∀ p, UG_ParentGroupID req = Some p → trim_space p ≠ trim_space id ∧ ¬ tc (child_of (groups m)) (trim_space p) (trim_space id)) →
  tree_store (UpdateGroup now id req m).1.
Proof.
  intros [Hw Ha] Hp. split; [by apply update_wf|]. unfold UpdateGroup. destruct (groups m !! trim_space id) as [g|] eqn:Hg; [|done]. simpl.
  destruct (UG_ParentGroupID req) as [p|] eqn:Hpar.
    + destruct (Hp p eq_refl) as [Hne Hn]. apply (acyclic_add_edge (groups m) _ (trim_space id) (trim_space p)); [|done|done|done].
      intros x y (g' & [[<- <-]|[Hx Hg']]%lookup_insert_Some & <- & Hy); [right; split; [done|]|left; by exists g'].
      simpl. by rewrite Hpar.
    + apply (acyclic_sub (groups m)); [|exact Ha]. intros x y (g' & [[<- <-]|[Hx Hg']]%lookup_insert_Some & <- & Hy); apply tc_once; [|by exists g'].
      assert (E : G_ParentGroupID (updated_group now req g) = G_ParentGroupID g) by (simpl; by rewrite Hpar).
      rewrite E in *. by exists g.
Qed.

Lemma group_step_tree m m' : group_step m m' → tree_store m → tree_store m'.
Proof.
  intros [now newid req Hfresh Hid Hpar Hno|now id parent m1 r Hmove|now id order|now id req Hreq|now id] [Hw Ha].
  - unfold handleGroupCreate. case_bool_decide; [done|]. simpl. split; simpl.
    + intros k g [[<- <-]|[_ Hk]]%lookup_insert_Some; [done|by apply Hw].
    + apply (acyclic_add_edge (groups m) _ newid (trim_space (CG_ParentGroupID req))); [|done| |done].
      * intros x y (g' & [[<- <-]|[Hx Hg']]%lookup_insert_Some & <- & Hy); [by right|left; by exists g'].
      * intros Ht. apply tc_last in Ht as (z & g & Hg & Hgp & _). by eapply Hno.
  - unfold handleGroupMove in Hmove. case_decide as Hown; [by injection Hmove as <- <-|].
    case_bool_decide as Hemp.
    + injection Hmove as Hmove. pose proof (f_equal fst Hmove) as Hm. simpl in Hm. rewrite <-Hm.
      apply update_group_tree; [done|]. intros p [= <-]. rewrite !trim_space_idemp. split; [done|].
      intros Ht. rewrite Hemp in Ht. inversion Ht as [? ? (g & Hg & _)|? ? ? (g & Hg & _)]; subst; by destruct (Hw _ _ Hg).
    + destruct (is_ancestor_walk (trim_space id) (trim_space parent) m) as (b & Hb & Hiff). rewrite Hb in Hmove.
      destruct b; [by injection Hmove as <- <-|]. injection Hmove as Hmove. pose proof (f_equal fst Hmove) as Hm. simpl in Hm. rewrite <-Hm.
      apply update_group_tree; [done|]. intros p [= <-]. rewrite !trim_space_idemp in *. split; [done|].
      intros Ht. assert (false = true) as [=]. apply Hiff. split_and!; [|done|done].
      intros He. rewrite He in Ht. apply tc_last in Ht as (z & g & _ & _ & Hne). done.
  - apply update_group_tree; [done|]. by intros p [=].
  - apply update_group_tree; [done|]. intros p. by rewrite Hreq.
  - unfold DeleteGroup. destruct (groups m !! trim_space id) as [g|] eqn:Hg; [|done]. simpl. set (i := trim_space id) in *. split; simpl.
    + intros k g' [_ Hk]%lookup_delete_Some. apply lookup_fmap_Some in Hk as (g0 & <- & Hk). apply Hw in Hk.
      unfold reparent. by case_decide.
    + apply (acyclic_sub (groups m)); [|exact Ha]. intros x y (g' & [Hx Hk]%lookup_delete_Some & <- & Hy).
      apply lookup_fmap_Some in Hk as (g0 & <- & Hk). unfold reparent in *. case_decide as Hpi; simpl in *.
      * eapply tc_l; [exists g0; split_and!; [done|done|]; by destruct (Hw _ _ Hg)|]. apply tc_once. by exists g.
      * apply tc_once. by exists g0.
Qed.

Lemma tree_store_init : tree_store NewMemoryGroupStore.
Proof.
  split; [intros k g; simpl; by rewrite lookup_empty|].
  intros x Hx. inversion Hx as [? ? (g & Hg & _)|? ? ? (g & Hg & _)]; simpl in Hg; by rewrite lookup_empty in Hg.
Qed.

Lemma run_tree_store m : rtc group_step NewMemoryGroupStore m → tree_store m.
Proof.
  intros Hr. assert (Hi := tree_store_init). revert Hi. induction Hr; eauto using group_step_tree.
Qed.


(** [IsAncestor] always ends, also on a store with a cycle, and is the transitive closure of the parent pointers,
    for ids that are not blank. *)
Theorem is_ancestor_spec c d m :
  ∃ b, IsAncestor c d m = Some b ∧
    (b = true ↔ trim_space c ≠ "" ∧ trim_space d ≠ "" ∧ tc (child_of (groups m)) (trim_space d) (trim_space c)).
Proof. apply is_ancestor_walk. Qed.

Definition demo_create (name parent : string) : CreateRequest :=
  MkCreateGroup name "" parent "" 0 "" "" None None ∅ "".

Definition demo_rack : MemoryGroupStore :=
  (handleGroupCreate 1 "rack" (demo_create "Rack" "home") (handleGroupCreate 0 "home" (demo_create "Home" "") NewMemoryGroupStore).1).1.

Lemma demo_rack_run : rtc group_step NewMemoryGroupStore demo_rack.
Proof.
  eapply rtc_l; [apply (gs_create _ 0 "home" (demo_create "Home" "")); [reflexivity|discriminate|discriminate|]|].
  { intros k g Hg. simpl in Hg. by rewrite lookup_empty in Hg. }
  apply rtc_once. apply (gs_create _ 1 "rack" (demo_create "Rack" "home")); [vm_compute; reflexivity|discriminate|discriminate|].
  destruct (create_groups 0 "home" (demo_create "Home" "") NewMemoryGroupStore) as (g0 & -> & Hp & _); [discriminate|].
  intros k g [[_ <-]|[_ Hg]]%lookup_insert_Some; [by rewrite Hp|simpl in Hg; by rewrite lookup_empty in Hg].
Qed.


(** [PUT /groups/{id}] does not ask [IsAncestor]: it puts a group under its own child, which
    [handleGroupMove] refuses, and then [GetGroupTree] does not end. *)
Lemma put_makes_cycle `{MapRange} :
  let req := MkUpdateGroup None None (Some "rack") None None None None None None None None in
  let m := (handleGroupPut 2 "home" req demo_rack).1 in
  is_ok (handleGroupPut 2 "home" req demo_rack).2 = true ∧
  handleGroupMove 2 "home" "rack" demo_rack = Some (demo_rack, Err ErrCycle) ∧
  ∀ fuel, GetGroupTree fuel m = None.
Proof.
  simpl. split; [vm_compute; reflexivity|]. split; [vm_compute; reflexivity|].
  intros fuel. apply (get_tree_none _ fuel "home").
  - apply update_wf. apply (run_tree_store _ demo_rack_run).
  - eapply tc_l; [|apply tc_once].
    + exists (updated_group 2 (MkUpdateGroup None None (Some "rack") None None None None None None None None)
        (CreateGroup 0 "home" (demo_create "Home" "") NewMemoryGroupStore).2). split_and!; [vm_compute; reflexivity..|discriminate].
    + exists (CreateGroup 1 "rack" (demo_create "Rack" "home") NewMemoryGroupStore).2. split_and!; [vm_compute; reflexivity..|discriminate].
Qed.
