(* ===== verification/AssetAccess.v ===== *)
(** * Which assets and groups a principal reaches

    [internal/hubapi/shared/asset_authorization.go]: the asset allow-list of an API key, applied to assets, to
    groups (a group is accessible when all the assets below it are) and to the assets of a connector's
    collector; and [groupIsSelected] of [internal/hubapi/worker/schedule_job_handler.go], which walks up the groups in the same way.
    The groups that a store lists may be in a cycle ([Groups]); both walks stop at a group they have seen. *)

From S2P Require Import Prelude GoStrings ApiKeys Assets Groups.

(** ** Walking up *)

(** The map from a group to its parent, [""] at a root. *)
Abbreviation parents := (gmap string string).

(** The groups that the loop visits, from [groupID] up; the fuel is the number of groups it may meet. *)
Fixpoint chain (fuel : nat) (ps : parents) (visited : gset string) (groupID : string) : list string :=
  match fuel with
  | O => []
  | S fuel =>
      if is_empty groupID then []
      else if decide (groupID ∈ visited) then []
      else groupID :: chain fuel ps ({[groupID]} ∪ visited) (default "" (ps !! groupID))
  end.

Definition walk (ps : parents) (groupID : string) : list string := chain (size ps + 2) ps ∅ groupID.

(** The same loop with a set of wanted groups: [groupIsSelected]. *)
Fixpoint selected_above (fuel : nat) (ps : parents) (selected visited : gset string) (groupID : string) : bool :=
  match fuel with
  | O => false
  | S fuel =>
      if is_empty groupID then false
      else if decide (groupID ∈ selected) then true
      else if decide (groupID ∈ visited) then false
      else selected_above fuel ps selected ({[groupID]} ∪ visited) (default "" (ps !! groupID))
  end.

Definition groupIsSelected (groupID : string) (selected : gset string) (ps : parents) : bool :=
  selected_above (size ps + 2) ps selected ∅ groupID.

(** ** The allow-list *)

Definition HasAssetRestriction (c : context) : bool := negb (bool_decide (elems (C_assets c) = [])).

Definition AssetCheckContext (c : context) (assetID : string) : bool := AssetCheck (C_assets c) assetID.

(** The loop of [AllAssetsAllowed] with the number it has [checked]. *)
Fixpoint all_allowed (allowed : list string) (checked : Z) (assetIDs : list string) : bool :=
  match assetIDs with
  | [] => 0 <? checked
  | assetID :: assetIDs =>
      let assetID := trim_space assetID in
      if is_empty assetID then all_allowed allowed checked assetIDs
      else if negb (AssetAllowed allowed assetID) then false
      else all_allowed allowed (checked + 1) assetIDs
  end.

Definition AllAssetsAllowed (c : context) (assetIDs : list string) : bool :=
  let allowed := elems (C_assets c) in
  bool_decide (allowed = []) || all_allowed allowed 0 assetIDs.

(** [parents[groupID] = parent] for each group of the list. *)
Definition group_parents (groupList : list Group) : parents :=
  foldl (λ ps g, let groupID := trim_space (G_ID g) in if is_empty groupID then ps else <[groupID := trim_space (G_ParentGroupID g)]> ps) ∅ groupList.

(** [m[k]++] on a map of counters. *)
Definition incr (k : string) (m : gmap string Z) : gmap string Z := <[k := default 0 (m !! k) + 1]> m.

(** One asset of the counting loop, with the maps [total] and [permitted]. *)
Definition count_asset (c : context) (ps : parents) (acc : gmap string Z * gmap string Z) (a : Asset) : gmap string Z * gmap string Z :=
  let groupID := trim_space (A_GroupID a) in
  if is_empty groupID then acc
  else
    let assetAllowed := AssetCheckContext c (A_ID a) in
    foldl (λ acc g, (incr g acc.1, if assetAllowed then incr g acc.2 else acc.2)) acc (walk ps groupID).

Definition AccessibleGroupIDs (c : context) (groupList : list Group) (assetList : list Asset) : gset string :=
  if negb (HasAssetRestriction c) then
    foldl (λ out g, let groupID := trim_space (G_ID g) in if negb (is_empty groupID) then {[groupID]} ∪ out else out) ∅ groupList
  else
    let ps := group_parents groupList in
    let '(total, permitted) := foldl (count_asset c ps) (∅, ∅) assetList in
    foldl (λ out g,
      let groupID := trim_space (G_ID g) in
      if negb (is_empty groupID) && (0 <? default 0 (total !! groupID)) &&
         (default 0 (total !! groupID) =? default 0 (permitted !! groupID))
      then {[groupID]} ∪ out else out) ∅ groupList.

Definition FilterGroupsByAssetAccess (c : context) (groupList : list Group) (assetList : list Asset) : list Group :=
  if negb (HasAssetRestriction c) then groupList
  else
    let accessible := AccessibleGroupIDs c groupList assetList in
    List.filter (λ g, bool_decide (trim_space (G_ID g) ∈ accessible)) groupList.

Definition FilterAssetsByAccess (c : context) (assetList : list Asset) : list Asset :=
  if negb (HasAssetRestriction c) then assetList else List.filter (λ a, AssetCheckContext c (A_ID a)) assetList.

(** The loop of [AllCollectorAssetsAllowed] after its checks, with [found]. *)
Fixpoint collector_allowed (c : context) (source collectorID : string) (found : bool) (assetList : list Asset) : bool :=
  match assetList with
  | [] => found
  | a :: assetList =>
      if negb (equal_fold (trim_space (A_Source a)) source) then collector_allowed c source collectorID found assetList
      else
        let assetCollectorID := trim_space (default "" (A_Metadata a !! "collector_id")) in
        if is_empty assetCollectorID then false
        else if negb (bool_decide (assetCollectorID = collectorID)) then collector_allowed c source collectorID found assetList
        else if negb (AssetCheckContext c (A_ID a)) then false
        else collector_allowed c source collectorID true assetList
  end.

(** [None] is an error; the [store] is [None] for [nil] and lists [None] when [ListAssets] fails. *)
Definition AllCollectorAssetsAllowed (c : context) (store : option (option (list Asset))) (source collectorID : string) : option bool :=
  if negb (HasAssetRestriction c) then Some true
  else store ≫= λ ListAssets,
    let source := trim_space source in
    let collectorID := trim_space collectorID in
    if is_empty source || is_empty collectorID then Some false else collector_allowed c source collectorID false <$> ListAssets.

(** ** Walks are complete *)

(** [b] is the parent of [a]. *)
Definition above (ps : parents) (a b : string) : Prop := ps !! a = Some b ∧ b ≠ "".

Lemma chain_sound fuel ps visited a b : b ∈ chain fuel ps visited a → a ≠ "" ∧ rtc (above ps) a b.
Proof.
  revert visited a. induction fuel as [|fuel IH]; intros visited a; simpl; [by intros ?%not_elem_of_nil|].
  case_bool_decide as Ha; [by intros ?%not_elem_of_nil|]. case_decide; [by intros ?%not_elem_of_nil|].
  intros [->|Hb]%elem_of_cons; [split; [done|apply rtc_refl]|]. apply IH in Hb as [Hp Hb]. split; [done|].
  destruct (ps !! a) as [p|] eqn:Hpa; simpl in *; [|done]. eapply rtc_l; [|exact Hb]. done.
Qed.

Lemma chain_head fuel ps visited a : (0 < fuel)%nat → a ≠ "" → a ∉ visited → a ∈ chain fuel ps visited a.
Proof. intros Hf Ha Hv. destruct fuel; [lia|]. simpl. rewrite bool_decide_eq_false_2, decide_False by done. by left. Qed.

(** What the walk has visited is closed under parents, but for what was visited before. *)
Lemma chain_closed fuel ps visited a x y :
  (size (dom ps ∖ visited) + 2 ≤ fuel)%nat → x ∈ chain fuel ps visited a → above ps x y → y ∈ chain fuel ps visited a ∨ y ∈ visited.
Proof.
  revert visited a. induction fuel as [|fuel IH]; intros visited a Hf; [lia|]. simpl.
  case_bool_decide as Ha; [by intros ?%not_elem_of_nil|]. case_decide as Hv; [by intros ?%not_elem_of_nil|].
  intros Hx [Hxy Hy]. rewrite elem_of_cons.
  assert (Hdec : ∀ z, ps !! a = Some z → (size (dom ps ∖ ({[a]} ∪ visited)) + 2 ≤ fuel)%nat).
  { intros z Hz. assert (size (dom ps ∖ ({[a]} ∪ visited)) < size (dom ps ∖ visited))%nat; [|lia].
    apply subset_size. apply elem_of_dom_2 in Hz. set_solver. }
  apply elem_of_cons in Hx as [->|Hx].
  - rewrite Hxy. simpl. destruct (decide (y = a)) as [->|Hne]; [auto|]. destruct (decide (y ∈ visited)) as [|Hyv]; [auto|].
    left. right. apply chain_head; [specialize (Hdec _ Hxy); lia|done|set_solver].
  - destruct (ps !! a) as [z|] eqn:Hz; simpl in *.
    + destruct (IH ({[a]} ∪ visited) z (Hdec _ eq_refl) Hx (conj Hxy Hy)) as [|[->%elem_of_singleton|]%elem_of_union]; auto.
    + destruct fuel; [by apply not_elem_of_nil in Hx|]. change (x ∈ ([] : list string)) in Hx. by apply not_elem_of_nil in Hx.
Qed.

Lemma elem_of_walk ps a b : b ∈ walk ps a ↔ a ≠ "" ∧ rtc (above ps) a b.
Proof.
  split; [apply chain_sound|]. intros [Ha Hr]. unfold walk.
  assert (Hfuel : (size (dom ps ∖ ∅) + 2 ≤ size ps + 2)%nat) by (rewrite difference_empty_L, size_dom; lia).
  assert (Hstep : ∀ x y, x ∈ chain (size ps + 2) ps ∅ a → rtc (above ps) x y → y ∈ chain (size ps + 2) ps ∅ a).
  { intros x y Hx Hxy. induction Hxy as [|x y z Hs _ IH]; [done|]. apply IH.
    destruct (chain_closed _ _ _ _ _ _ Hfuel Hx Hs) as [?|[]%not_elem_of_empty]; done. }
  apply (Hstep a b); [|done]. apply chain_head; [lia|done|set_solver].
Qed.

Lemma chain_avoids fuel ps visited a x : x ∈ chain fuel ps visited a → x ∉ visited.
Proof.
  revert visited a. induction fuel as [|fuel IH]; intros visited a; simpl; [by intros ?%not_elem_of_nil|].
  case_bool_decide; [by intros ?%not_elem_of_nil|]. case_decide; [by intros ?%not_elem_of_nil|].
  intros [->|Hx]%elem_of_cons; [done|]. apply IH in Hx. set_solver.
Qed.

Lemma chain_nodup fuel ps visited a : NoDup (chain fuel ps visited a).
Proof.
  revert visited a. induction fuel as [|fuel IH]; intros visited a; simpl; [apply NoDup_nil_2|].
  case_bool_decide; [apply NoDup_nil_2|]. case_decide; [apply NoDup_nil_2|]. apply NoDup_cons. split; [|apply IH].
  intros ?%chain_avoids. set_solver.
Qed.

Lemma selected_above_chain fuel ps selected visited a :
  visited ## selected → selected_above fuel ps selected visited a = existsb (λ g, bool_decide (g ∈ selected)) (chain fuel ps visited a).
Proof.
  revert visited a. induction fuel as [|fuel IH]; intros visited a Hd; [done|]. simpl.
  case_bool_decide; [done|]. destruct (decide (a ∈ selected)) as [Hs|Hs].
  - rewrite decide_False by set_solver. simpl. rewrite bool_decide_eq_true_2 by done. done.
  - case_decide; [done|]. simpl. rewrite bool_decide_eq_false_2 by done. apply IH. set_solver.
Qed.

(** ** Counters *)

Lemma incr_all l (m : gmap string Z) k :
  NoDup l → default 0 (foldl (λ m g, incr g m) m l !! k) = default 0 (m !! k) + (if bool_decide (k ∈ l) then 1 else 0).
Proof.
  intros Hnd. revert m. induction Hnd as [|x l Hx _ IH]; intros m; cbn [foldl].
  - rewrite bool_decide_eq_false_2 by apply not_elem_of_nil. lia.
  - rewrite IH. unfold incr. destruct (decide (k = x)) as [->|Hne].
    + rewrite lookup_insert_eq, bool_decide_eq_false_2, bool_decide_eq_true_2 by (done || by left). simpl. lia.
    + rewrite lookup_insert_ne by done. rewrite (bool_decide_ext (k ∈ x :: l) (k ∈ l)); [done|]. rewrite elem_of_cons. tauto.
Qed.

Lemma count_pair (b : bool) l (acc : gmap string Z * gmap string Z) :
  foldl (λ acc g, (incr g acc.1, if b then incr g acc.2 else acc.2)) acc l =
  (foldl (λ m g, incr g m) acc.1 l, if b then foldl (λ m g, incr g m) acc.2 l else acc.2).
Proof. revert acc. induction l as [|x l IH]; intros [t p]; simpl; [by destruct b|]. rewrite IH. by destruct b. Qed.

(** An asset lies in the subtree of [g]: the loop counts it there. *)
Definition asset_below (ps : parents) (g : string) (a : Asset) : Prop :=
  trim_space (A_GroupID a) ≠ "" ∧ rtc (above ps) (trim_space (A_GroupID a)) g.

Definition counted (ps : parents) (g : string) (a : Asset) : bool := bool_decide (g ∈ walk ps (trim_space (A_GroupID a))).

Lemma counted_spec ps g a : counted ps g a = true ↔ asset_below ps g a.
Proof. unfold counted. rewrite bool_decide_eq_true. apply elem_of_walk. Qed.

Lemma walk_empty ps : walk ps "" = [].
Proof. unfold walk. by rewrite Nat.add_comm. Qed.

Lemma count_asset_spec c ps acc a g :
  default 0 ((count_asset c ps acc a).1 !! g) = default 0 (acc.1 !! g) + (if counted ps g a then 1 else 0) ∧
  default 0 ((count_asset c ps acc a).2 !! g) = default 0 (acc.2 !! g) + (if counted ps g a && AssetCheckContext c (A_ID a) then 1 else 0).
Proof.
  unfold count_asset, counted. case_bool_decide as He.
  - rewrite He, walk_empty, bool_decide_eq_false_2 by apply not_elem_of_nil. simpl. lia.
  - rewrite count_pair. cbn [fst snd]. rewrite incr_all by apply chain_nodup. split; [done|].
    destruct (AssetCheckContext c (A_ID a)); [by rewrite andb_true_r, incr_all by apply chain_nodup|rewrite andb_false_r; lia].
Qed.

Lemma count_assets_spec c ps acc l g :
  default 0 ((foldl (count_asset c ps) acc l).1 !! g) = default 0 (acc.1 !! g) + Z.of_nat (length (List.filter (counted ps g) l)) ∧
  default 0 ((foldl (count_asset c ps) acc l).2 !! g) = default 0 (acc.2 !! g) + Z.of_nat (length (List.filter (λ a, counted ps g a && AssetCheckContext c (A_ID a)) l)).
Proof.
  revert acc. induction l as [|a l IH]; intros acc; simpl; [lia|].
  destruct (IH (count_asset c ps acc a)) as [-> ->], (count_asset_spec c ps acc a g) as [-> ->].
  destruct (counted ps g a); simpl; [destruct (AssetCheckContext c (A_ID a)); simpl; lia|lia].
Qed.

(** A filter keeps as many elements as a weaker one when it keeps all of them. *)
Lemma filter_and_length {A} (p q : A → bool) l :
  (length (List.filter (λ a, p a && q a) l) ≤ length (List.filter p l))%nat ∧
  (length (List.filter (λ a, p a && q a) l) = length (List.filter p l) ↔ ∀ a, a ∈ l → p a = true → q a = true).
Proof.
  induction l as [|a l [IHle IH]]; simpl; [split; [lia|split; [by intros _ a ?%not_elem_of_nil|done]]|].
  setoid_rewrite elem_of_cons. destruct (p a) eqn:Hp; simpl; [destruct (q a) eqn:Hq; simpl|].
  - split; [lia|]. rewrite Nat.succ_inj_wd, IH. split; [|by eauto]. by intros Hall b [->|Hb]; [|apply Hall].
  - split; [lia|]. split; [lia|]. intros Hall. rewrite (Hall a) in Hq; [done|by left|done].
  - split; [done|]. rewrite IH. split; [|by eauto]. intros Hall b [->|Hb]; [congruence|by apply Hall].
Qed.

Lemma filter_length_pos {A} (p : A → bool) l : (0 < length (List.filter p l))%nat ↔ ∃ a, a ∈ l ∧ p a = true.
Proof.
  induction l as [|a l IH]; simpl; [split; [lia|intros (a & ?%not_elem_of_nil & _); done]|].
  setoid_rewrite elem_of_cons. destruct (p a) eqn:Hp; simpl; [split; [by eauto|lia]|]. rewrite IH.
  split; [by intros (b & ? & ?); eauto|intros (b & [->|?] & ?); [congruence|by eauto]].
Qed.

Lemma collect_ids {A} (id : A → string) (keep : string → bool) l out g :
  g ∈ foldl (λ out x, if keep (id x) then {[id x]} ∪ out else out) out l ↔ g ∈ (out : gset string) ∨ keep g = true ∧ g ∈ id <$> l.
Proof.
  revert out. induction l as [|x l IH]; intros out; csimpl; [split; [by left|intros [|[_ ?%not_elem_of_nil]]; done]|].
  rewrite IH, elem_of_cons. destruct (keep (id x)) eqn:Hk; [set_solver|]. split; [tauto|]. intros [|[Hg [->|]]]; [tauto|congruence|tauto].
Qed.

(** ** Theorems *)

Lemma groupIsSelected_spec groupID selected ps :
  groupIsSelected groupID selected ps = true ↔ ∃ g, g ∈ selected ∧ groupID ≠ "" ∧ rtc (above ps) groupID g.
Proof.
  unfold groupIsSelected. rewrite selected_above_chain by set_solver. fold (walk ps groupID). rewrite existsb_exists.
  split.
  - intros (g & Hg%list_elem_of_In%elem_of_walk & Hs%bool_decide_eq_true). by exists g.
  - intros (g & Hs & Hg). exists g. rewrite <-list_elem_of_In, elem_of_walk. split; [done|by apply bool_decide_eq_true].
Qed.

Lemma restricted_spec c : HasAssetRestriction c = true ↔ elems (C_assets c) ≠ [].
Proof. unfold HasAssetRestriction. by rewrite negb_true_iff, bool_decide_eq_false. Qed.

Lemma restricted_check c assetID : HasAssetRestriction c = true → (AssetCheckContext c assetID = true ↔ assetID ∈ elems (C_assets c)).
Proof.
  rewrite restricted_spec. intros Hr. unfold AssetCheckContext, AssetCheck, AssetAllowed.
  by rewrite bool_decide_eq_false_2, orb_false_l, bool_decide_eq_true.
Qed.

(** The assets of a connector: [source] is trimmed. *)
Definition of_source (source : string) (a : Asset) : bool := equal_fold (trim_space (A_Source a)) source.
Definition collector_of (a : Asset) : string := trim_space (default "" (A_Metadata a !! "collector_id")).

(** A restricted principal reaches a collector exactly if it has an asset, all its assets are allowed and no asset of the
    same connector hides its collector. *)
Lemma collector_allowed_spec c source collectorID found l :
  collectorID ≠ "" →
  collector_allowed c source collectorID found l = true ↔
  (found = true ∨ Exists (λ a, of_source source a = true ∧ collector_of a = collectorID) l) ∧
  Forall (λ a, of_source source a = true → collector_of a ≠ "" ∧ (collector_of a = collectorID → AssetCheckContext c (A_ID a) = true)) l.
Proof.
  intros Hne. revert found. induction l as [|a l IH]; intros found; simpl; [rewrite Exists_nil, Forall_nil; tauto|].
  change (equal_fold (trim_space (A_Source a)) source) with (of_source source a).
  change (trim_space (default "" (A_Metadata a !! "collector_id"))) with (collector_of a).
  rewrite Exists_cons, Forall_cons. destruct (of_source source a); simpl; [|rewrite IH; intuition congruence].
  case_bool_decide as He; [intuition congruence|]. case_bool_decide as Hc; simpl; [|rewrite IH; intuition congruence].
  destruct (AssetCheckContext c (A_ID a)); simpl; [rewrite IH|]; intuition congruence.
Qed.

(** What a group is accessible for: an asset below it, and no asset below it outside the allow-list. *)
Definition covered (c : context) (groupList : list Group) (assetList : list Asset) (g : string) : Prop :=
  (∃ a, a ∈ assetList ∧ asset_below (group_parents groupList) g a) ∧
  (∀ a, a ∈ assetList → asset_below (group_parents groupList) g a → A_ID a ∈ elems (C_assets c)).

(** C40: for a principal without an allow-list the accessible groups are all the groups; for one with an
    allow-list they are exactly the groups that have an asset in their subtree and whose subtree has only assets
    of the allow-list, where the subtree of a group is what reaches it over any number of parents, also when
    the stored parents have a cycle. The counters and the walk with its [visited] set compute this. *)
Theorem accessible_groups_spec c groupList assetList g :
  g ∈ AccessibleGroupIDs c groupList assetList ↔
  g ≠ "" ∧ g ∈ (λ x, trim_space (G_ID x)) <$> groupList ∧
  (HasAssetRestriction c = true → covered c groupList assetList g).
Proof.
  unfold AccessibleGroupIDs. destruct (HasAssetRestriction c) eqn:Hr; cbn [negb].
  - set (ps := group_parents groupList). destruct (foldl (count_asset c ps) (∅, ∅) assetList) as [total permitted] eqn:Hf.
    destruct (count_assets_spec c ps (∅, ∅) assetList g) as [Ht Hp]. rewrite Hf in Ht, Hp. cbn [fst snd] in *.
    rewrite lookup_empty in Ht, Hp. cbn in Ht, Hp.
    etrans; [exact (collect_ids (λ x, trim_space (G_ID x)) (λ g, negb (is_empty g) && (0 <? default 0 (total !! g)) && (default 0 (total !! g) =? default 0 (permitted !! g))) _ _ _)|].
    cbn beta.    rewrite !andb_true_iff, negb_true_iff, bool_decide_eq_false, Z.ltb_lt, Z.eqb_eq, Ht, Hp.
    destruct (filter_and_length (counted ps g) (λ a, AssetCheckContext c (A_ID a)) assetList) as [_ Hall].
    pose proof (filter_length_pos (counted ps g) assetList) as Hpos.
    assert (Heq : ∀ n k : nat, 0 + Z.of_nat n = 0 + Z.of_nat k ↔ k = n) by lia. rewrite Heq, Hall.
    assert (Hlt : ∀ n : nat, 0 < 0 + Z.of_nat n ↔ (0 < n)%nat) by lia. rewrite Hlt, Hpos.
    unfold covered. setoid_rewrite counted_spec. setoid_rewrite restricted_check; [|done]. set_solver.
  - etrans; [exact (collect_ids (λ x, trim_space (G_ID x)) (λ g, negb (is_empty g)) _ _ _)|]. cbn beta. rewrite negb_true_iff, bool_decide_eq_false. set_solver.
Qed.
