(* ===== verification/GoTime.v ===== *)
(** * Times as text

    [time.Time.Format(time.RFC3339Nano)] of a UTC time, which the hub hashes into the identity of a scheduled
    occurrence and writes into the parameters of its runs. *)

From S2P Require Import Prelude GoStrings.

(** The last [width] decimal digits of [n]: enough for the fields of a time and for a year from 0 to 9999. *)
Fixpoint digits (width : nat) (n : Z) : list ascii :=
  match width with
  | O => []
  | S width => digits width (n `div` 10) ++ [ascii_of_N (48 + Z.to_N (n `mod` 10))]
  end.

(** Year, month and day of a number of days since 1970-01-01, in the proleptic Gregorian calendar: eras of 400 years
    that start on the first of March. *)
Definition civil (days : Z) : Z * Z * Z :=
  let z := days + 719468 in
  let era := z `div` 146097 in
  let doe := z `mod` 146097 in
  let yoe := (doe - doe `div` 1460 + doe `div` 36524 - doe `div` 146096) `div` 365 in
  let doy := doe - (365 * yoe + yoe `div` 4 - yoe `div` 100) in
  let mp := (5 * doy + 2) `div` 153 in
  let d := doy - (153 * mp + 2) `div` 5 + 1 in
  let m := if mp <? 10 then mp + 3 else mp - 9 in
  (yoe + era * 400 + (if m <=? 2 then 1 else 0), m, d).

(** The fraction without its trailing zeros, with its dot; empty for a whole second. *)
Definition drop_zeros (l : list ascii) : list ascii := rev (foldl (λ acc c, if decide (acc = [] ∧ c = "0"%char) then acc else acc ++ [c]) [] (rev l)).
Definition fraction (nanos : Z) : list ascii := match drop_zeros (digits 9 nanos) with [] => [] | l => "."%char :: l end.

Definition FormatRFC3339Nano (t : time) : string :=
  let secs := t `div` Second in
  let '(y, m, d) := civil (secs `div` 86400) in
  let s := secs `mod` 86400 in
  of_chars (digits 4 y ++ "-"%char :: digits 2 m ++ "-"%char :: digits 2 d ++ "T"%char :: digits 2 (s `div` 3600) ++ ":"%char ::
    digits 2 ((s `div` 60) `mod` 60) ++ ":"%char :: digits 2 (s `mod` 60) ++ fraction (t `mod` Second) ++ ["Z"%char]).

Example format_epoch : FormatRFC3339Nano 0 = "1970-01-01T00:00:00Z".
Proof. by vm_compute. Qed.
Example format_leap : FormatRFC3339Nano (951782400 * Second + 5000000) = "2000-02-29T00:00:00.005Z".
Proof. by vm_compute. Qed.
Example format_nanos : FormatRFC3339Nano (1700000000 * Second + 123456789) = "2023-11-14T22:13:20.123456789Z".
Proof. by vm_compute. Qed.
