(* ===== verification/Schedules.v ===== *)
(** * Schedules: definitions of recurring commands

    [internal/schedules] ([cron.go], [types.go]), the in-memory store
    ([internal/persistence/memory_schedules.go]) and the handlers of [/api/v2/schedules]
    ([internal/hubapi/schedulespkg/handlers.go], [authorization.go]) with the check that the scheduler makes again
    for the creator when it runs a command.

    The cron parser is third-party: it is the parameter [CronParser], from an expression to the function
    [Next] of the schedule, which returns the zero time when there is no later occurrence. *)

From S2P Require Import Prelude GoStrings Accounts ApiKeys Assets Groups AssetAccess.

(** ** Types *)

Definition MaxScheduledTasksGlobal : Z := 4096.
Definition MaxScheduledTasksPerPrincipal : Z := 512.
Definition MaxScheduledTaskPageSize : Z := 100.

Record ScheduledTask := MkTask {
  ST_ID : string; ST_Name : string; ST_CronExpr : string; ST_Command : string; ST_Targets : list string; ST_GroupID : string;
  ST_Enabled : bool; ST_CreatedBy : string; ST_CreatedAt : time; ST_LastRunAt : option time; ST_NextRunAt : option time;
  ST_LastRunStatus : string; ST_LastError : string; ST_LastRunJobID : string }.
#[export] Instance ScheduledTask_eq_dec : EqDecision ScheduledTask.
Proof. solve_decision. Defined.

Record CreateRequest := MkCreateSchedule {
  SC_Name : string; SC_CronExpr : string; SC_Command : string; SC_Targets : list string; SC_GroupID : string; SC_Enabled : option bool }.

(** [None] leaves [next_run_at] as it is. *)
Definition NextRunUpdate : Type := option (option time).

Record ExecutionJob := MkExecution {
  X_JobID : string; X_ScheduleID : string; X_ScheduleName : string; X_ScheduledFor : time; X_Command : string;
  X_Targets : list string; X_GroupID : string; X_ActorID : string }.
#[export] Instance ExecutionJob_eq_dec : EqDecision ExecutionJob.
Proof. solve_decision. Defined.

(** ** The next run *)

Class CronParser := Parse : string → option (time → time).

Definition MaxCronExpressionLength : Z := 256.

Inductive cron_error := CronRequired | CronTooLong | CronTimezone | CronEvery | CronInvalid | CronNoFuture.

Definition has_timezone (expression : string) : bool := has_prefix expression "TZ=" || has_prefix expression "CRON_TZ=".

(** The expression without its timezone; [None] when the prefix lacks a timezone or a schedule. *)
Definition without_timezone (expression : string) : option string :=
  match cut_at " "%char (chars expression), cut_at "="%char (chars expression) with
  | Some (before, rest), Some (key, _) =>
      if Z.of_nat (length before) <=? Z.of_nat (length key) + 1 then None
      else if bool_decide (rest = []) then None
      else let scheduleExpression := trim_space (of_chars rest) in
           if is_empty scheduleExpression then None else Some scheduleExpression
  | _, _ => None
  end.

Definition NextRun `{CronParser} (expression : string) (after : time) : result cron_error time :=
  let expression := trim_space expression in
  if is_empty expression then Err CronRequired
  else if MaxCronExpressionLength <? str_len expression then Err CronTooLong
  else
    let scheduleExpression := if has_timezone expression then without_timezone expression else Some expression in
    match scheduleExpression with
    | None => Err CronTimezone
    | Some scheduleExpression =>
        if has_prefix scheduleExpression "@every" then Err CronEvery
        else
          let parseExpression := if has_timezone expression then expression else String.append "CRON_TZ=UTC " expression in
          match Parse parseExpression with
          | None => Err CronInvalid
          | Some Next => let next := Next after in if (next =? zero_time) || (next <=? after) then Err CronNoFuture else Ok next
          end
    end.

(** ** The in-memory store *)

Record memoryScheduleStore := MkScheduleStore { tasks : gmap string ScheduledTask; principalCounts : gmap string Z }.

Definition NewMemoryScheduleStore : memoryScheduleStore := MkScheduleStore ∅ ∅.

Inductive schedule_error := ErrScheduleExists | ErrScheduleNotFound | ErrScheduledTaskCapacityExceeded.

(** [m.principalCounts[by]--], and the delete at zero. *)
Definition release_principal (by_ : string) (m : gmap string Z) : gmap string Z :=
  let n := default 0 (m !! by_) - 1 in if n <=? 0 then delete by_ m else <[by_ := n]> m.

Definition CreateScheduledTask (task : ScheduledTask) (m : memoryScheduleStore) : memoryScheduleStore * result schedule_error unit :=
  match tasks m !! ST_ID task with
  | Some _ => (m, Err ErrScheduleExists)
  | None =>
      if (MaxScheduledTasksGlobal <=? Z.of_nat (size (tasks m))) ||
         (MaxScheduledTasksPerPrincipal <=? default 0 (principalCounts m !! ST_CreatedBy task))
      then (m, Err ErrScheduledTaskCapacityExceeded)
      else (MkScheduleStore (<[ST_ID task := task]> (tasks m)) (incr (ST_CreatedBy task) (principalCounts m)), Ok tt)
  end.

Definition GetScheduledTask (id : string) (m : memoryScheduleStore) : option ScheduledTask := tasks m !! id.

Definition normalizeScheduledTaskListBounds (limit offset : Z) : Z * Z :=
  let limit := if limit <=? 0 then MaxScheduledTaskPageSize else limit in
  let limit := if MaxScheduledTasksGlobal + 1 <? limit then MaxScheduledTasksGlobal + 1 else limit in
  let offset := if offset <? 0 then 0 else offset in
  let offset := if MaxScheduledTasksGlobal <? offset then MaxScheduledTasksGlobal else offset in
  (limit, offset).

(** [created_at DESC, id DESC] *)
Definition newer_task (x y : ScheduledTask) : Prop :=
  ST_CreatedAt y < ST_CreatedAt x ∨ ST_CreatedAt x = ST_CreatedAt y ∧ String.le (ST_ID y) (ST_ID x).
#[export] Instance newer_task_dec : RelDecision newer_task.
Proof. intros x y. unfold newer_task. apply _. Defined.

Definition ListScheduledTasks `{MapRange} (limit offset : Z) (m : memoryScheduleStore) : list ScheduledTask * Z :=
  let result := merge_sort newer_task (range (tasks m)).*2 in
  let total := list_len result in
  let '(limit, offset) := normalizeScheduledTaskListBounds limit offset in
  if total <=? offset then ([], total)
  else (take (Z.to_nat (Z.min (offset + limit) total - offset)) (drop (Z.to_nat offset) result), total).

(** [next_run_at ASC NULLS FIRST, id ASC] *)
Definition due_before (x y : ScheduledTask) : Prop :=
  match ST_NextRunAt x, ST_NextRunAt y with
  | None, None => String.le (ST_ID x) (ST_ID y)
  | None, Some _ => True
  | Some _, None => False
  | Some a, Some b => a < b ∨ a = b ∧ String.le (ST_ID x) (ST_ID y)
  end.
#[export] Instance due_before_dec : RelDecision due_before.
Proof. intros x y. unfold due_before. repeat case_match; apply _. Defined.

Definition needs_evaluation (now : time) (task : ScheduledTask) : bool :=
  ST_Enabled task && match ST_NextRunAt task with Some next => next <=? now | None => true end.

Definition ListScheduledTasksForEvaluation `{MapRange} (ctx : Ctx) (now : time) (limit : Z) (m : memoryScheduleStore) :
    result ctx_error (list ScheduledTask) :=
  let '(limit, _) := normalizeScheduledTaskListBounds limit 0 in
  match ctx, range (tasks m) with
  | Some e, _ :: _ => Err e
  | _, _ => Ok (take (Z.to_nat limit) (merge_sort due_before (select (needs_evaluation now) (tasks m))))
  end.

(** The arguments of [UpdateScheduledTask]; [None] is a nil pointer. *)
Record task_update := MkTaskUpdate {
  TU_Name : option string; TU_CronExpr : option string; TU_Command : option string; TU_Targets : option (list string);
  TU_GroupID : option string; TU_Enabled : option bool; TU_NextRun : NextRunUpdate; TU_EditedBy : string }.

Definition unfinished (status : string) : bool := bool_decide (status ∈ ["queued"; "running"]).

(** The fields of the row after the update but the creator. *)
Definition updated_task (u : task_update) (t : ScheduledTask) : ScheduledTask :=
  let cancel := bool_decide (TU_Enabled u = Some false) && unfinished (ST_LastRunStatus t) in
  MkTask (ST_ID t) (default (ST_Name t) (TU_Name u)) (default (ST_CronExpr t) (TU_CronExpr u)) (default (ST_Command t) (TU_Command u))
    (default (ST_Targets t) (TU_Targets u)) (default (ST_GroupID t) (TU_GroupID u)) (default (ST_Enabled t) (TU_Enabled u))
    (ST_CreatedBy t) (ST_CreatedAt t) (ST_LastRunAt t) (default (ST_NextRunAt t) (TU_NextRun u))
    (if cancel then "cancelled" else ST_LastRunStatus t) (ST_LastError t) (if cancel then "" else ST_LastRunJobID t).

Definition with_creator (by_ : string) (t : ScheduledTask) : ScheduledTask :=
  MkTask (ST_ID t) (ST_Name t) (ST_CronExpr t) (ST_Command t) (ST_Targets t) (ST_GroupID t) (ST_Enabled t) by_ (ST_CreatedAt t)
    (ST_LastRunAt t) (ST_NextRunAt t) (ST_LastRunStatus t) (ST_LastError t) (ST_LastRunJobID t).

(** [changed] *)
Definition changes (u : task_update) : bool :=
  bool_decide (is_Some (TU_Name u)) || bool_decide (is_Some (TU_CronExpr u)) || bool_decide (is_Some (TU_Command u)) ||
  bool_decide (is_Some (TU_Targets u)) || bool_decide (is_Some (TU_GroupID u)) || bool_decide (is_Some (TU_Enabled u)) ||
  bool_decide (is_Some (TU_NextRun u)).

Definition UpdateScheduledTask (id : string) (u : task_update) (m : memoryScheduleStore) : memoryScheduleStore * result schedule_error unit :=
  match tasks m !! id with
  | None => (m, Err ErrScheduleNotFound)
  | Some t =>
      let t' := updated_task u t in
      let editedBy := trim_space (TU_EditedBy u) in
      if changes u && negb (is_empty editedBy) && negb (bool_decide (editedBy = ST_CreatedBy t)) then
        (MkScheduleStore (<[id := with_creator editedBy t']> (tasks m))
           (incr editedBy (release_principal (ST_CreatedBy t) (principalCounts m))), Ok tt)
      else (MkScheduleStore (<[id := t']> (tasks m)) (principalCounts m), Ok tt)
  end.

Definition DeleteScheduledTask (id : string) (m : memoryScheduleStore) : memoryScheduleStore * result schedule_error unit :=
  match tasks m !! id with
  | None => (m, Err ErrScheduleNotFound)
  | Some task => (MkScheduleStore (delete id (tasks m)) (release_principal (ST_CreatedBy task) (principalCounts m)), Ok tt)
  end.

(** ** Who may use a schedule *)

(** [PrincipalActorID] *)
Definition PrincipalActorID (c : context) : string :=
  let actorID := trim_space (C_user c) in if is_empty actorID then "system" else actorID.

(** What [ListGroups] and [ListAssets] return; [None] when a store is missing or fails. *)
Abbreviation inventory := (option (list Group * list Asset)).

(** The targets in order; [None] is an error of [loadGroups]. *)
Fixpoint targets_allowed (c : context) (inv : inventory) (hasConcreteScope : bool) (targets : list string) : option bool :=
  match targets with
  | [] => Some hasConcreteScope
  | target :: targets =>
      let target := trim_space target in
      if is_empty target then targets_allowed c inv hasConcreteScope targets
      else if AssetCheckContext c target then targets_allowed c inv true targets
      else match inv with
           | None => None
           | Some (groups, assets) =>
               if decide (target ∈ AccessibleGroupIDs c groups assets) then targets_allowed c inv true targets else Some false
           end
  end.

Definition scheduleAllowed (c : context) (inv : inventory) (task : ScheduledTask) : option bool :=
  if negb (HasAssetRestriction c) then Some true
  else
    let groupID := trim_space (ST_GroupID task) in
    if is_empty groupID then targets_allowed c inv false (ST_Targets task)
    else match inv with
         | None => None
         | Some (groups, assets) =>
             if decide (groupID ∈ AccessibleGroupIDs c groups assets) then targets_allowed c inv true (ST_Targets task) else Some false
         end.

Definition requireScheduleAccess (c : context) (inv : inventory) (task : ScheduledTask) : bool :=
  bool_decide (scheduleAllowed c inv task = Some true).

Definition FilterScheduledTasksForAccess (c : context) (inv : inventory) (tasks : list ScheduledTask) : option (list ScheduledTask) :=
  if negb (HasAssetRestriction c) then Some tasks
  else foldr (λ task out, scheduleAllowed c inv task ≫= λ allowed, out ≫= λ l, Some (if allowed : bool then task :: l else l)) (Some []) tasks.

(** [AuthorizeExecutionTarget]: the stores are [None] when they are missing; an entry that
    a store cannot load is [None] in [GetKey] or [GetUser]. *)
Inductive auth_failure :=
| TargetMissing | KeyStoreUnavailable | KeyLoadFailed | KeyGone | KeyExpired | KeyIsOwner | KeyReadOnly | KeyLacksScope | KeyLacksAsset
| UserStoreUnavailable | UserLoadFailed | UserGone | UserReadOnly | CreatorUnauthorized.

Record auth_stores := MkAuthStores {
  APIKeyStore : option (string → option (option APIKey));
  AuthStore : option (string → option (option User)) }.

(** The creator of the key, when it is a user. *)
Definition key_creator_ok (d : auth_stores) (key : APIKey) : result auth_failure unit :=
  let creator := trim_space (K_CreatedBy key) in
  if is_empty creator || bool_decide (creator = "owner") || bool_decide (creator = "system") then Ok tt
  else match AuthStore d with
       | None => Err UserStoreUnavailable
       | Some GetUserByID =>
           match GetUserByID creator with
           | None => Err UserLoadFailed
           | Some None => Err CreatorUnauthorized
           | Some (Some user) => if HasWritePrivileges (U_Role user) then Ok tt else Err CreatorUnauthorized
           end
       end.

Definition key_may_run (now : time) (assetID : string) (d : auth_stores) (key : APIKey) : result auth_failure unit :=
  if match K_ExpiresAt key with Some e => e <? now | None => false end then Err KeyExpired
  else if bool_decide (NormalizeRole (K_Role key) = RoleOwner) then Err KeyIsOwner
  else if negb (HasWritePrivileges (K_Role key)) then Err KeyReadOnly
  else if negb (ScopeAllows (elems (K_Scopes key)) "actions:exec") then Err KeyLacksScope
  else if negb (AssetAllowed (elems (K_AllowedAssets key)) assetID) then Err KeyLacksAsset
  else key_creator_ok d key.

Definition AuthorizeExecutionTarget (now : time) (d : auth_stores) (actorID assetID : string) : result auth_failure unit :=
  let actorID := trim_space actorID in
  let assetID := trim_space assetID in
  if bool_decide (actorID = "owner") then Ok tt
  else if is_empty actorID || is_empty assetID then Err TargetMissing
  else if has_prefix actorID "apikey:" then
    match APIKeyStore d with
    | None => Err KeyStoreUnavailable
    | Some GetAPIKey =>
        match GetAPIKey (trim_space (trim_prefix actorID "apikey:")) with
        | None => Err KeyLoadFailed
        | Some None => Err KeyGone
        | Some (Some key) => key_may_run now assetID d key
        end
    end
  else match AuthStore d with
       | None => Err UserStoreUnavailable
       | Some GetUserByID =>
           match GetUserByID actorID with
           | None => Err UserLoadFailed
           | Some None => Err UserGone
           | Some (Some user) => if HasWritePrivileges (U_Role user) then Ok tt else Err UserReadOnly
           end
       end.

(** ** The handlers *)

Definition maxScheduleNameLength : Z := 200.
Definition maxScheduleCommandLength : Z := 4096.
Definition maxScheduleTargetsCount : Z := 500.

Fixpoint normalize_targets (seen : gset string) (targets : list string) : list string :=
  match targets with
  | [] => []
  | target :: targets =>
      let trimmed := trim_space target in
      if is_empty trimmed then normalize_targets seen targets
      else if decide (trimmed ∈ seen) then normalize_targets seen targets
      else trimmed :: normalize_targets ({[trimmed]} ∪ seen) targets
  end.
Definition normalizeScheduleTargets (targets : list string) : list string := normalize_targets ∅ targets.

Inductive schedule_response :=
| ScheduleRefused (status : Z) | ScheduleCreated (t : ScheduledTask) | ScheduleShown (t : ScheduledTask) | ScheduleUpdated (t : ScheduledTask)
| ScheduleDeleted | SchedulesListed (ts : list ScheduledTask) (total page perPage : Z).

Section handlers.
Context `{MapRange} `{CronParser}.

(** The checks of [V2CreateSchedule] up to the store, with the task it would store. *)
Definition create_task (now : time) (newid : string) (c : context) (inv : inventory) (req : CreateRequest) : result Z ScheduledTask :=
  let name := trim_space (SC_Name req) in
  if is_empty name || (maxScheduleNameLength <? str_len name) then Err 400
  else
    let cronExpr := trim_space (SC_CronExpr req) in
    if is_empty cronExpr then Err 400
    else match NextRun cronExpr now with
    | Err _ => Err 400
    | Ok nextRunAt =>
        let command := trim_space (SC_Command req) in
        if is_empty command || (maxScheduleCommandLength <? str_len command) then Err 400
        else
          let groupID := trim_space (SC_GroupID req) in
          let targets := normalizeScheduleTargets (SC_Targets req) in
          if maxScheduleTargetsCount <? list_len targets then Err 400
          else if bool_decide (targets = []) && is_empty groupID then Err 400
          else
            let enabled := default true (SC_Enabled req) in
            if enabled && negb (ScopeCheck (C_scopes c) "actions:exec") then Err 403
            else
              let task := MkTask newid name cronExpr command targets groupID enabled (PrincipalActorID c) now None
                            (if enabled then Some nextRunAt else None) "" "" "" in
              if negb (requireScheduleAccess c inv task) then Err 403 else Ok task
    end.

Definition V2CreateSchedule (now : time) (newid : string) (c : context) (inv : inventory) (req : CreateRequest) (m : memoryScheduleStore) :
    memoryScheduleStore * schedule_response :=
  match create_task now newid c inv req with
  | Err status => (m, ScheduleRefused status)
  | Ok task =>
      match CreateScheduledTask task m with
      | (m, Ok _) => (m, ScheduleCreated task)
      | (m, Err ErrScheduledTaskCapacityExceeded) => (m, ScheduleRefused 409)
      | (m, Err _) => (m, ScheduleRefused 500)
      end
  end.

Record UpdateScheduleRequest := MkUpdateSchedule {
  SU_Name : option string; SU_CronExpr : option string; SU_Command : option string; SU_Targets : option (list string);
  SU_GroupID : option string; SU_Enabled : option bool }.

Definition no_field (req : UpdateScheduleRequest) : bool :=
  bool_decide (SU_Name req = None) && bool_decide (SU_CronExpr req = None) && bool_decide (SU_Command req = None) &&
  bool_decide (SU_Targets req = None) && bool_decide (SU_GroupID req = None) && bool_decide (SU_Enabled req = None).

(** A text field that is given must not be empty, nor longer than [max]. *)
Definition bad_text (max : Z) (s : option string) : bool :=
  match s with Some s => is_empty s || (max <? str_len s) | None => false end.

Definition bad_cron (now : time) (s : option string) : bool :=
  match s with Some s => is_empty s || negb (is_ok (NextRun s now)) | None => false end.

(** The request as the handler rewrites it, when it passes the checks of its fields. *)
Definition clean_update (now : time) (req : UpdateScheduleRequest) : result Z UpdateScheduleRequest :=
  if no_field req then Err 400
  else
    let name := trim_space <$> SU_Name req in
    if bad_text maxScheduleNameLength name then Err 400
    else
      let cronExpr := trim_space <$> SU_CronExpr req in
      if bad_cron now cronExpr then Err 400
      else
        let command := trim_space <$> SU_Command req in
        if bad_text maxScheduleCommandLength command then Err 400
        else
          let targets := normalizeScheduleTargets <$> SU_Targets req in
          if match targets with Some l => maxScheduleTargetsCount <? list_len l | None => false end then Err 400
          else Ok (MkUpdateSchedule name cronExpr command targets (trim_space <$> SU_GroupID req) (SU_Enabled req)).

Definition prospective_task (req : UpdateScheduleRequest) (t : ScheduledTask) : ScheduledTask :=
  MkTask (ST_ID t) (ST_Name t) (default (ST_CronExpr t) (SU_CronExpr req)) (default (ST_Command t) (SU_Command req))
    (default (ST_Targets t) (SU_Targets req)) (default (ST_GroupID t) (SU_GroupID req)) (default (ST_Enabled t) (SU_Enabled req))
    (ST_CreatedBy t) (ST_CreatedAt t) (ST_LastRunAt t) (ST_NextRunAt t) (ST_LastRunStatus t) (ST_LastError t) (ST_LastRunJobID t).

(** What [V2UpdateSchedule] makes of the row it read, [existing]: the arguments of its write, or its status. The
    clock is read again for each [NextRun]. *)
Definition update_of (now now' : time) (c : context) (inv : inventory) (existing : ScheduledTask) (req : UpdateScheduleRequest) :
    result Z task_update :=
  if negb (requireScheduleAccess c inv existing) then Err 403
  else clean_update now req ≫= λ req,
    let prospective := prospective_task req existing in
    if bool_decide (ST_Targets prospective = []) && is_empty (ST_GroupID prospective) then Err 400
    else if ST_Enabled prospective && negb (ScopeCheck (C_scopes c) "actions:exec") then Err 403
    else if negb (requireScheduleAccess c inv prospective) then Err 403
    else
      let enabledChanged := match SU_Enabled req with Some e => negb (Bool.eqb e (ST_Enabled existing)) | None => false end in
      let args next := MkTaskUpdate (SU_Name req) (SU_CronExpr req) (SU_Command req) (SU_Targets req) (SU_GroupID req) (SU_Enabled req) next
                         (PrincipalActorID c) in
      if bool_decide (is_Some (SU_CronExpr req)) || enabledChanged then
        if ST_Enabled prospective then
          match NextRun (ST_CronExpr prospective) now' with
          | Err _ => Err 400
          | Ok next => Ok (args (Some (Some next)))
          end
        else Ok (args (Some None))
      else Ok (args None).

Definition V2UpdateSchedule (now now' : time) (c : context) (inv : inventory) (id : string) (req : UpdateScheduleRequest)
    (m : memoryScheduleStore) : memoryScheduleStore * schedule_response :=
  match GetScheduledTask id m with
  | None => (m, ScheduleRefused 404)
  | Some existing =>
      match update_of now now' c inv existing req with
      | Err status => (m, ScheduleRefused status)
      | Ok u =>
          match UpdateScheduledTask id u m with
          | (m, Err ErrScheduleNotFound) => (m, ScheduleRefused 404)
          | (m, Err _) => (m, ScheduleRefused 500)
          | (m, Ok _) => (m, match GetScheduledTask id m with Some task => ScheduleUpdated task | None => ScheduleRefused 404 end)
          end
      end
  end.

Definition V2GetSchedule (c : context) (inv : inventory) (id : string) (m : memoryScheduleStore) : schedule_response :=
  match GetScheduledTask id m with
  | None => ScheduleRefused 404
  | Some task => if requireScheduleAccess c inv task then ScheduleShown task else ScheduleRefused 403
  end.

Definition V2DeleteSchedule (c : context) (inv : inventory) (id : string) (m : memoryScheduleStore) : memoryScheduleStore * schedule_response :=
  match GetScheduledTask id m with
  | None => (m, ScheduleRefused 404)
  | Some task =>
      if negb (requireScheduleAccess c inv task) then (m, ScheduleRefused 403)
      else match DeleteScheduledTask id m with
           | (m, Ok _) => (m, ScheduleDeleted)
           | (m, Err ErrScheduleNotFound) => (m, ScheduleRefused 404)
           | (m, Err _) => (m, ScheduleRefused 500)
           end
  end.

(** A query parameter after [strings.TrimSpace] and [strconv.Atoi]. *)
Inductive int_param := NoParam | NotInt | IntParam (n : Z).

(** [page], [perPage] and [offset]; [rawPerPage] is [per_page], or [page_size] when that is empty. *)
Definition scheduleListPagination (rawPage rawPerPage : int_param) : option (Z * Z * Z) :=
  page ← match rawPage with NoParam => Some 1 | NotInt => None | IntParam n => if n <? 1 then None else Some n end;
  perPage ← match rawPerPage with
            | NoParam => Some MaxScheduledTaskPageSize
            | NotInt => None
            | IntParam n => if (n <? 1) || (MaxScheduledTaskPageSize <? n) then None else Some n
            end;
  let maxPage := MaxScheduledTasksGlobal `quot` perPage + 2 in
  if maxPage <? page then None else Some (page, perPage, (page - 1) * perPage).

Definition V2ListSchedules (c : context) (inv : inventory) (rawPage rawPerPage : int_param) (m : memoryScheduleStore) : schedule_response :=
  match scheduleListPagination rawPage rawPerPage with
  | None => ScheduleRefused 400
  | Some (page, perPage, offset) =>
      if HasAssetRestriction c then
        let '(all, total) := ListScheduledTasks (MaxScheduledTasksGlobal + 1) 0 m in
        if MaxScheduledTasksGlobal <? total then ScheduleRefused 500
        else
          let filtered := List.filter (requireScheduleAccess c inv) all in
          let total := list_len filtered in
          SchedulesListed (if offset <? total then take (Z.to_nat (Z.min (offset + perPage) total - offset)) (drop (Z.to_nat offset) filtered) else [])
            total page perPage
      else let '(tasks, total) := ListScheduledTasks perPage offset m in SchedulesListed tasks total page perPage
  end.

(** *** The routes *)

Inductive schedule_request :=
| ListReq (rawPage rawPerPage : int_param) | CreateReq (req : CreateRequest) | GetReq (id : string)
| UpdateReq (id : string) (req : UpdateScheduleRequest) | DeleteReq (id : string).

Definition schedule_scope (q : schedule_request) : string :=
  match q with ListReq _ _ | GetReq _ => "schedules:read" | _ => "schedules:write" end.

(** [HandleV2Schedules] and [HandleV2ScheduleActions] *)
Definition serve_schedules (now now' : time) (newid : string) (c : context) (inv : inventory) (q : schedule_request) (m : memoryScheduleStore) :
    memoryScheduleStore * schedule_response :=
  if negb (ScopeCheck (C_scopes c) (schedule_scope q)) then (m, ScheduleRefused 403)
  else match q with
       | ListReq p s => (m, V2ListSchedules c inv p s m)
       | CreateReq req => V2CreateSchedule now newid c inv req m
       | GetReq id => (m, V2GetSchedule c inv id m)
       | UpdateReq id req => V2UpdateSchedule now now' c inv id req m
       | DeleteReq id => V2DeleteSchedule c inv id m
       end.
End handlers.

(** ** Facts *)

Lemma next_run_future `{CronParser} expression after t :
  NextRun expression after = Ok t → after < t ∧ t ≠ zero_time ∧ ∃ p Next, has_timezone p = true ∧ Parse p = Some Next ∧ t = Next after.
Proof.
  unfold NextRun. intros Hn. repeat (case_if_in Hn; [done|]). case_match; [|done]. case_if_in Hn; [done|].
  set (p := if has_timezone (trim_space expression) then _ else _) in Hn. assert (Hz : has_timezone p = true).
  { unfold p. destruct (has_timezone (trim_space expression)) eqn:Ht; [done|]. unfold has_timezone. apply orb_true_iff. right.
    apply has_prefix_spec. by exists (String.append "UTC " (trim_space expression)). }
  destruct (Parse p) as [Next|] eqn:Hp; [|done]. case_if_in Hn; [done|]. injection Hn as <-. bool_prop. eauto 10.
Qed.

(** Only expressions with a timezone reach the parser, so the answer is the same in every process. *)
Lemma next_run_zone (p1 p2 : CronParser) expression after :
  (∀ e, has_timezone e = true → p1 e = p2 e) → @NextRun p1 expression after = @NextRun p2 expression after.
Proof.
  intros Hp. unfold NextRun. destruct (has_timezone (trim_space expression)) eqn:Ht.
  - unfold Parse. by rewrite (Hp (trim_space expression)).
  - unfold Parse. rewrite (Hp (String.append "CRON_TZ=UTC " _)); [done|]. unfold has_timezone. apply orb_true_iff. right.
    apply has_prefix_spec. by exists (String.append "UTC " (trim_space expression)).
Qed.

Lemma normalize_targets_spec seen l :
  NoDup (normalize_targets seen l) ∧
  ∀ x, x ∈ normalize_targets seen l ↔ x ∉ seen ∧ x ≠ "" ∧ ∃ y, y ∈ l ∧ trim_space y = x.
Proof.
  revert seen. induction l as [|y l IH]; intros seen; simpl.
  { split; [apply NoDup_nil_2|]. intros x. split; [by intros ?%not_elem_of_nil|by intros (_ & _ & y & ?%not_elem_of_nil & _)]. }
  setoid_rewrite elem_of_cons. case_bool_decide as He; [|case_decide as Hs].
  - destruct (IH seen) as [Hnd Hin]. split; [done|]. intros x. rewrite Hin. naive_solver.
  - destruct (IH seen) as [Hnd Hin]. split; [done|]. intros x. rewrite Hin. naive_solver.
  - destruct (IH ({[trim_space y]} ∪ seen)) as [Hnd Hin]. split.
    + apply NoDup_cons. split; [|done]. rewrite Hin. set_solver.
    + intros x. rewrite elem_of_cons, Hin, not_elem_of_union, not_elem_of_singleton. destruct (decide (x = trim_space y)); naive_solver.
Qed.

(** *** Capacity and principals *)

Lemma incr_lookup k m k' : default 0 (incr k m !! k') = default 0 (m !! k') + (if decide (k' = k) then 1 else 0).
Proof.
  unfold incr. destruct (decide (k' = k)) as [->|Hne]; [by rewrite lookup_insert_eq|]. rewrite lookup_insert_ne by done. lia.
Qed.

(** The counters hold the number of tasks of each principal, and no zeros. *)
Definition counts (ts : gmap string ScheduledTask) (m : gmap string Z) : Prop :=
  ∀ p, m !! p = (let n := count_where (λ t, ST_CreatedBy t = p) ts in if n =? 0 then None else Some n).

Lemma counts_default ts m p : counts ts m → default 0 (m !! p) = count_where (λ t, ST_CreatedBy t = p) ts.
Proof. intros Hc. rewrite Hc. simpl. case_match eqn:He; bool_prop; [by rewrite He|done]. Qed.

Lemma counts_incr ts ts' m p :
  counts ts m → (∀ q, count_where (λ t, ST_CreatedBy t = q) ts' = count_where (λ t, ST_CreatedBy t = q) ts + (if decide (q = p) then 1 else 0)) →
  counts ts' (incr p m).
Proof.
  intros Hc Hq q. simpl. rewrite Hq. unfold incr. pose proof (counts_default ts m p Hc) as Hp.
  pose proof (count_where_nonneg (λ t, ST_CreatedBy t = p) ts) as Hge. destruct (decide (q = p)) as [->|Hne].
  - rewrite lookup_insert_eq, Hp. case_match eqn:He; bool_prop; [lia|done].
  - rewrite lookup_insert_ne, Hc by done. simpl. by rewrite Z.add_0_r.
Qed.

Lemma counts_release ts ts' m p :
  counts ts m → 0 < count_where (λ t, ST_CreatedBy t = p) ts →
  (∀ q, count_where (λ t, ST_CreatedBy t = q) ts' = count_where (λ t, ST_CreatedBy t = q) ts - (if decide (q = p) then 1 else 0)) →
  counts ts' (release_principal p m).
Proof.
  intros Hc Hpos Hq q. simpl. rewrite Hq. unfold release_principal. rewrite (counts_default ts m p Hc).
  destruct (decide (q = p)) as [->|Hne].
  - destruct (Z.leb_spec (count_where (λ t, ST_CreatedBy t = p) ts - 1) 0) as [Hle|Hgt].
    + rewrite lookup_delete_eq. case_match eqn:He; bool_prop; [done|lia].
    + rewrite lookup_insert_eq. case_match eqn:He; bool_prop; [lia|done].
  - rewrite Z.sub_0_r. case_match; [rewrite lookup_delete_ne by done|rewrite lookup_insert_ne by done]; apply Hc.
Qed.

Record wf_schedules (m : memoryScheduleStore) : Prop := {
  ws_keyed id t : tasks m !! id = Some t → ST_ID t = id;
  ws_counts : counts (tasks m) (principalCounts m);
  ws_size : Z.of_nat (size (tasks m)) <= MaxScheduledTasksGlobal }.

Lemma wf_new_schedules : wf_schedules NewMemoryScheduleStore.
Proof. split; [done| |done]. intros p. simpl. by rewrite lookup_empty, count_where_zero by done. Qed.

Lemma create_wf task m m' r : wf_schedules m → CreateScheduledTask task m = (m', r) → wf_schedules m'.
Proof.
  intros [Hk Hc Hs] Hcr. unfold CreateScheduledTask in Hcr. destruct (tasks m !! ST_ID task) eqn:Hn; [by injection Hcr as <- _|].
  case_if_in Hcr; [by injection Hcr as <- _|]. injection Hcr as <- _. bool_prop. split; simpl.
  - intros id t [[<- <-]|[_ Hl]]%lookup_insert_Some; [done|by eapply Hk].
  - eapply counts_incr; [done|]. intros q. rewrite count_where_insert by done. f_equal. by destruct (decide (q = ST_CreatedBy task)), (decide (ST_CreatedBy task = q)).
  - rewrite map_size_insert_None by done. unfold MaxScheduledTasksGlobal in *. lia.
Qed.

Lemma replace_size {V} (m : gmap string V) k x y : m !! k = Some x → size (<[k := y]> m) = size m.
Proof. intros Hk. by apply map_size_insert_Some. Qed.

Lemma swap_if {A} (p q : A) `{EqDecision A} : (if decide (p = q) then 1 else 0) = (if decide (q = p) then 1 else 0).
Proof. by destruct (decide (p = q)), (decide (q = p)); congruence. Qed.

Lemma schedule_update_wf id u m m' r : wf_schedules m → UpdateScheduledTask id u m = (m', r) → wf_schedules m'.
Proof.
  intros [Hk Hc Hs] Hu. unfold UpdateScheduledTask in Hu. destruct (tasks m !! id) as [t|] eqn:Ht; [|by injection Hu as <- _].
  set (by_ := trim_space (TU_EditedBy u)) in Hu.
  assert (Hcount : ∀ t' q, ST_CreatedBy t' = ST_CreatedBy t → count_where (λ t, ST_CreatedBy t = q) (<[id := t']> (tasks m)) = count_where (λ t, ST_CreatedBy t = q) (tasks m)).
  { intros t' q Hby. rewrite (count_where_replace _ _ _ _ t') by done. rewrite Hby. lia. }
  assert (Hid : ∀ t', ST_ID t' = ST_ID t → ∀ i x, <[id := t']> (tasks m) !! i = Some x → ST_ID x = i).
  { intros t' Hi i x [[<- <-]|[_ Hl]]%lookup_insert_Some; [by rewrite Hi; apply Hk|by apply Hk]. }
  case_if_in Hu; injection Hu as <- _; split; simpl.
  - by apply Hid.
  - bool_prop. eapply (counts_incr (delete id (tasks m))).
    + eapply counts_release; [done|by eapply count_where_pos|]. intros q. rewrite (count_where_delete _ _ _ _ Ht), swap_if. done.
    + intros q. rewrite <-insert_delete_eq, count_where_insert by apply lookup_delete_eq. simpl. by rewrite swap_if.
  - by rewrite (replace_size _ _ t).
  - by apply Hid.
  - intros q. rewrite Hc. simpl. by rewrite Hcount.
  - by rewrite (replace_size _ _ t).
Qed.

Lemma delete_wf id m m' r : wf_schedules m → DeleteScheduledTask id m = (m', r) → wf_schedules m'.
Proof.
  intros [Hk Hc Hs] Hd. unfold DeleteScheduledTask in Hd. destruct (tasks m !! id) as [t|] eqn:Ht; [|by injection Hd as <- _].
  injection Hd as <- _. split; simpl.
  - intros i x [_ Hl]%lookup_delete_Some. by apply Hk.
  - eapply counts_release; [done|by eapply count_where_pos|]. intros q. by rewrite (count_where_delete _ _ _ _ Ht), swap_if.
  - rewrite map_size_delete_Some by done. lia.
Qed.

(** *** Access *)

(** The principal reaches a target or group: the asset is in its allow-list, or the group is one that it covers. *)
Definition reaches_group (c : context) (inv : inventory) (groupID : string) : Prop :=
  ∃ groups assets, inv = Some (groups, assets) ∧ groupID ∈ AccessibleGroupIDs c groups assets.

Definition in_reach (c : context) (inv : inventory) (t : ScheduledTask) : Prop :=
  HasAssetRestriction c = true →
  (trim_space (ST_GroupID t) ≠ "" → reaches_group c inv (trim_space (ST_GroupID t))) ∧
  (∀ x, x ∈ ST_Targets t → trim_space x ≠ "" → trim_space x ∈ elems (C_assets c) ∨ reaches_group c inv (trim_space x)) ∧
  (trim_space (ST_GroupID t) ≠ "" ∨ ∃ x, x ∈ ST_Targets t ∧ trim_space x ≠ "").

Lemma targets_allowed_spec c inv b l :
  HasAssetRestriction c = true →
  targets_allowed c inv b l = Some true ↔
  (∀ x, x ∈ l → trim_space x ≠ "" → trim_space x ∈ elems (C_assets c) ∨ reaches_group c inv (trim_space x)) ∧
  (b = true ∨ ∃ x, x ∈ l ∧ trim_space x ≠ "").
Proof.
  intros Hr. revert b. induction l as [|y l IH]; intros b; simpl.
  { split; [intros [= ->]; split; [by intros x ?%not_elem_of_nil|by left]|]. intros [_ [->|(x & ?%not_elem_of_nil & _)]]; done. }
  setoid_rewrite elem_of_cons. case_bool_decide as He; [rewrite IH; naive_solver|].
  destruct (AssetCheckContext c (trim_space y)) eqn:Hy.
  - apply restricted_check in Hy; [|done]. rewrite IH. naive_solver.
  - assert (Hny : trim_space y ∉ elems (C_assets c)) by (rewrite <-restricted_check by done; congruence).
    destruct inv as [[groups assets]|].
    + case_decide as Hg; [rewrite IH; unfold reaches_group; naive_solver|]. split; [done|].
      intros [Hall _]. destruct (Hall y) as [?|(g & a & [= <- <-] & ?)]; [by left|done..].
    + split; [done|]. intros [Hall _]. destruct (Hall y) as [?|(g & a & ? & _)]; [by left|done..].
Qed.

Lemma schedule_allowed_spec c inv t : requireScheduleAccess c inv t = true ↔ in_reach c inv t.
Proof.
  unfold requireScheduleAccess, scheduleAllowed, in_reach. rewrite bool_decide_eq_true.
  destruct (HasAssetRestriction c) eqn:Hr; simpl; [|by split]. case_bool_decide as He.
  - rewrite targets_allowed_spec by done. naive_solver.
  - destruct inv as [[groups assets]|].
    + case_decide as Hg; [rewrite targets_allowed_spec by done; unfold reaches_group; naive_solver|].
      split; [done|]. intros Hall. destruct (Hall eq_refl) as [Hgr _]. by destruct (Hgr He) as (g & a & [= <- <-] & ?).
    + split; [done|]. intros Hall. destruct (Hall eq_refl) as [Hgr _]. by destruct (Hgr He) as (g & a & ? & _).
Qed.

(** *** Definitions that the handlers store *)

Record valid_definition (t : ScheduledTask) : Prop := {
  vd_name : ST_Name t ≠ "" ∧ str_len (ST_Name t) <= maxScheduleNameLength;
  vd_cron : ST_CronExpr t ≠ "";
  vd_command : ST_Command t ≠ "" ∧ str_len (ST_Command t) <= maxScheduleCommandLength;
  vd_count : list_len (ST_Targets t) <= maxScheduleTargetsCount;
  vd_targets : NoDup (ST_Targets t) ∧ ∀ x, x ∈ ST_Targets t → x ≠ "" ∧ trim_space x = x;
  vd_scope : ST_Targets t ≠ [] ∨ ST_GroupID t ≠ "";
  vd_next : ST_Enabled t = bool_decide (is_Some (ST_NextRunAt t)) }.

Lemma normalized_targets_ok l :
  NoDup (normalizeScheduleTargets l) ∧ ∀ x, x ∈ normalizeScheduleTargets l → x ≠ "" ∧ trim_space x = x.
Proof.
  destruct (normalize_targets_spec ∅ l) as [Hnd Hin]. split; [done|]. intros x (_ & Hx & y & _ & <-)%Hin. split; [done|apply trim_space_idemp].
Qed.

Lemma actor_trimmed c : PrincipalActorID c ≠ "" ∧ trim_space (PrincipalActorID c) = PrincipalActorID c.
Proof. unfold PrincipalActorID. case_bool_decide; [done|]. split; [done|apply trim_space_idemp]. Qed.

Section handler_facts.
Context `{MapRange} `{CronParser}.

Lemma create_task_ok now newid c inv req t :
  create_task now newid c inv req = Ok t →
  ST_ID t = newid ∧ ST_CreatedBy t = PrincipalActorID c ∧ valid_definition t ∧ in_reach c inv t ∧
  (ST_Enabled t = true → ScopeCheck (C_scopes c) "actions:exec" = true ∧ ∃ next, ST_NextRunAt t = Some next ∧ now < next) ∧
  ST_LastRunStatus t = "" ∧ ST_LastRunJobID t = "".
Proof.
  unfold create_task. intros Hc. case_if_in Hc; [done|]. case_if_in Hc; [done|]. destruct (NextRun _ now) as [next|] eqn:Hn; [|done].
  apply next_run_future in Hn as [Hn _]. do 5 (case_if_in Hc; [done|]). injection Hc as <-.
  repeat match goal with Hb : _ || _ = false |- _ => apply orb_false_iff in Hb as [? ?] end.
  match goal with Hb : negb (requireScheduleAccess _ _ _) = false |- _ => apply negb_false_iff, schedule_allowed_spec in Hb; rename Hb into Hreach end.
  bool_prop. destruct (normalized_targets_ok (SC_Targets req)) as [Hnd Hin].
  do 2 (split; [done|]). split; [|split; [exact Hreach|split; [|done]]].
  - split; simpl; [split; [done|lia]|done|split; [done|lia]|lia|done| |].
    + match goal with Hb : _ && _ = false |- _ => apply andb_false_iff in Hb as [Hb|Hb]; bool_prop; tauto end.
    + by destruct (default true (SC_Enabled req)).
  - simpl. intros He. rewrite He in *. split; [|by eauto].
    match goal with Hb : true && negb _ = false |- _ => by apply negb_false_iff in Hb end.
Qed.

Lemma bad_text_ok max s d :
  bad_text max s = false → d ≠ "" ∧ str_len d <= max → default d s ≠ "" ∧ str_len (default d s) <= max.
Proof. destruct s as [s|]; [|done]. simpl. intros [Hs Hl]%orb_false_iff _. bool_prop. split; [done|lia]. Qed.

Lemma bad_cron_ok now s d : bad_cron now s = false → d ≠ "" → default d s ≠ "".
Proof. destruct s as [s|]; [|done]. simpl. intros [Hs _]%orb_false_iff _. by bool_prop. Qed.

Lemma clean_update_ok now req req' :
  clean_update now req = Ok req' →
  no_field req' = false ∧
  bad_text maxScheduleNameLength (SU_Name req') = false ∧ bad_cron now (SU_CronExpr req') = false ∧
  bad_text maxScheduleCommandLength (SU_Command req') = false ∧
  (∀ l, SU_Targets req' = Some l → list_len l <= maxScheduleTargetsCount ∧ NoDup l ∧ ∀ x, x ∈ l → x ≠ "" ∧ trim_space x = x).
Proof.
  unfold clean_update. intros Hc. destruct (no_field req) eqn:Hf; [done|]. do 3 (case_if_in Hc; [done|]).
  destruct (match normalizeScheduleTargets <$> SU_Targets req with Some _ => _ | None => _ end) eqn:Ht; [done|]. injection Hc as <-. simpl.
  split; [|do 3 (split; [done|])].
  - rewrite <-Hf. by destruct req as [[] [] [] [] [] []].
  - intros l Hl. destruct (SU_Targets req) as [l0|]; [|done]. simpl in *. injection Hl as <-. bool_prop.
    split; [lia|apply normalized_targets_ok].
Qed.

Lemma update_of_ok now now' c inv t req u :
  update_of now now' c inv t req = Ok u →
  changes u = true ∧ TU_EditedBy u = PrincipalActorID c ∧ (valid_definition t → valid_definition (updated_task u t)) ∧
  in_reach c inv t ∧ in_reach c inv (updated_task u t) ∧
  (ST_Enabled (updated_task u t) = true → ScopeCheck (C_scopes c) "actions:exec" = true).
Proof.
  intros Hu. unfold update_of in Hu. destruct (requireScheduleAccess c inv t) eqn:Hr0; [|done].
  apply schedule_allowed_spec in Hr0. cbn [negb] in Hu. apply bind_Ok in Hu as (req' & Hc & Hu). apply clean_update_ok in Hc as (Hf & Hn & Hcr & Hcm & Ht).
  set (p := prospective_task req' t) in Hu. destruct (bool_decide (ST_Targets p = []) && is_empty (ST_GroupID p)) eqn:Hscope; [done|].
  destruct (ST_Enabled p && negb (ScopeCheck (C_scopes c) "actions:exec")) eqn:Hexec; [done|].
  destruct (requireScheduleAccess c inv p) eqn:Hr1; [|done]. apply schedule_allowed_spec in Hr1. cbn [negb] in Hu.
  set (args := λ next, MkTaskUpdate (SU_Name req') (SU_CronExpr req') (SU_Command req') (SU_Targets req') (SU_GroupID req') (SU_Enabled req') next (PrincipalActorID c)).
  assert (Hargs : ∃ next, u = args next ∧ (ST_Enabled t = bool_decide (is_Some (ST_NextRunAt t)) → ST_Enabled p = bool_decide (is_Some (default (ST_NextRunAt t) next)))).
  { case_if_in Hu.
    - destruct (ST_Enabled p) eqn:He.
      + destruct (NextRun (ST_CronExpr p) now'); [|done]. injection Hu as <-. by eexists.
      + injection Hu as <-. by eexists.
    - injection Hu as <-. eexists. split; [done|]. intros Hvx. simpl. rewrite <-Hvx. apply orb_false_iff in Hb as [_ Hb].
      unfold p. simpl. destruct (SU_Enabled req') as [e|]; [|done]. simpl. apply negb_false_iff in Hb. by apply Bool.eqb_prop in Hb. }
  destruct Hargs as (next & -> & Hnext). clear Hu. split; [|split; [done|]].
  - unfold changes, args. simpl. unfold no_field in Hf. destruct req' as [[] [] [] [] [] []]; try done.
    all: simpl in *; repeat (rewrite ?orb_true_r; simpl); done.
  - assert (Hin : in_reach c inv (updated_task (args next) t)) by exact Hr1.
    split; [|split; [done|split; [done|]]].
    + intros [Hvn Hvr Hvc Hvl Hvt Hvs Hvx].
      split; simpl; [by apply bad_text_ok|by eapply bad_cron_ok|by apply bad_text_ok| | | |by apply Hnext].
      * destruct (SU_Targets req') as [l|]; [|done]. simpl. by apply Ht.
      * destruct (SU_Targets req') as [l|]; [|done]. simpl. by apply Ht.
      * unfold p in Hscope. simpl in Hscope. apply andb_false_iff in Hscope as [Hs|Hs]; bool_prop; tauto.
    + change (ST_Enabled (updated_task (args next) t)) with (ST_Enabled p). intros He. rewrite He in Hexec. simpl in Hexec.
      by apply negb_false_iff in Hexec.
Qed.
End handler_facts.

(** ** Runs of the routes *)

Section runs.
Context `{MapRange} `{CronParser}.

Inductive schedule_run : memoryScheduleStore → memoryScheduleStore → Prop :=
| sr_refl m : schedule_run m m
| sr_step m m' now now' newid c inv q :
    schedule_run m m' → schedule_run m (serve_schedules now now' newid c inv q m').1.

Definition good_store (m : memoryScheduleStore) : Prop := wf_schedules m ∧ ∀ id t, tasks m !! id = Some t → valid_definition t.

(** What a served request does to the store. *)
Inductive store_change (c : context) (inv : inventory) (m : memoryScheduleStore) : memoryScheduleStore → schedule_response → Prop :=
| sch_same resp : store_change c inv m m resp
| sch_create t m' : CreateScheduledTask t m = (m', Ok tt) → valid_definition t → in_reach c inv t → ST_CreatedBy t = PrincipalActorID c →
    (ST_Enabled t = true → ScopeCheck (C_scopes c) "actions:exec" = true) → store_change c inv m m' (ScheduleCreated t)
| sch_update id t u m' t' : tasks m !! id = Some t → UpdateScheduledTask id u m = (m', Ok tt) → changes u = true → TU_EditedBy u = PrincipalActorID c →
    in_reach c inv t → in_reach c inv (updated_task u t) → (valid_definition t → valid_definition (updated_task u t)) →
    (ST_Enabled (updated_task u t) = true → ScopeCheck (C_scopes c) "actions:exec" = true) → store_change c inv m m' (ScheduleUpdated t')
| sch_delete id t m' : tasks m !! id = Some t → DeleteScheduledTask id m = (m', Ok tt) → in_reach c inv t → store_change c inv m m' ScheduleDeleted.

Lemma serve_change now now' newid c inv q m m' resp :
  serve_schedules now now' newid c inv q m = (m', resp) →
  store_change c inv m m' resp ∧ (m' ≠ m → ScopeCheck (C_scopes c) "schedules:write" = true).
Proof.
  unfold serve_schedules. intros Hs. destruct (ScopeCheck (C_scopes c) (schedule_scope q)) eqn:Hsc; simpl in Hs;
    [|injection Hs as <- <-; split; [constructor|done]].
  destruct q as [p z|req|id|id req|id]; try (injection Hs as <- <-; split; [constructor|done]).
  - split; [|done]. unfold V2CreateSchedule in Hs. destruct (create_task now newid c inv req) as [t|] eqn:Ht; [|injection Hs as <- <-; constructor].
    apply create_task_ok in Ht as (Hid & Hby & Hv & Hin & He & _).
    destruct (CreateScheduledTask t m) as [m1 r] eqn:Hc. assert (r = Ok tt ∨ m1 = m) as Hm.
    { unfold CreateScheduledTask in Hc. destruct (tasks m !! ST_ID t); [injection Hc as <- _; by right|].
      case_if_in Hc; injection Hc as <- <-; [by right|by left]. }
    destruct r as [[]|e]; [|destruct Hm as [Hm|Hm]; [done|subst m1]; destruct e; injection Hs as <- <-; constructor].
    injection Hs as <- <-. eapply sch_create; try done. intros Hx. by apply He.
  - split; [|done]. unfold V2UpdateSchedule, GetScheduledTask in Hs. destruct (tasks m !! id) as [t|] eqn:Ht; [|injection Hs as <- <-; constructor].
    destruct (update_of now now' c inv t req) as [u|] eqn:Hu; [|injection Hs as <- <-; constructor].
    apply update_of_ok in Hu as (Hch & Hby & Hv & Hin & Hin' & He).
    destruct (UpdateScheduledTask id u m) as [m1 r] eqn:Hup. assert (r = Ok tt ∧ is_Some (tasks m1 !! id)) as [-> [t1 Ht1]].
    { unfold UpdateScheduledTask in Hup. rewrite Ht in Hup. case_if_in Hup; injection Hup as <- <-; simpl; rewrite lookup_insert_eq; eauto. }
    rewrite Ht1 in Hs. injection Hs as <- <-. by eapply sch_update.
  - split; [|done]. unfold V2DeleteSchedule, GetScheduledTask in Hs. destruct (tasks m !! id) as [t|] eqn:Ht; [|injection Hs as <- <-; constructor].
    destruct (requireScheduleAccess c inv t) eqn:Hr; simpl in Hs; [|injection Hs as <- <-; constructor].
    apply schedule_allowed_spec in Hr. destruct (DeleteScheduledTask id m) as [m1 r] eqn:Hd.
    assert (r = Ok tt) as -> by (unfold DeleteScheduledTask in Hd; rewrite Ht in Hd; by injection Hd as <- <-).
    injection Hs as <- <-. by eapply sch_delete.
Qed.

(** The row that an update leaves. *)
Lemma update_row id u m m' t :
  tasks m !! id = Some t → UpdateScheduledTask id u m = (m', Ok tt) → changes u = true → TU_EditedBy u ≠ "" → trim_space (TU_EditedBy u) = TU_EditedBy u →
  tasks m' = <[id := with_creator (TU_EditedBy u) (updated_task u t)]> (tasks m).
Proof.
  intros Ht Hu Hch Hne Htr. unfold UpdateScheduledTask in Hu. rewrite Ht, Hch, Htr, bool_decide_eq_false_2 in Hu by done. simpl in Hu.
  case_bool_decide as He; simpl in Hu; injection Hu as <-; [|done]. simpl. f_equal. rewrite He. by destruct t.
Qed.

Lemma change_good c inv m m' resp : store_change c inv m m' resp → good_store m → good_store m'.
Proof.
  intros Hch [Hwf Hv]. destruct Hch as [resp|t m' Hc Hvt _ _ _|id t u m' t' Ht Hu Hchg Hby _ _ Hvt _|id t m' Ht Hd _]; [done|..].
  - split; [by eapply create_wf|]. unfold CreateScheduledTask in Hc. destruct (tasks m !! ST_ID t) eqn:Hn; [done|].
    case_if_in Hc; [done|]. injection Hc as <-. simpl. intros id x [[<- <-]|[_ Hx]]%lookup_insert_Some; [done|by eapply Hv].
  - split; [by eapply schedule_update_wf|]. destruct (actor_trimmed c) as [Hne Htr]. rewrite <-Hby in Hne, Htr. rewrite (update_row _ _ _ _ _ Ht Hu Hchg Hne Htr).
    intros i x [[<- <-]|[_ Hx]]%lookup_insert_Some; [|by eapply Hv]. destruct (Hvt (Hv _ _ Ht)). by split.
  - split; [by eapply delete_wf|]. unfold DeleteScheduledTask in Hd. rewrite Ht in Hd. injection Hd as <-. simpl.
    intros i x [_ Hx]%lookup_delete_Some. by eapply Hv.
Qed.

Lemma run_good m m' : schedule_run m m' → good_store m → good_store m'.
Proof.
  induction 1 as [|m m' now now' newid c inv q _ IH]; [done|]. intros Hg. destruct (serve_schedules now now' newid c inv q m') as [m2 resp] eqn:Hs.
  apply serve_change in Hs as [Hch _]. eapply change_good; [exact Hch|by apply IH].
Qed.

(** However the routes are used, by any principals, the store keeps at most 4096 tasks, its counters hold
    for every principal exactly the number of tasks it is the creator of (and nothing for a principal without tasks), and
    every stored definition is well formed: a name, a cron expression and a command within their limits, at most 500 distinct
    trimmed targets, a target or a group, and a next run exactly when it is enabled. *)
Theorem schedule_store_invariant m : schedule_run NewMemoryScheduleStore m → good_store m.
Proof. intros Hr. eapply run_good; [exact Hr|]. split; [apply wf_new_schedules|done]. Qed.

End runs.

(** ** Witnesses *)

(** A parser that knows one expression, every minute. *)
Definition demo_cron : CronParser := λ e, if bool_decide (e = "CRON_TZ=UTC * * * * *") then Some (λ t, (t `div` Minute + 1) * Minute) else None.
Definition demo_operator : context := MkContext "user-1" "operator" None None "" "".
Definition demo_editor : context := MkContext "user-2" "admin" None None "" "".
Definition demo_restricted : context := MkContext "apikey:k1" "operator" (Some ["schedules:write"]) (Some ["asset-1"]) "k1" "".
Definition demo_create : CreateRequest := MkCreateSchedule " nightly " "* * * * *" "uptime" ["asset-1"; " asset-1"] "" None.
Definition demo_rename : UpdateScheduleRequest := MkUpdateSchedule (Some "renamed") None None None None None.
Definition demo_pause : UpdateScheduleRequest := MkUpdateSchedule None None None None None (Some false).

Definition demo_serve (c : context) (q : schedule_request) (m : memoryScheduleStore) : memoryScheduleStore * schedule_response :=
  @serve_schedules range_in_key_order demo_cron (100 * Second) (101 * Second) "sched-1" c None q m.

Definition demo_store : memoryScheduleStore := (demo_serve demo_operator (CreateReq demo_create) NewMemoryScheduleStore).1.

Lemma schedule_store_invariant_witness :
  good_store (demo_serve demo_editor (UpdateReq "sched-1" demo_rename) demo_store).1.
Proof. apply (@schedule_store_invariant range_in_key_order demo_cron). do 2 apply sr_step. apply sr_refl. Defined.


(** Editing a schedule makes the editor its creator without a look at [MaxScheduledTasksPerPrincipal]. *)
Lemma takeover_ignores_budget n m :
  tasks m = tasks demo_store → principalCounts m = <["user-2" := n]> (principalCounts demo_store) →
  principalCounts (demo_serve demo_editor (UpdateReq "sched-1" demo_rename) m).1 !! "user-2" = Some (n + 1).
Proof. destruct m as [ts pc]. simpl. intros -> ->. by vm_compute. Qed.
