(* ===== verification/ScheduleStore.v ===== *)
(** * Schedules in the database

    The transactions on the tables [scheduled_tasks], [job_queue] and [action_runs] that claim an occurrence of
    a schedule, begin it, start and finish its commands and close it ([internal/persistence/postgres_schedules.go],
    [postgres_job_execution.go], [postgres_job_business.go], [postgres_job_results.go],
    [postgres_scheduled_job_actions.go]), together with the failure and recovery of a claim, which
    close the business record of a dead job in the same transaction ([internal/jobqueue/recovery.go]).

    Each transaction locks the rows it reads [FOR UPDATE] before it decides, so it is one step on the database; one that
    fails is rolled back. A NULL [last_run_job_id] is the empty string, as every reader of the code sees it. The
    payload of a job is the JSON of its [ExecutionJob]. Jobs of other kinds close other
    tables: whether that succeeds is an argument. *)

From S2P Require Import Prelude GoStrings GoTime Accounts ApiKeys Schedules JobQueue.

(** ** Rows *)

Record ActionRun := MkRun {
  AR_Type : string; AR_ActorID : string; AR_Target : string; AR_Command : string; AR_ConnectorID : string; AR_ActionID : string;
  AR_Params : gmap string string; AR_DryRun : bool; AR_Status : string; AR_Output : string; AR_Error : string;
  AR_CreatedAt : time; AR_UpdatedAt : time; AR_CompletedAt : option time }.

(** [actions.Job] and [actions.Result] without its steps *)
Record ActionJob := MkActionJob {
  AJ_JobID : string; AJ_RunID : string; AJ_Type : string; AJ_ActorID : string; AJ_Target : string; AJ_Command : string;
  AJ_ConnectorID : string; AJ_ActionID : string; AJ_Params : gmap string string; AJ_DryRun : bool; AJ_TimeoutSec : Z; AJ_RequestedAt : time }.
#[export] Instance ActionJob_eq_dec : EqDecision ActionJob.
Proof. solve_decision. Defined.

Record ActionResult := MkActionResult {
  RS_JobID : string; RS_RunID : string; RS_Status : string; RS_Output : string; RS_Error : string; RS_CompletedAt : time }.

Record db := MkDB { D_jobs : table; D_tasks : gmap string ScheduledTask; D_runs : gmap string ActionRun }.
Definition empty_db : db := MkDB ∅ ∅ ∅.
Definition with_jobs (t : table) (d : db) : db := MkDB t (D_tasks d) (D_runs d).
Definition with_tasks (ts : gmap string ScheduledTask) (d : db) : db := MkDB (D_jobs d) ts (D_runs d).
Definition with_runs (rs : gmap string ActionRun) (d : db) : db := MkDB (D_jobs d) (D_tasks d) rs.

(** [json.Marshal] and [json.Unmarshal] of an [ExecutionJob], through a [jsonb] column *)
Class PayloadCodec := {
  encode_job : ExecutionJob → string;
  decode_job : string → option ExecutionJob;
  decode_encode_job p : decode_job (encode_job p) = Some p }.

Inductive run_error :=
| RunClaimLost | RunIdentity | RunNotRunning | RunNotFinal | RunMismatch | RunDuplicate | RunBadClaim | RunNotFound | RunCapacity | RunDatabase.

(** ** Identities *)

(** [HashKey] is SHA-256 in hexadecimal; [sum[:20]] are its first 40 digits. *)
Definition nul : string := String (ascii_of_N 0) EmptyString.
Definition ExecutionJobID `{KeyHash} (scheduleID : string) (dueAt : time) : string :=
  String.append "schedrun_" (of_chars (take 40 (chars (HashKey (String.append (trim_space scheduleID) (String.append nul (FormatRFC3339Nano dueAt))))))).

Definition scheduledActionRunID `{KeyHash} (jobID target : string) : string :=
  String.append "schedrun_" (HashKey (String.append jobID (String.append nul target))).

(** ** Definitions *)

Definition maxScheduledTaskErrorLength : Z := 1024.
Definition truncateScheduledTaskError (value : string) : string :=
  let value := trim_space value in
  if str_len value <=? maxScheduledTaskErrorLength then value else of_chars (take 1024 (chars value)).

Definition created_by_count (by_ : string) (ts : gmap string ScheduledTask) : Z := count_where (λ t, ST_CreatedBy t = by_) ts.

Definition sql_CreateScheduledTask (task : ScheduledTask) (d : db) : db * result run_error unit :=
  if (MaxScheduledTasksGlobal <=? Z.of_nat (size (D_tasks d))) ||
     (MaxScheduledTasksPerPrincipal <=? created_by_count (ST_CreatedBy task) (D_tasks d)) then (d, Err RunCapacity)
  else match D_tasks d !! ST_ID task with
       | Some _ => (d, Err RunDatabase)
       | None => (with_tasks (<[ST_ID task := task]> (D_tasks d)) d, Ok tt)
       end.

Definition set_run (lastRunAt nextRunAt : option time) (status error jobID : string) (t : ScheduledTask) : ScheduledTask :=
  MkTask (ST_ID t) (ST_Name t) (ST_CronExpr t) (ST_Command t) (ST_Targets t) (ST_GroupID t) (ST_Enabled t) (ST_CreatedBy t)
    (ST_CreatedAt t) lastRunAt nextRunAt status error jobID.

(** The new [last_error] of an update; the row's status is the one before the update. *)
Definition update_error (u : task_update) (t : ScheduledTask) : string :=
  if bool_decide (is_Some (TU_CronExpr u)) || bool_decide (is_Some (TU_Command u)) || bool_decide (is_Some (TU_Targets u)) ||
     bool_decide (is_Some (TU_GroupID u)) || bool_decide (TU_Enabled u = Some true) then ""
  else if bool_decide (is_Some (TU_Enabled u)) then if unfinished (ST_LastRunStatus t) then "" else ST_LastError t
  else ST_LastError t.

Definition sql_updated_task (u : task_update) (t : ScheduledTask) : ScheduledTask :=
  let t' := updated_task u t in
  let t' := set_run (ST_LastRunAt t') (ST_NextRunAt t') (ST_LastRunStatus t') (update_error u t) (ST_LastRunJobID t') t' in
  let editedBy := trim_space (TU_EditedBy u) in
  if is_empty editedBy then t' else with_creator editedBy t'.

Definition sql_UpdateScheduledTask (id : string) (u : task_update) (d : db) : db * result run_error unit :=
  if negb (changes u) then (d, Ok tt)
  else match D_tasks d !! id with
       | None => (d, Err RunNotFound)
       | Some t => (with_tasks (<[id := sql_updated_task u t]> (D_tasks d)) d, Ok tt)
       end.

Definition sql_DeleteScheduledTask (id : string) (d : db) : db * result run_error unit :=
  match D_tasks d !! id with
  | None => (d, Err RunNotFound)
  | Some _ => (with_tasks (delete id (D_tasks d)) d, Ok tt)
  end.

(** [UPDATE scheduled_tasks SET f WHERE id = ... AND cond]; the result tells whether a row was affected. *)
Definition update_where (id : string) (cond : ScheduledTask → bool) (f : ScheduledTask → ScheduledTask) (d : db) : db * bool :=
  match D_tasks d !! id with
  | Some t => if cond t then (with_tasks (<[id := f t]> (D_tasks d)) d, true) else (d, false)
  | None => (d, false)
  end.

Definition InitializeScheduledTaskNextRun (id : string) (nextRunAt : time) : db → db * bool :=
  update_where (trim_space id) (λ t, ST_Enabled t && bool_decide (ST_NextRunAt t = None))
    (λ t, set_run (ST_LastRunAt t) (Some nextRunAt) (ST_LastRunStatus t) "" (ST_LastRunJobID t) t).

Definition invalid_task (errorMessage : string) (t : ScheduledTask) : ScheduledTask :=
  MkTask (ST_ID t) (ST_Name t) (ST_CronExpr t) (ST_Command t) (ST_Targets t) (ST_GroupID t) false (ST_CreatedBy t)
    (ST_CreatedAt t) (ST_LastRunAt t) None "invalid" (truncateScheduledTaskError errorMessage) (ST_LastRunJobID t).

Definition MarkScheduledTaskInvalid (id errorMessage : string) (d : db) : db :=
  (update_where (trim_space id) (λ _, true) (invalid_task errorMessage) d).1.

(** ** Occurrences *)

Record ExecutionClaim := MkClaim {
  EC_ScheduleID : string; EC_DueAt : time; EC_ClaimedAt : time; EC_NextRunAt : time; EC_MaxAttempts : Z; EC_Job : ExecutionJob }.

(** The claim that [EvaluateDueSchedules] makes of a task that is due. *)
Definition claim_of `{KeyHash} (task : ScheduledTask) (dueAt now next : time) (maxAttempts : Z) : ExecutionClaim :=
  MkClaim (ST_ID task) dueAt now next maxAttempts
    (MkExecution (ExecutionJobID (ST_ID task) dueAt) (trim_space (ST_ID task)) (trim_space (ST_Name task)) dueAt (trim_space (ST_Command task))
       (ST_Targets task) (trim_space (ST_GroupID task)) (trim_space (ST_CreatedBy task))).

Definition claim_attempts (n : Z) : Z := Z.min 100 (Z.max 1 n).

(** The [WHERE] clause of the compare-and-swap. *)
Definition claim_matches (claim : ExecutionClaim) (t : ScheduledTask) : bool :=
  ST_Enabled t && bool_decide (ST_NextRunAt t = Some (EC_DueAt claim)) && negb (unfinished (ST_LastRunStatus t)).

Section transactions.
Context `{PayloadCodec} `{KeyHash}.

Definition ClaimScheduledTaskExecution (claim : ExecutionClaim) (d : db) : db * result run_error bool :=
  let jobID := X_JobID (EC_Job claim) in
  if is_empty (trim_space (EC_ScheduleID claim)) || is_empty (trim_space jobID) then (d, Err RunBadClaim)
  else if (EC_DueAt claim =? zero_time) || (EC_ClaimedAt claim =? zero_time) || (EC_NextRunAt claim =? zero_time) ||
          (EC_NextRunAt claim <=? EC_ClaimedAt claim) then (d, Err RunBadClaim)
  else
    let '(d', affected) := update_where (EC_ScheduleID claim) (claim_matches claim)
                             (set_run (Some (EC_ClaimedAt claim)) (Some (EC_NextRunAt claim)) "queued" "" jobID) d in
    if negb affected then (d, Ok false)
    else match D_jobs d !! jobID with
         | Some _ => (d, Err RunDuplicate)
         | None =>
             (with_jobs (<[jobID := new_job (EC_ClaimedAt claim) jobID KindScheduleRun (encode_job (EC_Job claim)) (claim_attempts (EC_MaxAttempts claim))]>
                (D_jobs d')) d', Ok true)
         end.

(** [lockJobBusiness] of a job of kind [schedule_run]: the payload and the status of its owner. *)
Definition lockJobBusiness (job : Job) (d : db) : result run_error (ExecutionJob * string) :=
  match decode_job (J_Payload job) with
  | None => Err RunIdentity
  | Some p =>
      let status :=
        match D_tasks d !! X_ScheduleID p with
        | None => "superseded"
        | Some t =>
            if negb (bool_decide (ST_LastRunJobID t = X_JobID p)) then "superseded"
            else if negb (ST_Enabled t) && bool_decide (ST_LastRunStatus t = "queued") then "disabled" else ST_LastRunStatus t
        end in
      if is_empty (X_JobID p) || negb (bool_decide (X_JobID p = J_ID job)) then Err RunIdentity else Ok (p, status)
  end.

Definition lock_claim (job : Job) (dead : bool) (d : db) : result run_error unit :=
  match lockJobClaim job dead (D_jobs d) with Ok _ => Ok tt | Err _ => Err RunClaimLost end.

Definition InterruptedJobOutcome : string := "previous execution attempt was interrupted; outcome unknown; work was not replayed".

(** The rows of [closeInterruptedScheduleChildren] *)
Definition open_child (p : ExecutionJob) (id : string) (r : ActionRun) : bool :=
  bool_decide (AR_Params r !! "schedule_job_id" = Some (X_JobID p)) && bool_decide (AR_Params r !! "schedule_id" = Some (X_ScheduleID p)) &&
  bool_decide (AR_Status r = "running") && has_prefix id "schedrun_" && bool_decide (AR_ActorID r = X_ActorID p) &&
  bool_decide (AR_Command r = X_Command p) && bool_decide (AR_Type r = "command").

Definition finish_run (now : time) (status output error : string) (r : ActionRun) : ActionRun :=
  MkRun (AR_Type r) (AR_ActorID r) (AR_Target r) (AR_Command r) (AR_ConnectorID r) (AR_ActionID r) (AR_Params r) (AR_DryRun r)
    status output error (AR_CreatedAt r) now (Some now).

Definition closeInterruptedScheduleChildren (now : time) (p : ExecutionJob) (d : db) : db :=
  with_runs (map_imap (λ id r, Some (if open_child p id r then finish_run now "failed" (AR_Output r) InterruptedJobOutcome r else r)) (D_runs d)) d.

Definition final_statuses : list string := ["succeeded"; "failed"; "partial"; "blocked"; "skipped"; "cancelled"].

(** [writeResult] of a schedule *)
Definition writeResult (now : time) (p : ExecutionJob) (status error : string) (d : db) : result run_error db :=
  if negb (bool_decide (status ∈ final_statuses)) then Err RunNotFinal
  else Ok (update_where (X_ScheduleID p) (λ _, true)
             (λ t, set_run (ST_LastRunAt t) (ST_NextRunAt t) status (truncateScheduledTaskError error) (ST_LastRunJobID t) t)
             (closeInterruptedScheduleChildren now p d)).1.

Definition markRunning (p : ExecutionJob) (d : db) : db :=
  (update_where (X_ScheduleID p) (λ _, true) (λ t, set_run (ST_LastRunAt t) (ST_NextRunAt t) "running" (ST_LastError t) (ST_LastRunJobID t) t) d).1.

Definition completeLockedJob (now : time) (job : Job) (d : db) : db := with_jobs (alter (complete_job now) (J_ID job) (D_jobs d)) d.

(** A transaction: its effects are there only if it succeeds. *)
Definition transaction {A} (d : db) (r : result run_error (db * A)) : db * result run_error A :=
  match r with Ok (d', a) => (d', Ok a) | Err e => (d, Err e) end.

Definition BeginJobExecution (now : time) (job : Job) (d : db) : db * result run_error bool :=
  transaction d (
    lock_claim job false d ≫= λ _,
    lockJobBusiness job d ≫= λ '(p, status),
    let d1 := if bool_decide (status = "superseded") then closeInterruptedScheduleChildren now p d else d in
    if bool_decide (status = "queued") then Ok (markRunning p d1, true)
    else
      (if bool_decide (status = "running") then writeResult now p "failed" InterruptedJobOutcome d1
       else if bool_decide (status = "disabled") then writeResult now p "skipped" "schedule disabled before dispatch" d1
       else Ok d1) ≫= λ d2,
      Ok (completeLockedJob now job d2, false)).

Definition FinishScheduleExecution (now : time) (job : Job) (status error : string) (d : db) : db * result run_error unit :=
  transaction d (
    lock_claim job false d ≫= λ _,
    lockJobBusiness job d ≫= λ '(p, owner),
    (if bool_decide (owner = "superseded") then Ok (closeInterruptedScheduleChildren now p d)
     else if negb (bool_decide (owner = "running")) then Err RunNotRunning
     else writeResult now p status error d) ≫= λ d1,
    Ok (completeLockedJob now job d1, tt)).

(** [FinalizeDeadJobInTransaction]; [other] is its success on a job of another kind. *)
Definition FinalizeDeadJob (other : Job → bool) (now : time) (job : Job) (d : db) : result run_error db :=
  if negb (bool_decide (J_Kind job = KindScheduleRun)) then if other job then Ok d else Err RunDatabase
  else
    lock_claim job true d ≫= λ _,
    match lockJobBusiness job d with
    | Err RunIdentity => Ok d
    | Err e => Err e
    | Ok (p, status) =>
        if bool_decide (status = "superseded") then Ok (closeInterruptedScheduleChildren now p d)
        else if bool_decide (status = "disabled") then writeResult now p "skipped" "schedule disabled before dispatch" d
        else if bool_decide (status = "running") then writeResult now p "failed" InterruptedJobOutcome d
        else if bool_decide (status = "queued") then writeResult now p "failed" "queue retries exhausted before dispatch; work was not executed" d
        else Ok d
    end.

(** [Queue.Fail] with the finalizer that the hub registers. *)
Definition FailJob (other : Job → bool) (now : time) (id token errMsg : string) (d : db) : db * result run_error unit :=
  match held id token (D_jobs d) with
  | None => (d, Err RunClaimLost)
  | Some j =>
      match fail_job now errMsg j with
      | None => (d, Err RunDatabase)
      | Some j' =>
          let d1 := with_jobs (<[id := j']> (D_jobs d)) d in
          if bool_decide (J_Status j' = DeadLettered) then
            match FinalizeDeadJob other now j' d1 with Ok d2 => (d2, Ok tt) | Err e => (d, Err e) end
          else (d1, Ok tt)
      end
  end.

(** The loop of [RecoverStaleClaims] over the jobs that died. *)
Fixpoint finalize_all (other : Job → bool) (now : time) (dead : list Job) (d : db) : result run_error db :=
  match dead with
  | [] => Ok d
  | job :: dead => FinalizeDeadJob other now job d ≫= finalize_all other now dead
  end.

Definition RecoverClaims `{MapRange} (other : Job → bool) (staleClaimAt : duration) (now : time) (skip : gset string) (d : db) : db :=
  if staleClaimAt <=? 0 then d
  else match recover_rows now (expired_batch now staleClaimAt skip (D_jobs d)) with
       | None => d
       | Some rows =>
           let d1 := with_jobs (foldl (λ t kv, <[kv.1 := kv.2]> t) (D_jobs d) rows) d in
           match finalize_all other now (List.filter (λ j, bool_decide (J_Status j = DeadLettered)) rows.*2) d1 with
           | Ok d2 => d2
           | Err _ => d
           end
       end.

(** ** The commands of an occurrence *)

Definition child_job (now : time) (newid : string) (p : ExecutionJob) (target : string) : ActionJob :=
  MkActionJob newid (scheduledActionRunID (X_JobID p) target) "command" (X_ActorID p) target (X_Command p) "" ""
    (list_to_map [("schedule_id", X_ScheduleID p); ("schedule_job_id", X_JobID p);
                  ("scheduled_for", FormatRFC3339Nano (X_ScheduledFor p)); ("schedule_action_job_id", newid)])
    false 30 now.

Definition run_of_child (c : ActionJob) : ActionRun :=
  MkRun (AJ_Type c) (AJ_ActorID c) (AJ_Target c) (AJ_Command c) "" "" (AJ_Params c) false "running" "" "" (AJ_RequestedAt c) (AJ_RequestedAt c) None.

Definition StartScheduledAction (now : time) (newid : string) (claim : Job) (target : string) (d : db) : db * result run_error ActionJob :=
  transaction d (
    lock_claim claim false d ≫= λ _,
    lockJobBusiness claim d ≫= λ '(p, status),
    if negb (bool_decide (status = "running")) || is_empty target then Err RunNotRunning
    else
      let c := child_job now newid p target in
      match D_runs d !! AJ_RunID c with
      | Some _ => Err RunDuplicate
      | None => Ok (with_runs (<[AJ_RunID c := run_of_child c]> (D_runs d)) d, c)
      end).

(** [lockActionJob] *)
Definition run_matches (c : ActionJob) (r : ActionRun) : bool :=
  bool_decide (AR_Type r = AJ_Type c) && bool_decide (AR_ActorID r = AJ_ActorID c) && bool_decide (AR_Target r = AJ_Target c) &&
  bool_decide (AR_Command r = AJ_Command c) && bool_decide (AR_ConnectorID r = AJ_ConnectorID c) && bool_decide (AR_ActionID r = AJ_ActionID c) &&
  bool_decide (AR_Params r = AJ_Params c) && bool_decide (AR_DryRun r = AJ_DryRun c).

Definition child_identity (p : ExecutionJob) (c : ActionJob) (res : ActionResult) : bool :=
  bool_decide (AJ_RunID c = scheduledActionRunID (X_JobID p) (AJ_Target c)) && bool_decide (AJ_ActorID c = X_ActorID p) &&
  bool_decide (AJ_Command c = X_Command p) && bool_decide (AJ_Type c = "command") && negb (AJ_DryRun c) &&
  bool_decide (default "" (AJ_Params c !! "schedule_id") = X_ScheduleID p) && bool_decide (default "" (AJ_Params c !! "schedule_job_id") = X_JobID p) &&
  bool_decide (default "" (AJ_Params c !! "scheduled_for") = FormatRFC3339Nano (X_ScheduledFor p)) &&
  bool_decide (default "" (AJ_Params c !! "schedule_action_job_id") = AJ_JobID c) &&
  bool_decide (RS_JobID res = AJ_JobID c) && bool_decide (RS_RunID res = AJ_RunID c).

Definition FinishScheduledAction (now : time) (claim : Job) (c : ActionJob) (res : ActionResult) (d : db) : db * result run_error unit :=
  transaction d (
    lock_claim claim false d ≫= λ _,
    lockJobBusiness claim d ≫= λ '(p, status),
    if negb (bool_decide (status ∈ ["running"; "superseded"])) then Err RunNotRunning
    else if negb (child_identity p c res) then Err RunMismatch
    else match D_runs d !! AJ_RunID c with
         | None => Err RunDatabase
         | Some r =>
             if negb (run_matches c r) then Err RunDatabase
             else if negb (bool_decide (AR_Status r = "running")) then Err RunNotRunning
             else if negb (bool_decide (RS_Status res ∈ ["succeeded"; "failed"])) then Err RunNotFinal
             else
               let completed := if RS_CompletedAt res =? zero_time then now else RS_CompletedAt res in
               Ok (with_runs (<[AJ_RunID c := finish_run completed (RS_Status res) (trim_space (RS_Output res)) (trim_space (RS_Error res)) r]> (D_runs d)) d, tt)
         end).
End transactions.
