(* ===== verification/ScheduleRuns.v ===== *)
(** * Running schedules

    The worker's handler of a claimed occurrence ([internal/hubapi/worker/schedule_job_handler.go]), with the call to the
    agent ([action_runtime_command.go]), run by any number of hub processes on one database ([ScheduleStore]) together with the
    scheduler ([internal/hubapi/schedulespkg/runtime.go]), the schedule routes, the job queue's workers, recovery and purge.

    A step is one transaction or one local action of a goroutine, in any order. Reads that a later transaction does not repeat
    are of any earlier version of the row: the state keeps them in [S_seen]. Processes may stop at any step. *)

From S2P Require Import Prelude GoStrings GoTime CommandPolicy Accounts ApiKeys Assets Groups AssetAccess Schedules JobQueue ScheduleStore.

(** ** Resolving the targets *)

Definition maxResolvedScheduleTargets : Z := 500.

Inductive resolve_error := ResolveContext | ResolveLookup | ResolveDefinition.

(** [ctx.Err()]: [live] is the number of calls that still find the context live. *)
Definition poll (live : nat) : result resolve_error nat := match live with O => Err ResolveContext | S live => Ok live end.
Fixpoint polls (n live : nat) : result resolve_error nat := match n with O => Ok live | S n => poll live ≫= polls n end.

(** The loop over the selectors, with [directAssets] and [selectedGroups]. *)
Fixpoint select_targets (assetIDs groupIDs : gset string) (live : nat) (direct selected : gset string) (selectors : list string) :
    result resolve_error (nat * gset string * gset string) :=
  match selectors with
  | [] => Ok (live, direct, selected)
  | selector :: selectors =>
      poll live ≫= λ live,
      let selector := trim_space selector in
      if is_empty selector then select_targets assetIDs groupIDs live direct selected selectors
      else if decide (selector ∈ assetIDs) then select_targets assetIDs groupIDs live ({[selector]} ∪ direct) selected selectors
      else if decide (selector ∈ groupIDs) then select_targets assetIDs groupIDs live direct ({[selector]} ∪ selected) selectors
      else Err ResolveDefinition
  end.

(** The loop over the assets of the selected groups. *)
Fixpoint add_members (ps : parents) (selected : gset string) (live : nat) (resolved : gset string) (assetList : list Asset) :
    result resolve_error (nat * gset string) :=
  match assetList with
  | [] => Ok (live, resolved)
  | asset :: assetList =>
      poll live ≫= λ live,
      let groupID := trim_space (A_GroupID asset) in
      if is_empty groupID || negb (groupIsSelected groupID selected ps) then add_members ps selected live resolved assetList
      else
        let resolved := {[trim_space (A_ID asset)]} ∪ resolved in
        if maxResolvedScheduleTargets <? Z.of_nat (size resolved) then Err ResolveDefinition
        else add_members ps selected live resolved assetList
  end.

(** [groupParents], which unlike [group_parents] keeps a group without an id. *)
Definition all_group_parents (groupList : list Group) : parents :=
  foldl (λ ps g, <[trim_space (G_ID g) := trim_space (G_ParentGroupID g)]> ps) ∅ groupList.

(** [assets] and [groups] are what the stores list, or [None] when they fail. *)
Definition resolveScheduleExecutionTargets (live : nat) (assets : option (list Asset)) (groups : option (list Group)) (p : ExecutionJob) :
    result resolve_error (list string) :=
  poll live ≫= λ live,
  match assets, groups with
  | Some assetList, Some groupList =>
      polls (length assetList) live ≫= λ live,
      let assetIDs := list_to_set ((λ a, trim_space (A_ID a)) <$> assetList) in
      polls (length groupList) live ≫= λ live,
      let ps := all_group_parents groupList in
      let selectors := X_Targets p ++ (if is_empty (trim_space (X_GroupID p)) then [] else [X_GroupID p]) in
      select_targets assetIDs (dom ps) live ∅ ∅ selectors ≫= λ '(live, direct, selected),
      if bool_decide (direct = ∅) && bool_decide (selected = ∅) then Err ResolveDefinition
      else
        add_members ps selected live direct assetList ≫= λ '(live, resolved),
        if bool_decide (resolved = ∅) then Err ResolveDefinition
        else poll live ≫= λ _, Ok (merge_sort String.le (elements resolved))
  | _, _ => Err ResolveLookup
  end.

(** ** One target *)

(** The runes of a string in UTF-8, as a [range] loop visits them: bytes that are no encoding read as U+FFFD. *)
Definition cont (b : Z) : bool := (128 <=? b) && (b <=? 191).
Definition second3 (a b : Z) : bool :=
  if a =? 224 then (160 <=? b) && (b <=? 191) else if a =? 237 then (128 <=? b) && (b <=? 159) else cont b.
Definition second4 (a b : Z) : bool :=
  if a =? 240 then (144 <=? b) && (b <=? 191) else if a =? 244 then (128 <=? b) && (b <=? 143) else cont b.
Fixpoint utf8_l (l : list Z) : text :=
  match l with
  | [] => []
  | a :: l1 =>
      if a <? 128 then a :: utf8_l l1
      else match l1 with
           | b :: l2 =>
               if (194 <=? a) && (a <=? 223) && cont b then ((a - 192) * 64 + (b - 128)) :: utf8_l l2
               else match l2 with
                    | c :: l3 =>
                        if (224 <=? a) && (a <=? 239) && second3 a b && cont c then ((a - 224) * 4096 + (b - 128) * 64 + (c - 128)) :: utf8_l l3
                        else match l3 with
                             | d :: l4 =>
                                 if (240 <=? a) && (a <=? 244) && second4 a b && cont c && cont d
                                 then ((a - 240) * 262144 + (b - 128) * 4096 + (c - 128) * 64 + (d - 128)) :: utf8_l l4
                                 else 65533 :: utf8_l l1
                             | [] => 65533 :: utf8_l l1
                             end
                    | [] => 65533 :: utf8_l l1
                    end
           | [] => [65533]
           end
  end.
Definition utf8 (s : string) : text := utf8_l (txt s).

Definition command_check (actorID target command : string) : CheckRequest := {|
  ActorID := utf8 actorID; Target := utf8 target; Mode := txt "structured"; Action := txt "command_execute"; Command := utf8 command |}.

(** What [executeScheduleTarget] asks before it starts a command; [None] is a dependency that is missing. *)
Record check_env := MkCheckEnv {
  CE_now : time;
  CE_authorize : option auth_stores;
  CE_policy : option EvaluatorConfig;
  CE_guardrails : option (option bool) (* an error, or whether maintenance blocks actions *) }.

(** The status of a target that is refused. *)
Definition target_checks (e : check_env) (p : ExecutionJob) (target : string) : result string unit :=
  match CE_authorize e with
  | None => Err "failed"
  | Some stores =>
      match AuthorizeExecutionTarget (CE_now e) stores (X_ActorID p) target with
      | Err _ => Err "failed"
      | Ok _ =>
          match CE_policy e with
          | None => Err "failed"
          | Some cfg =>
              if negb (Allowed (Evaluate (command_check (X_ActorID p) target (X_Command p)) cfg)) then Err "failed"
              else match CE_guardrails e with
                   | None | Some None => Err "failed"
                   | Some (Some true) => Err "blocked"
                   | Some (Some false) => Ok tt
                   end
          end
      end
  end.

(** [ExecuteCommandActionContext] up to the agent: the command that is sent, or the failure. *)
Definition command_to_send (ended connected : bool) (cfg : option EvaluatorConfig) (c : ActionJob) : option (string * string) :=
  let target := trim_space (AJ_Target c) in
  let command := trim_space (AJ_Command c) in
  if ended || is_empty target || is_empty command || negb connected then None
  else match cfg with
       | None => None
       | Some cfg => if Allowed (Evaluate (command_check (AJ_ActorID c) target command) cfg) then Some (target, command) else None
       end.

(** The result of a command from what the agent answers; [None] when nothing was sent. *)
Definition command_result (now : time) (c : ActionJob) (failure : string) (answer : option (string * string)) : ActionResult :=
  match answer with
  | None => MkActionResult (AJ_JobID c) (AJ_RunID c) "failed" "" failure now
  | Some (status, output) =>
      let ok := equal_fold (trim_space status) "succeeded" in
      MkActionResult (AJ_JobID c) (AJ_RunID c) (if ok then "succeeded" else "failed") (trim_space output)
        (if ok then "" else default_str (trim_space output) "command execution failed") now
  end.

(** ** The outcome of an occurrence *)

Definition count_status (s : string) (results : list (string * string)) : Z := Z.of_nat (length (List.filter (λ r, bool_decide (r.2 = s)) results)).

Definition occurrence_status (ended : bool) (results : list (string * string)) : string :=
  let n := list_len results in
  if ended then "failed"
  else if count_status "succeeded" results =? n then "succeeded"
  else if count_status "blocked" results =? n then "blocked"
  else if 0 <? count_status "succeeded" results then "partial"
  else "failed".

(** ** Processes *)

(** Where a goroutine is in [executeScheduleTarget]. *)
Inductive thread := TEntered | TAllowed | TStarted (c : ActionJob) | TAnswered (c : ActionJob) (res : ActionResult).

(** The occurrence that a handler runs: the indexes still in the channel, the targets its workers are at, and the results. *)
Record running := MkRunning {
  R_job : Job; R_exec : ExecutionJob; R_todo : list string; R_active : gmap string thread; R_done : list (string * string) }.

(** Where a handler is: the targets that it has resolved are [None] for a definition that is wrong. *)
Inductive phase :=
| PClaimed (job : Job)
| PPrepared (job : Job) (p : ExecutionJob) (targets : option (list string))
| PRunning (r : running)
| PFinishing (job : Job) (p : ExecutionJob) (status error : string)
| PFailed (job : Job).

Definition scheduleExecutionWorkers : Z := 4.

Record state := MkState { S_db : db; S_workers : gmap string phase; S_seen : list ScheduledTask }.
Definition init_state : state := MkState empty_db ∅ [].

Inductive event :=
| Claimed (jobID : string)
| Began (jobID : string)
| Permitted (p : ExecutionJob) (target : string) (e : check_env)
| Started (job : Job) (p : ExecutionJob) (target : string)
| Sent (jobID target command : string)
| Purged (jobID : string).

Definition set_active (target : string) (t : thread) (r : running) : running :=
  MkRunning (R_job r) (R_exec r) (R_todo r) (<[target := t]> (R_active r)) (R_done r).
Definition set_done (target status : string) (r : running) : running :=
  MkRunning (R_job r) (R_exec r) (R_todo r) (delete target (R_active r)) (R_done r ++ [(target, status)]).

(** The checks of [HandleScheduleRunJob] on the payload. *)
Definition payload_ok (job : Job) (p : ExecutionJob) : bool :=
  negb (is_empty (trim_space (X_JobID p))) && bool_decide (X_JobID p = J_ID job) && negb (is_empty (trim_space (X_ScheduleID p))) &&
  negb (is_empty (trim_space (X_Command p))) && negb (is_empty (trim_space (X_ActorID p))) && negb (X_ScheduledFor p =? zero_time).

Section steps.
Context `{MapRange} `{CronParser} `{PayloadCodec} `{KeyHash}.

(** Decoding, the checks and [resolveScheduleExecutionTargets]. *)
Definition prepare (live : nat) (assets : option (list Asset)) (groups : option (list Group)) (job : Job) : phase :=
  match decode_job (J_Payload job) with
  | None => PFailed job
  | Some p =>
      if negb (payload_ok job p) then PFailed job
      else match resolveScheduleExecutionTargets live assets groups p with
           | Ok targets => PPrepared job p (Some targets)
           | Err ResolveDefinition => PPrepared job p None
           | Err _ => PFailed job
           end
  end.

(** After [beginExecution]; [None] when the handler is through. [reason] is the text of the definition error. *)
Definition after_begin (reason : string) (job : Job) (p : ExecutionJob) (targets : option (list string)) (began : result run_error bool) : option phase :=
  match began with
  | Err _ => Some (PFailed job)
  | Ok false => None
  | Ok true =>
      match targets with
      | None => Some (PFinishing job p "failed" reason)
      | Some targets => Some (PRunning (MkRunning job p targets ∅ []))
      end
  end.

(** One goroutine takes the next index of the channel. *)
Definition take_target (ended : bool) (r : running) : option running :=
  match R_todo r with
  | [] => None
  | target :: todo =>
      if Z.of_nat (size (R_active r)) <? scheduleExecutionWorkers then
        Some (if ended then MkRunning (R_job r) (R_exec r) todo (R_active r) (R_done r ++ [(target, "failed")])
              else MkRunning (R_job r) (R_exec r) todo (<[target := TEntered]> (R_active r)) (R_done r))
      else None
  end.

Definition after_checks (e : check_env) (target : string) (r : running) : running :=
  match target_checks e (R_exec r) target with
  | Ok _ => set_active target TAllowed r
  | Err status => set_done target status r
  end.

Definition after_start (target : string) (started : result run_error ActionJob) (r : running) : running :=
  match started with
  | Ok c => set_active target (TStarted c) r
  | Err _ => set_done target "failed" r
  end.

Definition after_finish (target : string) (res : ActionResult) (finished : result run_error unit) (r : running) : running :=
  set_done target (if is_ok finished && bool_decide (RS_Status res = "succeeded") then "succeeded" else "failed") r.

(** The statement of [Queue.Claim] and the handler that it starts: jobs of other kinds go to other handlers. *)
Definition worker_of (claimed : option Job) : option phase :=
  match claimed with
  | Some job => if bool_decide (J_Kind job = KindScheduleRun) then Some (PClaimed job) else None
  | None => None
  end.

Definition set_worker (k : string) (ph : option phase) (ws : gmap string phase) : gmap string phase := partial_alter (λ _, ph) k ws.

(** The rows that the tables have now are seen by later reads. *)
Definition see (d : db) (seen : list ScheduledTask) : list ScheduledTask := (map_to_list (D_tasks d)).*2 ++ seen.

(** Every version of a queue row of kind [schedule_run] is the same in both tables. *)
Definition same_schedule_jobs (t t' : table) : Prop :=
  ∀ id j, J_Kind j = KindScheduleRun → t !! id = Some j ↔ t' !! id = Some j.

(** The runs of schedules in the second table are those of the first, some deleted. *)
Definition fewer_schedule_runs (rs rs' : gmap string ActionRun) : Prop :=
  ∀ id, has_prefix id "schedrun_" = true → rs' !! id = None ∨ rs' !! id = rs !! id.

(** A step on the database alone. *)
Inductive db_step (seen : list ScheduledTask) : list event → db → db → Prop :=
| db_create now newid c inv req task d :
    create_task now newid c inv req = Ok task → trim_space newid = newid → newid ≠ "" →
    db_step seen [] d (sql_CreateScheduledTask task d).1
| db_update now now' c inv existing req u d :
    existing ∈ seen → update_of now now' c inv existing req = Ok u →
    db_step seen [] d (sql_UpdateScheduledTask (ST_ID existing) u d).1
| db_delete id d : db_step seen [] d (sql_DeleteScheduledTask id d).1
| db_initialize id now cron next d : NextRun cron now = Ok next → db_step seen [] d (InitializeScheduledTaskNextRun id next d).1
| db_invalid id msg d : db_step seen [] d (MarkScheduledTaskInvalid id msg d)
| db_claim task due now next maxAttempts d :
    task ∈ seen → ST_NextRunAt task = Some due → NextRun (ST_CronExpr task) now = Ok next →
    let r := ClaimScheduledTaskExecution (claim_of task due now next maxAttempts) d in
    db_step seen (match r.2 with Ok true => [Claimed (ExecutionJobID (ST_ID task) due)] | _ => [] end) d r.1
| db_renew now id token d : db_step seen [] d (with_jobs (RenewClaim now id token (D_jobs d)).1 d)
| db_fail other now id token msg d : db_step seen [] d (FailJob other now id token msg d).1
| db_recover other stale now skip d : db_step seen [] d (RecoverClaims other stale now skip d)
| db_purge olderThan d :
    let t' := PurgeOldJobs olderThan (D_jobs d) in
    db_step seen (Purged <$> elements (dom (D_jobs d) ∖ dom t')) d (with_jobs t' d)
| db_other_jobs t' d : same_schedule_jobs (D_jobs d) t' → db_step seen [] d (with_jobs t' d)
| db_other_runs rs' d : fewer_schedule_runs (D_runs d) rs' → db_step seen [] d (with_runs rs' d).

(** A step of the handler that is in a phase; [None] is a handler that is through. *)
Inductive worker_step : list event → db * phase → db * option phase → Prop :=
| ws_prepare live assets groups job d : worker_step [] (d, PClaimed job) (d, Some (prepare live assets groups job))
| ws_begin now reason job p targets d :
    let r := BeginJobExecution now job d in
    worker_step (match r.2 with Ok true => [Began (J_ID job)] | _ => [] end) (d, PPrepared job p targets) (r.1, after_begin reason job p targets r.2)
| ws_take ended r r' d : take_target ended r = Some r' → worker_step [] (d, PRunning r) (d, Some (PRunning r'))
| ws_check e target r d :
    R_active r !! target = Some TEntered →
    worker_step (if is_ok (target_checks e (R_exec r) target) then [Permitted (R_exec r) target e] else []) (d, PRunning r)
      (d, Some (PRunning (after_checks e target r)))
| ws_start now newid target r d :
    R_active r !! target = Some TAllowed →
    let s := StartScheduledAction now newid (R_job r) target d in
    worker_step (match s.2 with Ok _ => [Started (R_job r) (R_exec r) target] | Err _ => [] end) (d, PRunning r)
      (s.1, Some (PRunning (after_start target s.2 r)))
| ws_send now ended connected cfg failure answer target c r d :
    R_active r !! target = Some (TStarted c) →
    let sent := if (connected : bool) then command_to_send ended true cfg c else None in
    worker_step (match sent with Some (agent, command) => [Sent (J_ID (R_job r)) target command] | None => [] end) (d, PRunning r)
      (d, Some (PRunning (set_active target (TAnswered c (command_result now c failure (sent ≫= λ _, Some answer))) r)))
| ws_finish_target now target c res r d :
    R_active r !! target = Some (TAnswered c res) →
    let f := FinishScheduledAction now (R_job r) c res d in
    worker_step [] (d, PRunning r) (f.1, Some (PRunning (after_finish target res f.2 r)))
| ws_results ended error r d :
    R_todo r = [] → R_active r = ∅ →
    worker_step [] (d, PRunning r) (d, Some (PFinishing (R_job r) (R_exec r) (occurrence_status ended (R_done r)) error))
| ws_finish now job p status error d :
    let f := FinishScheduleExecution now job status error d in
    worker_step [] (d, PFinishing job p status error) (f.1, match f.2 with Ok _ => None | Err _ => Some (PFailed job) end)
| ws_fail other now msg job d :
    worker_step [] (d, PFailed job) ((FailJob other now (J_ID job) (default "" (J_LockToken job)) msg d).1, None)
| ws_stop ph d : worker_step [] (d, ph) (d, None)
| ws_error job ph d : ph = PClaimed job ∨ (∃ p ts, ph = PPrepared job p ts) → worker_step [] (d, ph) (d, Some (PFailed job)).

Inductive step : list event → state → state → Prop :=
| step_db l d d' ws seen : db_step seen l d d' → step l (MkState d ws seen) (MkState d' ws (see d' seen))
| step_claim_job now token skip d ws seen :
    ws !! token = None → token ≠ "" →
    let r := Claim now token skip (D_jobs d) in
    step [] (MkState d ws seen) (MkState (with_jobs r.1 d) (set_worker token (worker_of r.2) ws) (see d seen))
| step_worker k ph ph' l d d' ws seen :
    ws !! k = Some ph → worker_step l (d, ph) (d', ph') → step l (MkState d ws seen) (MkState d' (set_worker k ph' ws) (see d' seen)).

Inductive execution : list event → state → state → Prop :=
| ex_nil s : execution [] s s
| ex_step l l' s s' s'' : execution l s s' → step l' s' s'' → execution (l ++ l') s s''.
End steps.

(** ** Counting events *)

Definition occurs (f : event → bool) (l : list event) : Z := Z.of_nat (length (List.filter f l)).
Definition is_claimed (J : string) (e : event) : bool := match e with Claimed J' => bool_decide (J' = J) | _ => false end.
Definition is_began (J : string) (e : event) : bool := match e with Began J' => bool_decide (J' = J) | _ => false end.
Definition is_purged (J : string) (e : event) : bool := match e with Purged J' => bool_decide (J' = J) | _ => false end.
Definition is_sent (J x : string) (e : event) : bool := match e with Sent J' x' _ => bool_decide (J' = J) && bool_decide (x' = x) | _ => false end.

Lemma occurs_app f l l' : occurs f (l ++ l') = occurs f l + occurs f l'.
Proof. unfold occurs. rewrite List.filter_app, length_app. lia. Qed.

Lemma occurs_nonneg f l : 0 <= occurs f l.
Proof. unfold occurs. lia. Qed.

Definition b2z (b : bool) : Z := if b then 1 else 0.

Lemma occurs_one f e : occurs f [e] = b2z (f e).
Proof. unfold occurs. simpl. by destruct (f e). Qed.

(** ** Resolved targets *)

Lemma resolve_ok live assets groups p targets :
  resolveScheduleExecutionTargets live assets groups p = Ok targets → NoDup targets ∧ targets ≠ [].
Proof.
  unfold resolveScheduleExecutionTargets. intros (n1 & _ & Hr)%bind_Ok. destruct assets as [al|]; [|done]. destruct groups as [gl|]; [|done].
  apply bind_Ok in Hr as (n2 & _ & Hr). apply bind_Ok in Hr as (n3 & _ & Hr). apply bind_Ok in Hr as ([[n4 direct] selected] & _ & Hr).
  case_if_in Hr; [done|]. apply bind_Ok in Hr as ([n5 resolved] & _ & Hr). case_bool_decide as He; [done|].
  apply bind_Ok in Hr as (n6 & _ & Hr). injection Hr as <-. split; [rewrite merge_sort_Permutation; apply NoDup_elements|].
  intros Hn. apply He. apply leibniz_equiv, elements_empty_inv. pose proof (merge_sort_Permutation String.le (elements resolved)) as Hp.
  rewrite Hn in Hp. by apply Permutation_nil_l in Hp.
Qed.

(** ** The ledger of a worker *)

(** The command for [x] is still to be sent. *)
Definition unsent (x : string) (r : running) : bool :=
  bool_decide (x ∈ R_todo r) || match R_active r !! x with Some (TEntered | TAllowed | TStarted _) => true | _ => false end.

Definition armed (J x : string) (ph : phase) : bool :=
  match ph with PRunning r => bool_decide (J_ID (R_job r) = J) && unsent x r | _ => false end.
Definition armed_opt (J x : string) (ph : option phase) : bool := match ph with Some ph => armed J x ph | None => false end.

Definition wf_running (r : running) : Prop := NoDup (R_todo r) ∧ ∀ x, x ∈ R_todo r → R_active r !! x = None.
Definition wf_phase (ph : phase) : Prop :=
  match ph with PPrepared _ _ (Some targets) => NoDup targets | PRunning r => wf_running r | _ => True end.
Definition wf_phase_opt (ph : option phase) : Prop := match ph with Some ph => wf_phase ph | None => True end.

Lemma set_active_wf x t t' r : wf_running r → R_active r !! x = Some t' → wf_running (set_active x t r).
Proof. intros [Hnd Hd] Hx. split; [done|]. intros y Hy. simpl. rewrite lookup_insert_ne; [by apply Hd|]. intros <-. specialize (Hd _ Hy). congruence. Qed.

Lemma set_done_wf x st r : wf_running r → wf_running (set_done x st r).
Proof. intros [Hnd Hd]. split; [done|]. intros y Hy. simpl. apply lookup_delete_None. right. by apply Hd. Qed.

Lemma take_target_wf ended r r' : wf_running r → take_target ended r = Some r' → wf_running r' ∧ ∀ x, unsent x r' = true → unsent x r = true.
Proof.
  intros [Hnd Hd] Ht. unfold take_target in Ht. destruct (R_todo r) as [|y todo] eqn:Htodo; [done|]. case_if_in Ht; [|done].
  apply NoDup_cons in Hnd as [Hy Hnd]. injection Ht as <-. unfold unsent. rewrite Htodo. destruct ended; (split; [split; [done|]|]); simpl.
  - intros x Hx. apply Hd. by right.
  - intros x Hu. apply orb_true_iff in Hu as [Hu|Hu]; [|by rewrite Hu, orb_true_r]. bool_prop. rewrite bool_decide_eq_true_2 by (by right). done.
  - intros x Hx. rewrite lookup_insert_ne; [apply Hd; by right|]. by intros <-.
  - intros x Hu. destruct (decide (x = y)) as [->|Hne]; [by rewrite bool_decide_eq_true_2 by (by left)|].
    rewrite lookup_insert_ne in Hu by done. apply orb_true_iff in Hu as [Hu|Hu]; [|by rewrite Hu, orb_true_r]. bool_prop.
    by rewrite bool_decide_eq_true_2 by (by right).
Qed.

(** A target that moves on within [executeScheduleTarget] without a command sent is not unsent if it was not before. *)
Lemma unsent_active x y t r : (∃ t', R_active r !! y = Some t' ∧ unsent y r = true) → unsent x (set_active y t r) = true → unsent x r = true.
Proof.
  intros (t' & Hy & Hun) Hu. destruct (decide (x = y)) as [->|Hne]; [done|].
  unfold unsent in *. simpl in Hu. by rewrite lookup_insert_ne in Hu by done.
Qed.

Lemma unsent_done x y st r : unsent x (set_done y st r) = true → unsent x r = true.
Proof.
  unfold unsent. simpl. destruct (decide (x = y)) as [->|Hne].
  - rewrite lookup_delete_eq, orb_false_r. by intros ->.
  - by rewrite lookup_delete_ne.
Qed.

Lemma unsent_thread y t r : R_active r !! y = Some t → (t = TEntered ∨ t = TAllowed ∨ ∃ c, t = TStarted c) → unsent y r = true.
Proof. intros Hy Ht. unfold unsent. rewrite Hy. apply orb_true_iff. right. by destruct Ht as [->|[->|[c ->]]]. Qed.

Lemma b2z_le (a b : bool) : (a = true → b = true) → b2z a <= b2z b.
Proof. destruct a, b; simpl; [lia| |lia|lia]. intros Hf. by specialize (Hf eq_refl). Qed.

Lemma armed_le J x r r' : J_ID (R_job r') = J_ID (R_job r) → (unsent x r' = true → unsent x r = true) → b2z (armed J x (PRunning r')) <= b2z (armed J x (PRunning r)).
Proof. intros Hj Hu. simpl. rewrite Hj. apply b2z_le. intros [? ?]%andb_true_iff. apply andb_true_iff. auto. Qed.

(** Counting over a map, one key apart. *)
Definition at_key {A} (P : A → Prop) `{!∀ x, Decision (P x)} (m : gmap string A) (k : string) : Z :=
  match m !! k with Some x => if decide (P x) then 1 else 0 | None => 0 end.

Lemma count_where_split {A} (P : A → Prop) `{!∀ x, Decision (P x)} (m : gmap string A) k :
  count_where P m = count_where P (delete k m) + at_key P m k.
Proof.
  unfold at_key. destruct (m !! k) as [x|] eqn:Hk; [rewrite (count_where_delete P m k x Hk); lia|]. rewrite delete_id by done. lia.
Qed.

Lemma count_where_mono {A} (P : A → Prop) `{!∀ x, Decision (P x)} (m m' : gmap string A) :
  (∀ k x', m' !! k = Some x' → P x' → ∃ x, m !! k = Some x ∧ P x) → count_where P m' <= count_where P m.
Proof.
  intros Hm. unfold count_where. apply inj_le. rewrite <-!(size_dom (D:=gset string)). apply subseteq_size. intros k.
  rewrite !elem_of_dom. intros [x' [Hx' HP]%map_lookup_filter_Some]. destruct (Hm _ _ Hx' HP) as (x & Hx & HPx).
  exists x. by apply map_lookup_filter_Some.
Qed.

Lemma count_where_at {A} (P : A → Prop) `{!∀ x, Decision (P x)} (m m' : gmap string A) k :
  (∀ i x', i ≠ k → m' !! i = Some x' → P x' → ∃ x, m !! i = Some x ∧ P x) →
  count_where P m' - at_key P m' k <= count_where P m - at_key P m k.
Proof.
  intros Hm. rewrite (count_where_split P m' k), (count_where_split P m k).
  assert (count_where P (delete k m') <= count_where P (delete k m)); [|lia].
  apply count_where_mono. intros i x' [Hne Hx']%lookup_delete_Some HP. destruct (Hm i x' (not_eq_sym Hne) Hx' HP) as (x & Hx & HPx).
  exists x. by rewrite lookup_delete_ne.
Qed.

(** ** What the transactions do to the rows of schedules *)

Section effects.
Context `{MapRange} `{CronParser} `{PayloadCodec} `{KeyHash}.

(** The row of a task changes only into one whose occurrence is the same and closed, or none. *)
Definition closes (t t' : ScheduledTask) : Prop :=
  t' = t ∨ ∃ status error, status ∈ final_statuses ∧ t' = set_run (ST_LastRunAt t) (ST_NextRunAt t) status error (ST_LastRunJobID t) t.

Definition closing (p : ExecutionJob) (d d' : db) : Prop :=
  D_jobs d' = D_jobs d ∧ dom (D_tasks d') = dom (D_tasks d) ∧
  ∀ id t, D_tasks d !! id = Some t → ∃ t', D_tasks d' !! id = Some t' ∧ closes t t' ∧ (t' ≠ t → id = X_ScheduleID p).

Lemma closing_refl p d d' : D_jobs d' = D_jobs d → D_tasks d' = D_tasks d → closing p d d'.
Proof. intros Hj Ht. split; [done|]. rewrite Ht. split; [done|]. intros id t Hid. exists t. split; [done|]. by split; [left|]. Qed.

Lemma final_not_unfinished status : status ∈ final_statuses → unfinished status = false.
Proof.
  unfold final_statuses. rewrite !elem_of_cons. by intros [->|[->|[->|[->|[->|[->|?%not_elem_of_nil]]]]]].
Qed.

Lemma writeResult_spec now p status error d d' :
  writeResult now p status error d = Ok d' →
  status ∈ final_statuses ∧ D_jobs d' = D_jobs d ∧
  D_tasks d' = alter (λ t, set_run (ST_LastRunAt t) (ST_NextRunAt t) status (truncateScheduledTaskError error) (ST_LastRunJobID t) t) (X_ScheduleID p) (D_tasks d).
Proof.
  unfold writeResult. intros Hw. case_if_in Hw; [done|]. bool_prop. injection Hw as <-. split; [done|]. unfold update_where. simpl.
  destruct (D_tasks d !! X_ScheduleID p) as [t|] eqn:Ht; simpl; (split; [done|]).
  - apply map_eq. intros i. destruct (decide (i = X_ScheduleID p)) as [->|Hne].
    + by rewrite lookup_insert_eq, lookup_alter_eq, Ht.
    + by rewrite lookup_insert_ne, lookup_alter_ne by done.
  - apply map_eq. intros i. destruct (decide (i = X_ScheduleID p)) as [->|Hne]; [by rewrite lookup_alter_eq, Ht|by rewrite lookup_alter_ne].
Qed.

Lemma writeResult_closing now p status error d d' : writeResult now p status error d = Ok d' → closing p d d'.
Proof.
  intros (Hst & Hj & Ht)%writeResult_spec. split; [done|]. rewrite Ht. split; [by rewrite dom_alter_L|].
  intros id t Hid. destruct (decide (id = X_ScheduleID p)) as [->|Hne].
  - rewrite lookup_alter_eq, Hid. eexists. split; [done|]. split; [|done]. right. eauto.
  - rewrite lookup_alter_ne by done. exists t. split; [done|]. by split; [left|].
Qed.

Lemma lock_business_spec job d p status :
  lockJobBusiness job d = Ok (p, status) →
  decode_job (J_Payload job) = Some p ∧ X_JobID p = J_ID job ∧ J_ID job ≠ "" ∧
  ((status = "superseded" ∧ ∀ t, D_tasks d !! X_ScheduleID p = Some t → ST_LastRunJobID t ≠ J_ID job) ∨
   ∃ t, D_tasks d !! X_ScheduleID p = Some t ∧ ST_LastRunJobID t = J_ID job ∧
        status = (if negb (ST_Enabled t) && bool_decide (ST_LastRunStatus t = "queued") then "disabled" else ST_LastRunStatus t)).
Proof.
  unfold lockJobBusiness. destruct (decode_job (J_Payload job)) as [p'|]; [|done]. intros Hl. case_if_in Hl; [done|]. injection Hl as -> <-.
  apply orb_false_iff in Hb as [Hne Heq]. bool_prop. rewrite Heq in *. do 3 (split; [done|]).
  destruct (D_tasks d !! X_ScheduleID p) as [t|] eqn:Ht; [|by left].
  destruct (decide (ST_LastRunJobID t = J_ID job)) as [Hc|Hc].
  - rewrite bool_decide_eq_true_2 by done. right. eauto.
  - rewrite bool_decide_eq_false_2 by done. left. split; [done|]. by intros t' [= <-].
Qed.

Lemma lock_claim_row job dead d :
  lock_claim job dead d = Ok tt →
  ∃ j, D_jobs d !! J_ID job = Some j ∧ J_Status j = (if dead then DeadLettered else Processing) ∧ J_Kind j = J_Kind job ∧ J_Payload j = J_Payload job ∧
       (dead = false → J_LockToken j = Some (default "" (J_LockToken job))).
Proof.
  unfold lock_claim, lockJobClaim. intros Hl. destruct (is_empty (J_ID job) || _); [done|].
  destruct (D_jobs d !! J_ID job) as [j|]; [|done]. exists j. destruct (_ && _) eqn:Hc in Hl; [|done].
  repeat match goal with Hx : _ && _ = true |- _ => apply andb_true_iff in Hx as [Hx ?] end. bool_prop.
  do 4 (split; [done|]). intros ->. simpl in *. by bool_prop.
Qed.

Lemma transaction_ok {A} (d d' : db) (r : result run_error (db * A)) a : transaction d r = (d', Ok a) → r = Ok (d', a).
Proof. unfold transaction. destruct r as [[? ?]|]; [by intros [= <- <-]|done]. Qed.

Lemma transaction_err {A} (d d' : db) (r : result run_error (db * A)) e : transaction d r = (d', Err e) → d' = d.
Proof. unfold transaction. destruct r as [[? ?]|]; [done|by intros [= <- _]]. Qed.

Lemma complete_jobs now job d : D_jobs (completeLockedJob now job d) = alter (complete_job now) (J_ID job) (D_jobs d).
Proof. done. Qed.

(** A claim that begins finds its row queued and leaves it running. *)
Lemma begin_dispatch now job d d' :
  BeginJobExecution now job d = (d', Ok true) →
  ∃ p t, lock_claim job false d = Ok tt ∧ decode_job (J_Payload job) = Some p ∧ X_JobID p = J_ID job ∧
    D_tasks d !! X_ScheduleID p = Some t ∧ ST_LastRunJobID t = J_ID job ∧ ST_LastRunStatus t = "queued" ∧ ST_Enabled t = true ∧
    D_jobs d' = D_jobs d ∧ D_runs d' = D_runs d ∧
    D_tasks d' = <[X_ScheduleID p := set_run (ST_LastRunAt t) (ST_NextRunAt t) "running" (ST_LastError t) (J_ID job) t]> (D_tasks d).
Proof.
  intros (u & Hl & Hb)%transaction_ok%bind_Ok. destruct u. apply bind_Ok in Hb as ([p status] & Hbus & Hb).
  apply lock_business_spec in Hbus as (Hdec & Hid & Hne & Hst). cbv zeta in Hb.
  destruct (bool_decide (status = "queued")) eqn:Hq; [|apply bind_Ok in Hb as (d2 & _ & Hb); done].
  bool_prop. subst status. destruct Hst as [[? _]|(t & Ht & Hcur & Hs)]; [done|].
  assert (ST_LastRunStatus t = "queued" ∧ ST_Enabled t = true) as [Hq He].
  { destruct (ST_Enabled t); simpl in Hs; [done|]. destruct (bool_decide (ST_LastRunStatus t = "queued")) eqn:Hx; bool_prop; [done|congruence]. }
  simpl in Hb. injection Hb as <-. exists p, t. unfold markRunning, update_where. rewrite Ht. rewrite Hcur. by repeat split.
Qed.

(** The row of the job's schedule is closed if it is still the row of this occurrence. *)
Definition settles (p : ExecutionJob) (job : Job) (d d' : db) : Prop :=
  closing p d d' ∧ ∀ t, D_tasks d' !! X_ScheduleID p = Some t → ST_LastRunJobID t = J_ID job → unfinished (ST_LastRunStatus t) = false.

Lemma settle_write now p s e job d d1 d2 :
  D_jobs d1 = D_jobs d → D_tasks d1 = D_tasks d → writeResult now p s e d1 = Ok d2 → settles p job d d2.
Proof.
  intros Hj1 Ht1 Hwr. pose proof (writeResult_closing _ _ _ _ _ _ Hwr) as (Hcj & Hcd & Hct).
  apply writeResult_spec in Hwr as (Hs & Hj & Ht). rewrite Hj1 in *. rewrite Ht1 in *. split; [done|].
  intros t. rewrite Ht, lookup_alter_eq. destruct (D_tasks d !! X_ScheduleID p) as [t0|]; [|done]. intros [= <-] _.
  by apply final_not_unfinished.
Qed.

Lemma settle_none p status job d d2 :
  lockJobBusiness job d = Ok (p, status) → status ≠ "queued" → status ≠ "running" → status ≠ "disabled" →
  D_jobs d2 = D_jobs d → D_tasks d2 = D_tasks d → settles p job d d2.
Proof.
  intros (_ & _ & _ & Hst)%lock_business_spec Hq Hr Hd Hj Ht. split; [by apply closing_refl|]. rewrite Ht. intros t Hid Hcur.
  destruct Hst as [[-> Hs]|(t' & Ht' & _ & Hs)]; [by apply Hs in Hid|]. rewrite Hid in Ht'. injection Ht' as <-.
  destruct (negb (ST_Enabled t) && bool_decide (ST_LastRunStatus t = "queued")); [done|].
  unfold unfinished. apply bool_decide_eq_false. rewrite <-Hs. set_solver.
Qed.

Lemma settles_jobs p job t d d2 : settles p job d d2 → settles p job (with_jobs t d) (with_jobs t d2).
Proof. intros [(Hj & Hd & Ht) Hf]. split; [|done]. by split. Qed.

Lemma complete_settles now p job d d2 :
  settles p job d d2 →
  D_jobs (completeLockedJob now job d2) = alter (complete_job now) (J_ID job) (D_jobs d) ∧
  settles p job (with_jobs (D_jobs (completeLockedJob now job d2)) d) (completeLockedJob now job d2).
Proof. intros Hs. split; [|by apply settles_jobs]. destruct Hs as [(Hj & _) _]. by rewrite complete_jobs, Hj. Qed.

(** A claim that does not begin closes its row, if it is still its own, and its job. *)
Lemma begin_skip now job d d' :
  BeginJobExecution now job d = (d', Ok false) →
  ∃ p, lock_claim job false d = Ok tt ∧ decode_job (J_Payload job) = Some p ∧ X_JobID p = J_ID job ∧
    D_jobs d' = alter (complete_job now) (J_ID job) (D_jobs d) ∧ settles p job (with_jobs (D_jobs d') d) d'.
Proof.
  intros (u & Hl & Hb)%transaction_ok%bind_Ok. destruct u. apply bind_Ok in Hb as ([p status] & Hbus & Hb). exists p.
  pose proof Hbus as (Hdec & Hid & _ & _)%lock_business_spec. cbv zeta in Hb.
  destruct (bool_decide (status = "queued")) eqn:Hq; [done|]. bool_prop. apply bind_Ok in Hb as (d2 & Hw & Hb). injection Hb as <-. do 3 (split; [done|]).
  apply complete_settles. destruct (bool_decide (status = "running")) eqn:Hr; [|destruct (bool_decide (status = "disabled")) eqn:Hd].
  1,2: eapply settle_write; [| |exact Hw]; by destruct (bool_decide (status = "superseded")).
  bool_prop. injection Hw as <-. eapply settle_none; [done..| |]; by destruct (bool_decide (status = "superseded")).
Qed.

Lemma finish_schedule_spec now job status error d d' :
  FinishScheduleExecution now job status error d = (d', Ok tt) →
  ∃ p, lock_claim job false d = Ok tt ∧ decode_job (J_Payload job) = Some p ∧ X_JobID p = J_ID job ∧
    D_jobs d' = alter (complete_job now) (J_ID job) (D_jobs d) ∧ settles p job (with_jobs (D_jobs d') d) d'.
Proof.
  intros (u & Hl & Hb)%transaction_ok%bind_Ok. destruct u. apply bind_Ok in Hb as ([p owner] & Hbus & Hb). exists p.
  pose proof Hbus as (Hdec & Hid & _ & _)%lock_business_spec. apply bind_Ok in Hb as (d2 & Hw & Hb). injection Hb as <-. do 3 (split; [done|]).
  apply complete_settles. destruct (bool_decide (owner = "superseded")) eqn:Hs.
  - bool_prop. subst owner. injection Hw as <-. by eapply settle_none.
  - destruct (negb (bool_decide (owner = "running"))); [done|]. by eapply settle_write.
Qed.

(** The finalizer of a dead job of a schedule closes the row, or the job is not of a schedule at all. *)
Lemma finalize_spec other now job d d' :
  FinalizeDeadJob other now job d = Ok d' →
  D_jobs d' = D_jobs d ∧ ∃ p, closing p d d' ∧
  (J_Kind job = KindScheduleRun → ∀ p', decode_job (J_Payload job) = Some p' → X_JobID p' = J_ID job → J_ID job ≠ "" → p' = p ∧ settles p job d d').
Proof.
  unfold FinalizeDeadJob. intros Hf.
  assert (Hsame : D_jobs d' = D_jobs d → D_tasks d' = D_tasks d → closing (MkExecution "" "" "" 0 "" [] "" "") d d') by apply closing_refl.
  destruct (bool_decide (J_Kind job = KindScheduleRun)) eqn:Hk; simpl in Hf; bool_prop.
  2: { destruct (other job); [|done]. injection Hf as <-. split; [done|]. eexists. split; [by apply Hsame|done]. }
  apply bind_Ok in Hf as ([] & Hl & Hf). destruct (lockJobBusiness job d) as [[p status]|e] eqn:Hbus.
  - pose proof Hbus as (Hdec & Hid & _ & _)%lock_business_spec.
    assert (Hset : settles p job d d').
    { destruct (bool_decide (status = "superseded")) eqn:Hs; [bool_prop; subst status; injection Hf as <-; by eapply settle_none|].
      destruct (bool_decide (status = "disabled")) eqn:Hd; [by eapply settle_write|].
      destruct (bool_decide (status = "running")) eqn:Hr; [by eapply settle_write|].
      destruct (bool_decide (status = "queued")) eqn:Hq; [by eapply settle_write|]. bool_prop. injection Hf as <-. by eapply settle_none. }
    split; [apply Hset|]. exists p. split; [apply Hset|]. intros _ p' Hp' _ _. split; [congruence|done].
  - assert (e = RunIdentity) as -> by (unfold lockJobBusiness in Hbus; destruct (decode_job _); [|congruence]; by case_if_in Hbus; congruence).
    injection Hf as <-. split; [done|]. eexists. split; [by apply Hsame|]. intros _ p' Hp' Hid Hne. exfalso.
    unfold lockJobBusiness in Hbus. rewrite Hp' in Hbus. rewrite Hid, bool_decide_eq_false_2, bool_decide_eq_true_2 in Hbus by done. done.
Qed.
(** *** The invariant *)

(** The payload of an occurrence of a schedule is what the scheduler makes of a version of its row. *)
Definition occurrence_of (task : ScheduledTask) (due : time) : ExecutionJob := EC_Job (claim_of task due 0 0 1).
Definition genuine (seen : list ScheduledTask) (p : ExecutionJob) : Prop :=
  ∃ task due, task ∈ seen ∧ ST_NextRunAt task = Some due ∧ p = occurrence_of task due.

Definition wf_schedule_job (seen : list ScheduledTask) (id : string) (j : Job) : Prop :=
  J_ID j = id ∧ id ≠ "" ∧ ∃ p, decode_job (J_Payload j) = Some p ∧ X_JobID p = id ∧ genuine seen p.

(** A job that a worker holds or will get; the jobs of [D] have just ended, and their schedules are still to be closed. *)
Definition live (D : list Job) (j : Job) : Prop := J_Status j = Queued ∨ J_Status j = Processing ∨ j ∈ D.

Definition wf_task (D : list Job) (t : table) (id : string) (task : ScheduledTask) : Prop :=
  ST_ID task = id ∧ trim_space id = id ∧
  (unfinished (ST_LastRunStatus task) = true → ST_Enabled task = true ∧
    ∃ j p, t !! ST_LastRunJobID task = Some j ∧ J_Kind j = KindScheduleRun ∧ live D j ∧ decode_job (J_Payload j) = Some p ∧ X_ScheduleID p = id).

Record wf_db (seen : list ScheduledTask) (D : list Job) (d : db) : Prop := {
  wd_tasks id task : D_tasks d !! id = Some task → wf_task D (D_jobs d) id task;
  wd_jobs id j : D_jobs d !! id = Some j → J_Kind j = KindScheduleRun → wf_schedule_job seen id j;
  wd_seen task : task ∈ seen → trim_space (ST_ID task) = ST_ID task }.

(** Rows of schedules stay what they are; those that were live stay so, or are in [D']. *)
Definition keeps (D D' : list Job) (t t' : table) : Prop :=
  (∀ id j, t !! id = Some j → J_Kind j = KindScheduleRun → live D j →
    ∃ j', t' !! id = Some j' ∧ J_Kind j' = KindScheduleRun ∧ J_Payload j' = J_Payload j ∧ live D' j') ∧
  (∀ id j', t' !! id = Some j' → J_Kind j' = KindScheduleRun →
    ∃ j, t !! id = Some j ∧ J_Kind j = KindScheduleRun ∧ J_Payload j' = J_Payload j ∧ J_ID j' = J_ID j).

Lemma keeps_wf seen D D' t' d : keeps D D' (D_jobs d) t' → wf_db seen D d → wf_db seen D' (with_jobs t' d).
Proof.
  intros [Hk Hb] [Ht Hj Hs]. split; simpl; [| |done].
  - intros id task (Hid & Htr & Hu)%Ht. do 2 (split; [done|]). intros Hun. destruct (Hu Hun) as (He & j & p & Hjj & Hkind & Hl & Hdec & Hx).
    split; [done|]. destruct (Hk _ _ Hjj Hkind Hl) as (j' & Hj' & Hkind' & Hpay & Hl'). exists j', p. by rewrite Hpay.
  - intros id j' Hj' Hkind'. destruct (Hb _ _ Hj' Hkind') as (j & Hjj & Hkind & Hpay & Hid). specialize (Hj _ _ Hjj Hkind).
    unfold wf_schedule_job in *. by rewrite Hid, Hpay.
Qed.

Lemma keeps_refl D D' t : (∀ j, j ∈ D → j ∈ D') → keeps D D' t t.
Proof. intros HD. split; [|by eauto]. intros id j Hj Hk Hl. exists j. do 3 (split; [done|]). destruct Hl as [?|[?|?]]; [by left|right; by left|right; right; auto]. Qed.

(** A row is replaced by one with the same identity. *)
Lemma keeps_insert D D' t id j j' :
  t !! id = Some j → J_Kind j' = J_Kind j → J_Payload j' = J_Payload j → J_ID j' = J_ID j → (∀ j, j ∈ D → j ∈ D') → live D' j' →
  keeps D D' t (<[id := j']> t).
Proof.
  intros Hj Hk Hp Hi HD Hl. destruct (keeps_refl D D' t HD) as [Hf Hb]. split.
  - intros i x Hx Hkx Hlx. destruct (decide (i = id)) as [->|Hne].
    + rewrite Hj in Hx. injection Hx as <-. exists j'. rewrite lookup_insert_eq, Hk. done.
    + rewrite lookup_insert_ne by done. by apply Hf.
  - intros i x. rewrite lookup_insert_Some. intros [[<- <-]|[Hne Hx]] Hkx; [exists j|by apply Hb]. by rewrite <-Hk.
Qed.

Lemma settle_wf seen D p job j d d' :
  wf_db seen (j :: D) d → J_ID job = J_ID j → decode_job (J_Payload j) = Some p → settles p job d d' → wf_db seen D d'.
Proof.
  intros [Ht Hj Hs] Hid Hdec [(Hjobs & Hdom & Hcl) Hfin]. split; [|by rewrite Hjobs|done].
  intros id t' Ht'. assert (is_Some (D_tasks d !! id)) as [t Htt] by (rewrite <-elem_of_dom, <-Hdom, elem_of_dom; eauto).
  destruct (Hcl _ _ Htt) as (t'' & Ht'' & Hc & _). rewrite Ht' in Ht''. injection Ht'' as <-.
  destruct (Ht _ _ Htt) as (Hi & Htr & Hu). destruct Hc as [->|(st & er & Hst & ->)].
  - do 2 (split; [done|]). intros Hun. destruct (Hu Hun) as (He & j1 & p1 & Hj1 & Hk1 & Hl1 & Hd1 & Hx1). split; [done|].
    exists j1, p1. rewrite Hjobs. do 2 (split; [done|]). split; [|done].
    destruct Hl1 as [?|[?|[->|?]%elem_of_cons]]; [by left|right; by left| |by right; right].
    exfalso. assert (p1 = p) as -> by congruence. destruct (Hj _ _ Hj1 Hk1) as (Hji & _).
    rewrite (Hfin t) in Hun; [done|by rewrite Hx1|congruence].
  - split; [done|]. split; [done|]. simpl. rewrite final_not_unfinished by done. done.
Qed.

Lemma seen_mono seen seen' D d :
  (∀ t, t ∈ seen → t ∈ seen') → (∀ t, t ∈ seen' → t ∈ seen ∨ trim_space (ST_ID t) = ST_ID t) → wf_db seen D d → wf_db seen' D d.
Proof.
  intros Hm Hn [Ht Hj Hs]. split; [done| |].
  - intros id j Hjj Hk. destruct (Hj _ _ Hjj Hk) as (? & ? & p & ? & ? & task & due & Hin & ? & ?). repeat split; [done..|]. exists p. repeat split; [done..|].
    exists task, due. auto.
  - intros t [Hin|Hin]%Hn; [by apply Hs|done].
Qed.

Lemma see_wf seen d : wf_db seen [] d → wf_db (see d seen) [] d.
Proof.
  intros Hwf. apply (seen_mono seen); [|..|done]; unfold see.
  - intros t Ht. apply elem_of_app. by right.
  - intros t [Ht|Ht]%elem_of_app; [|by left]. right. apply list_elem_of_fmap in Ht as ([id t'] & -> & Hin%elem_of_map_to_list).
    destruct (wd_tasks _ _ _ Hwf _ _ Hin) as (<- & Htr & _). done.
Qed.
(** Jobs as they are, and rows of tasks that are well formed. *)
Lemma tasks_wf seen D d d' :
  wf_db seen D d → D_jobs d' = D_jobs d → (∀ id t', D_tasks d' !! id = Some t' → wf_task D (D_jobs d) id t') → wf_db seen D d'.
Proof. intros [Ht Hj Hs] Hjobs Htasks. split; rewrite ?Hjobs; done. Qed.

Lemma insert_wf seen d id t' : wf_db seen [] d → wf_task [] (D_jobs d) id t' → wf_db seen [] (with_tasks (<[id := t']> (D_tasks d)) d).
Proof.
  intros Hwf Ht'. apply (tasks_wf seen [] d); [done|done|]. simpl. intros i x [[<- <-]|[_ Hx]]%lookup_insert_Some; [done|].
  by eapply wd_tasks.
Qed.

Lemma where_wf seen d id cond f :
  wf_db seen [] d →
  (∀ t, D_tasks d !! id = Some t → cond t = true → wf_task [] (D_jobs d) id t → wf_task [] (D_jobs d) id (f t)) →
  wf_db seen [] (update_where id cond f d).1.
Proof.
  intros Hwf Hf. unfold update_where. destruct (D_tasks d !! id) as [t|] eqn:Ht; [|done]. destruct (cond t) eqn:Hc; [|done].
  apply insert_wf; [done|]. apply Hf; [done..|]. by eapply wd_tasks.
Qed.

Lemma create_db_wf seen d task :
  wf_db seen [] d → trim_space (ST_ID task) = ST_ID task → ST_LastRunStatus task = "" → wf_db seen [] (sql_CreateScheduledTask task d).1.
Proof.
  intros Hwf Hid Hst. unfold sql_CreateScheduledTask. case_match; [done|]. case_match; [done|]. apply insert_wf; [done|].
  split; [done|]. split; [done|]. by rewrite Hst.
Qed.

Lemma sql_updated_fields u t :
  ST_ID (sql_updated_task u t) = ST_ID t ∧ ST_LastRunStatus (sql_updated_task u t) = ST_LastRunStatus (updated_task u t) ∧
  ST_LastRunJobID (sql_updated_task u t) = ST_LastRunJobID (updated_task u t) ∧ ST_Enabled (sql_updated_task u t) = ST_Enabled (updated_task u t).
Proof. unfold sql_updated_task. by case_bool_decide. Qed.

(** An update leaves an unfinished occurrence as it is, or cancels it. *)
Lemma updated_occurrence u t :
  unfinished (ST_LastRunStatus (updated_task u t)) = true →
  ST_LastRunStatus (updated_task u t) = ST_LastRunStatus t ∧ ST_LastRunJobID (updated_task u t) = ST_LastRunJobID t ∧
  (ST_Enabled t = true → ST_Enabled (updated_task u t) = true).
Proof.
  unfold updated_task. simpl. destruct (bool_decide (TU_Enabled u = Some false)) eqn:He; simpl.
  - destruct (unfinished (ST_LastRunStatus t)) eqn:Hu; [done|]. congruence.
  - bool_prop. intros _. do 2 (split; [done|]). destruct (TU_Enabled u) as [[]|]; done.
Qed.

Lemma update_db_wf seen d id u : wf_db seen [] d → wf_db seen [] (sql_UpdateScheduledTask id u d).1.
Proof.
  intros Hwf. unfold sql_UpdateScheduledTask. case_match; [done|]. destruct (D_tasks d !! id) as [t|] eqn:Ht; [|done].
  apply insert_wf; [done|]. destruct (wd_tasks _ _ _ Hwf _ _ Ht) as (Hid & Htr & Hu). destruct (sql_updated_fields u t) as (Hi & Hs & Hj & He).
  split; [congruence|]. split; [done|]. rewrite Hs, Hj, He. intros Hun. destruct (updated_occurrence u t Hun) as (Hs' & Hj' & He').
  rewrite Hj'. rewrite Hs' in Hun. destruct (Hu Hun) as (Hen & Hrow). auto.
Qed.

Lemma delete_db_wf seen d id : wf_db seen [] d → wf_db seen [] (sql_DeleteScheduledTask id d).1.
Proof.
  intros Hwf. unfold sql_DeleteScheduledTask. case_match; [|done]. apply (tasks_wf seen [] d); [done|done|]. simpl.
  intros i x [_ Hx]%lookup_delete_Some. by eapply wd_tasks.
Qed.

Lemma initialize_wf seen d id next : wf_db seen [] d → wf_db seen [] (InitializeScheduledTaskNextRun id next d).1.
Proof. intros Hwf. apply where_wf; [done|]. by intros t _ _ Ht. Qed.

Lemma invalid_wf seen d id msg : wf_db seen [] d → wf_db seen [] (MarkScheduledTaskInvalid id msg d).
Proof. intros Hwf. apply where_wf; [done|]. intros t _ _ (? & ? & _). done. Qed.

(** A claim that succeeds. *)
Lemma claim_spec task due now next n d d' :
  ClaimScheduledTaskExecution (claim_of task due now next n) d = (d', Ok true) →
  ∃ t, let J := ExecutionJobID (ST_ID task) due in
    D_tasks d !! ST_ID task = Some t ∧ ST_Enabled t = true ∧ ST_NextRunAt t = Some due ∧ unfinished (ST_LastRunStatus t) = false ∧ D_jobs d !! J = None ∧
    d' = MkDB (<[J := new_job now J KindScheduleRun (encode_job (occurrence_of task due)) (claim_attempts n)]> (D_jobs d))
           (<[ST_ID task := set_run (Some now) (Some next) "queued" "" J t]> (D_tasks d)) (D_runs d).
Proof.
  unfold ClaimScheduledTaskExecution. intros Hc. case_if_in Hc; [done|]. case_if_in Hc; [done|]. unfold update_where in Hc. simpl in Hc.
  destruct (D_tasks d !! ST_ID task) as [t|] eqn:Ht; [|done]. destruct (claim_matches _ t) eqn:Hm; [|done]. simpl in Hc.
  destruct (D_jobs d !! ExecutionJobID (ST_ID task) due) eqn:Hj; [done|]. injection Hc as <-. unfold claim_matches in Hm. simpl in Hm. bool_prop.
  exists t. simpl. by repeat split.
Qed.

Lemma claim_same claim d d' r : ClaimScheduledTaskExecution claim d = (d', r) → r ≠ Ok true → d' = d.
Proof.
  unfold ClaimScheduledTaskExecution. intros Hc Hr. case_if_in Hc; [by injection Hc as <- _|]. case_if_in Hc; [by injection Hc as <- _|].
  unfold update_where in Hc. destruct (D_tasks d !! EC_ScheduleID claim) as [t|]; [|by injection Hc as <- _].
  destruct (claim_matches claim t); [|by injection Hc as <- _]. simpl in Hc. destruct (D_jobs d !! _); by injection Hc as <- <-.
Qed.

Lemma job_id_not_empty id due : ExecutionJobID id due ≠ "".
Proof. done. Qed.

Lemma claim_wf seen d task due now next n r d' :
  wf_db seen [] d → task ∈ seen → ST_NextRunAt task = Some due →
  ClaimScheduledTaskExecution (claim_of task due now next n) d = (d', r) → wf_db seen [] d'.
Proof.
  intros Hwf Hin Hdue Hc. destruct r as [[]|]; [|by rewrite (claim_same _ _ _ _ Hc)..].
  apply claim_spec in Hc as (t & Ht & He & _ & _ & Hnone & ->). destruct (wd_tasks _ _ _ Hwf _ _ Ht) as (Hid & Htr & _).
  split; simpl; [| |apply Hwf].
  - intros id x [[<- <-]|[Hne Hx]]%lookup_insert_Some.
    + split; [done|]. split; [done|]. intros _. split; [done|]. eexists _, _. rewrite lookup_insert_eq. split; [done|]. split; [done|].
      split; [by left|]. split; [apply decode_encode_job|]. simpl. by rewrite Htr.
    + destruct (wd_tasks _ _ _ Hwf _ _ Hx) as (Hi & Hti & Hu). do 2 (split; [done|]). intros Hun. destruct (Hu Hun) as (Hen & j & p & Hj & Hrest).
      split; [done|]. exists j, p. rewrite lookup_insert_ne; [done|]. intros Heq. rewrite <-Heq in Hj. congruence.
  - intros id j [[<- <-]|[_ Hj]]%lookup_insert_Some Hk; [|by eapply wd_jobs]. split; [done|]. split; [apply job_id_not_empty|].
    exists (occurrence_of task due). split; [apply decode_encode_job|]. split; [done|]. exists task, due. done.
Qed.
(** *** Transactions of the queue *)

Lemma released_live now error c j j' : release_job now error c j = Some j' → live [] j' ∨ J_Status j' = DeadLettered.
Proof.
  intros (_ & _ & _ & _ & _ & _ & _ & Hst)%release_status. destruct (J_MaxAttempts j <=? J_Attempts j); [right; apply Hst|by left; left].
Qed.

Lemma live_weaken D D' j : (∀ x, x ∈ D → x ∈ D') → live D j → live D' j.
Proof. intros HD [?|[?|?]]; [by left|right; by left|right; right; auto]. Qed.

Lemma keeps_renew now id token t : keeps [] [] t (RenewClaim now id token t).1.
Proof.
  unfold RenewClaim. destruct (held id token t) as [j|] eqn:Hh; simpl; [|by apply keeps_refl]. apply held_Some in Hh as (Hj & Hp & _).
  by eapply keeps_insert; [..|right; left].
Qed.

Lemma keeps_claim now token skip t : keeps [] [] t (Claim now token skip t).1.
Proof.
  pose proof (job_claim_effect now token skip t) as Hc. destruct (Claim now token skip t) as [t' [j'|]]; simpl.
  - destruct Hc as (id & j & Hj & _ & -> & -> & _). by eapply keeps_insert; [..|right; left].
  - destruct Hc as [-> _]. by apply keeps_refl.
Qed.

Lemma keeps_same D t t' : same_schedule_jobs t t' → keeps D D t t'.
Proof.
  intros Hs. split.
  - intros id j Hj Hk Hl. exists j. split; [by apply (Hs id j Hk)|done].
  - intros id j' Hj' Hk. exists j'. split; [by apply (Hs id j' Hk)|done].
Qed.

Lemma keeps_purge olderThan t : keeps [] [] t (PurgeOldJobs olderThan t).
Proof.
  unfold PurgeOldJobs. split.
  - intros id j Hj Hk Hl. exists j. split; [|done].
    apply map_lookup_filter_Some. split; [done|]. simpl. destruct Hl as [Hq|[Hq|?%not_elem_of_nil]]; [by rewrite Hq..|done].
  - intros id j' [Hj _]%map_lookup_filter_Some Hk. by exists j'.
Qed.

Lemma keeps_complete D now t id : keeps D (default (new_job 0 "" "" "" 0) (complete_job now <$> t !! id) :: D) t (alter (complete_job now) id t).
Proof.
  destruct (t !! id) as [j|] eqn:Hj; simpl.
  - replace (alter (complete_job now) id t) with (<[id := complete_job now j]> t).
    2: { apply map_eq. intros i. destruct (decide (i = id)) as [->|]; [by rewrite lookup_insert_eq, lookup_alter_eq, Hj|by rewrite lookup_insert_ne, lookup_alter_ne]. }
    eapply keeps_insert; [done..| |right; right; by left]. intros x Hx. by right.
  - replace (alter (complete_job now) id t) with t.
    2: { apply map_eq. intros i. destruct (decide (i = id)) as [->|]; [by rewrite lookup_alter_eq, Hj|by rewrite lookup_alter_ne]. }
    apply keeps_refl. intros x Hx. by right.
Qed.

(** A held claim that ends with its schedule closed. *)
Lemma complete_wf seen now job p d d' :
  wf_db seen [] d → lock_claim job false d = Ok tt → decode_job (J_Payload job) = Some p →
  D_jobs d' = alter (complete_job now) (J_ID job) (D_jobs d) → settles p job (with_jobs (D_jobs d') d) d' → wf_db seen [] d'.
Proof.
  intros Hwf (j & Hj & _ & Hkind & Hpay & _)%lock_claim_row Hdec Hjobs Hset.
  destruct (decide (J_Kind j = KindScheduleRun)) as [Hk|Hk].
  - destruct (wd_jobs _ _ _ Hwf _ _ Hj Hk) as (Hid & _). eapply (settle_wf seen [] p job (complete_job now j)); [|done|by simpl; rewrite Hpay|done].
    eapply keeps_wf; [|exact Hwf]. rewrite Hjobs. pose proof (keeps_complete [] now (D_jobs d) (J_ID job)) as Hkc. by rewrite Hj in Hkc.
  - (* a job of another kind is no occurrence *)
    assert (Hwf' : wf_db seen [] (with_jobs (D_jobs d') d)).
    { eapply keeps_wf; [|exact Hwf]. apply keeps_same. rewrite Hjobs. intros id x Hx. destruct (decide (id = J_ID job)) as [->|Hne]; [|by rewrite lookup_alter_ne].
      rewrite lookup_alter_eq, Hj. split; [congruence|]. intros [= <-]. by simpl in Hx. }
    destruct Hset as [(Hj' & Hdom & Hcl) _]. split; [|apply Hwf'|apply Hwf].
    intros id t' Ht'. assert (is_Some (D_tasks d !! id)) as [t Htt].
    { apply elem_of_dom. change (D_tasks d) with (D_tasks (with_jobs (D_jobs d') d)). rewrite <-Hdom. by apply elem_of_dom_2 in Ht'. }
    destruct (Hcl _ _ Htt) as (t'' & Ht'' & Hc & _). rewrite Ht' in Ht''. injection Ht'' as <-.
    destruct (wd_tasks _ _ _ Hwf' _ _ Htt) as (Hi & Htr & Hu). destruct Hc as [->|(st & er & Hst & ->)]; [done|].
    do 2 (split; [done|]). simpl. by rewrite final_not_unfinished.
Qed.

Lemma finalize_wf seen D other now job d d' :
  wf_db seen (job :: D) d → FinalizeDeadJob other now job d = Ok d' → wf_db seen D d'.
Proof.
  intros Hwf Hf. pose proof (finalize_spec _ _ _ _ _ Hf) as (Hjobs & p & _ & Hset). unfold FinalizeDeadJob in Hf.
  destruct (decide (J_Kind job = KindScheduleRun)) as [Hk|Hk].
  - rewrite bool_decide_eq_true_2 in Hf by done. apply bind_Ok in Hf as ([] & Hl & _). apply lock_claim_row in Hl as (j & Hj & _ & Hkj & Hpay & _).
    rewrite Hk in Hkj. destruct (wd_jobs _ _ _ Hwf _ _ Hj Hkj) as (Hid & Hne & p' & Hdec & Hx & _). rewrite Hpay in Hdec.
    destruct (Hset Hk _ Hdec Hx Hne) as [-> Hs]. by apply (settle_wf seen D p job job d d').
  - rewrite bool_decide_eq_false_2 in Hf by done. simpl in Hf. destruct (other job); [|done]. injection Hf as <-.
    destruct Hwf as [Ht Hj Hs]. split; [|done|done]. intros id task (Hid & Htr & Hu)%Ht. do 2 (split; [done|]). intros Hun.
    destruct (Hu Hun) as (He & j & q & Hjj & Hkj & Hl & Hrest). split; [done|]. exists j, q. do 2 (split; [done|]). split; [|done].
    destruct Hl as [?|[?|[->|?]%elem_of_cons]]; [by left|right; by left|done|by right; right].
Qed.

Lemma finalize_all_wf seen other now D d d' : wf_db seen D d → finalize_all other now D d = Ok d' → wf_db seen [] d'.
Proof.
  revert d. induction D as [|job D IH]; intros d Hwf Hf; simpl in Hf; [by injection Hf as <-|].
  apply bind_Ok in Hf as (d1 & Hj & Hf). eapply IH; [|done]. by eapply finalize_wf.
Qed.

Lemma fail_wf seen other now id token msg d : wf_db seen [] d → wf_db seen [] (FailJob other now id token msg d).1.
Proof.
  intros Hwf. unfold FailJob. destruct (held id token (D_jobs d)) as [j|] eqn:Hh; [|done]. destruct (fail_job now msg j) as [j'|] eqn:Hf; [|done].
  apply held_Some in Hh as (Hj & Hp & _). pose proof (release_status _ _ _ _ _ Hf) as (_ & _ & Hid & Hk & Hpay & _).
  destruct (bool_decide (J_Status j' = DeadLettered)) eqn:Hd.
  - destruct (FinalizeDeadJob other now j' _) as [d2|] eqn:Hfin; [|done]. eapply finalize_wf; [|exact Hfin].
    eapply keeps_wf; [|exact Hwf]. eapply keeps_insert; [done..|by intros ? ?%not_elem_of_nil|]. right. right. by left.
  - bool_prop. eapply keeps_wf; [|exact Hwf]. eapply keeps_insert; [done..|]. destruct (released_live _ _ _ _ _ Hf); [done|congruence].
Qed.

Lemma foldl_insert_some (l : list (string * Job)) (t : table) id : is_Some (t !! id) → is_Some (foldl (λ t kv, <[kv.1 := kv.2]> t) t l !! id).
Proof.
  revert t. induction l as [|[k v] l IH]; intros t Ht; simpl; [done|]. apply IH. destruct (decide (k = id)) as [->|]; [by rewrite lookup_insert_eq|by rewrite lookup_insert_ne].
Qed.

Lemma recover_wf seen other stale now skip d : wf_db seen [] d → wf_db seen [] (RecoverClaims other stale now skip d).
Proof.
  intros Hwf. unfold RecoverClaims. case_match; [done|]. destruct (recover_rows _ _) as [rows|] eqn:Hr; [|done].
  set (t' := foldl _ _ rows). set (dead := List.filter _ _). destruct (finalize_all _ _ dead _) as [d2|] eqn:Hf; [|done].
  eapply finalize_all_wf; [|exact Hf]. eapply keeps_wf; [|exact Hwf].
  assert (Hrow : ∀ id j', t' !! id = Some j' → D_jobs d !! id = Some j' ∨ ∃ j, D_jobs d !! id = Some j ∧ recover_job now j = Some j' ∧ j' ∈ rows.*2).
  { intros id j' [Hin|Hin]%lookup_foldl_insert; [right|by left]. destruct (recover_rows_elem _ _ _ _ _ Hr Hin) as (j & Hj & Hrec).
    apply expired_batch_elem in Hj as [Hj _]. exists j. do 2 (split; [done|]). apply list_elem_of_fmap. by exists (id, j'). }
  split.
  - intros id j Hj Hk Hl. assert (is_Some (t' !! id)) as [j' Hj'] by (apply foldl_insert_some; eauto). exists j'. split; [done|].
    destruct (Hrow _ _ Hj') as [Hsame|(j0 & Hj0 & Hrec & Hin)].
    + assert (j' = j) as -> by congruence. do 2 (split; [done|]). eapply live_weaken; [|exact Hl]. by intros ? ?%not_elem_of_nil.
    + assert (j0 = j) as -> by congruence. pose proof (release_status _ _ _ _ _ Hrec) as (_ & _ & _ & Hk' & Hpay & _). split; [congruence|]. split; [done|].
      destruct (released_live _ _ _ _ _ Hrec) as [Hlv|Hd]; [eapply live_weaken; [|exact Hlv]; by intros ? ?%not_elem_of_nil|].
      right. right. unfold dead. rewrite list_elem_of_In, filter_In, <-list_elem_of_In. split; [done|by apply bool_decide_eq_true].
  - intros id j' Hj' Hk'. destruct (Hrow _ _ Hj') as [Hsame|(j0 & Hj0 & Hrec & _)]; [by exists j'|].
    pose proof (release_status _ _ _ _ _ Hrec) as (_ & _ & Hid & Hk0 & Hpay & _). exists j0. split; [done|]. split; [congruence|done].
Qed.
(** *** Every step keeps the invariant *)

Lemma db_step_wf seen l d d' : db_step seen l d d' → wf_db seen [] d → wf_db seen [] d'.
Proof.
  intros Hst Hwf. destruct Hst as [now newid c inv req task d Hc Htr Hne|now now' c inv existing req u d Hin Hu|id d|id now cron next d Hn|id msg d|
    task due now next n d Hin Hdue Hn r|now id token d|other now id token msg d|other stale now skip d|olderThan d t'|t' d Hs|rs' d Hs].
  - apply create_task_ok in Hc as (Hid & _ & _ & _ & _ & Hst & _). apply create_db_wf; [done|by rewrite Hid|done].
  - by apply update_db_wf.
  - by apply delete_db_wf.
  - by apply initialize_wf.
  - by apply invalid_wf.
  - destruct r as [d1 res] eqn:Hr. by eapply claim_wf.
  - eapply keeps_wf; [apply keeps_renew|done].
  - by apply fail_wf.
  - by apply recover_wf.
  - eapply keeps_wf; [apply keeps_purge|done].
  - eapply keeps_wf; [by apply keeps_same|done].
  - apply (tasks_wf seen [] d); [done|done|]. simpl. intros id t Ht. by eapply wd_tasks.
Qed.

Lemma same_tasks_wf seen d d' : wf_db seen [] d → D_jobs d' = D_jobs d → D_tasks d' = D_tasks d → wf_db seen [] d'.
Proof. intros Hwf Hj Ht. apply (tasks_wf seen [] d); [done..|]. rewrite Ht. intros id t Hid. by eapply wd_tasks. Qed.

Lemma begin_wf seen now job d : wf_db seen [] d → wf_db seen [] (BeginJobExecution now job d).1.
Proof.
  intros Hwf. destruct (BeginJobExecution now job d) as [d' [[]|e]] eqn:Hb; simpl.
  - apply begin_dispatch in Hb as (p & t & _ & Hdec & Hx & Ht & Hcur & Hq & He & Hj & _ & Htasks).
    apply (tasks_wf seen [] d); [done..|]. rewrite Htasks. intros id x [[<- <-]|[_ Hid]]%lookup_insert_Some; [|by eapply wd_tasks].
    destruct (wd_tasks _ _ _ Hwf _ _ Ht) as (Hid & Htr & Hu). do 2 (split; [done|]). intros _. rewrite Hq in Hu. destruct (Hu eq_refl) as (_ & Hrow).
    split; [done|]. simpl. by rewrite <-Hcur.
  - apply begin_skip in Hb as (p & Hl & Hdec & _ & Hj & Hs). by eapply complete_wf.
  - by rewrite (transaction_err _ _ _ _ Hb).
Qed.

Lemma finish_schedule_wf seen now job status error d : wf_db seen [] d → wf_db seen [] (FinishScheduleExecution now job status error d).1.
Proof.
  intros Hwf. destruct (FinishScheduleExecution now job status error d) as [d' [[]|e]] eqn:Hb; simpl.
  - apply finish_schedule_spec in Hb as (p & Hl & Hdec & _ & Hj & Hs). by eapply complete_wf.
  - by rewrite (transaction_err _ _ _ _ Hb).
Qed.

(** A command starts only for the running occurrence of its schedule, under a live claim, with a new run. *)
Lemma start_spec now newid job target d d' c :
  StartScheduledAction now newid job target d = (d', Ok c) →
  ∃ p t, lock_claim job false d = Ok tt ∧ decode_job (J_Payload job) = Some p ∧ X_JobID p = J_ID job ∧ D_tasks d !! X_ScheduleID p = Some t ∧
    ST_LastRunJobID t = J_ID job ∧ ST_LastRunStatus t = "running" ∧ target ≠ "" ∧ c = child_job now newid p target ∧
    D_runs d !! scheduledActionRunID (X_JobID p) target = None ∧ D_jobs d' = D_jobs d ∧ D_tasks d' = D_tasks d ∧
    D_runs d' = <[scheduledActionRunID (X_JobID p) target := run_of_child c]> (D_runs d).
Proof.
  intros (u & Hl & Hb)%transaction_ok%bind_Ok. destruct u. apply bind_Ok in Hb as ([p status] & Hbus & Hb). exists p.
  apply lock_business_spec in Hbus as (Hdec & Hid & Hne & Hst). case_if_in Hb; [done|].
  apply orb_false_iff in Hb0 as [Hs Ht]. bool_prop. subst status. cbv zeta in Hb. simpl AJ_RunID in Hb.
  destruct (D_runs d !! scheduledActionRunID (X_JobID p) target) eqn:Hrun; [done|]. injection Hb as <- <-.
  destruct Hst as [[? _]|(t & Htask & Hcur & Hs)]; [done|]. exists t. destruct (negb (ST_Enabled t) && _); [done|]. by repeat split.
Qed.

Lemma start_same now newid job target d : let r := StartScheduledAction now newid job target d in D_jobs r.1 = D_jobs d ∧ D_tasks r.1 = D_tasks d.
Proof.
  simpl. destruct (StartScheduledAction now newid job target d) as [d' [c|e]] eqn:Hb; simpl; [|by rewrite (transaction_err _ _ _ _ Hb)].
  apply start_spec in Hb as (p & t & Hb). naive_solver.
Qed.

Lemma finish_action_same now job c res d : let r := FinishScheduledAction now job c res d in D_jobs r.1 = D_jobs d ∧ D_tasks r.1 = D_tasks d.
Proof.
  simpl. destruct (FinishScheduledAction now job c res d) as [d' [u|e]] eqn:Hb; simpl; [|by rewrite (transaction_err _ _ _ _ Hb)].
  apply transaction_ok, bind_Ok in Hb as (? & _ & Hb). apply bind_Ok in Hb as ([p status] & _ & Hb). do 2 (case_if_in Hb; [done|]).
  destruct (D_runs d !! AJ_RunID c); [|done]. do 3 (case_if_in Hb; [done|]). by injection Hb as <-.
Qed.

Lemma worker_step_wf seen l d ph d' ph' : worker_step l (d, ph) (d', ph') → wf_db seen [] d → wf_db seen [] d'.
Proof.
  intros Hst Hwf. inversion Hst; subst; clear Hst; try done.
  - by apply begin_wf.
  - eapply same_tasks_wf; [done|apply start_same..].
  - eapply same_tasks_wf; [done|apply finish_action_same..].
  - by apply finish_schedule_wf.
  - by apply fail_wf.
Qed.

Record wf_state (s : state) : Prop := {
  wsd : wf_db (S_seen s) [] (S_db s);
  wsw k ph : S_workers s !! k = Some ph → wf_phase ph }.

Lemma prepare_wf live assets groups job : wf_phase (prepare live assets groups job).
Proof.
  unfold prepare. destruct (decode_job _); [|done]. case_match; [done|]. destruct (resolveScheduleExecutionTargets _ _ _ _) as [ts|[]] eqn:Hr; try done.
  by apply resolve_ok in Hr as [? _].
Qed.

(** The ledger of the command for target [x] of occurrence [J] over one step of a worker. *)
Definition ledger (J x : string) (l : list event) (ph : phase) (ph' : option phase) : Prop :=
  wf_phase_opt ph' ∧ occurs (is_sent J x) l + b2z (armed_opt J x ph') <= b2z (armed J x ph) + occurs (is_began J) l ∧
  occurs (is_claimed J) l = 0 ∧ occurs (is_purged J) l = 0.

Lemma ledger_none J x ph : ledger J x [] ph None.
Proof. split; [done|]. split; [|done]. unfold occurs. simpl. by destruct (armed J x ph). Qed.

Lemma ledger_unarmed J x ph ph' : wf_phase ph' → armed J x ph' = false → ledger J x [] ph (Some ph').
Proof. intros Hwf Ha. split; [done|]. split; [|done]. simpl. rewrite Ha. unfold occurs. simpl. by destruct (armed J x ph). Qed.

Lemma ledger_quiet J x l r r' :
  wf_running r' → R_job r' = R_job r → (unsent x r' = true → unsent x r = true) →
  (∀ e, e ∈ l → (∃ job p y, e = Started job p y) ∨ ∃ p y c, e = Permitted p y c) → ledger J x l (PRunning r) (Some (PRunning r')).
Proof.
  intros Hwf Hj Hu Hl. assert (Hz : ∀ f, (∀ job p y, f (Started job p y) = false) → (∀ p y c, f (Permitted p y c) = false) → occurs f l = 0).
  { intros f Hf Hf'. unfold occurs. destruct (List.filter f l) as [|e l'] eqn:He; [done|]. exfalso.
    assert (e ∈ List.filter f l) as Hin by (rewrite He; by left). rewrite list_elem_of_In, filter_In, <-list_elem_of_In in Hin. destruct Hin as [Hin Hfe].
    destruct (Hl _ Hin) as [(? & ? & ? & ->)|(? & ? & ? & ->)]; [by rewrite Hf in Hfe|by rewrite Hf' in Hfe]. }
  split; [done|]. rewrite !Hz by done. split; [|done]. pose proof (armed_le J x r r') as Hle. rewrite Hj in Hle. specialize (Hle eq_refl Hu).
  simpl in *. lia.
Qed.

Lemma ledger_send J x r target command t :
  wf_running r → R_active r !! target = Some t → (∃ c, t = TStarted c) → ∀ c res,
  ledger J x [Sent (J_ID (R_job r)) target command] (PRunning r) (Some (PRunning (set_active target (TAnswered c res) r))).
Proof.
  intros Hwf Ht Hc c res. split; [by eapply set_active_wf|]. rewrite !occurs_one. split; [|done]. simpl.
  destruct (bool_decide (J_ID (R_job r) = J)) eqn:HJ; simpl; [|lia]. destruct (decide (target = x)) as [<-|Hne].
  - rewrite bool_decide_eq_true_2, (unsent_thread target t r) by (done || tauto). unfold unsent. simpl. rewrite lookup_insert_eq, orb_false_r.
    rewrite bool_decide_eq_false_2; [done|]. intros Hin. destruct Hwf as [_ Hd]. specialize (Hd _ Hin). congruence.
  - rewrite bool_decide_eq_false_2 by done. assert (unsent x (set_active target (TAnswered c res) r) = unsent x r) as ->; [|simpl; lia].
    unfold unsent. simpl. by rewrite lookup_insert_ne.
Qed.

Lemma ledger_begin J x now reason job p targets d :
  wf_phase (PPrepared job p targets) → let r := BeginJobExecution now job d in
  ledger J x (match r.2 with Ok true => [Began (J_ID job)] | _ => [] end) (PPrepared job p targets) (after_begin reason job p targets r.2).
Proof.
  intros Hwf. simpl. unfold after_begin. destruct (BeginJobExecution now job d) as [d1 [[]|e]] eqn:Hb; simpl.
  - destruct targets as [ts|]; (split; [done|]); rewrite !occurs_one; (split; [|done]); simpl; [|by case_bool_decide].
    case_bool_decide; simpl; [|lia]. destruct (unsent x _); simpl; lia.
  - apply ledger_none.
  - by apply ledger_unarmed.
Qed.

Lemma worker_ledger J x l d ph d' ph' : worker_step l (d, ph) (d', ph') → wf_phase ph → ledger J x l ph ph'.
Proof.
  intros Hst Hwf. inversion Hst; subst; clear Hst; try (by apply ledger_none); try (by apply ledger_unarmed).
  - apply ledger_unarmed; [apply prepare_wf|]. unfold prepare. by repeat case_match.
  - by apply ledger_begin.
  - match goal with Ht : take_target _ _ = Some _ |- _ => destruct (take_target_wf _ _ _ Hwf Ht) as [Hwf' Hun]; rename Ht into Htt end.
    apply ledger_quiet; [done| |apply Hun|by intros ? ?%not_elem_of_nil].
    unfold take_target in Htt. destruct (R_todo r); [done|]. destruct (_ <? _); [|done]. destruct ended; by injection Htt as <-.
  - match goal with Ht : R_active r !! _ = Some TEntered |- _ => rename Ht into Hact end.
    unfold after_checks. destruct (target_checks e (R_exec r) target) as [[]|st]; simpl.
    + apply ledger_quiet; [by eapply set_active_wf|done| |intros e0 ->%list_elem_of_singleton; eauto 6].
      apply unsent_active. exists TEntered. split; [done|]. eapply unsent_thread; [done|tauto].
    + apply ledger_quiet; [by apply set_done_wf|done|apply unsent_done|by intros ? ?%not_elem_of_nil].
  - match goal with Ht : R_active r !! _ = Some TAllowed |- _ => rename Ht into Hact end.
    unfold after_start. destruct (StartScheduledAction _ _ _ _ _) as [d1 [c|er]]; simpl.
    + apply ledger_quiet; [by eapply set_active_wf|done| |].
      * apply unsent_active. exists TAllowed. split; [done|]. eapply unsent_thread; [done|tauto].
      * intros e0 ->%list_elem_of_singleton. eauto 6.
    + apply ledger_quiet; [by apply set_done_wf|done|apply unsent_done|by intros ? ?%not_elem_of_nil].
  - match goal with Ht : R_active r !! _ = Some (TStarted _) |- _ => rename Ht into Hact end.
    destruct sent as [[agent command]|]; [by eapply ledger_send; eauto|].
    apply ledger_quiet; [by eapply set_active_wf|done| |by intros ? ?%not_elem_of_nil].
    apply unsent_active. exists (TStarted c). split; [done|]. eapply unsent_thread; [done|eauto].
  - apply ledger_quiet; [by apply set_done_wf|done|apply unsent_done|by intros ? ?%not_elem_of_nil].
  - destruct (FinishScheduleExecution _ _ _ _ _) as [d1 [u|er]]; simpl; [apply ledger_none|by apply ledger_unarmed].
Qed.
(** *** The ledger of an occurrence *)

(** The rows that wait for occurrence [J] to begin. *)
Definition waits (J : string) (t : ScheduledTask) : Prop := ST_LastRunJobID t = J ∧ ST_LastRunStatus t = "queued".
#[export] Instance waits_dec J t : Decision (waits J t).
Proof. unfold waits. apply _. Defined.
Definition pending (J : string) (d : db) : Z := count_where (waits J) (D_tasks d).
Definition has_row (J : string) (d : db) : bool :=
  match D_jobs d !! J with Some j => bool_decide (J_Kind j = KindScheduleRun) | None => false end.

(** Every occurrence that is open was open before, at the same stage. *)
Definition calm (d d' : db) : Prop :=
  ∀ id t', D_tasks d' !! id = Some t' → unfinished (ST_LastRunStatus t') = true →
    ∃ t, D_tasks d !! id = Some t ∧ ST_LastRunJobID t = ST_LastRunJobID t' ∧ ST_LastRunStatus t = ST_LastRunStatus t'.

Lemma calm_pending J d d' : calm d d' → pending J d' <= pending J d.
Proof.
  intros Hc. apply count_where_mono. intros id t' Ht' [Hj Hq]. destruct (Hc id t' Ht') as (t & Ht & Hj' & Hq'); [by rewrite Hq|].
  exists t. split; [done|]. split; congruence.
Qed.

Lemma calm_same d d' : D_tasks d' = D_tasks d → calm d d'.
Proof. intros He id t'. rewrite He. eauto. Qed.

Lemma calm_trans d1 d2 d3 : calm d1 d2 → calm d2 d3 → calm d1 d3.
Proof.
  intros H12 H23 id t' Ht' Hu. destruct (H23 _ _ Ht' Hu) as (t & Ht & Hj & Hq). destruct (H12 id t Ht) as (t0 & ? & ? & ?); [by rewrite Hq|].
  exists t0. split; [done|]. split; congruence.
Qed.

Lemma closing_calm p d d' : closing p d d' → calm d d'.
Proof.
  intros (_ & Hdom & Hcl) id t' Ht' Hw. assert (is_Some (D_tasks d !! id)) as [t Ht] by (rewrite <-elem_of_dom, <-Hdom, elem_of_dom; eauto).
  destruct (Hcl _ _ Ht) as (t'' & Ht'' & Hc & _). rewrite Ht' in Ht''. injection Ht'' as <-. destruct Hc as [->|(st & er & Hst & ->)]; [eauto|].
  apply final_not_unfinished in Hst. simpl in Hw. congruence.
Qed.

(** Rows of occurrences stay in the queue's table. *)
Definition stays (d d' : db) : Prop := ∀ J, has_row J d = true → has_row J d' = true.

Lemma stays_jobs d d' : D_jobs d' = D_jobs d → stays d d'.
Proof. intros He J. unfold has_row. by rewrite He. Qed.

Lemma stays_insert d d' id j j' : D_jobs d !! id = Some j → J_Kind j' = J_Kind j → D_jobs d' = <[id := j']> (D_jobs d) → stays d d'.
Proof.
  intros Hj Hk Ht J. unfold has_row. rewrite Ht. destruct (decide (J = id)) as [->|Hne]; [by rewrite lookup_insert_eq, Hj, Hk|by rewrite lookup_insert_ne].
Qed.

Lemma stays_complete now job d d' : D_jobs d' = alter (complete_job now) (J_ID job) (D_jobs d) → stays d d'.
Proof.
  intros Ht J. unfold has_row. rewrite Ht. destruct (decide (J = J_ID job)) as [->|Hne]; [|by rewrite lookup_alter_ne].
  rewrite lookup_alter_eq. by destruct (D_jobs d !! J_ID job).
Qed.

Lemma finalize_calm other now job d d' : FinalizeDeadJob other now job d = Ok d' → D_jobs d' = D_jobs d ∧ calm d d'.
Proof. intros (Hj & p & Hc & _)%finalize_spec. split; [done|by eapply closing_calm]. Qed.

Lemma finalize_all_calm other now D d d' : finalize_all other now D d = Ok d' → D_jobs d' = D_jobs d ∧ calm d d'.
Proof.
  revert d. induction D as [|job D IH]; intros d Hf; simpl in Hf; [injection Hf as <-; split; [done|by apply calm_same]|].
  apply bind_Ok in Hf as (d1 & Hj & Hf). apply finalize_calm in Hj as [Hj1 Hc1]. apply IH in Hf as [Hj2 Hc2]. split; [congruence|by eapply calm_trans].
Qed.

Lemma fail_calm other now id token msg d : let d' := (FailJob other now id token msg d).1 in stays d d' ∧ calm d d'.
Proof.
  simpl. unfold FailJob. destruct (held id token (D_jobs d)) as [j|] eqn:Hh; [|split; [by apply stays_jobs|by apply calm_same]].
  destruct (fail_job now msg j) as [j'|] eqn:Hf; [|split; [by apply stays_jobs|by apply calm_same]].
  apply held_Some in Hh as (Hj & _). pose proof (release_status _ _ _ _ _ Hf) as (_ & _ & _ & Hk & _).
  set (d1 := with_jobs (<[id := j']> (D_jobs d)) d). assert (Hs : stays d d1) by (by eapply stays_insert).
  destruct (bool_decide (J_Status j' = DeadLettered)); [|split; [done|by apply calm_same]].
  destruct (FinalizeDeadJob other now j' d1) as [d2|] eqn:Hfin; [|split; [by apply stays_jobs|by apply calm_same]].
  apply finalize_calm in Hfin as [Hj2 Hc]. split; [|done]. intros J HJ. apply Hs in HJ. unfold has_row in *. simpl. by rewrite Hj2.
Qed.

Lemma recover_calm other stale now skip d : let d' := RecoverClaims other stale now skip d in stays d d' ∧ calm d d'.
Proof.
  simpl. unfold RecoverClaims. case_match; [split; [by apply stays_jobs|by apply calm_same]|].
  destruct (recover_rows _ _) as [rows|] eqn:Hr; [|split; [by apply stays_jobs|by apply calm_same]].
  set (d1 := with_jobs _ d). destruct (finalize_all _ _ _ d1) as [d2|] eqn:Hf; [|split; [by apply stays_jobs|by apply calm_same]].
  apply finalize_all_calm in Hf as [Hj Hc]. split; [|done]. intros J HJ. unfold has_row in *. rewrite Hj. simpl.
  destruct (D_jobs d !! J) as [j|] eqn:HJj; [|done].
  assert (is_Some (foldl (λ t kv, <[kv.1 := kv.2]> t) (D_jobs d) rows !! J)) as [j' Hj'] by (apply foldl_insert_some; eauto). rewrite Hj'.
  apply lookup_foldl_insert in Hj' as [Hin|Hsame]; [|by assert (j' = j) as -> by congruence]. destruct (recover_rows_elem _ _ _ _ _ Hr Hin) as (j0 & Hj0 & Hrec).
  apply expired_batch_elem in Hj0 as [Hj0 _]. pose proof (release_status _ _ _ _ _ Hrec) as (_ & _ & _ & Hk & _). by assert (j0 = j) as -> by congruence; rewrite Hk.
Qed.

(** The ledger of an occurrence over one step: its claims, what waits for it, and its row. *)
Definition book (J : string) (l : list event) (d d' : db) : Prop :=
  pending J d' + occurs (is_began J) l <= pending J d + occurs (is_claimed J) l ∧
  occurs (is_claimed J) l + b2z (has_row J d) <= b2z (has_row J d') + occurs (is_purged J) l.

Lemma book_calm J d d' : calm d d' → stays d d' → book J [] d d'.
Proof. intros Hc Hs. split; unfold occurs; simpl; [pose proof (calm_pending J _ _ Hc); lia|]. pose proof (b2z_le _ _ (Hs J)). lia. Qed.

Lemma calm_insert d d' id t t' :
  D_tasks d !! id = Some t → D_tasks d' = <[id := t']> (D_tasks d) →
  (unfinished (ST_LastRunStatus t') = true → ST_LastRunJobID t = ST_LastRunJobID t' ∧ ST_LastRunStatus t = ST_LastRunStatus t') → calm d d'.
Proof. intros Ht He Hu i x. rewrite He. intros [[<- <-]|[_ Hx]]%lookup_insert_Some Hun; [exists t; auto|eauto]. Qed.

Lemma calm_where id cond f d :
  (∀ t, unfinished (ST_LastRunStatus (f t)) = true → ST_LastRunJobID t = ST_LastRunJobID (f t) ∧ ST_LastRunStatus t = ST_LastRunStatus (f t)) →
  let d' := (update_where id cond f d).1 in calm d d' ∧ stays d d'.
Proof.
  intros Hf. simpl. unfold update_where. destruct (D_tasks d !! id) as [t|] eqn:Ht; [destruct (cond t)|]; simpl.
  2,3: split; [by apply calm_same|by apply stays_jobs].
  split; [|by apply stays_jobs]. by eapply calm_insert; [|done|apply Hf].
Qed.

Lemma purge_book J olderThan d :
  let t' := PurgeOldJobs olderThan (D_jobs d) in book J (Purged <$> elements (dom (D_jobs d) ∖ dom t')) d (with_jobs t' d).
Proof.
  simpl. set (t' := PurgeOldJobs olderThan (D_jobs d)). set (gone := dom (D_jobs d) ∖ dom t').
  assert (Hz : ∀ f, (∀ i, f (Purged i) = false) → occurs f (Purged <$> elements gone) = 0).
  { intros f Hf. unfold occurs. induction (elements gone) as [|x l IH]; [done|]. csimpl. by rewrite Hf. }
  split; [rewrite !Hz by done; unfold pending; simpl; lia|]. rewrite (Hz (is_claimed J)) by done.
  pose proof (occurs_nonneg (is_purged J) (Purged <$> elements gone)) as Hnn.
  destruct (has_row J d) eqn:Hr; cbn [b2z]; [|destruct (has_row J (with_jobs t' d)); cbn [b2z]; lia].
  unfold has_row in Hr |- *. change (D_jobs (with_jobs t' d)) with t'. destruct (D_jobs d !! J) as [j|] eqn:Hj; [|done].
  destruct (t' !! J) as [j'|] eqn:Ht'.
  - assert (j' = j) as -> by (apply map_lookup_filter_Some in Ht' as [? _]; congruence). rewrite Hr. cbn [b2z]. lia.
  - cbn [b2z]. assert (0 < occurs (is_purged J) (Purged <$> elements gone)); [|lia].
    assert (Hin : J ∈ elements gone) by (apply elem_of_elements, elem_of_difference; rewrite elem_of_dom, not_elem_of_dom; eauto).
    clear Hz Hnn. unfold occurs. induction (elements gone) as [|x l IH]; [by apply not_elem_of_nil in Hin|]. csimpl.
    apply elem_of_cons in Hin as [->|Hin]; [rewrite bool_decide_eq_true_2 by done; simpl; lia|]. specialize (IH Hin). destruct (bool_decide (x = J)); cbn [length]; lia.
Qed.

Lemma claim_book J task due now next n d :
  let r := ClaimScheduledTaskExecution (claim_of task due now next n) d in
  book J (match r.2 with Ok true => [Claimed (ExecutionJobID (ST_ID task) due)] | _ => [] end) d r.1.
Proof.
  simpl. destruct (ClaimScheduledTaskExecution _ d) as [d' [[]|e]] eqn:Hc; simpl.
  2,3: rewrite (claim_same _ _ _ _ Hc) by done; apply book_calm; [by apply calm_same|by apply stays_jobs].
  apply claim_spec in Hc as (t & Ht & _ & _ & Hun & Hnone & ->). set (J' := ExecutionJobID (ST_ID task) due) in *.
  unfold book. rewrite !occurs_one. unfold is_claimed. split.
  - change (occurs (is_began J) [Claimed J']) with 0. unfold pending. simpl D_tasks.
    pose proof (count_where_at (waits J) (D_tasks d) (<[ST_ID task := set_run (Some now) (Some next) "queued" "" J' t]> (D_tasks d)) (ST_ID task)) as Hat.
    lapply Hat; [|intros i x' Hne; rewrite lookup_insert_ne by done; eauto]. unfold at_key. rewrite lookup_insert_eq, Ht.
    rewrite (decide_False (P := waits J t)); [|intros [_ Hq]; by rewrite Hq in Hun].
    destruct (decide (J' = J)) as [->|Hne]; [rewrite bool_decide_eq_true_2 by done|rewrite bool_decide_eq_false_2 by done]; simpl b2z; intros Hle.
    + destruct (decide (waits J _)); lia.
    + rewrite decide_False in Hle by (by intros [? _]). lia.
  - unfold has_row. simpl. change (occurs (is_purged J) [Claimed J']) with 0. destruct (decide (J' = J)) as [<-|Hne].
    + rewrite lookup_insert_eq, Hnone, bool_decide_eq_true_2 by done. done.
    + rewrite lookup_insert_ne, bool_decide_eq_false_2 by done. simpl. lia.
Qed.

(** Apart from the claims, what changes the database alone leaves open occurrences as they are. *)
Lemma db_calm seen l d d' : db_step seen l d d' →
  (l = [] ∧ calm d d' ∧ stays d d') ∨
  (∃ olderThan, let t' := PurgeOldJobs olderThan (D_jobs d) in
    d' = with_jobs t' d ∧ l = Purged <$> elements (dom (D_jobs d) ∖ dom t')) ∨
  ∃ task due now next n, d' = (ClaimScheduledTaskExecution (claim_of task due now next n) d).1 ∧
    l = (match (ClaimScheduledTaskExecution (claim_of task due now next n) d).2 with Ok true => [Claimed (ExecutionJobID (ST_ID task) due)] | _ => [] end).
Proof.
  assert (Hid : ∀ d, calm d d ∧ stays d d) by (intros d0; split; [by apply calm_same|by apply stays_jobs]).
  intros Hst. destruct Hst as [now newid c inv req task d Hc Htr Hne|now now' c inv existing req u d Hin Hu|id d|id now cron next d Hn|id msg d|
    task due now next n d Hin Hdue Hn r|now id token d|other now id token msg d|other stale now skip d|olderThan d t'|t' d Hs|rs' d Hs];
    [left; split; [done|]|left; split; [done|]|left; split; [done|]|..].
  - apply create_task_ok in Hc as (_ & _ & _ & _ & _ & Hst & _). unfold sql_CreateScheduledTask. case_match; [apply Hid|]. case_match; [apply Hid|].
    split; [|by apply stays_jobs]. intros i x. simpl. rewrite lookup_insert_Some. intros [[<- <-]|[_ Hx]] Hun; [by rewrite Hst in Hun|eauto].
  - unfold sql_UpdateScheduledTask. case_match; [apply Hid|]. destruct (D_tasks d !! ST_ID existing) as [t|] eqn:Ht; [|apply Hid].
    split; [|by apply stays_jobs]. eapply calm_insert; [done|done|]. destruct (sql_updated_fields u t) as (_ & -> & -> & _). intros Hun.
    by destruct (updated_occurrence u t Hun) as (-> & -> & _).
  - unfold sql_DeleteScheduledTask. case_match; [|apply Hid]. split; [|by apply stays_jobs]. intros i x. simpl. rewrite lookup_delete_Some. naive_solver.
  - left. split; [done|]. apply (calm_where (trim_space id) (λ t, ST_Enabled t && bool_decide (ST_NextRunAt t = None))
      (λ t, set_run (ST_LastRunAt t) (Some next) (ST_LastRunStatus t) "" (ST_LastRunJobID t) t) d). done.
  - left. split; [done|]. by apply (calm_where (trim_space id) (λ _, true) (invalid_task msg) d).
  - right. right. unfold r. eauto 10.
  - left. split; [done|]. split; [by apply calm_same|]. unfold RenewClaim. destruct (held id token (D_jobs d)) as [j|] eqn:Hh; [|by apply stays_jobs].
    apply held_Some in Hh as [Hj _]. by apply (stays_insert d _ id j (renew_job now j)).
  - left. split; [done|]. apply and_comm, fail_calm.
  - left. split; [done|]. apply and_comm, recover_calm.
  - right. left. by exists olderThan.
  - left. split; [done|]. split; [by apply calm_same|]. intros J. unfold has_row. simpl. destruct (D_jobs d !! J) as [j|] eqn:Hj; [|done]. intros Hk. bool_prop.
    apply (Hs J j Hk) in Hj. rewrite Hj. by apply bool_decide_eq_true.
  - left. split; [done|]. split; [by apply calm_same|by apply stays_jobs].
Qed.

(** Only workers begin an occurrence and send commands. *)
Lemma db_silent J x seen l d d' : db_step seen l d d' → occurs (is_began J) l = 0 ∧ occurs (is_sent J x) l = 0.
Proof.
  intros [[-> _]|[(olderThan & _ & ->)|(task & due & now & next & n & _ & ->)]]%db_calm; [done| |].
  - split; unfold occurs; induction (elements _) as [|y l' IH]; done.
  - by destruct (ClaimScheduledTaskExecution (claim_of task due now next n) d) as [? [[]|]].
Qed.

Lemma db_book J seen l d d' : db_step seen l d d' → book J l d d'.
Proof.
  intros [(-> & Hc & Hs)|[(olderThan & -> & ->)|(task & due & now & next & n & -> & ->)]]%db_calm.
  - by apply book_calm.
  - apply purge_book.
  - apply claim_book.
Qed.

Lemma worker_book J l d ph d' ph' : worker_step l (d, ph) (d', ph') →
  pending J d' + occurs (is_began J) l <= pending J d ∧ b2z (has_row J d) <= b2z (has_row J d').
Proof.
  assert (Hcalm : ∀ d d', calm d d' → stays d d' → pending J d' <= pending J d ∧ b2z (has_row J d) <= b2z (has_row J d')).
  { intros d1 d2 Hc Hs. split; [by apply calm_pending|]. apply b2z_le, Hs. }
  assert (Hzero : ∀ l, (∀ e, e ∈ l → is_began J e = false) → occurs (is_began J) l = 0).
  { intros l0 Hl. unfold occurs. induction l0 as [|e l0 IH]; [done|]. simpl. rewrite (Hl e) by left. apply IH. intros y Hy. apply Hl. by right. }
  assert (Hsame : ∀ d d' : db, D_jobs d' = D_jobs d → D_tasks d' = D_tasks d → pending J d' <= pending J d ∧ b2z (has_row J d) <= b2z (has_row J d')).
  { intros d1 d2 Hj Ht. apply Hcalm; [by apply calm_same|by apply stays_jobs]. }
  intros Hst. inversion Hst; subst; clear Hst; repeat match goal with x := _ |- _ => subst x end; try (unfold occurs; simpl; lia).
  - destruct (BeginJobExecution now job d) as [d1 [[]|e]] eqn:Hb; simpl.
    + apply begin_dispatch in Hb as (p0 & t & _ & _ & _ & Ht & Hcur & Hq & _ & Hj & _ & Htasks). split; [|apply b2z_le, stays_jobs; done].
      rewrite occurs_one. unfold pending. rewrite Htasks.
      pose proof (count_where_at (waits J) (D_tasks d) (<[X_ScheduleID p0 := set_run (ST_LastRunAt t) (ST_NextRunAt t) "running" (ST_LastError t) (J_ID job) t]> (D_tasks d)) (X_ScheduleID p0)) as Hat.
      lapply Hat; [|intros i x' Hne; rewrite lookup_insert_ne by done; eauto]. unfold at_key. rewrite lookup_insert_eq, Ht.
      rewrite (decide_False (P := waits J (set_run _ _ _ _ _ _))) by (by intros [_ ?]). intros Hle. unfold is_began.
      destruct (decide (J_ID job = J)) as [HJ|HJ]; [rewrite bool_decide_eq_true_2 by done|rewrite bool_decide_eq_false_2 by done]; simpl b2z.
      * rewrite decide_True in Hle; [lia|]. split; congruence.
      * destruct (decide (waits J t)) as [[Hw _]|]; [congruence|lia].
    + apply begin_skip in Hb as (p0 & _ & _ & _ & Hj & Hs). destruct (Hcalm d d1) as [? ?]; [|by eapply stays_complete|unfold occurs; simpl; lia].
      destruct Hs as [Hc _]. apply closing_calm in Hc. exact Hc.
    + rewrite (transaction_err _ _ _ _ Hb). unfold occurs. simpl. lia.
  - split; [|done]. rewrite Hzero; [lia|]. intros e0 He. destruct (is_ok _); [by apply list_elem_of_singleton in He as ->|by apply not_elem_of_nil in He].
  - destruct (start_same now newid (R_job r) target d) as [Hj Ht]. destruct (Hsame _ _ Hj Ht). rewrite Hzero; [lia|].
    intros e He. destruct (StartScheduledAction _ _ _ _ _).2; [by apply list_elem_of_singleton in He as ->|by apply not_elem_of_nil in He].
  - split; [|done]. rewrite Hzero; [lia|]. intros e He. destruct (if connected then _ else _) as [[]|]; [by apply list_elem_of_singleton in He as ->|by apply not_elem_of_nil in He].
  - destruct (finish_action_same now (R_job r) c res d) as [Hj Ht]. destruct (Hsame _ _ Hj Ht). rewrite Hzero; [lia|by intros ? ?%not_elem_of_nil].
  - rewrite Hzero by (by intros ? ?%not_elem_of_nil). rewrite Z.add_0_r. destruct (FinishScheduleExecution now job status error d) as [d1 [[]|e]] eqn:Hb; simpl.
    + apply finish_schedule_spec in Hb as (p0 & _ & _ & _ & Hj & Hs). apply Hcalm; [|by eapply stays_complete].
      destruct Hs as [Hc _]. apply closing_calm in Hc. exact Hc.
    + rewrite (transaction_err _ _ _ _ Hb). lia.
  - rewrite Hzero by (by intros ? ?%not_elem_of_nil). rewrite Z.add_0_r. destruct (fail_calm other now (J_ID job) (default "" (J_LockToken job)) msg d). by apply Hcalm.
Qed.
(** *** What a worker knows *)

Definition good_job (seen : list ScheduledTask) (job : Job) : Prop := J_Kind job = KindScheduleRun ∧ wf_schedule_job seen (J_ID job) job.

(** Every thread past the checks has passed them, and every command that may be sent has been started. *)
Record good_running (seen : list ScheduledTask) (l : list event) (r : running) : Prop := {
  gr_job : good_job seen (R_job r);
  gr_exec : decode_job (J_Payload (R_job r)) = Some (R_exec r);
  gr_checked x t : R_active r !! x = Some t → t ≠ TEntered →
    ∃ e, Permitted (R_exec r) x e ∈ l ∧ target_checks e (R_exec r) x = Ok tt;
  gr_started x c : R_active r !! x = Some (TStarted c) →
    Started (R_job r) (R_exec r) x ∈ l ∧ AJ_Target c = x ∧ AJ_Command c = X_Command (R_exec r) }.

Definition good_phase (seen : list ScheduledTask) (l : list event) (ph : phase) : Prop :=
  match ph with
  | PClaimed job | PFailed job | PFinishing job _ _ _ => good_job seen job
  | PPrepared job p _ => good_job seen job ∧ decode_job (J_Payload job) = Some p
  | PRunning r => good_running seen l r
  end.

Lemma good_job_mono seen seen' job : (∀ t, t ∈ seen → t ∈ seen') → good_job seen job → good_job seen' job.
Proof.
  intros Hm (Hk & Hid & Hne & p & Hdec & Hx & task & due & Hin & Hg). split; [done|]. split; [done|]. split; [done|].
  exists p. do 2 (split; [done|]). exists task, due. auto.
Qed.

Lemma good_phase_mono seen seen' l l' ph :
  (∀ t, t ∈ seen → t ∈ seen') → (∀ e, e ∈ l → e ∈ l') → good_phase seen l ph → good_phase seen' l' ph.
Proof.
  intros Hm Hl. destruct ph as [job|job p ts|r|job p st er|job]; simpl; [by apply good_job_mono| | |by apply good_job_mono..].
  - intros [Hj ?]. split; [by eapply good_job_mono|done].
  - intros [Hj He Hc Hs]. split; [by eapply good_job_mono|done| |].
    + intros x t Hx Ht. destruct (Hc x t Hx Ht) as (e & Hin & Hok). exists e. auto.
    + intros x c Hx. destruct (Hs x c Hx) as (Hin & Hrest). auto.
Qed.

Lemma good_set_done seen l x st r : good_running seen l r → good_running seen l (set_done x st r).
Proof.
  intros [Hj He Hc Hs]. split; [done|done|intros y t|intros y c]; simpl; rewrite lookup_delete_Some; intros [_ Hy]; [by eapply Hc|by eapply Hs].
Qed.

Lemma good_set_active seen l x t r :
  good_running seen l r →
  (t ≠ TEntered → ∃ e, Permitted (R_exec r) x e ∈ l ∧ target_checks e (R_exec r) x = Ok tt) →
  (∀ c, t = TStarted c → Started (R_job r) (R_exec r) x ∈ l ∧ AJ_Target c = x ∧ AJ_Command c = X_Command (R_exec r)) →
  good_running seen l (set_active x t r).
Proof.
  intros [Hj He Hc Hs] Ht Hst. split; [done|done|intros y u|intros y c]; simpl; rewrite lookup_insert_Some; intros [[<- ?]|[_ Hy]].
  - subst u. by apply Ht.
  - by eapply Hc.
  - by apply Hst.
  - by eapply Hs.
Qed.

Lemma worker_good seen l0 l d ph d' ph' :
  worker_step l (d, ph) (d', Some ph') → good_phase seen l0 ph → good_phase seen (l0 ++ l) ph'.
Proof.
  intros Hst Hg. assert (Hgm : good_phase seen (l0 ++ l) ph) by (eapply good_phase_mono; [done| |exact Hg]; intros e He; apply elem_of_app; by left).
  inversion Hst; subst; clear Hst; repeat match goal with x := _ |- _ => subst x end; try done.
  - unfold prepare. destruct (decode_job (J_Payload job)) as [p|] eqn:Hdec; [|done]. case_match; [done|].
    destruct (resolveScheduleExecutionTargets _ _ _ p) as [ts|[]]; first [by split|exact Hgm].
  - match goal with Ha : after_begin _ _ _ _ _ = Some _ |- _ => rename Ha into Hab end. destruct Hgm as [Hj Hdec]. unfold after_begin in Hab.
    destruct (BeginJobExecution now job d).2 as [[]|e]; [destruct targets as [ts|]| |]; [..|done|]; injection Hab as <-; [|done..].
    split; simpl; [done|done|intros x t|intros x c]; by rewrite lookup_empty.
  - match goal with Ht : take_target _ _ = Some _ |- _ => rename Ht into Htt end. unfold take_target in Htt. destruct (R_todo r) as [|y todo]; [done|].
    case_if_in Htt; [|done]. destruct Hgm as [Hj He Hc Hs]. destruct ended; injection Htt as <-; (split; [done|done|intros x t|intros x c]); simpl; [by apply Hc|by apply Hs|..].
    + rewrite lookup_insert_Some. intros [[_ <-]|[_ Hx]] Ht; [done|by eapply Hc].
    + rewrite lookup_insert_Some. intros [[_ ?]|[_ Hx]]; [done|by eapply Hs].
  - unfold after_checks. destruct (target_checks e (R_exec r) target) as [[]|st] eqn:Hck; simpl; [|by apply good_set_done].
    apply good_set_active; [done| |done]. intros _. exists e. split; [|done]. apply elem_of_app. right. by left.
  - unfold after_start. match goal with Ha : R_active r !! _ = Some TAllowed |- _ => rename Ha into Hact end.
    destruct (StartScheduledAction now newid (R_job r) target d) as [d1 [c|er]] eqn:Hs; simpl; [|by apply good_set_done].
    apply start_spec in Hs as (p & t & _ & Hdec & _ & _ & _ & _ & _ & -> & _). rewrite (gr_exec _ _ _ Hgm) in Hdec. injection Hdec as <-.
    apply good_set_active; [done|by intros _; eapply (gr_checked _ _ _ Hgm)|]. intros c [= <-]. split; [|done]. apply elem_of_app. right. by left.
  - match goal with Ha : R_active r !! _ = Some (TStarted _) |- _ => rename Ha into Hact end.
    apply good_set_active; [done|by intros _; eapply (gr_checked _ _ _ Hgm)|done].
  - by apply good_set_done.
  - apply (gr_job _ _ _ Hgm).
  - match goal with Hf : _ = Some ph' |- _ => destruct (FinishScheduleExecution _ _ _ _ _).2; [done|]; by injection Hf as <- end.
  - match goal with Hp : _ ∨ _ |- _ => destruct Hp as [->|(p & ts & ->)]; [done|apply Hgm] end.
Qed.
(** *** Executions *)

Record good_state (l : list event) (s : state) : Prop := {
  gs_db : wf_db (S_seen s) [] (S_db s);
  gs_wf k ph : S_workers s !! k = Some ph → wf_phase ph;
  gs_good k ph : S_workers s !! k = Some ph → good_phase (S_seen s) l ph }.

Lemma set_worker_lookup k ph ws i x : set_worker k ph ws !! i = Some x → (i = k ∧ ph = Some x) ∨ ws !! i = Some x.
Proof.
  unfold set_worker. destruct (decide (i = k)) as [->|Hne]; [rewrite lookup_partial_alter_eq|rewrite lookup_partial_alter_ne by done]; auto.
Qed.

Lemma see_sub d seen t : t ∈ seen → t ∈ see d seen.
Proof. intros Ht. apply elem_of_app. by right. Qed.

(** After a step: the workers that did not move, the one that did, and the database. *)
Lemma good_step_intro l l' s d' k ph' :
  good_state l s → wf_db (S_seen s) [] d' →
  (∀ ph, ph' = Some ph → wf_phase ph ∧ good_phase (see d' (S_seen s)) (l ++ l') ph) →
  good_state (l ++ l') (MkState d' (set_worker k ph' (S_workers s)) (see d' (S_seen s))).
Proof.
  intros [Hdb Hwf Hg] Hd Hph. split; simpl; [by apply see_wf|..]; intros i ph [[_ Hi]|Hi]%set_worker_lookup.
  - by apply Hph.
  - by eapply Hwf.
  - by apply Hph.
  - eapply good_phase_mono; [apply see_sub| |by eapply Hg]. intros e He. apply elem_of_app. by left.
Qed.

Lemma claimed_good seen now token skip d ph :
  wf_db seen [] d → worker_of (Claim now token skip (D_jobs d)).2 = Some ph → wf_phase ph ∧ ∃ job, ph = PClaimed job ∧ good_job seen job.
Proof.
  intros Hwf Hw. pose proof (job_claim_effect now token skip (D_jobs d)) as Hc. destruct (Claim now token skip (D_jobs d)) as [t' [job|]]; [|done].
  simpl in Hw. case_if_in Hw; [|done]. bool_prop. injection Hw as <-. split; [done|]. exists job. split; [done|]. split; [done|].
  destruct Hc as (id & j & Hj & _ & -> & _). destruct (wd_jobs _ _ _ Hwf _ _ Hj) as (Hid & Hne & p & Hdec & Hx & Hg); [done|].
  unfold wf_schedule_job. simpl. rewrite Hid. eauto 10.
Qed.

Lemma step_good l0 l s s' : step l s s' → good_state l0 s → good_state (l0 ++ l) s'.
Proof.
  intros Hst Hg. destruct Hst as [l d d' ws seen Hdb|now token skip d ws seen Hk Hne r|k ph ph' l d d' ws seen Hk Hw].
  - destruct Hg as [Hwf Hph Hgood]. simpl in *. pose proof (db_step_wf _ _ _ _ Hdb Hwf) as Hwf'. split; simpl; [by apply see_wf|done|].
    intros k ph Hk. eapply good_phase_mono; [apply see_sub| |by eapply Hgood]. intros e He. apply elem_of_app. by left.
  - assert (Hwf' : wf_db seen [] (with_jobs r.1 d)) by (eapply keeps_wf; [apply keeps_claim|apply Hg]).
    change (see d seen) with (see (with_jobs r.1 d) seen). apply (good_step_intro l0 [] (MkState d ws seen)); [done|done|].
    intros ph Hph. destruct (claimed_good seen now token skip d ph) as (Hwp & job & -> & Hj); [apply Hg|done|]. split; [done|].
    eapply good_job_mono; [|exact Hj]. apply see_sub.
  - assert (Hwf' : wf_db seen [] d') by (eapply worker_step_wf; [done|apply Hg]).
    apply (good_step_intro l0 l (MkState d ws seen)); [done|done|]. intros ph1 ->. simpl.
    destruct (worker_ledger "" "" _ _ _ _ _ Hw) as [Hwp _]; [by eapply (gs_wf _ _ Hg)|]. split; [done|].
    eapply good_phase_mono; [apply see_sub|by intros e He; exact He|]. eapply worker_good; [done|]. by eapply (gs_good _ _ Hg).
Qed.

Lemma initial_good_state : good_state [] init_state.
Proof. split; [split|..]; simpl; [by intros id t|by intros id j|by intros t ?%not_elem_of_nil|by intros k ph..]. Qed.

Lemma execution_good l s : execution l init_state s → good_state l s.
Proof.
  remember init_state as s0 eqn:Hs0. induction 1 as [s|l l' s s' s'' _ IH Hst]; [subst; apply initial_good_state|]. eapply step_good; eauto.
Qed.

(** *** The ledgers of an execution *)

Definition armed_count (J x : string) (ws : gmap string phase) : Z := count_where (λ ph, armed J x ph = true) ws.

Lemma set_worker_count J x k ph' ws :
  armed_count J x (set_worker k ph' ws) = armed_count J x ws - b2z (armed_opt J x (ws !! k)) + b2z (armed_opt J x ph').
Proof.
  unfold armed_count. rewrite (count_where_split _ ws k), (count_where_split _ (set_worker k ph' ws) k).
  assert (delete k (set_worker k ph' ws) = delete k ws) as ->.
  { apply map_eq. intros i. destruct (decide (i = k)) as [->|Hne]; [by rewrite !lookup_delete_eq|]. by unfold set_worker; rewrite !lookup_delete_ne, lookup_partial_alter_ne by done. }
  unfold at_key, set_worker. rewrite lookup_partial_alter_eq.
  assert (Hb : ∀ o : option phase, (match o with Some y => if decide (armed J x y = true) then 1 else 0 | None => 0 end) = b2z (armed_opt J x o)).
  { intros [ph|]; [|done]. simpl. by destruct (armed J x ph). }
  rewrite !Hb. lia.
Qed.

Definition balance (J x : string) (l : list event) (s : state) : Prop :=
  occurs (is_sent J x) l + armed_count J x (S_workers s) <= occurs (is_began J) l ∧
  occurs (is_began J) l + pending J (S_db s) <= occurs (is_claimed J) l ∧
  occurs (is_claimed J) l <= occurs (is_purged J) l + b2z (has_row J (S_db s)).

Lemma claim_job_book J now token skip d : let d' := with_jobs (Claim now token skip (D_jobs d)).1 d in pending J d' = pending J d ∧ b2z (has_row J d) <= b2z (has_row J d').
Proof.
  simpl. split; [done|]. apply b2z_le. pose proof (job_claim_effect now token skip (D_jobs d)) as Hc.
  destruct (Claim now token skip (D_jobs d)) as [t' [j'|]]; simpl.
  - destruct Hc as (id & j & Hj & _ & -> & -> & _). by apply (stays_insert d _ id j (claim_job now token j)).
  - destruct Hc as [-> _]. done.
Qed.

Lemma step_balance J x l0 l s s' : step l s s' → good_state l0 s → balance J x l0 s → balance J x (l0 ++ l) s'.
Proof.
  intros Hst Hg (Hs & Hb & Hc). unfold balance. rewrite !occurs_app. destruct Hst as [l d d' ws seen Hdb|now token skip d ws seen Hk Hne r|k ph ph' l d d' ws seen Hk Hw]; simpl in *.
  - destruct (db_silent J x _ _ _ _ Hdb) as [-> ->]. destruct (db_book J _ _ _ _ Hdb) as [Hp Hr]. destruct (db_silent J x _ _ _ _ Hdb) as [Hz _]. rewrite Hz in Hp. lia.
  - assert (Hz : ∀ f, occurs f [] = 0) by done. rewrite !Hz, set_worker_count, Hk. simpl b2z. destruct (claim_job_book J now token skip d) as [Hp Hr]. fold r in Hp, Hr. rewrite Hp.
    assert (armed_opt J x (worker_of r.2) = false) as ->; [|cbn [b2z]; lia]. unfold worker_of. destruct r.2 as [job|]; [|done]. by case_bool_decide.
  - rewrite set_worker_count, Hk. destruct (worker_ledger J x _ _ _ _ _ Hw) as (_ & Hl & -> & ->); [by eapply (gs_wf _ _ Hg)|].
    destruct (worker_book J _ _ _ _ _ Hw). simpl. lia.
Qed.

Lemma execution_balance J x l s : execution l init_state s → balance J x l s.
Proof.
  remember init_state as s0 eqn:Hs0. induction 1 as [s|l l' s s' s'' Hex IH Hst]; subst; [done|].
  eapply step_balance; [done|by apply execution_good|by apply IH].
Qed.
(** *** An occurrence that is over *)

Definition over (J : string) (d : db) : Prop :=
  ∀ id t, D_tasks d !! id = Some t → ST_LastRunJobID t = J → unfinished (ST_LastRunStatus t) = false.

Lemma calm_over J d d' : calm d d' → over J d → over J d'.
Proof.
  intros Hc Ho id t' Ht' Hj. destruct (unfinished (ST_LastRunStatus t')) eqn:Hu; [|done]. destruct (Hc _ _ Ht' Hu) as (t & Ht & Hj' & Hs).
  rewrite <-Hs in Hu. rewrite (Ho id t) in Hu; [done|done|congruence].
Qed.

Lemma claimed_zero J l J' : occurs (is_claimed J) l = 0 → Claimed J' ∈ l → J' ≠ J.
Proof.
  intros Hz Hin ->. unfold occurs in Hz. assert (Claimed J ∈ List.filter (is_claimed J) l) as Hf.
  { rewrite list_elem_of_In, filter_In, <-list_elem_of_In. split; [done|]. simpl. by rewrite bool_decide_eq_true_2. }
  destruct (List.filter (is_claimed J) l); [by apply not_elem_of_nil in Hf|]. simpl in Hz. lia.
Qed.

Lemma db_over J seen l d d' : db_step seen l d d' → occurs (is_claimed J) l = 0 → over J d → over J d'.
Proof.
  intros [(_ & Hc & _)|[(olderThan & -> & _)|(task & due & now & next & n & -> & ->)]]%db_calm Hz Ho; [by eapply calm_over|done|].
  destruct (ClaimScheduledTaskExecution (claim_of task due now next n) d) as [d' [[]|e]] eqn:Hcl; simpl.
  2,3: by rewrite (claim_same _ _ _ _ Hcl).
  apply claim_spec in Hcl as (t & _ & _ & _ & _ & _ & ->). intros i x. simpl. rewrite lookup_insert_Some. intros [[<- <-]|[_ Hx]] Hj; [|by eapply Ho].
  exfalso. simpl in *. by eapply (claimed_zero J _ _ Hz); [by left|].
Qed.

Lemma worker_calm l d ph d' ph' : worker_step l (d, ph) (d', ph') →
  calm d d' ∨ ∃ now job, BeginJobExecution now job d = (d', Ok true).
Proof.
  intros Hst. inversion Hst; subst; clear Hst; repeat match goal with x := _ |- _ => subst x end; try (left; by apply calm_same).
  - destruct (BeginJobExecution now job d) as [d1 [[]|e]] eqn:Hb; simpl; [right; eauto| |].
    + apply begin_skip in Hb as (p0 & _ & _ & _ & _ & Hs & _). left. by apply closing_calm in Hs.
    + left. rewrite (transaction_err _ _ _ _ Hb). by apply calm_same.
  - left. apply calm_same, start_same.
  - left. apply calm_same, finish_action_same.
  - left. destruct (FinishScheduleExecution now job status error d) as [d1 [[]|e]] eqn:Hb; simpl.
    + apply finish_schedule_spec in Hb as (p0 & _ & _ & _ & _ & Hs & _). by apply closing_calm in Hs.
    + rewrite (transaction_err _ _ _ _ Hb). by apply calm_same.
  - left. apply fail_calm.
Qed.

Lemma step_over J l s s' : step l s s' → occurs (is_claimed J) l = 0 → over J (S_db s) → over J (S_db s').
Proof.
  intros [l' d d' ws seen Hdb|now token skip d ws seen Hk Hne r|k ph ph' l' d d' ws seen Hk Hw] Hz Ho; simpl in *; [by eapply db_over|done|].
  destruct (worker_calm _ _ _ _ _ Hw) as [Hc|(now & job & Hb)]; [by eapply calm_over|].
  apply begin_dispatch in Hb as (p & t & _ & _ & _ & Ht & Hcur & Hq & _ & _ & _ & Htasks). intros i x. rewrite Htasks, lookup_insert_Some.
  intros [[<- <-]|[_ Hx]] Hj; [|by eapply Ho]. simpl in Hj. assert (unfinished (ST_LastRunStatus t) = false) as Hf by (eapply Ho; [exact Ht|congruence]).
  by rewrite Hq in Hf.
Qed.

(** Where the events of a command come from. *)
Lemma started_event l s s' job p x :
  step l s s' → Started job p x ∈ l →
  ∃ k r now newid c d', S_workers s !! k = Some (PRunning r) ∧ R_job r = job ∧ R_exec r = p ∧ R_active r !! x = Some TAllowed ∧
    StartScheduledAction now newid job x (S_db s) = (d', Ok c).
Proof.
  intros Hst Hin. destruct Hst as [l' d d' ws seen Hdb|now token skip d ws seen Hk Hne r|k ph ph' l' d d' ws seen Hk Hw]; simpl.
  - apply db_calm in Hdb as [[-> _]|[(olderThan & _ & ->)|(task & due & now & next & n & _ & ->)]].
    + by apply not_elem_of_nil in Hin.
    + by apply list_elem_of_fmap in Hin as (i & ? & _).
    + destruct (ClaimScheduledTaskExecution _ _) as [? [[]|]]; simpl in Hin; [by apply list_elem_of_singleton in Hin|by apply not_elem_of_nil in Hin..].
  - by apply not_elem_of_nil in Hin.
  - inversion Hw; subst; repeat match goal with x := _ |- _ => subst x end; try (by apply not_elem_of_nil in Hin).
    + destruct (BeginJobExecution _ _ _) as [? [[]|]]; simpl in Hin; [by apply list_elem_of_singleton in Hin|by apply not_elem_of_nil in Hin..].
    + destruct (is_ok _); [by apply list_elem_of_singleton in Hin|by apply not_elem_of_nil in Hin].
    + destruct (StartScheduledAction now newid (R_job r) target d) as [d1 [c|e]] eqn:Hs; simpl in Hin; [|by apply not_elem_of_nil in Hin].
      apply list_elem_of_singleton in Hin as [= -> -> ->]. eauto 12.
    + destruct (if connected then _ else _) as [[]|]; simpl in Hin; [by apply list_elem_of_singleton in Hin|by apply not_elem_of_nil in Hin].
Qed.

Lemma sent_event l s s' J x cmd :
  step l s s' → Sent J x cmd ∈ l →
  ∃ k r c, S_workers s !! k = Some (PRunning r) ∧ J_ID (R_job r) = J ∧ R_active r !! x = Some (TStarted c) ∧ cmd = trim_space (AJ_Command c).
Proof.
  intros Hst Hin. destruct Hst as [l' d d' ws seen Hdb|now token skip d ws seen Hk Hne r|k ph ph' l' d d' ws seen Hk Hw]; simpl.
  - apply db_calm in Hdb as [[-> _]|[(olderThan & _ & ->)|(task & due & now & next & n & _ & ->)]].
    + by apply not_elem_of_nil in Hin.
    + by apply list_elem_of_fmap in Hin as (i & ? & _).
    + destruct (ClaimScheduledTaskExecution _ _) as [? [[]|]]; simpl in Hin; [by apply list_elem_of_singleton in Hin|by apply not_elem_of_nil in Hin..].
  - by apply not_elem_of_nil in Hin.
  - inversion Hw; subst; repeat match goal with x := _ |- _ => subst x end; try (by apply not_elem_of_nil in Hin).
    + destruct (BeginJobExecution _ _ _) as [? [[]|]]; simpl in Hin; [by apply list_elem_of_singleton in Hin|by apply not_elem_of_nil in Hin..].
    + destruct (is_ok _); [by apply list_elem_of_singleton in Hin|by apply not_elem_of_nil in Hin].
    + destruct (StartScheduledAction _ _ _ _ _) as [? [|]]; simpl in Hin; [by apply list_elem_of_singleton in Hin|by apply not_elem_of_nil in Hin].
    + destruct (if connected then _ else _) as [[agent command]|] eqn:Hs; simpl in Hin; [|by apply not_elem_of_nil in Hin].
      apply list_elem_of_singleton in Hin as [= -> -> ->]. exists k, r, c. do 3 (split; [done|]). destruct connected; [|done].
      unfold command_to_send in Hs. case_if_in Hs; [done|]. destruct cfg; [|done]. case_if_in Hs; [|done]. by injection Hs as _ <-.
Qed.
Lemma target_checks_ok e p x :
  target_checks e p x = Ok tt →
  ∃ stores cfg, CE_authorize e = Some stores ∧ AuthorizeExecutionTarget (CE_now e) stores (X_ActorID p) x = Ok tt ∧
    CE_policy e = Some cfg ∧ Allowed (Evaluate (command_check (X_ActorID p) x (X_Command p)) cfg) = true ∧ CE_guardrails e = Some (Some false).
Proof.
  unfold target_checks. destruct (CE_authorize e) as [stores|]; [|done]. destruct (AuthorizeExecutionTarget _ _ _ _) as [[]|] eqn:Ha; [|done].
  destruct (CE_policy e) as [cfg|]; [|done]. destruct (Allowed _) eqn:Hal; [|done]. destruct (CE_guardrails e) as [[[]|]|]; [done| |done..].
  intros _. by exists stores, cfg.
Qed.

(** ** Theorems *)

(** C5: whatever hubs, workers, edits, crashes, retries, recoveries and purges do, a command of an occurrence is sent to
    a target at most as often as the occurrence has begun, it has begun at most as often as it was claimed, and it is claimed a
    second time only after the purge has removed its job: an occurrence whose job was not purged
    sends each target its command at most once. *)
Theorem command_sent_once l s J x :
  execution l init_state s →
  occurs (is_sent J x) l <= occurs (is_began J) l ∧ occurs (is_began J) l <= occurs (is_claimed J) l ∧
  occurs (is_claimed J) l <= occurs (is_purged J) l + 1.
Proof.
  intros (Hs & Hb & Hc)%(execution_balance J x). pose proof (count_where_nonneg (λ ph, armed J x ph = true) (S_workers s)).
  pose proof (count_where_nonneg (waits J) (D_tasks (S_db s))). unfold armed_count, pending in *. destruct (has_row J (S_db s)); simpl in Hc; lia.
Qed.


(** C9: a command is sent only after its target passed the checks and after its run was recorded. The checks are those of
    the moment: the creator may still run commands on that target, the policy allows the command, no maintenance window blocks it. The
    creator, the command and the occurrence come from one version of the schedule. *)
Theorem command_authorised l s l' s' J x cmd :
  execution l init_state s → step l' s s' → Sent J x cmd ∈ l' →
  ∃ job p e stores cfg version due,
    Permitted p x e ∈ l ∧ Started job p x ∈ l ∧ J_ID job = J ∧ X_JobID p = J ∧ cmd = trim_space (X_Command p) ∧
    (version ∈ S_seen s ∧ ST_NextRunAt version = Some due ∧ p = occurrence_of version due) ∧
    CE_authorize e = Some stores ∧ AuthorizeExecutionTarget (CE_now e) stores (X_ActorID p) x = Ok tt ∧
    CE_policy e = Some cfg ∧ Allowed (Evaluate (command_check (X_ActorID p) x (X_Command p)) cfg) = true ∧ CE_guardrails e = Some (Some false).
Proof.
  intros Hg%execution_good Hst Hin. destruct (sent_event _ _ _ _ _ _ Hst Hin) as (k & r & c & Hk & HJ & Hact & ->).
  destruct (gs_good _ _ Hg _ _ Hk) as [Hj Hdec Hc Hs]. destruct (Hs _ _ Hact) as (Hstarted & _ & Hcmd).
  destruct (Hc _ _ Hact) as (e & Hperm & Hok); [done|]. destruct (target_checks_ok _ _ _ Hok) as (stores & cfg & ?).
  destruct Hj as (_ & _ & _ & p & Hdec' & Hx & version & due & Hver). rewrite Hdec in Hdec'. injection Hdec' as <-.
  exists (R_job r), (R_exec r), e, stores, cfg, version, due. rewrite Hcmd, <-HJ. do 5 (split; [done|]). done.
Qed.

(** A run is recorded only for the occurrence that its schedule is running at that moment, with the schedule enabled,
    under a live claim and never twice for a target; and once an occurrence is over (paused, invalidated, replaced or
    finished), it records no further run for good, unless it is claimed anew. *)
Theorem run_only_while_current l s :
  execution l init_state s →
  (∀ l' s' job p x, step l' s s' → Started job p x ∈ l' →
     D_runs (S_db s) !! scheduledActionRunID (X_JobID p) x = None ∧
     ∃ t, D_tasks (S_db s) !! X_ScheduleID p = Some t ∧ ST_Enabled t = true ∧ ST_LastRunJobID t = X_JobID p ∧ ST_LastRunStatus t = "running") ∧
  (∀ J l' s' job p x, over J (S_db s) → execution l' s s' → occurs (is_claimed J) l' = 0 → Started job p x ∈ l' → J_ID job ≠ J).
Proof.
  intros Hex. pose proof (execution_good _ _ Hex) as Hg. split.
  - intros l' s' job p x Hst Hin. destruct (started_event _ _ _ _ _ _ Hst Hin) as (k & r & now & newid & c & d' & Hk & <- & <- & _ & Hs).
    apply start_spec in Hs as (p & t & _ & Hdec & Hx & Ht & Hcur & Hrun & _ & _ & Hnone & _).
    rewrite (gr_exec _ _ _ (gs_good _ _ Hg _ _ Hk)) in Hdec. injection Hdec as ->. split; [done|]. exists t. split; [done|].
    destruct (wd_tasks _ _ _ (gs_db _ _ Hg) _ _ Ht) as (_ & _ & Hu). rewrite Hrun in Hu. destruct (Hu eq_refl). split; [done|]. split; [congruence|done].
  - intros J l' s' job p x Ho Hex'. revert Ho. clear Hex Hg. cut (over J (S_db s) → occurs (is_claimed J) l' = 0 →
      over J (S_db s') ∧ ∀ job p x, Started job p x ∈ l' → J_ID job ≠ J); [naive_solver|].
    induction Hex' as [s0|l1 l2 s0 s1 s2 _ IH Hst]; intros Ho Hz; [split; [done|]; by intros ? ? ? ?%not_elem_of_nil|].
    rewrite occurs_app in Hz. pose proof (occurs_nonneg (is_claimed J) l1). pose proof (occurs_nonneg (is_claimed J) l2).
    destruct (IH Ho) as [Ho1 Hs1]; [lia|]. assert (Hz2 : occurs (is_claimed J) l2 = 0) by lia. split; [by eapply step_over|].
    intros job0 p0 x0 [Hin|Hin]%elem_of_app; [by eapply Hs1|]. intros <-.
    destruct (started_event _ _ _ _ _ _ Hst Hin) as (k & r & now & newid & c & d' & _ & <- & _ & _ & Hs).
    apply start_spec in Hs as (p1 & t & _ & _ & _ & Ht & Hcur & Hrun & _). specialize (Ho1 _ _ Ht Hcur). by rewrite Hrun in Ho1.
Qed.
(** Steps with the event that they show. *)
Lemma step_claims task due now next n d ws seen :
  task ∈ seen → ST_NextRunAt task = Some due → NextRun (ST_CronExpr task) now = Ok next →
  let r := ClaimScheduledTaskExecution (claim_of task due now next n) d in
  r.2 = Ok true → step [Claimed (ExecutionJobID (ST_ID task) due)] (MkState d ws seen) (MkState r.1 ws (see r.1 seen)).
Proof. intros Hin Hdue Hn r Hr. pose proof (db_claim seen task due now next n d Hin Hdue Hn) as Hst. simpl in Hst. fold r in Hst. rewrite Hr in Hst. by apply step_db. Qed.

Lemma step_begins k now reason job p targets d ws seen :
  ws !! k = Some (PPrepared job p targets) → let r := BeginJobExecution now job d in
  r.2 = Ok true → step [Began (J_ID job)] (MkState d ws seen) (MkState r.1 (set_worker k (after_begin reason job p targets r.2) ws) (see r.1 seen)).
Proof. intros Hk r Hr. pose proof (ws_begin now reason job p targets d) as Hst. simpl in Hst. fold r in Hst. rewrite Hr in Hst |- *. by eapply step_worker. Qed.

Lemma step_starts k now newid target r d ws seen :
  ws !! k = Some (PRunning r) → R_active r !! target = Some TAllowed → let s := StartScheduledAction now newid (R_job r) target d in
  is_ok s.2 = true → step [Started (R_job r) (R_exec r) target] (MkState d ws seen) (MkState s.1 (set_worker k (Some (PRunning (after_start target s.2 r))) ws) (see s.1 seen)).
Proof.
  intros Hk Hact s Hs. pose proof (ws_start now newid target r d Hact) as Hst. simpl in Hst. fold s in Hst. destruct (s.2) as [c|e]; [|done]. by eapply step_worker.
Qed.

Lemma step_permits k e target r d ws seen :
  ws !! k = Some (PRunning r) → R_active r !! target = Some TEntered → is_ok (target_checks e (R_exec r) target) = true →
  step [Permitted (R_exec r) target e] (MkState d ws seen) (MkState d (set_worker k (Some (PRunning (after_checks e target r))) ws) (see d seen)).
Proof. intros Hk Hact Hok. pose proof (ws_check e target r d Hact) as Hst. rewrite Hok in Hst. by eapply step_worker. Qed.

Lemma step_sends k now cfg answer target c r d ws seen agent command :
  ws !! k = Some (PRunning r) → R_active r !! target = Some (TStarted c) → command_to_send false true cfg c = Some (agent, command) →
  step [Sent (J_ID (R_job r)) target command] (MkState d ws seen)
    (MkState d (set_worker k (Some (PRunning (set_active target (TAnswered c (command_result now c "" (Some answer))) r))) ws) (see d seen)).
Proof.
  intros Hk Hact Hs. pose proof (ws_send now false true cfg "" answer target c r d Hact) as Hst. simpl in Hst. rewrite Hs in Hst. by eapply step_worker.
Qed.
End effects.


(** ** Witnesses *)

(** A codec: the texts of the job as the binary digits of a number that encodes it. *)
Fixpoint pos_chars (p : positive) : list ascii :=
  match p with xH => [] | xO p => "0"%char :: pos_chars p | xI p => "1"%char :: pos_chars p end.
Fixpoint chars_pos (l : list ascii) : positive :=
  match l with [] => xH | c :: l => if decide (c = "0"%char) then xO (chars_pos l) else xI (chars_pos l) end.
Lemma chars_pos_chars p : chars_pos (pos_chars p) = p.
Proof. induction p as [p IH|p IH|]; simpl; by rewrite ?IH. Qed.

Definition demo_fields (p : ExecutionJob) : list string * (list string * Z) :=
  ([X_JobID p; X_ScheduleID p; X_ScheduleName p; X_Command p; X_GroupID p; X_ActorID p], (X_Targets p, X_ScheduledFor p)).
Definition demo_job_of (f : list string * (list string * Z)) : option ExecutionJob :=
  match f with
  | ([j; s; n; c; g; a], (ts, t)) => Some (MkExecution j s n t c ts g a)
  | _ => None
  end.

#[local] Program Instance demo_codec : PayloadCodec := {
  encode_job p := of_chars (pos_chars (encode (demo_fields p)));
  decode_job s := decode (chars_pos (chars s)) ≫= demo_job_of }.
Next Obligation. intros p. simpl. rewrite chars_of_chars, chars_pos_chars, decode_encode. by destruct p. Qed.

#[local] Instance demo_hash : KeyHash := λ s, s.
#[local] Existing Instance range_in_key_order.
#[local] Existing Instance demo_cron.

Definition demo_owner : context := MkContext "owner" "owner" None None "" "".
Definition demo_asset : Asset := {| A_ID := "asset-1"; A_Type := ""; A_Name := ""; A_Source := ""; A_GroupID := ""; A_Status := ""; A_Platform := "";
  A_Metadata := ∅; A_CreatedAt := 0; A_UpdatedAt := 0; A_LastSeenAt := 0 |}.
Definition demo_env : check_env := MkCheckEnv (132 * Second) (Some (MkAuthStores None None)) (Some DefaultEvaluatorConfig) (Some (Some false)).

Definition demo_task : ScheduledTask :=
  MkTask "sched-1" "nightly" "* * * * *" "uptime" ["asset-1"] "" true "owner" (100 * Second) None (Some (120 * Second)) "" "" "".
Definition demo_due : time := 120 * Second.
Definition demo_occurrence : ExecutionJob := occurrence_of demo_task demo_due.
Definition demo_J : string := X_JobID demo_occurrence.

(** The states of a first occurrence, up to its command. *)
Definition demo_s1 : state := let d := (sql_CreateScheduledTask demo_task empty_db).1 in MkState d ∅ (see d []).
Definition demo_s2 : state :=
  let d := (ClaimScheduledTaskExecution (claim_of demo_task demo_due (130 * Second) (180 * Second) 3) (S_db demo_s1)).1 in MkState d ∅ (see d (S_seen demo_s1)).
Definition demo_claim : table * option Job := Claim (131 * Second) "k1" ∅ (D_jobs (S_db demo_s2)).
Definition demo_held : Job := default (new_job 0 "" "" "" 0) demo_claim.2.
Definition demo_s3 : state :=
  MkState (with_jobs demo_claim.1 (S_db demo_s2)) (set_worker "k1" (worker_of demo_claim.2) ∅) (see (S_db demo_s2) (S_seen demo_s2)).
Definition demo_move (ph : option phase) (d : db) (s : state) : state := MkState d (set_worker "k1" ph (S_workers s)) (see d (S_seen s)).
Definition demo_s4 : state := demo_move (Some (prepare 9 (Some [demo_asset]) (Some []) demo_held)) (S_db demo_s3) demo_s3.
Definition demo_begin := BeginJobExecution (131 * Second) demo_held (S_db demo_s4).
Definition demo_s5 : state := demo_move (after_begin "" demo_held demo_occurrence (Some ["asset-1"]) demo_begin.2) demo_begin.1 demo_s4.
Definition demo_r0 : running := MkRunning demo_held demo_occurrence ["asset-1"] ∅ [].
Definition demo_r1 : running := MkRunning demo_held demo_occurrence [] {["asset-1" := TEntered]} [].
Definition demo_s6 : state := demo_move (Some (PRunning demo_r1)) (S_db demo_s5) demo_s5.
Definition demo_r2 : running := after_checks demo_env "asset-1" demo_r1.
Definition demo_s7 : state := demo_move (Some (PRunning demo_r2)) (S_db demo_s6) demo_s6.
Definition demo_start := StartScheduledAction (132 * Second) "schedact_1" demo_held "asset-1" (S_db demo_s7).
Definition demo_s8 : state := demo_move (Some (PRunning (after_start "asset-1" demo_start.2 demo_r2))) demo_start.1 demo_s7.

Definition demo_child : ActionJob := child_job (132 * Second) "schedact_1" demo_occurrence "asset-1".
Definition demo_r3 : running := after_start "asset-1" demo_start.2 demo_r2.
Definition demo_s9 : state :=
  demo_move (Some (PRunning (set_active "asset-1" (TAnswered demo_child (command_result (133 * Second) demo_child "" (Some ("succeeded", "ok")))) demo_r3)))
    (S_db demo_s8) demo_s8.

Definition demo_events : list event :=
  ((((((([] ++ []) ++ [Claimed demo_J]) ++ []) ++ []) ++ [Began (J_ID demo_held)]) ++ []) ++ [Permitted (R_exec demo_r1) "asset-1" demo_env]) ++
  [Started (R_job demo_r2) (R_exec demo_r2) "asset-1"].

Lemma demo_step1 : step [] init_state demo_s1.
Proof. apply step_db. by apply (db_create _ (100 * Second) "sched-1" demo_owner None demo_create demo_task). Qed.
Lemma demo_step2 : step [Claimed demo_J] demo_s1 demo_s2.
Proof.
  apply (step_claims demo_task demo_due (130 * Second) (180 * Second) 3 (S_db demo_s1) ∅ (S_seen demo_s1));
    [apply (bool_decide_eq_true_1 (demo_task ∈ _))|..]; by vm_compute.
Qed.
Lemma demo_step3 : step [] demo_s2 demo_s3.
Proof. by apply (step_claim_job (131 * Second) "k1" ∅ (S_db demo_s2) ∅ (S_seen demo_s2)). Qed.
Lemma demo_step4 : step [] demo_s3 demo_s4.
Proof. apply (step_worker "k1" (PClaimed demo_held) _ [] (S_db demo_s3)); [by vm_compute|apply ws_prepare]. Qed.
Lemma demo_step5 : step [Began (J_ID demo_held)] demo_s4 demo_s5.
Proof. apply (step_begins "k1" (131 * Second) "" demo_held demo_occurrence (Some ["asset-1"]) (S_db demo_s4) (S_workers demo_s4)); by vm_compute. Qed.
Lemma demo_step6 : step [] demo_s5 demo_s6.
Proof. apply (step_worker "k1" (PRunning demo_r0) (Some (PRunning demo_r1)) [] (S_db demo_s5)); [by vm_compute|]. by apply (ws_take false). Qed.
Lemma demo_step7 : step [Permitted (R_exec demo_r1) "asset-1" demo_env] demo_s6 demo_s7.
Proof. apply (step_permits "k1" demo_env "asset-1" demo_r1 (S_db demo_s6) (S_workers demo_s6)); by vm_compute. Qed.
Lemma demo_step8 : step [Started (R_job demo_r2) (R_exec demo_r2) "asset-1"] demo_s7 demo_s8.
Proof. apply (step_starts "k1" (132 * Second) "schedact_1" "asset-1" demo_r2 (S_db demo_s7) (S_workers demo_s7)); by vm_compute. Qed.
Lemma demo_send : step [Sent (J_ID (R_job demo_r3)) "asset-1" "uptime"] demo_s8 demo_s9.
Proof.
  apply (step_sends "k1" (133 * Second) (Some DefaultEvaluatorConfig) ("succeeded", "ok") "asset-1" demo_child demo_r3 (S_db demo_s8) (S_workers demo_s8) (S_seen demo_s8) "asset-1");
    by vm_compute.
Qed.

Lemma demo_execution : execution demo_events init_state demo_s8.
Proof.
  unfold demo_events.
  apply (ex_step _ _ init_state demo_s7); [|apply demo_step8]. apply (ex_step _ _ init_state demo_s6); [|apply demo_step7].
  apply (ex_step _ _ init_state demo_s5); [|apply demo_step6]. apply (ex_step _ _ init_state demo_s4); [|apply demo_step5].
  apply (ex_step _ _ init_state demo_s3); [|apply demo_step4]. apply (ex_step _ _ init_state demo_s2); [|apply demo_step3].
  apply (ex_step _ _ init_state demo_s1); [|apply demo_step2]. apply (ex_step _ _ init_state init_state); [apply ex_nil|apply demo_step1].
Qed.

Lemma command_sent_once_witness :
  let l := demo_events ++ [Sent (J_ID (R_job demo_r3)) "asset-1" "uptime"] in
  occurs (is_sent demo_J "asset-1") l = 1 ∧ occurs (is_claimed demo_J) l <= occurs (is_purged demo_J) l + 1.
Proof.
  split; [by vm_compute|]. apply (command_sent_once _ demo_s9 demo_J "asset-1"). eapply ex_step; [exact demo_execution|exact demo_send].
Defined.


Lemma command_authorised_witness :
  ∃ job p e cfg, Permitted p "asset-1" e ∈ demo_events ∧ Started job p "asset-1" ∈ demo_events ∧
    Allowed (Evaluate (command_check (X_ActorID p) "asset-1" (X_Command p)) cfg) = true ∧ "uptime" = trim_space (X_Command p).
Proof.
  destruct (command_authorised demo_events demo_s8 _ _ (J_ID (R_job demo_r3)) "asset-1" "uptime" demo_execution demo_send)
    as (job & p & e & stores & cfg & version & due & Hp & Hs & _ & _ & Hc & _ & _ & _ & _ & Ha & _); [by left|].
  exists job, p, e, cfg. split; [exact Hp|]. split; [exact Hs|]. split; [exact Ha|exact Hc].
Defined.

(** The pause of the schedule while its command is being prepared. *)
Definition demo_pause_update : task_update := MkTaskUpdate None None None None None (Some false) (Some None) "owner".
Definition demo_paused : db := (sql_UpdateScheduledTask "sched-1" demo_pause_update (S_db demo_s7)).1.

Lemma run_only_while_current_witness :
  D_runs (S_db demo_s7) !! scheduledActionRunID demo_J "asset-1" = None ∧
  (StartScheduledAction (132 * Second) "schedact_1" demo_held "asset-1" demo_paused).2 = Err RunNotRunning.
Proof.
  split; [|by vm_compute].
  assert (Hex : execution (((((((([] ++ []) ++ [Claimed demo_J]) ++ []) ++ []) ++ [Began (J_ID demo_held)]) ++ []) ++ [Permitted (R_exec demo_r1) "asset-1" demo_env])) init_state demo_s7).
  { apply (ex_step _ _ init_state demo_s6); [|apply demo_step7].
    apply (ex_step _ _ init_state demo_s5); [|apply demo_step6]. apply (ex_step _ _ init_state demo_s4); [|apply demo_step5].
    apply (ex_step _ _ init_state demo_s3); [|apply demo_step4]. apply (ex_step _ _ init_state demo_s2); [|apply demo_step3].
    apply (ex_step _ _ init_state demo_s1); [|apply demo_step2]. apply (ex_step _ _ init_state init_state); [apply ex_nil|apply demo_step1]. }
  destruct (run_only_while_current _ _ Hex) as [Hone _].
  destruct (Hone _ _ (R_job demo_r2) (R_exec demo_r2) "asset-1" demo_step8) as [Hnone _]; [by left|exact Hnone].
Defined.

(** An edit of the cron expression that was prepared just before the due time, and written just after the occurrence was claimed, sets the next
    run back to the occurrence that has run: its job is still in the queue's table, so every later claim of the
    schedule fails. *)
Definition demo_edit : UpdateScheduleRequest := MkUpdateSchedule None (Some "* * * * *") None None None None.
Definition demo_edit_update : task_update := MkTaskUpdate None (Some "* * * * *") None None None None (Some (Some demo_due)) "owner".
Definition demo_after_run : db :=
  let d := (sql_UpdateScheduledTask "sched-1" demo_edit_update (S_db demo_s5)).1 in
  (FinishScheduleExecution (140 * Second) demo_held "succeeded" "" d).1.

Lemma stale_edit_wedges :
  update_of (119 * Second) (119 * Second) demo_owner None demo_task demo_edit = Ok demo_edit_update ∧
  ∃ row, D_tasks demo_after_run !! "sched-1" = Some row ∧ ST_Enabled row = true ∧ ST_LastRunStatus row = "succeeded" ∧ ST_NextRunAt row = Some demo_due ∧
    ClaimScheduledTaskExecution (claim_of row demo_due (181 * Second) (240 * Second) 3) demo_after_run = (demo_after_run, Err RunDuplicate).
Proof.
  split; [by vm_compute|]. set (row := default demo_task (D_tasks demo_after_run !! "sched-1")). exists row.
  split; [by vm_compute|]. do 3 (split; [by vm_compute|]).
  destruct (ClaimScheduledTaskExecution (claim_of row demo_due (181 * Second) (240 * Second) 3) demo_after_run) as [d r] eqn:Hc.
  assert (Hr : r = Err RunDuplicate) by (change r with (d, r).2; rewrite <-Hc; by vm_compute). rewrite Hr in *. by rewrite (claim_same _ _ _ _ Hc).
Qed.
