(* ===== verification/ScheduleEvaluation.v ===== *)
(** * The scheduler

    A pass of the scheduler over the schedules that are due ([internal/hubapi/schedulespkg/runtime.go]), on the transactions of
    [ScheduleStore]. What other hubs do between its statements is the business of [ScheduleRuns]: each statement of a
    pass is a step of it. *)

From S2P Require Import Prelude GoStrings GoTime Accounts ApiKeys Schedules JobQueue ScheduleStore ScheduleRuns.

Definition maxDueSchedulesPerPass : Z := 100.

Record EvaluationStats := MkStats { Initialized : Z; Invalidated : Z; ClaimedCount : Z; Backlog : bool }.

(** A pass in progress: the database, the statistics, the number of errors so far and the tasks that are [due]. *)
Record pass := MkPass { P_db : db; P_stats : EvaluationStats; P_errs : Z; P_due : list ScheduledTask }.

(** A [for] loop over [l] that polls the context before each round: the polls that are left, or [None] when it ended. *)
Fixpoint poll_each {A S : Type} (f : A → S → S) (live : nat) (l : list A) (s : S) : option nat * S :=
  match l, live with
  | [], _ => (Some live, s)
  | _ :: _, O => (None, s)
  | x :: l, S live => poll_each f live l (f x s)
  end.

(** A list that ends with no part of white space is not stripped away. *)
Lemma strip_keeps sp2 sp3 x (l : list ascii) :
  is_ascii_space x = false → (∀ a, sp2 a x = false) → (∀ a b, sp3 a b x = false) → strip sp2 sp3 (l ++ [x]) ≠ [].
Proof.
  intros Hx H2 H3. remember (length l) as n eqn:Hn. revert l Hn. induction (lt_wf n) as [n _ IH]. intros l ->.
  destruct l as [|a [|b [|c l]]]; cbn; rewrite ?Hx, ?H2, ?H3; [done|..].
  - by destruct (is_ascii_space a).
  - by destruct (is_ascii_space a), (is_ascii_space b), (sp2 a b).
  - pose proof (IH (S (S (length l))) ltac:(simpl; lia) (b :: c :: l) eq_refl) as I1. pose proof (IH (S (length l)) ltac:(simpl; lia) (c :: l) eq_refl) as I2.
    pose proof (IH (length l) ltac:(simpl; lia) l eq_refl) as I3. cbn in I1, I2. by destruct (is_ascii_space a), (sp2 a b), (sp3 a b c).
Qed.

Section evaluation.
Context `{MapRange} `{CronParser} `{PayloadCodec} `{KeyHash}.
(** [err.Error()] *)
Variable text : cron_error → string.

(** The statement of [ListScheduledTasksForEvaluation] *)
Definition sql_ListForEvaluation (now : time) (limit : Z) (d : db) : list ScheduledTask :=
  let '(limit, _) := normalizeScheduledTaskListBounds limit 0 in
  take (Z.to_nat limit) (merge_sort due_before (select (needs_evaluation now) (D_tasks d))).

(** A round of the first loop *)
Definition evaluate_task (now : time) (task : ScheduledTask) (q : pass) : pass :=
  let '(MkPass d (MkStats i v c b) errs due) := q in
  if negb (ST_Enabled task) then q
  else match NextRun (ST_CronExpr task) now with
       | Err parseErr => MkPass (MarkScheduledTaskInvalid (ST_ID task) (text parseErr) d) (MkStats i (v + 1) c b) errs due
       | Ok next =>
           match ST_NextRunAt task with
           | None =>
               let '(d, initialized) := InitializeScheduledTaskNextRun (ST_ID task) next d in
               MkPass d (MkStats (if initialized then i + 1 else i) v c b) errs due
           | Some at_ => if at_ <=? now then MkPass d (MkStats i v c b) errs (due ++ [task]) else q
           end
       end.

(** A round of the second loop *)
Definition claim_task (now : time) (maxAttempts : Z) (task : ScheduledTask) (q : pass) : pass :=
  let '(MkPass d (MkStats i v c b) errs due) := q in
  match ST_NextRunAt task with
  | None => q
  | Some dueAt =>
      match NextRun (ST_CronExpr task) now with
      | Err _ => MkPass d (MkStats i v c b) (errs + 1) due
      | Ok next =>
          match ClaimScheduledTaskExecution (claim_of task dueAt now next maxAttempts) d with
          | (d, Err _) => MkPass d (MkStats i v c b) (errs + 1) due
          | (d, Ok claimed) => MkPass d (MkStats i v (if claimed : bool then c + 1 else c) b) errs due
          end
      end
  end.

(** [clock] is the clock, read when no time is given; [queue] is [MaxAttempts()] of the queue, if there is one. The result is
    [None] when the context ended. *)
Definition EvaluateDueSchedules (live : nat) (now clock : time) (queue : option Z) (d : db) : pass * option (EvaluationStats * Z) :=
  let now := if now =? zero_time then clock else now in
  let none := MkStats 0 0 0 false in
  match live with
  | O => (MkPass d none 0 [], None)
  | S live =>
      let tasks := sql_ListForEvaluation now (maxDueSchedulesPerPass + 1) d in
      let backlog := maxDueSchedulesPerPass <? list_len tasks in
      let tasks := if backlog then take (Z.to_nat maxDueSchedulesPerPass) tasks else tasks in
      let '(live, q) := poll_each (evaluate_task now) live tasks (MkPass d (MkStats 0 0 0 backlog) 0 []) in
      match live with
      | None => (q, None)
      | Some live =>
          let '(live, q) := poll_each (claim_task now (default 1 queue)) live (P_due q) q in
          (q, match live with None => None | Some _ => Some (P_stats q, P_errs q) end)
      end
  end.

(** ** A pass is a run of [ScheduleRuns] *)

(** The database was reached by steps, over states that have seen the tasks. *)
Definition reached (ws : gmap string phase) (s0 : state) (tasks : list ScheduledTask) (d : db) : Prop :=
  ∃ l seen, execution l s0 (MkState d ws seen) ∧ ∀ t, t ∈ tasks → t ∈ seen.

Lemma reached_step ws s0 tasks d d' :
  reached ws s0 tasks d → (∀ seen, (∀ t, t ∈ tasks → t ∈ seen) → ∃ l, db_step seen l d d') → reached ws s0 tasks d'.
Proof.
  intros (l & seen & Hex & Hin) Hst. destruct (Hst seen Hin) as [l' Hd]. exists (l ++ l'), (see d' seen).
  split; [eapply ex_step; [done|by apply step_db]|]. intros t Ht. by apply see_sub, Hin.
Qed.

Lemma poll_each_inv {A S} (I : S → Prop) (f : A → S → S) live l s :
  (∀ x s, x ∈ l → I s → I (f x s)) → I s → I (poll_each f live l s).2.
Proof.
  revert live s. induction l as [|x l IH]; intros [|live] s Hf Hs; simpl; [done..|]. apply IH; [|apply Hf; [by left|done]].
  intros y s' Hy. apply Hf. by right.
Qed.

Lemma evaluate_task_reached ws s0 tasks now task q :
  task ∈ tasks → reached ws s0 tasks (P_db q) → reached ws s0 tasks (P_db (evaluate_task now task q)).
Proof.
  intros Hin Hr. destruct q as [d [i v c b] errs due]. simpl in *. destruct (ST_Enabled task); [|done]. simpl.
  destruct (NextRun (ST_CronExpr task) now) as [next|e] eqn:Hn.
  - destruct (ST_NextRunAt task) as [at_|]; [by destruct (at_ <=? now)|].
    destruct (InitializeScheduledTaskNextRun (ST_ID task) next d) as [d1 b1] eqn:Hi. simpl. eapply reached_step; [done|]. intros seen _. exists [].
    change d1 with (d1, b1).1. rewrite <-Hi. by eapply db_initialize.
  - eapply reached_step; [done|]. intros seen _. exists []. constructor.
Qed.

Lemma claim_task_reached ws s0 tasks now maxAttempts task q :
  task ∈ tasks → reached ws s0 tasks (P_db q) → reached ws s0 tasks (P_db (claim_task now maxAttempts task q)).
Proof.
  intros Hin Hr. destruct q as [d [i v c b] errs due]. simpl in *. destruct (ST_NextRunAt task) as [at_|] eqn:Hat; [|done].
  destruct (NextRun (ST_CronExpr task) now) as [next|e] eqn:Hn; [|done].
  destruct (ClaimScheduledTaskExecution (claim_of task at_ now next maxAttempts) d) as [d1 r] eqn:Hc.
  assert (Hr1 : reached ws s0 tasks d1); [|by destruct r].
  eapply reached_step; [done|]. intros seen Hs. pose proof (db_claim seen task at_ now next maxAttempts d (Hs _ Hin) Hat Hn) as Hd. simpl in Hd.
  rewrite Hc in Hd. simpl in Hd. eauto.
Qed.

Lemma due_tasks_sub now tasks q live :
  (∀ t, t ∈ P_due q → t ∈ tasks) → ∀ t, t ∈ P_due (poll_each (evaluate_task now) live tasks q).2 → t ∈ tasks.
Proof.
  apply (poll_each_inv (λ q, ∀ t, t ∈ P_due q → t ∈ tasks)). intros x [d [i v c b] errs due] Hx Hq. simpl in *.
  destruct (ST_Enabled x); [|done]. simpl. destruct (NextRun _ _) as [next|e]; [|done]. destruct (ST_NextRunAt x) as [at_|]; [|by destruct (InitializeScheduledTaskNextRun _ _ _)].
  destruct (at_ <=? now); [|done]. simpl. intros t [?|Ht]%elem_of_app; [by auto|]. by apply list_elem_of_singleton in Ht as ->.
Qed.

Lemma list_due_sub now limit d t : t ∈ sql_ListForEvaluation now limit d → ∃ id, D_tasks d !! id = Some t ∧ needs_evaluation now t = true.
Proof.
  unfold sql_ListForEvaluation. destruct (normalizeScheduledTaskListBounds limit 0) as [n o]. intros Ht%elem_of_take_sub.
  rewrite merge_sort_Permutation in Ht. by apply elem_of_select in Ht.
Qed.

(** Every database that a pass leaves behind, also when it ends early, is one that steps of [ScheduleRuns] lead to. *)
Lemma pass_execution live now clock queue s :
  (∀ id t, D_tasks (S_db s) !! id = Some t → t ∈ S_seen s) →
  ∃ l seen, execution l s (MkState (P_db (EvaluateDueSchedules live now clock queue (S_db s)).1) (S_workers s) seen).
Proof.
  intros Hseen. destruct s as [d ws seen0]. simpl in *. unfold EvaluateDueSchedules.
  destruct live as [|live]; [exists [], seen0; constructor|]. set (n := if now =? zero_time then clock else now).
  set (b := _ <? _). set (tasks := if b then _ else _). set (q0 := MkPass _ _ _ _).
  assert (Hq0 : reached ws (MkState d ws seen0) tasks (P_db q0)).
  { exists [], seen0. split; [constructor|]. intros t Ht. assert (Hin : t ∈ sql_ListForEvaluation n (maxDueSchedulesPerPass + 1) d).
    { unfold tasks in Ht. destruct b; [by apply elem_of_take_sub in Ht|done]. }
    apply list_due_sub in Hin as (id & Hid & _). by eapply Hseen. }
  pose proof (poll_each_inv (λ q, reached ws (MkState d ws seen0) tasks (P_db q)) (evaluate_task n) live tasks q0
    (λ x q Hx Hq, evaluate_task_reached _ _ _ n x q Hx Hq) Hq0) as Hq1.
  pose proof (due_tasks_sub n tasks q0 live) as Hdue. destruct (poll_each (evaluate_task n) live tasks q0) as [[live1|] q1]; simpl in *.
  - specialize (Hdue ltac:(by intros ? ?%not_elem_of_nil)).
    pose proof (poll_each_inv (λ q, reached ws (MkState d ws seen0) tasks (P_db q)) (claim_task n (default 1 queue)) live1 (P_due q1) q1
      (λ x q Hx Hq, claim_task_reached _ _ _ n _ x q (Hdue x Hx) Hq) Hq1) as (l & seen & Hex & _).
    destruct (poll_each (claim_task n (default 1 queue)) live1 (P_due q1) q1) as [live2 q2]. by exists l, seen.
  - destruct Hq1 as (l & seen & Hex & _). by exists l, seen.
Qed.

(** ** What a pass does *)

(** A schedule after the first loop, and whether it was due. *)
Definition evaluated (now : time) (t : ScheduledTask) : ScheduledTask :=
  match NextRun (ST_CronExpr t) now with
  | Err e => invalid_task (text e) t
  | Ok next =>
      match ST_NextRunAt t with
      | None => set_run (ST_LastRunAt t) (Some next) (ST_LastRunStatus t) "" (ST_LastRunJobID t) t
      | Some _ => t
      end
  end.
Definition is_due (now : time) (t : ScheduledTask) : bool := is_ok (NextRun (ST_CronExpr t) now) && bool_decide (is_Some (ST_NextRunAt t)).

(** A row that is stored under its id, trimmed and not empty, and that the scheduler looks at. *)
Definition to_evaluate (now : time) (d : db) (t : ScheduledTask) : Prop :=
  D_tasks d !! ST_ID t = Some t ∧ trim_space (ST_ID t) = ST_ID t ∧ ST_ID t ≠ "" ∧ needs_evaluation now t = true.

Lemma evaluate_task_spec now t q :
  to_evaluate now (P_db q) t → let q' := evaluate_task now t q in
  P_db q' = with_tasks (<[ST_ID t := evaluated now t]> (D_tasks (P_db q))) (P_db q) ∧
  P_due q' = P_due q ++ (if is_due now t then [t] else []).
Proof.
  intros (Ht & Htr & _ & Hn). destruct q as [d [i v c b] errs due]. simpl in *. unfold needs_evaluation in Hn. apply andb_true_iff in Hn as [He Hn].
  rewrite He. simpl. unfold evaluated, is_due. destruct (NextRun (ST_CronExpr t) now) as [next|e]; simpl.
  - destruct (ST_NextRunAt t) as [at_|] eqn:Hat; simpl.
    + rewrite Hn. simpl. split; [|done]. rewrite insert_id by done. by destruct d.
    + unfold InitializeScheduledTaskNextRun, update_where. rewrite Htr, Ht, He, Hat. simpl. by rewrite app_nil_r.
  - unfold MarkScheduledTaskInvalid, update_where. rewrite Htr, Ht. simpl. by rewrite app_nil_r.
Qed.

Lemma to_evaluate_other now d t t' row : ST_ID t ≠ ST_ID t' → to_evaluate now d t → to_evaluate now (with_tasks (<[ST_ID t' := row]> (D_tasks d)) d) t.
Proof. intros Hne (? & ?). split; [|done]. simpl. by rewrite lookup_insert_ne by done. Qed.

(** The first loop on schedules with different ids. *)
Lemma evaluate_loop now tasks q :
  NoDup (ST_ID <$> tasks) → (∀ t, t ∈ tasks → to_evaluate now (P_db q) t) →
  let q' := foldl (λ q t, evaluate_task now t q) q tasks in
  D_jobs (P_db q') = D_jobs (P_db q) ∧ P_due q' = P_due q ++ List.filter (is_due now) tasks ∧
  (∀ t, t ∈ tasks → D_tasks (P_db q') !! ST_ID t = Some (evaluated now t)) ∧
  ∀ id, id ∉ ST_ID <$> tasks → D_tasks (P_db q') !! id = D_tasks (P_db q) !! id.
Proof.
  revert q. induction tasks as [|x tasks IH]; intros q Hnd Hok; simpl; [rewrite app_nil_r; split_and!; try done; by intros ? ?%not_elem_of_nil|].
  apply NoDup_cons in Hnd as [Hx Hnd]. destruct (evaluate_task_spec now x q) as [Hdb Hdue]; [apply Hok; by left|].
  destruct (IH (evaluate_task now x q)) as (Hj & Hd & Ht & Ho); [done| |].
  { intros t Hin. rewrite Hdb. apply to_evaluate_other; [|apply Hok; by right]. intros Heq. apply Hx. rewrite <-Heq. by apply list_elem_of_fmap_2. }
  rewrite Hdb in Hj, Ho. split; [done|]. split; [rewrite Hd, Hdue, <-app_assoc; by destruct (is_due now x)|]. split.
  - intros t [->|Hin]%elem_of_cons; [|by apply Ht]. rewrite Ho by done. simpl. by rewrite lookup_insert_eq.
  - intros id Hid. apply not_elem_of_cons in Hid as [Hne Hid]. rewrite Ho by done. simpl. by rewrite lookup_insert_ne.
Qed.

Lemma job_id_not_blank id due : trim_space (ExecutionJobID id due) ≠ "".
Proof.
  unfold trim_space, ExecutionJobID. set (l := of_chars (take _ _)).
  change (chars (String.append "schedrun_" l)) with ("s"%char :: chars (String.append "chedrun_" l)). unfold trim_left_l.
  rewrite (strip_ok is_space2 is_space3) by done. unfold trim_right_l. simpl rev.
  destruct (strip _ _ _) as [|c r] eqn:Hs; [by apply strip_keeps in Hs|]. simpl. by destruct (rev r).
Qed.

Definition to_claim (now : time) (d : db) (t : ScheduledTask) : Prop :=
  D_tasks d !! ST_ID t = Some t ∧ trim_space (ST_ID t) = ST_ID t ∧ ST_ID t ≠ "" ∧ needs_evaluation now t = true ∧ is_due now t = true.

Definition claimed_task (now next due : time) (t : ScheduledTask) : ScheduledTask :=
  set_run (Some now) (Some next) "queued" "" (ExecutionJobID (ST_ID t) due) t.
Definition claimed_job (now due n : time) (t : ScheduledTask) : Job :=
  new_job now (ExecutionJobID (ST_ID t) due) KindScheduleRun (encode_job (occurrence_of t due)) (claim_attempts n).

(** A due schedule after its claim: it waits for its occurrence, or it was left alone for one of three reasons. *)
Definition claimed_or_held (now n : Z) (t : ScheduledTask) (next due : time) (d : db) : Prop :=
  let J := ExecutionJobID (ST_ID t) due in
  (unfinished (ST_LastRunStatus t) = false ∧ D_tasks d !! ST_ID t = Some (claimed_task now next due t) ∧ D_jobs d !! J = Some (claimed_job now due n t)) ∨
  (D_tasks d !! ST_ID t = Some t ∧ (unfinished (ST_LastRunStatus t) = true ∨ due = zero_time ∨ is_Some (D_jobs d !! J))).

Lemma claim_task_spec now n t q next due :
  now ≠ zero_time → to_claim now (P_db q) t → ST_NextRunAt t = Some due → NextRun (ST_CronExpr t) now = Ok next → let q' := claim_task now n t q in
  claimed_or_held now n t next due (P_db q') ∧ D_jobs (P_db q) ⊆ D_jobs (P_db q') ∧
  ∀ id, id ≠ ST_ID t → D_tasks (P_db q') !! id = D_tasks (P_db q) !! id.
Proof.
  intros Hnow (Ht & Htr & Hid & Hneed & _) Hdue Hnext. destruct q as [d [i v c b] errs dues]. simpl in *. rewrite Hdue, Hnext.
  unfold needs_evaluation in Hneed. apply andb_true_iff in Hneed as [He _]. pose proof (next_run_future _ _ _ Hnext) as (Hlt & Hz & _).
  destruct (ClaimScheduledTaskExecution (claim_of t due now next n) d) as [d' r] eqn:Hc.
  assert (Hr : r = Ok true ∨ r ≠ Ok true) by (destruct r as [[]|]; [by left|by right..]). destruct Hr as [->|Hr].
  - apply claim_spec in Hc as (t' & Ht' & _ & _ & Hun & Hnone & ->). simpl. rewrite Ht in Ht'. injection Ht' as <-.
    split; [left; simpl; by rewrite !lookup_insert_eq|]. split; [by apply insert_subseteq|]. intros id Hne. by rewrite lookup_insert_ne.
  - pose proof (claim_same _ _ _ _ Hc Hr) as ->. assert (Hheld : claimed_or_held now n t next due d); [|destruct r; simpl; by split].
    right. split; [done|].
    destruct (unfinished (ST_LastRunStatus t)) eqn:Hun; [by left|]. right. destruct (decide (due = zero_time)) as [?|Hdz]; [by left|]. right.
    revert Hc. unfold ClaimScheduledTaskExecution. simpl. rewrite Htr, bool_decide_eq_false_2 by done.
    simpl. rewrite (proj2 (Z.eqb_neq _ _) Hdz), (proj2 (Z.eqb_neq _ _) Hnow), (proj2 (Z.eqb_neq _ _) Hz), (proj2 (Z.leb_gt _ _) Hlt). simpl.
    unfold update_where, claim_matches. simpl. rewrite Ht, He, Hdue, Hun, (bool_decide_eq_true_2 (Some due = Some due)) by done. simpl.
    rewrite (bool_decide_eq_false_2 (trim_space _ = "")) by apply job_id_not_blank.
    destruct (D_jobs d !! _) as [j|]; [by eauto|]. intros Hc%(f_equal snd). simpl in Hc. congruence.
Qed.

Lemma claimed_or_held_mono now n t next due d d' :
  D_jobs d ⊆ D_jobs d' → D_tasks d' !! ST_ID t = D_tasks d !! ST_ID t → claimed_or_held now n t next due d → claimed_or_held now n t next due d'.
Proof.
  intros Hsub Heq [(Hun & Ht & Hj)|(Ht & Hw)]; [left|right]; rewrite Heq; (split; [done|]).
  - split; [done|]. by eapply lookup_weaken.
  - destruct Hw as [?|[?|[j Hj]]]; [by left|by right; left|]. right. right. exists j. by eapply lookup_weaken.
Qed.

(** The second loop on schedules with different ids. *)
Lemma claim_loop now n tasks q :
  now ≠ zero_time → NoDup (ST_ID <$> tasks) → (∀ t, t ∈ tasks → to_claim now (P_db q) t) →
  let q' := foldl (λ q t, claim_task now n t q) q tasks in
  (∀ t next due, t ∈ tasks → ST_NextRunAt t = Some due → NextRun (ST_CronExpr t) now = Ok next → claimed_or_held now n t next due (P_db q')) ∧
  D_jobs (P_db q) ⊆ D_jobs (P_db q') ∧ ∀ id, id ∉ ST_ID <$> tasks → D_tasks (P_db q') !! id = D_tasks (P_db q) !! id.
Proof.
  intros Hnow. revert q. induction tasks as [|x tasks IH]; intros q Hnd Hok; simpl; [split; [by intros ??? ?%not_elem_of_nil|done]|].
  apply NoDup_cons in Hnd as [Hx Hnd]. pose proof (Hok x ltac:(by left)) as Hxok. pose proof Hxok as (_ & _ & _ & _ & Hdue).
  unfold is_due in Hdue. apply andb_true_iff in Hdue as [Hn Hd]. apply bool_decide_eq_true in Hd as [due Hdue].
  destruct (NextRun (ST_CronExpr x) now) as [next|] eqn:Hnext; [|done].
  destruct (claim_task_spec now n x q next due Hnow Hxok Hdue Hnext) as (Hcl & Hjobs & Hoth).
  destruct (IH (claim_task now n x q)) as (Hall & Hj & Ho); [done| |].
  { intros t Hin. destruct (Hok t ltac:(by right)) as (Ht & Hrest). split; [|done]. rewrite Hoth; [done|]. intros Heq. apply Hx. rewrite <-Heq. by apply list_elem_of_fmap_2. }
  split_and!; [|by etrans|].
  - intros t next' due' [->|Hin]%elem_of_cons Hd' Hn'; [|by eapply Hall]. rewrite Hdue in Hd'. rewrite Hnext in Hn'. injection Hd' as <-. injection Hn' as <-.
    eapply claimed_or_held_mono; [exact Hj| |done]. by apply Ho.
  - intros id Hid. apply not_elem_of_cons in Hid as [Hne Hid]. rewrite Ho by done. by apply Hoth.
Qed.

Lemma poll_each_all {A S} (f : A → S → S) live l s : (length l <= live)%nat → poll_each f live l s = (Some (live - length l)%nat, foldl (λ s x, f x s) s l).
Proof.
  revert live s. induction l as [|x l IH]; intros live s Hl; simpl in *; [by destruct live|]. destruct live as [|live]; [lia|]. simpl. apply IH. lia.
Qed.

#[local] Instance due_before_total : Total due_before.
Proof.
  intros x y. unfold due_before. destruct (ST_NextRunAt x) as [a|], (ST_NextRunAt y) as [b|]; [|by right|by left|apply (total String.le)].
  destruct (Z.lt_trichotomy a b) as [?|[->|?]]; [by left; left| |by right; left]. destruct (total String.le (ST_ID x) (ST_ID y)); [left|right]; by right.
Qed.
#[local] Instance due_before_trans : Transitive due_before.
Proof.
  intros x y z. unfold due_before. destruct (ST_NextRunAt x) as [a|], (ST_NextRunAt y) as [b|], (ST_NextRunAt z) as [c|]; try done; [|by intros; etrans].
  intros [?|[-> ?]] [?|[-> ?]]; [left; lia..|right; split; [done|by etrans]].
Qed.

(** What a pass makes of a schedule that it looks at. *)
Definition served (now n : Z) (t : ScheduledTask) (d : db) : Prop :=
  match NextRun (ST_CronExpr t) now, ST_NextRunAt t with
  | Ok next, Some due => claimed_or_held now n t next due d
  | _, _ => D_tasks d !! ST_ID t = Some (evaluated now t)
  end.

Definition stored_by_id (d : db) : Prop := ∀ id t, D_tasks d !! id = Some t → ST_ID t = id ∧ trim_space id = id ∧ id ≠ "".

Lemma listed_ids now limit d : stored_by_id d → NoDup (ST_ID <$> sql_ListForEvaluation now limit d).
Proof.
  intros Hid. unfold sql_ListForEvaluation. destruct (normalizeScheduledTaskListBounds limit 0) as [n o].
  eapply sublist_NoDup; [|apply (fmap_sublist ST_ID), sublist_take]. rewrite merge_sort_Permutation. unfold select.
  assert (Hsub : List.filter (needs_evaluation now) (range (D_tasks d)).*2 `sublist_of` (range (D_tasks d)).*2).
  { induction (range (D_tasks d)).*2 as [|x l IH]; simpl; [constructor|]. by destruct (needs_evaluation now x); constructor. }
  eapply sublist_NoDup; [|by apply (fmap_sublist ST_ID)]. rewrite <-list_fmap_compose.
  rewrite (list_fmap_ext _ fst); [apply NoDup_fst_range|]. intros i [id t] Hi%list_elem_of_lookup_2%elem_of_range. simpl. by apply Hid.
Qed.

(** The schedules of a pass: a hundred at most, those that are due first. *)
Definition pass_tasks (now : time) (d : db) : list ScheduledTask := take (Z.to_nat maxDueSchedulesPerPass) (sql_ListForEvaluation now (maxDueSchedulesPerPass + 1) d).

Lemma pass_tasks_first now d t id :
  D_tasks d !! id = Some t → needs_evaluation now t = true → t ∈ pass_tasks now d ∨ length (pass_tasks now d) = 100%nat ∧ ∀ x, x ∈ pass_tasks now d → due_before x t.
Proof.
  intros Ht Hn. unfold pass_tasks, sql_ListForEvaluation. simpl. rewrite take_take. change (_ `min` _)%nat with 100%nat.
  set (l := merge_sort due_before _). assert (Hin : t ∈ l).
  { unfold l. rewrite merge_sort_Permutation. apply elem_of_select. eauto. }
  assert (Hs : StronglySorted due_before l) by (apply StronglySorted_merge_sort; apply _).
  rewrite <-(take_drop 100 l) in Hin, Hs. apply elem_of_app in Hin as [Hin|Hin]; [by left|]. right.
  assert (Hlen : (100 < length l)%nat).
  { destruct (decide (100 < length l)%nat); [done|]. rewrite drop_ge in Hin by lia. by apply not_elem_of_nil in Hin. }
  rewrite length_take. split; [lia|]. intros x Hx. by eapply StronglySorted_app_1_elem_of.
Qed.

(** C31: a pass of the scheduler that is not cut short serves every schedule it looks at. One whose cron expression is not valid
    is disabled as invalid; one without a next run gets one in the future; one that is due is claimed: it waits for a job in the queue that is the
    snapshot of its row, and its next run is in the future; it is left alone only while an earlier occurrence is unfinished, or if a job of this
    occurrence exists already. No other schedule is touched, and a schedule that should be looked at is left out only when a hundred
    schedules come before it. *)
Theorem pass_serves live now clock queue d :
  now ≠ zero_time → stored_by_id d → (200 < live)%nat →
  let r := EvaluateDueSchedules live now clock queue d in
  is_Some r.2 ∧
  (∀ t, t ∈ pass_tasks now d → served now (default 1 queue) t (P_db r.1)) ∧
  (∀ id, id ∉ ST_ID <$> pass_tasks now d → D_tasks (P_db r.1) !! id = D_tasks d !! id) ∧
  ∀ id t, D_tasks d !! id = Some t → needs_evaluation now t = true →
    t ∈ pass_tasks now d ∨ length (pass_tasks now d) = 100%nat ∧ ∀ x, x ∈ pass_tasks now d → due_before x t.
Proof.
  intros Hnow Hid Hlive. unfold EvaluateDueSchedules. destruct live as [|live]; [lia|]. rewrite (proj2 (Z.eqb_neq _ _) Hnow).
  set (all := sql_ListForEvaluation now _ d).
  assert (Htasks : (if maxDueSchedulesPerPass <? list_len all then take (Z.to_nat maxDueSchedulesPerPass) all else all) = pass_tasks now d).
  { unfold pass_tasks. fold all. destruct (_ <? _) eqn:Hlt; [done|]. apply Z.ltb_ge in Hlt. rewrite take_ge; [done|]. unfold list_len in Hlt. lia. }
  simpl. rewrite Htasks. set (q0 := MkPass _ _ _ _). set (tasks := pass_tasks now d).
  assert (Hn : (length tasks <= 100)%nat) by (unfold tasks, pass_tasks; rewrite length_take; change (Z.to_nat _) with 100%nat; lia).
  assert (Hnd : NoDup (ST_ID <$> tasks)) by (eapply sublist_NoDup; [by apply (listed_ids now 101 d)|apply (fmap_sublist ST_ID), sublist_take]).
  assert (Hev : ∀ t, t ∈ tasks → to_evaluate now (P_db q0) t).
  { intros t Ht%elem_of_take_sub. apply list_due_sub in Ht as (id & Ht & Hneed). destruct (Hid _ _ Ht) as (<- & ? & ?). by split_and!. }
  rewrite poll_each_all by lia. destruct (evaluate_loop now tasks q0 Hnd Hev) as (Hjobs & Hdue & Hrow & Hoth).
  set (q1 := foldl _ q0 tasks) in *. change (P_due q1 = List.filter (is_due now) tasks) in Hdue.
  assert (Hf : List.filter (is_due now) tasks `sublist_of` tasks).
  { clear. induction tasks as [|x l IH]; simpl; [constructor|]. by destruct (is_due now x); constructor. }
  rewrite poll_each_all by (rewrite Hdue; apply sublist_length in Hf; lia). simpl.
  destruct (claim_loop now (default 1 queue) (P_due q1) q1) as (Hcl & _ & Hkeep); [done| | |].
  { rewrite Hdue. eapply sublist_NoDup; [done|by apply (fmap_sublist ST_ID)]. }
  { rewrite Hdue. intros t Ht. apply list_elem_of_In, filter_In in Ht as [Ht%list_elem_of_In Hd]. destruct (Hev _ Ht) as (_ & ? & ? & ?).
    split_and!; try done. rewrite (Hrow _ Ht). f_equal. unfold evaluated, is_due in *. destruct (NextRun _ _); [|done]. by destruct (ST_NextRunAt t). }
  split; [done|]. split_and!.
  - intros t Ht. unfold served. destruct (NextRun (ST_CronExpr t) now) as [next|e] eqn:Hnext.
    + destruct (ST_NextRunAt t) as [due|] eqn:Hat; [eapply Hcl; [|done..]|].
      { rewrite Hdue. apply list_elem_of_In, filter_In. split; [by apply list_elem_of_In|]. unfold is_due. by rewrite Hnext, Hat. }
      rewrite Hkeep; [by apply Hrow|]. rewrite Hdue. intros (t' & Heq & Hin%list_elem_of_In)%list_elem_of_fmap. apply filter_In in Hin as [Hin Hd].
      assert (t' = t) as ->; [|unfold is_due in Hd; by rewrite Hnext, Hat in Hd].
      destruct (Hev _ Ht) as (Hr & _). destruct (Hev t') as (Hr' & _); [by apply list_elem_of_In|]. rewrite Heq in Hr. congruence.
    + rewrite Hkeep; [by apply Hrow|]. rewrite Hdue. intros (t' & Heq & Hin%list_elem_of_In)%list_elem_of_fmap. apply filter_In in Hin as [Hin Hd].
      assert (t' = t) as ->; [|unfold is_due in Hd; by rewrite Hnext in Hd].
      destruct (Hev _ Ht) as (Hr & _). destruct (Hev t') as (Hr' & _); [by apply list_elem_of_In|]. rewrite Heq in Hr. congruence.
  - intros id Hni. rewrite Hkeep; [by apply Hoth|]. rewrite Hdue. intros Hin. apply Hni. by eapply elem_of_sublist; [|apply (fmap_sublist ST_ID)].
  - intros id t Ht Hneed. by eapply pass_tasks_first.
Qed.
End evaluation.

(** ** Witness *)

#[local] Existing Instance demo_codec.
#[local] Existing Instance demo_hash.
#[local] Existing Instance range_in_key_order.
#[local] Existing Instance demo_cron.

(** One schedule is due, one has a cron expression that is not valid, and one has no next run yet. *)
Definition demo_fleet : db :=
  let row id cron next := MkTask id id cron "uptime" ["asset-1"] "" true "owner" (100 * Second) None next "" "" "" in
  with_tasks (list_to_map [("sched-1", demo_task); ("sched-2", row "sched-2" "never" (Some (110 * Second))); ("sched-3", row "sched-3" "* * * * *" None)]) empty_db.
Definition demo_pass := EvaluateDueSchedules (λ _, "invalid cron expression") 201 (130 * Second) 0 None demo_fleet.

Lemma pass_serves_witness :
  demo_pass.2 = Some (MkStats 1 1 1 false, 0) ∧ claimed_or_held (130 * Second) 1 demo_task (180 * Second) (120 * Second) (P_db demo_pass.1).
Proof.
  split; [by vm_compute|].
  destruct (pass_serves (λ _, "invalid cron expression") 201 (130 * Second) 0 None demo_fleet) as (_ & Hs & _); [done| |lia|].
  - intros id t. apply (bool_decide_eq_true_1 (map_Forall (λ id t, ST_ID t = id ∧ trim_space id = id ∧ id ≠ "") (D_tasks demo_fleet))). by vm_compute.
  - assert (Hn : NextRun (ST_CronExpr demo_task) (130 * Second) = Ok (180 * Second)) by (by vm_compute).
    specialize (Hs demo_task ltac:(apply (bool_decide_eq_true_1 (demo_task ∈ _)); by vm_compute)). unfold served in Hs. rewrite Hn in Hs. exact Hs.
Defined.
