(* ===== verification/AlertTargets.v ===== *)
(** * The targets of an alert rule

    Which assets a rule is about: [internal/hubapi/alerting/alert_predicates.go], [alert_selector_values.go],
    [alert_capability_batches.go], with the capabilities that the hub infers from an asset
    ([internal/hubapi/resources/canonical_helpers.go]) and the classes of resources ([internal/model/resource.go]).

    A computation counts how often it polls its context ([polled]): it is cut short when the context ends before its last poll.
    What a store answers during an evaluation is an argument. *)

From S2P Require Import Prelude GoStrings Alerts Assets.

(** ** Computations that poll a context *)

Inductive condition_error := ContextEnded | Unavailable | LookupFailed | BadCondition | BadBatch | TooManyPoints | BadScope (e : scope_error).

(** The number of polls before the result. *)
Definition polled (A : Type) : Type := nat * result condition_error A.
#[export] Instance polled_ret : MRet polled := λ A a, (O, Ok a).
#[export] Instance polled_bind : MBind polled := λ A B f m,
  match m with
  | (n, Ok a) => let '(k, r) := f a in ((n + k)%nat, r)
  | (n, Err e) => (n, Err e)
  end.
Definition poll : polled unit := (1%nat, Ok tt).
Definition fail {A} (e : condition_error) : polled A := (O, Err e).
Definition answer {A} (o : option A) : polled A := match o with Some a => mret a | None => fail LookupFailed end.

(** What the caller gets when the context is found live [live] times. *)
Definition within {A} (live : nat) (m : polled A) : result condition_error A := if (live <? m.1)%nat then Err ContextEnded else m.2.

(** A loop over [l] *)
Fixpoint each {A B} (f : B → A → polled B) (b : B) (l : list A) : polled B :=
  match l with [] => mret b | x :: l => f b x ≫= λ b, each f b l end.

(** ** Values of selectors *)

(** [condition[key]] of a map from JSON *)
Fixpoint any_lookup (key : string) (m : anymap) : option gany :=
  match m with [] => None | (k, v) :: m => if decide (k = key) then Some v else any_lookup key m end.

Definition normalizeSelectorToken (value : string) : string := to_lower (trim_space value).

Definition kind_char (c : ascii) : bool :=
  let n := byte_of c in ((97 <=? n) && (n <=? 122) || (48 <=? n) && (n <=? 57) || (n =? 46) || (n =? 45))%N.
(** [alertKindTokenSanitizePattern]: a run of other characters becomes one dash. *)
Fixpoint sanitize (in_run : bool) (l : list ascii) : list ascii :=
  match l with
  | [] => []
  | c :: l => if kind_char c then c :: sanitize false l else if in_run then sanitize true l else "-"%char :: sanitize true l
  end.
Definition replace_char (a b : ascii) (l : list ascii) : list ascii := (λ c, if decide (c = a) then b else c) <$> l.
Fixpoint drop_char (a : ascii) (l : list ascii) : list ascii :=
  match l with c :: l' => if decide (c = a) then drop_char a l' else l | [] => [] end.
(** [strings.Trim(s, "-")] *)
Definition trim_char (a : ascii) (l : list ascii) : list ascii := rev (drop_char a (rev (drop_char a l))).

Definition normalizeKindToken (value : string) : string :=
  let normalized := normalizeSelectorToken value in
  if is_empty normalized then ""
  else of_chars (trim_char "-" (sanitize false (replace_char " " "-" (replace_char "_" "-" (chars normalized))))).

(** [strings.Join] *)
Fixpoint join (sep : string) (l : list string) : string :=
  match l with [] => "" | [s] => s | s :: l => String.append s (String.append sep (join sep l)) end.

(** [strconv.Atoi] on a 64-bit machine *)
Fixpoint digits_value (acc : Z) (l : list ascii) : option Z :=
  match l with
  | [] => Some acc
  | c :: l => let n := Z.of_N (byte_of c) in if (48 <=? n) && (n <=? 57) then digits_value (acc * 10 + (n - 48)) l else None
  end.
Definition Atoi (s : string) : option Z :=
  let '(neg, l) := match chars s with
                   | c :: l => if decide (c = "-"%char) then (true, l) else if decide (c = "+"%char) then (false, l) else (false, c :: l)
                   | [] => (false, [])
                   end in
  match l with
  | [] => None
  | _ => n ← digits_value 0 l;
         let n := if neg : bool then - n else n in
         if (- 2 ^ 63 <=? n) && (n <? 2 ^ 63) then Some n else None
  end.

(** ** Assets *)

(** [assets.Asset] with the fields that only selectors read *)
Record AlertAsset := MkAlertAsset {
  AA_Asset :> Asset; AA_ResourceKind : string; AA_ResourceClass : string; AA_Attributes : anymap }.

Definition metadata_of (entry : AlertAsset) (key : string) : string := default "" (A_Metadata entry !! key).

Definition ResourceClassOther := "other".
Definition resourceClassByKind : list (string * string) :=
  ((λ k, (k, "compute")) <$> ["host"; "hypervisor-node"; "vm"; "container"; "container-host"; "docker-container"; "app"; "pod"; "deployment"; "stack"; "compose-stack"]) ++
  ((λ k, (k, "storage")) <$> ["storage-controller"; "storage-pool"; "datastore"; "dataset"; "disk"; "volume"; "share-smb"; "share-nfs"; "snapshot"]) ++
  ((λ k, (k, "network")) <$> ["interface"; "gateway"; "switch"; "wap"; "firewall-rule"; "vlan"; "route"; "wan-link"]) ++
  ((λ k, (k, "service")) <$> ["service"; "ha-entity"; "backup-task"; "replication-task"; "cloud-sync-task"; "cron-task"]) ++
  ((λ k, (k, "power")) <$> ["ups"; "pdu"; "ipmi-sensor"]).
Definition NormalizeResourceKind (value : string) : string := to_lower (trim_space value).
Definition ResourceClassForKind (kind : string) : string :=
  let normalized := NormalizeResourceKind kind in
  if is_empty normalized then ResourceClassOther
  else if has_prefix normalized "x." then ResourceClassOther
  else default ResourceClassOther ((list_to_map resourceClassByKind : gmap string string) !! normalized).

(** The set of the tokens that are not empty. *)
Definition token_set (l : list string) : gset string := list_to_set (List.filter (λ s, negb (is_empty s)) l).

Definition firstNonEmptyString (values : list string) : string := default "" (List.find (λ v, negb (is_empty v)) values).

Definition assetResourceKindCandidates (entry : AlertAsset) : gset string :=
  token_set (normalizeKindToken <$> [AA_ResourceKind entry; metadata_of entry "resource_kind"; A_Type entry]).

Definition assetResourceClassCandidates (entry : AlertAsset) : gset string :=
  let derivedKind := normalizeKindToken (firstNonEmptyString [AA_ResourceKind entry; metadata_of entry "resource_kind"; A_Type entry]) in
  token_set (normalizeSelectorToken <$>
    [AA_ResourceClass entry; metadata_of entry "resource_class"] ++ (if is_empty derivedKind then [] else [ResourceClassForKind derivedKind])).

(** ** Capabilities *)

Definition SplitCapabilityTokens (value : string) : list string :=
  List.filter (λ t, negb (is_empty t)) (trim_space <$> split_on "," (to_lower (trim_space value))).

Definition metric_keys : list string :=
  ["cpu_used_percent"; "memory_used_percent"; "disk_used_percent"; "temperature_celsius"; "network_rx_bytes_per_sec"; "network_tx_bytes_per_sec"].
Definition HasAnyMetricSignals (m : gmap string string) : bool := existsb (λ key, negb (is_empty (trim_space (default "" (m !! key))))) metric_keys.

Definition CanonicalProviderName (source : string) : string :=
  let normalized := to_lower (trim_space source) in
  if bool_decide (normalized = "homeassistant") then "home-assistant" else normalized.
Definition IsAgentSource (source : string) : bool := bool_decide (CanonicalProviderName source = "agent").

(** The capabilities that a metadata field grants: its key, a token of its value, the capability. *)
Definition metadata_capabilities : list (string * string * string) :=
  [("cap_services", "list", "service.list"); ("cap_services", "action", "service.action");
   ("cap_packages", "list", "package.list"); ("cap_packages", "action", "package.action");
   ("cap_network", "list", "network.list"); ("cap_network", "action", "network.action");
   ("cap_schedules", "list", "cron.list");
   ("cap_logs", "stored", "logs.read"); ("cap_logs", "query", "logs.query"); ("cap_logs", "stream", "logs.stream")].

Definition InferCapabilityIDsFromAssetMetadata (entry : AlertAsset) : list string :=
  let m := A_Metadata entry in
  if bool_decide (m = ∅) then []
  else
    let granted := List.filter (λ '(key, token, _), bool_decide (token ∈ SplitCapabilityTokens (default "" (m !! key)))) metadata_capabilities in
    let agent :=
      if IsAgentSource (CanonicalProviderName (A_Source entry)) then
        ["terminal.open"; "process.list"] ++
        (if bool_decide (to_lower (trim_space (firstNonEmptyString [A_Platform entry; default "" (m !! "platform")])) = "linux")
         then ["files.list"; "users.list"] else [])
      else [] in
    merge_sort String.le (elements (list_to_set ("health.read" :: (if HasAnyMetricSignals m then ["telemetry.read"] else []) ++ granted.*2 ++ agent) : gset string)).

Record CapabilitySet := MkCapabilitySet { CS_SubjectType : string; CS_SubjectID : string; CS_Capabilities : list string }.

Definition tokens_sorted (l : list string) : list string := merge_sort String.le (elements (token_set ((λ s, to_lower (trim_space s)) <$> l))).
Definition CapabilityIDsFromSet (set : CapabilitySet) : list string := tokens_sorted (CS_Capabilities set).
Definition MergeCapabilityIDs (values : list (list string)) : list string := tokens_sorted (concat values).

(** ** Selectors *)

(** [fmt.Sprint] of a number, from its literal in JSON: the decimal form that Go gives its [float64] *)
Class NumberText := number_text : string → string.

Section targets.
Context `{NumberText}.

(** [fmt.Sprint] of a value from JSON *)
Fixpoint Sprint (v : gany) : string :=
  match v with
  | ANil => "<nil>"
  | ABool b => if b then "true" else "false"
  | ANum literal => number_text literal
  | AStr s => s
  | AList l => String.append "[" (String.append (join " " (Sprint <$> l)) "]")
  | AMap m =>
      let entries := merge_sort (λ a b : string * string, String.le a.1 b.1) ((λ kv, (kv.1, Sprint kv.2)) <$> m) in
      String.append "map[" (String.append (join " " ((λ kv, String.append kv.1 (String.append ":" kv.2)) <$> entries)) "]")
  end.

Definition non_empty (l : list string) : list string := List.filter (λ s, negb (is_empty s)) l.

Fixpoint selectorStringValues (value : gany) : list string :=
  match value with
  | ANil => []
  | AStr s =>
      let trimmed := trim_space s in
      if is_empty trimmed then []
      else if contains_char trimmed "," then non_empty (trim_space <$> split_on "," trimmed)
      else [trimmed]
  | AList l => flat_map selectorStringValues l
  | ABool b => [if b then "true" else "false"]
  | _ => [trim_space (Sprint value)]
  end.

(** The distinct tokens that are not empty, in their order. *)
Fixpoint normalize_values (set : gset string) (values : list string) (normalizer : string → string) : list string :=
  match values with
  | [] => []
  | value :: values =>
      let normalized := normalizer value in
      if is_empty normalized || bool_decide (normalized ∈ set) then normalize_values set values normalizer
      else normalized :: normalize_values ({[normalized]} ∪ set) values normalizer
  end.
Definition normalizeSelectorValues (values : list string) (normalizer : string → string) : list string := normalize_values ∅ values normalizer.

Definition setContainsAny (set : gset string) (expected : list string) : bool := existsb (λ v, bool_decide (v ∈ set)) expected.
Definition setContainsAll (set : gset string) (expected : list string) : bool :=
  negb (bool_decide (expected = [])) && forallb (λ v, bool_decide (v ∈ set)) expected.

Definition valueMatchesExpected (candidate : string) (expected : list string) : bool :=
  let normalizedCandidate := normalizeSelectorToken candidate in
  negb (is_empty normalizedCandidate) && existsb (λ v, bool_decide (normalizedCandidate = v)) (normalizeSelectorValues expected normalizeSelectorToken).

Fixpoint read_path (current : gany) (segments : list string) : option gany :=
  match segments with
  | [] => Some current
  | segment :: segments =>
      let key := trim_space segment in
      if is_empty key then None
      else match current with
           | AMap m => next ← any_lookup key m; read_path next segments
           | AList l =>
               index ← Atoi key;
               if (index <? 0) || (Z.of_nat (length l) <=? index) then None else next ← l !! Z.to_nat index; read_path next segments
           | _ => None
           end
  end.
Definition readAttributePath (attributes : anymap) (path : string) : option gany :=
  match attributes with [] => None | _ => read_path (AMap attributes) (split_on "." path) end.

Definition attributePathMatchesExpected (attributes : anymap) (path : string) (expected : list string) : bool :=
  let path := trim_space path in
  if is_empty path then false
  else match readAttributePath attributes path with
       | None => false
       | Some rawValue => valueMatchesExpected (Sprint rawValue) expected
       end.

Definition DeprecatedCanonicalPredicateKeys : list string := ["kind"; "type"; "asset_type"; "target_kind"; "asset_kind"; "target_type"; "target_class"].

(** One key of a selector, not empty and in lower case, for an asset with these capabilities. *)
Definition selector_clause (entry : AlertAsset) (capabilities : gset string) (key : string) (expected : list string) : bool :=
  if bool_decide (key ∈ DeprecatedCanonicalPredicateKeys) then false
  else if bool_decide (key = "resource_kind") then setContainsAny (assetResourceKindCandidates entry) (normalizeSelectorValues expected normalizeKindToken)
  else if bool_decide (key = "resource_class") then setContainsAny (assetResourceClassCandidates entry) (normalizeSelectorValues expected normalizeSelectorToken)
  else if bool_decide (key ∈ ["capability"; "capabilities_any"]) then setContainsAny capabilities (normalizeSelectorValues expected normalizeSelectorToken)
  else if bool_decide (key = "capabilities_all") then setContainsAll capabilities (normalizeSelectorValues expected normalizeSelectorToken)
  else if bool_decide (key ∈ ["id"; "asset_id"]) then valueMatchesExpected (A_ID entry) expected
  else if bool_decide (key = "name") then valueMatchesExpected (A_Name entry) expected
  else if bool_decide (key = "group_id") then valueMatchesExpected (A_GroupID entry) expected
  else if bool_decide (key = "source") then valueMatchesExpected (A_Source entry) expected
  else if bool_decide (key = "status") then valueMatchesExpected (A_Status entry) expected
  else if bool_decide (key = "platform") then valueMatchesExpected (A_Platform entry) expected
  else if has_prefix key "metadata." then
    let metadataKey := trim_space (trim_prefix key "metadata.") in
    negb (is_empty metadataKey) && valueMatchesExpected (metadata_of entry metadataKey) expected
  else if has_prefix key "attribute." then attributePathMatchesExpected (AA_Attributes entry) (trim_prefix key "attribute.") expected
  else if has_prefix key "attributes." then attributePathMatchesExpected (AA_Attributes entry) (trim_prefix key "attributes.") expected
  else match A_Metadata entry !! key with
       | Some metadataValue => valueMatchesExpected metadataValue expected
       | None => attributePathMatchesExpected (AA_Attributes entry) key expected
       end.

(** What the stores answer: the inventory, an asset by its id, and the capability sets, one or a batch; [None] inside is
    an error, and [None] outside a store that is missing. *)
Record alert_stores := MkAlertStores {
  AssetStore : option (option (list AlertAsset) * (string → option (option AlertAsset)));
  CanonicalStore : option ((string → option (option CapabilitySet)) * (list string → option (list CapabilitySet))) }.

Context (D : alert_stores).

Definition assetCapabilitySetWithPrefetch (entry : AlertAsset) (prefetched : option (gmap string (list string))) : gset string :=
  let capabilityIDs := InferCapabilityIDsFromAssetMetadata entry in
  let id := trim_space (A_ID entry) in
  let capabilityIDs :=
    match prefetched, CanonicalStore D with
    | Some known, _ => match known !! id with Some ids => MergeCapabilityIDs [capabilityIDs; ids] | None => capabilityIDs end
    | None, Some (get, _) =>
        match get id with
        | Some (Some set) => MergeCapabilityIDs [capabilityIDs; CapabilityIDsFromSet set]
        | _ => capabilityIDs
        end
    | None, None => capabilityIDs
    end in
  token_set (normalizeSelectorToken <$> capabilityIDs).

Definition assetMatchesRuleSelectorWithCapabilities (entry : AlertAsset) (selector : anymap) (prefetched : option (gmap string (list string))) : bool :=
  match selector with
  | [] => false
  | _ =>
      forallb (λ kv : string * gany,
        let key := normalizeSelectorToken kv.1 in
        is_empty key || selector_clause entry (assetCapabilitySetWithPrefetch entry prefetched) key (selectorStringValues kv.2)) selector
  end.

Definition selectorNeedsAlertCapabilities (selector : anymap) : bool :=
  existsb (λ kv : string * gany, bool_decide (normalizeSelectorToken kv.1 ∈ ["capability"; "capabilities_any"; "capabilities_all"])) selector.

Definition AlertCapabilityBatchSize : nat := 128.

(** The first loop of [alertCapabilityBatchContext]: what is known, and the ids to ask for. *)
Definition batch_candidate (prefetched : gmap string (list string)) (acc : gmap string (list string) * list string) (candidate : AlertAsset) :
    polled (gmap string (list string) * list string) :=
  let '(out, missing) := acc in
  let id := trim_space (A_ID candidate) in
  if is_empty id then fail BadBatch
  else match out !! id, prefetched !! id with
       | Some _, _ => mret (out, missing)
       | None, Some known => mret (<[id := known]> out, missing)
       | None, None => mret (<[id := []]> out, missing ++ [id])
       end.

(** The loop over the sets that the store returned. *)
Definition batch_set (acc : gmap string (list string) * gset string) (set : CapabilitySet) : polled (gmap string (list string) * gset string) :=
  poll ≫= λ _,
  let '(out, remaining) := acc in
  if negb (bool_decide (CS_SubjectID set ∈ remaining)) || negb (bool_decide (CS_SubjectType set = "resource")) then fail BadBatch
  else mret (<[CS_SubjectID set := CapabilityIDsFromSet set]> out, remaining ∖ {[CS_SubjectID set]}).

Definition alertCapabilityBatchContext (candidates : list AlertAsset) (prefetched : gmap string (list string)) : polled (gmap string (list string)) :=
  poll ≫= λ _,
  if (AlertCapabilityBatchSize <? length candidates)%nat then fail BadBatch
  else
    each (batch_candidate prefetched) (∅, []) candidates ≫= λ '(out, missing),
    match missing, CanonicalStore D with
    | [], _ | _, None => poll ≫= λ _, mret out
    | _, Some (_, get_batch) =>
        answer (get_batch missing) ≫= λ sets,
        if (length missing <? length sets)%nat then fail BadBatch
        else each batch_set (out, list_to_set missing) sets ≫= λ '(out, _), poll ≫= λ _, mret out
    end.

(** ** Targets *)

Definition alertTargetsNeedInventory (rule : Rule) (allowGlobalFallback : bool) : bool :=
  (bool_decide (length (R_Targets rule) = 0%nat) && allowGlobalFallback && bool_decide (NormalizeTargetScope (R_TargetScope rule) = TargetScopeGlobal)) ||
  existsb (λ target, negb (is_empty (trim_space (T_GroupID target))) || negb (bool_decide (length (T_Selector target) = 0%nat))) (R_Targets rule).

(** [allAssets] once loaded, and [explicitAssetIndexes]: the last row of the snapshot with a target's id. *)
Record snapshot := MkSnapshot { allAssets : option (list AlertAsset); explicitAssets : gmap string (option AlertAsset) }.

Section resolution.
Context (list_assets : option (list AlertAsset)) (get_asset : string → option (option AlertAsset)).
Context (prefetchedAssets : option (list AlertAsset)) (prefetchedCapabilities : option (gmap string (list string))).

Definition loadAllAssets (s : snapshot) : polled (list AlertAsset * snapshot) :=
  poll ≫= λ _,
  match allAssets s with
  | Some l => mret (l, s)
  | None =>
      answer (match prefetchedAssets with Some l => Some l | None => list_assets end) ≫= λ l,
      (if bool_decide (explicitAssets s = ∅) then mret (explicitAssets s)
       else each (λ indexes (entry : AlertAsset),
              poll ≫= λ _,
              let id := trim_space (A_ID entry) in
              mret (match indexes !! id with Some _ => <[id := Some entry]> indexes | None => indexes end)) (explicitAssets s) l) ≫= λ indexes,
      mret (l, MkSnapshot (Some l) indexes)
  end.

Definition addAsset (out : gmap string AlertAsset) (entry : AlertAsset) : gmap string AlertAsset :=
  let id := trim_space (A_ID entry) in if is_empty id then out else <[id := entry]> out.

(** A batch of the loop over a selector. *)
Definition match_batch (selector : anymap) (out : gmap string AlertAsset) (batch : list AlertAsset) : polled (gmap string AlertAsset) :=
  (if selectorNeedsAlertCapabilities selector then alertCapabilityBatchContext batch (default ∅ prefetchedCapabilities) ≫= λ known, mret (Some known)
   else mret prefetchedCapabilities) ≫= λ capabilities,
  each (λ out entry, poll ≫= λ _, mret (if assetMatchesRuleSelectorWithCapabilities entry selector capabilities then addAsset out entry else out)) out batch.

Fixpoint batches (fuel : nat) (l : list AlertAsset) : list (list AlertAsset) :=
  match fuel, l with
  | O, _ | _, [] => []
  | S fuel, _ => take AlertCapabilityBatchSize l :: batches fuel (drop AlertCapabilityBatchSize l)
  end.

Definition match_target (acc : snapshot * gmap string AlertAsset) (target : RuleTarget) : polled (snapshot * gmap string AlertAsset) :=
  poll ≫= λ _,
  let '(s, out) := acc in
  let assetID := trim_space (T_AssetID target) in
  let groupID := trim_space (T_GroupID target) in
  if negb (is_empty assetID) then
    match explicitAssets s !! assetID with
    | Some (Some entry) => mret (s, addAsset out entry)
    | _ => answer (get_asset assetID) ≫= λ found, mret (s, match found with Some entry => addAsset out entry | None => out end)
    end
  else if negb (is_empty groupID) then
    loadAllAssets s ≫= λ '(l, s),
    each (λ out (entry : AlertAsset), poll ≫= λ _, mret (if equal_fold (trim_space (A_GroupID entry)) groupID then addAsset out entry else out)) out l ≫= λ out,
    mret (s, out)
  else match T_Selector target with
       | [] => mret (s, out)
       | selector =>
           loadAllAssets s ≫= λ '(l, s),
           each (match_batch selector) out (batches (length l) l) ≫= λ out, mret (s, out)
       end.

Definition sortedAssetsByID (values : gmap string AlertAsset) : list AlertAsset :=
  omap (λ key, values !! key) (merge_sort String.le (elements (dom values))).

Definition explicit_ids (indexes : gmap string (option AlertAsset)) (target : RuleTarget) : polled (gmap string (option AlertAsset)) :=
  poll ≫= λ _, let id := trim_space (T_AssetID target) in mret (if is_empty id then indexes else <[id := None]> indexes).

Definition resolve_targets (rule : Rule) (allowGlobalFallback : bool) : polled (list AlertAsset) :=
  each explicit_ids ∅ (R_Targets rule) ≫= λ indexes,
  let s := MkSnapshot None indexes in
  (if alertTargetsNeedInventory rule allowGlobalFallback || bool_decide (is_Some prefetchedAssets) then loadAllAssets s ≫= λ r, mret r.2 else mret s) ≫= λ s,
  match R_Targets rule with
  | [] =>
      if allowGlobalFallback && bool_decide (NormalizeTargetScope (R_TargetScope rule) = TargetScopeGlobal) then
        loadAllAssets s ≫= λ '(l, _), each (λ out entry, poll ≫= λ _, mret (addAsset out entry)) ∅ l ≫= λ out, mret (sortedAssetsByID out)
      else mret (sortedAssetsByID ∅)
  | targets => each match_target (s, ∅) targets ≫= λ '(_, out), mret (sortedAssetsByID out)
  end.
End resolution.

Definition resolveRuleTargetAssetsContext (rule : Rule) (prefetchedAssets : option (list AlertAsset))
    (prefetchedCapabilities : option (gmap string (list string))) (allowGlobalFallback : bool) : polled (list AlertAsset) :=
  poll ≫= λ _,
  match AssetStore D with
  | None => mret []
  | Some (list_assets, get_asset) => resolve_targets list_assets get_asset prefetchedAssets prefetchedCapabilities rule allowGlobalFallback
  end.
End targets.

(** ** Results of computations that are not cut short *)

Lemma polled_bind_ok {A B} (m : polled A) (f : A → polled B) a : m.2 = Ok a → (m ≫= f).2 = (f a).2.
Proof. destruct m as [n r]. simpl. intros ->. unfold mbind, polled_bind. by destruct (f a). Qed.

Lemma polled_bind_err {A B} (m : polled A) (f : A → polled B) e : m.2 = Err e → (m ≫= f).2 = Err e.
Proof. destruct m as [n r]. simpl. by intros ->. Qed.

Lemma polled_bind_result {A B} (m : polled A) (f : A → polled B) : (m ≫= f).2 = (m.2 ≫= λ a, (f a).2).
Proof. destruct (m.2) as [a|e] eqn:Hm; [by rewrite (polled_bind_ok _ _ a)|by rewrite (polled_bind_err _ _ e)]. Qed.

Lemma poll_then {A} (f : unit → polled A) : (poll ≫= f).2 = (f tt).2.
Proof. by apply polled_bind_ok. Qed.

(** A loop keeps what each round keeps. *)
Lemma each_inv {A B} (I : list A → B → Prop) (f : B → A → polled B) b l :
  (∀ done x b, x ∈ l → I done b → ∃ b', (f b x).2 = Ok b' ∧ I (done ++ [x]) b') → I [] b → ∃ b', (each f b l).2 = Ok b' ∧ I l b'.
Proof.
  intros Hf. assert (Hg : ∀ done b, I done b → ∃ b', (each f b l).2 = Ok b' ∧ I (done ++ l) b'); [|by apply (Hg [])].
  induction l as [|x l IH]; intros done b' Hb; simpl; [exists b'; by rewrite app_nil_r|].
  destruct (Hf done x b') as (b1 & H1 & Hb1); [by left|done|]. rewrite (polled_bind_ok _ _ b1) by done.
  destruct (IH ltac:(intros ??? ?; apply Hf; by right) (done ++ [x]) b1 Hb1) as (b2 & H2 & Hb2). exists b2. by rewrite <-app_assoc in Hb2.
Qed.

(** A context that lives long enough gives the result; one that does not gives its error. *)
Lemma within_cases {A} live (m : polled A) : within live m = Err ContextEnded ∨ within live m = m.2.
Proof. unfold within. case_match; auto. Qed.

Lemma length_omap_le {A B} (f : A → option B) k : (length (omap f k) <= length k)%nat.
Proof. induction k as [|x k IH]; [done|]. csimpl. destruct (f x); simpl; lia. Qed.

(** ** What the targets of a rule are *)

Section resolved.
Context `{NumberText} (D : alert_stores) (l : list AlertAsset) (sets : option (string → option CapabilitySet)).
Context (prefetchedCapabilities : option (gmap string (list string))).

(** The stores answer from one state: the inventory [l], and the capability sets if there is a canonical store. *)
Hypothesis store_assets : AssetStore D = Some (Some l, λ id, Some (List.find (λ a : AlertAsset, bool_decide (A_ID a = id)) l)).
Hypothesis store_sets : CanonicalStore D = match sets with Some f => Some (λ id, Some (f id), λ ids : list string, Some (omap f ids)) | None => None end.
Hypothesis sets_by_id : ∀ f id set, sets = Some f → f id = Some set → CS_SubjectID set = id ∧ CS_SubjectType set = "resource".
Hypothesis ids_trimmed : ∀ a : AlertAsset, a ∈ l → trim_space (A_ID a) = A_ID a ∧ A_ID a ≠ "".
Hypothesis ids_unique : NoDup ((λ a : AlertAsset, A_ID a) <$> l).

(** The capabilities of an asset beyond those inferred from its metadata: as prefetched, else as stored. *)
Definition known_capabilities (entry : AlertAsset) : list string :=
  match default ∅ prefetchedCapabilities !! A_ID entry with
  | Some ids => ids
  | None => match sets ≫= λ f, f (A_ID entry) with Some set => CapabilityIDsFromSet set | None => [] end
  end.
Definition all_capabilities (entry : AlertAsset) : gset string :=
  token_set (normalizeSelectorToken <$> MergeCapabilityIDs [InferCapabilityIDsFromAssetMetadata entry; known_capabilities entry]).

Definition selector_selects (selector : anymap) (entry : AlertAsset) : bool :=
  match selector with
  | [] => false
  | _ =>
      forallb (λ kv : string * gany,
        let key := normalizeSelectorToken kv.1 in is_empty key || selector_clause entry (all_capabilities entry) key (selectorStringValues kv.2)) selector
  end.

(** Whether a target selects an asset: by its id, its group, or all clauses of a selector. *)
Definition target_selects (target : RuleTarget) (entry : AlertAsset) : bool :=
  let assetID := trim_space (T_AssetID target) in
  let groupID := trim_space (T_GroupID target) in
  if negb (is_empty assetID) then bool_decide (A_ID entry = assetID)
  else if negb (is_empty groupID) then equal_fold (trim_space (A_GroupID entry)) groupID
  else selector_selects (T_Selector target) entry.

Definition rule_selects (rule : Rule) (allowGlobalFallback : bool) (entry : AlertAsset) : bool :=
  match R_Targets rule with
  | [] => allowGlobalFallback && bool_decide (NormalizeTargetScope (R_TargetScope rule) = TargetScopeGlobal)
  | targets => existsb (λ target, target_selects target entry) targets
  end.

Lemma same_asset (a b : AlertAsset) : a ∈ l → b ∈ l → A_ID a = A_ID b → a = b.
Proof.
  intros Ha Hb Heq. apply list_elem_of_lookup in Ha as [i Hi]. apply list_elem_of_lookup in Hb as [j Hj].
  assert (i = j) as ->; [|congruence]. eapply (NoDup_lookup _ _ _ (A_ID a)); [exact ids_unique|by rewrite list_lookup_fmap, Hi|by rewrite list_lookup_fmap, Hj, Heq].
Qed.

(** The map of the assets of [l] that pass a test. *)
Definition picks (P : AlertAsset → bool) (out : gmap string AlertAsset) : Prop := ∀ id (a : AlertAsset), out !! id = Some a ↔ a ∈ l ∧ A_ID a = id ∧ P a = true.

Lemma picks_add P out (a : AlertAsset) : a ∈ l → picks P out → picks (λ x : AlertAsset, P x || bool_decide (A_ID x = A_ID a)) (addAsset out a).
Proof.
  intros Ha HP. destruct (ids_trimmed _ Ha) as [Htr Hne]. unfold addAsset. rewrite Htr, bool_decide_eq_false_2 by done. intros id x.
  destruct (decide (id = A_ID a)) as [->|Hid].
  - rewrite lookup_insert_eq. split.
    + intros [= <-]. rewrite bool_decide_eq_true_2 by done. by rewrite orb_true_r.
    + intros (Hx & Heq & _). f_equal. by apply same_asset.
  - rewrite lookup_insert_ne by done. rewrite (HP id x). split; intros (Hx & Heq & Hp); (split; [done|]); (split; [done|]); [by rewrite Hp|].
    apply orb_true_iff in Hp as [?|Hp%bool_decide_eq_true]; [done|congruence].
Qed.

Lemma picks_ext P Q out : (∀ a, a ∈ l → P a = Q a) → picks P out → picks Q out.
Proof. intros Heq HP id a. rewrite (HP id a). split; intros (Ha & ? & Hp); (split; [done|]); (split; [done|]); specialize (Heq _ Ha); congruence. Qed.

Lemma picks_empty : picks (λ _, false) ∅.
Proof. intros id a. rewrite lookup_empty. naive_solver. Qed.

(** A round over some assets of the inventory. *)
Lemma pick_loop (Q : AlertAsset → bool) P out k :
  (∀ a, a ∈ k → a ∈ l) → picks P out →
  ∃ out', (each (λ out (entry : AlertAsset), poll ≫= λ _, mret (if Q entry then addAsset out entry else out)) out k).2 = Ok out' ∧
    picks (λ x : AlertAsset, P x || existsb (λ a : AlertAsset, Q a && bool_decide (A_ID x = A_ID a)) k) out'.
Proof.
  intros Hk HP. apply (each_inv (λ done out, picks (λ x : AlertAsset, P x || existsb (λ a : AlertAsset, Q a && bool_decide (A_ID x = A_ID a)) done) out)).
  - intros done x b Hx Hb. rewrite poll_then. eexists. split; [done|]. destruct (Q x) eqn:HQ.
    + eapply picks_ext; [|apply picks_add; [by apply Hk|exact Hb]]. intros a _. simpl. rewrite existsb_app. simpl. rewrite HQ, orb_false_r. simpl. by rewrite orb_assoc.
    + eapply picks_ext; [|exact Hb]. intros a _. simpl. rewrite existsb_app. simpl. by rewrite HQ, !orb_false_r.
  - eapply picks_ext; [|exact HP]. intros a _. simpl. by rewrite orb_false_r.
Qed.

(** Going over the inventory picks the assets that pass the test. *)
Lemma existsb_self (Q : AlertAsset → bool) k (x : AlertAsset) : (∀ a, a ∈ k → a ∈ l) → x ∈ k → existsb (λ a : AlertAsset, Q a && bool_decide (A_ID x = A_ID a)) k = Q x.
Proof.
  intros Hk Hx. destruct (Q x) eqn:HQ.
  - apply existsb_elem. exists x. split; [done|]. by rewrite HQ, bool_decide_eq_true_2.
  - apply existsb_false_elem. intros a Ha. apply andb_false_iff. destruct (decide (A_ID x = A_ID a)) as [Heq|Hne]; [left|right; by apply bool_decide_eq_false].
    by rewrite <-(same_asset x a (Hk _ Hx) (Hk _ Ha) Heq).
Qed.

(** *** The capabilities of a batch *)

(** After the first loop over these ids. *)
Definition batch_state (ids : list string) (acc : gmap string (list string) * list string) : Prop :=
  let pre := default ∅ prefetchedCapabilities in
  (∀ id, acc.1 !! id = if decide (id ∈ ids) then Some (default [] (pre !! id)) else None) ∧
  NoDup acc.2 ∧ ∀ id, id ∈ acc.2 ↔ id ∈ ids ∧ pre !! id = None.

Lemma batch_candidate_state ids acc (x : AlertAsset) :
  x ∈ l → batch_state ids acc → ∃ acc', (batch_candidate (default ∅ prefetchedCapabilities) acc x).2 = Ok acc' ∧ batch_state (ids ++ [A_ID x]) acc'.
Proof.
  intros Hx (Hout & Hnd & Hm). destruct acc as [out missing]. simpl in *. destruct (ids_trimmed x Hx) as [Htr Hne]. unfold batch_candidate.
  rewrite Htr, bool_decide_eq_false_2 by done. rewrite Hout. set (i := A_ID x) in *.
  assert (Hins : ∀ (v : list string) id, default [] (default ∅ prefetchedCapabilities !! i) = v →
    <[i:=v]> out !! id = if decide (id ∈ ids ++ [i]) then Some (default [] (default ∅ prefetchedCapabilities !! id)) else None).
  { intros v id Hv. destruct (decide (id = i)) as [->|Hid].
    - rewrite lookup_insert_eq, decide_True by (apply elem_of_app; right; by left). by rewrite Hv.
    - rewrite lookup_insert_ne, Hout by done. destruct (decide (id ∈ ids)), (decide (id ∈ ids ++ [i])) as [Hin|Hin]; try done.
      + exfalso. apply Hin, elem_of_app. by left.
      + apply elem_of_app in Hin as [?|Hin]; [done|]. by apply list_elem_of_singleton in Hin. }
  destruct (decide (i ∈ ids)) as [Hi|Hi].
  - eexists. split; [done|]. assert (Hsame : ∀ id, id ∈ ids ++ [i] ↔ id ∈ ids).
    { intros id. rewrite elem_of_app, list_elem_of_singleton. naive_solver. }
    split; simpl; [|split; [done|]]; intros id; [|rewrite Hsame; apply Hm]. rewrite Hout. by rewrite (decide_ext _ _ _ _ (Hsame id)).
  - destruct (default ∅ prefetchedCapabilities !! i) as [known|] eqn:Hp; eexists; (split; [done|]); (split; [intros id; simpl; apply Hins; by rewrite ?Hp|]); simpl.
    + split; [done|]. intros id. rewrite Hm, elem_of_app, list_elem_of_singleton. naive_solver.
    + split; [|intros id; rewrite !elem_of_app, !list_elem_of_singleton, Hm; naive_solver]. apply NoDup_app. split; [done|]. split; [|apply NoDup_singleton].
      intros id Hin He%list_elem_of_singleton. subst id. by apply Hm in Hin as [? _].
Qed.

(** After the loop over the sets of some of the missing ids. *)
Lemma batch_sets_state f missing out remaining :
  sets = Some f → NoDup missing → (∀ id, id ∈ missing → id ∈ remaining) →
  ∃ acc, (each batch_set (out, remaining) (omap f missing)).2 = Ok acc ∧
    ∀ id, acc.1 !! id = if decide (id ∈ missing) then match f id with Some set => Some (CapabilityIDsFromSet set) | None => out !! id end else out !! id.
Proof.
  intros Hf. revert out remaining. induction missing as [|i missing IH]; intros out remaining Hnd Hr; simpl; [by exists (out, remaining)|].
  apply NoDup_cons in Hnd as [Hi Hnd]. assert (Hrest : ∀ id, id ∈ missing → id ∈ remaining ∖ {[i]}).
  { intros id Hid. apply elem_of_difference. split; [apply Hr; by right|]. intros He%elem_of_singleton. by subst. }
  destruct (f i) as [set|] eqn:Hfi; simpl.
  - destruct (sets_by_id _ _ _ Hf Hfi) as [Hs Ht]. 
    assert (Hone : (batch_set (out, remaining) set).2 = Ok (<[i:=CapabilityIDsFromSet set]> out, remaining ∖ {[i]})).
    { unfold batch_set. rewrite poll_then, Hs, Ht. rewrite (bool_decide_eq_true_2 (i ∈ remaining)) by (apply Hr; by left). by rewrite bool_decide_eq_true_2. }
    rewrite (polled_bind_ok _ _ _ Hone).
    destruct (IH (<[i:=CapabilityIDsFromSet set]> out) (remaining ∖ {[i]}) Hnd Hrest) as (acc & Hacc & Hall). exists acc. split; [done|].
    intros id. rewrite Hall. destruct (decide (id = i)) as [->|Hid].
    + rewrite (decide_False (P := i ∈ missing)), decide_True by (done || by left). by rewrite lookup_insert_eq, Hfi.
    + rewrite lookup_insert_ne by done. destruct (decide (id ∈ missing)), (decide (id ∈ i :: missing)) as [Hin|Hin]; try done.
      * exfalso. apply Hin. by right.
      * by apply elem_of_cons in Hin as [?|?].
  - destruct (IH out remaining Hnd ltac:(intros; apply Hr; by right)) as (acc & Hacc & Hall). exists acc. split; [done|]. intros id. rewrite Hall.
    destruct (decide (id = i)) as [->|Hid].
    + rewrite (decide_False (P := i ∈ missing)), decide_True by (done || by left). by rewrite Hfi.
    + destruct (decide (id ∈ missing)), (decide (id ∈ i :: missing)) as [Hin|Hin]; try done.
      * exfalso. apply Hin. by right.
      * by apply elem_of_cons in Hin as [?|?].
Qed.

Lemma batch_known (k : list AlertAsset) :
  (length k <= AlertCapabilityBatchSize)%nat → (∀ a, a ∈ k → a ∈ l) →
  ∃ known, (alertCapabilityBatchContext D k (default ∅ prefetchedCapabilities)).2 = Ok known ∧ ∀ a : AlertAsset, a ∈ k → known !! A_ID a = Some (known_capabilities a).
Proof.
  intros Hlen Hk. unfold alertCapabilityBatchContext. rewrite poll_then. rewrite (proj2 (Nat.ltb_ge _ _)) by done.
  destruct (each_inv (λ (done : list AlertAsset) acc, batch_state ((λ a : AlertAsset, A_ID a) <$> done) acc)
    (batch_candidate (default ∅ prefetchedCapabilities)) (∅, []) k) as ([out missing] & Hacc & Hout & Hnd & Hm).
  { intros done x b Hx Hb. destruct (batch_candidate_state _ _ x (Hk _ Hx) Hb) as (b' & ? & Hb'). exists b'. split; [done|]. by rewrite fmap_app. }
  { split; [|split; [apply NoDup_nil_2|]]; intros id; [by rewrite decide_False by apply not_elem_of_nil|]. split; [by intros ?%not_elem_of_nil|by intros [?%not_elem_of_nil _]]. }
  rewrite (polled_bind_ok _ _ _ Hacc). simpl in *.
  assert (Hin : ∀ a : AlertAsset, a ∈ k → A_ID a ∈ (λ a : AlertAsset, A_ID a) <$> k) by (intros a Ha; by apply (list_elem_of_fmap_2 (λ a : AlertAsset, A_ID a))).
  assert (Hdone : ∀ known : gmap string (list string), (∀ id, known !! id = match (if decide (id ∈ missing) then sets ≫= λ f, f id else None) with
      Some set => Some (CapabilityIDsFromSet set) | None => out !! id end) → ∀ a : AlertAsset, a ∈ k → known !! A_ID a = Some (known_capabilities a)).
  { intros known Hkn a Ha. pose proof (Hout (A_ID a)) as Ho. rewrite decide_True in Ho by (by apply Hin). rewrite Hkn, Ho. unfold known_capabilities.
    destruct (default ∅ prefetchedCapabilities !! A_ID a) as [ids|] eqn:Hp.
    - rewrite decide_False; [done|]. intros [_ Hn]%Hm. congruence.
    - rewrite decide_True by (apply Hm; split; [by apply Hin|done]). by destruct (sets ≫= _). }
  assert (Hcase : (∃ f, sets = Some f) ∨ sets = None) by (case_eq sets; eauto). destruct Hcase as [[f Hf]|Hf]; rewrite store_sets, Hf; rewrite Hf in Hdone.
  - destruct missing as [|i missing]; [exists out; split; [done|]; apply Hdone; intros id; by rewrite decide_False by apply not_elem_of_nil|].
    set (ms := i :: missing) in *. simpl answer. rewrite (polled_bind_ok _ _ (omap f ms)) by done.
    assert (Hle : (length (omap f ms) <= length ms)%nat) by apply length_omap_le.
    rewrite (proj2 (Nat.ltb_ge _ _)) by done.
    destruct (batch_sets_state f ms out (list_to_set ms) Hf Hnd) as ([known rem] & Hs & Hkn); [by intros; apply elem_of_list_to_set|].
    rewrite (polled_bind_ok _ _ _ Hs). exists known. split; [done|]. apply Hdone. intros id. rewrite Hkn. simpl. by destruct (decide (id ∈ ms)).
  - exists out. split; [by destruct missing|]. apply Hdone. intros id. by destruct (decide (id ∈ missing)).
Qed.

Lemma capabilities_known known (a : AlertAsset) : a ∈ l → known !! A_ID a = Some (known_capabilities a) → assetCapabilitySetWithPrefetch D a (Some known) = all_capabilities a.
Proof. intros Ha Hk. destruct (ids_trimmed a Ha) as [Htr _]. unfold assetCapabilitySetWithPrefetch, all_capabilities. by rewrite Htr, Hk. Qed.

Lemma clause_capabilities entry c c' key expected :
  key ∉ ["capability"; "capabilities_any"; "capabilities_all"] → selector_clause entry c key expected = selector_clause entry c' key expected.
Proof.
  intros Hk. unfold selector_clause. destruct (bool_decide (key ∈ _)); [done|]. do 2 (destruct (bool_decide (key = _)); [done|]).
  rewrite (bool_decide_eq_false_2 (key ∈ ["capability"; "capabilities_any"])) by (intros ?; apply Hk; set_solver).
  by rewrite (bool_decide_eq_false_2 (key = "capabilities_all")) by (intros ?; apply Hk; set_solver).
Qed.

Lemma forallb_same {A} (f g : A → bool) k : (∀ x, x ∈ k → f x = g x) → forallb f k = forallb g k.
Proof. induction k as [|x k IH]; intros Heq; [done|]. simpl. rewrite (Heq x) by (by left). f_equal. apply IH. intros y Hy. apply Heq. by right. Qed.

Lemma matches_selects selector capabilities (a : AlertAsset) :
  (selectorNeedsAlertCapabilities selector = true → assetCapabilitySetWithPrefetch D a capabilities = all_capabilities a) →
  assetMatchesRuleSelectorWithCapabilities D a selector capabilities = selector_selects selector a.
Proof.
  intros Hc. unfold assetMatchesRuleSelectorWithCapabilities, selector_selects. destruct selector as [|kv0 rest]; [done|].
  apply forallb_same. intros kv Hkv. destruct (selectorNeedsAlertCapabilities (kv0 :: rest)) eqn:Hn; [by rewrite Hc|]. f_equal.
  apply clause_capabilities. unfold selectorNeedsAlertCapabilities in Hn. rewrite existsb_false_elem in Hn. specialize (Hn _ Hkv). by apply bool_decide_eq_false in Hn.
Qed.

Lemma match_batch_picks selector P out (k : list AlertAsset) :
  (length k <= AlertCapabilityBatchSize)%nat → (∀ a, a ∈ k → a ∈ l) → picks P out →
  ∃ out', (match_batch D prefetchedCapabilities selector out k).2 = Ok out' ∧
    picks (λ x : AlertAsset, P x || existsb (λ a : AlertAsset, selector_selects selector a && bool_decide (A_ID x = A_ID a)) k) out'.
Proof.
  intros Hlen Hk HP. unfold match_batch.
  set (m := if selectorNeedsAlertCapabilities selector then _ else _). assert (Hcap : ∃ capabilities, m.2 = Ok capabilities ∧
    ∀ a, a ∈ k → assetMatchesRuleSelectorWithCapabilities D a selector capabilities = selector_selects selector a).
  { unfold m. destruct (selectorNeedsAlertCapabilities selector) eqn:Hn.
    - destruct (batch_known k Hlen Hk) as (known & Hok & Hkn). exists (Some known). rewrite (polled_bind_ok _ _ _ Hok). split; [done|].
      intros a Ha. apply matches_selects. intros _. apply capabilities_known; auto.
    - exists prefetchedCapabilities. split; [done|]. intros a Ha. apply matches_selects. by rewrite Hn. }
  destruct Hcap as (capabilities & Hok & Hsel). rewrite (polled_bind_ok _ _ _ Hok).
  destruct (pick_loop (λ a, assetMatchesRuleSelectorWithCapabilities D a selector capabilities) P out k Hk HP) as (out' & Hout & Hp).
  exists out'. split; [done|]. eapply picks_ext; [|exact Hp]. intros x _. simpl. f_equal. clear -Hsel. induction k as [|y k IH]; [done|]. simpl.
  rewrite Hsel by (by left). f_equal. apply IH. intros a Ha. apply Hsel. by right.
Qed.

Lemma batches_spec n (k : list AlertAsset) : (length k <= n)%nat → concat (batches n k) = k ∧ ∀ b, b ∈ batches n k → (length b <= AlertCapabilityBatchSize)%nat.
Proof.
  revert k. induction n as [|n IH]; intros [|x k] Hk; try (split; [done|by intros ? ?%not_elem_of_nil]); [simpl in Hk; lia|].
  change (batches (S n) (x :: k)) with (take AlertCapabilityBatchSize (x :: k) :: batches n (drop AlertCapabilityBatchSize (x :: k))). cbn [concat].
  destruct (IH (drop AlertCapabilityBatchSize (x :: k))) as [Hc Hl]; [rewrite length_drop; simpl in *; unfold AlertCapabilityBatchSize; lia|].
  split.
  - rewrite Hc. apply (take_drop AlertCapabilityBatchSize (x :: k)).
  - intros b [->|Hb]%elem_of_cons; [rewrite length_take; lia|by apply Hl].
Qed.

Section with_prefetch.
Context (prefetchedAssets : option (list AlertAsset)).
Hypothesis prefetch_complete : prefetchedAssets = None ∨ prefetchedAssets = Some l.

Definition good_snapshot (s : snapshot) : Prop :=
  (allAssets s = None ∨ allAssets s = Some l) ∧
  ∀ i e, explicitAssets s !! i = Some (Some e) → e ∈ l ∧ A_ID (AA_Asset e) = i.

Lemma load_good s : good_snapshot s → ∃ s', (loadAllAssets (Some l) prefetchedAssets s).2 = Ok (l, s') ∧ good_snapshot s'.
Proof.
  intros [Hall Hexp]. unfold loadAllAssets. rewrite poll_then. destruct Hall as [Ha|Ha]; rewrite Ha; [|exists s; split; [done|]; by split; [right|]].
  rewrite (polled_bind_ok _ _ l) by (by destruct prefetch_complete as [Hpre|Hpre]; rewrite Hpre).
  set (m := if bool_decide (explicitAssets s = ∅) then _ else _).
  assert (Hm : ∃ ix, m.2 = Ok ix ∧ ∀ i e, ix !! i = Some (Some e) → e ∈ l ∧ A_ID (AA_Asset e) = i).
  { unfold m. case_bool_decide; [by exists (explicitAssets s)|].
    apply (each_inv (λ _ ix, ∀ i e, ix !! i = Some (Some e) → e ∈ l ∧ A_ID (AA_Asset e) = i)); [|done].
    intros done x ix Hx Hix. rewrite poll_then. eexists. split; [done|]. destruct (ids_trimmed x Hx) as [-> _].
    destruct (ix !! A_ID x); [|done]. intros i e [[<- [= <-]]|[_ ?]]%lookup_insert_Some; [done|by apply Hix]. }
  destruct Hm as (ix & Hok & Hix). rewrite (polled_bind_ok _ _ _ Hok). eexists. split; [done|]. split; [by right|done].
Qed.

Lemma match_target_good target P s out :
  good_snapshot s → picks P out →
  ∃ s' out', (match_target D (Some l) (λ id, Some (List.find (λ a : AlertAsset, bool_decide (A_ID a = id)) l)) prefetchedAssets prefetchedCapabilities (s, out) target).2
      = Ok (s', out') ∧ good_snapshot s' ∧ picks (λ x, P x || target_selects target x) out'.
Proof.
  intros Hs HP. unfold match_target. rewrite poll_then. cbv zeta.
  destruct (bool_decide (trim_space (T_AssetID target) = "")) eqn:Hid; simpl; [destruct (bool_decide (trim_space (T_GroupID target) = "")) eqn:Hg; simpl|].
  - destruct (T_Selector target) as [|kv rest] eqn:Hsel.
    { exists s, out. split; [done|]. split; [done|]. eapply picks_ext; [|done]. intros a _. unfold target_selects. rewrite Hid, Hg, Hsel. simpl. by rewrite orb_false_r. }
    destruct (load_good s Hs) as (s' & Hload & Hs'). rewrite (polled_bind_ok _ _ _ Hload). destruct (batches_spec (length l) l) as [Hcat Hlen]; [lia|].
    assert (Hsub : ∀ b, b ∈ batches (length l) l → ∀ a, a ∈ b → a ∈ l).
    { intros b Hb a Ha. rewrite <-Hcat. apply list_elem_of_In, in_concat. exists b. by rewrite <-!list_elem_of_In. }
    destruct (each_inv (λ done out, picks (λ x : AlertAsset, P x || existsb (λ a : AlertAsset, selector_selects (kv :: rest) a && bool_decide (A_ID x = A_ID a)) (concat done)) out)
      (match_batch D prefetchedCapabilities (kv :: rest)) out (batches (length l) l)) as (out' & Hok & Hp).
    { intros done k b Hk Hb. destruct (match_batch_picks (kv :: rest) _ b k (Hlen _ Hk) (Hsub _ Hk) Hb) as (b' & ? & Hb'). exists b'. split; [done|].
      eapply picks_ext; [|exact Hb']. intros a _. simpl. by rewrite concat_app, existsb_app, orb_assoc; simpl; rewrite app_nil_r. }
    { eapply picks_ext; [|exact HP]. intros a _. simpl. by rewrite orb_false_r. }
    rewrite (polled_bind_ok _ _ _ Hok). exists s', out'. split; [done|]. split; [done|]. eapply picks_ext; [|exact Hp]. intros a Ha. simpl. rewrite Hcat.
    rewrite existsb_self by done. unfold target_selects. by rewrite Hid, Hg, Hsel.
  - destruct (load_good s Hs) as (s' & Hload & Hs'). rewrite (polled_bind_ok _ _ _ Hload).
    destruct (pick_loop (λ a, equal_fold (trim_space (A_GroupID a)) (trim_space (T_GroupID target))) P out l ltac:(done) HP) as (out' & Hok & Hp).
    rewrite (polled_bind_ok _ _ _ Hok). exists s', out'. split; [done|]. split; [done|]. eapply picks_ext; [|exact Hp]. intros a Ha. simpl.
    rewrite existsb_self by done. unfold target_selects. by rewrite Hid, Hg.
  - set (i := trim_space (T_AssetID target)) in *.
    assert (Hsel : ∀ a : AlertAsset, target_selects target a = bool_decide (A_ID a = i)) by (intros a; unfold target_selects; cbv zeta; fold i; by rewrite Hid).
    assert (Hadd : ∀ e : AlertAsset, e ∈ l → A_ID e = i → picks (λ x, P x || target_selects target x) (addAsset out e)).
    { intros e He Hi. eapply picks_ext; [|by apply picks_add]. intros a _. simpl. by rewrite Hsel, Hi. }
    destruct (explicitAssets s !! i) as [[e|]|] eqn:He; [destruct (proj2 Hs _ _ He); exists s, (addAsset out e); split; [done|]; split; [done|]; by apply Hadd|..];
      (destruct (List.find (λ a : AlertAsset, bool_decide (A_ID a = i)) l) as [e|] eqn:Hf;
       [apply find_Some_elem in Hf as [Hin Heq%bool_decide_eq_true]; exists s, (addAsset out e); split; [done|]; split; [done|]; by apply Hadd|];
       exists s, out; split; [done|]; split; [done|]; eapply picks_ext; [|exact HP]; intros a Ha; simpl; rewrite Hsel;
       rewrite find_None_elem in Hf; by rewrite (Hf _ Ha), orb_false_r).
Qed.

Lemma sorted_assets P out :
  picks P out → (λ a : AlertAsset, A_ID a) <$> sortedAssetsByID out = merge_sort String.le (elements (dom out)) ∧
    ∀ a, a ∈ sortedAssetsByID out ↔ a ∈ l ∧ P a = true.
Proof.
  intros HP. unfold sortedAssetsByID. split.
  - assert (Hk : ∀ k, k ∈ merge_sort String.le (elements (dom out)) → is_Some (out !! k)).
    { intros k. rewrite merge_sort_Permutation, elem_of_elements. apply elem_of_dom. }
    induction (merge_sort String.le (elements (dom out))) as [|k ks IH]; [done|]. csimpl. destruct (Hk k) as [a Ha]; [by left|]. rewrite Ha. csimpl.
    f_equal; [by apply (HP k a) in Ha as (_ & ? & _)|]. apply IH. intros k' Hk'. apply Hk. by right.
  - intros a. rewrite list_elem_of_omap. setoid_rewrite merge_sort_Permutation. setoid_rewrite elem_of_elements. split.
    + intros (k & _ & Ha). apply (HP k a) in Ha as (? & _ & ?). done.
    + intros [Ha Hp]. exists (A_ID a). assert (Hl : out !! A_ID a = Some a) by (by apply (HP (A_ID a) a)). split; [by apply elem_of_dom|done].
Qed.

Lemma resolve_picks rule allowGlobalFallback :
  ∃ out, (resolveRuleTargetAssetsContext D rule prefetchedAssets prefetchedCapabilities allowGlobalFallback).2 = Ok (sortedAssetsByID out) ∧
    picks (rule_selects rule allowGlobalFallback) out.
Proof.
  unfold resolveRuleTargetAssetsContext. rewrite poll_then, store_assets. unfold resolve_targets.
  destruct (each_inv (λ _ ix, ∀ i e, ix !! i = Some (Some e) → e ∈ l ∧ A_ID (AA_Asset e) = i) explicit_ids ∅ (R_Targets rule)) as (ix & Hix & Hgood).
  { intros done x ix _ Hix. unfold explicit_ids. rewrite poll_then. eexists. split; [done|]. case_bool_decide; [done|].
    intros i e [[_ ?]|[_ ?]]%lookup_insert_Some; [done|by apply Hix]. }
  { intros i e He. by rewrite lookup_empty in He. }
  rewrite (polled_bind_ok _ _ _ Hix). cbv zeta. set (s0 := MkSnapshot None ix). assert (Hs0 : good_snapshot s0) by (split; [by left|done]).
  set (m := if _ || _ then _ else _). assert (Hm : ∃ s, m.2 = Ok s ∧ good_snapshot s).
  { unfold m. destruct (_ || _); [|by exists s0]. destruct (load_good s0 Hs0) as (s & Hl & Hs). exists s. by rewrite (polled_bind_ok _ _ _ Hl). }
  destruct Hm as (s & Hok & Hs). rewrite (polled_bind_ok _ _ _ Hok). unfold rule_selects. destruct (R_Targets rule) as [|t ts] eqn:Ht.
  - destruct (allowGlobalFallback && _); [|exists ∅; split; [done|apply picks_empty]].
    destruct (load_good s Hs) as (s' & Hl & Hs'). rewrite (polled_bind_ok _ _ _ Hl).
    destruct (pick_loop (λ _, true) (λ _, false) ∅ l ltac:(done) picks_empty) as (out & Hout & Hp). simpl in Hout. rewrite (polled_bind_ok _ _ _ Hout).
    exists out. split; [done|]. eapply picks_ext; [|exact Hp]. intros a Ha. apply (existsb_self (λ _, true)); done.
  - rewrite <-Ht. destruct (each_inv (λ done acc, good_snapshot acc.1 ∧ picks (λ x : AlertAsset, existsb (λ target, target_selects target x) done) acc.2)
      (match_target D (Some l) (λ id, Some (List.find (λ a : AlertAsset, bool_decide (A_ID a = id)) l)) prefetchedAssets prefetchedCapabilities) (s, ∅) (R_Targets rule))
      as ([s' out] & Hout & _ & Hp).
    { intros done x [s1 out1] _ [Hs1 Hp1]. simpl in *. destruct (match_target_good x _ s1 out1 Hs1 Hp1) as (s2 & out2 & Hok2 & Hs2 & Hp2).
      exists (s2, out2). split; [done|]. split; [done|]. eapply picks_ext; [|exact Hp2]. intros a _. simpl. by rewrite existsb_app; simpl; rewrite orb_false_r. }
    { split; [done|apply picks_empty]. }
    rewrite (polled_bind_ok _ _ _ Hout). by exists out.
Qed.
End with_prefetch.
End resolved.

(** The stores answer from one state: an inventory with unique, trimmed ids and, when there is a canonical store, its
    capability sets by the id of their resource. *)
Record answers_from (D : alert_stores) (l : list AlertAsset) (sets : option (string → option CapabilitySet)) : Prop := {
  af_assets : AssetStore D = Some (Some l, λ id, Some (List.find (λ a : AlertAsset, bool_decide (A_ID a = id)) l));
  af_sets : CanonicalStore D = match sets with Some f => Some (λ id, Some (f id), λ ids : list string, Some (omap f ids)) | None => None end;
  af_by_id f id set : sets = Some f → f id = Some set → CS_SubjectID set = id ∧ CS_SubjectType set = "resource";
  af_trimmed (a : AlertAsset) : a ∈ l → trim_space (A_ID a) = A_ID a ∧ A_ID a ≠ "";
  af_unique : NoDup ((λ a : AlertAsset, A_ID a) <$> l) }.

(** C26: the targets of a rule resolve to exactly the assets that one of them selects (all assets for an explicit global rule without
    targets), each once and in the order of the ids, with or without a prefetched inventory, for any size of the
    inventory: reading capabilities in batches of 128 loses and invents none, and what was prefetched is not read again. The only other
    outcome is the error of a context that ends before the last of its polls. *)
Theorem rule_targets_exact `{NumberText} D l sets prefetchedAssets prefetchedCapabilities rule allowGlobalFallback :
  answers_from D l sets → prefetchedAssets = None ∨ prefetchedAssets = Some l →
  ∃ polls out,
    StronglySorted String.le ((λ a : AlertAsset, A_ID a) <$> out) ∧ NoDup ((λ a : AlertAsset, A_ID a) <$> out) ∧
    (∀ a, a ∈ out ↔ a ∈ l ∧ rule_selects sets prefetchedCapabilities rule allowGlobalFallback a = true) ∧
    ∀ live, within live (resolveRuleTargetAssetsContext D rule prefetchedAssets prefetchedCapabilities allowGlobalFallback) =
      if (live <? polls)%nat then Err ContextEnded else Ok out.
Proof.
  intros [Ha Hs Hb Ht Hu] Hp.
  destruct (resolve_picks D l sets prefetchedCapabilities Ha Hs Hb Ht Hu prefetchedAssets Hp rule allowGlobalFallback) as (out & Hok & Hpicks).
  destruct (sorted_assets _ _ _ Hpicks) as [Hids Hin]. eexists _, (sortedAssetsByID out). rewrite Hids.
  split; [apply StronglySorted_merge_sort; apply _|]. split; [rewrite merge_sort_Permutation; apply NoDup_elements|]. split; [done|].
  intros live. unfold within. by rewrite Hok.
Qed.

(** ** Witness *)

#[local] Instance demo_number_text : NumberText := λ s, s.

Definition demo_row (id kind group : string) (caps : list (string * string)) : AlertAsset :=
  MkAlertAsset {| A_ID := id; A_Type := ""; A_Name := id; A_Source := "agent"; A_GroupID := group; A_Status := "online"; A_Platform := "linux";
    A_Metadata := list_to_map caps; A_CreatedAt := 0; A_UpdatedAt := 0; A_LastSeenAt := 0 |} kind "" [("disks", AList [AMap [("Type", AStr "SSD")]])].
Definition demo_inventory : list AlertAsset :=
  [demo_row "nas" "Storage_Pool" "rack-2" [("cap_services", "list")]; demo_row "db" "vm" "Rack-1" [("cap_logs", "Query, stream")]; demo_row "web" "vm" "" []].
Definition demo_sets (id : string) : option CapabilitySet := if decide (id = "web") then Some (MkCapabilitySet "resource" "web" [" Logs.Query "]) else None.
Definition demo_stores : alert_stores :=
  MkAlertStores (Some (Some demo_inventory, λ id, Some (List.find (λ a : AlertAsset, bool_decide (A_ID a = id)) demo_inventory)))
    (Some (λ id, Some (demo_sets id), λ ids : list string, Some (omap demo_sets ids))).
Definition demo_target (asset group : string) (selector : anymap) : RuleTarget :=
  {| T_ID := ""; T_RuleID := ""; T_AssetID := asset; T_GroupID := group; T_Selector := selector; T_CreatedAt := 0 |}.
Definition demo_target_rule (targets : list RuleTarget) : Rule := {|
  R_ID := "r1"; R_Name := ""; R_Description := ""; R_Status := "active"; R_Kind := "heartbeat_stale"; R_Severity := "high"; R_TargetScope := "asset";
  R_CooldownSeconds := 0; R_ReopenAfterSeconds := 0; R_EvaluationIntervalSeconds := 30; R_WindowSeconds := 300; R_Condition := []; R_Labels := ∅; R_Metadata := ∅;
  R_Targets := targets; R_CreatedBy := ""; R_CreatedAt := 0; R_UpdatedAt := 0; R_LastEvaluatedAt := None; R_LastAutoAttemptAt := None |}.
Definition demo_selector_rule : Rule :=
  demo_target_rule [demo_target "" "" [("capability", AStr "logs.query, x"); ("resource_kind", AStr "VM")]; demo_target "" "RACK-2 " []].

Lemma demo_answers : answers_from demo_stores demo_inventory (Some demo_sets).
Proof.
  split; [done..| | |].
  - intros f id set [= <-] Hs. unfold demo_sets in Hs. case_decide; [|done]. subst. by injection Hs as <-.
  - intros a Ha. repeat (apply elem_of_cons in Ha as [->|Ha]; [by vm_compute|]). by apply not_elem_of_nil in Ha.
  - apply (bool_decide_eq_true_1 (NoDup _)). by vm_compute.
Qed.

Lemma rule_targets_exact_witness :
  (λ a : AlertAsset, A_ID a) <$> default [] (match within 99 (resolveRuleTargetAssetsContext demo_stores demo_selector_rule None None true) with Ok l => Some l | Err _ => None end)
    = ["db"; "nas"; "web"] ∧
  ∃ polls out, ∀ live, within live (resolveRuleTargetAssetsContext demo_stores demo_selector_rule None None true) = if (live <? polls)%nat then Err ContextEnded else Ok out.
Proof.
  split; [by vm_compute|]. destruct (rule_targets_exact demo_stores demo_inventory (Some demo_sets) None None demo_selector_rule true demo_answers) as (polls & out & _ & _ & _ & Hw);
    [by left|]. by exists polls, out.
Defined.
