(* ===== verification/AlertConditions.v ===== *)
(** * The conditions of alert rules

    When a condition is triggered, and which assets, groups and checks are its witnesses
    ([internal/hubapi/alerting/alert_evaluator_checks.go], [alert_evaluator_logs.go], [alert_condition_*.go],
    [alert_staleness_condition.go], [alert_metric_condition.go], [alert_synthetic_condition.go], and the dispatch on the kind
    of a rule in [alert_evaluator.go]).

    A [float64] is a [spec_float] of 53 bits; its arithmetic is that of IEEE 754. What the telemetry, log and synthetic stores answer is an argument. *)

From Stdlib Require Import SpecFloat.
From S2P Require Import Prelude GoStrings Alerts AlertInstances Assets AlertTargets.

(** ** Numbers *)

Abbreviation f64 := spec_float (only parsing).
Definition f64_of_int (n : Z) : f64 := binary_normalize 53 1024 n 0 false.
Definition f64_add (x y : f64) : f64 := SFadd 53 1024 x y.
Definition f64_div (x y : f64) : f64 := SFdiv 53 1024 x y.
Definition f64_lt (x y : f64) : bool := SFltb x y.
Definition f64_le (x y : f64) : bool := SFleb x y.
Definition f64_eq (x y : f64) : bool := SFeqb x y.

(** [strconv.ParseFloat(s, 64)], and the conversion of a number beyond the range of [int], which is up to the machine *)
Class GoFloat := { ParseFloat : string → option f64; int_overflow : f64 → Z }.

Definition finiteFloat64 (value : f64) : option f64 := match value with S754_nan | S754_infinity _ => None | _ => Some value end.

(** The integer part and whether there is no other ([math.Trunc(value) == value]). *)
Definition f64_trunc (value : f64) : Z :=
  match value with
  | S754_finite s m e =>
      let n := if 0 <=? e then Z.pos m * 2 ^ e else Z.pos m / 2 ^ (- e) in if s then - n else n
  | _ => 0
  end.
Definition f64_whole (value : f64) : bool :=
  match value with S754_finite s m e => if 0 <=? e then true else Z.pos m mod 2 ^ (- e) =? 0 | S754_zero _ => true | _ => false end.

Section conditions.
Context `{NumberText} `{GoFloat}.

Definition f64_to_int (value : f64) : Z :=
  let n := f64_trunc value in if (- 2 ^ 63 <=? n) && (n <? 2 ^ 63) then n else int_overflow value.

(** A number of a condition is a [float64] from JSON, or a text. *)
Definition toFloat64 (v : gany) : option f64 :=
  match v with
  | ANum literal => ParseFloat literal ≫= finiteFloat64
  | AStr s => ParseFloat (trim_space s) ≫= finiteFloat64
  | _ => None
  end.

Definition condition_text (condition : anymap) (key : string) : string := match any_lookup key condition with Some (AStr s) => s | _ => "" end.

Definition conditionStringMap (raw : option gany) : gmap string string :=
  match raw with
  | Some (AMap m) =>
      foldl (λ (out : gmap string string) (kv : string * gany),
        let normalizedKey := trim_space kv.1 in
        if is_empty normalizedKey then out
        else match kv.2 with
             | AStr s => let normalizedValue := trim_space s in if is_empty normalizedValue then out else <[normalizedKey := normalizedValue]> out
             | _ => out
             end) ∅ m
  | _ => ∅
  end.

(** [uniqueAlertAssetIDs] *)
Fixpoint unique_ids (seen : gset string) (l : list AlertAsset) : list string :=
  match l with
  | [] => []
  | a :: l => let id := trim_space (A_ID a) in
      if is_empty id || bool_decide (id ∈ seen) then unique_ids seen l else id :: unique_ids ({[id]} ∪ seen) l
  end.
Definition uniqueAlertAssetIDs (l : list AlertAsset) : list string := unique_ids ∅ l.

Definition aggregatePoints (points : list f64) (agg : string) : f64 :=
  match points with
  | [] => f64_of_int 0
  | p :: rest =>
      if bool_decide (agg = "max") then foldl (λ m p, if f64_lt m p then p else m) p rest
      else if bool_decide (agg = "min") then foldl (λ m p, if f64_lt p m then p else m) p rest
      else
        let sum := foldl f64_add (f64_of_int 0) points in
        if bool_decide (agg = "sum") then sum else f64_div sum (f64_of_int (Z.of_nat (length points)))
  end.

Definition compareThreshold (value : f64) (operator : string) (threshold : f64) : bool :=
  if bool_decide (operator = ">=") then f64_le threshold value
  else if bool_decide (operator = "<") then f64_lt value threshold
  else if bool_decide (operator = "<=") then f64_le value threshold
  else if bool_decide (operator = "==") then f64_eq value threshold
  else f64_lt threshold value.

Definition metricThresholdValue (condition : anymap) : option f64 :=
  match any_lookup "value" condition, any_lookup "threshold" condition with
  | None, None => None
  | Some v, None => toFloat64 v
  | None, Some legacy => toFloat64 legacy
  | Some v, Some legacy => t ← toFloat64 v; parsed ← toFloat64 legacy; if negb (f64_eq t parsed) then None else Some parsed
  end.

(** The limit of the age, and the metric of a dead man's switch *)
Definition staleness_seconds (rule : Rule) (field : string) : option Z :=
  match any_lookup field (R_Condition rule) with
  | None => Some (R_WindowSeconds rule)
  | Some raw =>
      value ← toFloat64 raw;
      if f64_le value (f64_of_int 0) || negb (f64_whole value) || f64_lt (f64_of_int MaxDurationSeconds) value then None
      else Some (f64_to_int value)
  end.
Definition alertStalenessCondition (rule : Rule) : option (duration * string) :=
  let gap seconds := DurationFromSeconds seconds (DefaultWindowSeconds * Second) in
  if bool_decide (R_Kind rule = RuleKindHeartbeatStale) then
    seconds ← staleness_seconds rule "max_stale_seconds"; Some (gap seconds, "")
  else if bool_decide (R_Kind rule = RuleKindMetricDeadman) then
    seconds ← staleness_seconds rule "max_silence_seconds";
    match any_lookup "metric" (R_Condition rule) with
    | None => Some (gap seconds, "")
    | Some (AStr s) => if is_empty (trim_space s) then None else Some (gap seconds, trim_space s)
    | Some _ => None
    end
  else Some (0, "").

Definition maxSyntheticConsecutiveFailures : Z := 500.
Definition syntheticFailureCount (condition : anymap) : option Z :=
  match any_lookup "consecutive_failures" condition with
  | None => Some 3
  | Some raw =>
      value ← toFloat64 raw;
      if f64_lt value (f64_of_int 1) || f64_lt (f64_of_int maxSyntheticConsecutiveFailures) value || negb (f64_whole value) then None
      else Some (f64_to_int value)
  end.

(** ** Outcomes *)

Record alertConditionOutcome := MkOutcome { Triggered : bool; Scope : FiringScope }.
Definition empty_scope : FiringScope := {| Version := 1; AssetIDs := []; GroupIDs := []; SyntheticCheckIDs := [] |}.
Definition newAlertConditionOutcome : alertConditionOutcome := MkOutcome false empty_scope.

Definition non_blank (id : string) : list string := if is_empty id then [] else [id].
Definition extend_scope (s : FiringScope) (assetIDs groupIDs checkIDs : list string) : FiringScope :=
  {| Version := Version s; AssetIDs := AssetIDs s ++ assetIDs; GroupIDs := GroupIDs s ++ groupIDs; SyntheticCheckIDs := SyntheticCheckIDs s ++ checkIDs |}.

Definition witnessAsset (asset : AlertAsset) (o : alertConditionOutcome) : alertConditionOutcome :=
  MkOutcome true (extend_scope (Scope o) (non_blank (A_ID asset)) (non_blank (A_GroupID asset)) []).

Definition includeScope (scope : option FiringScope) (o : alertConditionOutcome) : alertConditionOutcome :=
  match scope with
  | None => o
  | Some scope =>
      match NormalizeFiringScope scope with
      | Err _ => o
      | Ok n => MkOutcome (Triggered o) (extend_scope (Scope o) (AssetIDs n) (GroupIDs n) (SyntheticCheckIDs n))
      end
  end.

(** [result()] *)
Definition outcome_result (o : alertConditionOutcome) : polled alertConditionOutcome :=
  match NormalizeFiringScope (Scope o) with Ok n => mret (MkOutcome (Triggered o) n) | Err e => fail (BadScope e) end.

(** ** What the stores answer *)

Record log_event := MkEvent { LE_AssetID : string; LE_Message : string; LE_Fields : gmap string string }.
Record log_query := MkQuery {
  LQ_GroupAssetIDs : list string; LQ_From : time; LQ_To : time; LQ_Source : string; LQ_Level : string; LQ_Limit : Z; LQ_ExcludeFields : bool }.
Record SyntheticCheck := MkCheck { SY_ID : string; SY_ServiceID : string }.
Record SyntheticResult := MkResult { SR_CheckID : string; SR_Status : string }.

Record telemetry_store := MkTelemetry {
  MetricSeriesBatch : list string → string → time → time → Z → option (gmap string (list f64));
  AssetsWithMetricSamples : list string → string → time → time → option (gset string);
  HasTelemetrySamples : list string → time → time → option (gset string) }.

(** [None] inside an answer is an error; a store that is missing is [None]. [LookupAsset] and [ResolveService] are the optional
    reads of an asset, [None] when they fail or run out of their own time. *)
Record condition_env := MkConditionEnv {
  Targets : alert_stores;
  Now : time;
  TelemetryStore : option telemetry_store;
  LogStore : option (log_query → option (list log_event));
  Regexp : string → option (string → bool);
  LookupAsset : string → option AlertAsset;
  SyntheticStore : option ((string → option (option SyntheticCheck)) * (string → Z → option (list SyntheticResult)));
  ResolveService : option (string → option AlertAsset);
  FiringInstances : option (list string) → option (list AlertInstance) }.

Definition require {A} (o : option A) : polled A := match o with Some a => mret a | None => fail BadCondition end.

Section evaluation.
Context (E : condition_env).

Definition targets_of (rule : Rule) (prefetchedAssets : option (list AlertAsset)) (prefetchedCapabilities : option (gmap string (list string))) : polled (list AlertAsset) :=
  resolveRuleTargetAssetsContext (Targets E) rule prefetchedAssets prefetchedCapabilities true.

(** The loop that polls and witnesses the targets that pass a test. *)
Definition witness_all (test : AlertAsset → bool) (l : list AlertAsset) (o : alertConditionOutcome) : polled alertConditionOutcome :=
  each (λ o target, poll ≫= λ _, mret (if test target then witnessAsset target o else o)) o l.

Definition evaluateHeartbeatStaleOutcome (rule : Rule) (prefetchedAssets : option (list AlertAsset)) (prefetchedCapabilities : option (gmap string (list string))) :
    polled alertConditionOutcome :=
  require (alertStalenessCondition rule) ≫= λ '(gap, _),
  let threshold := Now E - gap in
  targets_of rule prefetchedAssets prefetchedCapabilities ≫= λ targets,
  witness_all (λ target, A_LastSeenAt target <? threshold) targets newAlertConditionOutcome ≫= outcome_result.

Definition alertMetricRawPointLimit : Z := 100000.
Definition CanonicalMetrics : list string := metric_keys.

(** The loop over the targets for one metric: the budget that is left, and the outcome. *)
Definition threshold_target (series : gmap string (list f64)) (aggregate operator : string) (threshold : f64) (acc : Z * alertConditionOutcome) (target : AlertAsset) :
    polled (Z * alertConditionOutcome) :=
  poll ≫= λ _,
  let '(remaining, o) := acc in
  let points := default [] (series !! A_ID target) in
  let n := Z.of_nat (length points) in
  if remaining <? n then fail TooManyPoints
  else mret (remaining - n,
         if (0 <? n) && compareThreshold (aggregatePoints points aggregate) operator threshold then witnessAsset target o else o).

Definition threshold_metric (store : telemetry_store) (start : time) (targets : list AlertAsset) (aggregate operator : string) (threshold : f64)
    (acc : Z * alertConditionOutcome) (name : string) : polled (Z * alertConditionOutcome) :=
  poll ≫= λ _,
  let limit := if acc.1 =? 0 then 1 else acc.1 in
  answer (MetricSeriesBatch store (uniqueAlertAssetIDs targets) name start (Now E) limit) ≫= λ series,
  each (threshold_target series aggregate operator threshold) acc targets.

Definition threshold_metrics (rule : Rule) : list string :=
  let metric := condition_text (R_Condition rule) "metric" in if is_empty metric then CanonicalMetrics else [metric].
Definition threshold_operator (rule : Rule) : string := default_str (condition_text (R_Condition rule) "operator") ">".

Definition evaluateMetricThresholdOutcome (rule : Rule) (prefetchedAssets : option (list AlertAsset)) (prefetchedCapabilities : option (gmap string (list string))) :
    polled alertConditionOutcome :=
  require (metricThresholdValue (R_Condition rule)) ≫= λ threshold,
  match TelemetryStore E with
  | None => outcome_result newAlertConditionOutcome
  | Some store =>
      let start := Now E - DurationFromSeconds (R_WindowSeconds rule) (DefaultWindowSeconds * Second) in
      targets_of rule prefetchedAssets prefetchedCapabilities ≫= λ targets,
      each (threshold_metric store start targets (condition_text (R_Condition rule) "aggregate") (threshold_operator rule) threshold)
        (alertMetricRawPointLimit, newAlertConditionOutcome) (threshold_metrics rule) ≫= λ '(_, o),
      outcome_result o
  end.

Definition evaluateMetricDeadmanOutcome (rule : Rule) (prefetchedAssets : option (list AlertAsset)) (prefetchedCapabilities : option (gmap string (list string))) :
    polled alertConditionOutcome :=
  require (alertStalenessCondition rule) ≫= λ '(gap, metric),
  match TelemetryStore E with
  | None => outcome_result newAlertConditionOutcome
  | Some store =>
      targets_of rule prefetchedAssets prefetchedCapabilities ≫= λ targets,
      let ids := uniqueAlertAssetIDs targets in
      answer (if is_empty metric then HasTelemetrySamples store ids (Now E - gap) (Now E)
              else AssetsWithMetricSamples store ids metric (Now E - gap) (Now E)) ≫= λ present,
      witness_all (λ target, negb (bool_decide (A_ID target ∈ present))) targets newAlertConditionOutcome ≫= outcome_result
  end.

(** *** Logs *)

Definition min_occurrences (condition : anymap) : Z :=
  match any_lookup "min_occurrences" condition ≫= toFloat64 with Some v => Z.max 1 (f64_to_int v) | None => 1 end.

Definition matches_event (matches : string → bool) (fieldEquals : gmap string string) (event : log_event) : bool :=
  matches (LE_Message event) &&
  forallb (λ kv : string * string, equal_fold (trim_space (default "" (LE_Fields event !! kv.1))) kv.2) (map_to_list fieldEquals).

(** A global rule counts all events; their assets are the witnesses. *)
Definition global_event (matches : log_event → bool) (acc : Z * gset string) (event : log_event) : polled (Z * gset string) :=
  poll ≫= λ _,
  let '(matchCount, matchedAssets) := acc in
  mret (if matches event then (matchCount + 1, if is_empty (LE_AssetID event) then matchedAssets else {[LE_AssetID event]} ∪ matchedAssets) else acc).

Definition bare_asset (id : string) : AlertAsset :=
  MkAlertAsset {| A_ID := id; A_Type := ""; A_Name := ""; A_Source := ""; A_GroupID := ""; A_Status := ""; A_Platform := "";
    A_Metadata := ∅; A_CreatedAt := zero_time; A_UpdatedAt := zero_time; A_LastSeenAt := zero_time |} "" "" [].

Definition log_witness (prefetchedAssets : option (list AlertAsset)) (id : string) : AlertAsset :=
  match prefetchedAssets with
  | Some l => default (bare_asset id) (List.find (λ a : AlertAsset, bool_decide (A_ID a = id)) (rev l))
  | None => match LookupAsset E id with Some loaded => if bool_decide (A_ID loaded = id) then loaded else bare_asset id | None => bare_asset id end
  end.

(** A rule with targets counts the events of each. *)
Definition count_event (matches : log_event → bool) (counts : gmap string Z) (event : log_event) : polled (gmap string Z) :=
  poll ≫= λ _,
  let assetID := trim_space (LE_AssetID event) in
  mret (if is_empty assetID || negb (matches event) then counts else <[assetID := default 0 (counts !! assetID) + 1]> counts).

Definition evaluateLogPatternOutcome (rule : Rule) (prefetchedAssets : option (list AlertAsset)) (prefetchedCapabilities : option (gmap string (list string))) :
    polled alertConditionOutcome :=
  match LogStore E with
  | None => poll ≫= λ _, outcome_result newAlertConditionOutcome
  | Some query =>
      let windowSec := if R_WindowSeconds rule <=? 0 then DefaultWindowSeconds else R_WindowSeconds rule in
      let windowStart := Now E - DurationFromSeconds windowSec (DefaultWindowSeconds * Second) in
      let pattern := condition_text (R_Condition rule) "pattern" in
      if is_empty pattern then poll ≫= λ _, outcome_result newAlertConditionOutcome
      else
        require (Regexp E pattern) ≫= λ matches,
        let sourceFilter := to_lower (trim_space (condition_text (R_Condition rule) "source")) in
        let levelFilter := to_lower (trim_space (condition_text (R_Condition rule) "level")) in
        let fieldEquals := conditionStringMap (any_lookup "field_equals" (R_Condition rule)) in
        let requiresFields := negb (bool_decide (fieldEquals = ∅)) in
        let matchesEvent := matches_event matches fieldEquals in
        let request ids limit := MkQuery ids windowStart (Now E) sourceFilter levelFilter limit (negb requiresFields) in
        if bool_decide (NormalizeTargetScope (R_TargetScope rule) = TargetScopeGlobal) && bool_decide (length (R_Targets rule) = 0%nat) then
          answer (query (request [] 500)) ≫= λ events,
          each (global_event matchesEvent) (0, ∅) events ≫= λ '(matchCount, matchedAssets),
          let o := if min_occurrences (R_Condition rule) <=? matchCount
                   then foldl (λ o id, witnessAsset (log_witness prefetchedAssets id) o) (MkOutcome true empty_scope) (elements matchedAssets)
                   else newAlertConditionOutcome in
          poll ≫= λ _, outcome_result o
        else
          targets_of rule prefetchedAssets prefetchedCapabilities ≫= λ targets,
          let ids := uniqueAlertAssetIDs targets in
          let limit := Z.min 5000 (Z.max 500 (500 * Z.of_nat (length ids))) in
          answer (query (request ids limit)) ≫= λ events,
          each (count_event matchesEvent) ∅ events ≫= λ counts,
          let o := foldl (λ o target, if min_occurrences (R_Condition rule) <=? default 0 (counts !! A_ID (AA_Asset target)) then witnessAsset target o else o)
                     newAlertConditionOutcome targets in
          poll ≫= λ _, outcome_result o
  end.

(** *** Synthetic checks *)

Definition evaluateSyntheticOutcome (rule : Rule) : polled alertConditionOutcome :=
  poll ≫= λ _,
  require (syntheticFailureCount (R_Condition rule)) ≫= λ consecutiveFailures,
  match SyntheticStore E with
  | None => mret newAlertConditionOutcome
  | Some (get_check, list_results) =>
      let checkID := condition_text (R_Condition rule) "check_id" in
      if is_empty checkID then mret newAlertConditionOutcome
      else
        answer (get_check checkID) ≫= λ found,
        match found with
        | None => mret newAlertConditionOutcome
        | Some check =>
            if negb (bool_decide (SY_ID check = checkID)) then mret newAlertConditionOutcome
            else
              answer (list_results checkID consecutiveFailures) ≫= λ results,
              if Z.of_nat (length results) <? consecutiveFailures then mret newAlertConditionOutcome
              else if existsb (λ r, negb (bool_decide (SR_CheckID r = checkID)) || bool_decide (SR_Status r = "ok")) results then mret newAlertConditionOutcome
              else
                let o := MkOutcome true (extend_scope empty_scope [] [] [SY_ID check]) in
                let o := match ResolveService E with
                         | Some resolve =>
                             if is_empty (SY_ServiceID check) then o
                             else match resolve (SY_ServiceID check) with Some asset => witnessAsset asset o | None => o end
                         | None => o
                         end in
                poll ≫= λ _, outcome_result o
        end
  end.

(** *** Composites *)

(** The rules that a composite is over. *)
Definition composite_ids (rule : Rule) : gset string :=
  match any_lookup "rule_ids" (R_Condition rule) with
  | Some (AList raw) => list_to_set (omap (λ v, match v with AStr id => if is_empty id then None else Some id | _ => None end) raw)
  | _ => ∅
  end.

(** [visit]: the rules found firing so far, and the scopes of their instances. *)
Definition composite_visit (ids : gset string) (acc : gset string * alertConditionOutcome) (inst : AlertInstance) : polled (gset string * alertConditionOutcome) :=
  poll ≫= λ _,
  let '(found, o) := acc in
  mret (if bool_decide (I_RuleID inst ∈ ids) && bool_decide (I_Status inst = InstanceStatusFiring) then
          ({[I_RuleID inst]} ∪ found, match I_FirstFiredAt inst with Some _ => includeScope (I_FiringScope inst) o | None => o end)
        else acc).

Definition evaluateCompositeOutcome (rule : Rule) (prefetched : option (list AlertInstance)) : polled alertConditionOutcome :=
  let ids := composite_ids rule in
  if bool_decide (ids = ∅) then mret newAlertConditionOutcome
  else
    answer (match prefetched with Some l => Some l | None => FiringInstances E (Some (merge_sort String.le (elements ids))) end) ≫= λ instances,
    each (composite_visit ids) (∅, newAlertConditionOutcome) instances ≫= λ '(found, o),
    poll ≫= λ _,
    let or := match any_lookup "operator" (R_Condition rule) with Some (AStr s) => bool_decide (s = "or") | _ => false end in
    let triggered := if or then negb (bool_decide (found = ∅)) else bool_decide (size found = size ids) in
    if triggered then outcome_result (MkOutcome true (Scope o)) else mret newAlertConditionOutcome.

Definition prefetch_limit : nat := 500.
(** The shared snapshot of a tick, only when it is complete. *)
Definition prefetchFiringInstances : option (list AlertInstance) :=
  l ← FiringInstances E None; if (prefetch_limit <=? length l)%nat then None else Some l.

(** *** The condition of a rule *)

(** The prefetch of a tick: assets given by the caller, or a snapshot that is taken when a rule needs it, [None] before. *)
Record prefetch := MkPrefetch {
  PF_Assets : option (list AlertAsset); PF_Capabilities : option (gmap string (list string)); PF_Firing : option (list AlertInstance);
  PF_Snapshot : option (option (option (list AlertAsset))) }.

Definition prefetchedRuleAssets (rule : Rule) (p : prefetch) : polled (option (list AlertAsset)) :=
  match PF_Snapshot p with
  | None => mret (PF_Assets p)
  | Some taken =>
      let needs :=
        bool_decide (R_Kind rule ∈ [RuleKindHeartbeatStale; RuleKindMetricThreshold; RuleKindMetricDeadman]) ||
        bool_decide (R_Kind rule = RuleKindLogPattern) &&
          negb (bool_decide (NormalizeTargetScope (R_TargetScope rule) = TargetScopeGlobal) && bool_decide (length (R_Targets rule) = 0%nat)) in
      if negb needs then mret None
      else match AssetStore (Targets E) with
           | None => mret None
           | Some (list_assets, _) =>
               if negb (alertTargetsNeedInventory rule true) then mret None
               else
                 poll ≫= λ _,
                 match taken with
                 | Some known => answer known ≫= λ l, mret (Some l)
                 | None => answer list_assets ≫= λ l, poll ≫= λ _, mret (Some l)
                 end
           end
  end.

Definition evaluateRuleOutcome (rule : Rule) (p : option prefetch) : polled alertConditionOutcome :=
  poll ≫= λ _,
  match p with None => mret None | Some p => prefetchedRuleAssets rule p end ≫= λ assets,
  let capabilities := p ≫= PF_Capabilities in
  if bool_decide (R_Kind rule = RuleKindHeartbeatStale) then evaluateHeartbeatStaleOutcome rule assets capabilities
  else if bool_decide (R_Kind rule = RuleKindMetricThreshold) then evaluateMetricThresholdOutcome rule assets capabilities
  else if bool_decide (R_Kind rule = RuleKindMetricDeadman) then evaluateMetricDeadmanOutcome rule assets capabilities
  else if bool_decide (R_Kind rule = RuleKindLogPattern) then evaluateLogPatternOutcome rule assets capabilities
  else if bool_decide (R_Kind rule = RuleKindSyntheticCheck) then evaluateSyntheticOutcome rule
  else if bool_decide (R_Kind rule = RuleKindComposite) then evaluateCompositeOutcome rule (p ≫= PF_Firing)
  else mret newAlertConditionOutcome.
End evaluation.

(** ** What an outcome is *)

(** Every value that a computation can return. *)
Definition yields {A} (P : A → Prop) (m : polled A) : Prop := ∀ a, m.2 = Ok a → P a.

Lemma yields_ret {A} (P : A → Prop) (a : A) : P a → yields P (mret a).
Proof. intros Hp b [= <-]. done. Qed.

Lemma yields_fail {A} (P : A → Prop) e : yields P (fail e).
Proof. by intros b. Qed.

Lemma yields_bind {A B} (Q : A → Prop) (P : B → Prop) m (f : A → polled B) : yields Q m → (∀ a, Q a → yields P (f a)) → yields P (m ≫= f).
Proof. intros Hm Hf b. rewrite polled_bind_result. destruct (m.2) as [a|] eqn:Ha; [|done]. intros Hb. exact (Hf a (Hm _ Ha) b Hb). Qed.

Lemma yields_then {A B} (P : B → Prop) (m : polled A) (f : A → polled B) : (∀ a, yields P (f a)) → yields P (m ≫= f).
Proof. intros Hf. by apply (yields_bind (λ _, True)). Qed.

Lemma yields_each {A B} (I : B → Prop) (f : B → A → polled B) b l : (∀ b x, I b → yields I (f b x)) → I b → yields I (each f b l).
Proof. intros Hf. revert b. induction l as [|x l IH]; intros b Hb; simpl; [by apply yields_ret|]. eapply yields_bind; [by apply Hf|done]. Qed.

(** Without a witness there is no scope. *)
Definition sound (o : alertConditionOutcome) : Prop := Triggered o = false → Scope o = empty_scope.
Definition settled (o : alertConditionOutcome) : Prop := NormalizeFiringScope (Scope o) = Ok (Scope o) ∧ sound o.

Lemma settled_new : settled newAlertConditionOutcome.
Proof. by split. Qed.

Lemma settled_result o : sound o → yields settled (outcome_result o).
Proof.
  intros Ho. unfold outcome_result. pose proof (normalize_firing_scope_spec (Scope o)) as Hn.
  destruct (NormalizeFiringScope (Scope o)) as [n|e] eqn:Hs; [|apply yields_fail]. apply yields_ret. split; [by destruct Hn as (_ & _ & _ & _ & _ & ?)|].
  intros Ht. simpl in *. rewrite (Ho Ht) in Hs. by injection Hs as <-.
Qed.

Lemma sound_witness a o : sound (witnessAsset a o).
Proof. done. Qed.

Lemma sound_new : sound newAlertConditionOutcome.
Proof. done. Qed.

Lemma witness_all_sound test l o : sound o → yields sound (witness_all test l o).
Proof. intros Ho. apply yields_each; [|done]. intros b x Hb. apply yields_then. intros _. apply yields_ret. by case_match. Qed.

Section outcomes.
Context (E : condition_env).

Lemma threshold_target_sound series aggregate operator threshold acc target :
  sound acc.2 → yields (λ acc, sound acc.2) (threshold_target series aggregate operator threshold acc target).
Proof.
  destruct acc as [remaining o]. intros Ho. apply yields_then. intros _. cbv zeta. case_match; [apply yields_fail|]. apply yields_ret. simpl. by case_match.
Qed.

Lemma evaluateMetricThresholdOutcome_settled rule assets capabilities : yields settled (evaluateMetricThresholdOutcome E rule assets capabilities).
Proof.
  apply yields_then. intros threshold. destruct (TelemetryStore E) as [store|]; [|apply settled_result, sound_new]. apply yields_then. intros targets.
  eapply (yields_bind (λ acc : Z * alertConditionOutcome, sound acc.2)); [|intros [? o] Ho; by apply settled_result].
  apply yields_each; [|done]. intros acc name Hacc. apply yields_then. intros _. apply yields_then. intros series.
  apply yields_each; [|done]. intros ? ?. apply threshold_target_sound.
Qed.

Lemma evaluateLogPatternOutcome_settled rule assets capabilities : yields settled (evaluateLogPatternOutcome E rule assets capabilities).
Proof.
  unfold evaluateLogPatternOutcome. destruct (LogStore E) as [query|]; [|by apply yields_then; intros; apply settled_result].
  cbv zeta. destruct (is_empty _); [by apply yields_then; intros; apply settled_result|]. apply yields_then. intros matches. destruct (_ && _).
  - apply yields_then. intros events. apply yields_then. intros [n found]. apply yields_then. intros _. apply settled_result. case_match; [|done].
    assert (Hw : ∀ ids o, Triggered o = true → sound (foldl (λ o id, witnessAsset (log_witness E assets id) o) o ids)); [|by apply Hw].
    intros ids. induction ids as [|id ids IH]; intros o Ho; [|by apply IH]. intros Hf. simpl in Hf. congruence.
  - apply yields_then. intros targets. apply yields_then. intros events. apply yields_then. intros counts. apply yields_then. intros _. apply settled_result.
    assert (Hw : ∀ l o, sound o → sound (foldl (λ o (target : AlertAsset), if min_occurrences (R_Condition rule) <=? default 0 (counts !! A_ID (AA_Asset target)) then witnessAsset target o else o) o l));
      [|by apply Hw].
    intros l. induction l as [|x l IH]; intros o Ho; [done|]. apply IH. by case_match.
Qed.

Lemma evaluateSyntheticOutcome_settled rule : yields settled (evaluateSyntheticOutcome E rule).
Proof.
  apply yields_then. intros _. apply yields_then. intros n. destruct (SyntheticStore E) as [[get_check list_results]|]; [|apply yields_ret, settled_new].
  cbv zeta. case_match; [apply yields_ret, settled_new|]. apply yields_then. intros [check|]; [|apply yields_ret, settled_new].
  case_match; [apply yields_ret, settled_new|]. apply yields_then. intros results. do 2 (case_match; [apply yields_ret, settled_new|]).
  apply yields_then. intros _. apply settled_result. by repeat case_match.
Qed.

Lemma evaluateCompositeOutcome_settled rule known : yields settled (evaluateCompositeOutcome E rule known).
Proof.
  unfold evaluateCompositeOutcome. cbv zeta. case_bool_decide; [apply yields_ret, settled_new|]. apply yields_then. intros instances.
  apply yields_then. intros [found o]. apply yields_then. intros _. case_match; [by apply settled_result|apply yields_ret, settled_new].
Qed.
End outcomes.

(** Whatever the kind of a rule, what its evaluation returns is a scope that the instance store accepts as it stands (sorted, without duplicates
    and with trimmed names), and a condition that is not triggered has an empty scope: an alert never starts to fire with
    a scope that would fail to be stored, nor owns an asset without a witness. *)
Theorem condition_scope_settled E rule p live o :
  within live (evaluateRuleOutcome E rule p) = Ok o → NormalizeFiringScope (Scope o) = Ok (Scope o) ∧ (Triggered o = false → Scope o = empty_scope).
Proof.
  intros Ho. destruct (within_cases live (evaluateRuleOutcome E rule p)) as [Hw|Hw]; [by rewrite Hw in Ho|]. rewrite Hw in Ho. revert o Ho. clear.
  change (yields settled (evaluateRuleOutcome E rule p)). apply yields_then. intros _. apply yields_then. intros assets. cbv zeta.
  repeat case_bool_decide.
  - apply yields_then. intros [gap ?]. apply yields_then. intros targets. eapply yields_bind; [by apply witness_all_sound|]. apply settled_result.
  - apply evaluateMetricThresholdOutcome_settled.
  - apply yields_then. intros [gap metric]. destruct (TelemetryStore E) as [store|]; [|by apply settled_result]. apply yields_then. intros targets.
    apply yields_then. intros present. eapply yields_bind; [by apply witness_all_sound|]. apply settled_result.
  - apply evaluateLogPatternOutcome_settled.
  - apply evaluateSyntheticOutcome_settled.
  - apply evaluateCompositeOutcome_settled.
  - apply yields_ret, settled_new.
Qed.

(** ** Which assets are witnesses *)

(** An asset and its group can be named in a scope. *)
Definition nameable (a : AlertAsset) : Prop := valid_identity (A_ID a) ∧ (A_GroupID a = "" ∨ valid_identity (A_GroupID a)).

(** The scope is that of these assets, without any check. *)
Definition scope_of (witness : AlertAsset → Prop) (s : FiringScope) : Prop :=
  (∀ id, id ∈ AssetIDs s ↔ ∃ a, witness a ∧ A_ID a = id) ∧
  (∀ id, id ∈ GroupIDs s ↔ ∃ a, witness a ∧ A_GroupID a = id ∧ id ≠ "") ∧
  SyntheticCheckIDs s = [].

(** The outcome when exactly these assets are witnesses. *)
Definition witnessed (witness : AlertAsset → Prop) (o : alertConditionOutcome) : Prop :=
  (Triggered o = true ↔ ∃ a, witness a) ∧ scope_of witness (Scope o).

Lemma elem_non_blank id x : x ∈ non_blank id ↔ x = id ∧ x ≠ "".
Proof.
  unfold non_blank. case_bool_decide as Hid; simpl; [subst; rewrite elem_of_nil; naive_solver|]. rewrite list_elem_of_singleton. naive_solver.
Qed.

Lemma witnessed_ext W W' o : (∀ a, W a ↔ W' a) → witnessed W o → witnessed W' o.
Proof. intros Hw. unfold witnessed, scope_of. by setoid_rewrite Hw. Qed.

Lemma witnessed_new W : (∀ a, ¬ W a) → witnessed W newAlertConditionOutcome.
Proof. intros Hw. split; [naive_solver|]. split; [|split; [|done]]; intros id; simpl; rewrite elem_of_nil; naive_solver. Qed.

(** One more witness *)
Lemma witnessed_asset W (a : AlertAsset) o : A_ID a ≠ "" → witnessed W o → witnessed (λ x, W x ∨ x = a) (witnessAsset a o).
Proof.
  intros Hid (Ht & Ha & Hg & Hc). split; [split; [by exists a; right|done]|]. unfold scope_of. simpl. split; [|split; [|by rewrite Hc]]; intros id;
    rewrite elem_of_app, elem_non_blank; [rewrite Ha|rewrite Hg]; naive_solver.
Qed.

Lemma witnessed_test W (a : AlertAsset) o (test : bool) : A_ID a ≠ "" → witnessed W o → witnessed (λ x, W x ∨ x = a ∧ test = true) (if test then witnessAsset a o else o).
Proof.
  intros Hid Hw. destruct test; [|by eapply witnessed_ext; [|done]; naive_solver]. eapply witnessed_ext; [|by apply witnessed_asset]. naive_solver.
Qed.

(** The result normalises the lists and keeps their elements. *)
Lemma witnessed_result W o :
  Version (Scope o) = 1 → (∀ a, W a → nameable a) → witnessed W o → ∃ o', (outcome_result o).2 = Ok o' ∧ witnessed W o'.
Proof.
  intros Hv Hn (Ht & Ha & Hg & Hc). unfold outcome_result. pose proof (normalize_firing_scope_spec (Scope o)) as Hs.
  destruct (NormalizeFiringScope (Scope o)) as [n|[]]; [|done|].
  - destruct Hs as (_ & _ & (_ & _ & _ & Ha') & (_ & _ & _ & Hg') & (_ & _ & _ & Hc') & _). eexists. split; [done|]. split; [done|]. simpl.
    split; [by setoid_rewrite Ha'|]. split; [by setoid_rewrite Hg'|]. rewrite Hc in Hc'. destruct (SyntheticCheckIDs n) as [|c ?]; [done|].
    exfalso. apply (not_elem_of_nil c), Hc'. by left.
  - exfalso. destruct Hs as [_ Hs]. apply Hs. rewrite Hc, app_nil_r, Forall_app, !Forall_forall. split; intros id.
    + intros (a & Hw & <-)%Ha. by apply Hn.
    + intros (a & Hw & <- & Hne)%Hg. by destruct (Hn _ Hw) as [_ [?|?]].
Qed.

Lemma witness_all_exact test (l : list AlertAsset) :
  (∀ a : AlertAsset, a ∈ l → A_ID a ≠ "") →
  ∃ o, (witness_all test l newAlertConditionOutcome).2 = Ok o ∧ Version (Scope o) = 1 ∧ witnessed (λ a, a ∈ l ∧ test a = true) o.
Proof.
  intros Hid. apply (each_inv (λ done o, Version (Scope o) = 1 ∧ witnessed (λ a, a ∈ done ∧ test a = true) o)).
  - intros done a o Ha [Hv Ho]. rewrite poll_then. eexists. split; [done|]. split; [by case_match|]. eapply witnessed_ext; [|by apply witnessed_test; [apply Hid|exact Ho]].
    intros x. simpl. rewrite elem_of_app, list_elem_of_singleton. naive_solver.
  - split; [done|]. apply witnessed_new. intros a [?%not_elem_of_nil _]. done.
Qed.

Lemma unique_ids_elem seen (l : list AlertAsset) id :
  id ∈ unique_ids seen l ↔ id ∉ seen ∧ id ≠ "" ∧ ∃ a : AlertAsset, a ∈ l ∧ trim_space (A_ID a) = id.
Proof.
  revert seen. induction l as [|a l IH]; intros seen; simpl; [setoid_rewrite elem_of_nil; naive_solver|].
  setoid_rewrite elem_of_cons. case_bool_decide as Hid; simpl; [|case_bool_decide as Hs]; simpl; rewrite ?elem_of_cons, IH, ?elem_of_union, ?elem_of_singleton; [naive_solver..|].
  destruct (decide (id = trim_space (A_ID a))); naive_solver.
Qed.

(** The ids of a query are distinct: they are those of the assets. *)
Lemma uniqueAlertAssetIDs_elem (l : list AlertAsset) (a : AlertAsset) : a ∈ l → trim_space (A_ID a) = A_ID a → A_ID a ≠ "" → A_ID a ∈ uniqueAlertAssetIDs l.
Proof. intros Ha Ht Hne. apply unique_ids_elem. split; [set_solver|]. split; [done|]. by exists a. Qed.

(** What a caller prefetched came from the same inventory. *)
Definition prefetch_from (l : list AlertAsset) (p : prefetch) : Prop :=
  (PF_Assets p = None ∨ PF_Assets p = Some l) ∧ (PF_Snapshot p = None ∨ PF_Snapshot p = Some None ∨ PF_Snapshot p = Some (Some (Some l))).

(** The samples of each asset in the telemetry store, and what the store promises about them. *)
Record activity_from (T : telemetry_store) (samples : string → list (string * time)) : Prop := {
  af_metric ids metric from to : metric ≠ "" → trim_space metric = metric → from <= to → ∃ present, AssetsWithMetricSamples T ids metric from to = Some present ∧
    ∀ id, id ∈ ids → trim_space id = id → id ≠ "" → id ∈ present ↔ ∃ t, (metric, t) ∈ samples id ∧ from <= t <= to;
  af_any ids from to : ∃ present, HasTelemetrySamples T ids from to = Some present ∧
    ∀ id, id ∈ ids → trim_space id = id → id ≠ "" → id ∈ present ↔ ∃ metric t, (metric, t) ∈ samples id ∧ from <= t <= to }.

(** An asset has been quiet for [gap]: not seen, or without a sample of the metric (of any metric when none is named). *)
Definition quiet (samples : string → list (string * time)) (now : time) (kind : string) (gap : duration) (metric : string) (a : AlertAsset) : Prop :=
  if decide (kind = RuleKindHeartbeatStale) then A_LastSeenAt a < now - gap
  else ∀ m t, (m, t) ∈ samples (A_ID a) → metric = "" ∨ m = metric → ¬ (now - gap <= t <= now).

Section exact.
Context (E : condition_env) (l : list AlertAsset) (sets : option (string → option CapabilitySet)) (rule : Rule) (p : option prefetch).
Hypothesis stores : answers_from (Targets E) l sets.
Hypothesis prefetched : ∀ pf, p = Some pf → prefetch_from l pf.

Definition target_of (a : AlertAsset) : Prop := a ∈ l ∧ rule_selects sets (p ≫= PF_Capabilities) rule true a = true.

Lemma prefetched_assets : ∃ assets, (match p with None => mret None | Some p => prefetchedRuleAssets E rule p end : polled (option (list AlertAsset))).2 = Ok assets ∧ (assets = None ∨ assets = Some l).
Proof.
  destruct p as [pf|]; [|exists None; split; [done|by left]]. destruct (prefetched pf eq_refl) as [Ha Hs].
  unfold prefetchedRuleAssets. destruct (PF_Snapshot pf) as [taken|]; [|by exists (PF_Assets pf)].
  cbv zeta. destruct (negb _); [exists None; split; [done|by left]|]. rewrite (af_assets _ _ _ stores).
  destruct (negb _); [exists None; split; [done|by left]|]. rewrite poll_then.
  destruct Hs as [Hs|[[= ->]|[= ->]]]; [done|..]; exists (Some l); (split; [done|by right]).
Qed.

Lemma targets_exact assets :
  assets = None ∨ assets = Some l → ∃ out, (targets_of E rule assets (p ≫= PF_Capabilities)).2 = Ok out ∧ (∀ a, a ∈ out ↔ target_of a) ∧
    (∀ a : AlertAsset, a ∈ out → trim_space (A_ID a) = A_ID a ∧ A_ID a ≠ "") ∧ NoDup ((λ a : AlertAsset, A_ID a) <$> out).
Proof.
  intros Ha. destruct stores as [H1 H2 H3 H4 H5].
  destruct (resolve_picks _ l sets (p ≫= PF_Capabilities) H1 H2 H3 H4 H5 assets Ha rule true) as (out & Hok & Hpicks).
  destruct (sorted_assets _ _ _ Hpicks) as [Hids Hin]. exists (sortedAssetsByID out). split; [done|]. split; [done|]. split; [intros a [Hl _]%Hin; by apply H4|].
  rewrite Hids, merge_sort_Permutation. apply NoDup_elements.
Qed.
End exact.

Lemma within_ok {A} (m : polled A) a : m.2 = Ok a → ∃ polls, ∀ live, within live m = if (live <? polls)%nat then Err ContextEnded else Ok a.
Proof. intros Hm. exists m.1. intros live. unfold within. by rewrite Hm. Qed.

(** A gap is never negative, and a metric that is named is trimmed. *)
Lemma staleness_limits rule gap metric : alertStalenessCondition rule = Some (gap, metric) → 0 <= gap ∧ (metric = "" ∨ trim_space metric = metric).
Proof.
  assert (Hd : ∀ seconds, 0 <= DurationFromSeconds seconds (DefaultWindowSeconds * Second)).
  { intros seconds. unfold DurationFromSeconds, wrap64, MaxDurationSeconds, DefaultWindowSeconds, Second. destruct (_ || _) eqn:Hb; [lia|].
    apply orb_false_iff in Hb as [?%Z.leb_gt ?%Z.ltb_ge]. rewrite Z.mod_small; lia. }
  unfold alertStalenessCondition. case_bool_decide; [|case_bool_decide; [|intros [= <- <-]; split; [apply Hd || lia|by left]]].
  - destruct (staleness_seconds _ _); [|done]. intros [= <- <-]. split; [apply Hd|by left].
  - destruct (staleness_seconds _ _); [|done]. simpl. destruct (any_lookup _ _) as [[]|]; try done; [|intros [= <- <-]; split; [apply Hd || lia|by left]].
    case_bool_decide; [done|]. intros [= <- <-]. split; [apply Hd|]. right. apply trim_space_idemp.
Qed.

(** The assets of a query with a sample in the window, of the metric or of any. *)
Lemma present_exact T samples metric (targets : list AlertAsset) from to :
  activity_from T samples → metric = "" ∨ trim_space metric = metric → from <= to → (∀ a : AlertAsset, a ∈ targets → trim_space (A_ID a) = A_ID a ∧ A_ID a ≠ "") →
  ∃ present, (answer (if is_empty metric then HasTelemetrySamples T (uniqueAlertAssetIDs targets) from to
                      else AssetsWithMetricSamples T (uniqueAlertAssetIDs targets) metric from to) : polled _).2 = Ok present ∧
    ∀ a : AlertAsset, a ∈ targets → A_ID a ∈ present ↔ ∃ m t, (m, t) ∈ samples (A_ID a) ∧ (metric = "" ∨ m = metric) ∧ from <= t <= to.
Proof.
  intros Hact Htrim Hft Hids. assert (Hu : ∀ a : AlertAsset, a ∈ targets → A_ID a ∈ uniqueAlertAssetIDs targets).
  { intros a Ha. destruct (Hids a Ha). by apply uniqueAlertAssetIDs_elem. }
  case_bool_decide as Hm.
  - destruct (af_any T samples Hact (uniqueAlertAssetIDs targets) from to) as (present & -> & Hp). exists present. split; [done|].
    intros a Ha. destruct (Hids a Ha). rewrite Hp by auto. naive_solver.
  - destruct (af_metric T samples Hact (uniqueAlertAssetIDs targets) metric from to ltac:(done) ltac:(tauto) Hft) as (present & -> & Hp). exists present. split; [done|].
    intros a Ha. destruct (Hids a Ha). rewrite Hp by auto. naive_solver.
Qed.

Lemma silent_assets E l sets samples rule p gap metric :
  answers_from (Targets E) l sets → (∀ pf, p = Some pf → prefetch_from l pf) → (∀ a, a ∈ l → nameable a) →
  alertStalenessCondition rule = Some (gap, metric) →
  R_Kind rule = RuleKindHeartbeatStale ∨ R_Kind rule = RuleKindMetricDeadman ∧ (∃ T, TelemetryStore E = Some T ∧ activity_from T samples) →
  ∃ polls o, witnessed (λ a, target_of l sets rule p a ∧ quiet samples (Now E) (R_Kind rule) gap metric a) o ∧
    ∀ live, within live (evaluateRuleOutcome E rule p) = if (live <? polls)%nat then Err ContextEnded else Ok o.
Proof.
  intros Hst Hp Hn Hgap Hkind. cut (∃ o, (evaluateRuleOutcome E rule p).2 = Ok o ∧ witnessed (λ a, target_of l sets rule p a ∧ quiet samples (Now E) (R_Kind rule) gap metric a) o).
  { intros (o & Ho & Hw). destruct (within_ok _ _ Ho) as [polls ?]. by exists polls, o. }
  unfold evaluateRuleOutcome. rewrite poll_then. destruct (prefetched_assets E l sets rule p Hst Hp) as (assets & Ha & Hassets). rewrite (polled_bind_ok _ _ _ Ha).
  cbv zeta. destruct (targets_exact E l sets rule p Hst assets Hassets) as (out & Hout & Hin & Hids & Hnd).
  assert (Hname : ∀ W a, a ∈ out ∧ W a → nameable a) by (intros W a [[? _]%Hin _]; by apply Hn).
  assert (Hne : ∀ a : AlertAsset, a ∈ out → A_ID a ≠ "") by (intros a ?; by apply Hids).
  destruct Hkind as [Hk|[Hk (T & HT & Hact)]]; rewrite Hk; simpl.
  - unfold evaluateHeartbeatStaleOutcome. rewrite Hgap. change (require (Some (gap, metric))) with (mret (gap, metric) : polled _).
    rewrite (polled_bind_ok _ _ (gap, metric)) by done. cbv zeta. rewrite (polled_bind_ok _ _ _ Hout).
    destruct (witness_all_exact (λ target, A_LastSeenAt target <? Now E - gap) out Hne) as (o & Ho & Hv & Hw). rewrite (polled_bind_ok _ _ _ Ho).
    destruct (witnessed_result _ o Hv (Hname _) Hw) as (o' & Ho' & Hw'). exists o'. split; [done|]. eapply witnessed_ext; [|exact Hw']. intros a. simpl.
    by rewrite Hin, Z.ltb_lt.
  - unfold evaluateMetricDeadmanOutcome. rewrite Hgap, HT. rewrite (polled_bind_ok _ _ (gap, metric)) by done. rewrite (polled_bind_ok _ _ _ Hout). cbv zeta.
    destruct (staleness_limits _ _ _ Hgap) as [Hpos Htrim].
    destruct (present_exact T samples metric out (Now E - gap) (Now E) Hact Htrim ltac:(lia) Hids) as (present & Hm & Hq). rewrite (polled_bind_ok _ _ _ Hm).
    destruct (witness_all_exact (λ target, negb (bool_decide (A_ID target ∈ present))) out Hne) as (o & Ho & Hv & Hw). rewrite (polled_bind_ok _ _ _ Ho).
    destruct (witnessed_result _ o Hv (Hname _) Hw) as (o' & Ho' & Hw'). exists o'. split; [done|]. eapply witnessed_ext; [|exact Hw']. intros a. simpl.
    rewrite <-Hin, negb_true_iff, bool_decide_eq_false. unfold quiet. simpl. split; intros [Hout' Hno]; (split; [done|]); rewrite (Hq a Hout') in *; naive_solver.
Qed.

(** C36: a heartbeat rule is triggered exactly when one of the assets that its targets select was last seen before the limit, a dead man's switch
    exactly when one of them has no sample (of the metric, if it names one) in the window that ends now, bounds
    included; the scope names exactly those assets and their groups. This holds with and without an inventory fetched before, and the only other outcome is
    the error of a context that ends before the last poll. *)
Theorem silence_exact E l sets samples rule p gap metric :
  answers_from (Targets E) l sets → (∀ pf, p = Some pf → prefetch_from l pf) → (∀ a, a ∈ l → nameable a) →
  alertStalenessCondition rule = Some (gap, metric) →
  R_Kind rule = RuleKindHeartbeatStale ∨ R_Kind rule = RuleKindMetricDeadman ∧ (∃ T, TelemetryStore E = Some T ∧ activity_from T samples) →
  ∃ polls o, witnessed (λ a, target_of l sets rule p a ∧ quiet samples (Now E) (R_Kind rule) gap metric a) o ∧
    ∀ live, within live (evaluateRuleOutcome E rule p) = if (live <? polls)%nat then Err ContextEnded else Ok o.
Proof. apply silent_assets. Qed.

(** ** Thresholds *)

Definition points_count (points : string → list f64) (l : list AlertAsset) : Z := Z.of_nat (sum_list_with (λ a : AlertAsset, length (points (A_ID a))) l).

(** The points of each metric and asset in a window; the store returns them all, or an error when there are more than the limit of the query. *)
Definition series_from (T : telemetry_store) (start now : time) (points : string → string → list f64) : Prop :=
  ∀ ids metric limit, 0 < limit → NoDup ids → (∀ id, id ∈ ids → trim_space id = id ∧ id ≠ "") →
    if Z.of_nat (sum_list_with (λ id, length (points metric id)) ids) <=? limit
    then ∃ series, MetricSeriesBatch T ids metric start now limit = Some series ∧ ∀ id, id ∈ ids → default [] (series !! id) = points metric id
    else MetricSeriesBatch T ids metric start now limit = None.

(** A metric of an asset is beyond the threshold: it has points, and their aggregate compares. *)
Definition beyond (points : string → string → list f64) (rule : Rule) (threshold : f64) (metric : string) (a : AlertAsset) : Prop :=
  points metric (A_ID a) ≠ [] ∧
  compareThreshold (aggregatePoints (points metric (A_ID a)) (condition_text (R_Condition rule) "aggregate")) (threshold_operator rule) threshold = true.

Lemma threshold_target_result series aggregate operator threshold remaining o (target : AlertAsset) :
  let points := default [] (series !! A_ID target) in
  let n := Z.of_nat (length points) in
  (threshold_target series aggregate operator threshold (remaining, o) target).2 =
    if remaining <? n then Err TooManyPoints
    else Ok (remaining - n, if (0 <? n) && compareThreshold (aggregatePoints points aggregate) operator threshold then witnessAsset target o else o).
Proof. cbv zeta. unfold threshold_target. rewrite poll_then. cbv zeta. by case_match. Qed.

Lemma threshold_targets_exact series points rule threshold metric (l : list AlertAsset) :
  (∀ a : AlertAsset, a ∈ l → A_ID a ≠ "" ∧ default [] (series !! A_ID a) = points metric (A_ID a)) →
  ∀ remaining W o, Version (Scope o) = 1 → witnessed W o →
  let m := each (threshold_target series (condition_text (R_Condition rule) "aggregate") (threshold_operator rule) threshold) (remaining, o) l in
  if points_count (points metric) l <=? remaining
  then ∃ o', m.2 = Ok (remaining - points_count (points metric) l, o') ∧ Version (Scope o') = 1 ∧
    witnessed (λ a, W a ∨ a ∈ l ∧ beyond points rule threshold metric a) o'
  else 0 <= remaining → ∃ e, m.2 = Err e.
Proof.
  induction l as [|a l IH]; intros Hl remaining W o Hv Hw; cbv zeta.
  - change (points_count (points metric) []) with 0. destruct (0 <=? remaining) eqn:Hr; [|intros ?; apply Z.leb_gt in Hr; exfalso; lia].
    exists o. rewrite Z.sub_0_r. split; [done|]. split; [done|]. eapply witnessed_ext; [|done]. intros x. rewrite elem_of_nil. naive_solver.
  - destruct (Hl a) as [Hne Hs]; [by left|]. cbn [each]. set (n := Z.of_nat (length (points metric (A_ID a)))).
    assert (Hcount : points_count (points metric) (a :: l) = n + points_count (points metric) l) by (unfold points_count, n; simpl; lia).
    assert (Hpos : 0 <= points_count (points metric) l) by (unfold points_count; lia). rewrite Hcount.
    destruct (remaining <? n) eqn:Hover.
    { rewrite (proj2 (Z.leb_gt _ _)) by lia. intros _. exists TooManyPoints. rewrite (polled_bind_err _ _ TooManyPoints); [done|].
      rewrite threshold_target_result. cbv zeta. rewrite Hs. fold n. by rewrite Hover. }
    specialize (IH ltac:(intros ??; apply Hl; by right) (remaining - n)).
    set (t := (0 <? n) && compareThreshold (aggregatePoints (points metric (A_ID a)) (condition_text (R_Condition rule) "aggregate")) (threshold_operator rule) threshold).
    assert (Ht : t = true ↔ beyond points rule threshold metric a).
    { unfold t, beyond. rewrite andb_true_iff, Z.ltb_lt. unfold n. destruct (points metric (A_ID a)); simpl; [split; [lia|naive_solver]|split; [naive_solver|split; [lia|naive_solver]]]. }
    rewrite (polled_bind_ok _ _ (remaining - n, if t then witnessAsset a o else o)); [|rewrite threshold_target_result; cbv zeta; rewrite Hs; fold n; by rewrite Hover].
    specialize (IH _ (if t then witnessAsset a o else o) ltac:(by destruct t) (witnessed_test W a o t Hne Hw)). cbv zeta in IH.
    replace (n + points_count (points metric) l <=? remaining) with (points_count (points metric) l <=? remaining - n) by lia.
    destruct (points_count (points metric) l <=? remaining - n) eqn:Hfit; [|intros; apply IH; lia].
    destruct IH as (o' & Ho' & Hv' & Hw'). exists o'. split; [rewrite Ho'; do 2 f_equal; lia|]. split; [done|]. eapply witnessed_ext; [|exact Hw'].
    intros x. simpl. rewrite elem_of_cons. naive_solver.
Qed.

(** The ids of a query are those of assets with distinct, trimmed ids. *)
Lemma uniqueAlertAssetIDs_all (l : list AlertAsset) :
  NoDup ((λ a : AlertAsset, A_ID a) <$> l) → (∀ a : AlertAsset, a ∈ l → trim_space (A_ID a) = A_ID a ∧ A_ID a ≠ "") →
  uniqueAlertAssetIDs l = (λ a : AlertAsset, A_ID a) <$> l.
Proof.
  unfold uniqueAlertAssetIDs. intros Hnd Ht. assert (Hs : ∀ a : AlertAsset, a ∈ l → A_ID a ∉ (∅ : gset string)) by (intros; apply not_elem_of_empty).
  revert Hs. generalize (∅ : gset string) as seen. induction l as [|a l IH]; intros seen Hs; [done|]. csimpl in *. apply NoDup_cons in Hnd as [Ha Hnd].
  destruct (Ht a) as [-> Hne]; [by left|]. rewrite (bool_decide_eq_false_2 (A_ID a = "")), (bool_decide_eq_false_2 (A_ID a ∈ seen)) by (done || apply Hs; by left).
  simpl. f_equal. apply IH; [done|intros; apply Ht; by right|]. intros b Hb [He%elem_of_singleton|?]%elem_of_union; [|by eapply Hs; [right|]].
  apply Ha. rewrite <-He. by apply (list_elem_of_fmap_2 (λ a : AlertAsset, A_ID a)).
Qed.

Definition metrics_count (points : string → string → list f64) (metrics : list string) (l : list AlertAsset) : Z :=
  foldr (λ metric n, points_count (points metric) l + n) 0 metrics.

Lemma threshold_metrics_exact E T start points rule threshold (l : list AlertAsset) :
  series_from T start (Now E) points → NoDup ((λ a : AlertAsset, A_ID a) <$> l) → (∀ a : AlertAsset, a ∈ l → trim_space (A_ID a) = A_ID a ∧ A_ID a ≠ "") →
  ∀ metrics remaining W o, 0 <= remaining → Version (Scope o) = 1 → witnessed W o →
  let m := each (threshold_metric E T start l (condition_text (R_Condition rule) "aggregate") (threshold_operator rule) threshold) (remaining, o) metrics in
  if metrics_count points metrics l <=? remaining
  then ∃ acc, m.2 = Ok acc ∧ Version (Scope acc.2) = 1 ∧ witnessed (λ a, W a ∨ a ∈ l ∧ ∃ metric, metric ∈ metrics ∧ beyond points rule threshold metric a) acc.2
  else ∃ e, m.2 = Err e.
Proof.
  intros HT Hnd Ht. pose proof (uniqueAlertAssetIDs_all l Hnd Ht) as Hids.
  assert (Hpos : ∀ metrics, 0 <= metrics_count points metrics l).
  { induction metrics as [|m ms IH]; simpl; [done|]. unfold points_count at 1. lia. }
  induction metrics as [|name metrics IH]; intros remaining W o Hr Hv Hw; cbv zeta.
  { simpl. rewrite (proj2 (Z.leb_le _ _)) by done. exists (remaining, o). split; [done|]. split; [done|]. eapply witnessed_ext; [|done].
    intros a. setoid_rewrite elem_of_nil. naive_solver. }
  cbn [each metrics_count foldr]. fold (metrics_count points metrics l). specialize (Hpos metrics). set (limit := if remaining =? 0 then 1 else remaining).
  assert (Hlimit : 0 < limit ∧ remaining <= limit) by (unfold limit; destruct (remaining =? 0) eqn:?; lia).
  specialize (HT (uniqueAlertAssetIDs l) name limit ltac:(lia) ltac:(by rewrite Hids) ltac:(by rewrite Hids; intros id (a & -> & Ha)%list_elem_of_fmap; apply Ht)).
  assert (Hsum : Z.of_nat (sum_list_with (λ id, length (points name id)) (uniqueAlertAssetIDs l)) = points_count (points name) l).
  { rewrite Hids. unfold points_count. f_equal. clear. induction l as [|a l IH]; [done|]. csimpl. by rewrite IH. }
  rewrite Hsum in HT. destruct (points_count (points name) l <=? limit) eqn:Hlim.
  - destruct HT as (series & Hser & Hpts).
    assert (Hstep : (threshold_metric E T start l (condition_text (R_Condition rule) "aggregate") (threshold_operator rule) threshold (remaining, o) name).2 =
      (each (threshold_target series (condition_text (R_Condition rule) "aggregate") (threshold_operator rule) threshold) (remaining, o) l).2).
    { unfold threshold_metric. rewrite poll_then. cbv zeta. cbn [fst]. fold limit. rewrite Hser. by rewrite (polled_bind_ok _ _ series). }
    pose proof (threshold_targets_exact series points rule threshold name l) as Hloop.
    specialize (Hloop ltac:(intros a Ha; split; [by apply Ht|apply Hpts; rewrite Hids; by apply (list_elem_of_fmap_2 (λ a : AlertAsset, A_ID a))]) remaining W o Hv Hw).
    cbv zeta in Hloop. rewrite <-Hstep in Hloop. destruct (points_count (points name) l <=? remaining) eqn:Hfit.
    + destruct Hloop as (o1 & Ho1 & Hv1 & Hw1). rewrite (polled_bind_ok _ _ _ Ho1).
      specialize (IH (remaining - points_count (points name) l) _ o1 ltac:(lia) Hv1 Hw1). cbv zeta in IH.
      replace (points_count (points name) l + metrics_count points metrics l <=? remaining)
        with (metrics_count points metrics l <=? remaining - points_count (points name) l) by lia.
      case_match; [|done]. destruct IH as (acc & Hacc & Hva & Hwa). exists acc. split; [done|]. split; [done|]. eapply witnessed_ext; [|exact Hwa].
      intros a. simpl. setoid_rewrite elem_of_cons. naive_solver.
    + rewrite (proj2 (Z.leb_gt _ _)) by lia. destruct (Hloop Hr) as [e He]. exists e. by rewrite (polled_bind_err _ _ _ He).
  - rewrite (proj2 (Z.leb_gt _ _)) by lia. exists LookupFailed. rewrite (polled_bind_err _ _ LookupFailed); [done|].
    unfold threshold_metric. rewrite poll_then. cbv zeta. cbn [fst]. fold limit. by rewrite HT.
Qed.

Lemma metrics_count_perm points metrics (l k : list AlertAsset) : l ≡ₚ k → metrics_count points metrics l = metrics_count points metrics k.
Proof. intros Hp. induction metrics as [|m ms IH]; [done|]. simpl. rewrite IH. unfold points_count. by rewrite Hp. Qed.

(** A metric rule reads at most 100000 points, and never decides on a part of them: when the points of its metrics and of the assets that
    its targets select are within that bound, it is triggered exactly when some metric of some asset has points whose aggregate
    is beyond the threshold, and the scope names exactly the assets of such metrics; when there are more, it is an error. The budget is
    shared by the metrics and the assets, and a metric without points still succeeds when the budget is used up. *)
Theorem metric_never_partial E T l sets points rule p threshold :
  answers_from (Targets E) l sets → (∀ pf, p = Some pf → prefetch_from l pf) → (∀ a, a ∈ l → nameable a) →
  R_Kind rule = RuleKindMetricThreshold → metricThresholdValue (R_Condition rule) = Some threshold → TelemetryStore E = Some T →
  series_from T (Now E - DurationFromSeconds (R_WindowSeconds rule) (DefaultWindowSeconds * Second)) (Now E) points →
  if metrics_count points (threshold_metrics rule) (List.filter (rule_selects sets (p ≫= PF_Capabilities) rule true) l) <=? 100000
  then ∃ polls o, witnessed (λ a, target_of l sets rule p a ∧ ∃ metric, metric ∈ threshold_metrics rule ∧ beyond points rule threshold metric a) o ∧
    ∀ live, within live (evaluateRuleOutcome E rule p) = if (live <? polls)%nat then Err ContextEnded else Ok o
  else ∀ live, ∃ e, within live (evaluateRuleOutcome E rule p) = Err e.
Proof.
  intros Hst Hp Hn Hkind Hth HT Hser.
  destruct (prefetched_assets E l sets rule p Hst Hp) as (assets & Ha & Hassets). destruct (targets_exact E l sets rule p Hst assets Hassets) as (out & Hout & Hin & Hids & Hnd).
  assert (Hperm : out ≡ₚ List.filter (rule_selects sets (p ≫= PF_Capabilities) rule true) l).
  { apply NoDup_Permutation; [by eapply NoDup_fmap_1| |].
    - apply NoDup_ListNoDup, List.NoDup_filter, NoDup_ListNoDup. eapply NoDup_fmap_1. apply Hst.
    - intros a. rewrite Hin. by rewrite list_elem_of_In, filter_In, <-list_elem_of_In. }
  rewrite <-(metrics_count_perm _ _ _ _ Hperm).
  pose proof (threshold_metrics_exact E T _ points rule threshold out Hser Hnd Hids (threshold_metrics rule) alertMetricRawPointLimit (λ _, False) newAlertConditionOutcome ltac:(done) ltac:(done))
    as Hloop. specialize (Hloop ltac:(by apply witnessed_new; intros ? [])). cbv zeta in Hloop.
  assert (Heval : ∀ r, (each (threshold_metric E T (Now E - DurationFromSeconds (R_WindowSeconds rule) (DefaultWindowSeconds * Second)) out
      (condition_text (R_Condition rule) "aggregate") (threshold_operator rule) threshold) (alertMetricRawPointLimit, newAlertConditionOutcome) (threshold_metrics rule)).2 = r →
    (evaluateRuleOutcome E rule p).2 = (r ≫= λ acc, (outcome_result acc.2).2)).
  { intros r <-. unfold evaluateRuleOutcome. rewrite poll_then. rewrite (polled_bind_ok _ _ _ Ha). cbv zeta. rewrite Hkind. simpl.
    unfold evaluateMetricThresholdOutcome. rewrite Hth, HT. rewrite (polled_bind_ok _ _ threshold) by done. cbv zeta. rewrite (polled_bind_ok _ _ _ Hout).
    rewrite polled_bind_result. match goal with |- (?m.2 ≫= _) = _ => by destruct (m.2) as [[? ?]|] end. }
  change 100000 with alertMetricRawPointLimit. destruct (metrics_count points (threshold_metrics rule) out <=? alertMetricRawPointLimit).
  - destruct Hloop as ([rem o] & Ho & Hv & Hw). destruct (λ Hname, witnessed_result _ o Hv Hname Hw) as (o' & Ho' & Hw'); [intros a [[]|[[? _]%Hin _]]; by apply Hn|].
    destruct (within_ok (evaluateRuleOutcome E rule p) o') as [polls Hlive]; [by rewrite (Heval _ Ho)|]. exists polls, o'. split; [|done].
    eapply witnessed_ext; [|exact Hw']. intros a. simpl. rewrite Hin. naive_solver.
  - destruct Hloop as [e He]. intros live. destruct (within_cases live (evaluateRuleOutcome E rule p)) as [Hc|Hc]; rewrite Hc; [by eexists|].
    exists e. by rewrite (Heval _ He).
Qed.

(** ** Composites *)

Definition scope_parts : list (FiringScope → list string) := [AssetIDs; GroupIDs; SyntheticCheckIDs].

(** The parts of a scope of names that are all valid are normalised each on its own. *)
Lemma result_parts o :
  Version (Scope o) = 1 → (∀ f x, f ∈ scope_parts → x ∈ f (Scope o) → valid_identity x) →
  ∃ n, (outcome_result o).2 = Ok (MkOutcome (Triggered o) n) ∧ Version n = 1 ∧ ∀ f, f ∈ scope_parts → normalised (f (Scope o)) (f n).
Proof.
  intros Hv Hval. unfold outcome_result. pose proof (normalize_firing_scope_spec (Scope o)) as Hs. destruct (NormalizeFiringScope (Scope o)) as [n|[]]; [|done|].
  - destruct Hs as (_ & ? & ? & ? & ? & _). exists n. split; [done|]. split; [done|]. intros f Hf. unfold scope_parts in Hf.
    repeat (apply elem_of_cons in Hf as [->|Hf]; [done|]). by apply not_elem_of_nil in Hf.
  - exfalso. apply Hs. rewrite !Forall_app, !Forall_forall. unfold scope_parts in Hval.
    split_and!; intros x Hx; [apply (Hval AssetIDs)|apply (Hval GroupIDs)|apply (Hval SyntheticCheckIDs)]; (exact Hx || by repeat (left || right)).
Qed.

Lemma normalised_unique a b r r' : normalised a r → normalised b r' → (∀ x, x ∈ r ↔ x ∈ r') → r = r'.
Proof. intros (_ & Hn & Hs & _) (_ & Hn' & Hs' & _) Heq. apply (StronglySorted_unique String.le); [done..|]. by apply NoDup_Permutation. Qed.

(** What an instance adds to the scope of a composite. *)
Definition included_scope (inst : AlertInstance) : option FiringScope :=
  match I_FirstFiredAt inst, I_FiringScope inst with
  | Some _, Some s => match NormalizeFiringScope s with Ok n => Some n | Err _ => None end
  | _, _ => None
  end.

Lemma included_scope_valid inst n f x : included_scope inst = Some n → f ∈ scope_parts → x ∈ f n → valid_identity x.
Proof.
  unfold included_scope. destruct (I_FirstFiredAt inst); [|done]. destruct (I_FiringScope inst) as [s|]; [|done].
  pose proof (normalize_firing_scope_spec s) as Hs. destruct (NormalizeFiringScope s) as [n'|]; [|done]. intros [= ->] Hf Hx.
  destruct Hs as (_ & _ & (Ha & _ & _ & Ha') & (Hg & _ & _ & Hg') & (Hc & _ & _ & Hc') & _). unfold scope_parts in Hf. rewrite Forall_forall in Ha, Hg, Hc.
  repeat (apply elem_of_cons in Hf as [->|Hf]; [naive_solver|]). by apply not_elem_of_nil in Hf.
Qed.

Lemma include_parts inst o f x :
  let o' := match I_FirstFiredAt inst with Some _ => includeScope (I_FiringScope inst) o | None => o end in
  f ∈ scope_parts → Version (Scope o') = Version (Scope o) ∧ (x ∈ f (Scope o') ↔ x ∈ f (Scope o) ∨ ∃ n, included_scope inst = Some n ∧ x ∈ f n).
Proof.
  intros o' Hf. unfold o', included_scope, includeScope. destruct (I_FirstFiredAt inst); [|naive_solver]. destruct (I_FiringScope inst) as [s|]; [|naive_solver].
  destruct (NormalizeFiringScope s) as [n|]; [|naive_solver]. split; [done|]. unfold scope_parts in Hf.
  repeat (apply elem_of_cons in Hf as [->|Hf]; [simpl; rewrite elem_of_app; naive_solver|]). by apply not_elem_of_nil in Hf.
Qed.

Lemma no_parts f x : f ∈ scope_parts → x ∉ f empty_scope.
Proof.
  intros Hf. unfold scope_parts in Hf. repeat (apply elem_of_cons in Hf as [->|Hf]; [apply not_elem_of_nil|]). by apply not_elem_of_nil in Hf.
Qed.

Definition counts_for (rule : Rule) (inst : AlertInstance) : Prop := I_RuleID inst ∈ composite_ids rule ∧ I_Status inst = InstanceStatusFiring.

Lemma composite_loop rule instances :
  ∃ found o, (each (composite_visit (composite_ids rule)) (∅, newAlertConditionOutcome) instances).2 = Ok (found, o) ∧ Version (Scope o) = 1 ∧
    (∀ id, id ∈ found ↔ ∃ inst, inst ∈ instances ∧ counts_for rule inst ∧ I_RuleID inst = id) ∧
    ∀ f x, f ∈ scope_parts → x ∈ f (Scope o) ↔ ∃ inst n, inst ∈ instances ∧ counts_for rule inst ∧ included_scope inst = Some n ∧ x ∈ f n.
Proof.
  destruct (each_inv (λ done acc, Version (Scope acc.2) = 1 ∧
    (∀ id, id ∈ acc.1 ↔ ∃ inst, inst ∈ done ∧ counts_for rule inst ∧ I_RuleID inst = id) ∧
    ∀ f x, f ∈ scope_parts → x ∈ f (Scope acc.2) ↔ ∃ inst n, inst ∈ done ∧ counts_for rule inst ∧ included_scope inst = Some n ∧ x ∈ f n)
    (composite_visit (composite_ids rule)) (∅, newAlertConditionOutcome) instances) as ([found o] & ? & ?).
  - intros done inst [found o] _ (Hv & Hf & Hs). cbn [fst snd] in *. unfold composite_visit. rewrite poll_then. eexists. split; [done|].
    setoid_rewrite elem_of_app. setoid_rewrite list_elem_of_singleton.
    destruct (bool_decide (I_RuleID inst ∈ composite_ids rule) && bool_decide (I_Status inst = InstanceStatusFiring)) eqn:Hc.
    + assert (Hcount : counts_for rule inst) by (apply andb_true_iff in Hc as [?%bool_decide_eq_true ?%bool_decide_eq_true]; done).
      cbn [fst snd]. split; [rewrite <-Hv; by apply (include_parts inst o AssetIDs ""); left|]. split.
      * intros id. rewrite elem_of_union, elem_of_singleton, Hf. naive_solver.
      * intros f x Hfp. rewrite (proj2 (include_parts inst o f x Hfp)), (Hs f x Hfp). clear Hs Hf. split.
        -- intros [(i & n & Hi & Hci & Hn & Hx)|(n & Hn & Hx)]; [exists i, n|exists inst, n]; split_and!; auto.
        -- intros (i & n & [Hi| ->] & Hci & Hn & Hx); [left; by exists i, n|right; by exists n].
    + assert (Hcount : ¬ counts_for rule inst) by (intros [? ?]; apply andb_false_iff in Hc as [?%bool_decide_eq_false|?%bool_decide_eq_false]; done).
      split; [done|]. split; [intros id; rewrite Hf; naive_solver|]. intros f x Hfp. rewrite (Hs f x Hfp).
      split; [intros (i & n & Hi & ?); exists i, n; by split; [left|]|intros (i & n & [Hi| ->] & Hci & ?); [by exists i, n|done]].
  - split; [done|]. setoid_rewrite elem_of_nil. split; [intros id; cbn [fst]; rewrite elem_of_empty; naive_solver|].
    intros f x Hfp. pose proof (no_parts f x Hfp). naive_solver.
  - by exists found, o.
Qed.

Section composites.
Context `{MapRange} (store : MemoryAlertInstanceStore) (rule : Rule).

(** The firing rows of a store, all or of some rules. *)
Definition read_firing (ids : option (list string)) : option (list AlertInstance) :=
  match ReadFiringAlertInstances None ids store with Ok l => Some l | Err _ => None end.

Definition stored_firing (inst : AlertInstance) : Prop := (∃ id, instances store !! id = Some inst) ∧ I_Status inst = InstanceStatusFiring.

Lemma read_firing_elem ids : ∃ l, read_firing ids = Some l ∧ ∀ inst, inst ∈ l ↔ stored_firing inst ∧ match ids with None => True | Some ids => I_RuleID inst ∈ ids end.
Proof.
  eexists. split; [done|]. intros inst. rewrite list_elem_of_omap. unfold sort_strings. setoid_rewrite merge_sort_Permutation. setoid_rewrite list_elem_of_fmap.
  unfold stored_firing. split.
  - intros (id & ((id' & v) & -> & Hin) & Hl). rewrite list_elem_of_In, filter_In, <-list_elem_of_In in Hin. destruct Hin as [Hr%elem_of_range Hc].
    cbn [fst snd] in *. rewrite Hl in Hr. injection Hr as ->. apply andb_true_iff in Hc as [?%bool_decide_eq_true Hr]. split; [by split; [exists id'|]|].
    destruct ids; [by apply bool_decide_eq_true in Hr|done].
  - intros [[[id Hl] Hf] Hr]. exists id. split; [|done]. exists (id, inst). split; [done|]. rewrite list_elem_of_In, filter_In, <-list_elem_of_In.
    split; [by apply elem_of_range|]. cbn [snd]. rewrite bool_decide_eq_true_2 by done. destruct ids; [by apply bool_decide_eq_true|done].
Qed.

Definition any_rule : bool := match any_lookup "operator" (R_Condition rule) with Some (AStr s) => bool_decide (s = "or") | _ => false end.

(** The rules of the composite that fire *)
Definition fires (id : string) : Prop := ∃ inst, stored_firing inst ∧ I_RuleID inst = id.

Definition composite_holds : Prop :=
  if any_rule then ∃ id, id ∈ composite_ids rule ∧ fires id else composite_ids rule ≠ ∅ ∧ ∀ id, id ∈ composite_ids rule → fires id.

(** The outcome: a scope of exactly the names in the scopes of the instances of its rules. *)
Definition composite_outcome (o : alertConditionOutcome) : Prop :=
  (Triggered o = true ↔ composite_holds) ∧ Version (Scope o) = 1 ∧
  ∀ f, f ∈ scope_parts → (∃ given, normalised given (f (Scope o))) ∧
    ∀ x, x ∈ f (Scope o) ↔ composite_holds ∧ ∃ inst n, stored_firing inst ∧ I_RuleID inst ∈ composite_ids rule ∧ included_scope inst = Some n ∧ x ∈ f n.

Lemma composite_outcome_unique o o' : composite_outcome o → composite_outcome o' → o = o'.
Proof.
  intros (Ht & Hv & Hs) (Ht' & Hv' & Hs').
  assert (Hparts : ∀ f, f ∈ scope_parts → f (Scope o) = f (Scope o')).
  { intros f Hf. destruct (Hs f Hf) as [[g Hg] Hx], (Hs' f Hf) as [[g' Hg'] Hx']. apply (normalised_unique g g'); [done..|]. intros x. by rewrite Hx, Hx'. }
  destruct o as [t [v a g c]], o' as [t' [v' a' g' c']]. simpl in *. subst v v'.
  f_equal; [apply eq_true_iff_eq; by rewrite Ht, Ht'|]. f_equal; [apply (Hparts AssetIDs)|apply (Hparts GroupIDs)|apply (Hparts SyntheticCheckIDs)]; by repeat (left || right).
Qed.

Lemma composite_outcome_none : ¬ composite_holds → composite_outcome newAlertConditionOutcome.
Proof.
  intros Hno. split; [split; [done|by intros ?%Hno]|]. split; [done|]. intros f Hf. split; [|intros x; split; [by intros ?%no_parts|by intros [?%Hno _]]].
  exists []. unfold scope_parts in Hf. repeat (apply elem_of_cons in Hf as [->|Hf]; [by repeat constructor; intros ?|]). by apply not_elem_of_nil in Hf.
Qed.

(** Any list of the firing rows of its rules will do, whatever else it holds. *)
Lemma composite_of (E : condition_env) known l :
  match known with Some l => Some l | None => FiringInstances E (Some (merge_sort String.le (elements (composite_ids rule)))) end = Some l →
  (∀ inst, I_RuleID inst ∈ composite_ids rule → I_Status inst = InstanceStatusFiring → inst ∈ l ↔ stored_firing inst) →
  ∃ o, (evaluateCompositeOutcome E rule known).2 = Ok o ∧ composite_outcome o.
Proof.
  intros Hl Hin. unfold evaluateCompositeOutcome. cbv zeta. case_bool_decide as Hempty.
  { eexists. split; [done|]. apply composite_outcome_none. unfold composite_holds. rewrite Hempty. destruct any_rule; [intros (? & ?%not_elem_of_empty & _); done|by intros [? _]]. }
  rewrite Hl. rewrite (polled_bind_ok _ _ l) by done. destruct (composite_loop rule l) as (found & o & Hok & Hv & Hf & Hs).
  rewrite (polled_bind_ok _ _ _ Hok). rewrite poll_then. cbv zeta. fold any_rule. set (holds := if any_rule then _ else _).
  assert (Hcount : ∀ inst, inst ∈ l ∧ counts_for rule inst ↔ stored_firing inst ∧ I_RuleID inst ∈ composite_ids rule).
  { intros inst. unfold counts_for. split; [intros (Hi & Hr & Hst); split; [by apply Hin|done]|]. intros [Hi Hr]. assert (I_Status inst = InstanceStatusFiring) by apply Hi. by rewrite Hin. }
  assert (Hfound : ∀ id, id ∈ found ↔ id ∈ composite_ids rule ∧ fires id).
  { intros id. rewrite Hf. unfold fires. split.
    - intros (inst & Hi & Hc & <-). destruct (proj1 (Hcount inst)) as [? ?]; [done|]. split; [done|]. by exists inst.
    - intros (Hid & inst & Hi & <-). exists inst. destruct (proj2 (Hcount inst)); done. }
  assert (Hholds : holds = true ↔ composite_holds).
  { unfold holds, composite_holds. destruct any_rule.
    - rewrite negb_true_iff, bool_decide_eq_false. split; [intros [id ?%Hfound]%set_choose_L; by exists id|]. intros (id & Hid%Hfound) He. rewrite He in Hid. by apply (not_elem_of_empty (C := gset string) id).
    - assert (Hsub : found ⊆ composite_ids rule) by (intros id ?%Hfound; naive_solver). rewrite bool_decide_eq_true. split.
      + intros Hsize. split; [done|]. intros id Hid. rewrite <-(set_subseteq_size_eq found (composite_ids rule)) in Hid by (done || lia). by apply Hfound in Hid as [_ ?].
      + intros [_ Hall]. f_equal. apply set_eq. intros id. rewrite Hfound. split; [by intros [? _]|]. intros Hid. by auto. }
  destruct holds.
  - destruct (result_parts (MkOutcome true (Scope o)) Hv) as (n & Hn & Hvn & Hparts).
    { intros f x Hfp (inst & k & _ & _ & Hk & Hx)%(Hs f x Hfp). by eapply included_scope_valid. }
    eexists. split; [exact Hn|]. assert (composite_holds) by (by apply Hholds). split; [done|]. split; [done|]. intros f Hfp. split; [by eexists; apply Hparts|].
    intros x. destruct (Hparts f Hfp) as (_ & _ & _ & Hx). cbn [Scope] in *. rewrite Hx, (Hs f x Hfp). split.
    + intros (inst & k & Hi & Hc & ?). destruct (proj1 (Hcount inst)); [done|]. split; [done|]. by exists inst, k.
    + intros (_ & inst & k & Hi & Hc & ?). exists inst, k. destruct (proj2 (Hcount inst)); done.
  - eexists. split; [done|]. apply composite_outcome_none. by intros ?%Hholds.
Qed.
End composites.

(** A composite is triggered exactly when one ([or]) or all of its rules have a firing instance in the store, and then
    its scope is the union of the scopes of exactly the instances of its rules that have fired. The outcome is the same whether it reads the instances of its rules from
    the store or uses the snapshot of the tick, which is only used when it is complete. *)
Theorem composite_exact `{MapRange} E store rule :
  R_Kind rule = RuleKindComposite → (∀ ids, FiringInstances E ids = read_firing store ids) →
  ∃ o, composite_outcome store rule o ∧
    ∀ p, (∀ pf, p = Some pf → PF_Firing pf = None ∨ PF_Firing pf = prefetchFiringInstances E) →
      ∃ polls, ∀ live, within live (evaluateRuleOutcome E rule p) = if (live <? polls)%nat then Err ContextEnded else Ok o.
Proof.
  intros Hkind Hstore.
  assert (Hdirect : ∃ o, (evaluateCompositeOutcome E rule None).2 = Ok o ∧ composite_outcome store rule o).
  { destruct (read_firing_elem store (Some (merge_sort String.le (elements (composite_ids rule))))) as (l & Hl & Hin). apply (composite_of store rule E None l).
    - by rewrite Hstore.
    - intros inst Hr _. rewrite Hin, merge_sort_Permutation, elem_of_elements. naive_solver. }
  destruct Hdirect as (o & Ho & Hspec). exists o. split; [done|]. intros p Hp. apply within_ok.
  assert (Heval : (evaluateRuleOutcome E rule p).2 = (evaluateCompositeOutcome E rule (p ≫= PF_Firing)).2).
  { unfold evaluateRuleOutcome. rewrite poll_then.
    assert (Ha : ∃ assets, (match p with None => mret None | Some p => prefetchedRuleAssets E rule p end : polled (option (list AlertAsset))).2 = Ok assets).
    { destruct p as [pf|]; [|by eexists]. unfold prefetchedRuleAssets. destruct (PF_Snapshot pf); [|by eexists]. rewrite Hkind. by eexists. }
    destruct Ha as [assets Ha]. rewrite (polled_bind_ok _ _ _ Ha). cbv zeta. by rewrite Hkind. }
  rewrite Heval. destruct p as [pf|]; [|done]. cbn [mbind option_bind]. destruct (Hp pf eq_refl) as [Hf|Hf]; rewrite Hf; [done|].
  unfold prefetchFiringInstances. rewrite Hstore. destruct (read_firing_elem store None) as (l & Hl & Hin). rewrite Hl. cbn [mbind option_bind].
  destruct (prefetch_limit <=? length l)%nat; [done|].
  destruct (composite_of store rule E (Some l) l) as (o' & Ho' & Hspec'); [done|intros inst _ _; rewrite Hin; naive_solver|].
  rewrite Ho'. f_equal. by eapply composite_outcome_unique.
Qed.

End conditions.

(** ** Witnesses *)

#[local] Existing Instance demo_number_text.
#[local] Existing Instance range_in_key_order.
(** A decimal integer as a number. *)
#[local] Instance demo_float : GoFloat := { ParseFloat := λ s, f64_of_int <$> Atoi s; int_overflow := λ _, 0 }.

Definition demo_points (metric id : string) : list f64 :=
  f64_of_int <$> (if decide (metric = "cpu_used_percent") then if decide (id = "db") then [80; 97] else if decide (id = "nas") then [50; 60] else [] else []).
Definition demo_samples (id : string) : list (string * time) := if decide (id = "db") then [("cpu_used_percent", 900 * Second)] else if decide (id = "nas") then [("temperature_celsius", 100 * Second)] else [].
Definition demo_sampled (metric : option string) (from to : time) (id : string) : bool :=
  existsb (λ s : string * time, match metric with None => true | Some m => bool_decide (s.1 = m) end && (from <=? s.2) && (s.2 <=? to)) (demo_samples id).
Definition demo_telemetry : telemetry_store := {|
  MetricSeriesBatch := λ ids metric _ _ limit,
    if Z.of_nat (sum_list_with (λ id, length (demo_points metric id)) ids) <=? limit then Some (list_to_map ((λ id, (id, demo_points metric id)) <$> ids)) else None;
  AssetsWithMetricSamples := λ ids metric from to, Some (list_to_set (List.filter (demo_sampled (Some metric) from to) ids));
  HasTelemetrySamples := λ ids from to, Some (list_to_set (List.filter (demo_sampled None from to) ids)) |}.
Definition demo_conditions : condition_env := {|
  Targets := demo_stores; Now := 1000 * Second; TelemetryStore := Some demo_telemetry;
  LogStore := Some (λ _, Some [MkEvent "db" "disk full" ∅]); Regexp := λ pattern, Some (λ s, bool_decide (s = pattern)); LookupAsset := λ _, None;
  SyntheticStore := None; ResolveService := None; FiringInstances := read_firing demo_firing |}.
Definition demo_condition_rule (kind : string) (condition : anymap) : Rule :=
  let r := demo_selector_rule in {|
  R_ID := R_ID r; R_Name := ""; R_Description := ""; R_Status := "active"; R_Kind := kind; R_Severity := "high"; R_TargetScope := "asset";
  R_CooldownSeconds := 0; R_ReopenAfterSeconds := 0; R_EvaluationIntervalSeconds := 30; R_WindowSeconds := 300; R_Condition := condition; R_Labels := ∅; R_Metadata := ∅;
  R_Targets := R_Targets r; R_CreatedBy := ""; R_CreatedAt := 0; R_UpdatedAt := 0; R_LastEvaluatedAt := None; R_LastAutoAttemptAt := None |}.
Definition demo_metric_rule : Rule :=
  demo_condition_rule RuleKindMetricThreshold [("metric", AStr "cpu_used_percent"); ("operator", AStr ">="); ("value", ANum "97"); ("aggregate", AStr "max")].
Definition demo_deadman_rule : Rule := demo_condition_rule RuleKindMetricDeadman [("max_silence_seconds", ANum "1000")].
Definition demo_composite_rule : Rule := demo_condition_rule RuleKindComposite [("rule_ids", AList [AStr "arl_1"; AStr ""]); ("operator", AStr "and")].

Definition demo_outcome (rule : Rule) : option (bool * list string * list string) :=
  match within 999 (evaluateRuleOutcome demo_conditions rule None) with Ok o => Some (Triggered o, AssetIDs (Scope o), GroupIDs (Scope o)) | Err _ => None end.

Lemma demo_nameable (a : AlertAsset) : a ∈ demo_inventory → nameable a.
Proof.
  intros Ha. unfold demo_inventory in Ha. repeat (apply elem_of_cons in Ha as [->|Ha]; [split; [by vm_compute|first [by left|by right; vm_compute]]|]). by apply not_elem_of_nil in Ha.
Qed.

Lemma demo_activity : activity_from demo_telemetry demo_samples.
Proof.
  split; intros.
  - eexists. split; [done|]. intros id Hid _ _. rewrite elem_of_list_to_set, list_elem_of_In, filter_In, <-list_elem_of_In. unfold demo_sampled. rewrite existsb_elem. split.
    + intros (_ & [m t] & Hs & Hc). cbn [fst snd] in Hc. exists t. apply andb_true_iff in Hc as [[->%bool_decide_eq_true ?]%andb_true_iff ?]. split; [done|]. lia.
    + intros (t & Hs & Ht). split; [done|]. exists (metric, t). split; [done|]. cbn [fst snd]. rewrite bool_decide_eq_true_2 by done. lia.
  - eexists. split; [done|]. intros id Hid _ _. rewrite elem_of_list_to_set, list_elem_of_In, filter_In, <-list_elem_of_In. unfold demo_sampled. rewrite existsb_elem. split.
    + intros (_ & [m t] & Hs & Hc). cbn [fst snd] in Hc. exists m, t. split; [done|]. lia.
    + intros (m & t & Hs & Ht). split; [done|]. exists (m, t). split; [done|]. cbn [fst snd]. lia.
Qed.

Lemma demo_series start now : series_from demo_telemetry start now demo_points.
Proof.
  intros ids metric limit _ Hnd _. simpl. case_match; [|done]. eexists. split; [done|]. intros id Hid.
  rewrite (elem_of_list_to_map_1' _ id (demo_points metric id)); [done| |by apply (list_elem_of_fmap_2 (λ id, (id, demo_points metric id)))].
  intros y (? & [= <- ->] & _)%list_elem_of_fmap. done.
Qed.

Lemma condition_scope_settled_witness :
  ∃ o, within 999 (evaluateRuleOutcome demo_conditions demo_metric_rule None) = Ok o ∧ AssetIDs (Scope o) = ["db"] ∧
    NormalizeFiringScope (Scope o) = Ok (Scope o) ∧ (Triggered o = false → Scope o = empty_scope).
Proof.
  destruct (within 999 (evaluateRuleOutcome demo_conditions demo_metric_rule None)) as [o|e] eqn:Ho; [|by vm_compute in Ho].
  exists o. split; [done|]. split; [vm_compute in Ho; by injection Ho as <-|]. exact (condition_scope_settled _ _ _ _ _ Ho).
Defined.

Lemma silence_exact_witness :
  demo_outcome demo_deadman_rule = Some (true, ["web"], []) ∧
  ∃ polls o, ∀ live, within live (evaluateRuleOutcome demo_conditions demo_deadman_rule None) = if (live <? polls)%nat then Err ContextEnded else Ok o.
Proof.
  split; [by vm_compute|].
  destruct (silence_exact demo_conditions demo_inventory (Some demo_sets) demo_samples demo_deadman_rule None (1000 * Second) "") as (polls & o & _ & Hlive);
    [exact demo_answers|done|exact demo_nameable|by vm_compute|right; split; [done|]; exists demo_telemetry; split; [done|exact demo_activity]|].
  by exists polls, o.
Defined.

Lemma metric_never_partial_witness :
  demo_outcome demo_metric_rule = Some (true, ["db"], ["Rack-1"]) ∧
  ∃ polls o, ∀ live, within live (evaluateRuleOutcome demo_conditions demo_metric_rule None) = if (live <? polls)%nat then Err ContextEnded else Ok o.
Proof.
  split; [by vm_compute|].
  pose proof (metric_never_partial demo_conditions demo_telemetry demo_inventory (Some demo_sets) demo_points demo_metric_rule None (f64_of_int 97)
    demo_answers ltac:(done) demo_nameable ltac:(done) ltac:(by vm_compute) ltac:(done) (demo_series _ _)) as Hm.
  match type of Hm with if ?c then _ else _ => replace c with true in Hm by (symmetry; by vm_compute) end.
  destruct Hm as (polls & o & _ & Hlive). by exists polls, o.
Defined.

Lemma composite_exact_witness :
  demo_outcome demo_composite_rule = Some (true, ["a"; "b"], []) ∧
  ∃ o, composite_outcome demo_firing demo_composite_rule o ∧
    ∃ polls, ∀ live, within live (evaluateRuleOutcome demo_conditions demo_composite_rule None) = if (live <? polls)%nat then Err ContextEnded else Ok o.
Proof.
  split; [by vm_compute|]. destruct (composite_exact demo_conditions demo_firing demo_composite_rule) as (o & Ho & Hp); [done|done|].
  exists o. split; [done|]. by apply Hp.
Defined.
