(* ===== verification/TelemetryStore.v ===== *)
(** * The store of telemetry

    The in-memory store of metric samples ([internal/persistence/memory_telemetry_store.go], [memory_metric_query_context.go],
    [memory_telemetry_labeled_snapshot.go], [telemetry_metric_activity.go], [telemetry_sample_bounds.go]) with the bounds and the
    closed schema of [internal/telemetry/models.go]. It keeps what [AlertConditions] asks of a telemetry store.

    The JSON text of labels and the order in which [sort.Slice] leaves points of the same second are arguments. *)

From Stdlib Require Import SpecFloat.
From S2P Require Import Prelude GoStrings Alerts Assets AlertTargets AlertConditions.

(** ** Samples *)

Record MetricSample := MkSample {
  MS_AssetID : string; MS_Scope : string; MS_Metric : string; MS_Unit : string; MS_Value : f64; MS_CollectedAt : time; MS_Labels : gmap string string }.

Inductive telemetry_error :=
| ErrMetricSampleBatchLimitExceeded | ErrMetricSampleBatchBytesExceeded | ErrHubMetricSnapshotLimitExceeded | ErrTelemetryQueryLimitExceeded
| ErrTelemetrySnapshotSeriesLimitExceeded | ErrTelemetrySnapshotRowLimitExceeded | ErrTelemetrySnapshotAssetLimitExceeded
| ErrSampleEnvelope | ErrHubSample | ErrAssetSample | ErrQuery | ErrTelemetryContext (e : ctx_error).

Definition MaxMetricNameBytes : Z := 256.
Definition MaxMetricUnitBytes : Z := 64.
Definition MaxMetricIdentityBytes : Z := 1024.
Definition MaxMetricLabelsPerSample : Z := 64.
Definition MaxMetricLabelKeyBytes : Z := 128.
Definition MaxMetricLabelValueBytes : Z := 1024.
Definition MaxMetricLabelsBytes : Z := 8 * 1024.
Definition MaxMetricSampleBytes : Z := 16 * 1024.
Definition MaxMetricSamplesPerAppend : Z := 50000.
Definition MaxMetricAppendBytes : Z := 64 * 1024 * 1024.
Definition MaxHubMetricSeriesPerScope : Z := 1024.
Definition MaxHubMetricSnapshotSeries : Z := 3 * MaxHubMetricSeriesPerScope.
Definition MaxHubMetricHistoryPerSeries : Z := 16.
Definition HubMetricSnapshotMaxAge : duration := 15 * 60 * Second.
Definition PrometheusAssetSnapshotMaxAge : duration := 15 * 60 * Second.
Definition MaxPrometheusSnapshotAssets : Z := 5000.
Definition MaxPrometheusAssetMetricRows : Z := 100000.
Definition MaxPrometheusAssetMetricSeries : Z := 10000.
Definition maxSamplesPerAsset : nat := 1000.

Definition bytes (s : string) : Z := Z.of_nat (length (chars s)).
Definition size_of {A} (l : list A) : Z := Z.of_nat (length l).

(** What [unicode/utf8] calls valid: the byte ranges of each lead byte. *)
Definition cont (lo hi : N) (c : ascii) : bool := let n := byte_of c in ((lo <=? n) && (n <=? hi))%N.
Fixpoint ValidUTF8 (l : list ascii) : bool :=
  match l with
  | [] => true
  | a :: l1 =>
      let x := byte_of a in
      if (x <? 128)%N then ValidUTF8 l1
      else match l1 with
           | [] => false
           | b :: l2 =>
               if ((194 <=? x) && (x <=? 223))%N then cont 128 191 b && ValidUTF8 l2
               else match l2 with
                    | [] => false
                    | c :: l3 =>
                        if ((224 <=? x) && (x <=? 239))%N then
                          cont (if (x =? 224)%N then 160 else 128) (if (x =? 237)%N then 159 else 191) b && cont 128 191 c && ValidUTF8 l3
                        else match l3 with
                             | [] => false
                             | d :: l4 =>
                                 ((240 <=? x) && (x <=? 244))%N &&
                                 cont (if (x =? 240)%N then 144 else 128) (if (x =? 244)%N then 143 else 191) b && cont 128 191 c && cont 128 191 d && ValidUTF8 l4
                             end
                    end
           end
  end.

Definition field_ok (max : Z) (s : string) : bool := negb (max <? bytes s) && ValidUTF8 (chars s) && negb (contains_char s "000").

(** The encoding of labels by [encoding/json]: different labels have different texts. *)
Class LabelsJSON := labels_json : gmap string string → string.

Section store.
Context `{LabelsJSON}.

Definition MetricSampleEnvelopeBytes (sample : MetricSample) : result telemetry_error Z :=
  let identity := [(MS_AssetID sample, MaxMetricIdentityBytes); (MS_Scope sample, MaxMetricIdentityBytes); (MS_Metric sample, MaxMetricNameBytes); (MS_Unit sample, MaxMetricUnitBytes)] in
  let labelBytes := if bool_decide (MS_Labels sample = ∅) then 0 else bytes (labels_json (MS_Labels sample)) in
  let total := foldl (λ n f, n + bytes f.1) 32 identity + labelBytes in
  if negb (bool_decide (is_Some (finiteFloat64 (MS_Value sample)))) then Err ErrSampleEnvelope
  else if negb (forallb (λ f, field_ok f.2 f.1) identity) then Err ErrSampleEnvelope
  else if MaxMetricLabelsPerSample <? Z.of_nat (size (MS_Labels sample)) then Err ErrSampleEnvelope
  else if negb (forallb (λ kv : string * string, negb (is_empty kv.1) && field_ok MaxMetricLabelKeyBytes kv.1 && field_ok MaxMetricLabelValueBytes kv.2) (map_to_list (MS_Labels sample))) then
    Err ErrSampleEnvelope
  else if MaxMetricLabelsBytes <? labelBytes then Err ErrSampleEnvelope
  else if MaxMetricSampleBytes <? total then Err ErrSampleEnvelope
  else Ok total.

(** The loop of [validateMetricSampleBatch]. *)
Definition batch_bytes (total : Z) (sample : MetricSample) : result telemetry_error Z :=
  n ← MetricSampleEnvelopeBytes sample; if MaxMetricAppendBytes <? total + n then Err ErrMetricSampleBatchBytesExceeded else Ok (total + n).

Definition telemetry_check (ctx : Ctx) : result telemetry_error unit := match ctx with Some e => Err (ErrTelemetryContext e) | None => Ok tt end.

Definition validateMetricSampleBatch (ctx : Ctx) (samples : list MetricSample) : result telemetry_error unit :=
  if MaxMetricSamplesPerAppend <? size_of samples then Err ErrMetricSampleBatchLimitExceeded
  else _ ← telemetry_check ctx; _ ← fold_result batch_bytes 0 samples; Ok tt.

(** ** The closed schema of the samples of the hub itself *)

Definition HubMetricLabelKeys (scope metric : string) : option (list string) :=
  let scope := trim_space scope in let metric := trim_space metric in
  if bool_decide (scope = "hub-alerts") then
    if bool_decide (metric ∈ ["alerts_firing"; "alerts_rules"]) then Some []
    else if bool_decide (metric = "alert_evaluation_duration_ms") then Some ["rule_id"; "rule_name"] else None
  else if bool_decide (scope = "hub-reliability") then
    if bool_decide (metric = "site_reliability_score") then Some ["site_id"; "site_name"] else None
  else if bool_decide (scope = "hub-synthetic") then
    if bool_decide (metric ∈ ["synthetic_latency_ms"; "synthetic_status"]) then Some ["check_id"; "check_name"; "check_type"] else None
  else None.

Definition hub_unit (metric : string) : string :=
  if bool_decide (metric ∈ ["alerts_firing"; "alerts_rules"]) then "count"
  else if bool_decide (metric = "alert_evaluation_duration_ms") then "ms"
  else if bool_decide (metric = "site_reliability_score") then "score"
  else if bool_decide (metric = "synthetic_latency_ms") then "ms"
  else if bool_decide (metric = "synthetic_status") then "status"
  else "".

Definition hub_label (labels : gmap string string) (canonical : gmap string string) (key : string) : result telemetry_error (gmap string string) :=
  match labels !! key with
  | None => Err ErrHubSample
  | Some value => let value := trim_space value in if has_suffix key "_id" && is_empty value then Err ErrHubSample else Ok (<[key := value]> canonical)
  end.

Definition NormalizeHubMetricLabels (scope metric : string) (labels : gmap string string) : result telemetry_error (gmap string string) :=
  match HubMetricLabelKeys scope metric with
  | None => Err ErrHubSample
  | Some [] => if bool_decide (labels = ∅) then Ok ∅ else Err ErrHubSample
  | Some keys => if negb (bool_decide (size labels = length keys)) then Err ErrHubSample else fold_result (hub_label labels) ∅ keys
  end.

Definition NormalizeHubMetricSample (sample : MetricSample) : result telemetry_error MetricSample :=
  let scope := trim_space (MS_Scope sample) in let metric := trim_space (MS_Metric sample) in let unit := trim_space (MS_Unit sample) in
  if is_empty scope || negb (is_empty (MS_AssetID sample)) then Err ErrHubSample
  else
    labels ← NormalizeHubMetricLabels scope metric (MS_Labels sample);
    if negb (bool_decide (unit = hub_unit metric)) then Err ErrHubSample
    else Ok (MkSample "" scope metric unit (MS_Value sample) (MS_CollectedAt sample) labels).

(** [hubMetricSeriesKey], [assetMetricSeriesKey] *)
Definition series_key (sample : MetricSample) : string :=
  String.append (MS_Metric sample) (String "000" (if bool_decide (MS_Labels sample = ∅) then "{}" else labels_json (MS_Labels sample))).

(** ** The store *)

Record MemoryTelemetryStore := MkTelemetryStore { samples : gmap string (list MetricSample); hubSamples : gmap string (list MetricSample) }.
Definition NewMemoryTelemetryStore : MemoryTelemetryStore := MkTelemetryStore ∅ ∅.
Definition asset_samples (m : MemoryTelemetryStore) (id : string) : list MetricSample := default [] (samples m !! id).
Definition hub_samples (m : MemoryTelemetryStore) (scope : string) : list MetricSample := default [] (hubSamples m !! scope).

(** The first loop of [AppendSamples]: the samples prepared so far, and the series of each scope. *)
Definition prepare_sample (now : time) (acc : list MetricSample * gmap string (gset string)) (s : MetricSample) :
    result telemetry_error (list MetricSample * gmap string (gset string)) :=
  let '(prepared, incoming) := acc in
  let at_ := if MS_CollectedAt s =? zero_time then now else MS_CollectedAt s in
  let scope := trim_space (MS_Scope s) in
  if negb (is_empty scope) then
    n ← NormalizeHubMetricSample (MkSample (MS_AssetID s) scope (MS_Metric s) (MS_Unit s) (MS_Value s) (MS_CollectedAt s) (MS_Labels s));
    let series := {[series_key n]} ∪ default ∅ (incoming !! scope) in
    if MaxHubMetricSeriesPerScope <? Z.of_nat (size series) then Err ErrHubMetricSnapshotLimitExceeded
    else Ok (prepared ++ [MkSample (MS_AssetID n) (MS_Scope n) (MS_Metric n) (MS_Unit n) (MS_Value n) at_ (MS_Labels n)], <[scope := series]> incoming)
  else
    let assetID := trim_space (MS_AssetID s) in let metric := trim_space (MS_Metric s) in let unit := trim_space (MS_Unit s) in
    if is_empty assetID || is_empty metric || is_empty unit then Err ErrAssetSample
    else Ok (prepared ++ [MkSample assetID "" metric unit (MS_Value s) at_ (MS_Labels s)], incoming).

(** [sort.SliceStable] by time *)
Definition older (a b : MetricSample) : Prop := MS_CollectedAt a <= MS_CollectedAt b.
#[export] Instance older_dec : RelDecision older := λ a b, decide (MS_CollectedAt a <= MS_CollectedAt b).

(** The eviction from an asset that was written. *)
Definition evict (l : list MetricSample) : list MetricSample :=
  if (maxSamplesPerAsset <? length l)%nat then drop (length l - maxSamplesPerAsset * 4 / 5) (merge_sort older l) else l.

(** The order of [compactHubMetricHistory]: newest first, and of the same time the later index first. *)
Definition newer (a b : nat * MetricSample) : Prop :=
  MS_CollectedAt b.2 < MS_CollectedAt a.2 ∨ MS_CollectedAt a.2 = MS_CollectedAt b.2 ∧ (b.1 <= a.1)%nat.
#[export] Instance newer_dec : RelDecision newer.
Proof. intros a b. unfold newer. apply _. Defined.

Definition keep_candidate (acc : gmap string Z * gset nat) (candidate : nat * MetricSample) : gmap string Z * gset nat :=
  let '(seriesCounts, kept) := acc in
  let key := series_key candidate.2 in
  match seriesCounts !! key with
  | None => if MaxHubMetricSeriesPerScope <=? Z.of_nat (size seriesCounts) then acc else (<[key := 1]> seriesCounts, {[candidate.1]} ∪ kept)
  | Some count => if MaxHubMetricHistoryPerSeries <=? count then acc else (<[key := count + 1]> seriesCounts, {[candidate.1]} ∪ kept)
  end.

Definition compactHubMetricHistory (l : list MetricSample) : list MetricSample :=
  let newest := merge_sort newer (imap (λ i s, (i, s)) l) in
  let kept := (foldl keep_candidate (∅, ∅) newest).2 in
  omap (λ ix : nat * MetricSample, if decide (ix.1 ∈ kept) then Some ix.2 else None) (imap (λ i s, (i, s)) l).

Definition write_sample (m : MemoryTelemetryStore) (s : MetricSample) : MemoryTelemetryStore :=
  if negb (is_empty (MS_Scope s)) then MkTelemetryStore (samples m) (<[MS_Scope s := hub_samples m (MS_Scope s) ++ [s]]> (hubSamples m))
  else MkTelemetryStore (<[MS_AssetID s := asset_samples m (MS_AssetID s) ++ [s]]> (samples m)) (hubSamples m).

Definition evict_asset (m : MemoryTelemetryStore) (id : string) : MemoryTelemetryStore :=
  MkTelemetryStore (<[id := evict (asset_samples m id)]> (samples m)) (hubSamples m).
Definition compact_scope (m : MemoryTelemetryStore) (scope : string) : MemoryTelemetryStore :=
  MkTelemetryStore (samples m) (<[scope := compactHubMetricHistory (hub_samples m scope)]> (hubSamples m)).

(** The assets and the scopes of the prepared samples *)
Definition written_assets (l : list MetricSample) : gset string := list_to_set (MS_AssetID <$> filter (λ s, MS_Scope s = "") l).
Definition written_scopes (l : list MetricSample) : gset string := list_to_set (MS_Scope <$> filter (λ s, MS_Scope s ≠ "") l).

Definition write_all (m : MemoryTelemetryStore) (prepared : list MetricSample) : MemoryTelemetryStore :=
  let m := foldl write_sample m prepared in
  let m := foldl evict_asset m (elements (written_assets prepared)) in
  foldl compact_scope m (elements (written_scopes prepared)).

Definition prepareSamples (ctx : Ctx) (now : time) (new : list MetricSample) : result telemetry_error (list MetricSample) :=
  _ ← validateMetricSampleBatch ctx new; r ← fold_result (prepare_sample now) ([], ∅) new; Ok r.1.

Definition AppendSamples (ctx : Ctx) (now : time) (new : list MetricSample) (m : MemoryTelemetryStore) : MemoryTelemetryStore * result telemetry_error unit :=
  match new with
  | [] => (m, Ok tt)
  | _ =>
      match prepareSamples ctx now new with
      | Err e => (m, Err e)
      | Ok prepared => (write_all m prepared, Ok tt)
      end
  end.

(** ** Queries *)

(** [normalizeLogAssetIDs] *)
Fixpoint distinct_ids (seen : gset string) (input : list string) : list string :=
  match input with
  | [] => []
  | raw :: input =>
      let id := trim_space raw in
      if is_empty id || bool_decide (id ∈ seen) then distinct_ids seen input else id :: distinct_ids ({[id]} ∪ seen) input
  end.
Definition normalizeLogAssetIDs (input : list string) : list string := distinct_ids ∅ input.

Definition in_window (start end_ : time) (s : MetricSample) : bool := (start <=? MS_CollectedAt s) && (MS_CollectedAt s <=? end_).

Definition HasTelemetrySamplesContext (ctx : Ctx) (assetIDs : list string) (start end_ : time) (m : MemoryTelemetryStore) : result telemetry_error (gset string) :=
  _ ← telemetry_check ctx;
  Ok (list_to_set (List.filter (λ id, negb (is_empty id) && existsb (in_window start end_) (asset_samples m id)) (trim_space <$> assetIDs))).

Definition AssetsWithMetricSamplesContext (ctx : Ctx) (assetIDs : list string) (metric : string) (start end_ : time) (m : MemoryTelemetryStore) :
    result telemetry_error (gset string) :=
  _ ← telemetry_check ctx;
  let metric := trim_space metric in
  if is_empty metric || (end_ <? start) then Err ErrQuery
  else Ok (list_to_set (List.filter (λ id, existsb (λ s, bool_decide (MS_Metric s = metric) && in_window start end_ s) (asset_samples m id)) (normalizeLogAssetIDs assetIDs))).

Record Point := MkPoint { TS : Z; Value : f64 }.
(** [Time.Unix] *)
Definition unix (t : time) : Z := t / Second.
Definition point_of (s : MetricSample) : Point := MkPoint (unix (MS_CollectedAt s)) (MS_Value s).

(** [sort.Slice] by second: some order of the points that is sorted. *)
Class SortPoints := {
  sort_points : list Point → list Point;
  sort_points_perm l : sort_points l ≡ₚ l;
  sort_points_sorted l : StronglySorted (λ p q, TS p <= TS q) (sort_points l) }.

(** The accumulator of [BucketAveragePoints]: the points that were flushed, and the bucket with its sum and count. *)
Definition bucket_point (seconds : Z) (acc : list Point * option (Z * f64 * Z)) (p : Point) : list Point * option (Z * f64 * Z) :=
  let '(out, current) := acc in
  let bucket := Z.quot (TS p) seconds * seconds in
  match current with
  | None => (out, Some (bucket, f64_add (f64_of_int 0) (Value p), 1))
  | Some (b, sum, count) =>
      if bucket =? b then (out, Some (b, f64_add sum (Value p), count + 1))
      else (out ++ [MkPoint b (f64_div sum (f64_of_int count))], Some (bucket, f64_add (f64_of_int 0) (Value p), 1))
  end.
Definition BucketAveragePoints (points : list Point) (step : duration) : list Point :=
  if bool_decide (points = []) || (step <=? 0) then points
  else
    let seconds := step / Second in
    if seconds <=? 1 then points
    else match foldl (bucket_point seconds) ([], None) points with
         | (out, Some (b, sum, count)) => out ++ [MkPoint b (f64_div sum (f64_of_int count))]
         | (out, None) => out
         end.
Definition LastPointValue (points : list Point) : option f64 := Value <$> last points.

Record Series := MkSeries { SE_Metric : string; SE_Unit : string; SE_Points : list Point; SE_Current : option f64 }.
Definition canonical_units : list (string * string) :=
  [("cpu_used_percent", "percent"); ("memory_used_percent", "percent"); ("disk_used_percent", "percent"); ("temperature_celsius", "celsius");
   ("network_rx_bytes_per_sec", "bytes_per_sec"); ("network_tx_bytes_per_sec", "bytes_per_sec")].
Definition canonical_unit (metric : string) : string := default "" ((list_to_map canonical_units : gmap string string) !! trim_space metric).

Context `{SortPoints}.

Definition series_of (metric unit : string) (l : list MetricSample) (start end_ : time) (step : duration) : Series :=
  let points := BucketAveragePoints (sort_points (point_of <$> List.filter (λ s, bool_decide (MS_Metric s = metric) && in_window start end_ s) l)) step in
  MkSeries metric unit points (LastPointValue points).

Definition SeriesMetric (assetID metric : string) (start end_ : time) (step : duration) (m : MemoryTelemetryStore) : Series :=
  series_of metric (canonical_unit metric) (asset_samples m assetID) start end_ step.
Definition AssetSeries (assetID : string) (start end_ : time) (step : duration) (m : MemoryTelemetryStore) : list Series :=
  (λ d : string * string, series_of d.1 d.2 (asset_samples m assetID) start end_ step) <$> canonical_units.

(** One sample of an asset, with the rows counted so far. *)
Definition count_row (maxRawPoints : Z) (match_ : MetricSample → bool) (count : Z) (s : MetricSample) : result telemetry_error Z :=
  if negb (match_ s) then Ok count
  else if (0 <? maxRawPoints) && (count =? maxRawPoints) then Err ErrTelemetryQueryLimitExceeded
  else Ok (count + 1).

Definition metricSeriesBatchContext (ctx : Ctx) (assetIDs : list string) (metric : string) (start end_ : time) (step : duration) (maxRawPoints : Z) (m : MemoryTelemetryStore) :
    result telemetry_error (gmap string Series) :=
  _ ← telemetry_check ctx;
  let ids := normalizeLogAssetIDs assetIDs in
  let metric := trim_space metric in
  let match_ s := bool_decide (MS_Metric s = metric) && in_window start end_ s in
  _ ← fold_result (λ count id, fold_result (count_row maxRawPoints match_) count (asset_samples m id)) 0 ids;
  Ok (list_to_map ((λ id, (id, series_of metric (canonical_unit metric) (asset_samples m id) start end_ step)) <$> ids)).

Definition MetricSeriesBatchContext (ctx : Ctx) (assetIDs : list string) (metric : string) (start end_ : time) (step : duration) (maxRawPoints : Z) (m : MemoryTelemetryStore) :
    result telemetry_error (gmap string Series) :=
  if maxRawPoints <=? 0 then Err ErrQuery else metricSeriesBatchContext ctx assetIDs metric start end_ step maxRawPoints m.

(** *** Snapshots *)

Definition latest_sample (at_ : time) (latest : gmap string MetricSample) (s : MetricSample) : gmap string MetricSample :=
  if at_ <? MS_CollectedAt s then latest
  else match latest !! MS_Metric s with
       | Some current => if MS_CollectedAt current <? MS_CollectedAt s then <[MS_Metric s := s]> latest else latest
       | None => <[MS_Metric s := s]> latest
       end.
Definition dynamicSnapshotFromSamples (l : list MetricSample) (at_ : time) : gmap string f64 := MS_Value <$> foldl (latest_sample at_) ∅ l.
Definition DynamicSnapshotForAsset (assetID : string) (at_ : time) (m : MemoryTelemetryStore) : gmap string f64 := dynamicSnapshotFromSamples (asset_samples m assetID) at_.
Definition DynamicSnapshotMany (assetIDs : list string) (at_ : time) (m : MemoryTelemetryStore) : gmap string (gmap string f64) :=
  list_to_map ((λ id, (id, DynamicSnapshotForAsset id at_ m)) <$> List.filter (λ id, negb (is_empty id)) assetIDs).

(** The newest sample of each series in the window, the last of those of the same time. *)
Definition newest_of_series (at_ oldest : time) (latest : gmap string MetricSample) (s : MetricSample) : gmap string MetricSample :=
  if (at_ <? MS_CollectedAt s) || (MS_CollectedAt s <? oldest) then latest
  else let key := series_key s in
       match latest !! key with
       | Some current => if MS_CollectedAt current <=? MS_CollectedAt s then <[key := s]> latest else latest
       | None => <[key := s]> latest
       end.
Definition sorted_series (latest : gmap string MetricSample) : list MetricSample := omap (λ key, latest !! key) (merge_sort String.le (elements (dom latest))).

Definition HubMetricSnapshots (ctx : Ctx) (at_ : time) (maxSeries : Z) (m : MemoryTelemetryStore) : result telemetry_error (gmap string (list MetricSample)) :=
  if (maxSeries <=? 0) || (MaxHubMetricSnapshotSeries <? maxSeries) then Err ErrHubMetricSnapshotLimitExceeded
  else
    _ ← (if bool_decide (hubSamples m = ∅) then Ok tt else telemetry_check ctx);
    let out := (λ l, sorted_series (foldl (newest_of_series at_ (at_ - HubMetricSnapshotMaxAge)) ∅ l)) <$> hubSamples m in
    if maxSeries <? Z.of_nat (sum_list_with (λ kv : string * list MetricSample, length kv.2) (map_to_list out)) then Err ErrHubMetricSnapshotLimitExceeded
    else Ok (filter (λ kv, kv.2 ≠ []) out).

(** One sample of [latestLabeledMetricSnapshots]: the rows and series counted so far, and the newest samples of the asset. *)
Definition labeled_row (maxSeries maxRows : Z) (at_ oldest : time) (acc : Z * Z * gmap string MetricSample) (s : MetricSample) :
    result telemetry_error (Z * Z * gmap string MetricSample) :=
  let '(rows, series, latest) := acc in
  if (at_ <? MS_CollectedAt s) || (MS_CollectedAt s <? oldest) then Ok acc
  else if maxRows <? rows + 1 then Err ErrTelemetrySnapshotRowLimitExceeded
  else
    let key := series_key s in
    match latest !! key with
    | Some current => Ok (rows + 1, series, if MS_CollectedAt current <=? MS_CollectedAt s then <[key := s]> latest else latest)
    | None => if maxSeries <? series + 1 then Err ErrTelemetrySnapshotSeriesLimitExceeded else Ok (rows + 1, series + 1, <[key := s]> latest)
    end.

Definition labeled_asset (m : MemoryTelemetryStore) (maxSeries maxRows : Z) (at_ oldest : time) (acc : Z * Z * gmap string (list MetricSample)) (id : string) :
    result telemetry_error (Z * Z * gmap string (list MetricSample)) :=
  let '(rows, series, out) := acc in
  r ← fold_result (labeled_row maxSeries maxRows at_ oldest) (rows, series, ∅) (asset_samples m id);
  let named s := MkSample id "" (MS_Metric s) (MS_Unit s) (MS_Value s) (MS_CollectedAt s) (MS_Labels s) in
  Ok (r.1.1, r.1.2, <[id := named <$> sorted_series r.2]> out).

Definition latestLabeledMetricSnapshots (ctx : Ctx) (now : time) (assetIDs : list string) (at_ : time) (maxSeries maxRows : Z) (m : MemoryTelemetryStore) :
    result telemetry_error (gmap string (list MetricSample)) :=
  if (maxSeries <=? 0) || (MaxPrometheusAssetMetricSeries <? maxSeries) then Err ErrTelemetrySnapshotSeriesLimitExceeded
  else if (maxRows <=? 0) || (MaxPrometheusAssetMetricRows <? maxRows) then Err ErrTelemetrySnapshotRowLimitExceeded
  else if MaxPrometheusSnapshotAssets <? size_of assetIDs then Err ErrTelemetrySnapshotAssetLimitExceeded
  else
    let at_ := if at_ =? zero_time then now else at_ in
    match normalizeLogAssetIDs assetIDs with
    | [] => Ok ∅
    | cleanIDs =>
        _ ← telemetry_check ctx;
        r ← fold_result (labeled_asset m maxSeries maxRows at_ (at_ - PrometheusAssetSnapshotMaxAge)) (0, 0, ∅) cleanIDs;
        Ok r.2
    end.
Definition LatestLabeledMetricSnapshots (ctx : Ctx) (now : time) (assetIDs : list string) (at_ : time) (maxSeries : Z) (m : MemoryTelemetryStore) :=
  latestLabeledMetricSnapshots ctx now assetIDs at_ maxSeries MaxPrometheusAssetMetricRows m.

(** What the evaluator of alerts sees of a store. *)
Definition answered {A} (r : result telemetry_error A) : option A := match r with Ok a => Some a | Err _ => None end.
Definition evaluator_view (m : MemoryTelemetryStore) : telemetry_store := {|
  MetricSeriesBatch := λ ids metric start now limit, (λ series : gmap string Series, (λ s, Value <$> SE_Points s) <$> series) <$> answered (MetricSeriesBatchContext None ids metric start now 0 limit m);
  AssetsWithMetricSamples := λ ids metric from to, answered (AssetsWithMetricSamplesContext None ids metric from to m);
  HasTelemetrySamples := λ ids from to, answered (HasTelemetrySamplesContext None ids from to m) |}.
End store.

(** ** What the store promises to the evaluator *)

Section promises.
Context `{SortPoints}.

(** The metric and the time of each sample of an asset *)
Definition stored_activity (m : MemoryTelemetryStore) (id : string) : list (string * time) := (λ s, (MS_Metric s, MS_CollectedAt s)) <$> asset_samples m id.

(** The values that a query of a series returns. *)
Definition stored_points (m : MemoryTelemetryStore) (start now : time) (metric id : string) : list f64 :=
  Value <$> SE_Points (series_of (trim_space metric) (canonical_unit (trim_space metric)) (asset_samples m id) start now 0).

Lemma distinct_ids_clean seen ids :
  NoDup ids → (∀ id, id ∈ ids → trim_space id = id ∧ id ≠ "" ∧ id ∉ seen) → distinct_ids seen ids = ids.
Proof.
  revert seen. induction ids as [|id ids IH]; intros seen Hnd Hids; [done|]. simpl. apply NoDup_cons in Hnd as [Hid Hnd].
  destruct (Hids id) as (Ht & Hne & Hs); [by left|]. rewrite Ht, !bool_decide_eq_false_2 by done. simpl. f_equal. apply IH; [done|].
  intros id' Hin. destruct (Hids id') as (? & ? & ?); [by right|]. split_and!; [done|done|]. intros [->%elem_of_singleton|?]%elem_of_union; done.
Qed.

Lemma distinct_ids_elem seen ids id : id ∈ distinct_ids seen ids → ∃ raw, raw ∈ ids ∧ trim_space raw = id.
Proof.
  revert seen. induction ids as [|raw ids IH]; intros seen; simpl; [by intros ?%not_elem_of_nil|]. destruct (_ || _).
  - intros (raw' & ? & ?)%IH. exists raw'. by split; [right|].
  - intros [->|(raw' & ? & ?)%IH]%elem_of_cons; [exists raw; by split; [left|]|exists raw'; by split; [right|]].
Qed.

Lemma distinct_ids_in seen ids id : id ∈ ids → trim_space id = id → id ≠ "" → id ∉ seen → id ∈ distinct_ids seen ids.
Proof.
  revert seen. induction ids as [|raw ids IH]; intros seen Hin Ht Hne Hs; [by apply not_elem_of_nil in Hin|]. simpl. apply elem_of_cons in Hin as [<-|Hin].
  - rewrite Ht, !bool_decide_eq_false_2 by done. by left.
  - destruct (is_empty (trim_space raw) || bool_decide (trim_space raw ∈ seen)); [by apply IH|]. destruct (decide (id = trim_space raw)) as [->|Hd]; [by left|right].
    apply IH; try done. intros [?%elem_of_singleton|?]%elem_of_union; done.
Qed.

Lemma in_window_spec start end_ s : in_window start end_ s = true ↔ start <= MS_CollectedAt s <= end_.
Proof. unfold in_window. rewrite andb_true_iff, !Z.leb_le. done. Qed.

Lemma memory_activity m : activity_from (evaluator_view m) (stored_activity m).
Proof.
  split.
  - intros ids metric from to Hne Ht Hft. simpl. unfold AssetsWithMetricSamplesContext. cbn [mbind result_bind telemetry_check]. rewrite Ht.
    rewrite bool_decide_eq_false_2, (proj2 (Z.ltb_ge to from)) by (done || lia). simpl. eexists. split; [done|]. intros id Hid Htid Hne'.
    rewrite elem_of_list_to_set, list_elem_of_In, filter_In, <-list_elem_of_In, existsb_elem. unfold stored_activity. setoid_rewrite list_elem_of_fmap. split.
    + intros (_ & s & Hs & [Hm%bool_decide_eq_true Hw%in_window_spec]%andb_true_iff). exists (MS_CollectedAt s). split; [|done]. exists s. by rewrite <-Hm.
    + intros (t & (s & [= -> ->] & Hs) & Hw). split; [by apply distinct_ids_in; [..|set_solver]|]. exists s. split; [done|]. rewrite bool_decide_eq_true_2 by done. by apply in_window_spec.
  - intros ids from to. simpl. unfold HasTelemetrySamplesContext. cbn [mbind result_bind telemetry_check]. eexists. split; [done|]. intros id Hid Htid Hne.
    rewrite elem_of_list_to_set, list_elem_of_In, filter_In, <-list_elem_of_In. rewrite bool_decide_eq_false_2 by done. simpl. rewrite existsb_elem.
    unfold stored_activity. setoid_rewrite list_elem_of_fmap. split.
    + intros (_ & s & Hs & Hw%in_window_spec). exists (MS_Metric s), (MS_CollectedAt s). split; [|done]. by exists s.
    + intros (metric & t & (s & [= -> ->] & Hs) & Hw). split; [exists id; by rewrite Htid|]. exists s. split; [done|]. by apply in_window_spec.
Qed.

Definition points_matching (metric : string) (start now : time) (l : list MetricSample) : list MetricSample :=
  List.filter (λ s, bool_decide (MS_Metric s = metric) && in_window start now s) l.

(** Counting the rows of an asset up to the limit. *)
Lemma count_rows limit match_ l count :
  0 < limit → 0 <= count <= limit →
  fold_result (count_row limit match_) count l =
    if count + size_of (List.filter match_ l) <=? limit then Ok (count + size_of (List.filter match_ l)) else Err ErrTelemetryQueryLimitExceeded.
Proof.
  intros Hl. unfold size_of. revert count. induction l as [|s l IH]; intros count Hc; simpl.
  - rewrite Z.add_0_r, (proj2 (Z.leb_le _ _)) by lia. done.
  - assert (Hstep : count_row limit match_ count s = if match_ s then (if count =? limit then Err ErrTelemetryQueryLimitExceeded else Ok (count + 1)) else Ok count).
    { unfold count_row. rewrite (proj2 (Z.ltb_lt 0 limit)) by done. by destruct (match_ s). }
    rewrite Hstep. destruct (match_ s); simpl; [|by apply IH]. destruct (Z.eqb_spec count limit) as [->|Hne]; simpl; [rewrite (proj2 (Z.leb_gt _ _)) by lia; done|]. rewrite IH by lia.
    replace (count + 1 + Z.of_nat (length (List.filter match_ l))) with (count + Z.of_nat (S (length (List.filter match_ l)))) by lia. done.
Qed.

Lemma count_assets limit match_ m ids count :
  0 < limit → 0 <= count <= limit →
  fold_result (λ count id, fold_result (count_row limit match_) count (asset_samples m id)) count ids =
    let n := count + Z.of_nat (sum_list_with (λ id, length (List.filter match_ (asset_samples m id))) ids) in
    if n <=? limit then Ok n else Err ErrTelemetryQueryLimitExceeded.
Proof.
  intros Hl. revert count. induction ids as [|id ids IH]; intros count Hc; cbv zeta; simpl.
  - rewrite Z.add_0_r, (proj2 (Z.leb_le _ _)) by lia. done.
  - rewrite count_rows by done. unfold size_of. destruct (Z.leb_spec (count + Z.of_nat (length (List.filter match_ (asset_samples m id)))) limit); simpl.
    + rewrite IH by lia. cbv zeta. rewrite Nat2Z.inj_add, Z.add_assoc. done.
    + rewrite (proj2 (Z.leb_gt _ _)) by lia. done.
Qed.

Lemma series_points_length metric unit l start now : length (SE_Points (series_of metric unit l start now 0)) = length (points_matching metric start now l).
Proof.
  unfold series_of. simpl. unfold BucketAveragePoints. rewrite orb_true_r. rewrite (Permutation_length (sort_points_perm _)), length_fmap. done.
Qed.

Lemma memory_series m start now : series_from (evaluator_view m) start now (stored_points m start now).
Proof.
  intros ids metric limit Hl Hnd Hids. simpl. unfold MetricSeriesBatchContext. rewrite (proj2 (Z.leb_gt limit 0)) by lia. unfold metricSeriesBatchContext.
  cbn [mbind result_bind telemetry_check]. unfold normalizeLogAssetIDs.
  rewrite distinct_ids_clean by (done || (intros id Hid; destruct (Hids id Hid); set_solver)). rewrite count_assets by lia. cbv zeta.
  assert (Hsum : sum_list_with (λ id, length (stored_points m start now metric id)) ids =
    sum_list_with (λ id, length (List.filter (λ s, bool_decide (MS_Metric s = trim_space metric) && in_window start now s) (asset_samples m id))) ids).
  { clear. induction ids as [|id ids IH]; [done|]. cbn [sum_list_with]. rewrite IH. f_equal. unfold stored_points. rewrite length_fmap. apply series_points_length. }
  rewrite Hsum, Z.add_0_l. destruct (_ <=? limit); [|done]. simpl. eexists. split; [done|]. intros id Hid. rewrite lookup_fmap.
  rewrite (elem_of_list_to_map_1' _ id (series_of (trim_space metric) (canonical_unit (trim_space metric)) (asset_samples m id) start now 0)); [done| |].
  - intros y (? & [= <- ->] & _)%list_elem_of_fmap. done.
  - apply list_elem_of_fmap. by exists id.
Qed.
End promises.

(** ** What an asset keeps *)

Definition for_asset (id : string) (l : list MetricSample) : list MetricSample := List.filter (λ s, is_empty (MS_Scope s) && bool_decide (MS_AssetID s = id)) l.

Lemma for_asset_app id l k : for_asset id (l ++ k) = for_asset id l ++ for_asset id k.
Proof. apply List.filter_app. Qed.

Lemma write_samples_asset l m id : asset_samples (foldl write_sample m l) id = asset_samples m id ++ for_asset id l.
Proof.
  revert m. induction l as [|s l IH]; intros m; simpl; [by rewrite app_nil_r|]. rewrite IH. unfold write_sample, asset_samples.
  case_bool_decide as Hs; simpl; [|done]. case_bool_decide as Hid; simpl.
  - rewrite Hid, lookup_insert_eq. simpl. by rewrite <-app_assoc.
  - by rewrite lookup_insert_ne.
Qed.

Lemma evict_assets ids m id : NoDup ids → asset_samples (foldl evict_asset m ids) id = if decide (id ∈ ids) then evict (asset_samples m id) else asset_samples m id.
Proof.
  revert m. induction ids as [|i ids IH]; intros m Hnd; cbn [foldl]; [by rewrite (decide_False (P := id ∈ [])) by apply not_elem_of_nil|].
  apply NoDup_cons in Hnd as [Hi Hnd]. rewrite IH by done.
  unfold evict_asset. unfold asset_samples at 1 3. simpl. destruct (decide (id = i)) as [->|Hne].
  - rewrite !lookup_insert_eq, decide_False, decide_True by (done || by left). done.
  - rewrite !lookup_insert_ne by done. destruct (decide (id ∈ ids)) as [Hin|Hin].
    + by rewrite decide_True by (by right).
    + rewrite decide_False; [done|]. by intros [?|?]%elem_of_cons.
Qed.


Section kept.
Context `{LabelsJSON}.

Lemma compact_scopes scopes m id : asset_samples (foldl compact_scope m scopes) id = asset_samples m id.
Proof. revert m. induction scopes as [|x scopes IH]; intros m; [done|]. simpl. by rewrite IH. Qed.

Lemma write_all_asset m prepared id :
  asset_samples (write_all m prepared) id = match for_asset id prepared with [] => asset_samples m id | new => evict (asset_samples m id ++ new) end.
Proof.
  unfold write_all. rewrite compact_scopes, evict_assets by apply NoDup_elements. rewrite write_samples_asset.
  assert (Hw : id ∈ elements (written_assets prepared) ↔ for_asset id prepared ≠ []).
  { rewrite elem_of_elements. unfold written_assets. rewrite elem_of_list_to_set, list_elem_of_fmap. split.
    - intros (s & -> & [Hs Hin]%list_elem_of_filter) Hn. assert (Hf : s ∈ for_asset (MS_AssetID s) prepared); [|rewrite Hn in Hf; by apply not_elem_of_nil in Hf].
      apply list_elem_of_In, filter_In. rewrite <-list_elem_of_In. split; [done|]. by rewrite !bool_decide_eq_true_2.
    - intros Hn. destruct (for_asset id prepared) as [|s l] eqn:Hl; [done|]. assert (Hs : s ∈ for_asset id prepared) by (rewrite Hl; by left).
      apply list_elem_of_In, filter_In in Hs as [Hs Hc]. apply andb_true_iff in Hc as [?%bool_decide_eq_true ?%bool_decide_eq_true]. exists s. split; [done|].
      apply list_elem_of_filter. by rewrite list_elem_of_In. }
  destruct (for_asset id prepared) as [|s l]; [rewrite decide_False by (by intros ?%Hw); by rewrite app_nil_r|]. by rewrite decide_True by (by apply Hw).
Qed.

Definition kept_after_eviction : nat := maxSamplesPerAsset * 4 / 5.
Definition not_older (s : MetricSample) (l : list MetricSample) : nat := length (List.filter (λ t, MS_CollectedAt s <=? MS_CollectedAt t) l).

#[local] Instance older_trans : Transitive older.
Proof. intros a b c. unfold older. lia. Qed.
#[local] Instance older_total : Total older.
Proof. intros a b. unfold older. lia. Qed.

Lemma not_older_perm s l k : l ≡ₚ k → not_older s l = not_older s k.
Proof. unfold not_older. induction 1 as [| x l k _ IH | x y l | l1 l2 l3 _ IH1 _ IH2]; simpl; [done|by case_match; simpl; rewrite IH|by repeat case_match|congruence]. Qed.

Lemma not_older_app s l k : not_older s (l ++ k) = (not_older s l + not_older s k)%nat.
Proof. unfold not_older. by rewrite List.filter_app, length_app. Qed.

Lemma not_older_all s l : (∀ t, t ∈ l → MS_CollectedAt s <= MS_CollectedAt t) → not_older s l = length l.
Proof.
  intros Hall. unfold not_older. induction l as [|t l IH]; [done|]. simpl. rewrite (proj2 (Z.leb_le _ _)) by (apply Hall; by left). simpl. f_equal. apply IH. intros; apply Hall; by right.
Qed.

Lemma not_older_none s l : (∀ t, t ∈ l → MS_CollectedAt t < MS_CollectedAt s) → not_older s l = 0%nat.
Proof.
  intros Hall. unfold not_older. induction l as [|t l IH]; [done|]. simpl. rewrite (proj2 (Z.leb_gt _ _)) by (apply Hall; by left). apply IH. intros; apply Hall; by right.
Qed.

(** An eviction splits the samples into older ones, which go, and the newest, which stay. *)
Lemma evict_split l : evict l = l ∨ ∃ gone, gone ++ evict l ≡ₚ l ∧ length (evict l) = kept_after_eviction ∧ ∀ s t, s ∈ gone → t ∈ evict l → older s t.
Proof.
  unfold evict. destruct (Nat.ltb_spec maxSamplesPerAsset (length l)) as [Hlt|?]; [right|by left]. set (n := (length l - maxSamplesPerAsset * 4 / 5)%nat).
  exists (take n (merge_sort older l)). split; [by rewrite take_drop, merge_sort_Permutation|]. split.
  - rewrite length_drop, (Permutation_length (merge_sort_Permutation older l)). unfold n, kept_after_eviction. change (maxSamplesPerAsset * 4 / 5)%nat with 800%nat.
    assert (800 <= maxSamplesPerAsset)%nat by (by apply (bool_decide_eq_true_1 _)). lia.
  - intros s t Hs Ht. pose proof (StronglySorted_merge_sort older l) as Hsort. rewrite <-(take_drop n (merge_sort older l)) in Hsort.
    eapply StronglySorted_app_1_elem_of; eauto.
Qed.

Lemma evict_length l : (length (evict l) <= maxSamplesPerAsset)%nat.
Proof.
  unfold evict. destruct (Nat.ltb_spec maxSamplesPerAsset (length l)); [|done]. rewrite length_drop, (Permutation_length (merge_sort_Permutation older l)).
  change (maxSamplesPerAsset * 4 / 5)%nat with 800%nat. assert (800 <= maxSamplesPerAsset)%nat by (by apply (bool_decide_eq_true_1 _)). lia.
Qed.

Lemma evict_elem s l : s ∈ evict l → s ∈ l.
Proof. intros Hs. destruct (evict_split l) as [<-|(gone & Hp & _)]; [done|]. rewrite <-Hp. apply elem_of_app. by right. Qed.

Lemma evict_keeps s l : s ∈ l → s ∈ evict l ∨ (kept_after_eviction <= not_older s (evict l))%nat.
Proof.
  intros Hs. destruct (evict_split l) as [->|(gone & Hp & Hlen & Hold)]; [by left|]. rewrite <-Hp in Hs. apply elem_of_app in Hs as [Hs|Hs]; [right|by left].
  rewrite not_older_all; [lia|]. intros t Ht. by apply Hold.
Qed.

Lemma evict_not_older s l : (kept_after_eviction <= not_older s l)%nat → (kept_after_eviction <= not_older s (evict l))%nat.
Proof.
  intros Hn. destruct (evict_split l) as [->|(gone & Hp & Hlen & Hold)]; [done|]. rewrite <-(not_older_perm s _ _ Hp), not_older_app in Hn.
  destruct (decide (Forall (λ t, MS_CollectedAt s <= MS_CollectedAt t) (evict l))) as [Hall|Hsome].
  - rewrite Forall_forall in Hall. rewrite not_older_all by done. lia.
  - apply not_Forall_Exists, Exists_exists in Hsome as (t & Ht & Hlt); [|intros x; apply _]. rewrite (not_older_none s gone) in Hn; [lia|].
    intros u Hu. specialize (Hold u t Hu Ht). unfold older in Hold. simpl in Hlt. lia.
Qed.

(** The stores that appends can make, with all samples that were accepted on the way. *)
Inductive telemetry_run : MemoryTelemetryStore → list MetricSample → Prop :=
| telemetry_new : telemetry_run NewMemoryTelemetryStore []
| telemetry_refused m log ctx now new m' e : telemetry_run m log → AppendSamples ctx now new m = (m', Err e) → telemetry_run m' log
| telemetry_accepted m log ctx now new m' : telemetry_run m log → AppendSamples ctx now new m = (m', Ok tt) →
    telemetry_run m' (log ++ default [] (answered (prepareSamples ctx now new))).

Lemma store_of_log m log id :
  telemetry_run m log →
  (length (asset_samples m id) <= maxSamplesPerAsset)%nat ∧ (∀ s, s ∈ asset_samples m id → s ∈ for_asset id log) ∧
  ∀ s, s ∈ for_asset id log → s ∈ asset_samples m id ∨ (800 <= not_older s (asset_samples m id))%nat.
Proof.
  change 800%nat with kept_after_eviction. induction 1 as [|m log ctx now new m' e Hrun IH Happ|m log ctx now new m' Hrun IH Happ].
  - change (asset_samples NewMemoryTelemetryStore id) with (@nil MetricSample). split; [apply Nat.le_0_l|]. split; [by intros s ?%not_elem_of_nil|by intros s ?%not_elem_of_nil].
  - assert (m' = m) as ->; [|done]. unfold AppendSamples in Happ. destruct new; [done|]. by destruct (prepareSamples _ _ _); simplify_eq.
  - destruct new as [|x new].
    { injection Happ as <-. assert (default [] (answered (prepareSamples ctx now [])) = []) as -> by (by destruct ctx). by rewrite app_nil_r. }
    unfold AppendSamples in Happ. destruct (prepareSamples ctx now (x :: new)) as [prepared|]; [|done]. injection Happ as <-. cbn [answered default]. unfold Datatypes.id.
    rewrite write_all_asset, for_asset_app. destruct IH as (Hlen & Hin & Hkeep).
    destruct (for_asset id prepared) as [|y l] eqn:Hnew; [by rewrite app_nil_r|]. rewrite <-Hnew. split; [apply evict_length|]. split.
    + intros s [?%Hin|?]%evict_elem%elem_of_app; apply elem_of_app; [by left|by right].
    + intros s [Hs|Hs]%elem_of_app; [|apply evict_keeps, elem_of_app; by right]. destruct (Hkeep s Hs) as [Hk|Hk]; [apply evict_keeps, elem_of_app; by left|].
      right. apply evict_not_older. rewrite not_older_app. lia.
Qed.

(** After any appends, an asset has at most a thousand samples in the store, all of which were sent for it and accepted, and none of those that were accepted is missing unless
    eight hundred samples that are not older are there: delayed and out-of-order deliveries never push out newer samples. A refused batch
    changes nothing. *)
Theorem telemetry_keeps_newest m log id :
  telemetry_run m log →
  (length (asset_samples m id) <= maxSamplesPerAsset)%nat ∧ (∀ s, s ∈ asset_samples m id → s ∈ for_asset id log) ∧
  ∀ s, s ∈ for_asset id log → s ∈ asset_samples m id ∨ (800 <= not_older s (asset_samples m id))%nat.
Proof. apply store_of_log. Qed.
End kept.

(** ** The history of the hub *)

Section hub.
Context `{LabelsJSON}.

(** The samples of a series *)
Definition of_series (key : string) (l : list MetricSample) : list MetricSample := filter (λ s, series_key s = key) l.
Definition series_of_scope (l : list MetricSample) : gset string := list_to_set (series_key <$> l).
Definition hub_bounded (l : list MetricSample) : Prop :=
  Z.of_nat (size (series_of_scope l)) <= MaxHubMetricSeriesPerScope ∧ ∀ key, Z.of_nat (length (of_series key l)) <= MaxHubMetricHistoryPerSeries.

(** The candidates whose index is kept. *)
Definition kept_of (kept : gset nat) (l : list (nat * MetricSample)) : list MetricSample :=
  omap (λ ix : nat * MetricSample, if decide (ix.1 ∈ kept) then Some ix.2 else None) l.

Lemma kept_of_perm kept l k : l ≡ₚ k → kept_of kept l ≡ₚ kept_of kept k.
Proof. intros Hp. unfold kept_of. by rewrite Hp. Qed.

Lemma kept_of_more kept i l : i ∉ l.*1 → kept_of ({[i]} ∪ kept) l = kept_of kept l.
Proof.
  induction l as [|[j s] l IH]; simpl; [done|]. intros [Hij Hi]%not_elem_of_cons. unfold kept_of in *. simpl. rewrite IH by done.
  destruct (decide (j ∈ kept)), (decide (j ∈ {[i]} ∪ kept)); set_solver.
Qed.

Lemma of_series_app key l k : of_series key (l ++ k) = of_series key l ++ of_series key k.
Proof. apply filter_app. Qed.

(** The counts of the walk are those of the samples kept so far. *)
Definition counted (seriesCounts : gmap string Z) (l : list MetricSample) : Prop :=
  Z.of_nat (size seriesCounts) <= MaxHubMetricSeriesPerScope ∧
  ∀ key, Z.of_nat (length (of_series key l)) = default 0 (seriesCounts !! key) ∧ default 0 (seriesCounts !! key) <= MaxHubMetricHistoryPerSeries.

Lemma counted_snoc c l s n :
  counted c l → default 0 (c !! series_key s) + 1 = n → n <= MaxHubMetricHistoryPerSeries → Z.of_nat (size (<[series_key s := n]> c)) <= MaxHubMetricSeriesPerScope →
  counted (<[series_key s := n]> c) (l ++ [s]).
Proof.
  intros [_ Hc] Hn Hmax Hsize. split; [done|]. intros key. rewrite of_series_app, length_app. specialize (Hc key) as [Hlen Hle]. unfold of_series at 2.
  rewrite filter_cons.
  destruct (decide (series_key s = key)) as [<-|Hne].
  - rewrite lookup_insert_eq. simpl. unfold Datatypes.id. lia.
  - rewrite lookup_insert_ne by done. simpl. lia.
Qed.

Lemma kept_snoc kept done_ i s : i ∉ done_.*1 → kept_of ({[i]} ∪ kept) (done_ ++ [(i, s)]) = kept_of kept done_ ++ [s].
Proof.
  intros Hi. unfold kept_of. rewrite omap_app. fold (kept_of ({[i]} ∪ kept) done_). rewrite kept_of_more by done. simpl. by rewrite decide_True by set_solver.
Qed.

Lemma unkept_snoc (kept : gset nat) done_ i s : i ∉ kept → kept_of kept (done_ ++ [(i, s)]) = kept_of kept done_.
Proof. intros Hi. unfold kept_of. rewrite omap_app. simpl. by rewrite decide_False, app_nil_r. Qed.

Lemma keep_one done_ c kept i s :
  i ∉ done_.*1 → (∀ j, j ∈ kept → j ∈ done_.*1) → counted c (kept_of kept done_) →
  let r := keep_candidate (c, kept) (i, s) in (∀ j, j ∈ r.2 → j ∈ (done_ ++ [(i, s)]).*1) ∧ counted r.1 (kept_of r.2 (done_ ++ [(i, s)])).
Proof.
  intros Hi Hk Hc. assert (Hskip : counted c (kept_of kept (done_ ++ [(i, s)]))) by (rewrite unkept_snoc; [done|]; intros ?%Hk; done).
  assert (Hsub : ∀ j, j ∈ kept → j ∈ (done_ ++ [(i, s)]).*1) by (intros j ?%Hk; rewrite fmap_app, elem_of_app; by left).
  assert (Hsub' : ∀ j, j ∈ ({[i]} ∪ kept : gset nat) → j ∈ (done_ ++ [(i, s)]).*1).
  { intros j [->%elem_of_singleton|?]%elem_of_union; [|by apply Hsub]. rewrite fmap_app, elem_of_app. right. by left. }
  unfold keep_candidate. cbn [fst snd]. destruct (c !! series_key s) as [n|] eqn:Hkey.
  - destruct (Z.leb_spec MaxHubMetricHistoryPerSeries n); [by split|]. split; [done|]. simpl fst; simpl snd. rewrite kept_snoc by done.
    apply counted_snoc; [done|by rewrite Hkey|lia|]. rewrite map_size_insert_Some by done. apply Hc.
  - destruct (Z.leb_spec MaxHubMetricSeriesPerScope (Z.of_nat (size c))); [by split|]. split; [done|]. simpl fst; simpl snd. rewrite kept_snoc by done.
    apply counted_snoc; [done|by rewrite Hkey|by apply (bool_decide_eq_true_1 _)|]. rewrite map_size_insert_None by done. lia.
Qed.

Lemma keep_candidates todo : ∀ done_ c kept,
  NoDup (done_ ++ todo).*1 → (∀ i, i ∈ kept → i ∈ done_.*1) → counted c (kept_of kept done_) →
  let r := foldl keep_candidate (c, kept) todo in counted r.1 (kept_of r.2 (done_ ++ todo)).
Proof.
  induction todo as [|[i s] todo IH]; intros done_ c kept Hnd Hk Hc; cbv zeta; [by rewrite app_nil_r|].
  assert (Hi : i ∉ done_.*1).
  { rewrite fmap_app in Hnd. apply NoDup_app in Hnd as (_ & Hd & _). intros Hin. apply (Hd i Hin). by left. }
  destruct (keep_one done_ c kept i s Hi Hk Hc) as [Hk' Hc']. cbn [foldl]. destruct (keep_candidate (c, kept) (i, s)) as [c' kept'].
  rewrite (cons_middle (i, s) done_ todo), (assoc_L (++)) in Hnd |- *. by apply IH.
Qed.

Lemma counted_bounded c l : counted c l → hub_bounded l.
Proof.
  intros [Hs Hc]. split; [|intros key; destruct (Hc key); lia]. etransitivity; [|exact Hs]. apply inj_le. rewrite <-size_dom. apply subseteq_size.
  intros key Hk. apply elem_of_list_to_set, list_elem_of_fmap in Hk as (s & -> & Hin). apply elem_of_dom. destruct (Hc (series_key s)) as [Hlen _].
  destruct (c !! series_key s); [done|]. simpl in Hlen. assert (Hf : s ∈ of_series (series_key s) l).
  { by apply list_elem_of_filter. }
  destruct (of_series (series_key s) l); [by apply not_elem_of_nil in Hf|done].
Qed.

#[local] Instance newer_trans : Transitive newer.
Proof. intros a b c. unfold newer. lia. Qed.
#[local] Instance newer_total : Total newer.
Proof. intros a b. unfold newer. lia. Qed.

Lemma hub_bounded_perm l k : l ≡ₚ k → hub_bounded l → hub_bounded k.
Proof.
  intros Hp [Hs Hk]. split.
  - by replace (series_of_scope k) with (series_of_scope l) by (apply list_to_set_perm_L; by rewrite Hp).
  - intros key. specialize (Hk key). erewrite Permutation_length; [exact Hk|]. symmetry. unfold of_series. by rewrite Hp.
Qed.

Lemma imap_indices (l : list MetricSample) : (imap (λ i s, (i, s)) l).*1 = seq 0 (length l).
Proof.
  rewrite fmap_imap. apply list_eq. intros i. rewrite list_lookup_imap. destruct (l !! i) as [s|] eqn:Hl; simpl.
  - symmetry. apply lookup_seq. split; [done|]. by eapply lookup_lt_Some.
  - symmetry. apply lookup_seq_ge. by apply lookup_ge_None.
Qed.

Lemma compact_bounded l : hub_bounded (compactHubMetricHistory l).
Proof.
  unfold compactHubMetricHistory. set (all := imap (λ i s, (i, s)) l). cbv zeta. fold (kept_of (foldl keep_candidate (∅, ∅) (merge_sort newer all)).2 all).
  eapply hub_bounded_perm; [apply kept_of_perm, (merge_sort_Permutation newer all)|]. eapply counted_bounded.
  apply (keep_candidates (merge_sort newer all) [] ∅ ∅).
  - simpl. rewrite merge_sort_Permutation. unfold all. rewrite imap_indices. apply NoDup_seq.
  - by intros i ?%not_elem_of_empty.
  - split; [by rewrite map_size_empty|]. intros key. rewrite lookup_empty. done.
Qed.

Lemma compact_elem l s : s ∈ compactHubMetricHistory l → s ∈ l.
Proof.
  unfold compactHubMetricHistory. cbv zeta. intros ((i & s') & Hin & Hs)%list_elem_of_omap. simpl in Hs. case_decide; simplify_eq.
  apply elem_of_lookup_imap in Hin as (? & ? & [= <- <-] & ?). by eapply list_elem_of_lookup_2.
Qed.
End hub.

(** ** The schema of the hub *)

Section schema.
Context `{LabelsJSON}.

(** A sample of the closed schema *)
Definition in_schema (s : MetricSample) : Prop :=
  MS_AssetID s = "" ∧ MS_Unit s = hub_unit (MS_Metric s) ∧ ∃ keys, HubMetricLabelKeys (MS_Scope s) (MS_Metric s) = Some keys ∧ dom (MS_Labels s) = list_to_set keys.

Lemma hub_labels_dom labels keys : ∀ canonical out, fold_result (hub_label labels) canonical keys = Ok out → dom out = dom canonical ∪ list_to_set keys.
Proof.
  induction keys as [|key keys IH]; intros canonical out; simpl; [intros [= <-]; set_solver|].
  destruct (hub_label labels canonical key) as [c|] eqn:Hl; [|done]. simpl. intros ->%IH. unfold hub_label in Hl.
  destruct (labels !! key); [|done]. cbv zeta in Hl. case_match; [done|]. injection Hl as <-. rewrite dom_insert_L. set_solver.
Qed.

Lemma NormalizeHubMetricLabels_dom scope metric labels out :
  NormalizeHubMetricLabels scope metric labels = Ok out → ∃ keys, HubMetricLabelKeys scope metric = Some keys ∧ dom out = list_to_set keys.
Proof.
  unfold NormalizeHubMetricLabels. destruct (HubMetricLabelKeys scope metric) as [keys|]; [|done]. intros Hn. exists keys. split; [done|].
  destruct keys as [|k keys]; [case_bool_decide; [|done]; injection Hn as <-; set_solver|]. destruct (negb _); [done|].
  apply hub_labels_dom in Hn. rewrite dom_empty_L, (left_id_L ∅ (∪)) in Hn. done.
Qed.

Lemma NormalizeHubMetricSample_schema s n : NormalizeHubMetricSample s = Ok n → in_schema n.
Proof.
  unfold NormalizeHubMetricSample. cbv zeta. destruct (_ || _); [done|]. destruct (NormalizeHubMetricLabels _ _ _) as [labels|] eqn:Hl; [|done]. simpl.
  case_bool_decide as Hu; [|done]. intros [= <-]. split; [done|]. split; [done|]. by apply NormalizeHubMetricLabels_dom in Hl.
Qed.

Lemma prepare_sample_schema now acc s r :
  prepare_sample now acc s = Ok r → (∀ t, t ∈ acc.1 → MS_Scope t ≠ "" → in_schema t) → ∀ t, t ∈ r.1 → MS_Scope t ≠ "" → in_schema t.
Proof.
  destruct acc as [prepared incoming]. unfold prepare_sample. cbv zeta. intros Hr Hacc. case_bool_decide as Hs; simpl in Hr.
  - destruct (_ || _); [done|]. injection Hr as <-. intros t [?| ->%list_elem_of_singleton]%elem_of_app; [by apply Hacc|done].
  - destruct (NormalizeHubMetricSample _) as [n|] eqn:Hn; [|done]. simpl in Hr. case_match; [done|]. injection Hr as <-.
    intros t [?| ->%list_elem_of_singleton]%elem_of_app; [by apply Hacc|]. intros _. by apply NormalizeHubMetricSample_schema in Hn.
Qed.

Lemma prepareSamples_schema ctx now new prepared : prepareSamples ctx now new = Ok prepared → ∀ t, t ∈ prepared → MS_Scope t ≠ "" → in_schema t.
Proof.
  unfold prepareSamples. destruct (validateMetricSampleBatch ctx new); [|done]. simpl.
  assert (Hfold : ∀ l acc r, fold_result (prepare_sample now) acc l = Ok r → (∀ t, t ∈ acc.1 → MS_Scope t ≠ "" → in_schema t) → ∀ t, t ∈ r.1 → MS_Scope t ≠ "" → in_schema t).
  { induction l as [|s l IH]; intros acc r; simpl; [by intros [= <-]|]. destruct (prepare_sample now acc s) as [acc'|] eqn:Hp; [|done]. simpl. intros Hr Hacc.
    eapply IH; [done|]. by eapply prepare_sample_schema. }
  destruct (fold_result _ _ _) as [r|] eqn:Hr; [|done]. simpl. intros [= <-]. eapply Hfold; [done|]. by intros t ?%not_elem_of_nil.
Qed.

Definition for_scope (scope : string) (l : list MetricSample) : list MetricSample := filter (λ s, MS_Scope s ≠ "" ∧ MS_Scope s = scope) l.

Lemma write_samples_scope l m scope : hub_samples (foldl write_sample m l) scope = hub_samples m scope ++ for_scope scope l.
Proof.
  revert m. induction l as [|s l IH]; intros m; [by rewrite app_nil_r|]. cbn [foldl]. rewrite IH. unfold for_scope. rewrite filter_cons. unfold write_sample, hub_samples.
  case_bool_decide as Hs; simpl; [by rewrite decide_False by tauto|]. destruct (decide (MS_Scope s = scope)) as [<-|Hne].
  - rewrite lookup_insert_eq, decide_True by done. simpl. by rewrite <-app_assoc.
  - by rewrite lookup_insert_ne, decide_False by tauto.
Qed.

Lemma evict_scopes ids m scope : hub_samples (foldl evict_asset m ids) scope = hub_samples m scope.
Proof. revert m. induction ids as [|i ids IH]; intros m; [done|]. simpl. by rewrite IH. Qed.

Lemma compact_all scopes m scope : (scope ∈ scopes ∨ hub_bounded (hub_samples m scope)) →
  hub_bounded (hub_samples (foldl compact_scope m scopes) scope) ∧ ∀ s, s ∈ hub_samples (foldl compact_scope m scopes) scope → s ∈ hub_samples m scope.
Proof.
  revert m. induction scopes as [|x scopes IH]; intros m Hx; cbn [foldl]; [split; [|done]; by destruct Hx as [?%not_elem_of_nil|]|].
  assert (Hone : hub_samples (compact_scope m x) scope = if decide (x = scope) then compactHubMetricHistory (hub_samples m scope) else hub_samples m scope).
  { unfold hub_samples at 1, compact_scope. simpl. destruct (decide (x = scope)) as [->|Hne]; [by rewrite lookup_insert_eq|by rewrite lookup_insert_ne]. }
  destruct (IH (compact_scope m x)) as [Hb Hin].
  - rewrite Hone. destruct (decide (x = scope)) as [->|Hne]; [right; apply compact_bounded|]. destruct Hx as [[-> |?]%elem_of_cons|?]; [done|by left|by right].
  - split; [done|]. intros s Hs%Hin. rewrite Hone in Hs. destruct (decide (x = scope)); [by apply compact_elem|done].
Qed.

Lemma hub_bounded_nil : hub_bounded [].
Proof. split; [by apply (bool_decide_eq_true_1 _)|]. intros key. done. Qed.

(** Whatever is appended, the history that the hub keeps of itself has at most 1024 series in a scope, at most 16 samples of each, and only metrics, units and
    label names of the closed schema: no caller can make it grow by new names. *)
Theorem hub_history_bounded m log scope :
  telemetry_run m log →
  hub_bounded (hub_samples m scope) ∧ ∀ s, s ∈ hub_samples m scope → MS_Scope s = scope ∧ in_schema s.
Proof.
  induction 1 as [|m log ctx now new m' e Hrun IH Happ|m log ctx now new m' Hrun IH Happ].
  - split; [apply hub_bounded_nil|]. by intros s ?%not_elem_of_nil.
  - assert (m' = m) as ->; [|done]. unfold AppendSamples in Happ. destruct new; [done|]. by destruct (prepareSamples _ _ _); simplify_eq.
  - destruct new as [|x new]; [by injection Happ as <-|]. unfold AppendSamples in Happ. destruct (prepareSamples ctx now (x :: new)) as [prepared|] eqn:Hp; [|done].
    injection Happ as <-. destruct IH as [Hb Hin]. unfold write_all. set (m1 := foldl evict_asset _ _).
    assert (Hm1 : hub_samples m1 scope = hub_samples m scope ++ for_scope scope prepared) by (unfold m1; by rewrite evict_scopes, write_samples_scope).
    destruct (compact_all (elements (written_scopes prepared)) m1 scope) as [Hb' Hin'].
    { rewrite Hm1. destruct (for_scope scope prepared) as [|s l] eqn:Hf; [right; by rewrite app_nil_r|left]. assert (Hs : s ∈ for_scope scope prepared) by (rewrite Hf; by left).
      apply list_elem_of_filter in Hs as [[? <-] ?]. apply elem_of_elements. unfold written_scopes. apply elem_of_list_to_set, list_elem_of_fmap. exists s. split; [done|].
      by apply list_elem_of_filter. }
    split; [done|]. intros s Hs%Hin'. rewrite Hm1 in Hs. apply elem_of_app in Hs as [?|Hs]; [by apply Hin|]. apply list_elem_of_filter in Hs as [[? ?] ?].
    split; [done|]. by eapply prepareSamples_schema.
Qed.
End schema.

(** ** Dead man's switches over the store *)


(** ** Witnesses *)

#[local] Existing Instance demo_number_text.
#[local] Existing Instance demo_float.
#[local] Instance demo_labels_json : LabelsJSON := λ _, "{}".
Definition point_before (p q : Point) : Prop := TS p <= TS q.
#[local] Instance point_before_dec : RelDecision point_before := λ p q, decide (TS p <= TS q).
#[local] Instance point_before_trans : Transitive point_before.
Proof. intros p q r. unfold point_before. lia. Qed.
#[local] Instance point_before_total : Total point_before.
Proof. intros p q. unfold point_before. lia. Qed.
#[local] Instance demo_sort_points : SortPoints := {|
  sort_points := merge_sort point_before; sort_points_perm := merge_sort_Permutation point_before; sort_points_sorted := StronglySorted_merge_sort point_before |}.

(** A sample of the database at 900s, after one of the file server at 100s. *)
Definition demo_batch : list MetricSample :=
  [MkSample " db" "" "cpu_used_percent" "percent" (f64_of_int 80) (900 * Second) ∅; MkSample "nas" "" "temperature_celsius" "celsius" (f64_of_int 50) (100 * Second) ∅].
Definition demo_m : MemoryTelemetryStore := (AppendSamples None (950 * Second) demo_batch NewMemoryTelemetryStore).1.
Definition demo_log : list MetricSample := [] ++ default [] (answered (prepareSamples None (950 * Second) demo_batch)).

Lemma demo_telemetry_run : telemetry_run demo_m demo_log.
Proof. eapply telemetry_accepted; [apply telemetry_new|]. vm_compute. reflexivity. Qed.

Lemma telemetry_keeps_newest_witness :
  MS_Metric <$> asset_samples demo_m "db" = ["cpu_used_percent"] ∧ (length (asset_samples demo_m "db") <= maxSamplesPerAsset)%nat.
Proof. split; [by vm_compute|]. exact (proj1 (telemetry_keeps_newest demo_m demo_log "db" demo_telemetry_run)). Defined.

Definition demo_stored_conditions : condition_env := {|
  Targets := Targets demo_conditions; Now := Now demo_conditions; TelemetryStore := Some (evaluator_view demo_m); LogStore := None; Regexp := Regexp demo_conditions;
  LookupAsset := λ _, None; SyntheticStore := None; ResolveService := None; FiringInstances := λ _, None |}.


Definition demo_hub_batch : list MetricSample := [MkSample "" " hub-alerts" "alerts_firing" "count" (f64_of_int 3) (900 * Second) ∅].
Definition demo_hub : MemoryTelemetryStore := (AppendSamples None (950 * Second) demo_hub_batch NewMemoryTelemetryStore).1.

Lemma hub_history_bounded_witness :
  length (hub_samples demo_hub "hub-alerts") = 1%nat ∧ ∀ s, s ∈ hub_samples demo_hub "hub-alerts" → MS_Scope s = "hub-alerts" ∧ in_schema s.
Proof.
  split; [by vm_compute|]. eapply hub_history_bounded. eapply telemetry_accepted; [apply telemetry_new|]. unfold demo_hub.
  instantiate (1 := demo_hub_batch). instantiate (1 := 950 * Second). instantiate (1 := None). vm_compute. reflexivity.
Defined.
