(* ===== verification/PowerControl.v ===== *)
(** * Power actions on agents

    The coordinator of [internal/powercontrol], the messages it exchanges ([internal/agentmgr/protocol_power_compat.go]) and the
    route that calls it ([cmd/labtether/power_actions.go]).

    Requests and the results that agents send run at the same time. Each is a thread with a program counter; what the code
    does between two accesses of shared state is one event ([exec]), and a run is any sequence of events. The channel of a
    request and its flag belong to the object that the map of pending requests points to: a result may still hold the object after the
    request has deleted it from the map. *)

From S2P Require Import Prelude GoStrings ApiKeys.

(** ** Messages *)

Definition MsgPowerAction := "power.action".
Definition MsgPowerResult := "power.result".
Definition PowerActionReboot := "reboot".
Definition PowerActionShutdown := "shutdown".
Definition PowerAction_Valid (a : string) : bool := bool_decide (a ∈ [PowerActionReboot; PowerActionShutdown]).

Definition PowerResultAccepted := "accepted".
Definition PowerResultUnsupported := "unsupported".
Definition PowerResultRejected := "rejected".
Definition PowerResultFailed := "failed".
Definition PowerResultStatus_Valid (s : string) : bool := bool_decide (s ∈ [PowerResultAccepted; PowerResultUnsupported; PowerResultRejected; PowerResultFailed]).

Definition rejected_codes : list string := ["invalid_request"; "asset_mismatch"; "capability_denied"; "busy"].
Definition failed_codes : list string := ["execution_failed"; "execution_timeout"].
Definition PowerResultCode_Valid (c : string) : bool := bool_decide (c ∈ rejected_codes ++ ["unsupported_platform"] ++ failed_codes).

Record PowerActionData := MkActionData { PA_RequestID : string; PA_AssetID : string; PA_Action : string }.
Record PowerResultData := MkResultData {
  PR_RequestID : string; PR_AssetID : string; PR_Action : string; PR_Status : string; PR_Code : string; PR_Message : string }.
#[export] Instance PowerActionData_eq_dec : EqDecision PowerActionData.
Proof. solve_decision. Defined.
#[export] Instance PowerResultData_eq_dec : EqDecision PowerResultData.
Proof. solve_decision. Defined.

(** [PowerActionData.Validate]: no error *)
Definition ActionData_Validate (d : PowerActionData) : bool :=
  negb (is_empty (trim_space (PA_RequestID d)) || (128 <? length (chars (PA_RequestID d)))%nat) &&
  negb (is_empty (trim_space (PA_AssetID d)) || (256 <? length (chars (PA_AssetID d)))%nat) &&
  PowerAction_Valid (PA_Action d).

(** [PowerResultData.Validate] *)
Definition ResultData_Validate (d : PowerResultData) : bool :=
  ActionData_Validate (MkActionData (PR_RequestID d) (PR_AssetID d) (PR_Action d)) &&
  PowerResultStatus_Valid (PR_Status d) && negb (256 <? length (chars (PR_Message d)))%nat &&
  (if bool_decide (PR_Status d = PowerResultAccepted) then is_empty (PR_Code d)
   else if bool_decide (PR_Status d = PowerResultUnsupported) then bool_decide (PR_Code d = "unsupported_platform")
   else if bool_decide (PR_Status d = PowerResultRejected) then bool_decide (PR_Code d ∈ rejected_codes)
   else bool_decide (PR_Code d ∈ failed_codes)).

(** A message from an agent; [M_Data] is what strict decoding makes of its payload, [None] when that fails. *)
Record Message := MkMessage { M_Type : string; M_ID : string; M_Data : option PowerResultData }.

(** ** Requests *)

Inductive ErrorKind :=
| ErrorInvalid | ErrorAgentOffline | ErrorSendFailed | ErrorTimedOut | ErrorCanceled | ErrorBusy | ErrorUnsupported | ErrorRejected | ErrorExecutionFail.
#[export] Instance ErrorKind_eq_dec : EqDecision ErrorKind.
Proof. solve_decision. Defined.

Record ActionError := MkActionError { AE_Kind : ErrorKind; AE_RequestID : string; AE_Code : string; AE_Message : string }.
#[export] Instance ActionError_eq_dec : EqDecision ActionError.
Proof. solve_decision. Defined.

(** What [Execute] returns *)
Definition answer : Type := PowerResultData * option ActionError.
Definition no_result : PowerResultData := MkResultData "" "" "" "" "" "".
Definition named_result (requestID assetID action : string) : PowerResultData := MkResultData requestID assetID action "" "" "".

(** The answer to a result that was delivered. *)
Definition result_answer (requestID : string) (result : PowerResultData) : answer :=
  let refused kind := (result, Some (MkActionError kind requestID (PR_Code result) (PR_Message result))) in
  if bool_decide (PR_Status result = PowerResultAccepted) then (result, None)
  else if bool_decide (PR_Status result = PowerResultUnsupported) then refused ErrorUnsupported
  else if bool_decide (PR_Status result = PowerResultRejected) then refused ErrorRejected
  else if bool_decide (PR_Status result = PowerResultFailed) then refused ErrorExecutionFail
  else (result, Some (MkActionError ErrorExecutionFail requestID "" "agent returned an invalid power result")).

(** [powerHTTPError] *)
Definition powerHTTPError (kind : ErrorKind) : Z * string :=
  match kind with
  | ErrorInvalid => (400, "invalid_power_action")
  | ErrorAgentOffline => (409, "asset_offline")
  | ErrorUnsupported => (422, "power_unsupported")
  | ErrorRejected => (409, "power_rejected")
  | ErrorTimedOut => (504, "power_timed_out")
  | ErrorCanceled => (408, "power_canceled")
  | ErrorBusy => (429, "power_busy")
  | ErrorSendFailed => (502, "power_delivery_failed")
  | ErrorExecutionFail => (502, "power_execution_failed")
  end.

Definition KindName (kind : ErrorKind) : string :=
  match kind with
  | ErrorInvalid => "invalid_request" | ErrorAgentOffline => "agent_offline" | ErrorSendFailed => "send_failed" | ErrorTimedOut => "timed_out"
  | ErrorCanceled => "canceled" | ErrorBusy => "busy" | ErrorUnsupported => "unsupported" | ErrorRejected => "rejected" | ErrorExecutionFail => "execution_failed"
  end.

Record audit_event := MkAudit { AU_Call : nat; AU_Actor : string; AU_Target : string; AU_CommandID : string; AU_Action : string; AU_Status : string; AU_Code : string;
  AU_Decision : string; AU_Reason : string }.
#[export] Instance audit_event_eq_dec : EqDecision audit_event.
Proof. solve_decision. Defined.

(** A request as its route gets it: [R_scopes] and [R_allowed] are the scopes and the allow-list of its key. *)
Record request := MkRequest { R_actor : string; R_scopes : slice; R_allowed : slice; R_asset : string; R_action : string }.

(** The response: its status and the id of the action. *)
Record response := MkResponse { RS_Status : Z; RS_Code : string; RS_RequestID : string }.
#[export] Instance response_eq_dec : EqDecision response.
Proof. solve_decision. Defined.

(** What the guards of maintenance and of the limiter answer. *)
Inductive guard := GuardPasses | GuardBlocks | GuardFails.

Section route.
Context (k : nat) (r : request).

Definition action_of : string := trim_space (R_action r).
Definition asset_of : string := trim_space (R_asset r).
Definition power_bucket : string :=
  String.append "assets.power:" (String.append (R_actor r) (String.append ":" (String.append (R_asset r) (String.append ":" action_of)))).

Definition auditPowerAction (result : PowerResultData) (decision reason : string) : audit_event :=
  MkAudit k (R_actor r) (R_asset r) (PR_RequestID result) action_of (if PowerResultStatus_Valid (PR_Status result) then PR_Status result else "")
    (if PowerResultCode_Valid (PR_Code result) then PR_Code result else "") decision reason.

(** The guards before [Execute]: [inr] to go on. *)
Definition power_guards (maintenance : guard) (limited : bool) : response * list audit_event + unit :=
  if negb (ScopeCheck (R_scopes r) "assets:power") then inl (MkResponse 403 "insufficient_scope" "", [])
  else if negb (PowerAction_Valid action_of) then inl (MkResponse 400 "invalid_power_action" "", [])
  else if negb (AssetCheck (R_allowed r) (R_asset r)) then inl (MkResponse 403 "asset_forbidden" "", [])
  else match maintenance with
       | GuardBlocks => inl (MkResponse 423 "maintenance_blocked" "", [auditPowerAction no_result "denied" "maintenance_blocked"])
       | GuardFails => inl (MkResponse 500 "" "", [auditPowerAction no_result "denied" "maintenance_blocked"])
       | GuardPasses =>
           if limited then inl (MkResponse 429 "" "", [auditPowerAction no_result "rate_limited" "rate limit exceeded"]) else inr tt
       end.

(** The response after [Execute], and its audit event. *)
Definition power_response (a : answer) : response * audit_event :=
  let '(result, err) := a in
  match err with
  | Some e =>
      let '(status, code) := powerHTTPError (AE_Kind e) in
      let reason := if PowerResultCode_Valid (PR_Code result) then PR_Code result else KindName (AE_Kind e) in
      (MkResponse status code "", auditPowerAction result "failed" reason)
  | None => (MkResponse 202 "" (PR_RequestID result), auditPowerAction result "accepted" "")
  end.
End route.

(** ** The machine *)

(** Where a request is: in the route; before admission; admitted; registered; sent and waiting; returning an answer
    (deleting its entry, releasing its place, responding). *)
Inductive pc :=
| PStart | PAdmit | PStore | PSend (requestID : string) | PWait (requestID : string)
| PDelete (requestID : string) (a : answer) | PRelease (a : answer) | PRespond (a : answer) | PDone (rs : response).
Record call := MkCall { C_req : request; C_pc : pc }.

(** [pendingAction] *)
Record pendingAction := MkPending { P_RequestID : string; P_AssetID : string; P_Action : string; P_Result : option PowerResultData; P_Delivered : bool }.

(** Where a result is: received; holding the pending action of a request; about to send on its channel; done, delivered to a request or not. *)
Inductive hpc := HStart | HFound (k : nat) | HWon (k : nat) | HDone (delivered : option nat).
Record handler := MkHandler { H_conn : string; H_msg : Message; H_pc : hpc }.

(** [Coordinator] with the threads: the places taken, the map of pending requests, the objects it points to, the requests, the results, the ids
    given out, what was sent to agents and the audit log. *)
Record sys := MkSys {
  limit : nat; admitted : nat; pending : gmap string nat; objects : gmap nat pendingAction;
  calls : gmap nat call; handlers : gmap nat handler; issued : gset string; sent : list (nat * string * PowerActionData); audit : list audit_event }.

Definition DefaultMaxConcurrentActions : nat := 128.
(** [NewWithLimit] *)
Definition NewWithLimit (maxConcurrent : Z) : sys :=
  MkSys (if maxConcurrent <=? 0 then DefaultMaxConcurrentActions else Z.to_nat maxConcurrent) 0 ∅ ∅ ∅ ∅ ∅ [] [].

Definition with_calls (f : gmap nat call → gmap nat call) (s : sys) : sys :=
  MkSys (limit s) (admitted s) (pending s) (objects s) (f (calls s)) (handlers s) (issued s) (sent s) (audit s).
Definition with_handlers (f : gmap nat handler → gmap nat handler) (s : sys) : sys :=
  MkSys (limit s) (admitted s) (pending s) (objects s) (calls s) (f (handlers s)) (issued s) (sent s) (audit s).
Definition with_objects (f : gmap nat pendingAction → gmap nat pendingAction) (s : sys) : sys :=
  MkSys (limit s) (admitted s) (pending s) (f (objects s)) (calls s) (handlers s) (issued s) (sent s) (audit s).
Definition with_pending (f : gmap string nat → gmap string nat) (s : sys) : sys :=
  MkSys (limit s) (admitted s) (f (pending s)) (objects s) (calls s) (handlers s) (issued s) (sent s) (audit s).
Definition with_admitted (n : nat) (s : sys) : sys := MkSys (limit s) n (pending s) (objects s) (calls s) (handlers s) (issued s) (sent s) (audit s).
Definition with_issued (id : string) (s : sys) : sys :=
  MkSys (limit s) (admitted s) (pending s) (objects s) (calls s) (handlers s) ({[id]} ∪ issued s) (sent s) (audit s).
Definition with_sent (l : list (nat * string * PowerActionData)) (s : sys) : sys :=
  MkSys (limit s) (admitted s) (pending s) (objects s) (calls s) (handlers s) (issued s) (sent s ++ l) (audit s).
Definition with_audit (l : list audit_event) (s : sys) : sys :=
  MkSys (limit s) (admitted s) (pending s) (objects s) (calls s) (handlers s) (issued s) (sent s) (audit s ++ l).

(** What happens next, with what the environment answers. *)
Inductive event :=
| Request (k : nat) (r : request)
| Guards (k : nat) (maintenance : guard) (limited online : bool)
| Admit (k : nat)
| Register (k : nat) (requestID : string)
| SendAction (k : nat) (ok reached : bool)
| TakeResult (k : nat)
| ContextDone (k : nat) (deadline : bool)
| TimerFires (k : nat)
| DeletePending (k : nat)
| ReleasePlace (k : nat)
| Respond (k : nat)
| Receive (h : nat) (conn : string) (msg : Message)
| LookUp (h : nat)
| SwapFlag (h : nat)
| Deliver (h : nat).

Definition goto (k : nat) (c : call) (p : pc) : sys → sys := with_calls <[k := MkCall (C_req c) p]>.
Definition hgoto (h : nat) (x : handler) (p : hpc) : sys → sys := with_handlers <[h := MkHandler (H_conn x) (H_msg x) p]>.

Definition invalid_request : answer := (no_result, Some (MkActionError ErrorInvalid "" "" "invalid power action request")).
Definition agent_offline : answer := (no_result, Some (MkActionError ErrorAgentOffline "" "" "asset agent is not connected")).
Definition busy (r : request) : answer :=
  (named_result "" (asset_of r) (action_of r), Some (MkActionError ErrorBusy "" "" "too many power actions are already in progress")).
Definition send_failed (requestID : string) : answer := (no_result, Some (MkActionError ErrorSendFailed requestID "" "failed to deliver power action to agent")).
Definition timed_out (requestID : string) (r : request) : answer :=
  (named_result requestID (asset_of r) (action_of r), Some (MkActionError ErrorTimedOut requestID "" "timed out waiting for the agent power result")).
Definition canceled (requestID : string) (r : request) : answer :=
  (named_result requestID (asset_of r) (action_of r), Some (MkActionError ErrorCanceled requestID "" "power action request canceled")).

(** The start of [Execute]: the checks of the request and of the connection. *)
Definition execute_start (r : request) (online : bool) : pc :=
  if is_empty (asset_of r) || (256 <? length (chars (asset_of r)))%nat || negb (PowerAction_Valid (action_of r)) then PRespond invalid_request
  else if negb online then PRespond agent_offline
  else PAdmit.

(** The steps of a request *)
Definition exec_call (k : nat) (c : call) (e : event) (s : sys) : option sys :=
  let r := C_req c in
  match e, C_pc c with
  | Guards _ maintenance limited online, PStart =>
      match power_guards k r maintenance limited with
      | inl (rs, events) => Some (goto k c (PDone rs) (with_audit events s))
      | inr _ => Some (goto k c (execute_start r online) s)
      end
  | Admit _, PAdmit =>
      if (admitted s <? limit s)%nat then Some (goto k c PStore (with_admitted (S (admitted s)) s)) else Some (goto k c (PRespond (busy r)) s)
  | Register _ id, PStore =>
      if bool_decide (id ∈ issued s) then None
      else Some (goto k c (PSend id) (with_pending <[id := k]> (with_objects <[k := MkPending id (asset_of r) (action_of r) None false]> (with_issued id s))))
  | SendAction _ ok reached, PSend id =>
      let s := if ok || reached then with_sent [(k, asset_of r, MkActionData id (asset_of r) (action_of r))] s else s in
      Some (goto k c (if ok : bool then PWait id else PDelete id (send_failed id)) s)
  | TakeResult _, PWait id =>
      o ← objects s !! k; result ← P_Result o;
      Some (goto k c (PDelete id (result_answer id result))
        (with_objects <[k := MkPending (P_RequestID o) (P_AssetID o) (P_Action o) None (P_Delivered o)]> s))
  | ContextDone _ deadline, PWait id => Some (goto k c (PDelete id (if deadline : bool then timed_out id r else canceled id r)) s)
  | TimerFires _, PWait id => Some (goto k c (PDelete id (timed_out id r)) s)
  | DeletePending _, PDelete id a => Some (goto k c (PRelease a) (with_pending (delete id) s))
  | ReleasePlace _, PRelease a => Some (goto k c (PRespond a) (with_admitted (pred (admitted s)) s))
  | Respond _, PRespond a => let '(rs, au) := power_response k r a in Some (goto k c (PDone rs) (with_audit [au] s))
  | _, _ => None
  end.

(** [HandleResult] *)
Definition exec_handler (h : nat) (x : handler) (e : event) (s : sys) : option sys :=
  match e, H_pc x with
  | LookUp _, HStart =>
      let found :=
        if negb (bool_decide (M_Type (H_msg x) = MsgPowerResult)) then None
        else
          result ← M_Data (H_msg x);
          if negb (ResultData_Validate result) || is_empty (M_ID (H_msg x)) || negb (bool_decide (M_ID (H_msg x) = PR_RequestID result)) then None
          else
            k ← pending s !! PR_RequestID result; o ← objects s !! k;
            if negb (bool_decide (H_conn x = P_AssetID o)) || negb (bool_decide (PR_AssetID result = P_AssetID o)) ||
               negb (bool_decide (PR_Action result = P_Action o)) || negb (bool_decide (PR_RequestID result = P_RequestID o)) then None
            else Some k
      in Some (hgoto h x (match found with Some k => HFound k | None => HDone None end) s)
  | SwapFlag _, HFound k =>
      o ← objects s !! k;
      if P_Delivered o then Some (hgoto h x (HDone None) s)
      else Some (hgoto h x (HWon k) (with_objects <[k := MkPending (P_RequestID o) (P_AssetID o) (P_Action o) (P_Result o) true]> s))
  | Deliver _, HWon k =>
      o ← objects s !! k; result ← M_Data (H_msg x);
      match P_Result o with
      | Some _ => None
      | None => Some (hgoto h x (HDone (Some k)) (with_objects <[k := MkPending (P_RequestID o) (P_AssetID o) (P_Action o) (Some result) (P_Delivered o)]> s))
      end
  | _, _ => None
  end.

Definition thread_of (e : event) : nat + nat :=
  match e with
  | Request k _ | Guards k _ _ _ | Admit k | Register k _ | SendAction k _ _ | TakeResult k | ContextDone k _ | TimerFires k | DeletePending k | ReleasePlace k | Respond k => inl k
  | Receive h _ _ | LookUp h | SwapFlag h | Deliver h => inr h
  end.

(** One event; [None] when it cannot happen. *)
Definition exec (s : sys) (e : event) : option sys :=
  match e with
  | Request k r => match calls s !! k with None => Some (with_calls <[k := MkCall r PStart]> s) | Some _ => None end
  | Receive h conn msg => match handlers s !! h with None => Some (with_handlers <[h := MkHandler conn msg HStart]> s) | Some _ => None end
  | _ => match thread_of e with
         | inl k => c ← calls s !! k; exec_call k c e s
         | inr h => x ← handlers s !! h; exec_handler h x e s
         end
  end.

Definition power_step (s s' : sys) : Prop := ∃ e, exec s e = Some s'.
Definition reachable (s : sys) : Prop := ∃ n, rtc power_step (NewWithLimit n) s.

(** The events that start a request or bring a result *)
Definition starts (e : event) : bool := match e with Request _ _ | Receive _ _ _ => true | _ => false end.

Inductive exec_case (s : sys) (e : event) (s' : sys) : Prop :=
| case_request k r : e = Request k r → calls s !! k = None → s' = with_calls <[k := MkCall r PStart]> s → exec_case s e s'
| case_receive h conn msg : e = Receive h conn msg → handlers s !! h = None → s' = with_handlers <[h := MkHandler conn msg HStart]> s → exec_case s e s'
| case_call k c : thread_of e = inl k → starts e = false → calls s !! k = Some c → exec_call k c e s = Some s' → exec_case s e s'
| case_handler h x : thread_of e = inr h → starts e = false → handlers s !! h = Some x → exec_handler h x e s = Some s' → exec_case s e s'.

Lemma exec_cases s e s' : exec s e = Some s' → exec_case s e s'.
Proof.
  destruct e; simpl.
  1: { destruct (calls s !! k) eqn:Hk; [done|]. intros [= <-]. by eapply case_request. }
  11: { destruct (handlers s !! h) eqn:Hh; [done|]. intros [= <-]. by eapply case_receive. }
  all: try (destruct (calls s !! k) as [c|] eqn:Hk; [|done]; intros He; by eapply (case_call _ _ _ k c)).
  all: destruct (handlers s !! h) as [x|] eqn:Hh; [|done]; intros He; by eapply (case_handler _ _ _ h x).
Qed.

(** ** What holds in every state *)

(** A result that was received on the connection of the asset and answers this action. *)
Definition matches (o : pendingAction) (x : handler) (r : PowerResultData) : Prop :=
  M_Type (H_msg x) = MsgPowerResult ∧ M_Data (H_msg x) = Some r ∧ ResultData_Validate r = true ∧ M_ID (H_msg x) = PR_RequestID r ∧
  PR_RequestID r = P_RequestID o ∧ H_conn x = P_AssetID o ∧ PR_AssetID r = P_AssetID o ∧ PR_Action r = P_Action o.

(** The result [r] was delivered to the request [k]. *)
Definition delivered (s : sys) (k : nat) (r : PowerResultData) : Prop :=
  ∃ h x o, handlers s !! h = Some x ∧ H_pc x = HDone (Some k) ∧ objects s !! k = Some o ∧ matches o x r.

(** The object of a request *)
Definition registered (s : sys) (k : nat) (r : request) (id : string) : Prop :=
  ∃ o, objects s !! k = Some o ∧ P_RequestID o = id ∧ P_AssetID o = asset_of r ∧ P_Action o = action_of r.

Definition message_of (k : nat) (r : request) (id : string) : nat * string * PowerActionData := (k, asset_of r, MkActionData id (asset_of r) (action_of r)).

(** An answer without error has a delivered result behind it, and the action was sent. *)
Definition justified (s : sys) (k : nat) (r : request) (a : answer) : Prop :=
  a.2 = None → ∃ id, registered s k r id ∧ PR_RequestID a.1 = id ∧ PR_Status a.1 = PowerResultAccepted ∧ delivered s k a.1 ∧ message_of k r id ∈ sent s.

(** The key may act, the action is known, and the asset is one of the key's. *)
Definition may_act (r : request) : bool := ScopeCheck (R_scopes r) "assets:power" && PowerAction_Valid (action_of r) && AssetCheck (R_allowed r) (R_asset r).
Definition authorised (r : request) : Prop := may_act r = true.

Definition untouched (s : sys) (k : nat) : Prop := objects s !! k = None ∧ ∀ a d, (k, a, d) ∉ sent s.

Definition call_inv (s : sys) (k : nat) (c : call) : Prop :=
  match C_pc c with
  | PStart => untouched s k
  | PAdmit | PStore => authorised (C_req c) ∧ untouched s k
  | PSend id => authorised (C_req c) ∧ registered s k (C_req c) id ∧ ∀ a d, (k, a, d) ∉ sent s
  | PWait id => authorised (C_req c) ∧ registered s k (C_req c) id ∧ message_of k (C_req c) id ∈ sent s
  | PDelete id a => authorised (C_req c) ∧ registered s k (C_req c) id ∧ justified s k (C_req c) a
  | PRelease a | PRespond a => authorised (C_req c) ∧ justified s k (C_req c) a
  | PDone rs => RS_Status rs = 202 → authorised (C_req c) ∧ ∃ r, justified s k (C_req c) (r, None) ∧ RS_RequestID rs = PR_RequestID r
  end.

Definition target (p : hpc) : option nat := match p with HFound k | HWon k => Some k | HDone d => d | HStart => None end.
Definition winner (p : hpc) : option nat := match p with HWon k => Some k | HDone d => d | _ => None end.

Definition handler_inv (s : sys) (x : handler) : Prop :=
  (∀ k, target (H_pc x) = Some k → ∃ o r, objects s !! k = Some o ∧ matches o x r) ∧
  (∀ k, winner (H_pc x) = Some k → ∃ o, objects s !! k = Some o ∧ P_Delivered o = true).

Definition object_inv (s : sys) (k : nat) (o : pendingAction) : Prop :=
  P_RequestID o ∈ issued s ∧ is_Some (calls s !! k) ∧
  ∀ r, P_Result o = Some r → ∃ h x, handlers s !! h = Some x ∧ H_pc x = HDone (Some k) ∧ M_Data (H_msg x) = Some r.

Record inv (s : sys) : Prop := {
  i_calls k c : calls s !! k = Some c → call_inv s k c;
  i_objects k o : objects s !! k = Some o → object_inv s k o;
  i_handlers h x : handlers s !! h = Some x → handler_inv s x;
  i_once h h' x x' k : handlers s !! h = Some x → handlers s !! h' = Some x' → winner (H_pc x) = Some k → winner (H_pc x') = Some k → h = h';
  i_ids k k' o o' : objects s !! k = Some o → objects s !! k' = Some o' → P_RequestID o = P_RequestID o' → k = k';
  i_sent k a d : (k, a, d) ∈ sent s → is_Some (calls s !! k);
  i_sent_once : NoDup (sent s).*1.*1 }.

(** *** States that only add to what is known *)

Definition same_action (o o' : pendingAction) : Prop := P_RequestID o' = P_RequestID o ∧ P_AssetID o' = P_AssetID o ∧ P_Action o' = P_Action o.

Record extends (s s' : sys) : Prop := {
  x_objects k o : objects s !! k = Some o → ∃ o', objects s' !! k = Some o' ∧ same_action o o' ∧ (P_Delivered o = true → P_Delivered o' = true);
  x_handlers h x k : handlers s !! h = Some x → H_pc x = HDone (Some k) → handlers s' !! h = Some x;
  x_sent t : t ∈ sent s → t ∈ sent s' }.

(** The step is not one of the request [k]. *)
Definition frame (s s' : sys) (k : nat) : Prop :=
  (objects s !! k = None → objects s' !! k = None) ∧ ∀ a d, (k, a, d) ∈ sent s' → (k, a, d) ∈ sent s.

Lemma matches_same o o' x r : same_action o o' → matches o x r → matches o' x r.
Proof. unfold matches. by intros (-> & -> & ->). Qed.

Lemma registered_mono s s' k r id : extends s s' → registered s k r id → registered s' k r id.
Proof. intros Hx (o & Ho & Hid & Ha & Hc). destruct (x_objects _ _ Hx _ _ Ho) as (o' & Ho' & (? & ? & ?) & _). exists o'. split_and!; congruence. Qed.

Lemma power_justified_mono s s' k r a : extends s s' → justified s k r a → justified s' k r a.
Proof.
  intros Hx Hj Ha. destruct (Hj Ha) as (id & Hr & Hid & Hs & (h & x & o & Hh & Hp & Ho & Hm) & Hin). exists id.
  split; [by eapply registered_mono|]. split; [done|]. split; [done|]. split; [|by apply (x_sent _ _ Hx)].
  destruct (x_objects _ _ Hx _ _ Ho) as (o' & Ho' & Hsame & _). exists h, x, o'. split; [by eapply x_handlers|]. split; [done|]. split; [done|]. by eapply matches_same.
Qed.

Lemma call_inv_mono s s' k c : extends s s' → frame s s' k → call_inv s k c → call_inv s' k c.
Proof.
  intros Hx [Hf1 Hf2]. unfold call_inv, untouched. destruct (C_pc c).
  - intros [? Hs]. split; [by apply Hf1|]. intros a d Ht%Hf2. by eapply Hs.
  - intros (? & ? & Hs). split; [done|]. split; [by apply Hf1|]. intros a d Ht%Hf2. by eapply Hs.
  - intros (? & ? & Hs). split; [done|]. split; [by apply Hf1|]. intros a d Ht%Hf2. by eapply Hs.
  - intros (? & ? & Hs). split; [done|]. split; [by eapply registered_mono|]. intros a d Ht%Hf2. by eapply Hs.
  - intros (? & ? & ?). split; [done|]. split; [by eapply registered_mono|]. by apply (x_sent _ _ Hx).
  - intros (? & ? & ?). split; [done|]. split; [by eapply registered_mono|by eapply power_justified_mono].
  - intros (? & ?). split; [done|by eapply power_justified_mono].
  - intros (? & ?). split; [done|by eapply power_justified_mono].
  - intros Hd [? (r & ? & ?)]%Hd. split; [done|]. exists r. split; [by eapply power_justified_mono|done].
Qed.

Lemma handler_inv_mono s s' x : extends s s' → handler_inv s x → handler_inv s' x.
Proof.
  intros Hx [Ht Hw]. split.
  - intros k Hk. destruct (Ht k Hk) as (o & r & Ho & Hm). destruct (x_objects _ _ Hx _ _ Ho) as (o' & Ho' & Hsame & _). exists o', r. split; [done|]. by eapply matches_same.
  - intros k Hk. destruct (Hw k Hk) as (o & Ho & Hd). destruct (x_objects _ _ Hx _ _ Ho) as (o' & Ho' & _ & Hd'). by eauto.
Qed.

(** *** Steps of a request *)

Lemma inv_call s s' k c' :
  inv s → handlers s' = handlers s → calls s' = <[k := c']> (calls s) → issued s ⊆ issued s' → extends s s' →
  (∀ k', k' ≠ k → frame s s' k') → call_inv s' k c' →
  (∀ k' o', objects s' !! k' = Some o' →
    (∃ o, objects s !! k' = Some o ∧ P_RequestID o' = P_RequestID o ∧ ∀ r, P_Result o' = Some r → P_Result o = Some r) ∨
    k' = k ∧ P_RequestID o' ∉ issued s ∧ P_RequestID o' ∈ issued s' ∧ P_Result o' = None) →
  NoDup (sent s').*1.*1 → (∀ k' a d, (k', a, d) ∈ sent s' → (k', a, d) ∈ sent s ∨ k' = k) → inv s'.
Proof.
  intros Hs Hh Hc Hi Hx Hframe Hk Ho Hnd Hsent. split.
  - intros k' c0. rewrite Hc. intros [[<- <-]|[Hne Hc0]]%lookup_insert_Some; [done|]. apply (call_inv_mono s); [done|by apply Hframe|by apply (i_calls _ Hs)].
  - intros k' o' Hk'. unfold object_inv. rewrite Hc, Hh. destruct (Ho _ _ Hk') as [(o & Ho0 & Hid & Hr)|(-> & _ & Hin & Hr)].
    + destruct (i_objects _ Hs _ _ Ho0) as (Hin & Hcall & Hdel). split; [rewrite Hid; by apply Hi|]. split; [by apply lookup_insert_is_Some'; right|]. intros r ?%Hr. by apply Hdel.
    + split; [done|]. split; [by rewrite lookup_insert_eq|]. by rewrite Hr.
  - intros h x. rewrite Hh. intros ?%(i_handlers _ Hs). by eapply handler_inv_mono.
  - rewrite Hh. apply (i_once _ Hs).
  - intros k1 k2 o1 o2 H1 H2 Heq. destruct (Ho _ _ H1) as [(p1 & Hp1 & E1 & _)|(-> & N1 & _)], (Ho _ _ H2) as [(p2 & Hp2 & E2 & _)|(-> & N2 & _)].
    + apply (i_ids _ Hs k1 k2 p1 p2); congruence.
    + exfalso. apply N2. rewrite <-Heq, E1. apply (i_objects _ Hs _ _ Hp1).
    + exfalso. apply N1. rewrite Heq, E2. apply (i_objects _ Hs _ _ Hp2).
    + done.
  - intros k' a d Hin. rewrite Hc. apply lookup_insert_is_Some'. destruct (Hsent _ _ _ Hin) as [?%(i_sent _ Hs)| ->]; [by right|by left].
  - done.
Qed.

Lemma extends_same s s' : objects s' = objects s → handlers s' = handlers s → sent s' = sent s → extends s s'.
Proof. intros Ho Hh Ht. split; rewrite ?Ho, ?Hh, ?Ht; [|done..]. intros k o Hk. by exists o. Qed.

(** A step that only moves the request on. *)
Lemma inv_goto s s' k c' :
  inv s → calls s' = <[k := c']> (calls s) → objects s' = objects s → handlers s' = handlers s → sent s' = sent s → issued s' = issued s →
  call_inv s k c' → inv s'.
Proof.
  intros Hs Hc Ho Hh Ht Hi Hk. apply (inv_call s s' k c'); try done.
  - by rewrite Hi.
  - by apply extends_same.
  - intros k' _. split; [by rewrite Ho|by rewrite Ht].
  - apply (call_inv_mono s); [by apply extends_same|split; [by rewrite Ho|by rewrite Ht]|done].
  - intros k' o'. rewrite Ho. intros Hk'. left. by exists o'.
  - rewrite Ht. apply Hs.
  - intros k' a d. rewrite Ht. by left.
Qed.

Lemma inv_request s k r s' : inv s → exec s (Request k r) = Some s' → inv s'.
Proof.
  intros Hs He. simpl in He. destruct (calls s !! k) eqn:Hk; [done|]. injection He as <-. apply (inv_goto s _ k (MkCall r PStart)); try done. split.
  - destruct (objects s !! k) as [o|] eqn:Ho; [|done]. apply (i_objects _ Hs) in Ho as (_ & [? Hc] & _). congruence.
  - intros a d [? Hc]%(i_sent _ Hs). congruence.
Qed.

Lemma power_guards_pass k r maintenance limited : power_guards k r maintenance limited = inr () → authorised r.
Proof. unfold power_guards, authorised, may_act. destruct (ScopeCheck _ _), (PowerAction_Valid _), (AssetCheck _ _), maintenance, limited; done. Qed.

Lemma power_guards_status k r maintenance limited rs events : power_guards k r maintenance limited = inl (rs, events) → RS_Status rs ≠ 202.
Proof. unfold power_guards. destruct (ScopeCheck _ _), (PowerAction_Valid _), (AssetCheck _ _), maintenance, limited; intros [= <- <-]; done. Qed.

Lemma justified_error s k r a e : a.2 = Some e → justified s k r a.
Proof. intros Ha Hn. congruence. Qed.

Lemma power_response_accepted k r a rs au : power_response k r a = (rs, au) → RS_Status rs = 202 → ∃ result, a = (result, None) ∧ RS_RequestID rs = PR_RequestID result.
Proof.
  unfold power_response. destruct a as [result [e|]]; [|intros [= <- <-] _; by exists result]. destruct (powerHTTPError (AE_Kind e)) as [status code] eqn:Hp.
  intros [= <- <-] Hst. simpl in Hst. subst. destruct (AE_Kind e); discriminate.
Qed.

Lemma result_answer_accepted id r a : result_answer id r = a → a.2 = None → a = (r, None) ∧ PR_Status r = PowerResultAccepted.
Proof. intros <-. unfold result_answer. repeat case_bool_decide; by intros. Qed.

(** The local steps of a request, from admission to its response. *)
Lemma inv_local s k c e s' :
  inv s → calls s !! k = Some c → exec_call k c e s = Some s' →
  match C_pc c with PStart | PAdmit | PRelease _ | PRespond _ | PDelete _ _ => True | PWait _ => match e with TakeResult _ => False | _ => True end | _ => False end → inv s'.
Proof.
  intros Hs Hk He Hpc. pose proof (i_calls _ Hs _ _ Hk) as Hc. unfold call_inv in Hc. destruct c as [r p]. simpl in *.
  destruct e, p; try done; simpl in *.
  - destruct (power_guards k r maintenance limited) as [[rs events]|[]] eqn:Hg; injection He as <-; eapply inv_goto; try done; simpl.
    + intros Hst. by apply power_guards_status in Hg.
    + apply power_guards_pass in Hg. unfold execute_start. destruct (_ || _); [|destruct online]; simpl; (split; [done|]); [by eapply justified_error|done|by eapply justified_error].
  - destruct (admitted s <? limit s)%nat; injection He as <-; eapply inv_goto; try done; simpl. destruct Hc. split; [done|by eapply justified_error].
  - injection He as <-. eapply inv_goto; try done; simpl. destruct Hc as (? & ? & ?). split; [done|]. split; [done|]. destruct deadline; by eapply justified_error.
  - injection He as <-. eapply inv_goto; try done; simpl. destruct Hc as (? & ? & ?). split; [done|]. split; [done|]. by eapply justified_error.
  - injection He as <-. eapply inv_goto; try done; simpl. by destruct Hc as (? & _ & ?).
  - injection He as <-. eapply inv_goto; try done.
  - destruct (power_response k r a) as [rs au] eqn:Hr. injection He as <-. eapply inv_goto; try done; simpl. intros Hst. destruct Hc as [? Hj].
    destruct (power_response_accepted _ _ _ _ _ Hr Hst) as (result & -> & ->). split; [done|]. by exists result.
Qed.

Lemma inv_register s k r id s' : inv s → calls s !! k = Some (MkCall r PStore) → exec_call k (MkCall r PStore) (Register k id) s = Some s' → inv s'.
Proof.
  intros Hs Hk He. simpl in He. case_bool_decide as Hid; [done|]. injection He as <-. destruct (i_calls _ Hs _ _ Hk) as (Hauth & Hobj & Hsent).
  set (o := MkPending id (asset_of r) (action_of r) None false). apply (inv_call s _ k (MkCall r (PSend id))); try done; simpl.
  - set_solver.
  - split; try done. simpl. intros k' o' Ho'. exists o'. split; [|by split_and!]. rewrite lookup_insert_ne; [done|congruence].
  - intros k' Hne. split; [|done]. simpl. by rewrite lookup_insert_ne.
  - split; [done|]. split; [|done]. exists o. simpl. by rewrite lookup_insert_eq.
  - intros k' o' [[<- <-]|[Hne Ho']]%lookup_insert_Some; [right; simpl; set_solver|left; by exists o'].
  - apply Hs.
  - by left.
Qed.

Lemma NoDup_once (l : list (nat * string * PowerActionData)) k a d : NoDup l.*1.*1 → (∀ a d, (k, a, d) ∉ l) → NoDup (l ++ [(k, a, d)]).*1.*1.
Proof.
  intros Hn Hk. rewrite !fmap_app. apply NoDup_app. split; [done|]. split; [|apply NoDup_singleton]. intros x Hx Hy%list_elem_of_singleton. simpl in Hy. subst x.
  apply list_elem_of_fmap in Hx as ([k' a'] & -> & ([[k'' a''] d''] & [= -> ->] & Hin)%list_elem_of_fmap). by eapply Hk.
Qed.

Lemma inv_send s k r id ok reached s' :
  inv s → calls s !! k = Some (MkCall r (PSend id)) → exec_call k (MkCall r (PSend id)) (SendAction k ok reached) s = Some s' → inv s'.
Proof.
  intros Hs Hk He. simpl in He. injection He as <-. destruct (i_calls _ Hs _ _ Hk) as (Hauth & Hreg & Hsent). simpl in *.
  set (c' := MkCall r (if ok then PWait id else PDelete id (send_failed id))).
  destruct (ok || reached) eqn:Hr.
  - apply (inv_call s _ k c'); try done; simpl.
    + split; try done; simpl; [|intros t ?; apply elem_of_app; by left]. intros k' o Ho. exists o. by split_and!.
    + intros k' Hne. split; [done|]. simpl. intros a d [?|Hin%list_elem_of_singleton]%elem_of_app; [done|congruence].
    + unfold c'. destruct ok; simpl; (split; [done|]); (split; [done|]); [apply elem_of_app; right; by left|by eapply justified_error].
    + intros k' o Ho. left. by exists o.
    + by apply NoDup_once; [apply Hs|].
    + intros k' a d [?|Hin%list_elem_of_singleton]%elem_of_app; [by left|right; congruence].
  - apply orb_false_iff in Hr as [-> _]. by eapply inv_goto.
Qed.

Lemma matches_id o x r : matches o x r → PR_RequestID r = P_RequestID o.
Proof. by intros (_ & _ & _ & _ & ? & _). Qed.

Lemma inv_take s k r id s' :
  inv s → calls s !! k = Some (MkCall r (PWait id)) → exec_call k (MkCall r (PWait id)) (TakeResult k) s = Some s' → inv s'.
Proof.
  intros Hs Hk He. simpl in He. destruct (objects s !! k) as [o|] eqn:Ho; [|done]. simpl in He. destruct (P_Result o) as [result|] eqn:Hres; [|done].
  injection He as <-. destruct (i_calls _ Hs _ _ Hk) as (Hauth & Hreg & Hsent). simpl in *. set (o' := MkPending _ _ _ _ _).
  destruct (i_objects _ Hs _ _ Ho) as (_ & _ & Hdel). destruct (Hdel _ Hres) as (h & x & Hx & Hpc & Hdata).
  destruct (proj1 (i_handlers _ Hs _ _ Hx) k) as (o0 & r0 & Ho0 & Hm); [by rewrite Hpc|]. rewrite Ho in Ho0. injection Ho0 as <-.
  assert (r0 = result) as -> by (destruct Hm as (_ & Hd & _); congruence).
  match goal with |- inv ?s' => assert (Hx' : extends s s') end.
  { split; simpl; try done. intros k' o1 Ho1. destruct (decide (k' = k)) as [->|Hne]; [|exists o1; rewrite lookup_insert_ne by done; by split_and!].
    rewrite Ho in Ho1. injection Ho1 as <-. exists o'. rewrite lookup_insert_eq. by split_and!. }
  apply (inv_call s _ k (MkCall r (PDelete id (result_answer id result)))); try done; simpl.
  - intros k' Hne. split; [|done]. simpl. by rewrite lookup_insert_ne.
  - split; [done|]. split; [by eapply registered_mono|]. eapply power_justified_mono; [exact Hx'|]. intros Hn. destruct (result_answer_accepted _ _ _ eq_refl Hn) as [-> Hst].
    exists id. split; [done|]. split; [|split; [done|split; [by exists h, x, o|done]]]. simpl. rewrite (matches_id _ _ _ Hm). destruct Hreg as (o2 & Ho2 & <- & _). congruence.
  - intros k' o1 [[<- <-]|[Hne Ho1]]%lookup_insert_Some; left; [exists o; by split_and!|by exists o1].
  - apply Hs.
  - by left.
Qed.

(** Each step of a request keeps the invariant. *)
Lemma exec_call_inv s k c e s' : thread_of e = inl k → inv s → calls s !! k = Some c → exec_call k c e s = Some s' → inv s'.
Proof.
  intros Ht Hs Hk He. destruct c as [r p]. destruct p; try (by apply (inv_local s k _ e s' Hs Hk He)).
  - destruct e; try done. injection Ht as ->. by eapply inv_register.
  - destruct e; try done. injection Ht as ->. by eapply inv_send.
  - destruct e; try (by apply (inv_local s k _ _ s' Hs Hk He)). injection Ht as ->. by eapply inv_take.
  - by destruct e.
Qed.

(** *** Steps of a result *)

(** A step of the result [h], which was not done, that changes at most the flag and the channel of one object. *)
Lemma inv_handler s s' h x' :
  inv s → calls s' = calls s → sent s' = sent s → issued s' = issued s → handlers s' = <[h := x']> (handlers s) →
  (∀ x k, handlers s !! h = Some x → H_pc x ≠ HDone (Some k)) →
  (∀ k o, objects s !! k = Some o → ∃ o', objects s' !! k = Some o' ∧ same_action o o' ∧ (P_Delivered o = true → P_Delivered o' = true)) →
  (∀ k, objects s !! k = None → objects s' !! k = None) →
  handler_inv s' x' →
  (∀ k o' r, objects s' !! k = Some o' → P_Result o' = Some r →
    (∃ o, objects s !! k = Some o ∧ P_Result o = Some r) ∨ H_pc x' = HDone (Some k) ∧ M_Data (H_msg x') = Some r) →
  (∀ k h' y, winner (H_pc x') = Some k → h' ≠ h → handlers s !! h' = Some y → winner (H_pc y) ≠ Some k) → inv s'.
Proof.
  intros Hs Hc Ht Hi Hh Hnew Hobj Hnone Hx' Hres Honce.
  assert (Hx : extends s s').
  { split; [done| |by rewrite Ht]. intros h' y k Hy Hp. rewrite Hh. destruct (decide (h' = h)) as [->|Hne]; [by destruct (Hnew _ k Hy)|]. by rewrite lookup_insert_ne. }
  assert (Hback : ∀ k o', objects s' !! k = Some o' → ∃ o, objects s !! k = Some o ∧ same_action o o').
  { intros k o' Ho'. destruct (objects s !! k) as [o|] eqn:Ho; [|apply Hnone in Ho; congruence]. destruct (Hobj _ _ Ho) as (o1 & Ho1 & Hsame & _). exists o. split; [done|]. congruence. }
  split.
  - intros k c. rewrite Hc. intros Hk. apply (call_inv_mono s); [done|split; [apply Hnone|by rewrite Ht]|by apply (i_calls _ Hs)].
  - intros k o' Ho'. destruct (Hback _ _ Ho') as (o & Ho & Hid & _). destruct (i_objects _ Hs _ _ Ho) as (? & ? & Hdel). split; [by rewrite Hi, Hid|]. split; [by rewrite Hc|].
    intros r Hr. destruct (Hres _ _ _ Ho' Hr) as [(o1 & Ho1 & Hr1)|[Hp Hd]].
    + rewrite Ho in Ho1. injection Ho1 as <-. destruct (Hdel _ Hr1) as (h' & y & Hy & Hp & ?). exists h', y. split; [by eapply (x_handlers _ _ Hx)|done].
    + exists h, x'. by rewrite Hh, lookup_insert_eq.
  - intros h' y. rewrite Hh. intros [[<- <-]|[_ Hy]]%lookup_insert_Some; [done|]. apply (handler_inv_mono s); [done|by apply (i_handlers _ Hs h')].
  - intros h1 h2 y1 y2 k. rewrite Hh. intros [[<- <-]|[N1 H1]]%lookup_insert_Some [[<- <-]|[N2 H2]]%lookup_insert_Some W1 W2; [done|..].
    + by destruct (Honce k h2 y2 W1).
    + by destruct (Honce k h1 y1 W2).
    + by apply (i_once _ Hs h1 h2 y1 y2 k).
  - intros k k' o o' (p & Hp & Ep & _)%Hback (p' & Hp' & Ep' & _)%Hback He. apply (i_ids _ Hs k k' p p'); congruence.
  - intros k a d. rewrite Ht, Hc. apply (i_sent _ Hs).
  - rewrite Ht. apply Hs.
Qed.

(** A step that changes no object. *)
Lemma inv_hgoto s s' h x' :
  inv s → calls s' = calls s → sent s' = sent s → issued s' = issued s → objects s' = objects s → handlers s' = <[h := x']> (handlers s) →
  (∀ x k, handlers s !! h = Some x → H_pc x ≠ HDone (Some k)) →
  (∀ k, target (H_pc x') = Some k → winner (H_pc x') = None ∧ ∃ o r, objects s !! k = Some o ∧ matches o x' r) → inv s'.
Proof.
  intros Hs Hc Ht Hi Ho Hh Hnew Hx'.
  assert (Hw : ∀ k, winner (H_pc x') ≠ Some k).
  { intros k Hk. destruct (Hx' k) as [Hn _]; [by destruct (H_pc x')|congruence]. }
  apply (inv_handler s s' h x'); rewrite ?Ho; try done.
  - intros k o ?. exists o. by split_and!.
  - split; rewrite ?Ho; [|by intros k ?%Hw]. intros k Hk. by destruct (Hx' k Hk) as [_ ?].
  - intros k o r ? ?. left. by exists o.
  - intros k h' y Hk. by apply Hw in Hk.
Qed.

Lemma inv_lookup s h x s' : inv s → handlers s !! h = Some x → exec_handler h x (LookUp h) s = Some s' → inv s'.
Proof.
  intros Hs Hh He. unfold exec_handler in He. destruct (H_pc x) eqn:Hp; try done. cbv zeta in He. set (found := if negb _ then None else _) in He. injection He as <-.
  eapply inv_hgoto; try done; [intros y k Hy Hpy; congruence|]. simpl. intros k Hk.
  assert (Hf : found = Some k) by (destruct found; [by injection Hk as ->|done]). split; [by rewrite Hf|]. unfold found in Hf. clear Hk. clearbody found.
  case_bool_decide as Hty; [|done]. simpl in Hf. destruct (M_Data (H_msg x)) as [r|] eqn:Hd; [|done]. simpl in Hf.
  destruct (ResultData_Validate r) eqn:Hv; [|done]. simpl in Hf. case_bool_decide as Hempty; [done|]. case_bool_decide as Hid; [|done]. simpl in Hf.
  destruct (pending s !! PR_RequestID r) as [k'|] eqn:Hpend; [|done]. simpl in Hf. destruct (objects s !! k') as [o|] eqn:Ho; [|done]. simpl in Hf.
  do 4 (case_bool_decide; [|done]; simpl in Hf). injection Hf as <-. exists o, r. split; [done|]. by split_and!.
Qed.

Lemma inv_swap s h x s' : inv s → handlers s !! h = Some x → exec_handler h x (SwapFlag h) s = Some s' → inv s'.
Proof.
  intros Hs Hh He. unfold exec_handler in He. destruct (H_pc x) as [|k| |] eqn:Hp; try done. destruct (objects s !! k) as [o|] eqn:Ho; [|done]. simpl in He.
  destruct (proj1 (i_handlers _ Hs _ _ Hh) k) as (o1 & r & Ho1 & Hm); [by rewrite Hp|]. rewrite Ho in Ho1. injection Ho1 as <-.
  destruct (P_Delivered o) eqn:Hd; injection He as <-; [by eapply inv_hgoto; try done; intros y k' Hy Hpy; congruence|].
  eapply inv_handler; try done; simpl.
  - intros y k' Hy Hpy; congruence.
  - intros k' o' Ho'. destruct (decide (k' = k)) as [->|Hne]; [|exists o'; rewrite lookup_insert_ne by done; by split_and!].
    rewrite lookup_insert_eq. eexists. split; [done|]. assert (o' = o) as -> by congruence. by split_and!.
  - intros k' Hk'. rewrite lookup_insert_ne; [done|congruence].
  - split; simpl; intros ? [= <-]; rewrite lookup_insert_eq; [|by eexists]. eexists _, r. split; [done|]. by apply (matches_same o).
  - intros k' o' r' [[<- <-]|[Hne Ho']]%lookup_insert_Some Hr; left; [by exists o|by exists o'].
  - intros ? h' y [= <-] Hne Hy Hw. destruct (proj2 (i_handlers _ Hs _ _ Hy) _ Hw) as (? & ? & ?). congruence.
Qed.

Lemma inv_deliver s h x s' : inv s → handlers s !! h = Some x → exec_handler h x (Deliver h) s = Some s' → inv s'.
Proof.
  intros Hs Hh He. unfold exec_handler in He. destruct (H_pc x) as [| |k|] eqn:Hp; try done. destruct (objects s !! k) as [o|] eqn:Ho; [|done]. simpl in He.
  destruct (M_Data (H_msg x)) as [r|] eqn:Hdata; [|done]. simpl in He. destruct (P_Result o) eqn:Hres; [done|]. injection He as <-.
  destruct (proj1 (i_handlers _ Hs _ _ Hh) k) as (o1 & r1 & Ho1 & Hm); [by rewrite Hp|]. destruct (proj2 (i_handlers _ Hs _ _ Hh) k) as (o2 & Ho2 & Hd); [by rewrite Hp|].
  assert (o1 = o) as -> by congruence. assert (o2 = o) as -> by congruence.
  eapply inv_handler; try done; simpl.
  - intros y k' Hy Hpy; congruence.
  - intros k' o' Ho'. destruct (decide (k' = k)) as [->|Hne]; [|exists o'; rewrite lookup_insert_ne by done; by split_and!].
    rewrite lookup_insert_eq. eexists. split; [done|]. assert (o' = o) as -> by congruence. by split_and!.
  - intros k' Hk'. rewrite lookup_insert_ne; [done|congruence].
  - split; simpl; intros ? [= <-]; rewrite lookup_insert_eq; [|by eexists]. eexists _, r1. split; [done|]. by apply (matches_same o).
  - intros k' o' r' [[<- <-]|[Hne Ho']]%lookup_insert_Some Hr; [right; simpl in *; split; congruence|left; by exists o'].
  - intros ? h' y [= <-] Hne Hy Hw. apply Hne. apply (i_once _ Hs h' h y x k); [done|done|done|by rewrite Hp].
Qed.

Lemma power_exec_inv s e s' : inv s → exec s e = Some s' → inv s'.
Proof.
  intros Hs [k r -> Hk ->|h conn msg -> Hh ->|k c Ht _ Hk He|h x Ht Hst Hh He]%exec_cases.
  - apply (inv_request s k r); [done|]. simpl. by rewrite Hk.
  - eapply inv_hgoto; try done. intros x k Hx. congruence.
  - by eapply (exec_call_inv s k c).
  - destruct e; try done; injection Ht as ->; [by eapply inv_lookup|by eapply inv_swap|by eapply inv_deliver].
Qed.

Lemma power_reachable_inv s : reachable s → inv s.
Proof.
  intros [n Hr]. assert (H0 : inv (NewWithLimit n)) by (split; try done; [by intros ??? ?%not_elem_of_nil|apply NoDup_nil_2]). revert H0.
  induction Hr as [|s s' s'' [e He] _ IH]; [done|]. intros Hs. apply IH. by eapply power_exec_inv.
Qed.

(** ** What a 202 means *)

(** C14: over any interleaving of requests, results, timeouts and connections that lie: a request is answered 202 only if its key has the scope and the asset,
    the action was sent, to that asset and once, and the connection of that very asset delivered a well-formed result for that very action
    which says that it was accepted. No other result was delivered to the request, and the result was delivered to no other. *)
Theorem power_accepted s k c rs :
  reachable s → calls s !! k = Some c → C_pc c = PDone rs → RS_Status rs = 202 →
  authorised (C_req c) ∧
  (∃ d, filter (λ t, t.1.1 = k) (sent s) = [(k, asset_of (C_req c), d)] ∧ d = MkActionData (RS_RequestID rs) (asset_of (C_req c)) (action_of (C_req c))) ∧
  ∃ h x r, handlers s !! h = Some x ∧ H_pc x = HDone (Some k) ∧ H_conn x = asset_of (C_req c) ∧ M_Data (H_msg x) = Some r ∧ ResultData_Validate r = true ∧
    r = MkResultData (RS_RequestID rs) (asset_of (C_req c)) (action_of (C_req c)) PowerResultAccepted "" (PR_Message r) ∧
    (∀ h' x', handlers s !! h' = Some x' → H_pc x' = HDone (Some k) → h' = h) ∧
    ∀ k' o, objects s !! k' = Some o → P_RequestID o = RS_RequestID rs → k' = k.
Proof.
  intros Hr Hk Hpc Hst. pose proof (power_reachable_inv _ Hr) as Hs. pose proof (i_calls _ Hs _ _ Hk) as Hc. unfold call_inv in Hc. rewrite Hpc in Hc.
  destruct (Hc Hst) as (Hauth & r & Hj & Hid). destruct (Hj eq_refl) as (id & (o & Ho & Ho1 & Ho2 & Ho3) & Hrid & Hacc & (h & x & o' & Hh & Hp & Ho' & Hm) & Hsent).
  cbn [fst snd] in *. assert (o' = o) as -> by congruence. destruct Hm as (Hty & Hd & Hv & Hmid & M1 & M2 & M3 & M4).
  assert (Hid' : RS_RequestID rs = id) by congruence. split; [done|]. split.
  - eexists. split; [|done]. rewrite Hid'. fold (message_of k (C_req c) id). pose proof (i_sent_once _ Hs) as Hnd. revert Hsent Hnd. clear. generalize (sent s) as l.
    induction l as [|[[k' a] d] l IH]; [by intros ?%not_elem_of_nil|]. rewrite elem_of_cons, filter_cons. intros Hin Hnd. csimpl in Hnd. apply NoDup_cons in Hnd as [Hnot Hnd].
    assert (Hother : k' = k → filter (λ t : nat * string * PowerActionData, t.1.1 = k) l = []).
    { intros ->. apply filter_none. intros t Ht Hkt. apply Hnot. rewrite <-Hkt. by do 2 apply list_elem_of_fmap_2. }
    destruct Hin as [[= <- <- <-]|Hin].
    + rewrite decide_True by done. by rewrite Hother.
    + destruct (decide (k' = k)) as [He|Hne]; [|rewrite decide_False by done; by apply IH].
      exfalso. apply Hother in He. assert (Hf : message_of k (C_req c) id ∈ filter (λ t : nat * string * PowerActionData, t.1.1 = k) l) by (by apply list_elem_of_filter).
      rewrite He in Hf. by apply not_elem_of_nil in Hf.
  - exists h, x, r. split; [done|]. split; [done|]. split; [congruence|]. split; [done|]. split; [done|]. split; [|split].
    + destruct r as [rid ra rc rst rcode rmsg]. simpl in *. subst rst.
      assert (rcode = "") as ->; [|f_equal; congruence]. unfold ResultData_Validate in Hv. simpl in Hv. apply andb_true_iff in Hv as [_ Hv]. by apply bool_decide_eq_true in Hv.
    + intros h' x' Hh' Hp'. apply (i_once _ Hs h' h x' x k); try done; [by rewrite Hp'|by rewrite Hp].
    + intros k' o1 Hk' Hid1. apply (i_ids _ Hs k' k o1 o); [done|done|congruence].
Qed.

(** ** Places, entries and the end of every request *)

(** The sum of [f] over a map *)
Definition msum {A} (f : A → nat) (m : gmap nat A) : nat := sum_list_with (λ kv : nat * A, f kv.2) (map_to_list m).

Lemma msum_new {A} (f : A → nat) m k y : m !! k = None → msum f (<[k := y]> m) = (f y + msum f m)%nat.
Proof. intros Hk. unfold msum. by rewrite map_to_list_insert. Qed.

Lemma msum_insert {A} (f : A → nat) m k x y : m !! k = Some x → (msum f (<[k := y]> m) + f x = msum f m + f y)%nat.
Proof.
  intros Hk. rewrite <-(insert_delete_id m k x Hk) at 2. rewrite <-(insert_delete_eq m k y), !msum_new by apply lookup_delete_eq. lia.
Qed.

Lemma msum_le {A} (f g : A → nat) m : (∀ x, f x <= g x)%nat → (msum f m <= msum g m)%nat.
Proof. intros Hfg. unfold msum. induction (map_to_list m) as [|kv l IH]; [done|]. simpl. specialize (Hfg kv.2). lia. Qed.

Lemma msum_zero {A} (f : A → nat) m : (∀ k x, m !! k = Some x → f x = 0%nat) → msum f m = 0%nat.
Proof.
  intros Hf. unfold msum. assert (Hl : ∀ kv, kv ∈ map_to_list m → f kv.2 = 0%nat) by (intros [k x] ?%elem_of_map_to_list; by eapply Hf).
  induction (map_to_list m) as [|kv l IH]; [done|]. simpl. rewrite Hl by (by left). apply IH. intros ? ?. apply Hl. by right.
Qed.

Definition holds_place (c : call) : nat := match C_pc c with PStore | PSend _ | PWait _ | PDelete _ _ | PRelease _ => 1 | _ => 0 end.
Definition entry_of (c : call) : option string := match C_pc c with PSend id | PWait id | PDelete id _ => Some id | _ => None end.
Definition has_entry (c : call) : nat := match entry_of c with Some _ => 1 | None => 0 end.

Arguments holds_place !c /.
Arguments entry_of !c /.
Arguments has_entry !c /.

Record books (s : sys) : Prop := {
  b_pending id k : pending s !! id = Some k ↔ ∃ c, calls s !! k = Some c ∧ entry_of c = Some id;
  b_size : size (pending s) = msum has_entry (calls s);
  b_places : admitted s = msum holds_place (calls s);
  b_limit : (admitted s <= limit s)%nat }.

(** A step that keeps what the request holds. *)
Lemma books_goto s s' k c c' :
  books s → calls s !! k = Some c → calls s' = <[k := c']> (calls s) → pending s' = pending s → admitted s' = admitted s → limit s' = limit s →
  entry_of c' = entry_of c → holds_place c' = holds_place c → books s'.
Proof.
  intros [Hp Hsz Hpl Hl] Hk Hc Hpend Ha Hlim He Hh. pose proof (msum_insert has_entry (calls s) k c c' Hk) as E1. pose proof (msum_insert holds_place (calls s) k c c' Hk) as E2.
  assert (has_entry c' = has_entry c) by (unfold has_entry; by rewrite He). split; rewrite ?Hpend, ?Ha, ?Hlim, ?Hc; try lia.
  intros id k'. rewrite Hp. destruct (decide (k' = k)) as [->|Hne]; [|by rewrite lookup_insert_ne by done]. rewrite lookup_insert_eq, Hk.
  split; intros (? & [= <-] & ?); eexists; (split; [done|]); congruence.
Qed.

Lemma pending_issued s id k : inv s → books s → pending s !! id = Some k → id ∈ issued s.
Proof.
  intros Hs Hb (c & Hk & He)%(b_pending _ Hb). pose proof (i_calls _ Hs _ _ Hk) as Hc. unfold call_inv in Hc. unfold entry_of in He.
  destruct (C_pc c); try done; injection He as ->; destruct Hc as (_ & (o & Ho & <- & _) & _); apply (i_objects _ Hs _ _ Ho).
Qed.

Lemma books_new s k r : books s → calls s !! k = None → books (with_calls <[k := MkCall r PStart]> s).
Proof.
  intros [Hp Hsz Hpl Hl] Hk. split; simpl; rewrite ?msum_new by done; try done. intros id k'. rewrite Hp. split; intros (c & Hc & He); exists c; (split; [|done]).
  - rewrite lookup_insert_ne; [done|congruence].
  - apply lookup_insert_Some in Hc as [[_ <-]|[_ ?]]; [by simpl in He|done].
Qed.

Lemma books_admit s k r : books s → calls s !! k = Some (MkCall r PAdmit) → (admitted s < limit s)%nat → books (goto k (MkCall r PAdmit) PStore (with_admitted (S (admitted s)) s)).
Proof.
  intros [Hp Hsz Hpl Hl] Hk Hlt. pose proof (msum_insert has_entry (calls s) k _ (MkCall r PStore) Hk). pose proof (msum_insert holds_place (calls s) k _ (MkCall r PStore) Hk).
  split; simpl in *; try lia. intros id k'. rewrite Hp. destruct (decide (k' = k)) as [->|Hne]; [|by rewrite lookup_insert_ne by done].
  rewrite lookup_insert_eq, Hk. split; intros (? & [= <-] & ?); done.
Qed.

Lemma books_release s k r a : books s → calls s !! k = Some (MkCall r (PRelease a)) → books (goto k (MkCall r (PRelease a)) (PRespond a) (with_admitted (pred (admitted s)) s)).
Proof.
  intros [Hp Hsz Hpl Hl] Hk. pose proof (msum_insert has_entry (calls s) k _ (MkCall r (PRespond a)) Hk). pose proof (msum_insert holds_place (calls s) k _ (MkCall r (PRespond a)) Hk).
  split; simpl in *; try lia. intros id k'. rewrite Hp. destruct (decide (k' = k)) as [->|Hne]; [|by rewrite lookup_insert_ne by done].
  rewrite lookup_insert_eq, Hk. split; intros (? & [= <-] & ?); done.
Qed.

Lemma books_register s k r id :
  inv s → books s → calls s !! k = Some (MkCall r PStore) → id ∉ issued s →
  books (goto k (MkCall r PStore) (PSend id) (with_pending <[id := k]> (with_objects <[k := MkPending id (asset_of r) (action_of r) None false]> (with_issued id s)))).
Proof.
  intros Hs Hb Hk Hid. assert (Hnone : pending s !! id = None) by (destruct (pending s !! id) eqn:Hn; [by apply pending_issued in Hn|done]).
  destruct Hb as [Hp Hsz Hpl Hl]. pose proof (msum_insert has_entry (calls s) k _ (MkCall r (PSend id)) Hk). pose proof (msum_insert holds_place (calls s) k _ (MkCall r (PSend id)) Hk).
  split; simpl in *; try lia; [|rewrite map_size_insert_None by done; lia]. intros id' k'. rewrite lookup_insert_Some, Hp. split.
  - intros [[<- <-]|(Hne & c & Hc & He)]; [eexists; by rewrite lookup_insert_eq|]. exists c. rewrite lookup_insert_ne; [done|]. intros <-. rewrite Hk in Hc. by injection Hc as <-.
  - intros (c & [[<- <-]|[Hne Hc]]%lookup_insert_Some & He); [left; by injection He as <-|right]. split; [|by exists c].
    intros <-. assert (pending s !! id = Some k') by (apply Hp; by exists c). congruence.
Qed.

Lemma books_delete s k r id a : books s → calls s !! k = Some (MkCall r (PDelete id a)) → books (goto k (MkCall r (PDelete id a)) (PRelease a) (with_pending (delete id) s)).
Proof.
  intros [Hp Hsz Hpl Hl] Hk. pose proof (msum_insert has_entry (calls s) k _ (MkCall r (PRelease a)) Hk). pose proof (msum_insert holds_place (calls s) k _ (MkCall r (PRelease a)) Hk).
  assert (Hid : pending s !! id = Some k) by (apply Hp; by eexists). split; simpl in *; try lia; [|rewrite map_size_delete_Some by done; lia].
  intros id' k'. rewrite lookup_delete_Some, Hp. split.
  - intros (Hne & c & Hc & He). exists c. rewrite lookup_insert_ne; [done|]. intros <-. rewrite Hk in Hc. injection Hc as <-. simpl in He. congruence.
  - intros (c & [[<- <-]|[Hne Hc]]%lookup_insert_Some & He); [done|]. split; [|by exists c]. intros <-. assert (pending s !! id = Some k') by (apply Hp; by exists c). congruence.
Qed.

Lemma exec_call_books s k c e s' : inv s → books s → calls s !! k = Some c → thread_of e = inl k → exec_call k c e s = Some s' → books s'.
Proof.
  intros Hs Hb Hk Ht He. destruct c as [r p]. destruct e, p; try done; simpl in He.
  - destruct (power_guards k r maintenance limited) as [[rs events]|[]]; injection He as <-; eapply books_goto; try done; unfold execute_start; destruct (_ || _), online; done.
  - injection Ht as ->. destruct (Nat.ltb_spec (admitted s) (limit s)); injection He as <-; [by apply books_admit|by eapply books_goto].
  - injection Ht as ->. case_bool_decide; [done|]. injection He as <-. by apply books_register.
  - injection He as <-. destruct ok, reached; by eapply books_goto.
  - destruct (objects s !! k) as [o|]; [|done]. simpl in He. destruct (P_Result o); [|done]. injection He as <-. by eapply books_goto.
  - injection He as <-. by eapply books_goto.
  - injection He as <-. by eapply books_goto.
  - injection He as <-. by apply books_delete.
  - injection He as <-. by apply books_release.
  - destruct (power_response k r a) as [rs au]. injection He as <-. by eapply books_goto.
Qed.

(** What a step of a result leaves alone. *)
Lemma exec_handler_calls h x e s s' :
  exec_handler h x e s = Some s' → calls s' = calls s ∧ pending s' = pending s ∧ admitted s' = admitted s ∧ limit s' = limit s ∧ audit s' = audit s.
Proof.
  unfold exec_handler. destruct e, (H_pc x); try done; [by intros [= <-]|..]; (destruct (objects s !! k) as [o|]; [|done]); simpl.
  - by destruct (P_Delivered o); intros [= <-].
  - destruct (M_Data (H_msg x)); [|done]. simpl. by destruct (P_Result o); intros [= <-].
Qed.

Lemma exec_books s e s' : inv s → books s → exec s e = Some s' → books s'.
Proof.
  intros Hs Hb [k r _ Hk ->|h conn msg _ _ ->|k c Ht _ Hk He|h x _ _ _ He]%exec_cases.
  - by apply books_new.
  - by destruct Hb.
  - by eapply exec_call_books.
  - destruct (exec_handler_calls _ _ _ _ _ He) as (E1 & E2 & E3 & E4 & _). destruct Hb. split; by rewrite ?E1, ?E2, ?E3, ?E4.
Qed.

Definition rank (c : call) : nat :=
  match C_pc c with PStart => 8 | PAdmit => 7 | PStore => 6 | PSend _ => 5 | PWait _ => 4 | PDelete _ _ => 3 | PRelease _ => 2 | PRespond _ => 1 | PDone _ => 0 end.
Definition hrank (x : handler) : nat := match H_pc x with HStart => 3 | HFound _ => 2 | HWon _ => 1 | HDone _ => 0 end.
Definition work (s : sys) : nat := (msum rank (calls s) + msum hrank (handlers s))%nat.
Arguments rank !c /.
Arguments hrank !x /.

Lemma exec_call_rank s k c e s' : thread_of e = inl k → calls s !! k = Some c → exec_call k c e s = Some s' →
  handlers s' = handlers s ∧ ∃ c', calls s' = <[k := c']> (calls s) ∧ (rank c' < rank c)%nat.
Proof.
  intros Ht Hk He. destruct c as [r p]. destruct e, p; try done; simpl in He.
  - destruct (power_guards k r maintenance limited) as [[rs events]|[]]; injection He as <-; (split; [done|]); eexists; (split; [done|]); [simpl; lia|].
    unfold execute_start. destruct (_ || _), online; simpl; lia.
  - destruct (_ <? _)%nat; injection He as <-; (split; [done|]); eexists; (split; [done|]); simpl; lia.
  - case_bool_decide; [done|]. injection He as <-. split; [done|]. eexists. split; [done|]. simpl. lia.
  - injection He as <-. destruct ok, reached; (split; [done|]); eexists; (split; [done|]); simpl; lia.
  - destruct (objects s !! k) as [o|]; [|done]. simpl in He. destruct (P_Result o); [|done]. injection He as <-. split; [done|]. eexists. split; [done|]. simpl. lia.
  - injection He as <-. split; [done|]. eexists. split; [done|]. simpl. lia.
  - injection He as <-. split; [done|]. eexists. split; [done|]. simpl. lia.
  - injection He as <-. split; [done|]. eexists. split; [done|]. simpl. lia.
  - injection He as <-. split; [done|]. eexists. split; [done|]. simpl. lia.
  - destruct (power_response k r a) as [rs au]. injection He as <-. split; [done|]. eexists. split; [done|]. simpl. lia.
Qed.

Lemma exec_handler_rank s h x e s' : exec_handler h x e s = Some s' →
  calls s' = calls s ∧ ∃ x', handlers s' = <[h := x']> (handlers s) ∧ (hrank x' < hrank x)%nat.
Proof.
  intros He. destruct (exec_handler_calls _ _ _ _ _ He) as (Hc & _). split; [done|]. revert He. clear Hc. unfold exec_handler. destruct x as [conn msg p]. destruct e, p; try done; simpl.
  - intros [= <-]. eexists. split; [done|]. simpl. destruct (if negb _ then _ else _); simpl; lia.
  - destruct (objects s !! k) as [o|]; [|done]. simpl. destruct (P_Delivered o); intros [= <-]; eexists; (split; [done|]); simpl; lia.
  - destruct (objects s !! k) as [o|]; [|done]. simpl. destruct (M_Data msg); [|done]. simpl. destruct (P_Result o); [done|]. intros [= <-]; eexists; (split; [done|]); simpl; lia.
Qed.

Lemma exec_work s e s' : starts e = false → exec s e = Some s' → (work s' < work s)%nat.
Proof.
  intros Hst He. unfold work. apply exec_cases in He as [? ? -> _ _|? ? ? -> _ _|k c Ht _ Hk He|h x _ _ Hh He]; [done|done|..].
  - destruct (exec_call_rank _ _ _ _ _ Ht Hk He) as (-> & c' & -> & Hlt). pose proof (msum_insert rank (calls s) k c c' Hk). lia.
  - destruct (exec_handler_rank _ _ _ _ _ He) as (-> & x' & -> & Hlt). pose proof (msum_insert hrank (handlers s) h x x' Hh). lia.
Qed.

(** An unfinished request can always go on: in the end its timer fires. *)
Lemma call_progress s k c : inv s → calls s !! k = Some c → rank c ≠ 0%nat → ∃ e s', thread_of e = inl k ∧ starts e = false ∧ exec s e = Some s'.
Proof.
  intros Hs Hk Hne. destruct c as [r p].
  set (e := match p with
    | PStart => Guards k GuardPasses false true | PAdmit => Admit k | PStore => Register k (fresh (issued s)) | PSend _ => SendAction k true true
    | PWait _ => TimerFires k | PDelete _ _ => DeletePending k | PRelease _ => ReleasePlace k | _ => Respond k end).
  assert (Hx : ∃ s', exec_call k (MkCall r p) e s = Some s').
  { unfold e. destruct p; simpl; try (exfalso; by apply Hne); try (by eexists).
    - destruct (power_guards _ _ _ _) as [[? ?]|[]]; by eexists.
    - destruct (_ <? _)%nat; by eexists.
    - rewrite bool_decide_eq_false_2; [by eexists|]. exact (is_fresh (issued s)).
    - destruct (power_response k r a). by eexists. }
  destruct Hx as [s' Hx]. exists e, s'. split; [by destruct p|]. split; [by destruct p|]. rewrite <-Hx. unfold e in *. destruct p; cbn [exec thread_of]; by rewrite Hk.
Qed.

(** A result never waits: the channel of a request it has won is empty. *)
Lemma handler_progress s h x : inv s → handlers s !! h = Some x → hrank x ≠ 0%nat → ∃ e s', thread_of e = inr h ∧ starts e = false ∧ exec s e = Some s'.
Proof.
  intros Hs Hh Hne. set (e := match H_pc x with HStart => LookUp h | HFound _ => SwapFlag h | _ => Deliver h end).
  assert (Hx : ∃ s', exec_handler h x e s = Some s').
  { unfold e, exec_handler. destruct x as [conn msg p]. destruct p as [|k|k|d]; simpl in *; [by eexists|..|done].
    - destruct (proj1 (i_handlers _ Hs _ _ Hh) k eq_refl) as (o & r & Ho & _). rewrite Ho. simpl. destruct (P_Delivered o); by eexists.
    - destruct (proj1 (i_handlers _ Hs _ _ Hh) k eq_refl) as (o & r & Ho & _ & Hd & _). simpl in Hd. rewrite Ho, Hd. simpl. destruct (P_Result o) as [r'|] eqn:Hr; [|by eexists].
      destruct (i_objects _ Hs _ _ Ho) as (_ & _ & Hdel). destruct (Hdel _ Hr) as (h' & x' & Hh' & Hp' & _).
      assert (h' = h) as -> by (apply (i_once _ Hs h' h x' _ k Hh' Hh); [by rewrite Hp'|done]). rewrite Hh in Hh'. injection Hh' as <-. done. }
  destruct Hx as [s' Hx]. exists e, s'. unfold e in *. destruct (H_pc x) eqn:Hp; (split; [done|]); (split; [done|]); cbn [exec thread_of]; by rewrite Hh.
Qed.

Lemma exec_call_limit s k c e s' : exec_call k c e s = Some s' → limit s' = limit s.
Proof.
  unfold exec_call. destruct c as [r p]. destruct e, p; try done; simpl; intros He; simplify_option_eq; repeat case_match; simplify_eq; done.
Qed.

Lemma reachable_books s : reachable s → books s ∧ (0 < limit s)%nat.
Proof.
  intros [n Hr]. assert (H0 : inv (NewWithLimit n) ∧ books (NewWithLimit n) ∧ (0 < limit (NewWithLimit n))%nat).
  { split; [apply power_reachable_inv; exists n; apply rtc_refl|]. split; [split; simpl; [|done|done|lia]; intros id k; rewrite lookup_empty; split; [done|intros (c & Hc & _); by rewrite lookup_empty in Hc]|].
    simpl. unfold DefaultMaxConcurrentActions. destruct (n <=? 0) eqn:?; lia. }
  assert (Hlim : ∀ s e s', exec s e = Some s' → limit s' = limit s).
  { clear. intros s e s' [k r _ _ ->|h conn msg _ _ ->|k c _ _ _ He|h x _ _ _ He]%exec_cases; [done|done|by eapply exec_call_limit|by eapply exec_handler_calls]. }
  revert H0. induction Hr as [|s s' s'' [e He] _ IH]; [naive_solver|]. intros (Hs & Hb & Hl). apply IH.
  split; [by eapply power_exec_inv|]. split; [by eapply exec_books|]. by rewrite (Hlim _ _ _ He).
Qed.

Fixpoint run (s : sys) (es : list event) : option sys := match es with [] => Some s | e :: es => s' ← exec s e; run s' es end.

(** No request waits for ever and none leaks. Every request that is not done, and every result, can go on by itself (a result is never blocked on the channel of a
    request), and at most eight steps of each request and three of each result remain however they are
    interleaved; there are never more entries than places taken nor more places taken than the limit; and when all requests are
    done, no entry and no place is left. *)
Theorem power_ends s :
  reachable s →
  (∀ k c, calls s !! k = Some c → (∃ rs, C_pc c = PDone rs) ∨ ∃ e s', thread_of e = inl k ∧ starts e = false ∧ exec s e = Some s') ∧
  (∀ h x, handlers s !! h = Some x → (∃ d, H_pc x = HDone d) ∨ ∃ e s', thread_of e = inr h ∧ starts e = false ∧ exec s e = Some s') ∧
  (∀ es s', forallb (λ e, negb (starts e)) es = true → run s es = Some s' → (length es <= 8 * size (calls s) + 3 * size (handlers s))%nat) ∧
  (size (pending s) <= admitted s)%nat ∧ (admitted s <= limit s)%nat ∧
  ((∀ k c, calls s !! k = Some c → ∃ rs, C_pc c = PDone rs) → admitted s = 0%nat ∧ pending s = ∅).
Proof.
  intros Hr. pose proof (power_reachable_inv _ Hr) as Hs. destruct (reachable_books _ Hr) as [Hb _]. split_and!.
  - intros k c Hk. destruct (decide (rank c = 0%nat)) as [Hz|Hz]; [left|right; by eapply call_progress]. destruct c as [r []]; try done. by eexists.
  - intros h x Hh. destruct (decide (hrank x = 0%nat)) as [Hz|Hz]; [left|right; by eapply handler_progress]. destruct x as [? ? []]; try done. by eexists.
  - intros es s' Hst Hrun. assert (Hw : (length es <= work s)%nat).
    { clear Hr Hs Hb. revert s Hrun. induction es as [|e es IH]; intros s Hrun; simpl in *; [lia|]. apply andb_true_iff in Hst as [He%negb_true_iff Hst].
      destruct (exec s e) as [s1|] eqn:H1; [|done]. specialize (IH Hst s1 Hrun). pose proof (exec_work _ _ _ He H1). lia. }
    assert (Hsize : ∀ A (f : A → nat) n (m : gmap nat A), (∀ x, f x <= n)%nat → (msum f m <= n * size m)%nat).
    { clear. intros A f n m Hf. unfold msum. rewrite <-length_map_to_list. induction (map_to_list m) as [|kv l IH]; simpl; [lia|]. specialize (Hf kv.2). lia. }
    unfold work in Hw. pose proof (Hsize _ rank 8%nat (calls s) ltac:(intros [? []]; simpl; lia)). pose proof (Hsize _ hrank 3%nat (handlers s) ltac:(intros [? ? []]; simpl; lia)). lia.
  - rewrite (b_size _ Hb), (b_places _ Hb). apply msum_le. intros [? []]; simpl; lia.
  - apply Hb.
  - intros Hall. split.
    + rewrite (b_places _ Hb). apply msum_zero. intros k [? ?] (? & Hd)%Hall. simpl in *. by subst.
    + apply map_size_empty_inv. rewrite (b_size _ Hb). apply msum_zero. intros k [? ?] (? & Hd)%Hall. simpl in *. by subst.
Qed.

(** ** The audit log *)

Definition events_of (k : nat) (s : sys) : list audit_event := List.filter (λ au, bool_decide (AU_Call au = k)) (audit s).

(** What the log says about a request *)
Definition audited (k : nat) (c : call) (l : list audit_event) : Prop :=
  match C_pc c with
  | PDone rs =>
      if may_act (C_req c) then
        ∃ au, l = [au] ∧ AU_Actor au = R_actor (C_req c) ∧ AU_Target au = R_asset (C_req c) ∧ AU_Action au = action_of (C_req c) ∧
          (AU_Decision au = "accepted" ↔ RS_Status rs = 202) ∧ (RS_Status rs = 202 → AU_CommandID au = RS_RequestID rs)
      else l = []
  | _ => l = []
  end.

Lemma events_snoc k au s : events_of k (with_audit [au] s) = events_of k s ++ (if decide (AU_Call au = k) then [au] else []).
Proof. unfold events_of. simpl. rewrite List.filter_app. simpl. by repeat case_decide. Qed.

Lemma power_response_audited k r a rs au :
  power_response k r a = (rs, au) → AU_Call au = k ∧ AU_Actor au = R_actor r ∧ AU_Target au = R_asset r ∧ AU_Action au = action_of r ∧
    (AU_Decision au = "accepted" ↔ RS_Status rs = 202) ∧ (RS_Status rs = 202 → AU_CommandID au = RS_RequestID rs).
Proof.
  unfold power_response. destruct a as [result [e|]]; [|by intros [= <- <-]]. destruct (powerHTTPError (AE_Kind e)) as [status code] eqn:Hp.
  assert (status ≠ 202) by (destruct (AE_Kind e); injection Hp as <- <-; done). intros [= <- <-]. by split_and!.
Qed.

Lemma power_guards_audited k r maintenance limited rs events :
  power_guards k r maintenance limited = inl (rs, events) → (∀ au, au ∈ events → AU_Call au = k) ∧ audited k (MkCall r (PDone rs)) events.
Proof.
  unfold power_guards, audited, may_act. simpl. destruct (ScopeCheck _ _), (PowerAction_Valid _), (AssetCheck _ _), maintenance, limited; simpl; intros [= <- <-];
    (split; [intros au Hau; by repeat (apply elem_of_cons in Hau as [->|Hau] || apply not_elem_of_nil in Hau)|]); try done;
    eexists; (split; [done|]); simpl; split_and!; try done; by split.
Qed.

Record audit_inv (s : sys) : Prop := {
  a_calls k c : calls s !! k = Some c → audited k c (events_of k s);
  a_none k : calls s !! k = None → events_of k s = [] }.

(** A step that logs nothing and moves a request that is not done to where it is not done. *)
Lemma audit_quiet s s' k c c' :
  audit_inv s → calls s !! k = Some c → calls s' = <[k := c']> (calls s) → audit s' = audit s →
  (∀ rs, C_pc c ≠ PDone rs) → (∀ rs, C_pc c' ≠ PDone rs) → audit_inv s'.
Proof.
  intros [Ha Hn] Hk Hc Hau Hd Hd'. assert (He : ∀ j, events_of j s' = events_of j s) by (intros j; unfold events_of; by rewrite Hau). split; intros j; rewrite Hc, He.
  - intros c0 [[<- <-]|[_ ?]]%lookup_insert_Some; [|by apply Ha]. specialize (Ha _ _ Hk). unfold audited in *. destruct (C_pc c), (C_pc c'); try done; exfalso; first [by eapply Hd|by eapply Hd'].
  - intros [Hj _]%lookup_insert_None. by apply Hn.
Qed.

(** The end of a request *)
Lemma audit_done s s' k c rs l :
  audit_inv s → calls s !! k = Some c → calls s' = <[k := MkCall (C_req c) (PDone rs)]> (calls s) → audit s' = audit s ++ l →
  (∀ rs', C_pc c ≠ PDone rs') → (∀ au, au ∈ l → AU_Call au = k) → audited k (MkCall (C_req c) (PDone rs)) l → audit_inv s'.
Proof.
  intros [Ha Hn] Hk Hc Hau Hd Hl Hok.
  assert (He : ∀ j, events_of j s' = events_of j s ++ (if decide (j = k) then l else [])).
  { intros j. unfold events_of. rewrite Hau, List.filter_app. f_equal. clear -Hl. induction l as [|au l IH]; simpl; [by case_decide|].
    rewrite IH by (intros; apply Hl; by right). rewrite (Hl au) by (by left). case_decide as Hj; [subst; by rewrite bool_decide_eq_true_2|by rewrite bool_decide_eq_false_2]. }
  assert (Hempty : events_of k s = []) by (specialize (Ha _ _ Hk); unfold audited in Ha; destruct (C_pc c); try done; by destruct (Hd rs0)).
  split; intros j; rewrite Hc, He.
  - intros c0 [[<- <-]|[Hne Hj]]%lookup_insert_Some; [by rewrite decide_True, Hempty by done|]. rewrite decide_False, app_nil_r by done. by apply Ha.
  - intros [Hj Hne]%lookup_insert_None. rewrite decide_False, app_nil_r by done. by apply Hn.
Qed.

Lemma exec_call_audit s k c e s' : inv s → audit_inv s → calls s !! k = Some c → exec_call k c e s = Some s' → audit_inv s'.
Proof.
  intros Hs Ha Hk He. pose proof (i_calls _ Hs _ _ Hk) as Hc. destruct c as [r p]. destruct e, p; try done; simpl in He.
  - destruct (power_guards k r maintenance limited) as [[rs events]|[]] eqn:Hg; injection He as <-.
    + destruct (power_guards_audited _ _ _ _ _ _ Hg) as [Hl Hok]. by eapply (audit_done s _ k (MkCall r PStart) rs events).
    + eapply audit_quiet; try done. unfold execute_start. simpl. destruct (_ || _), online; done.
  - destruct (_ <? _)%nat; injection He as <-; by eapply audit_quiet.
  - case_bool_decide; [done|]. injection He as <-. by eapply audit_quiet.
  - injection He as <-. destruct ok, reached; by eapply audit_quiet.
  - destruct (objects s !! k) as [o|]; [|done]. simpl in He. destruct (P_Result o); [|done]. injection He as <-. by eapply audit_quiet.
  - injection He as <-. by eapply audit_quiet.
  - injection He as <-. by eapply audit_quiet.
  - injection He as <-. by eapply audit_quiet.
  - injection He as <-. by eapply audit_quiet.
  - destruct (power_response k r a) as [rs au] eqn:Hr. injection He as <-. destruct (power_response_audited _ _ _ _ _ Hr) as (Hcall & Hrest).
    eapply (audit_done s _ k (MkCall r (PRespond a)) rs [au]); try done; [by intros ? ->%list_elem_of_singleton|].
    unfold audited. simpl. destruct Hc as [Hauth _]. unfold authorised in Hauth. simpl in Hauth. rewrite Hauth. exists au. split; [done|]. tauto.
Qed.

(** The audit log is complete and exact. Every finished request that asked for a known action on an asset of its key has exactly one event, with its
    actor, asset and action; the event says accepted exactly when the request was answered 202, and then names its action; no other
    request has an event. *)
Theorem power_audited s k : reachable s → match calls s !! k with Some c => audited k c (events_of k s) | None => events_of k s = [] end.
Proof.
  intros Hr. cut (audit_inv s); [intros [Ha Hn]; destruct (calls s !! k) eqn:Hk; [by apply Ha|by apply Hn]|].
  destruct Hr as [n Hr]. assert (H0 : inv (NewWithLimit n)) by (apply power_reachable_inv; exists n; apply rtc_refl).
  assert (H1 : audit_inv (NewWithLimit n)) by done. revert H0 H1. induction Hr as [|s s' s'' [e He] _ IH]; [done|]. intros Hs Ha. apply IH; [by eapply power_exec_inv|].
  clear IH k. apply exec_cases in He as [k r _ Hk ->|h conn msg _ _ ->|k c _ _ Hk He|h x _ _ _ He].
  - destruct Ha as [Ha Hn]. split; intros j; simpl.
    + intros c [[<- <-]|[_ ?]]%lookup_insert_Some; [by apply Hn|by apply Ha].
    + intros [? _]%lookup_insert_None. by apply Hn.
  - by destruct Ha.
  - by eapply exec_call_audit.
  - destruct (exec_handler_calls _ _ _ _ _ He) as (E1 & _ & _ & _ & E2). destruct Ha as [Ha Hn]. split; unfold events_of; rewrite E1, ?E2; [exact Ha|exact Hn].
Qed.

(** ** The bucket of the limiter

    [Execute] trims the id of the asset; the bucket has it as it was given, so that the same asset has a bucket for each padding of its id. *)
Lemma power_bucket_padded actor action asset :
  asset_of (MkRequest actor None None (String " " asset) action) = asset_of (MkRequest actor None None asset action) ∧
  power_bucket (MkRequest actor None None (String " " asset) action) ≠ power_bucket (MkRequest actor None None asset action).
Proof.
  split; [done|]. intros He. apply (f_equal (λ s, length (chars s))) in He. revert He.
  unfold power_bucket, action_of. cbn [R_asset R_actor R_action]. rewrite !chars_append, !length_app. simpl. lia.
Qed.

(** ** Witnesses *)

Definition demo_power : request := MkRequest "admin" (Some ["assets:power"]) (Some ["node-1"]) "node-1" "reboot".
Definition demo_result (id : string) : Message := MkMessage MsgPowerResult id (Some (MkResultData id "node-1" "reboot" PowerResultAccepted "" "ok")).
(** The agent of another asset answers first; the second answer of the right agent comes after the flag is set. *)
Definition demo_power_run : list event :=
  [Request 0 demo_power; Guards 0 GuardPasses false true; Admit 0; Register 0 "power_1"; SendAction 0 true true;
   Receive 0 "node-2" (demo_result "power_1"); Receive 1 "node-1" (demo_result "power_1"); Receive 2 "node-1" (demo_result "power_1");
   LookUp 0; LookUp 1; LookUp 2; SwapFlag 1; SwapFlag 2; Deliver 1; TakeResult 0; DeletePending 0; ReleasePlace 0; Respond 0].
Definition demo_power_end : sys := default (NewWithLimit 1) (run (NewWithLimit 1) demo_power_run).

Lemma run_reachable n es s : run (NewWithLimit n) es = Some s → reachable s.
Proof.
  intros Hr. exists n. revert Hr. generalize (NewWithLimit n) as s0. induction es as [|e es IH]; intros s0; simpl; [intros [= ->]; apply rtc_refl|].
  destruct (exec s0 e) as [s1|] eqn:He; [|done]. simpl. intros Hr. eapply rtc_l; [by exists e|by apply IH].
Qed.

Lemma demo_power_reachable : reachable demo_power_end.
Proof. apply (run_reachable 1 demo_power_run). by vm_compute. Qed.

Lemma power_accepted_witness :
  (C_pc <$> calls demo_power_end !! 0%nat) = Some (PDone (MkResponse 202 "" "power_1")) ∧
  ∃ h x r, handlers demo_power_end !! h = Some x ∧ H_pc x = HDone (Some 0%nat) ∧ H_conn x = "node-1" ∧ M_Data (H_msg x) = Some r ∧ PR_Status r = PowerResultAccepted.
Proof.
  split; [by vm_compute|].
  destruct (calls demo_power_end !! 0%nat) as [c|] eqn:Hc; [|by vm_compute in Hc].
  assert (Hcall : c = MkCall demo_power (PDone (MkResponse 202 "" "power_1"))) by (vm_compute in Hc; by injection Hc as <-).
  destruct (power_accepted demo_power_end 0 c (MkResponse 202 "" "power_1") demo_power_reachable Hc) as (_ & _ & h & x & r & Hh & Hp & Hconn & Hd & _ & Hr & _);
    [by rewrite Hcall|done|].
  exists h, x, r. split; [done|]. split; [done|]. split; [rewrite Hconn, Hcall; by vm_compute|]. split; [done|]. by rewrite Hr.
Defined.

Lemma power_ends_witness : admitted demo_power_end = 0%nat ∧ pending demo_power_end = ∅.
Proof.
  destruct (power_ends demo_power_end demo_power_reachable) as (_ & _ & _ & _ & _ & Hdone). apply Hdone.
  intros k c Hk. apply elem_of_map_to_list in Hk. assert (Hl : map_to_list (calls demo_power_end) = [(0%nat, MkCall demo_power (PDone (MkResponse 202 "" "power_1")))]) by (by vm_compute).
  rewrite Hl in Hk. apply list_elem_of_singleton in Hk. injection Hk as -> ->. by eexists.
Defined.

Lemma power_audited_witness : AU_Decision <$> events_of 0 demo_power_end = ["accepted"] ∧ match calls demo_power_end !! 0%nat with Some c => audited 0 c (events_of 0 demo_power_end) | None => False end.
Proof.
  split; [by vm_compute|]. pose proof (power_audited demo_power_end 0 demo_power_reachable) as Ha. destruct (calls demo_power_end !! 0%nat) as [c|] eqn:Hc; [done|by vm_compute in Hc].
Defined.
