(* ===== verification/CorrelationPages.v ===== *)
(** * Pages of evidence about incidents

    What the correlator of incidents reads: [internal/persistence/incident_correlation_pages.go], [incident_correlation_page_helpers.go],
    [memory_incident_correlation_pages.go], [memory_incident_correlation_scope.go] and [internal/audit/correlation_page.go]. Each reader
    returns the next page of ids of a fixed range of keys, in order, from a scan of a map in any order. *)

From S2P Require Import Prelude GoStrings Alerts AlertRules AlertInstances Incidents Assets.

(** ** Cursors and scopes *)

Definition CorrelationPageSize : nat := 128.

Record CorrelationCursor := MkCorrelationCursor { CC_AfterID : string; CC_UpperID : string; CC_Started : bool }.
#[export] Instance CorrelationCursor_eq_dec : EqDecision CorrelationCursor.
Proof. solve_decision. Defined.
Definition zero_correlation : CorrelationCursor := MkCorrelationCursor "" "" false.

Record CorrelationWindow := MkWindow { CW_From : time; CW_Through : time }.

Record IncidentCorrelationScope := MkQueryScope {
  QS_IncidentID : string; QS_GroupID : string; QS_AssetIDs : list string; QS_OperationAssetIDs : list string; QS_AlertLinks : list AlertLink }.

Record CorrelationIncident := MkCorrelationIncident { CI_ID : string; CI_Status : string; CI_GroupID : string; CI_PrimaryAssetID : string; CI_OpenedAt : time }.
Record CorrelationAction := MkCorrelationAction { CA_ID : string; CA_Type : string; CA_Target : string; CA_TargetName : string; CA_CreatedAt : time }.
Record CorrelationUpdate := MkCorrelationUpdate { CU_ID : string; CU_PlanID : string; CU_Target : string; CU_PlanName : string; CU_CreatedAt : time }.
Record CorrelationAlert := MkCorrelationAlert {
  CL_ID : string; CL_RuleID : string; CL_Fingerprint : string; CL_Severity : string; CL_FirstFiredAt : time; CL_FiringScope : option FiringScope;
  CL_RuleName : string; CL_DeviceName : string; CL_Rejected : bool }.
Record CorrelationAudit := MkCorrelationAudit { CD_ID : string; CD_Type : string; CD_ActorID : string; CD_Target : string; CD_ActorName : string; CD_Timestamp : time }.

Inductive correlation_error :=
| ErrCutoff | ErrCursor | ErrWindow | ErrQueryIdentity | ErrStoredID | ErrIncidentScope | ErrIncidentPage | ErrRowOrder | ErrUpsert | ErrOwner
| ErrUnknownIncident | ErrCorrelationContext (e : ctx_error).

Definition correlationExactID (id : string) : bool := negb (is_empty id) && bool_decide (trim_space id = id) && negb (contains_char id "000").
Definition correlation_check (ctx : Ctx) : result correlation_error unit := match ctx with Some e => Err (ErrCorrelationContext e) | None => Ok tt end.

Definition exact_or_empty (id : string) : bool := is_empty id || correlationExactID id.

Definition validateCorrelationCursor (c : CorrelationCursor) : result correlation_error unit :=
  if negb (CC_Started c) then guard_err (negb (is_empty (CC_AfterID c)) || negb (is_empty (CC_UpperID c))) ErrCursor
  else guard_err (negb (exact_or_empty (CC_AfterID c)) || negb (exact_or_empty (CC_UpperID c)) || str_lt (CC_UpperID c) (CC_AfterID c)) ErrCursor.

(** A link to an alert with a discriminator, whose discriminators are exact. *)
Definition link_exact (incidentID : string) (l : AlertLink) : bool :=
  bool_decide (L_IncidentID l = incidentID)
  && negb (is_empty (L_AlertRuleID l) && is_empty (L_AlertInstanceID l) && is_empty (L_AlertFingerprint l))
  && exact_or_empty (L_AlertRuleID l) && exact_or_empty (L_AlertInstanceID l) && exact_or_empty (L_AlertFingerprint l).

Definition validateCorrelationQuery (w : CorrelationWindow) (s : IncidentCorrelationScope) : result correlation_error unit :=
  _ ← guard_err ((CW_From w =? zero_time) || (CW_Through w =? zero_time) || (CW_Through w <? CW_From w)) ErrWindow;
  _ ← guard_err (negb (correlationExactID (QS_IncidentID s)) || negb (exact_or_empty (QS_GroupID s))) ErrQueryIdentity;
  _ ← guard_err (negb (forallb correlationExactID (QS_AssetIDs s)) || negb (forallb correlationExactID (QS_OperationAssetIDs s))) ErrQueryIdentity;
  guard_err (negb (forallb (link_exact (QS_IncidentID s)) (QS_AlertLinks s))) ErrQueryIdentity.

Definition correlationContains (ids : list string) (id : string) : bool := bool_decide (id ∈ ids).
Definition correlationInWindow (at_ : time) (w : CorrelationWindow) : bool := (CW_From w <=? at_) && (at_ <=? CW_Through w).

(** Every discriminator that a link has agrees with the instance. *)
Definition link_agrees (l : AlertLink) (id ruleID fingerprint : string) : bool :=
  (is_empty (L_AlertRuleID l) || bool_decide (L_AlertRuleID l = ruleID)) && (is_empty (L_AlertInstanceID l) || bool_decide (L_AlertInstanceID l = id))
  && (is_empty (L_AlertFingerprint l) || bool_decide (L_AlertFingerprint l = fingerprint)).

Definition witness_asset (ids : list string) (witness : list string) (id : string) : list string :=
  if correlationContains ids id && match witness with [] => true | w :: _ => str_lt id w end then [id] else witness.
Definition witness_group (group : string) (witness : list string) (id : string) : list string :=
  if negb (is_empty group) && bool_decide (id = group) then [id] else witness.

(** The smallest matching asset and the matching group of the saved scope; [None] when the saved evidence is malformed. *)
Definition scope_witness (s : FiringScope) (scope : IncidentCorrelationScope) : option FiringScope :=
  if negb (Version s =? 1) || negb (forallb correlationExactID (AssetIDs s ++ GroupIDs s ++ SyntheticCheckIDs s)) then None
  else Some {| Version := 1; AssetIDs := foldl (witness_asset (QS_AssetIDs scope)) [] (AssetIDs s);
               GroupIDs := foldl (witness_group (QS_GroupID scope)) [] (GroupIDs s); SyntheticCheckIDs := [] |}.

Definition correlationAlertWitness (row : AlertInstance) (scope : IncidentCorrelationScope) : option FiringScope * bool :=
  match I_FirstFiredAt row with
  | None => (None, false)
  | Some fired =>
      if fired =? zero_time then (None, false)
      else
        let linked := existsb (λ l, link_agrees l (I_ID row) (I_RuleID row) (I_Fingerprint row)) (QS_AlertLinks scope) in
        match I_FiringScope row with
        | None => (None, linked)
        | Some s =>
            match scope_witness s scope with
            | None => (None, false)
            | Some w => (Some w, linked || match AssetIDs w, GroupIDs w with [], [] => false | _, _ => true end)
            end
        end
  end.

(** ** A page of ids *)

Record correlationIDPage := MkIDPage { IP_cursor : CorrelationCursor; IP_upper : string; IP_ids : list string }.
Definition newCorrelationIDPage (c : CorrelationCursor) : correlationIDPage := MkIDPage c (CC_UpperID c) [].

(** [sort.SearchStrings] on a sorted slice: the number of leading smaller strings. *)
Fixpoint SearchStrings (ids : list string) (id : string) : nat :=
  match ids with [] => O | x :: ids => if str_lt x id then S (SearchStrings ids id) else O end.

(** The place of an id in a page: it is inserted, and a full page loses its last. *)
Definition place_id (ids : list string) (id : string) : list string :=
  let i := SearchStrings ids id in
  if bool_decide (ids !! i = Some id) then ids
  else if (CorrelationPageSize <=? i)%nat then ids
  else take CorrelationPageSize (take i ids ++ id :: drop i ids).

Definition page_skips (c : CorrelationCursor) (id : string) : bool := String.leb id (CC_AfterID c) || (CC_Started c && str_lt (CC_UpperID c) id).

Definition page_offer (p : correlationIDPage) (id : string) : correlationIDPage :=
  MkIDPage (IP_cursor p) (if negb (CC_Started (IP_cursor p)) && str_lt (IP_upper p) id then id else IP_upper p)
    (if page_skips (IP_cursor p) id then IP_ids p else place_id (IP_ids p) id).
Definition page_add (p : correlationIDPage) (id : string) : result correlation_error correlationIDPage :=
  if negb (correlationExactID id) then Err ErrStoredID else Ok (page_offer p id).

Definition page_result (p : correlationIDPage) : CorrelationCursor * bool :=
  (MkCorrelationCursor (default (CC_AfterID (IP_cursor p)) (last (IP_ids p))) (IP_upper p) true, (length (IP_ids p) <? CorrelationPageSize)%nat).

Definition page_of (ids : list string) (c : CorrelationCursor) : result correlation_error correlationIDPage :=
  fold_result page_add (newCorrelationIDPage c) ids.

(** ** The readers *)

Definition page_rows (R : Type) : Type := list R * CorrelationCursor * bool.
Definition rows_of {R} (row : string → R) (p : correlationIDPage) : page_rows R := (row <$> IP_ids p, (page_result p).1, (page_result p).2).

(** What the readers read of the runs of actions and of updates. *)
Record ActionsRun := MkActionsRun { AR_ID : string; AR_Type : string; AR_Target : string; AR_Status : string; AR_CreatedAt : time }.
Record RunResultEntry := MkRunResult { RR_Target : string; RR_Status : string }.
Record UpdateRun := MkUpdateRun { UR_ID : string; UR_PlanID : string; UR_Status : string; UR_Results : list RunResultEntry; UR_CreatedAt : time }.
Record AuditEvent := MkAuditEvent { AE_ID : string; AE_Type : string; AE_ActorID : string; AE_Target : string; AE_Timestamp : time }.
Definition StatusFailed : string := "failed".

(** The zero rows of Go, for an id that is not a key. *)
Definition zero_incident : Incident := {|
  N_ID := ""; N_Title := ""; N_Summary := ""; N_Status := ""; N_Severity := ""; N_Source := ""; N_GroupID := ""; N_PrimaryAssetID := ""; N_Assignee := "";
  N_CreatedBy := ""; N_OpenedAt := zero_time; N_MitigatedAt := None; N_ResolvedAt := None; N_ClosedAt := None; N_RootCause := ""; N_ActionItems := [];
  N_LessonsLearned := ""; N_Metadata := ∅; N_CreatedAt := zero_time; N_UpdatedAt := zero_time |}.
Definition zero_alert_instance : AlertInstance := {|
  I_ID := ""; I_RuleID := ""; I_Fingerprint := ""; I_Status := ""; I_Severity := ""; I_Labels := ∅; I_Annotations := ∅; I_StartedAt := zero_time;
  I_FiringScope := None; I_FirstFiredAt := None; I_ResolvedAt := None; I_LastFiredAt := zero_time; I_SuppressedBy := ""; I_CreatedAt := zero_time; I_UpdatedAt := zero_time |}.
Definition zero_action_run : ActionsRun := MkActionsRun "" "" "" "" zero_time.
Definition zero_update_run : UpdateRun := MkUpdateRun "" "" "" [] zero_time.

Definition correlationIncident (row : Incident) : CorrelationIncident :=
  MkCorrelationIncident (N_ID row) (N_Status row) (N_GroupID row) (N_PrimaryAssetID row) (N_OpenedAt row).
Definition is_active (status : string) : bool := bool_decide (status = StatusOpen) || bool_decide (status = StatusInvestigating).
Definition failed_in (targets : list string) (r : RunResultEntry) : bool := bool_decide (RR_Status r = StatusFailed) && correlationContains targets (RR_Target r).
Definition smaller_target (targets : list string) (target : string) (r : RunResultEntry) : string :=
  if failed_in targets r && (is_empty target || str_lt (RR_Target r) target) then RR_Target r else target.

(** An audit event among the rows of a page, by the order of the ids. *)
Definition place_event (rows : list AuditEvent) (e : AuditEvent) : list AuditEvent :=
  let i := SearchStrings (AE_ID <$> rows) (AE_ID e) in
  if bool_decide (AE_ID <$> rows !! i = Some (AE_ID e)) then rows
  else if (CorrelationPageSize <=? i)%nat then rows
  else take CorrelationPageSize (take i rows ++ e :: drop i rows).

Definition audit_add (from through : time) (targets : list string) (after upper : string) (started : bool) (acc : list AuditEvent * string) (e : AuditEvent) :
    result correlation_error (list AuditEvent * string) :=
  let '(rows, top) := acc in
  if negb (bool_decide (AE_Target e ∈ targets)) || (AE_Timestamp e <? from) || (through <? AE_Timestamp e) then Ok acc
  else if is_empty (AE_ID e) || negb (bool_decide (trim_space (AE_ID e) = AE_ID e)) then Err ErrStoredID
  else
    let top := if negb started && str_lt top (AE_ID e) then AE_ID e else top in
    if String.leb (AE_ID e) after || (started && str_lt top (AE_ID e)) then Ok (rows, top) else Ok (place_event rows e, top).

Definition ReadCorrelationPage (ctx : Ctx) (from through : time) (targets : list string) (after upper : string) (started : bool) (events : list AuditEvent) :
    result correlation_error (list AuditEvent * string * bool) :=
  _ ← correlation_check ctx;
  _ ← guard_err ((from =? zero_time) || (through =? zero_time) || (through <? from)) ErrWindow;
  r ← fold_result (audit_add from through targets after upper started) ([], upper) events;
  Ok (r.1, r.2, (length r.1 <? CorrelationPageSize)%nat).

Section readers.
Context `{MapRange}.

Definition rows_in {R} (m : gmap string R) : list R := snd <$> range m.

Definition incident_wanted (through : time) (row : Incident) : bool := is_active (N_Status row) && (N_CreatedAt row <=? through).
Definition ReadActiveIncidentCorrelationPage (ctx : Ctx) (through : time) (c : CorrelationCursor) (m : MemoryIncidentStore) :
    result correlation_error (page_rows CorrelationIncident) :=
  _ ← guard_err (through =? zero_time) ErrCutoff;
  _ ← validateCorrelationCursor c;
  _ ← correlation_check ctx;
  p ← page_of (N_ID <$> List.filter (incident_wanted through) (rows_in (incidents m))) c;
  Ok (rows_of (λ id, correlationIncident (default zero_incident (incidents m !! id))) p).

Definition ReadIncidentCorrelation (ctx : Ctx) (id : string) (m : MemoryIncidentStore) : result correlation_error (option CorrelationIncident) :=
  _ ← guard_err (negb (correlationExactID id)) ErrQueryIdentity;
  _ ← correlation_check ctx;
  Ok (correlationIncident <$> incidents m !! id).

(** The checks that the four readers of evidence start with. *)
Definition reader_checks (ctx : Ctx) (w : CorrelationWindow) (s : IncidentCorrelationScope) (c : CorrelationCursor) : result correlation_error unit :=
  _ ← validateCorrelationQuery w s; _ ← validateCorrelationCursor c; correlation_check ctx.

Definition action_wanted (w : CorrelationWindow) (s : IncidentCorrelationScope) (row : ActionsRun) : bool :=
  bool_decide (AR_Status row = StatusFailed) && correlationInWindow (AR_CreatedAt row) w && correlationContains (QS_OperationAssetIDs s) (AR_Target row).
Definition ReadActionCorrelationPage (ctx : Ctx) (w : CorrelationWindow) (s : IncidentCorrelationScope) (c : CorrelationCursor) (runs : gmap string ActionsRun) :
    result correlation_error (page_rows CorrelationAction) :=
  _ ← reader_checks ctx w s c;
  p ← page_of (AR_ID <$> List.filter (action_wanted w s) (rows_in runs)) c;
  Ok (rows_of (λ id, let row := default zero_action_run (runs !! id) in MkCorrelationAction (AR_ID row) (AR_Type row) (AR_Target row) "" (AR_CreatedAt row)) p).

Definition update_wanted (w : CorrelationWindow) (s : IncidentCorrelationScope) (row : UpdateRun) : bool :=
  bool_decide (UR_Status row = StatusFailed) && correlationInWindow (UR_CreatedAt row) w && existsb (failed_in (QS_OperationAssetIDs s)) (UR_Results row).
Definition ReadUpdateCorrelationPage (ctx : Ctx) (w : CorrelationWindow) (s : IncidentCorrelationScope) (c : CorrelationCursor) (runs : gmap string UpdateRun) :
    result correlation_error (page_rows CorrelationUpdate) :=
  _ ← reader_checks ctx w s c;
  p ← page_of (UR_ID <$> List.filter (update_wanted w s) (rows_in runs)) c;
  Ok (rows_of (λ id, let row := default zero_update_run (runs !! id) in
        MkCorrelationUpdate (UR_ID row) (UR_PlanID row) (foldl (smaller_target (QS_OperationAssetIDs s)) "" (UR_Results row)) "" (UR_CreatedAt row)) p).

Definition alert_wanted (w : CorrelationWindow) (s : IncidentCorrelationScope) (row : AlertInstance) : bool :=
  match I_FirstFiredAt row with Some fired => correlationInWindow fired w && (correlationAlertWitness row s).2 | None => false end.
Definition ReadAlertCorrelationPage (ctx : Ctx) (w : CorrelationWindow) (s : IncidentCorrelationScope) (c : CorrelationCursor) (m : MemoryAlertInstanceStore) :
    result correlation_error (page_rows CorrelationAlert) :=
  _ ← reader_checks ctx w s c;
  p ← page_of (I_ID <$> List.filter (alert_wanted w s) (rows_in (instances m))) c;
  Ok (rows_of (λ id, let row := default zero_alert_instance (instances m !! id) in
        MkCorrelationAlert (I_ID row) (I_RuleID row) (I_Fingerprint row) (I_Severity row) (default zero_time (I_FirstFiredAt row)) (correlationAlertWitness row s).1 "" "" false) p).

Definition ReadAuditCorrelationPage (ctx : Ctx) (w : CorrelationWindow) (s : IncidentCorrelationScope) (c : CorrelationCursor) (events : list AuditEvent) :
    result correlation_error (page_rows CorrelationAudit) :=
  _ ← reader_checks ctx w s c;
  r ← ReadCorrelationPage ctx (CW_From w) (CW_Through w) (QS_IncidentID s :: QS_OperationAssetIDs s) (CC_AfterID c) (CC_UpperID c) (CC_Started c) events;
  let '(rows, upper, done) := r in
  Ok ((λ e, MkCorrelationAudit (AE_ID e) (AE_Type e) (AE_ActorID e) (AE_Target e) "" (AE_Timestamp e)) <$> rows,
      MkCorrelationCursor (default (CC_AfterID c) (last (AE_ID <$> rows))) upper true, done).

(** *** The readers of the scope of an incident *)

(** [ReadIncidentAlertLinksContext]: the links in the order of their ids, or an error. *)
Fixpoint links_in_order (incidentID after : string) (l : list AlertLink) : result correlation_error (list AlertLink) :=
  match l with
  | [] => Ok []
  | row :: l =>
      _ ← guard_err (String.leb (L_ID row) after || negb (correlationExactID (L_ID row)) || negb (link_exact incidentID row)) ErrIncidentScope;
      l ← links_in_order incidentID (L_ID row) l;
      Ok (row :: l)
  end.
Definition link_id_before (x y : AlertLink) : Prop := String.le (L_ID x) (L_ID y).
#[export] Instance link_id_before_dec : RelDecision link_id_before := λ x y, decide (String.le (L_ID x) (L_ID y)).
Definition ReadIncidentAlertLinksContext (ctx : Ctx) (incidentID : string) (m : MemoryIncidentStore) : result correlation_error (list AlertLink) :=
  _ ← guard_err (negb (correlationExactID incidentID)) ErrIncidentScope;
  _ ← correlation_check ctx;
  match incidents m !! incidentID with
  | None => Err ErrUnknownIncident
  | Some _ => links_in_order incidentID "" (merge_sort link_id_before (links_of m incidentID))
  end.

(** [ReadGroupAssetIDsContext]: the ids of the assets of a group. *)
Definition member_add (groupID : string) (ids : list string) (kv : string * Asset) : result correlation_error (list string) :=
  if negb (bool_decide (A_GroupID kv.2 = groupID)) then Ok ids
  else if negb (bool_decide (A_ID kv.2 = kv.1)) || negb (correlationExactID (A_ID kv.2)) then Err ErrIncidentScope
  else Ok (ids ++ [A_ID kv.2]).
Definition ReadGroupAssetIDsContext (ctx : Ctx) (groupID : string) (m : MemoryAssetStore) : result correlation_error (list string) :=
  _ ← guard_err (negb (correlationExactID groupID)) ErrIncidentScope;
  _ ← correlation_check ctx;
  sort_strings <$> fold_result (member_add groupID) [] (range (assets m)).
End readers.

(** ** What a page is *)

Section pages.

Lemma search_spec ids id :
  ascending ids → Forall (λ x, str_lt x id = true) (take (SearchStrings ids id) ids) ∧ Forall (λ x, str_lt x id = false) (drop (SearchStrings ids id) ids).
Proof.
  induction 1 as [|x l Hs IH Hx]; simpl; [by split; constructor|]. destruct (str_lt x id) eqn:Hlt; simpl; [destruct IH; by split; [constructor|]|].
  split; [constructor|]. constructor; [done|]. rewrite Forall_forall in Hx |- *. intros y Hy. apply str_lt_false. apply str_lt_false in Hlt. specialize (Hx y Hy).
  apply str_lt_iff in Hx as [? _]. by etrans.
Qed.

Lemma search_absent ids id : ascending ids → ids !! SearchStrings ids id ≠ Some id → id ∉ ids.
Proof.
  intros Hs Hni Hin. destruct (search_spec ids id Hs) as [Hlt Hge]. rewrite Forall_forall in Hlt, Hge. rewrite <-(take_drop (SearchStrings ids id) ids) in Hin.
  apply elem_of_app in Hin as [Hin|Hin]; [specialize (Hlt _ Hin); by rewrite str_lt_irrefl in Hlt|].
  destruct (drop (SearchStrings ids id) ids) as [|y l] eqn:Hd; [by apply not_elem_of_nil in Hin|].
  assert (Hy : ids !! SearchStrings ids id = Some y) by (rewrite <-(Nat.add_0_r (SearchStrings ids id)), <-lookup_drop, Hd; done).
  apply Hni. rewrite Hy. f_equal. apply elem_of_cons in Hin as [->|Hin]; [done|]. exfalso.
  assert (Hsd : ascending (y :: l)) by (rewrite <-Hd; eapply ascending_sublist; [apply sublist_drop|done]). apply StronglySorted_inv in Hsd as [_ Hy'].
  rewrite Forall_forall in Hy'. specialize (Hy' id Hin). specialize (Hge y ltac:(by left)). congruence.
Qed.

Lemma ascending_app (l k : list string) : ascending l → ascending k → (∀ x y, x ∈ l → y ∈ k → str_lt x y = true) → ascending (l ++ k).
Proof.
  intros Hl Hk Hlk. induction Hl as [|x l Hl IH Hx]; [done|]. simpl. constructor; [apply IH; intros; apply Hlk; [by right|done]|].
  rewrite Forall_app. split; [done|]. rewrite Forall_forall. intros y Hy. apply Hlk; [by left|done].
Qed.

Lemma inserted_ascending ids id :
  ascending ids → id ∉ ids → ascending (take (SearchStrings ids id) ids ++ id :: drop (SearchStrings ids id) ids).
Proof.
  intros Hs Hni. destruct (search_spec ids id Hs) as [Hlt Hge]. rewrite Forall_forall in Hlt, Hge. set (i := SearchStrings ids id) in *.
  assert (Hup : ∀ y, y ∈ drop i ids → str_lt id y = true).
  { intros y Hy. apply str_lt_iff. split; [apply str_lt_false; by apply Hge|]. intros ->. apply Hni. rewrite <-(take_drop i ids). apply elem_of_app. by right. }
  apply ascending_app; [eapply ascending_sublist; [apply sublist_take|done]| |].
  - constructor; [eapply ascending_sublist; [apply sublist_drop|done]|]. by rewrite Forall_forall.
  - intros x y Hx [->|Hy]%elem_of_cons; [by apply Hlt|]. eapply str_lt_trans; [by apply Hlt|by apply Hup].
Qed.

(** The ids of a page are the first of those that were offered and lie in the range of the cursor. *)
Record id_page (c : CorrelationCursor) (offered : list string) (p : correlationIDPage) : Prop := {
  ip_cursor : IP_cursor p = c;
  ip_sound id : id ∈ IP_ids p → id ∈ offered ∧ page_skips c id = false;
  ip_sorted : ascending (IP_ids p);
  ip_length : (length (IP_ids p) <= CorrelationPageSize)%nat;
  ip_complete id : id ∈ offered → page_skips c id = false → id ∈ IP_ids p ∨ length (IP_ids p) = CorrelationPageSize ∧ ∀ x, x ∈ IP_ids p → str_lt x id = true;
  ip_upper : if CC_Started c then IP_upper p = CC_UpperID c else ∀ id, id ∈ offered → String.le id (IP_upper p);
  ip_bound : IP_upper p = CC_UpperID c ∨ IP_upper p ∈ offered;
  ip_named : "" ∉ offered }.

Lemma place_id_spec ids id :
  ascending ids → (length ids <= CorrelationPageSize)%nat →
  let new := place_id ids id in
  ascending new ∧ (length new <= CorrelationPageSize)%nat ∧ (∀ x, x ∈ new → x = id ∨ x ∈ ids) ∧
  ∀ x, x = id ∨ x ∈ ids ∨ (length ids = CorrelationPageSize ∧ ∀ y, y ∈ ids → str_lt y x = true) →
    x ∈ new ∨ length new = CorrelationPageSize ∧ ∀ y, y ∈ new → str_lt y x = true.
Proof.
  intros Hs Hlen. unfold place_id. cbv zeta. destruct (decide (ids !! SearchStrings ids id = Some id)) as [Hin|Hni].
  { rewrite bool_decide_eq_true_2 by done. split_and!; [done|done|by right|]. intros x [->|[?|?]]; [left; by eapply list_elem_of_lookup_2|by left|by right]. }
  rewrite bool_decide_eq_false_2 by done. pose proof (search_absent _ _ Hs Hni) as Habs. destruct (search_spec ids id Hs) as [Hlt Hge]. rewrite Forall_forall in Hlt, Hge.
  set (i := SearchStrings ids id) in *. assert (Hi : (i <= length ids)%nat).
  { unfold i. clear. induction ids as [|x ids IH]; simpl; [lia|]. destruct (str_lt x id); lia. }
  destruct (Nat.leb_spec CorrelationPageSize i) as [Hfull|Hroom].
  - split_and!; [done|done|by right|]. assert (Hall : take i ids = ids) by (apply take_ge; lia).
    intros x [->|[?|?]]; [right; split; [lia|]; intros y Hy; apply Hlt; by rewrite Hall|by left|by right].
  - set (full := take i ids ++ id :: drop i ids). assert (Hfull : ascending full) by by apply inserted_ascending.
    assert (Hmem : ∀ x, x ∈ full ↔ x = id ∨ x ∈ ids).
    { intros x. unfold full. rewrite <-(take_drop i ids) at 3. rewrite !elem_of_app, elem_of_cons. tauto. }
    assert (Hfl : length full = S (length ids)) by (unfold full; rewrite length_app, length_take, length_cons, length_drop; lia).
    split_and!; [eapply ascending_sublist; [apply sublist_take|done]|rewrite length_take; lia|intros x Hx%elem_of_take_sub; by apply Hmem|].
    intros x Hx. destruct (decide (x ∈ take CorrelationPageSize full)) as [?|Hnin]; [by left|right].
    assert (Hone : x ∈ full ∨ (length ids = CorrelationPageSize ∧ ∀ y, y ∈ ids → str_lt y x = true)) by (destruct Hx as [?|[?|?]]; [left; apply Hmem; by left|left; apply Hmem; by right|by right]).
    destruct Hone as [Hone|[Hcap Hbefore]].
    + split; [rewrite length_take|intros y Hy; by eapply ascending_take_last].
      destruct (Nat.le_gt_cases (length full) CorrelationPageSize); [|lia]. exfalso. apply Hnin. by rewrite take_ge.
    + split; [rewrite length_take; lia|]. intros y [->|Hy]%elem_of_take_sub%Hmem; [|by apply Hbefore].
      destruct (drop i ids) as [|z l] eqn:Hd; [apply (f_equal length) in Hd; rewrite length_drop in Hd; simpl in Hd; lia|].
      assert (Hz : z ∈ ids) by (rewrite <-(take_drop i ids), Hd; apply elem_of_app; right; by left).
      eapply str_le_lt_trans; [|by apply Hbefore]. apply str_lt_false, Hge. by left.
Qed.

Lemma page_offer_spec c offered p id : id ≠ "" → id_page c offered p → id_page c (offered ++ [id]) (page_offer p id).
Proof.
  intros Hne [Hc Hsound Hs Hlen Hcomp Hup Hbound Hname]. unfold page_offer. rewrite Hc.
  assert (Hname' : "" ∉ offered ++ [id]) by (intros [?|?%list_elem_of_singleton]%elem_of_app; [done|by subst]).
  set (upper := if negb (CC_Started c) && str_lt (IP_upper p) id then id else IP_upper p).
  assert (Hup' : if CC_Started c then upper = CC_UpperID c else ∀ x, x ∈ offered ++ [id] → String.le x upper).
  { unfold upper. destruct (CC_Started c); [done|]. simpl. intros x Hx. destruct (str_lt (IP_upper p) id) eqn:Hlt.
    - apply str_lt_iff in Hlt as [? _]. apply elem_of_app in Hx as [Hx| ->%list_elem_of_singleton]; [|done]. etrans; [by apply Hup|done].
    - apply elem_of_app in Hx as [Hx| ->%list_elem_of_singleton]; [by apply Hup|by apply str_lt_false]. }
  assert (Hbound' : upper = CC_UpperID c ∨ upper ∈ offered ++ [id]).
  { unfold upper. destruct (_ && _); [right; apply elem_of_app; right; by left|]. destruct Hbound; [by left|right; apply elem_of_app; by left]. }
  destruct (page_skips c id) eqn:Hskip.
  - constructor; simpl; try done; [intros x [? ?]%Hsound; split; [apply elem_of_app; by left|done]|].
    intros x [Hx| ->%list_elem_of_singleton]%elem_of_app Hw; [by apply Hcomp|congruence].
  - destruct (place_id_spec (IP_ids p) id Hs Hlen) as (Hs' & Hlen' & Hsub & Hkeep). constructor; simpl; try done.
    + intros x [->|Hx]%Hsub; [split; [apply elem_of_app; right; by left|done]|]. destruct (Hsound x Hx). split; [apply elem_of_app; by left|done].
    + intros x [Hx| ->%list_elem_of_singleton]%elem_of_app Hw; apply Hkeep; [right; by apply Hcomp|by left].
Qed.

Lemma id_page_new c : id_page c [] (newCorrelationIDPage c).
Proof.
  constructor; simpl; try done; [by intros id ?%not_elem_of_nil|constructor|lia|by intros id ?%not_elem_of_nil| |by left|apply not_elem_of_nil].
  destruct (CC_Started c); [done|]. by intros id ?%not_elem_of_nil.
Qed.

Lemma exact_named id : correlationExactID id = true → id ≠ "".
Proof. unfold correlationExactID. intros [[?%negb_true_iff%bool_decide_eq_false _]%andb_true_iff _]%andb_true_iff. done. Qed.

Lemma page_of_spec c ids p : page_of ids c = Ok p → id_page c ids p.
Proof.
  unfold page_of. assert (Hgen : ∀ rest offered q, id_page c offered q → fold_result page_add q rest = Ok p → id_page c (offered ++ rest) p).
  { induction rest as [|id rest IH]; intros offered q Hq; cbn [fold_result]; [intros [= <-]; by rewrite app_nil_r|].
    destruct (page_add q id) as [q'|] eqn:Ha; [|done]. cbn [mbind result_bind]. unfold page_add in Ha. destruct (correlationExactID id) eqn:Hid; [|done]. injection Ha as <-.
    intros Hr. rewrite cons_middle, (assoc_L (++)). eapply IH; [|done]. apply page_offer_spec; [|done]. by apply exact_named. }
  apply (Hgen ids []). apply id_page_new.
Qed.

Lemma page_of_ok c ids : Forall (λ id, correlationExactID id = true) ids → ∃ p, page_of ids c = Ok p.
Proof.
  unfold page_of. generalize (newCorrelationIDPage c). induction ids as [|id ids IH]; intros q Hids; [by eexists|]. apply Forall_cons in Hids as [Hid Hids]. cbn [fold_result].
  destruct (page_add q id) as [q'|] eqn:Ha; [by apply IH|]. unfold page_add in Ha. by rewrite Hid in Ha.
Qed.

Lemma id_page_upper c offered p id : id_page c offered p → id ∈ IP_ids p → String.le id (IP_upper p).
Proof.
  intros Hp [Hin Hskip]%(ip_sound _ _ _ Hp). pose proof (ip_upper _ _ _ Hp) as Hu. destruct (CC_Started c) eqn:Hc; [|by apply Hu]. rewrite Hu. unfold page_skips in Hskip.
  rewrite Hc in Hskip. apply orb_false_iff in Hskip as [_ Hlt]. by apply str_lt_false.
Qed.

Lemma id_page_ascending c offered p : id_page c offered p → ascending (CC_AfterID c :: IP_ids p).
Proof.
  intros Hp. constructor; [by apply (ip_sorted _ _ _ Hp)|]. rewrite Forall_forall. intros y [_ Hskip]%(ip_sound _ _ _ Hp). unfold page_skips in Hskip.
  apply orb_false_iff in Hskip as [Hle _]. unfold str_lt. by rewrite Hle.
Qed.

(** An id of the range is behind the cursor, in the page, or after a full page. *)
Lemma id_page_places c offered p after y :
  id_page c offered p → (CC_Started c = true → String.le y (CC_UpperID c)) → y ∈ offered → after = CC_AfterID c ∨ after ∈ IP_ids p →
  String.le y (CC_AfterID c) ∨ y ∈ IP_ids p ∨ length (IP_ids p) = CorrelationPageSize ∧ str_lt after y = true.
Proof.
  intros Hp Hup Hy Hafter. destruct (page_skips c y) eqn:Hskip.
  - unfold page_skips in Hskip. apply orb_true_iff in Hskip as [?%str_leb_iff|[Hc Hlt]%andb_true_iff]; [by left|]. specialize (Hup Hc). apply str_lt_false in Hup. congruence.
  - right. destruct (ip_complete _ _ _ Hp y Hy Hskip) as [Hin|[Hfull Hall]]; [by left|right]. split; [done|]. destruct Hafter as [->|Hin]; [|by apply Hall].
    unfold page_skips in Hskip. apply orb_false_iff in Hskip as [Hsk _]. unfold str_lt. by rewrite Hsk.
Qed.

(** The rows of a reader whose ids are such a page. *)
Record rows_page {R} (id_of : R → string) (c : CorrelationCursor) (offered : list string) (r : page_rows R) : Prop := {
  rp_page : ∃ p, id_page c offered p ∧ id_of <$> r.1.1 = IP_ids p ∧ r.1.2 = (page_result p).1 ∧ r.2 = (page_result p).2 }.

Lemma rows_of_page {R} (id_of : R → string) (row : string → R) c offered p :
  id_page c offered p → (∀ id, id ∈ offered → id_of (row id) = id) → rows_page id_of c offered (rows_of row p).
Proof.
  intros Hp Hrow. constructor. exists p. split; [done|]. split; [|done]. simpl. assert (Hin : ∀ id, id ∈ IP_ids p → id ∈ offered) by (intros id Hid; by apply (ip_sound _ _ _ Hp)).
  induction (IP_ids p) as [|id ids IH]; [done|]. simpl. f_equal; [apply Hrow, Hin; by left|apply IH; intros; apply Hin; by right].
Qed.

(** *** The page of audit events *)

Lemma place_event_ids rows e : AE_ID <$> place_event rows e = place_id (AE_ID <$> rows) (AE_ID e).
Proof.
  unfold place_event, place_id. cbv zeta. rewrite list_lookup_fmap. case_bool_decide; [done|]. destruct (_ <=? _)%nat; [done|].
  by rewrite fmap_take, fmap_app, fmap_cons, fmap_take, fmap_drop.
Qed.

Definition audit_wanted (from through : time) (targets : list string) (e : AuditEvent) : bool :=
  bool_decide (AE_Target e ∈ targets) && negb (AE_Timestamp e <? from) && negb (through <? AE_Timestamp e).

Lemma place_event_sub rows e x : x ∈ place_event rows e → x = e ∨ x ∈ rows.
Proof.
  unfold place_event. cbv zeta. case_bool_decide; [by right|]. destruct (_ <=? _)%nat; [by right|]. intros [Hx|Hx]%elem_of_take_sub%elem_of_app.
  - right. by eapply elem_of_take_sub.
  - apply elem_of_cons in Hx as [->|Hx]; [by left|right]. eapply elem_of_sublist; [done|apply sublist_drop].
Qed.

Lemma audit_add_spec from through targets c offered rows0 top0 e rows1 top1 :
  id_page c offered (MkIDPage c top0 (AE_ID <$> rows0)) →
  audit_add from through targets (CC_AfterID c) (CC_UpperID c) (CC_Started c) (rows0, top0) e = Ok (rows1, top1) →
  id_page c (offered ++ (AE_ID <$> List.filter (audit_wanted from through targets) [e])) (MkIDPage c top1 (AE_ID <$> rows1)) ∧
  ∀ x, x ∈ rows1 → x ∈ rows0 ∨ x = e ∧ audit_wanted from through targets e = true.
Proof.
  intros Hp Ha. unfold audit_add in Ha. assert (Hw : negb (bool_decide (AE_Target e ∈ targets)) || (AE_Timestamp e <? from) || (through <? AE_Timestamp e) = negb (audit_wanted from through targets e)).
  { unfold audit_wanted. by rewrite !negb_andb, !negb_involutive. }
  rewrite Hw in Ha. cbn [List.filter]. destruct (audit_wanted from through targets e) eqn:He; cbn [negb] in Ha; [|injection Ha as <- <-; simpl; rewrite app_nil_r; split; [done|by left]].
  destruct (is_empty (AE_ID e) || _) eqn:Hbad; [done|]. apply orb_false_iff in Hbad as [Hne%bool_decide_eq_false _].
  pose proof (page_offer_spec _ _ _ (AE_ID e) Hne Hp) as Hp'. unfold page_offer in Hp'. cbn [IP_cursor IP_upper IP_ids] in Hp'. cbv zeta in Ha.
  set (top := if negb (CC_Started c) && str_lt top0 (AE_ID e) then AE_ID e else top0) in *.
  assert (Hskip : String.leb (AE_ID e) (CC_AfterID c) || (CC_Started c && str_lt top (AE_ID e)) = page_skips c (AE_ID e)).
  { unfold page_skips. pose proof (ip_upper _ _ _ Hp') as Hu. simpl in Hu. destruct (CC_Started c); [by rewrite Hu|done]. }
  rewrite Hskip in Ha. destruct (page_skips c (AE_ID e)); injection Ha as <- <-; [split; [done|by left]|]. rewrite place_event_ids. split; [done|].
  intros x [->|?]%place_event_sub; [by right|by left].
Qed.

Lemma audit_rows from through targets c events rows top :
  fold_result (audit_add from through targets (CC_AfterID c) (CC_UpperID c) (CC_Started c)) ([], CC_UpperID c) events = Ok (rows, top) →
  id_page c (AE_ID <$> List.filter (audit_wanted from through targets) events) (MkIDPage c top (AE_ID <$> rows)) ∧
  ∀ e, e ∈ rows → e ∈ events ∧ audit_wanted from through targets e = true.
Proof.
  assert (Hgen : ∀ rest offered rows0 top0, id_page c offered (MkIDPage c top0 (AE_ID <$> rows0)) →
    fold_result (audit_add from through targets (CC_AfterID c) (CC_UpperID c) (CC_Started c)) (rows0, top0) rest = Ok (rows, top) →
    id_page c (offered ++ (AE_ID <$> List.filter (audit_wanted from through targets) rest)) (MkIDPage c top (AE_ID <$> rows)) ∧
    ∀ e, e ∈ rows → e ∈ rows0 ∨ e ∈ rest ∧ audit_wanted from through targets e = true).
  { induction rest as [|e rest IH]; intros offered rows0 top0 Hp; cbn [fold_result]; [intros [= -> ->]; simpl; rewrite app_nil_r; split; [done|by left]|].
    destruct (audit_add _ _ _ _ _ _ (rows0, top0) e) as [[rows1 top1]|] eqn:Ha; [|done]. cbn [mbind result_bind]. intros Hr.
    destruct (audit_add_spec _ _ _ _ _ _ _ _ _ _ Hp Ha) as [Hp1 Hsub1]. destruct (IH _ _ _ Hp1 Hr) as [Hfin Hsub].
    rewrite <-(assoc_L (++)), <-fmap_app, <-List.filter_app in Hfin. split; [exact Hfin|].
    intros x [[?|[-> ?]]%Hsub1|[? ?]]%Hsub; [by left|right; split; [by left|done]|right; split; [by right|done]]. }
  intros Hr. destruct (Hgen events [] [] _ (id_page_new c) Hr) as [Hp Hsub]. split; [done|]. intros e [?%not_elem_of_nil|?]%Hsub; done.
Qed.
End pages.

(** ** The pages of the readers *)

Section reads.
Context `{MapRange}.

Lemma elem_of_rows_in {R} (m : gmap string R) row : row ∈ rows_in m ↔ ∃ k, m !! k = Some row.
Proof.
  unfold rows_in. rewrite list_elem_of_fmap. split; [intros ([k r] & -> & Hr%elem_of_range); by exists k|intros [k Hk%elem_of_range]; by exists (k, row)].
Qed.

(** A store whose rows have the ids that they are kept under *)
Definition keyed {R} (id_of : R → string) (m : gmap string R) : Prop := map_Forall (λ k row, id_of row = k) m.

Lemma read_rows {R Q} (m : gmap string R) (id_of : R → string) (wanted : R → bool) (zero : R) (view : R → Q) (qid : Q → string) c p :
  keyed id_of m → (∀ row, qid (view row) = id_of row) → page_of (id_of <$> List.filter wanted (rows_in m)) c = Ok p →
  let r := rows_of (λ id, view (default zero (m !! id))) p in
  rows_page qid c (id_of <$> List.filter wanted (rows_in m)) r ∧ ∀ q, q ∈ r.1.1 → ∃ row, m !! id_of row = Some row ∧ wanted row = true ∧ q = view row.
Proof.
  intros Hk Hv Hp%page_of_spec. cbv zeta.
  assert (Hrow : ∀ id, id ∈ id_of <$> List.filter wanted (rows_in m) → ∃ row, m !! id = Some row ∧ wanted row = true ∧ id_of row = id).
  { intros id (row & -> & Hin)%list_elem_of_fmap. apply list_elem_of_In, filter_In in Hin as [Hin Hw]. apply list_elem_of_In, elem_of_rows_in in Hin as [k Hr].
    pose proof (map_Forall_lookup_1 _ _ _ _ Hk Hr) as Hid. simpl in Hid. exists row. by rewrite Hid. }
  split; [apply rows_of_page; [done|]; intros id (row & Hr & _ & Hid)%Hrow; by rewrite Hr, Hv|].
  intros q (id & -> & Hid)%list_elem_of_fmap. apply (ip_sound _ _ _ Hp) in Hid as [(row & Hr & Hw & Heq)%Hrow _]. exists row. by rewrite Heq, Hr.
Qed.

Lemma reader_checks_ok ctx w s c r : reader_checks ctx w s c = Ok r → validateCorrelationQuery w s = Ok tt ∧ validateCorrelationCursor c = Ok tt.
Proof. unfold reader_checks. destruct (validateCorrelationQuery w s) as [[]|]; [|done]. by destruct (validateCorrelationCursor c) as [[]|]. Qed.

Lemma query_exact w s : validateCorrelationQuery w s = Ok tt →
  (∀ id, id ∈ QS_AssetIDs s → correlationExactID id = true) ∧ ∀ id, id ∈ QS_OperationAssetIDs s → correlationExactID id = true.
Proof.
  unfold validateCorrelationQuery, guard_err. destruct (_ || _ || _); [done|]. cbn [mbind result_bind]. destruct (negb (correlationExactID _) || _); [done|]. cbn [mbind result_bind].
  destruct (forallb correlationExactID (QS_AssetIDs s)) eqn:Ha; [|done]. destruct (forallb correlationExactID (QS_OperationAssetIDs s)) eqn:Ho; [|done]. intros _.
  rewrite forallb_forall in Ha, Ho. split; intros id ?%list_elem_of_In; auto.
Qed.

Lemma action_page ctx w s c runs r :
  keyed AR_ID runs → ReadActionCorrelationPage ctx w s c runs = Ok r →
  validateCorrelationQuery w s = Ok tt ∧ rows_page CA_ID c (AR_ID <$> List.filter (action_wanted w s) (rows_in runs)) r ∧
  ∀ q, q ∈ r.1.1 → ∃ row, runs !! AR_ID row = Some row ∧ action_wanted w s row = true ∧ q = MkCorrelationAction (AR_ID row) (AR_Type row) (AR_Target row) "" (AR_CreatedAt row).
Proof.
  intros Hk. unfold ReadActionCorrelationPage. destruct (reader_checks ctx w s c) as [u|] eqn:Hc; [|done]. apply reader_checks_ok in Hc as [Hq _]. cbn [mbind result_bind].
  destruct (page_of _ c) as [p|] eqn:Hp; [|done]. intros [= <-]. split; [done|].
  exact (read_rows runs AR_ID _ _ (λ row, MkCorrelationAction (AR_ID row) (AR_Type row) (AR_Target row) "" (AR_CreatedAt row)) CA_ID c p Hk (λ _, eq_refl) Hp).
Qed.

Lemma update_page ctx w s c runs r :
  keyed UR_ID runs → ReadUpdateCorrelationPage ctx w s c runs = Ok r →
  validateCorrelationQuery w s = Ok tt ∧ rows_page CU_ID c (UR_ID <$> List.filter (update_wanted w s) (rows_in runs)) r ∧
  ∀ q, q ∈ r.1.1 → ∃ row, runs !! UR_ID row = Some row ∧ update_wanted w s row = true ∧
    q = MkCorrelationUpdate (UR_ID row) (UR_PlanID row) (foldl (smaller_target (QS_OperationAssetIDs s)) "" (UR_Results row)) "" (UR_CreatedAt row).
Proof.
  intros Hk. unfold ReadUpdateCorrelationPage. destruct (reader_checks ctx w s c) as [u|] eqn:Hc; [|done]. apply reader_checks_ok in Hc as [Hq _]. cbn [mbind result_bind].
  destruct (page_of _ c) as [p|] eqn:Hp; [|done]. intros [= <-]. split; [done|].
  exact (read_rows runs UR_ID _ zero_update_run (λ row, MkCorrelationUpdate (UR_ID row) (UR_PlanID row) (foldl (smaller_target (QS_OperationAssetIDs s)) "" (UR_Results row)) "" (UR_CreatedAt row))
    CU_ID c p Hk (λ _, eq_refl) Hp).
Qed.

Lemma alert_page ctx w s c m r :
  keyed I_ID (instances m) → ReadAlertCorrelationPage ctx w s c m = Ok r →
  validateCorrelationQuery w s = Ok tt ∧ rows_page CL_ID c (I_ID <$> List.filter (alert_wanted w s) (rows_in (instances m))) r ∧
  ∀ q, q ∈ r.1.1 → ∃ row, instances m !! I_ID row = Some row ∧ alert_wanted w s row = true ∧
    q = MkCorrelationAlert (I_ID row) (I_RuleID row) (I_Fingerprint row) (I_Severity row) (default zero_time (I_FirstFiredAt row)) (correlationAlertWitness row s).1 "" "" false.
Proof.
  intros Hk. unfold ReadAlertCorrelationPage. destruct (reader_checks ctx w s c) as [u|] eqn:Hc; [|done]. apply reader_checks_ok in Hc as [Hq _]. cbn [mbind result_bind].
  destruct (page_of _ c) as [p|] eqn:Hp; [|done]. intros [= <-]. split; [done|].
  exact (read_rows (instances m) I_ID _ zero_alert_instance
    (λ row, MkCorrelationAlert (I_ID row) (I_RuleID row) (I_Fingerprint row) (I_Severity row) (default zero_time (I_FirstFiredAt row)) (correlationAlertWitness row s).1 "" "" false)
    CL_ID c p Hk (λ _, eq_refl) Hp).
Qed.

Lemma audit_page ctx w s c events r :
  ReadAuditCorrelationPage ctx w s c events = Ok r →
  validateCorrelationQuery w s = Ok tt ∧
  rows_page CD_ID c (AE_ID <$> List.filter (audit_wanted (CW_From w) (CW_Through w) (QS_IncidentID s :: QS_OperationAssetIDs s)) events) r ∧
  ∀ q, q ∈ r.1.1 → ∃ e, e ∈ events ∧ audit_wanted (CW_From w) (CW_Through w) (QS_IncidentID s :: QS_OperationAssetIDs s) e = true ∧
    q = MkCorrelationAudit (AE_ID e) (AE_Type e) (AE_ActorID e) (AE_Target e) "" (AE_Timestamp e).
Proof.
  unfold ReadAuditCorrelationPage. destruct (reader_checks ctx w s c) as [u|] eqn:Hc; [|done]. apply reader_checks_ok in Hc as [Hq _]. cbn [mbind result_bind].
  unfold ReadCorrelationPage. destruct (correlation_check ctx); [|done]. cbn [mbind result_bind]. destruct (guard_err _ _); [|done]. cbn [mbind result_bind].
  destruct (fold_result _ _ events) as [[rows top]|] eqn:Hf; [|done]. cbn [mbind result_bind fst snd]. intros [= <-]. apply audit_rows in Hf as [Hp Hsub].
  split; [done|]. split.
  - constructor. eexists. split; [exact Hp|]. simpl. rewrite <-list_fmap_compose. split; [by apply list_fmap_ext|]. split; [|by rewrite length_fmap].
    unfold page_result. simpl. by rewrite length_fmap || done.
  - intros q (e & -> & He)%list_elem_of_fmap. exists e. destruct (Hsub e He). done.
Qed.
End reads.
