(* ===== verification/IncidentCorrelation.v ===== *)
(** * The correlator of incidents

    [internal/hubapi/alerting/incident_correlator.go], [incident_correlation_cursor.go], [incident_correlation_scope.go],
    [incident_correlation_sources.go] and [incident_timeline_words.go]: every half minute the hub goes on with the sweeps of the incidents that
    are open or investigated, and writes the failed actions and updates, the alerts and the audit events that belong to them into their timelines.

    A sweep reads pages ([CorrelationPages]) of four sources, each in the order of its ids. Between any two reads the stores may change in any way:
    each read names the world that it saw. *)

From S2P Require Import Prelude GoStrings Alerts AlertRules AlertInstances Incidents Assets CorrelationPages.

(** ** The timeline *)

Definition EventTypeActionRun := "action_run".
Definition EventTypeUpdateRun := "update_run".
Definition EventTypeAlertFired := "alert_fired".
Definition EventTypeAudit := "audit".
Definition event_types : list string :=
  ["metric_anomaly"; "log_burst"; EventTypeActionRun; EventTypeUpdateRun; EventTypeAlertFired; "alert_resolved"; "config_change"; EventTypeAudit; "heartbeat_change"].
Definition NormalizeEventType : string → string := keyword event_types.

Record CreateIncidentEventRequest := MkEventRequest {
  EQ_IncidentID : string; EQ_EventType : string; EQ_SourceRef : string; EQ_Summary : string; EQ_Severity : string; EQ_OccurredAt : time }.
Record IncidentEvent := MkIncidentEvent {
  EV_ID : string; EV_IncidentID : string; EV_EventType : string; EV_SourceRef : string; EV_Summary : string; EV_Severity : option string;
  EV_OccurredAt : time; EV_CreatedAt : time }.
#[export] Instance IncidentEvent_eq_dec : EqDecision IncidentEvent.
Proof. solve_decision. Defined.
Abbreviation timeline := (gmap (string * string) IncidentEvent).

(** [UpsertIncidentEventContext]: the statement inserts a row, or updates the one with the same incident and source. *)
Definition UpsertIncidentEventContext (now : time) (newid : string) (req : CreateIncidentEventRequest) (events : timeline) : timeline :=
  let occurredAt := if EQ_OccurredAt req =? zero_time then now else EQ_OccurredAt req in
  let eventType := default_str (NormalizeEventType (EQ_EventType req)) (EQ_EventType req) in
  let key := (trim_space (EQ_IncidentID req), trim_space (EQ_SourceRef req)) in
  let summary := trim_space (EQ_Summary req) in
  let severity := if is_empty (trim_space (EQ_Severity req)) then None else Some (trim_space (EQ_Severity req)) in
  match events !! key with
  | Some e => <[key := MkIncidentEvent (EV_ID e) (EV_IncidentID e) (EV_EventType e) (EV_SourceRef e) summary severity occurredAt (EV_CreatedAt e)]> events
  | None => <[key := MkIncidentEvent newid key.1 eventType key.2 summary severity occurredAt now]> events
  end.

(** ** The words of a line *)

Record timelineNames := MkNames { TN_rule : string; TN_device : string; TN_plan : string; TN_actor : string }.
Definition no_names : timelineNames := MkNames "" "" "" "".

Definition words_on (line device : string) : string :=
  let device := trim_space device in if is_empty device then line else String.append line (String.append " on " device).
Definition alertFiredWords (rule device : string) : string :=
  let rule := trim_space rule in words_on (if is_empty rule then "An alert fired" else String.append rule " fired") device.
Definition failedRunWords (runType device : string) : string :=
  words_on (if bool_decide (runType = "connector_action") then "Integration action failed" else "Command failed") device.
Definition failedUpdateWords (plan : string) : string :=
  let plan := trim_space plan in if is_empty plan then "Update failed" else String.append "Update failed: " plan.

(** [strings.FieldsFunc] at dots, underscores, hyphens and blanks: the words, the last one still open. *)
Definition is_separator (c : ascii) : bool := bool_decide (c ∈ ["."%char; "_"%char; "-"%char; " "%char]).
Fixpoint fields_at (current : list ascii) (l : list ascii) : list (list ascii) :=
  match l with
  | [] => match current with [] => [] | _ => [current] end
  | c :: l => if is_separator c then match current with [] => fields_at [] l | _ => current :: fields_at [] l end else fields_at (current ++ [c]) l
  end.
Fixpoint join_blank (l : list (list ascii)) : list ascii :=
  match l with [] => [] | [w] => w | w :: l => w ++ " "%char :: join_blank l end.
(** [strings.ToUpper] of a single byte: a byte that is no rune becomes the replacement character. *)
Definition upper_byte (c : ascii) : list ascii :=
  let n := byte_of c in
  if ((97 <=? n) && (n <=? 122))%N then [ascii_of_N (n - 32)] else if (n <? 128)%N then [c] else ["239"; "191"; "189"]%char.
Definition auditWords (eventType actor : string) : string :=
  let words := chars (to_lower (of_chars (join_blank (fields_at [] (chars eventType))))) in
  let words := match words with [] => chars "change" | _ => words end in
  let line := match words with c :: l => of_chars (upper_byte c ++ l) | [] => "" end in
  let actor := trim_space actor in
  if is_empty actor then line else String.append line (String.append " by " actor).

(** ** The scope of an incident *)

Record incidentCorrelationScope := MkScope {
  SC_groupID : string; SC_assets : gset string; SC_operationAssets : gset string; SC_alertLinks : list AlertLink }.

Record IncidentAsset := MkIncidentAsset { IA_ID : string; IA_IncidentID : string; IA_AssetID : string; IA_Role : string; IA_CreatedAt : time }.

Definition correlationID : string → bool := correlationExactID.

Definition scope_link (incidentID : string) (assets : gset string) (link : IncidentAsset) : result correlation_error (gset string) :=
  if negb (bool_decide (IA_IncidentID link = incidentID)) || negb (correlationID (IA_AssetID link)) then Err ErrIncidentScope else Ok ({[IA_AssetID link]} ∪ assets).
Definition scope_alert (incidentID : string) (links : list AlertLink) (link : AlertLink) : result correlation_error (list AlertLink) :=
  if negb (link_exact incidentID link) then Err ErrIncidentScope else Ok (links ++ [link]).
Definition scope_member (members : gset string) (id : string) : result correlation_error (gset string) :=
  if negb (correlationID id) then Err ErrIncidentScope else Ok ({[id]} ∪ members).

(** The scope of an incident from what its three stores answer; [None] is a store that the hub does not have. *)
Definition incident_scope (inc : CorrelationIncident) (assetLinks : option (result correlation_error (list IncidentAsset)))
    (alertLinks : result correlation_error (list AlertLink)) (members : string → result correlation_error (list string)) : result correlation_error incidentCorrelationScope :=
  if negb (correlationID (CI_ID inc)) || negb (exact_or_empty (CI_PrimaryAssetID inc)) || negb (exact_or_empty (CI_GroupID inc)) then Err ErrIncidentScope
  else
    let primary : gset string := if is_empty (CI_PrimaryAssetID inc) then ∅ else {[CI_PrimaryAssetID inc]} in
    assets ← match assetLinks with None => Ok primary | Some answer => l ← answer; fold_result (scope_link (CI_ID inc)) primary l end;
    l ← alertLinks;
    links ← fold_result (scope_alert (CI_ID inc)) [] l;
    operations ← (if is_empty (CI_GroupID inc) then Ok assets else ids ← members (CI_GroupID inc); fold_result scope_member assets ids);
    Ok (MkScope (CI_GroupID inc) assets operations links).

Definition pageScope (s : incidentCorrelationScope) (incidentID : string) : IncidentCorrelationScope :=
  MkQueryScope incidentID (SC_groupID s) (sort_strings (elements (SC_assets s))) (sort_strings (elements (SC_operationAssets s)))
    (merge_sort link_id_before (SC_alertLinks s)).

Definition matchesOperation (s : incidentCorrelationScope) (target : string) : bool := bool_decide (target ∈ SC_operationAssets s) && correlationID target.
Definition matchesUpdate (s : incidentCorrelationScope) (run : UpdateRun) : bool :=
  existsb (λ r, bool_decide (RR_Status r = StatusFailed) && matchesOperation s (RR_Target r)) (UR_Results run).

(** The instance as the page gives it. *)
Definition matchesAlert (s : incidentCorrelationScope) (inst : CorrelationAlert) : bool :=
  if CL_FirstFiredAt inst =? zero_time then false
  else
    match (match CL_FiringScope inst with None => Ok {| Version := 0; AssetIDs := []; GroupIDs := []; SyntheticCheckIDs := [] |} | Some f => NormalizeFiringScope f end) with
    | Err _ => false
    | Ok saved =>
        existsb (λ l, link_agrees l (CL_ID inst) (CL_RuleID inst) (CL_Fingerprint inst)) (SC_alertLinks s)
        || existsb (λ id, bool_decide (id ∈ SC_assets s)) (AssetIDs saved)
        || existsb (λ id, negb (is_empty (SC_groupID s)) && bool_decide (id = SC_groupID s)) (GroupIDs saved)
    end.

(** ** The evidence of a row *)

Record correlationPage := MkPage {
  PG_actionRuns : list CorrelationAction; PG_updateRuns : list UpdateRun; PG_alertInstances : list CorrelationAlert; PG_auditEvents : list CorrelationAudit; PG_names : timelineNames }.

Definition in_time (w : CorrelationWindow) (at_ : time) : bool := negb (at_ <? CW_From w) && negb (CW_Through w <? at_).

Definition action_request (inc : CorrelationIncident) (s : incidentCorrelationScope) (w : CorrelationWindow) (names : timelineNames) (run : CorrelationAction) : option CreateIncidentEventRequest :=
  if negb (matchesOperation s (CA_Target run)) || negb (in_time w (CA_CreatedAt run)) then None
  else Some (MkEventRequest (CI_ID inc) EventTypeActionRun (String.append "action_runs:" (CA_ID run)) (failedRunWords (CA_Type run) (TN_device names)) "warning" (CA_CreatedAt run)).
Definition update_request (inc : CorrelationIncident) (s : incidentCorrelationScope) (w : CorrelationWindow) (names : timelineNames) (run : UpdateRun) : option CreateIncidentEventRequest :=
  if negb (bool_decide (UR_Status run = StatusFailed)) || negb (matchesUpdate s run) || negb (in_time w (UR_CreatedAt run)) then None
  else Some (MkEventRequest (CI_ID inc) EventTypeUpdateRun (String.append "update_runs:" (UR_ID run)) (failedUpdateWords (TN_plan names)) "warning" (UR_CreatedAt run)).
Definition alert_request (inc : CorrelationIncident) (s : incidentCorrelationScope) (w : CorrelationWindow) (names : timelineNames) (inst : CorrelationAlert) : option CreateIncidentEventRequest :=
  if negb (matchesAlert s inst) || negb (in_time w (CL_FirstFiredAt inst)) then None
  else Some (MkEventRequest (CI_ID inc) EventTypeAlertFired (String.append "alert_instances:" (CL_ID inst)) (alertFiredWords (TN_rule names) (TN_device names)) (CL_Severity inst) (CL_FirstFiredAt inst)).
Definition audit_request (inc : CorrelationIncident) (s : incidentCorrelationScope) (w : CorrelationWindow) (names : timelineNames) (e : CorrelationAudit) : option CreateIncidentEventRequest :=
  if negb (bool_decide (CD_Target e = CI_ID inc)) && negb (matchesOperation s (CD_Target e)) || negb (in_time w (CD_Timestamp e)) then None
  else Some (MkEventRequest (CI_ID inc) EventTypeAudit (String.append "audit_events:" (CD_ID e)) (auditWords (CD_Type e) (TN_actor names)) "info" (CD_Timestamp e)).

(** [correlateIncidentPage]: the upserts that it makes, in order. *)
Definition correlateIncidentPage (inc : CorrelationIncident) (s : incidentCorrelationScope) (pf : correlationPage) (w : CorrelationWindow) : list CreateIncidentEventRequest :=
  omap (action_request inc s w (PG_names pf)) (PG_actionRuns pf) ++ omap (update_request inc s w (PG_names pf)) (PG_updateRuns pf)
  ++ omap (alert_request inc s w (PG_names pf)) (PG_alertInstances pf) ++ omap (audit_request inc s w (PG_names pf)) (PG_auditEvents pf).

Record correlationCandidate := MkCandidate { CC_id : string; CC_data : correlationPage; CC_rejected : bool }.

Definition action_candidate (row : CorrelationAction) : correlationCandidate := MkCandidate (CA_ID row) (MkPage [row] [] [] [] (MkNames "" (CA_TargetName row) "" "")) false.
Definition update_candidate (row : CorrelationUpdate) : correlationCandidate :=
  MkCandidate (CU_ID row)
    (MkPage [] [MkUpdateRun (CU_ID row) (CU_PlanID row) StatusFailed [MkRunResult (CU_Target row) StatusFailed] (CU_CreatedAt row)] [] [] (MkNames "" "" (CU_PlanName row) "")) false.
Definition alert_candidate (row : CorrelationAlert) : correlationCandidate :=
  MkCandidate (CL_ID row) (MkPage [] [] [row] [] (MkNames (CL_RuleName row) (CL_DeviceName row) "" "")) (CL_Rejected row).
Definition audit_candidate (row : CorrelationAudit) : correlationCandidate := MkCandidate (CD_ID row) (MkPage [] [] [] [row] (MkNames "" "" "" (CD_ActorName row))) false.

(** ** The stores that a read sees *)

Record world := MkWorld {
  W_incidents : MemoryIncidentStore; W_assetLinks : option (string → result correlation_error (list IncidentAsset)); W_assets : MemoryAssetStore;
  W_actions : option (gmap string ActionsRun); W_updates : option (gmap string UpdateRun); W_instances : option MemoryAlertInstanceStore; W_audit : option (list AuditEvent) }.

Section correlator.
Context `{MapRange}.

Definition candidates {R} (f : R → correlationCandidate) (r : result correlation_error (page_rows R)) : result correlation_error (page_rows correlationCandidate) :=
  match r with Ok (rows, next, done) => Ok (f <$> rows, next, done) | Err e => Err e end.

(** A store that the hub does not have is an empty page. *)
Definition empty_page : result correlation_error (page_rows correlationCandidate) := Ok ([], MkCorrelationCursor "" "" true, true).

Definition readCorrelationPage (ctx : Ctx) (source : nat) (w : CorrelationWindow) (s : IncidentCorrelationScope) (c : CorrelationCursor) (x : world) :
    result correlation_error (page_rows correlationCandidate) :=
  match source with
  | 0 => match W_actions x with None => empty_page | Some runs => candidates action_candidate (ReadActionCorrelationPage ctx w s c runs) end
  | 1 => match W_updates x with None => empty_page | Some runs => candidates update_candidate (ReadUpdateCorrelationPage ctx w s c runs) end
  | 2 => match W_instances x with None => empty_page | Some m => candidates alert_candidate (ReadAlertCorrelationPage ctx w s c m) end
  | 3 => match W_audit x with None => empty_page | Some events => candidates audit_candidate (ReadAuditCorrelationPage ctx w s c events) end
  | _ => Err ErrOwner
  end%nat.

(** ** A sweep *)

(** [SW_always] is an observation, not state of the program: the ids of each source that were evidence at each read of it since the sweep began. *)
Record incidentCorrelationSweep := MkSweep {
  SW_id : string; SW_identity : string; SW_window : CorrelationWindow; SW_cursors : list CorrelationCursor; SW_done : list bool; SW_next : nat; SW_always : list (gset string) }.

Definition sources_count : nat := 4.
Definition new_sweep (id identity : string) (w : CorrelationWindow) : incidentCorrelationSweep :=
  MkSweep id identity w (replicate sources_count zero_correlation) (replicate sources_count false) 0 (replicate sources_count ∅).
Definition queued_sweep (id : string) : incidentCorrelationSweep := new_sweep id "" (MkWindow zero_time zero_time).

Definition sweep_complete (s : incidentCorrelationSweep) : bool := forallb (λ done, done) (SW_done s).
Definition cursor_at (s : incidentCorrelationSweep) (source : nat) : CorrelationCursor := default zero_correlation (SW_cursors s !! source).
Definition done_at (s : incidentCorrelationSweep) (source : nat) : bool := default false (SW_done s !! source).
Definition always_at (s : incidentCorrelationSweep) (source : nat) : gset string := default ∅ (SW_always s !! source).

Definition with_next (n : nat) (s : incidentCorrelationSweep) := MkSweep (SW_id s) (SW_identity s) (SW_window s) (SW_cursors s) (SW_done s) n (SW_always s).
Definition with_cursor (source : nat) (c : CorrelationCursor) (s : incidentCorrelationSweep) :=
  MkSweep (SW_id s) (SW_identity s) (SW_window s) (<[source := c]> (SW_cursors s)) (SW_done s) (SW_next s) (SW_always s).
Definition with_done (source : nat) (done : bool) (s : incidentCorrelationSweep) :=
  MkSweep (SW_id s) (SW_identity s) (SW_window s) (SW_cursors s) (<[source := done]> (SW_done s)) (SW_next s) (SW_always s).
Definition with_always (source : nat) (ids : gset string) (s : incidentCorrelationSweep) :=
  MkSweep (SW_id s) (SW_identity s) (SW_window s) (SW_cursors s) (SW_done s) (SW_next s) (<[source := ids]> (SW_always s)).

Definition validateCorrelationPage (current next : CorrelationCursor) (count : nat) (done : bool) : result correlation_error unit :=
  guard_err (negb (CC_Started next) || (CorrelationPageSize <? count)%nat || ((count =? 0)%nat && negb done)
             || (CC_Started current && negb (bool_decide (CC_UpperID current = CC_UpperID next))) || str_lt (CC_UpperID next) (CC_AfterID current)) ErrIncidentPage.
Definition validateCorrelationRow (c : CorrelationCursor) (id : string) : result correlation_error unit :=
  guard_err (negb (correlationID id) || String.leb id (CC_AfterID c) || str_lt (CC_UpperID c) id) ErrRowOrder.

(** What becomes of a row: its writes succeed, or the context or the store fails before they reach it, or after. *)
Inductive outcome := RowOk | RowLost | RowUncertain.

Definition write_requests (now : time) (newid : string) (l : list CreateIncidentEventRequest) (events : timeline) : timeline :=
  foldl (λ events req, UpsertIncidentEventContext now newid req events) events l.

(** The rows of a page. Only a row that is done with moves the cursor. *)
Fixpoint slice_rows (inc : CorrelationIncident) (scope : incidentCorrelationScope) (w : CorrelationWindow) (now : time) (rows : list correlationCandidate)
    (outcomes : list (outcome * string)) (c : CorrelationCursor) (events : timeline) : CorrelationCursor * timeline * result correlation_error unit :=
  match rows with
  | [] => (c, events, Ok tt)
  | row :: rows =>
      let '(o, newid) := default (RowOk, "") (head outcomes) in
      match o with
      | RowLost => (c, events, Err ErrUpsert)
      | _ =>
          match validateCorrelationRow c (CC_id row) with
          | Err e => (c, events, Err e)
          | Ok _ =>
              let c' := MkCorrelationCursor (CC_id row) (CC_UpperID c) (CC_Started c) in
              if CC_rejected row then slice_rows inc scope w now rows (tail outcomes) c' events
              else
                let events := write_requests now newid (correlateIncidentPage inc scope (CC_data row) w) events in
                match o with RowUncertain => (c, events, Err ErrUpsert) | _ => slice_rows inc scope w now rows (tail outcomes) c' events end
          end
      end
  end.

(** The first source that is not done, from the next one on. *)
Definition next_source (s : incidentCorrelationSweep) : option nat :=
  head (List.filter (λ source, negb (done_at s source)) ((λ i, (SW_next s + i) mod sources_count)%nat <$> seq 0 sources_count)).

(** The ids of a source that are evidence in a world, for the observation. *)
Definition evidence (source : nat) (w : CorrelationWindow) (s : IncidentCorrelationScope) (x : world) : gset string :=
  list_to_set match source with
  | 0 => AR_ID <$> List.filter (action_wanted w s) (default [] (rows_in <$> W_actions x))
  | 1 => UR_ID <$> List.filter (update_wanted w s) (default [] (rows_in <$> W_updates x))
  | 2 => I_ID <$> List.filter (alert_wanted w s) (default [] (rows_in ∘ instances <$> W_instances x))
  | _ => AE_ID <$> List.filter (audit_wanted (CW_From w) (CW_Through w) (QS_IncidentID s :: QS_OperationAssetIDs s)) (default [] (W_audit x))
  end%nat.

(** A turn: the worlds and contexts of its five reads (the incident, its assets, its alerts, its group, the page), and what becomes of the rows. *)
Record turn := MkTurn { T_now : time; T_world : nat → world; T_ctx : nat → Ctx; T_outcomes : list (outcome * string) }.

Definition turn_scope (t : turn) (inc : CorrelationIncident) : result correlation_error incidentCorrelationScope :=
  incident_scope inc (match W_assetLinks (T_world t 1%nat) with None => None | Some f => Some (_ ← correlation_check (T_ctx t 1%nat); f (CI_ID inc)) end)
    (ReadIncidentAlertLinksContext (T_ctx t 2%nat) (CI_ID inc) (W_incidents (T_world t 2%nat)))
    (λ group, ReadGroupAssetIDsContext (T_ctx t 3%nat) group (W_assets (T_world t 3%nat))).

(** SHA-256 of the JSON of the scope and the start of the window. *)
Variable digest : IncidentCorrelationScope → time → string.

Definition slice_sweep (now : time) (inc : CorrelationIncident) (s : IncidentCorrelationScope) (sweep : incidentCorrelationSweep) : incidentCorrelationSweep :=
  let identity := digest s (CI_OpenedAt inc) in
  if (CW_Through (SW_window sweep) =? zero_time) || negb (bool_decide (SW_identity sweep = identity)) || sweep_complete sweep
  then new_sweep (CI_ID inc) identity (MkWindow (CI_OpenedAt inc) now) else sweep.

(** The page of one source. *)
Definition source_page (t : turn) (inc : CorrelationIncident) (scope : incidentCorrelationScope) (source : nat) (sweep : incidentCorrelationSweep) (events : timeline) :
    incidentCorrelationSweep * timeline * result correlation_error bool :=
  let s := pageScope scope (CI_ID inc) in
  let sweep := with_next ((source + 1) mod sources_count)%nat sweep in
  let c := cursor_at sweep source in
  match readCorrelationPage (T_ctx t 4%nat) source (SW_window sweep) s c (T_world t 4%nat) with
  | Err e => (sweep, events, Err e)
  | Ok (rows, next, done) =>
      match validateCorrelationPage c next (length rows) done with
      | Err e => (sweep, events, Err e)
      | Ok _ =>
          let seen := evidence source (SW_window sweep) s (T_world t 4%nat) in
          let sweep := with_always source (if CC_Started c then always_at sweep source ∩ seen else seen) sweep in
          let '(c', events, r) := slice_rows inc scope (SW_window sweep) (T_now t) rows (T_outcomes t) (MkCorrelationCursor (CC_AfterID c) (CC_UpperID next) (CC_Started next)) events in
          let sweep := with_cursor source c' sweep in
          match r with
          | Err e => (sweep, events, Err e)
          | Ok _ => let sweep := with_done source done sweep in (sweep, events, Ok (sweep_complete sweep))
          end
      end
  end.

Definition correlateIncidentSlice (t : turn) (inc : CorrelationIncident) (sweep : incidentCorrelationSweep) (events : timeline) :
    incidentCorrelationSweep * timeline * result correlation_error bool :=
  if negb (bool_decide (CI_ID inc = SW_id sweep)) || (CI_OpenedAt inc =? zero_time) then (sweep, events, Err ErrIncidentScope)
  else
    match turn_scope t inc with
    | Err e => (sweep, events, Err e)
    | Ok scope =>
        let sweep := slice_sweep (T_now t) inc (pageScope scope (CI_ID inc)) sweep in
        match next_source sweep with
        | None => (sweep, events, Ok true)
        | Some source => source_page t inc scope source sweep events
        end
    end.

(** ** The correlator *)

Inductive correlator_phase := Asleep | Discovering | Working.

(** [K_always] is an observation: the incidents that were active at each read since the discovery began, and not found inactive since. *)
Record correlator := MkCorrelator {
  K_phase : correlator_phase; K_discovery : CorrelationCursor; K_through : time; K_queue : list incidentCorrelationSweep; K_entries : gset string;
  K_finished : gset string; K_idle : nat; K_events : timeline; K_always : gset string }.
Definition new_correlator : correlator := MkCorrelator Asleep zero_correlation zero_time [] ∅ ∅ 0 ∅ ∅.

(** The rows of a page of incidents. *)
Fixpoint discover_rows (rows : list CorrelationIncident) (c : CorrelationCursor) (queue : list incidentCorrelationSweep) (entries : gset string) :
    CorrelationCursor * list incidentCorrelationSweep * gset string * result correlation_error unit :=
  match rows with
  | [] => (c, queue, entries, Ok tt)
  | row :: rows =>
      match validateCorrelationRow c (CI_ID row) with
      | Err e => (c, queue, entries, Err e)
      | Ok _ =>
          let fresh := negb (CI_OpenedAt row =? zero_time) && is_active (CI_Status row) && negb (bool_decide (CI_ID row ∈ entries)) in
          discover_rows rows (MkCorrelationCursor (CI_ID row) (CC_UpperID c) (CC_Started c))
            (if fresh then queue ++ [queued_sweep (CI_ID row)] else queue) (if fresh then {[CI_ID row]} ∪ entries else entries)
      end
  end.

(** The incidents of a world that the discovery looks for. *)
Definition active_incidents (through : time) (m : MemoryIncidentStore) : gset string :=
  list_to_set (N_ID <$> List.filter (λ row, incident_wanted through row && negb (N_OpenedAt row =? zero_time)) (rows_in (incidents m))).

Definition in_phase (p : correlator_phase) (k : correlator) : correlator :=
  MkCorrelator p (K_discovery k) (K_through k) (K_queue k) (K_entries k) (K_finished k) (K_idle k) (K_events k) (K_always k).

(** One page of [discover]: an error or the end of the inventory ends it for this tick. *)
Definition discover_page (ctx : Ctx) (x : world) (k : correlator) : correlator :=
  match ReadActiveIncidentCorrelationPage ctx (K_through k) (K_discovery k) (W_incidents x) with
  | Err _ => in_phase Working k
  | Ok (rows, next, done) =>
      match validateCorrelationPage (K_discovery k) next (length rows) done with
      | Err _ => in_phase Working k
      | Ok _ =>
          let seen := active_incidents (K_through k) (W_incidents x) in
          let always := if CC_Started (K_discovery k) then K_always k ∩ seen else seen in
          let '(c, queue, entries, r) := discover_rows rows (MkCorrelationCursor (CC_AfterID (K_discovery k)) (CC_UpperID next) (CC_Started next)) (K_queue k) (K_entries k) in
          match r with
          | Err _ => MkCorrelator Working c (K_through k) queue entries (K_finished k) (K_idle k) (K_events k) always
          | Ok _ =>
              if done : bool then MkCorrelator Working zero_correlation zero_time queue entries (K_finished k) (K_idle k) (K_events k) always
              else MkCorrelator Discovering c (K_through k) queue entries (K_finished k) (K_idle k) (K_events k) always
          end
      end
  end.

(** One turn of the loop of a tick. The incident at the front goes to the back before anything is read. *)
Definition take_turn (t : turn) (k : correlator) (sweep : incidentCorrelationSweep) (rest : list incidentCorrelationSweep) : correlator :=
  let id := SW_id sweep in
  let rotated sweep finished idle events :=
    MkCorrelator Working (K_discovery k) (K_through k) (rest ++ [sweep]) (K_entries k) finished idle events (K_always k) in
  if bool_decide (id ∈ K_finished k) then rotated sweep (K_finished k) (S (K_idle k)) (K_events k)
  else
    match ReadIncidentCorrelation (T_ctx t 0%nat) id (W_incidents (T_world t 0%nat)) with
    | Err _ => rotated sweep ({[id]} ∪ K_finished k) 0%nat (K_events k)
    | Ok current =>
        match current with
        | Some inc =>
            if is_active (CI_Status inc) then
              let '(sweep, events, r) := correlateIncidentSlice t inc sweep (K_events k) in
              rotated sweep (match r with Ok false => K_finished k | _ => {[id]} ∪ K_finished k end) 0%nat events
            else MkCorrelator Working (K_discovery k) (K_through k) rest (K_entries k ∖ {[id]}) (K_finished k) 0 (K_events k) (K_always k ∖ {[id]})
        | None => MkCorrelator Working (K_discovery k) (K_through k) rest (K_entries k ∖ {[id]}) (K_finished k) 0 (K_events k) (K_always k ∖ {[id]})
        end
    end.

Inductive correlator_event :=
| TickStart (now : time)
| Discover (ctx : Ctx) (x : world)
| DiscoverEnd
| Turn (t : turn)
| TickEnd.

Definition correlator_step (e : correlator_event) (k : correlator) : option correlator :=
  match e, K_phase k with
  | TickStart now, Asleep =>
      Some (MkCorrelator Discovering (K_discovery k) (if K_through k =? zero_time then now else K_through k) (K_queue k) (K_entries k) ∅ 0 (K_events k) (K_always k))
  | Discover ctx x, Discovering => Some (discover_page ctx x k)
  | DiscoverEnd, Discovering => Some (in_phase Working k)
  | Turn t, Working =>
      match K_queue k with
      | [] => None
      | sweep :: rest => if (K_idle k <? length (K_queue k))%nat then Some (take_turn t k sweep rest) else None
      end
  | TickEnd, Working => Some (in_phase Asleep k)
  | _, _ => None
  end.

Fixpoint correlator_run (l : list correlator_event) (k : correlator) : option correlator :=
  match l with [] => Some k | e :: l => k ← correlator_step e k; correlator_run l k end.
End correlator.

(** ** The store and the matcher agree *)

(** The worlds whose maps hold each row under its own id *)
Record world_ok (x : world) : Prop := {
  wo_incidents : keyed N_ID (incidents (W_incidents x));
  wo_actions runs : W_actions x = Some runs → keyed AR_ID runs;
  wo_updates runs : W_updates x = Some runs → keyed UR_ID runs;
  wo_instances m : W_instances x = Some m → keyed I_ID (instances m) }.

Definition source_ref (source : nat) (id : string) : string :=
  String.append (match source with 0 => "action_runs:" | 1 => "update_runs:" | 2 => "alert_instances:" | _ => "audit_events:" end%nat) id.
(** The key under which the timeline has a row of a source. *)
Definition event_key (incidentID : string) (source : nat) (id : string) : string * string := (trim_space incidentID, trim_space (source_ref source id)).

Section agree.
Context `{MapRange}.

Lemma elem_of_page_assets scope incidentID id : id ∈ QS_AssetIDs (pageScope scope incidentID) ↔ id ∈ SC_assets scope.
Proof. simpl. rewrite sort_strings_perm. apply elem_of_elements. Qed.
Lemma elem_of_page_operations scope incidentID id : id ∈ QS_OperationAssetIDs (pageScope scope incidentID) ↔ id ∈ SC_operationAssets scope.
Proof. simpl. rewrite sort_strings_perm. apply elem_of_elements. Qed.

Lemma in_time_window w at_ : in_time w at_ = correlationInWindow at_ w.
Proof. unfold in_time, correlationInWindow. by rewrite !Z.ltb_antisym, !negb_involutive. Qed.

Lemma matches_contained scope incidentID w target :
  validateCorrelationQuery w (pageScope scope incidentID) = Ok tt → correlationContains (QS_OperationAssetIDs (pageScope scope incidentID)) target = true →
  matchesOperation scope target = true.
Proof.
  intros [_ Hex]%query_exact Hin%bool_decide_eq_true. unfold matchesOperation. specialize (Hex _ Hin). apply elem_of_page_operations in Hin.
  by rewrite bool_decide_eq_true_2, andb_true_l by done.
Qed.

(** The smallest failed target is one of the targets, when there is one. *)
Lemma smaller_target_in targets (l : list RunResultEntry) target :
  (∀ id, id ∈ targets → id ≠ "") → target = "" ∨ target ∈ targets →
  existsb (failed_in targets) l = true ∨ target ≠ "" → foldl (smaller_target targets) target l ∈ targets.
Proof.
  intros Hne. revert target. induction l as [|r l IH]; intros target Ht Hex; simpl in *; [naive_solver|].
  assert (Hr : failed_in targets r = true → RR_Target r ∈ targets) by (unfold failed_in; intros [_ ?%bool_decide_eq_true]%andb_true_iff; done).
  apply IH; unfold smaller_target; destruct (failed_in targets r) eqn:Hf; simpl.
  - destruct (is_empty target || str_lt (RR_Target r) target); [by right; apply Hr|done].
  - done.
  - right. destruct (is_empty target || str_lt (RR_Target r) target) eqn:Ho; [by apply Hne, Hr|]. apply orb_false_iff in Ho as [?%bool_decide_eq_false _]. done.
  - naive_solver.
Qed.

Lemma witness_assets_in ids (l : list string) acc :
  (∀ x, x ∈ acc → x ∈ ids ∧ correlationExactID x = true) → (∀ x, x ∈ l → correlationExactID x = true) → (length acc <= 1)%nat →
  (∀ x, x ∈ foldl (witness_asset ids) acc l → x ∈ ids ∧ correlationExactID x = true) ∧ (length (foldl (witness_asset ids) acc l) <= 1)%nat.
Proof.
  revert acc. induction l as [|id l IH]; intros acc Hacc Hl Hlen; [done|]. cbn [foldl]. apply IH; [|intros; apply Hl; by right|].
  - unfold witness_asset. destruct (correlationContains ids id) eqn:Hin; [|done]. apply bool_decide_eq_true in Hin.
    destruct (match acc with [] => true | w :: _ => str_lt id w end); [|done]. intros x ->%list_elem_of_singleton. split; [done|]. apply Hl. by left.
  - unfold witness_asset. destruct (_ && _); simpl; lia.
Qed.

Lemma witness_groups_in group (l : list string) acc :
  (∀ x, x ∈ acc → x = group ∧ group ≠ "" ∧ correlationExactID x = true) → (∀ x, x ∈ l → correlationExactID x = true) → (length acc <= 1)%nat →
  (∀ x, x ∈ foldl (witness_group group) acc l → x = group ∧ group ≠ "" ∧ correlationExactID x = true) ∧ (length (foldl (witness_group group) acc l) <= 1)%nat.
Proof.
  revert acc. induction l as [|id l IH]; intros acc Hacc Hl Hlen; [done|]. cbn [foldl]. apply IH; [|intros; apply Hl; by right|].
  - unfold witness_group. destruct (is_empty group) eqn:Hg; [done|]. apply bool_decide_eq_false in Hg. simpl. case_bool_decide as Hid; [|done].
    intros x ->%list_elem_of_singleton. split_and!; [done|done|]. apply Hl. by left.
  - unfold witness_group. destruct (_ && _); simpl; lia.
Qed.

Lemma short_scope_list l : (∀ x, x ∈ l → correlationExactID x = true) → (length l <= 1)%nat → scope_list l = Ok l.
Proof.
  intros Hl Hlen. destruct l as [|id [|]]; [done| |simpl in Hlen; lia]. unfold scope_list. simpl. specialize (Hl id ltac:(by left)).
  unfold correlationExactID in Hl. apply andb_true_iff in Hl as [[He Ht]%andb_true_iff _]. apply negb_true_iff in He. rewrite He, Ht. simpl.
  by rewrite bool_decide_eq_false_2 by apply not_elem_of_empty.
Qed.

Lemma existsb_perm {A} (f : A → bool) l k : l ≡ₚ k → existsb f l = existsb f k.
Proof. induction 1 as [|x l k _ IH|x y l|l1 l2 l3 _ IH1 _ IH2]; simpl; [done|by rewrite IH|by destruct (f x), (f y)|congruence]. Qed.

Lemma alert_matches scope incidentID w row :
  alert_wanted w (pageScope scope incidentID) row = true →
  matchesAlert scope (MkCorrelationAlert (I_ID row) (I_RuleID row) (I_Fingerprint row) (I_Severity row) (default zero_time (I_FirstFiredAt row))
    (correlationAlertWitness row (pageScope scope incidentID)).1 "" "" false) = true.
Proof.
  unfold alert_wanted, correlationAlertWitness, matchesAlert. destruct (I_FirstFiredAt row) as [fired|]; [|done]. intros [_ Hw]%andb_true_iff.
  cbn [default CL_FirstFiredAt CL_ID CL_RuleID CL_Fingerprint CL_FiringScope]. unfold Datatypes.id. destruct (fired =? zero_time); [done|].
  assert (Hlinks : existsb (λ l, link_agrees l (I_ID row) (I_RuleID row) (I_Fingerprint row)) (QS_AlertLinks (pageScope scope incidentID)) =
    existsb (λ l, link_agrees l (I_ID row) (I_RuleID row) (I_Fingerprint row)) (SC_alertLinks scope)) by (apply existsb_perm; apply merge_sort_Permutation).
  rewrite Hlinks in *. destruct (I_FiringScope row) as [f|]; [|simpl in Hw; by rewrite Hw].
  unfold scope_witness in *. destruct (negb (Version f =? 1) || _) eqn:Hbad; [done|]. apply orb_false_iff in Hbad as [_ Hex%negb_false_iff]. rewrite forallb_forall in Hex.
  assert (Hx : ∀ x, x ∈ AssetIDs f ∨ x ∈ GroupIDs f → correlationExactID x = true) by (intros x Hx; apply Hex, list_elem_of_In; rewrite !elem_of_app; tauto).
  destruct (witness_assets_in (QS_AssetIDs (pageScope scope incidentID)) (AssetIDs f) []) as [Ha Hal]; [by intros ? ?%not_elem_of_nil|auto|simpl; lia|].
  destruct (witness_groups_in (QS_GroupID (pageScope scope incidentID)) (GroupIDs f) []) as [Hg Hgl]; [by intros ? ?%not_elem_of_nil|auto|simpl; lia|].
  set (wa := foldl (witness_asset _) [] _) in *. set (wg := foldl (witness_group _) [] _) in *. cbn [fst snd] in *. unfold NormalizeFiringScope. cbn [Version AssetIDs GroupIDs SyntheticCheckIDs].
  rewrite (short_scope_list wa), (short_scope_list wg) by (done || (intros; by apply Ha) || (intros; by apply Hg)). cbn.
  destruct (existsb _ (SC_alertLinks scope)); [done|]. simpl in Hw. cbn [orb]. destruct wa as [|a wa'].
  - destruct wg as [|g wg']; [done|]. destruct (Hg g ltac:(by left)) as (Hgid & Hgne & _). simpl in Hgid, Hgne. apply orb_true_iff. right. simpl.
    rewrite bool_decide_eq_false_2, bool_decide_eq_true_2 by done. done.
  - destruct (Ha a ltac:(by left)) as [Hain _]. apply elem_of_page_assets in Hain. simpl. by rewrite bool_decide_eq_true_2.
Qed.
End agree.

(** ** What a read of a source gives *)

Section source_reads.
Context `{MapRange}.

(** The row makes one write, for the incident, under its own source, of a time within the window. *)
Definition writes_row (source : nat) (inc : CorrelationIncident) (scope : incidentCorrelationScope) (w : CorrelationWindow) (row : correlationCandidate) : Prop :=
  CC_rejected row = false ∧ ∃ req, correlateIncidentPage inc scope (CC_data row) w = [req] ∧ EQ_IncidentID req = CI_ID inc ∧
    EQ_SourceRef req = source_ref source (CC_id row) ∧ correlationInWindow (EQ_OccurredAt req) w = true.

(** A page of a source: the ids are the next of the evidence, in order; [missing] is the page of a store that the hub does not have. *)
Record source_rows (source : nat) (w : CorrelationWindow) (s : IncidentCorrelationScope) (c : CorrelationCursor) (x : world) (r : page_rows correlationCandidate) : Prop := {
  sr_page : (r = ([], MkCorrelationCursor "" "" true, true) ∧ evidence source w s x = ∅) ∨
    ∃ offered, rows_page CC_id c offered r ∧ ∀ id, id ∈ offered ↔ id ∈ evidence source w s x;
  sr_writes inc scope row : s = pageScope scope (CI_ID inc) → row ∈ r.1.1 → writes_row source inc scope w row }.

Lemma candidates_page {R} (f : R → correlationCandidate) (id_of : R → string) c offered r p :
  (∀ row, CC_id (f row) = id_of row) → candidates f (Ok r) = Ok p → rows_page id_of c offered r →
  rows_page CC_id c offered p ∧ ∀ row, row ∈ p.1.1 → ∃ q, q ∈ r.1.1 ∧ row = f q.
Proof.
  intros Hf. destruct r as [[rows next] done]. intros [= <-] [(q & Hp & Hids & Hn & Hd)]. simpl in *. split.
  - constructor. exists q. split; [done|]. split; [|done]. simpl. rewrite <-Hids, <-list_fmap_compose. apply list_fmap_ext. intros; apply Hf.
  - intros row (x & -> & Hx)%list_elem_of_fmap. by exists x.
Qed.

Lemma read_source ctx source w s c x r :
  world_ok x → (∃ incidentID scope, s = pageScope scope incidentID) → readCorrelationPage ctx source w s c x = Ok r → source_rows source w s c x r.
Proof.
  intros Hx Hs Hr. assert (Hempty : ∀ P : Prop, evidence source w s x = ∅ → r = ([], MkCorrelationCursor "" "" true, true) → source_rows source w s c x r).
  { intros _ He ->. constructor; [by left|]. by intros inc scope row _ ?%not_elem_of_nil. }
  unfold readCorrelationPage in Hr. destruct source as [|[|[|[|]]]]; [| | | |done].
  - destruct (W_actions x) as [runs|] eqn:Hw; [|apply (Hempty True); [unfold evidence; by rewrite Hw|by injection Hr]].
    destruct (ReadActionCorrelationPage ctx w s c runs) as [p|] eqn:Hp; [|done].
    apply action_page in Hp as (Hq & Hpage & Hrows); [|by apply (wo_actions x Hx)]. destruct (candidates_page action_candidate CA_ID c _ p r (λ _, eq_refl) Hr Hpage) as [Hpg Hin].
    constructor; [right; eexists; split; [exact Hpg|]; intros id; unfold evidence; rewrite elem_of_list_to_set, Hw; done|].
    intros inc scope row -> (q & (run & _ & Hwant & ->)%Hrows & ->)%Hin. split; [done|]. unfold action_wanted in Hwant. apply andb_true_iff in Hwant as [[_ Hwin]%andb_true_iff Hop].
    pose proof (matches_contained _ _ _ _ Hq Hop) as Hm. eexists. split; [|split_and!].
    { unfold correlateIncidentPage, action_candidate. simpl. unfold action_request. cbn [CA_Target CA_CreatedAt]. rewrite in_time_window. simpl. rewrite Hm, Hwin. reflexivity. }
    all: done.
  - destruct (W_updates x) as [runs|] eqn:Hw; [|apply (Hempty True); [unfold evidence; by rewrite Hw|by injection Hr]].
    destruct (ReadUpdateCorrelationPage ctx w s c runs) as [p|] eqn:Hp; [|done].
    apply update_page in Hp as (Hq & Hpage & Hrows); [|by apply (wo_updates x Hx)]. destruct (candidates_page update_candidate CU_ID c _ p r (λ _, eq_refl) Hr Hpage) as [Hpg Hin].
    constructor; [right; eexists; split; [exact Hpg|]; intros id; unfold evidence; rewrite elem_of_list_to_set, Hw; done|].
    intros inc scope row -> (q & (run & _ & Hwant & ->)%Hrows & ->)%Hin. split; [done|]. unfold update_wanted in Hwant. apply andb_true_iff in Hwant as [[_ Hwin]%andb_true_iff Hop].
    set (target := foldl (smaller_target (QS_OperationAssetIDs (pageScope scope (CI_ID inc)))) "" (UR_Results run)).
    assert (Hm : matchesOperation scope target = true).
    { eapply matches_contained; [done|]. apply bool_decide_eq_true, smaller_target_in; [|by left|by left]. intros id Hid. by apply exact_named, (query_exact _ _ Hq). }
    eexists. split; [|split_and!].
    { unfold correlateIncidentPage, update_candidate. simpl. unfold update_request, matchesUpdate. simpl. fold target. rewrite in_time_window. simpl. rewrite Hm, Hwin. reflexivity. }
    all: done.
  - destruct (W_instances x) as [m|] eqn:Hw; [|apply (Hempty True); [unfold evidence; by rewrite Hw|by injection Hr]].
    destruct (ReadAlertCorrelationPage ctx w s c m) as [p|] eqn:Hp; [|done].
    apply alert_page in Hp as (Hq & Hpage & Hrows); [|by apply (wo_instances x Hx)]. destruct (candidates_page alert_candidate CL_ID c _ p r (λ _, eq_refl) Hr Hpage) as [Hpg Hin].
    constructor; [right; eexists; split; [exact Hpg|]; intros id; unfold evidence; rewrite elem_of_list_to_set, Hw; done|].
    intros inc scope row -> (q & (inst & _ & Hwant & ->)%Hrows & ->)%Hin. split; [done|]. pose proof (alert_matches _ _ _ _ Hwant) as Hm.
    unfold alert_wanted in Hwant. destruct (I_FirstFiredAt inst) as [fired|]; [|done]. apply andb_true_iff in Hwant as [Hwin _]. unfold default, Datatypes.id in Hm.
    eexists. split; [|split_and!].
    { unfold correlateIncidentPage, alert_candidate. simpl. unfold alert_request, default, Datatypes.id. rewrite Hm. simpl. rewrite in_time_window, Hwin. reflexivity. }
    all: done.
  - destruct (W_audit x) as [events|] eqn:Hw; [|apply (Hempty True); [unfold evidence; by rewrite Hw|by injection Hr]].
    destruct (ReadAuditCorrelationPage ctx w s c events) as [p|] eqn:Hp; [|done].
    apply audit_page in Hp as (Hq & Hpage & Hrows). destruct (candidates_page audit_candidate CD_ID c _ p r (λ _, eq_refl) Hr Hpage) as [Hpg Hin].
    constructor; [right; eexists; split; [exact Hpg|]; intros id; unfold evidence; rewrite elem_of_list_to_set, Hw; done|].
    intros inc scope row -> (q & (e & _ & Hwant & ->)%Hrows & ->)%Hin. split; [done|]. unfold audit_wanted in Hwant. apply andb_true_iff in Hwant as [[Ht%bool_decide_eq_true Hfrom]%andb_true_iff Hthrough].
    assert (Hwin : in_time w (AE_Timestamp e) = true) by (unfold in_time; by rewrite Hfrom, Hthrough).
    assert (Hm : negb (bool_decide (AE_Target e = CI_ID inc)) && negb (matchesOperation scope (AE_Target e)) = false).
    { apply elem_of_cons in Ht as [Ht|Ht]; [by rewrite bool_decide_eq_true_2|]. rewrite (matches_contained _ _ _ _ Hq (proj2 (bool_decide_eq_true _) Ht)). by rewrite andb_false_r. }
    eexists. split; [|split_and!].
    { unfold correlateIncidentPage, audit_candidate. simpl. unfold audit_request. cbn [CD_Target CD_Timestamp]. rewrite Hwin, Hm. reflexivity. }
    1,2: done. by rewrite <-in_time_window.
Qed.
End source_reads.

(** ** The rows of a page *)

Lemma upsert_key now newid req events key :
  UpsertIncidentEventContext now newid req events !! key ≠ events !! key → key = (trim_space (EQ_IncidentID req), trim_space (EQ_SourceRef req)).
Proof.
  unfold UpsertIncidentEventContext. cbv zeta. intros Hne. apply dec_stable. intros Hk. apply Hne. by destruct (events !! _); rewrite lookup_insert_ne.
Qed.

Lemma upsert_written now newid req events :
  is_Some (UpsertIncidentEventContext now newid req events !! (trim_space (EQ_IncidentID req), trim_space (EQ_SourceRef req))).
Proof. unfold UpsertIncidentEventContext. cbv zeta. destruct (events !! _); rewrite lookup_insert_eq; by eexists. Qed.

Lemma upsert_kept now newid req events key : is_Some (events !! key) → is_Some (UpsertIncidentEventContext now newid req events !! key).
Proof.
  intros Hk. destruct (decide (UpsertIncidentEventContext now newid req events !! key = events !! key)) as [->|Hne]; [done|].
  apply upsert_key in Hne as ->. apply upsert_written.
Qed.

Definition event_of (events : timeline) (incidentID : string) (source : nat) (id : string) : Prop := is_Some (events !! event_key incidentID source id).

Section rows.
Context (source : nat) (inc : CorrelationIncident) (scope : incidentCorrelationScope) (w : CorrelationWindow) (now : time).

Record rows_done (rows : list correlationCandidate) (c : CorrelationCursor) (events : timeline) (c' : CorrelationCursor) (events' : timeline) (r : result correlation_error unit) : Prop := {
  rd_cursor : CC_UpperID c' = CC_UpperID c ∧ CC_Started c' = CC_Started c;
  rd_after : String.le (CC_AfterID c) (CC_AfterID c') ∧ (CC_AfterID c' = CC_AfterID c ∨ CC_AfterID c' ∈ CC_id <$> rows);
  rd_kept key : is_Some (events !! key) → is_Some (events' !! key);
  rd_written row : row ∈ rows → String.le (CC_id row) (CC_AfterID c') ∨ r = Ok tt → event_of events' (CI_ID inc) source (CC_id row);
  rd_bound row : r = Ok tt → row ∈ rows → String.le (CC_id row) (CC_AfterID c');
  rd_changed key : events' !! key ≠ events !! key → ∃ row, row ∈ rows ∧ key = event_key (CI_ID inc) source (CC_id row) }.

Lemma slice_rows_spec rows : ∀ outcomes c events,
  (∀ row, row ∈ rows → writes_row source inc scope w row) → ascending (CC_AfterID c :: (CC_id <$> rows)) →
  let '(c', events', r) := slice_rows inc scope w now rows outcomes c events in rows_done rows c events c' events' r.
Proof.
  induction rows as [|row rows IH]; intros outcomes c events Hw Hs.
  { simpl. constructor; [done|by split; [|left]|done|by intros row ?%not_elem_of_nil|by intros row _ ?%not_elem_of_nil|done]. }
  apply StronglySorted_inv in Hs as [Hs Hlt]. rewrite fmap_cons in Hs, Hlt. apply Forall_cons in Hlt as [Hlt Hlts]. assert (Hrow : row ∈ row :: rows) by (by left).
  assert (Hstop : ∀ events' e, (∀ key, is_Some (events !! key) → is_Some (events' !! key)) → (∀ key, events' !! key ≠ events !! key → key = event_key (CI_ID inc) source (CC_id row)) →
    rows_done (row :: rows) c events c events' (Err e)).
  { intros events' e Hk Hch. constructor; [done|by split; [|left]|done| |done|].
    - intros x Hx [Hle|?]; [exfalso|done]. assert (Hgt : str_lt (CC_AfterID c) (CC_id x) = true).
      { apply elem_of_cons in Hx as [->|Hx]; [done|]. rewrite Forall_forall in Hlts. apply Hlts, list_elem_of_fmap. by exists x. }
      by rewrite (proj2 (str_lt_false _ _) Hle) in Hgt.
    - intros key ->%Hch. by exists row. }
  cbn [slice_rows]. destruct (default (RowOk, "") (head outcomes)) as [o newid]. destruct (Hw row Hrow) as (Hrej & req & Hreq & Hrid & Href & _).
  set (written := write_requests now newid (correlateIncidentPage inc scope (CC_data row) w) events).
  assert (Hwr : written = UpsertIncidentEventContext now newid req events) by (unfold written; by rewrite Hreq).
  assert (Hkey : (trim_space (EQ_IncidentID req), trim_space (EQ_SourceRef req)) = event_key (CI_ID inc) source (CC_id row)) by (by rewrite Hrid, Href).
  assert (Hkept : ∀ key, is_Some (events !! key) → is_Some (written !! key)) by (intros; rewrite Hwr; by apply upsert_kept).
  assert (Hch : ∀ key, written !! key ≠ events !! key → key = event_key (CI_ID inc) source (CC_id row)) by (intros key; rewrite Hwr, <-Hkey; apply upsert_key).
  assert (Hgo : o ≠ RowUncertain → let '(c', events', r) := slice_rows inc scope w now rows (tail outcomes) (MkCorrelationCursor (CC_id row) (CC_UpperID c) (CC_Started c)) written in
    rows_done (row :: rows) c events c' events' r).
  { intros _. specialize (IH (tail outcomes) (MkCorrelationCursor (CC_id row) (CC_UpperID c) (CC_Started c)) written ltac:(intros; apply Hw; by right) Hs).
    destruct (slice_rows _ _ _ _ _ _ _ _) as [[c' events'] r]. destruct IH as [Hc [Hle Hor] Hk Hwn Hb Hcg]. simpl in *. apply str_lt_iff in Hlt as [Hlt _].
    assert (Hev : event_of written (CI_ID inc) source (CC_id row)) by (unfold event_of; rewrite Hwr, <-Hkey; apply upsert_written).
    constructor; [done| | | | |].
    - split; [by etrans|right]. apply elem_of_cons. destruct Hor; [by left|by right].
    - intros key ?. by apply Hk, Hkept.
    - intros x [->|Hx]%elem_of_cons Ho; [by apply Hk|by apply Hwn].
    - intros x Hok [->|Hx]%elem_of_cons; [done|by apply Hb].
    - intros key Hne. destruct (decide (events' !! key = written !! key)) as [Heq|Hd]; [rewrite Heq in Hne; apply Hch in Hne as ->; by exists row|].
      destruct (Hcg key Hd) as (x & Hx & ->). exists x. split; [by right|done]. }
  destruct o; [|by apply Hstop|]; (destruct (validateCorrelationRow c (CC_id row)) as [[]|e]; [|by apply Hstop]); rewrite Hrej; [by apply Hgo|].
  by apply Hstop.
Qed.
End rows.

(** ** What a sweep has covered *)

Definition kept (events events' : timeline) : Prop := ∀ key, is_Some (events !! key) → is_Some (events' !! key).

Record source_inv (events : timeline) (id : string) (source : nat) (c : CorrelationCursor) (done : bool) (always : gset string) : Prop := {
  so_fresh : CC_Started c = false → c = zero_correlation ∧ done = false;
  so_order : String.le (CC_AfterID c) (CC_UpperID c);
  so_upper x : CC_Started c = true → x ∈ always → String.le x (CC_UpperID c);
  so_seen x : CC_Started c = true → x ∈ always → String.le x (CC_AfterID c) ∨ done = true → event_of events id source x }.

Lemma source_inv_kept events events' id source c done always : kept events events' → source_inv events id source c done always → source_inv events' id source c done always.
Proof. intros Hk [H1 H2 H3 H4]. constructor; auto. intros x Hs Hx Ho. by apply Hk, H4. Qed.

Definition sweep_inv (events : timeline) (s : incidentCorrelationSweep) : Prop :=
  length (SW_cursors s) = sources_count ∧ length (SW_done s) = sources_count ∧ length (SW_always s) = sources_count ∧
  ∀ source, (source < sources_count)%nat → source_inv events (SW_id s) source (cursor_at s source) (done_at s source) (always_at s source).

Lemma sweep_inv_kept events events' s : kept events events' → sweep_inv events s → sweep_inv events' s.
Proof. intros Hk (H1 & H2 & H3 & H4). split_and!; [done|done|done|]. intros source Hs. eapply source_inv_kept; eauto. Qed.

Lemma new_sweep_inv events id identity w : sweep_inv events (new_sweep id identity w).
Proof.
  split_and!; [done|done|done|]. intros source Hs. do 4 (destruct source as [|source]; [constructor; simpl; done|]). unfold sources_count in Hs. lia.
Qed.

(** The bookkeeping of one source leaves the others alone. *)
Lemma sweep_inv_update events events' s source n c done always :
  (source < sources_count)%nat → kept events events' → sweep_inv events s → source_inv events' (SW_id s) source c done always →
  sweep_inv events' (MkSweep (SW_id s) (SW_identity s) (SW_window s) (<[source := c]> (SW_cursors s)) (<[source := done]> (SW_done s)) n (<[source := always]> (SW_always s))).
Proof.
  intros Hs Hk (H1 & H2 & H3 & H4) Hnew. split_and!; simpl; rewrite ?length_insert; try done. intros source' Hs'. unfold cursor_at, done_at, always_at. simpl.
  destruct (decide (source = source')) as [<-|Hne]; [by rewrite !list_lookup_insert_eq by lia|]. rewrite !list_lookup_insert_ne by done. eapply source_inv_kept; [done|]. by apply H4.
Qed.

Section pages_of_sweeps.
Context `{MapRange}.

(** One page of a source, from its cursor [c] to [c']. *)
Lemma source_step events source inc scope w now c done always x r outcomes :
  let s := pageScope scope (CI_ID inc) in
  source_inv events (CI_ID inc) source c done always → source_rows source w s c x r → validateCorrelationPage c r.1.2 (length r.1.1) r.2 = Ok tt →
  let seen := evidence source w s x in
  let always' := if CC_Started c then always ∩ seen else seen in
  let '(c', events', e) := slice_rows inc scope w now r.1.1 outcomes (MkCorrelationCursor (CC_AfterID c) (CC_UpperID r.1.2) (CC_Started r.1.2)) events in
  kept events events' ∧ (∀ key, events' !! key ≠ events !! key → ∃ row, row ∈ r.1.1 ∧ key = event_key (CI_ID inc) source (CC_id row)) ∧
  source_inv events' (CI_ID inc) source c' (match e with Ok _ => r.2 | Err _ => false end) always'.
Proof.
  intros s Hinv [Hpage Hwrites] Hvalid seen always'. assert (Hw : ∀ row, row ∈ r.1.1 → writes_row source inc scope w row) by (intros row Hr; by apply Hwrites).
  unfold validateCorrelationPage, guard_err in Hvalid. destruct (_ || _) eqn:Hbad in Hvalid; [done|]. clear Hvalid.
  repeat match goal with H : _ || _ = false |- _ => apply orb_false_iff in H as [? ?] end. bool_prop.
  assert (Hst : CC_Started r.1.2 = true) by (by destruct (CC_Started r.1.2)). assert (Hup : CC_Started c = true → CC_UpperID c = CC_UpperID r.1.2) by (intros Hc; rewrite Hc in *; simpl in *; bool_prop; done).
  assert (Hao : String.le (CC_AfterID c) (CC_UpperID r.1.2)) by (by apply str_lt_false).
  destruct Hpage as [[-> Hnone]|(offered & [(p & Hp & Hids & Hnext & Hdone)] & Hoff)].
  - simpl. split; [by intros key|]. split; [done|]. simpl in *. constructor; simpl; [done|done| |]; intros y _; unfold always', seen; rewrite Hnone; destruct (CC_Started c); set_solver.
  - assert (Hasc : ascending (CC_AfterID c :: (CC_id <$> r.1.1))) by (rewrite Hids; by eapply id_page_ascending).
    pose proof (slice_rows_spec source inc scope w now r.1.1 outcomes (MkCorrelationCursor (CC_AfterID c) (CC_UpperID r.1.2) (CC_Started r.1.2)) events Hw Hasc) as Hrows.
    destruct (slice_rows _ _ _ _ _ _ _ _) as [[c' events'] e]. destruct Hrows as [[Hcu Hcs] [Hle Hor] Hkept Hwr Hb Hch]. simpl in *.
    assert (Hupper : ∀ y, y ∈ always' → String.le y (CC_UpperID r.1.2) ∧ y ∈ seen ∧ (CC_Started c = true → y ∈ always)).
    { intros y Hy. unfold always' in Hy. destruct (CC_Started c) eqn:Hc.
      - apply elem_of_intersection in Hy as [Hy ?]. rewrite <-Hup by done. split; [by apply (so_upper _ _ _ _ _ _ Hinv)|done].
      - split; [|done]. rewrite Hnext. simpl. pose proof (ip_upper _ _ _ Hp) as Hu. rewrite Hc in Hu. by apply Hu, Hoff. }
    assert (Hafter : String.le (CC_AfterID c') (CC_UpperID r.1.2)).
    { destruct Hor as [->|Hin]; [done|]. rewrite Hids in Hin. rewrite Hnext. by eapply id_page_upper. }
    (* An id of the range that is always evidence is in the page, or behind a full one. *)
    assert (Hplace : ∀ y, y ∈ always' → event_of events' (CI_ID inc) source y ∨ y ∈ CC_id <$> r.1.1 ∨
      length r.1.1 = CorrelationPageSize ∧ str_lt (CC_AfterID c') y = true).
    { intros y Hy. destruct (Hupper y Hy) as (Hyu & Hys & Hya). rewrite Hids in Hor |- *.
      destruct (id_page_places _ _ _ (CC_AfterID c') y Hp) as [Hold|[?|[Hfull ?]]]; [intros Hc; by rewrite Hup|by apply Hoff|done| |by right; left|].
      - left. destruct (CC_Started c) eqn:Hc; [apply Hkept; apply (so_seen _ _ _ _ _ _ Hinv); auto|]. exfalso. destruct (so_fresh _ _ _ _ _ _ Hinv Hc) as [-> _].
        apply (ip_named _ _ _ Hp), Hoff. by replace "" with y by (apply (anti_symm String.le); [done|apply str_empty_le]).
      - right. right. by rewrite <-Hfull, <-Hids, length_fmap. }
    split; [exact Hkept|]. split; [exact Hch|]. constructor.
    + rewrite Hcs, Hst. done.
    + by rewrite Hcu.
    + intros y _ Hy. rewrite Hcu. by apply Hupper.
    + intros y _ Hy Ho. destruct (Hplace y Hy) as [?|[(row & -> & Hrow)%list_elem_of_fmap|[Hfull Hlt]]]; [done| |].
      * apply Hwr; [done|]. destruct Ho as [?|Hd]; [by left|right]. by destruct e as [[]|].
      * exfalso. destruct Ho as [Hle'|Hd]; [apply str_lt_false in Hle'; congruence|]. destruct e; [|done]. rewrite Hdone in Hd. simpl in Hd. apply Nat.ltb_lt in Hd.
        rewrite <-Hids, length_fmap in Hd. lia.
Qed.
End pages_of_sweeps.

(** ** A turn *)

Section turns.
Context `{MapRange} (digest : IncidentCorrelationScope → time → string).

(** A write is justified by a turn: the incident was active when the turn read it, and the row was evidence, in the scope of that turn, when it read the page. *)
Definition justified (t : turn) (key : string * string) : Prop :=
  ∃ inc scope source through x, ReadIncidentCorrelation (T_ctx t 0%nat) (CI_ID inc) (W_incidents (T_world t 0%nat)) = Ok (Some inc) ∧ is_active (CI_Status inc) = true ∧
    turn_scope t inc = Ok scope ∧ x ∈ evidence source (MkWindow (CI_OpenedAt inc) through) (pageScope scope (CI_ID inc)) (T_world t 4%nat) ∧
    key = event_key (CI_ID inc) source x.

(** The window of a sweep starts when the incident of its identity was opened. *)
Definition window_ok (s : incidentCorrelationSweep) : Prop :=
  CW_Through (SW_window s) = zero_time ∨ ∃ q, SW_identity s = digest q (CW_From (SW_window s)).

Lemma next_source_ok s source : next_source s = Some source → (source < sources_count)%nat ∧ done_at s source = false.
Proof.
  unfold next_source. intros Hh. assert (Hin : source ∈ List.filter (λ source, negb (done_at s source)) ((λ i, (SW_next s + i) mod sources_count)%nat <$> seq 0 sources_count)).
  { destruct (List.filter _ _); [done|]. injection Hh as ->. by left. }
  apply list_elem_of_In, filter_In in Hin as [Hin Hd%negb_true_iff]. split; [|done]. apply list_elem_of_In, list_elem_of_fmap in Hin as (i & -> & _).
  by apply Nat.mod_upper_bound.
Qed.

Lemma sources_update_id {A} (l : list A) source (a d : A) : default d (l !! source) = a → (source < length l)%nat → <[source := a]> l = l.
Proof. intros Hd Hl. apply list_insert_id. destruct (lookup_lt_is_Some_2 l source Hl) as [y Hy]. rewrite Hy in *. by rewrite <-Hd. Qed.

Lemma source_page_spec t inc scope source sweep events :
  (∀ n, world_ok (T_world t n)) → (source < sources_count)%nat → done_at sweep source = false → SW_id sweep = CI_ID inc → sweep_inv events sweep →
  let '(sweep', events', r) := source_page t inc scope source sweep events in
  SW_id sweep' = SW_id sweep ∧ SW_window sweep' = SW_window sweep ∧ SW_identity sweep' = SW_identity sweep ∧ sweep_inv events' sweep' ∧ kept events events' ∧
  ∀ key, events' !! key ≠ events !! key → ∃ x, x ∈ evidence source (SW_window sweep) (pageScope scope (CI_ID inc)) (T_world t 4%nat) ∧ key = event_key (CI_ID inc) source x.
Proof.
  intros Hworld Hs Hd Hid Hinv. pose proof Hinv as (Hl1 & Hl2 & Hl3 & Hall). unfold source_page. cbv zeta.
  change (cursor_at (with_next _ sweep) source) with (cursor_at sweep source). change (SW_window (with_next _ sweep)) with (SW_window sweep).
  set (n := ((source + 1) mod sources_count)%nat).
  assert (Hsame : sweep_inv events (with_next n sweep)) by done.
  destruct (readCorrelationPage _ _ _ _ _ _) as [[[rows next] eof]|] eqn:Hr; [|split_and!; try done; by intros key].
  destruct (validateCorrelationPage _ next (length rows) eof) as [[]|] eqn:Hv; [|split_and!; try done; by intros key].
  assert (Hsr : source_rows source (SW_window sweep) (pageScope scope (CI_ID inc)) (cursor_at sweep source) (T_world t 4%nat) (rows, next, eof)) by (eapply read_source; [apply Hworld|by do 2 eexists|exact Hr]).
  specialize (Hall source Hs). rewrite Hid in Hall.
  pose proof (source_step events source inc scope (SW_window sweep) (T_now t) (cursor_at sweep source) (done_at sweep source) (always_at sweep source) (T_world t 4%nat) (rows, next, eof) (T_outcomes t) Hall Hsr Hv) as Hstep.
  cbn [fst snd] in Hstep. change (always_at (with_next n sweep) source) with (always_at sweep source). set (always := if CC_Started _ then _ else _) in *.
  change (SW_window (with_always source always (with_next n sweep))) with (SW_window sweep).
  destruct (slice_rows _ _ _ _ _ _ _ _) as [[c' events'] r]. destruct Hstep as (Hkept & Hch & Hnew). rewrite <-Hid in Hnew.
  pose proof (sweep_inv_update events events' sweep source n c' (match r with Ok _ => eof | Err _ => false end) always Hs Hkept Hinv Hnew) as Hnext.
  assert (Hchange : ∀ key, events' !! key ≠ events !! key → ∃ x, x ∈ evidence source (SW_window sweep) (pageScope scope (CI_ID inc)) (T_world t 4%nat) ∧ key = event_key (CI_ID inc) source x).
  { intros key (row & Hrow & ->)%Hch. exists (CC_id row). split; [|done]. destruct (sr_page _ _ _ _ _ _ Hsr) as [[[= -> -> ->] _]|(offered & [(p & Hp & Hids & _)] & Hoff)]; [by apply not_elem_of_nil in Hrow|].
    apply Hoff, (ip_sound _ _ _ Hp). rewrite <-Hids. apply list_elem_of_fmap. by exists row. }
  destruct r as [u|e]; simpl; split_and!; try done.
  rewrite (sources_update_id (SW_done sweep) source false false) in Hnext by (done || by rewrite Hl2). done.
Qed.

Lemma slice_sweep_spec now inc s sweep events :
  (∀ q q' f f', digest q f = digest q' f' → f = f') → SW_id sweep = CI_ID inc → window_ok sweep → sweep_inv events sweep →
  let sweep' := slice_sweep digest now inc s sweep in
  SW_id sweep' = CI_ID inc ∧ SW_identity sweep' = digest s (CI_OpenedAt inc) ∧ CW_From (SW_window sweep') = CI_OpenedAt inc ∧ sweep_inv events sweep'.
Proof.
  intros Hinj Hid Hw Hinv. unfold slice_sweep. cbv zeta. destruct (_ || _) eqn:Hfresh; [split_and!; try done; apply new_sweep_inv|].
  apply orb_false_iff in Hfresh as [[Hz%Z.eqb_neq Hi%negb_false_iff%bool_decide_eq_true]%orb_false_iff _]. split_and!; try done.
  destruct Hw as [?|[q Hq]]; [done|]. rewrite Hi in Hq. by apply Hinj in Hq.
Qed.

Lemma slice_spec t inc sweep events :
  (∀ q q' f f', digest q f = digest q' f' → f = f') → (∀ n, world_ok (T_world t n)) → window_ok sweep → sweep_inv events sweep →
  ReadIncidentCorrelation (T_ctx t 0%nat) (SW_id sweep) (W_incidents (T_world t 0%nat)) = Ok (Some inc) → is_active (CI_Status inc) = true →
  let '(sweep', events', r) := correlateIncidentSlice digest t inc sweep events in
  SW_id sweep' = SW_id sweep ∧ window_ok sweep' ∧ sweep_inv events' sweep' ∧ kept events events' ∧ ∀ key, events' !! key ≠ events !! key → justified t key.
Proof.
  intros Hinj Hworld Hw Hinv Hread Hact. unfold correlateIncidentSlice. destruct (negb _ || _) eqn:Hbad; [split_and!; try done; by intros key|]. apply orb_false_iff in Hbad as [Hid%negb_false_iff%bool_decide_eq_true _].
  destruct (turn_scope t inc) as [scope|] eqn:Hscope; [|split_and!; try done; by intros key]. cbv zeta. symmetry in Hid.
  destruct (slice_sweep_spec (T_now t) inc (pageScope scope (CI_ID inc)) sweep events Hinj Hid Hw Hinv) as (Hid' & Hident & Hfrom & Hinv').
  set (sweep' := slice_sweep _ _ _ _ _) in *. assert (Hw' : window_ok sweep') by (right; exists (pageScope scope (CI_ID inc)); by rewrite Hfrom).
  destruct (next_source sweep') as [source|] eqn:Hnext; [|split_and!; [congruence|done|done|by intros key|done]].
  apply next_source_ok in Hnext as [Hs Hd]. pose proof (source_page_spec t inc scope source sweep' events Hworld Hs Hd Hid' Hinv') as Hpage.
  destruct (source_page _ _ _ _ _ _) as [[sweep'' events'] r]. destruct Hpage as (Hid2 & Hwin & Hident2 & Hinv2 & Hkept & Hch).
  split_and!; [congruence| |done|done|].
  - unfold window_ok. by rewrite Hwin, Hident2.
  - intros key (x & Hx & ->)%Hch. exists inc, scope, source, (CW_Through (SW_window sweep')), x. rewrite Hid in Hread. split_and!; try done.
    rewrite <-Hfrom. by destruct (SW_window sweep').
Qed.
End turns.

(** ** The queue of the correlator *)

Section queue.
Context `{MapRange} (digest : IncidentCorrelationScope → time → string).

Definition queued (entries : gset string) (queue : list incidentCorrelationSweep) : Prop :=
  NoDup (SW_id <$> queue) ∧ ∀ id, id ∈ entries ↔ id ∈ SW_id <$> queue.

Lemma queued_new entries queue id : queued entries queue → id ∉ entries → queued ({[id]} ∪ entries) (queue ++ [queued_sweep id]).
Proof.
  intros [Hnd Hin] Hni. split.
  - rewrite fmap_app. apply NoDup_app. split; [done|]. split; [|apply NoDup_singleton]. intros x Hx Hy. apply list_elem_of_singleton in Hy as ->. apply Hni. by apply Hin.
  - intros x. rewrite fmap_app, elem_of_app, elem_of_union, elem_of_singleton. simpl. rewrite list_elem_of_singleton, Hin. tauto.
Qed.

Lemma queued_rotated entries sweep sweep' rest : SW_id sweep' = SW_id sweep → queued entries (sweep :: rest) → queued entries (rest ++ [sweep']).
Proof.
  intros Hid [Hnd Hin]. assert (Hp : SW_id <$> rest ++ [sweep'] ≡ₚ SW_id <$> sweep :: rest) by (rewrite fmap_app; simpl; rewrite Hid; by rewrite Permutation_app_comm).
  split; [by rewrite Hp|]. intros id. by rewrite Hp.
Qed.

Lemma queued_removed entries sweep rest : queued entries (sweep :: rest) → queued (entries ∖ {[SW_id sweep]}) rest.
Proof.
  intros [Hnd Hin]. rewrite fmap_cons in Hnd. apply NoDup_cons in Hnd as [Hni Hnd]. split; [done|]. intros id. rewrite elem_of_difference, elem_of_singleton, Hin, fmap_cons, elem_of_cons.
  split; [tauto|]. intros Hid. split; [by right|]. by intros ->.
Qed.

(** The sweeps of a queue that discovery made longer: the old ones and new ones. *)
Definition extends (queue queue' : list incidentCorrelationSweep) : Prop := ∃ ids, queue' = queue ++ (queued_sweep <$> ids).

Record rows_found (rows : list CorrelationIncident) (c : CorrelationCursor) (queue : list incidentCorrelationSweep) (entries : gset string)
    (c' : CorrelationCursor) (queue' : list incidentCorrelationSweep) (entries' : gset string) (r : result correlation_error unit) : Prop := {
  rf_cursor : CC_UpperID c' = CC_UpperID c ∧ CC_Started c' = CC_Started c;
  rf_after : CC_AfterID c' = CC_AfterID c ∨ CC_AfterID c' ∈ CI_ID <$> rows;
  rf_queue : extends queue queue' ∧ queued entries' queue' ∧ entries ⊆ entries';
  rf_found row : row ∈ rows → CI_OpenedAt row ≠ zero_time → is_active (CI_Status row) = true → String.le (CI_ID row) (CC_AfterID c') ∨ r = Ok tt → CI_ID row ∈ entries' }.

Lemma discover_rows_spec rows : ∀ c queue entries,
  ascending (CC_AfterID c :: (CI_ID <$> rows)) → queued entries queue →
  let '(c', queue', entries', r) := discover_rows rows c queue entries in rows_found rows c queue entries c' queue' entries' r.
Proof.
  induction rows as [|row rows IH]; intros c queue entries Hs Hq.
  { simpl. constructor; [done|by left|split; [exists []; by rewrite app_nil_r|by split]|by intros row ?%not_elem_of_nil]. }
  apply StronglySorted_inv in Hs as [Hs Hlt]. rewrite fmap_cons in Hs, Hlt. cbn [discover_rows]. destruct (validateCorrelationRow c (CI_ID row)) as [u|e].
  - set (fresh := negb (CI_OpenedAt row =? zero_time) && is_active (CI_Status row) && negb (bool_decide (CI_ID row ∈ entries))).
    set (queue1 := if fresh then _ else queue). set (entries1 := if fresh then _ else entries).
    assert (Hq1 : queued entries1 queue1 ∧ extends queue queue1 ∧ entries ⊆ entries1 ∧ (CI_OpenedAt row ≠ zero_time → is_active (CI_Status row) = true → CI_ID row ∈ entries1)).
    { unfold queue1, entries1. destruct fresh eqn:Hf; unfold fresh in Hf.
      - apply andb_true_iff in Hf as [_ Hf%negb_true_iff%bool_decide_eq_false]. split; [by apply queued_new|]. split; [by exists [CI_ID row]|]. split; [set_solver|]. intros _ _. set_solver.
      - split; [done|]. split; [exists []; by rewrite app_nil_r|]. split; [done|]. intros Ho Ha. rewrite Ha, (proj2 (Z.eqb_neq _ _) Ho) in Hf. simpl in Hf. by apply negb_false_iff, bool_decide_eq_true in Hf. }
    destruct Hq1 as (Hq1 & [ids1 Hx1] & Hsub1 & Hrow).
    specialize (IH (MkCorrelationCursor (CI_ID row) (CC_UpperID c) (CC_Started c)) queue1 entries1 Hs Hq1).
    destruct (discover_rows _ _ _ _) as [[[c' queue'] entries'] r]. destruct IH as [Hc Hor ([ids Hx] & Hq' & Hsub) Hfound]. simpl in *.
    constructor; [done| | |].
    + right. apply elem_of_cons. destruct Hor; [by left|by right].
    + split; [exists (ids1 ++ ids); by rewrite Hx, Hx1, fmap_app, (assoc_L (++))|]. split; [done|set_solver].
    + intros x [->|Hx']%elem_of_cons Ho Ha Hle; [by apply Hsub, Hrow|by apply Hfound].
  - constructor; [done|by left|split; [exists []; by rewrite app_nil_r|by split]|]. intros x Hx _ _ [Hle|?]; [exfalso|done].
    rewrite Forall_forall in Hlt. specialize (Hlt (CI_ID x) ltac:(rewrite <-fmap_cons; apply list_elem_of_fmap; by exists x)). apply str_lt_false in Hle. congruence.
Qed.

Record correlator_inv (k : correlator) : Prop := {
  ki_sweeps s : s ∈ K_queue k → sweep_inv (K_events k) s ∧ window_ok digest s;
  ki_queued : queued (K_entries k) (K_queue k);
  ki_fresh : CC_Started (K_discovery k) = false → K_discovery k = zero_correlation;
  ki_order : String.le (CC_AfterID (K_discovery k)) (CC_UpperID (K_discovery k));
  ki_upper x : CC_Started (K_discovery k) = true → x ∈ K_always k → String.le x (CC_UpperID (K_discovery k));
  ki_found x : x ∈ K_always k → CC_Started (K_discovery k) = false ∨ String.le x (CC_AfterID (K_discovery k)) → x ∈ K_entries k }.

Lemma correlator_inv_init : correlator_inv new_correlator.
Proof.
  constructor; simpl; try done; [by intros s ?%not_elem_of_nil|]. split; [constructor|]. intros id. rewrite elem_of_empty. by rewrite elem_of_nil.
Qed.

Lemma extends_sweeps events queue queue' :
  (∀ s, s ∈ queue → sweep_inv events s ∧ window_ok digest s) → extends queue queue' → ∀ s, s ∈ queue' → sweep_inv events s ∧ window_ok digest s.
Proof. intros Hq [ids ->] s [?|(id & -> & _)%list_elem_of_fmap]%elem_of_app; [by apply Hq|]. split; [apply new_sweep_inv|by left]. Qed.

Lemma incidents_page ctx through c m r :
  keyed N_ID (incidents m) → ReadActiveIncidentCorrelationPage ctx through c m = Ok r →
  rows_page CI_ID c (N_ID <$> List.filter (incident_wanted through) (rows_in (incidents m))) r ∧
  ∀ q, q ∈ r.1.1 → ∃ row, incidents m !! N_ID row = Some row ∧ incident_wanted through row = true ∧ q = correlationIncident row.
Proof.
  intros Hk. unfold ReadActiveIncidentCorrelationPage. destruct (guard_err _ _); [|done]. cbn [mbind result_bind]. destruct (validateCorrelationCursor c); [|done]. cbn [mbind result_bind].
  destruct (correlation_check ctx); [|done]. cbn [mbind result_bind]. destruct (page_of _ c) as [p|] eqn:Hp; [|done]. intros [= <-].
  exact (read_rows (incidents m) N_ID _ zero_incident correlationIncident CI_ID c p Hk (λ _, eq_refl) Hp).
Qed.

Lemma elem_of_active_incidents through m x :
  x ∈ active_incidents through m ↔ ∃ row k, incidents m !! k = Some row ∧ incident_wanted through row = true ∧ N_OpenedAt row ≠ zero_time ∧ N_ID row = x.
Proof.
  unfold active_incidents. rewrite elem_of_list_to_set, list_elem_of_fmap. split.
  - intros (row & -> & Hin). apply list_elem_of_In, filter_In in Hin as [Hin [Hw Ho%negb_true_iff%Z.eqb_neq]%andb_true_iff].
    apply list_elem_of_In, elem_of_rows_in in Hin as [k Hk]. by exists row, k.
  - intros (row & k & Hk & Hw & Ho & <-). exists row. split; [done|]. apply list_elem_of_In, filter_In. rewrite <-list_elem_of_In, elem_of_rows_in. split; [by exists k|].
    rewrite Hw. simpl. by apply negb_true_iff, Z.eqb_neq.
Qed.

Lemma discover_page_inv ctx x k : world_ok x → correlator_inv k → correlator_inv (discover_page ctx x k).
Proof.
  intros Hx Hk. pose proof Hk as [Hsw Hq Hfresh Horder Hupper Hfound]. unfold discover_page.
  destruct (ReadActiveIncidentCorrelationPage _ _ _ _) as [[[rows next] eof]|] eqn:Hr; [|done]. destruct (validateCorrelationPage _ next (length rows) eof) as [[]|] eqn:Hv; [|done].
  destruct (incidents_page _ _ _ _ _ (wo_incidents x Hx) Hr) as [[(p & Hp & Hids & Hnext & Heof)] Hrows]. simpl in *.
  set (c := K_discovery k) in *. set (seen := active_incidents (K_through k) (W_incidents x)). set (always := if CC_Started c then K_always k ∩ seen else seen).
  unfold validateCorrelationPage, guard_err in Hv. destruct (_ || _) eqn:Hbad in Hv; [done|]. clear Hv.
  repeat match goal with H : _ || _ = false |- _ => apply orb_false_iff in H as [? ?] end. bool_prop.
  assert (Hst : CC_Started next = true) by (by destruct (CC_Started next)). assert (Hup : CC_Started c = true → CC_UpperID c = CC_UpperID next) by (intros Hc; rewrite Hc in *; simpl in *; bool_prop; done).
  assert (Hasc : ascending (CC_AfterID c :: (CI_ID <$> rows))) by (rewrite Hids; by eapply id_page_ascending).
  pose proof (discover_rows_spec rows (MkCorrelationCursor (CC_AfterID c) (CC_UpperID next) (CC_Started next)) (K_queue k) (K_entries k) Hasc Hq) as Hrf.
  destruct (discover_rows _ _ _ _) as [[[c' queue] entries] r]. destruct Hrf as [[Hcu Hcs] Hor (Hext & Hq' & Hsub) Hnew]. simpl in *.
  assert (Hup' : ∀ y, y ∈ always → String.le y (CC_UpperID next) ∧ y ∈ seen ∧ (CC_Started c = true → y ∈ K_always k)).
  { assert (Hoff : ∀ y, y ∈ seen → y ∈ N_ID <$> List.filter (incident_wanted (K_through k)) (rows_in (incidents (W_incidents x)))).
    { intros y (row & key & Hkey & Hw & _ & <-)%elem_of_active_incidents. apply list_elem_of_fmap. exists row. split; [done|].
      apply list_elem_of_In, filter_In. rewrite <-list_elem_of_In, elem_of_rows_in. split; [by exists key|done]. }
    intros y Hy. unfold always in Hy. destruct (CC_Started c) eqn:Hc.
    - apply elem_of_intersection in Hy as [Hy ?]. rewrite <-Hup by done. split; [by apply Hupper|done].
    - split; [|done]. rewrite Hnext. simpl. pose proof (ip_upper _ _ _ Hp) as Hu. rewrite Hc in Hu. by apply Hu, Hoff. }
  assert (Hfin : ∀ y, y ∈ always → String.le y (CC_AfterID c') ∨ (r = Ok tt ∧ eof = true) → y ∈ entries).
  { intros y Hy Hle. destruct (Hup' y Hy) as (Hyu & Hys & Hya). apply elem_of_active_incidents in Hys as (row & key & Hkey & Hw & Ho & <-).
    assert (Hin : N_ID row ∈ N_ID <$> List.filter (incident_wanted (K_through k)) (rows_in (incidents (W_incidents x)))).
    { apply list_elem_of_fmap. exists row. split; [done|]. apply list_elem_of_In, filter_In. rewrite <-list_elem_of_In, elem_of_rows_in. split; [by exists key|done]. }
    rewrite Hids in Hor. destruct (id_page_places _ _ _ (CC_AfterID c') (N_ID row) Hp) as [Hold|[Hpage|[Hfull Hlt]]]; [intros Hc; by rewrite Hup|done|done| | |].
    - destruct (CC_Started c) eqn:Hc; [apply Hsub, Hfound; [by apply Hya|by right]|]. exfalso. rewrite (Hfresh eq_refl) in Hold. simpl in Hold.
      apply (ip_named _ _ _ Hp). by replace "" with (N_ID row) by (apply (anti_symm String.le); [done|apply str_empty_le]).
    - rewrite <-Hids in Hpage. apply list_elem_of_fmap in Hpage as (q & Hqid & Hq0). pose proof (Hrows q Hq0) as (row' & Hrow' & Hw' & ->). simpl in Hqid.
      pose proof (map_Forall_lookup_1 _ _ _ _ (wo_incidents x Hx) Hkey) as Hkid. simpl in Hkid. rewrite <-Hkid, Hqid in Hkey. assert (row' = row) as -> by congruence.
      apply (Hnew (correlationIncident row)); simpl; [done|done| |destruct Hle as [?|[? _]]; [by left|by right]].
      unfold incident_wanted in Hw. by apply andb_true_iff in Hw as [? _].
    - exfalso. destruct Hle as [Hle|[_ Hd]]; [apply str_lt_false in Hle; congruence|]. rewrite Heof in Hd. apply Nat.ltb_lt in Hd. lia. }
  assert (Hafter : String.le (CC_AfterID c') (CC_UpperID next)).
  { destruct Hor as [->|Hin]; [by apply str_lt_false|]. rewrite Hids in Hin. rewrite Hnext. by eapply id_page_upper. }
  assert (Hsw' : ∀ s, s ∈ queue → sweep_inv (K_events k) s ∧ window_ok digest s) by (by eapply extends_sweeps).
  assert (Hgo : ∀ ph, correlator_inv (MkCorrelator ph c' (K_through k) queue entries (K_finished k) (K_idle k) (K_events k) always)).
  { intros ph. constructor; simpl; try done; [by rewrite Hcs, Hst|by rewrite Hcu|intros y _ Hy; rewrite Hcu; by apply Hup'|].
    intros y Hy [Hns|Hle]; [by rewrite Hcs, Hst in Hns|]. apply Hfin; [done|by left]. }
  destruct r as [[]|e]; [|apply Hgo]. destruct eof; [|apply Hgo]. constructor; simpl; try done. intros y Hy _. apply Hfin; [done|by right].
Qed.
End queue.

(** ** Runs *)

Section runs.
Context `{MapRange} (digest : IncidentCorrelationScope → time → string).
Hypothesis digest_collision_free : ∀ q q' f f', digest q f = digest q' f' → f = f'.

Definition event_ok (e : correlator_event) : Prop :=
  match e with Discover _ x => world_ok x | Turn t => ∀ n, world_ok (T_world t n) | _ => True end.

Lemma inv_phase p k : correlator_inv digest k → correlator_inv digest (in_phase p k).
Proof. intros [H1 H2 H3 H4 H5 H6]. by constructor. Qed.

(** What a turn does to the timeline, and that it keeps the invariant. *)
Lemma take_turn_spec t k sweep rest :
  (∀ n, world_ok (T_world t n)) → K_queue k = sweep :: rest → correlator_inv digest k →
  let k' := take_turn digest t k sweep rest in
  correlator_inv digest k' ∧ kept (K_events k) (K_events k') ∧ (∀ key, K_events k' !! key ≠ K_events k !! key → justified t key) ∧
  (K_queue k' = rest ∨ ∃ sweep', K_queue k' = rest ++ [sweep']).
Proof.
  intros Hw Hq Hk. pose proof Hk as [Hsw Hqd Hfresh Horder Hupper Hfound]. rewrite Hq in Hsw, Hqd. unfold take_turn. cbv zeta.
  assert (Hrot : ∀ sweep' finished idle events, SW_id sweep' = SW_id sweep → sweep_inv events sweep' → window_ok digest sweep' → kept (K_events k) events →
    correlator_inv digest (MkCorrelator Working (K_discovery k) (K_through k) (rest ++ [sweep']) (K_entries k) finished idle events (K_always k))).
  { intros sweep' finished idle events Hid Hinv Hwin Hkept. constructor; simpl; try done; [|by eapply queued_rotated].
    intros s [Hs| ->%list_elem_of_singleton]%elem_of_app; [|done]. destruct (Hsw s ltac:(by right)). split; [by eapply sweep_inv_kept|done]. }
  assert (Hrem : correlator_inv digest (MkCorrelator Working (K_discovery k) (K_through k) rest (K_entries k ∖ {[SW_id sweep]}) (K_finished k) 0 (K_events k) (K_always k ∖ {[SW_id sweep]}))).
  { constructor; simpl; try done; [intros s Hs; apply Hsw; by right|by apply queued_removed|intros x Hs [Hx _]%elem_of_difference; by apply Hupper|].
    intros x [Hx Hne]%elem_of_difference Hle. apply elem_of_difference. split; [by apply Hfound|done]. }
  destruct (Hsw sweep ltac:(by left)) as [Hinv Hwin]. assert (Hkept0 : kept (K_events k) (K_events k)) by (by intros key).
  case_bool_decide; [split; [by apply Hrot|]; split; [done|]; split; [done|]; right; by eexists|].
  destruct (ReadIncidentCorrelation _ _ _) as [[inc|]|e] eqn:Hread; [|split; [done|]; split; [done|]; split; [done|]; by left|
    split; [by apply Hrot|]; split; [done|]; split; [done|]; right; by eexists].
  destruct (is_active (CI_Status inc)) eqn:Hact; [|split; [done|]; split; [done|]; split; [done|]; by left].
  pose proof (slice_spec digest t inc sweep (K_events k) digest_collision_free Hw Hwin Hinv Hread Hact) as Hslice.
  destruct (correlateIncidentSlice _ _ _ _ _) as [[sweep' events] r]. destruct Hslice as (Hid & Hwin' & Hinv' & Hkept & Hch).
  split; [by apply Hrot|]. split; [done|]. split; [done|]. right. by eexists.
Qed.

Lemma correlator_step_inv e k k' : event_ok e → correlator_inv digest k → correlator_step digest e k = Some k' → correlator_inv digest k'.
Proof.
  intros He Hk Hs. unfold correlator_step in Hs. destruct e, (K_phase k); try done.
  - injection Hs as <-. by destruct Hk; constructor.
  - injection Hs as <-. by apply discover_page_inv.
  - injection Hs as <-. by apply inv_phase.
  - destruct (K_queue k) as [|sweep rest] eqn:Hq; [done|]. destruct (_ <? _)%nat; [|done]. injection Hs as <-. by apply take_turn_spec.
  - injection Hs as <-. by apply inv_phase.
Qed.

Lemma correlator_run_app l1 l2 k : correlator_run digest (l1 ++ l2) k = k1 ← correlator_run digest l1 k; correlator_run digest l2 k1.
Proof. revert k. induction l1 as [|e l1 IH]; intros k; [done|]. simpl. destruct (correlator_step digest e k); simpl; [apply IH|done]. Qed.

Lemma correlator_run_inv l k : Forall event_ok l → correlator_run digest l new_correlator = Some k → correlator_inv digest k.
Proof.
  assert (Hgen : ∀ l k0, Forall event_ok l → correlator_inv digest k0 → correlator_run digest l k0 = Some k → correlator_inv digest k).
  { clear l. induction l as [|e l IH]; intros k0 Hl Hk0; simpl; [by intros [= <-]|]. apply Forall_cons in Hl as [He Hl].
    destruct (correlator_step digest e k0) as [k1|] eqn:Hs; [|done]. simpl. apply IH; [done|]. by eapply correlator_step_inv. }
  intros Hl. apply Hgen; [done|apply correlator_inv_init].
Qed.

(** C20: when the sweep of an incident has reached the end of its four sources, every row that was evidence at each of its reads of that source, in the scope and the window of
    the incident, is in the timeline, over any changes of the stores, and any reads and writes that failed or were repeated on the way; and when the inventory
    of incidents has been read to its end, every incident that was active at each read has a sweep. *)
Theorem correlation_complete l k :
  Forall event_ok l → correlator_run digest l new_correlator = Some k →
  (∀ s source x, s ∈ K_queue k → sweep_complete s = true → (source < sources_count)%nat → x ∈ always_at s source → event_of (K_events k) (SW_id s) source x) ∧
  (CC_Started (K_discovery k) = false → ∀ x, x ∈ K_always k → ∃ s, s ∈ K_queue k ∧ SW_id s = x).
Proof.
  intros Hl Hr. destruct (correlator_run_inv l k Hl Hr) as [Hsw [_ Hq] _ _ _ Hfound]. split.
  - intros s source x Hs Hc Hsrc Hx. destruct (Hsw s Hs) as [(_ & Hlen & _ & Hall) _]. specialize (Hall source Hsrc).
    assert (Hd : done_at s source = true).
    { unfold done_at. destruct (lookup_lt_is_Some_2 (SW_done s) source) as [b Hb]; [by rewrite Hlen|]. rewrite Hb. simpl. unfold sweep_complete in Hc. rewrite forallb_forall in Hc.
      apply (Hc b), list_elem_of_In. by eapply list_elem_of_lookup_2. }
    destruct (CC_Started (cursor_at s source)) eqn:Hst; [apply (so_seen _ _ _ _ _ _ Hall); auto|].
    destruct (so_fresh _ _ _ _ _ _ Hall Hst) as [_ ?]. congruence.
  - intros Hst x Hx. assert (He : x ∈ K_entries k) by (apply Hfound; [done|by left]). apply Hq, list_elem_of_fmap in He as (s & -> & Hs). by exists s.
Qed.


Definition turns (l : list correlator_event) : nat := length (List.filter (λ e, match e with Turn _ => true | _ => false end) l).

(** An incident at place p of the queue is at its front for one of the next p + 1 turns, whatever ends the ticks between them and however many incidents are found in
    the meantime: a slow or failing incident cannot hold up the others. *)
Theorem correlation_fair l k l' k' p s :
  Forall event_ok (l ++ l') → correlator_run digest l new_correlator = Some k → correlator_run digest l' k = Some k' → K_queue k !! p = Some s → (p < turns l')%nat →
  ∃ before t after k1 s1, l' = before ++ Turn t :: after ∧ correlator_run digest before k = Some k1 ∧ head (K_queue k1) = Some s1 ∧ SW_id s1 = SW_id s ∧
    (turns before <= p)%nat.
Proof.
  intros [Hl Hl']%Forall_app Hr. pose proof (correlator_run_inv l k Hl Hr) as Hk. clear Hr Hl l. revert k p s Hk Hl'.
  induction l' as [|e l' IH]; intros k p s Hk Hl' Hr Hp Ht; [unfold turns in Ht; simpl in Ht; lia|]. apply Forall_cons in Hl' as [He Hl']. simpl in Hr.
  destruct (correlator_step digest e k) as [k1|] eqn:Hs; [|done]. simpl in Hr. pose proof (correlator_step_inv e k k1 He Hk Hs) as Hk1.
  assert (Hnext : ∀ p', K_queue k1 !! p' = Some s → (p' < turns l')%nat → (p' + turns [e] <= p)%nat →
    ∃ before t after k2 s1, e :: l' = before ++ Turn t :: after ∧ correlator_run digest before k = Some k2 ∧ head (K_queue k2) = Some s1 ∧ SW_id s1 = SW_id s ∧ (turns before <= p)%nat).
  { intros p' Hp' Ht' Hle. destruct (IH k1 p' s Hk1 Hl' Hr Hp' Ht') as (before & t & after & k2 & s1 & -> & Hb & Hh & Hid & Hn).
    exists (e :: before), t, after, k2, s1. split; [done|]. split; [simpl; by rewrite Hs|]. split; [done|]. split; [done|]. unfold turns in *. simpl. destruct e; simpl in *; lia. }
  unfold correlator_step in Hs. destruct e as [now|ctx x| |t|], (K_phase k); try done; [injection Hs as <-; by apply (Hnext p); [|unfold turns in *; simpl in *; lia|unfold turns; simpl; lia]|
    |injection Hs as <-; by apply (Hnext p); [|unfold turns in *; simpl in *; lia|unfold turns; simpl; lia]| |injection Hs as <-; by apply (Hnext p); [|unfold turns in *; simpl in *; lia|unfold turns; simpl; lia]].
  - injection Hs as <-. apply (Hnext p); [|unfold turns in *; simpl in *; lia|unfold turns; simpl; lia]. unfold discover_page.
    destruct (ReadActiveIncidentCorrelationPage _ _ _ _) as [[[rows next] eof]|] eqn:Hrd; [|done]. destruct (validateCorrelationPage _ next (length rows) eof) as [u|] eqn:Hv; [|done].
    assert (Hx : ∃ ids, (discover_rows rows (MkCorrelationCursor (CC_AfterID (K_discovery k)) (CC_UpperID next) (CC_Started next)) (K_queue k) (K_entries k)).1.1.2 = K_queue k ++ ids).
    { generalize (MkCorrelationCursor (CC_AfterID (K_discovery k)) (CC_UpperID next) (CC_Started next)) (K_queue k) (K_entries k). clear. induction rows as [|row rows IH]; intros c queue entries; simpl.
      - exists []. by rewrite app_nil_r.
      - destruct (validateCorrelationRow c (CI_ID row)); [|exists []; by rewrite app_nil_r]. destruct (negb _ && _ && _); [|apply IH].
        destruct (IH (MkCorrelationCursor (CI_ID row) (CC_UpperID c) (CC_Started c)) (queue ++ [queued_sweep (CI_ID row)]) ({[CI_ID row]} ∪ entries)) as [ids ->].
        exists ([queued_sweep (CI_ID row)] ++ ids). by rewrite (assoc_L (++)). }
    destruct (discover_rows _ _ _ _) as [[[c' queue] entries] r]. simpl in Hx. destruct Hx as [ids ->].
    destruct r as [[]|]; [destruct eof|]; simpl; by apply lookup_app_l_Some.
  - destruct (K_queue k) as [|sweep rest] eqn:Hq; [done|]. destruct (_ <? _)%nat; [|done]. injection Hs as Hs. destruct p as [|p].
    + simpl in Hp. injection Hp as ->. exists [], t, l', k, s. rewrite Hq. by split_and!.
    + destruct (take_turn_spec t k sweep rest He Hq Hk) as (_ & _ & _ & Hrest). rewrite Hs in Hrest. simpl in Hp.
      apply (Hnext p); [|unfold turns in *; simpl in *; lia|unfold turns; simpl; lia]. destruct Hrest as [->|[sweep' ->]]; [done|by apply lookup_app_l_Some].
Qed.
End runs.

(** ** A window that is never renewed

    The window of a sweep is fixed when the sweep begins. When the clock is then behind the time at which the incident was opened (it was set back, or
    another hub opened the incident), every read is refused, and the window is kept for as long as the scope of the incident does not change. *)

Section stuck.
Context `{MapRange} (digest : IncidentCorrelationScope → time → string).

Lemma window_never_renewed t inc scope sweep events :
  CI_ID inc = SW_id sweep → CI_OpenedAt inc ≠ zero_time → turn_scope t inc = Ok scope → sweep_complete sweep = false →
  SW_identity sweep = digest (pageScope scope (CI_ID inc)) (CI_OpenedAt inc) → CW_Through (SW_window sweep) ≠ zero_time → CW_Through (SW_window sweep) < CW_From (SW_window sweep) →
  is_Some (W_actions (T_world t 4%nat)) → is_Some (W_updates (T_world t 4%nat)) → is_Some (W_instances (T_world t 4%nat)) → is_Some (W_audit (T_world t 4%nat)) →
  ∃ n e, correlateIncidentSlice digest t inc sweep events = (with_next n sweep, events, Err e) ∨ correlateIncidentSlice digest t inc sweep events = (sweep, events, Ok true).
Proof.
  intros Hid Ho Hscope Hc Hident Hz Hback [? Ha] [? Hu] [? Hi] [? Hd]. unfold correlateIncidentSlice. rewrite Hid, bool_decide_eq_true_2 by done. rewrite (proj2 (Z.eqb_neq _ _) Ho). simpl.
  rewrite Hscope. unfold slice_sweep. rewrite (proj2 (Z.eqb_neq _ _) Hz), <-Hid, Hident, bool_decide_eq_true_2, Hc by done. simpl.
  destruct (next_source sweep) as [source|] eqn:Hnext; [|exists 0%nat, ErrWindow; by right]. apply next_source_ok in Hnext as [Hs _].
  assert (Hq : ∀ q c, reader_checks (T_ctx t 4%nat) (SW_window sweep) q c = Err ErrWindow).
  { intros q c. unfold reader_checks, validateCorrelationQuery. rewrite (proj2 (Z.ltb_lt _ _) Hback), !orb_true_r. done. }
  exists ((source + 1) mod sources_count)%nat, ErrWindow. left. unfold source_page. cbv zeta. change (SW_window (with_next _ sweep)) with (SW_window sweep).
  assert (Hr : ∀ q c, readCorrelationPage (T_ctx t 4%nat) source (SW_window sweep) q c (T_world t 4%nat) = Err ErrWindow).
  { intros q c. unfold readCorrelationPage. destruct source as [|[|[|[|]]]]; [rewrite Ha|rewrite Hu|rewrite Hi|rewrite Hd|unfold sources_count in Hs; lia]; unfold candidates;
      [unfold ReadActionCorrelationPage|unfold ReadUpdateCorrelationPage|unfold ReadAlertCorrelationPage|unfold ReadAuditCorrelationPage]; by rewrite Hq. }
  by rewrite Hr.
Qed.
End stuck.

(** ** Witnesses *)

#[local] Existing Instance range_in_key_order.

(** An incident of the database, an action that failed there, one that failed elsewhere, and two audit events. *)
Definition demo_incident : Incident := let z := zero_incident in {|
  N_ID := "inc_1"; N_Title := N_Title z; N_Summary := ""; N_Status := StatusOpen; N_Severity := ""; N_Source := ""; N_GroupID := ""; N_PrimaryAssetID := "db"; N_Assignee := "";
  N_CreatedBy := ""; N_OpenedAt := 100; N_MitigatedAt := None; N_ResolvedAt := None; N_ClosedAt := None; N_RootCause := ""; N_ActionItems := [];
  N_LessonsLearned := ""; N_Metadata := ∅; N_CreatedAt := 100; N_UpdatedAt := 100 |}.
Definition demo_world : world := {|
  W_incidents := MkIncidentStore {["inc_1" := demo_incident]} ∅; W_assetLinks := None; W_assets := NewMemoryAssetStore;
  W_actions := Some {["run_1" := MkActionsRun "run_1" "command" "db" StatusFailed 150; "run_2" := MkActionsRun "run_2" "command" "nas" StatusFailed 150]};
  W_updates := Some ∅; W_instances := None;
  W_audit := Some [MkAuditEvent "audit_1" "terminal.session-created" "u" "inc_1" 160; MkAuditEvent "audit_2" "login" "u" "nas" 160] |}.
Definition demo_digest (q : IncidentCorrelationScope) (from : time) : string := pretty from.
Definition demo_turn : turn := MkTurn 200 (λ _, demo_world) (λ _, None) [].
Definition demo_tick : list correlator_event := [TickStart 190; Discover None demo_world; Turn demo_turn; Turn demo_turn; Turn demo_turn; Turn demo_turn].
Definition demo_correlator : option correlator := correlator_run demo_digest demo_tick new_correlator.

Lemma demo_digest_collision_free q q' f f' : demo_digest q f = demo_digest q' f' → f = f'.
Proof. unfold demo_digest. apply (inj pretty). Qed.

Lemma demo_world_ok : world_ok demo_world.
Proof.
  constructor; simpl.
  - by apply map_Forall_singleton.
  - intros runs [= <-]. apply map_Forall_insert_2; [done|]. by apply map_Forall_singleton.
  - intros runs [= <-]. apply map_Forall_empty.
  - done.
Qed.

Lemma demo_tick_ok : Forall event_ok demo_tick.
Proof. repeat (constructor; [first [exact I|exact demo_world_ok|intros n; exact demo_world_ok]|]). constructor. Qed.

Lemma demo_correlator_runs : ∃ k s, demo_correlator = Some k ∧ K_queue k !! 0%nat = Some s ∧ sweep_complete s = true ∧ is_Some (correlator_step demo_digest (Turn demo_turn) k).
Proof.
  destruct demo_correlator as [k|] eqn:Hk; [|by vm_compute in Hk]. assert (Hq : (λ k, sweep_complete <$> K_queue k !! 0%nat) <$> demo_correlator = Some (Some true)) by (by vm_compute).
  assert (Hs : is_Some (demo_correlator ≫= correlator_step demo_digest (Turn demo_turn))) by (vm_compute; by eexists). rewrite Hk in Hq, Hs. simpl in Hq, Hs.
  destruct (K_queue k !! 0%nat) as [s|] eqn:Hs0; [|done]. exists k, s. simpl in Hq. injection Hq as Hq. split; [reflexivity|]. split; [first [reflexivity|exact Hs0]|]. split; [exact Hq|exact Hs].
Qed.

Lemma correlation_complete_witness :
  ((λ k, EV_SourceRef <$> (map_to_list (K_events k)).*2) <$> demo_correlator) = Some ["action_runs:run_1"; "audit_events:audit_1"] ∧
  ∃ k s, demo_correlator = Some k ∧ s ∈ K_queue k ∧ ∀ x, x ∈ always_at s 3 → event_of (K_events k) (SW_id s) 3 x.
Proof.
  split; [by vm_compute|]. destruct demo_correlator_runs as (k & s & Hk & Hs & Hc & _). exists k, s. split; [done|]. assert (Hin : s ∈ K_queue k) by (by eapply list_elem_of_lookup_2).
  split; [done|]. intros x Hx. refine (proj1 (correlation_complete demo_digest demo_digest_collision_free demo_tick k demo_tick_ok Hk) s 3%nat x Hin Hc _ Hx). unfold sources_count. lia.
Defined.

Lemma demo_turns_ok : Forall event_ok (demo_tick ++ [Turn demo_turn]).
Proof. apply Forall_app. split; [exact demo_tick_ok|]. constructor; [intros n; exact demo_world_ok|constructor]. Qed.


Lemma correlation_fair_witness :
  ∃ k s, demo_correlator = Some k ∧ ∃ before t after k1 s1, [Turn demo_turn] = before ++ Turn t :: after ∧ correlator_run demo_digest before k = Some k1 ∧
    head (K_queue k1) = Some s1 ∧ SW_id s1 = SW_id s ∧ (turns before <= 0)%nat.
Proof.
  destruct demo_correlator_runs as (k & s & Hk & Hs & _ & [k' Hstep]). exists k, s. split; [done|].
  refine (correlation_fair demo_digest demo_digest_collision_free demo_tick k [Turn demo_turn] k' 0 s demo_turns_ok Hk _ Hs _); [|unfold turns; simpl; lia].
  change (correlator_run demo_digest [Turn demo_turn] k) with (correlator_step demo_digest (Turn demo_turn) k ≫= λ k1, Some k1). rewrite Hstep. reflexivity.
Defined.
