(* ===== verification/Maintenance.v ===== *)
(** * Maintenance windows of groups

    The windows table of [internal/persistence/postgres_group_maintenance_store.go] with the data of [internal/groupmaintenance], the routes
    and the evaluation of [internal/hubapi/groupfeatures] ([maintenance.go], [maintenance_asset_context.go], [authorization.go]) and the
    guards of [internal/hubapi/maintenanceguard] ([guard.go], [action_error.go]) that stand in front of every action on an asset.

    The store has only a SQL version. Its tables are maps by primary key, and a query sees the rows in an order of the
    database's choice before it sorts them ([MapRange]). A handler's statements run without one of another session between them.
    The evaluation takes its stores as arguments, each of them may fail, and the theorems put them together with the tables. Two ids are compared
    with [equal_fold], which folds ASCII letters only. *)

From stdpp Require Import pretty.
From S2P Require Import Prelude GoStrings ApiKeys Assets Groups AssetAccess AlertTargets.

(** ** Data *)

Record MaintenanceWindow := MkWindow {
  W_ID : string; W_GroupID : string; W_Name : string; W_StartAt : time; W_EndAt : time;
  W_SuppressAlerts : bool; W_BlockActions : bool; W_BlockUpdates : bool; W_CreatedAt : time; W_UpdatedAt : time }.
#[export] Instance MaintenanceWindow_eq_dec : EqDecision MaintenanceWindow.
Proof. solve_decision. Defined.

(** [CreateMaintenanceWindowRequest] and [UpdateMaintenanceWindowRequest] have the same fields. *)
Record WindowRequest := MkWindowRequest {
  WR_Name : string; WR_StartAt : time; WR_EndAt : time; WR_SuppressAlerts : bool; WR_BlockActions : bool; WR_BlockUpdates : bool }.

Record GroupMaintenanceGuardrails := MkGuardrails {
  GR_GroupID : string; GR_ActiveWindows : list MaintenanceWindow; GR_SuppressAlerts : bool; GR_BlockActions : bool; GR_BlockUpdates : bool }.
#[export] Instance GroupMaintenanceGuardrails_eq_dec : EqDecision GroupMaintenanceGuardrails.
Proof. solve_decision. Defined.

(** The zero value. *)
Definition no_guardrails : GroupMaintenanceGuardrails := MkGuardrails "" [] false false false.

(** [ErrStorage] is any failure of the database, also of a constraint. *)
Inductive maintenance_error :=
| ErrGroupNotFound | ErrMaintenanceWindowNotFound | ErrStorage | ErrCtx (e : ctx_error)
| ErrAssetLookupUnavailable | ErrLookupUnavailable | ErrLookupIncomplete.
#[export] Instance maintenance_error_eq_dec : EqDecision maintenance_error.
Proof. solve_decision. Defined.

(** ** The tables *)

Record tables := MkTables {
  T_groups : gmap string Group;
  T_windows : gmap string MaintenanceWindow;
  T_assets : gmap string Asset }.

Definition groupExists (groupID : string) (t : tables) : bool := bool_decide (is_Some (T_groups t !! trim_space groupID)).

Definition put_window (w : MaintenanceWindow) (t : tables) : tables := MkTables (T_groups t) (<[W_ID w := w]> (T_windows t)) (T_assets t).

(** The row is refused when its key is taken or when [CHECK (end_at > start_at)] does not hold. *)
Definition CreateGroupMaintenanceWindow (now : time) (newid : string) (groupID : string) (req : WindowRequest) (t : tables) :
    tables * result maintenance_error MaintenanceWindow :=
  let groupID := trim_space groupID in
  if negb (groupExists groupID t) then (t, Err ErrGroupNotFound)
  else
    let w := MkWindow newid groupID (trim_space (WR_Name req)) (WR_StartAt req) (WR_EndAt req)
               (WR_SuppressAlerts req) (WR_BlockActions req) (WR_BlockUpdates req) now now in
    if bool_decide (is_Some (T_windows t !! newid)) || negb (W_StartAt w <? W_EndAt w) then (t, Err ErrStorage)
    else (put_window w t, Ok w).

(** The row with this key and this group. *)
Definition find_window (groupID windowID : string) (t : tables) : option MaintenanceWindow :=
  w ← T_windows t !! trim_space windowID;
  if decide (W_GroupID w = trim_space groupID) then Some w else None.

Definition GetGroupMaintenanceWindow (groupID windowID : string) (t : tables) : result maintenance_error (option MaintenanceWindow) :=
  match find_window groupID windowID t with
  | Some w => Ok (Some w)
  | None => if groupExists groupID t then Ok None else Err ErrGroupNotFound
  end.

(** [start_at <= at AND end_at >= at] *)
Definition active_at (at_ : time) (w : MaintenanceWindow) : bool := (W_StartAt w <=? at_) && (at_ <=? W_EndAt w).

Definition starts_before (x y : MaintenanceWindow) : Prop := W_StartAt x <= W_StartAt y.
Definition starts_after (x y : MaintenanceWindow) : Prop := W_StartAt y <= W_StartAt x.
#[export] Instance starts_before_dec : RelDecision starts_before.
Proof. intros x y. unfold starts_before. apply _. Defined.
#[export] Instance starts_after_dec : RelDecision starts_after.
Proof. intros x y. unfold starts_after. apply _. Defined.

Section store.
Context `{MapRange}.

Definition group_windows (groupID : string) (t : tables) : list MaintenanceWindow :=
  List.filter (λ w, bool_decide (W_GroupID w = groupID)) (range (T_windows t)).*2.

Definition ListGroupMaintenanceWindows (t : tables) (groupID : string) (activeAt : option time) (limit : Z) :
    result maintenance_error (list MaintenanceWindow) :=
  let groupID := trim_space groupID in
  if negb (groupExists groupID t) then Err ErrGroupNotFound
  else
    let limit := Z.to_nat (clamp_limit limit) in
    let rows := group_windows groupID t in
    Ok (match activeAt with
        | Some at_ => if at_ =? zero_time then take limit (merge_sort starts_after rows)
                      else take limit (merge_sort starts_before (List.filter (active_at at_) rows))
        | None => take limit (merge_sort starts_after rows)
        end).

Definition UpdateGroupMaintenanceWindow (now : time) (groupID windowID : string) (req : WindowRequest) (t : tables) :
    tables * result maintenance_error MaintenanceWindow :=
  match GetGroupMaintenanceWindow groupID windowID t with
  | Err e => (t, Err e)
  | Ok None => (t, Err ErrMaintenanceWindowNotFound)
  | Ok (Some w) =>
      let w := MkWindow (W_ID w) (W_GroupID w) (trim_space (WR_Name req)) (WR_StartAt req) (WR_EndAt req)
                 (WR_SuppressAlerts req) (WR_BlockActions req) (WR_BlockUpdates req) (W_CreatedAt w) now in
      if negb (W_StartAt w <? W_EndAt w) then (t, Err ErrStorage) else (put_window w t, Ok w)
  end.

Definition DeleteGroupMaintenanceWindow (groupID windowID : string) (t : tables) : tables * result maintenance_error unit :=
  match find_window groupID windowID t with
  | Some w => (MkTables (T_groups t) (delete (W_ID w) (T_windows t)) (T_assets t), Ok tt)
  | None => (t, Err (if groupExists groupID t then ErrMaintenanceWindowNotFound else ErrGroupNotFound))
  end.

(** [DELETE FROM groups]: the windows of the group go with it, and its assets lose their group. *)
Definition drop_group (id : string) (gs : gmap string Group) (t : tables) : tables :=
  MkTables gs (filter (λ kw, W_GroupID kw.2 ≠ id) (T_windows t))
    ((λ a, if decide (A_GroupID a = id)
           then {| A_ID := A_ID a; A_Type := A_Type a; A_Name := A_Name a; A_Source := A_Source a; A_GroupID := ""; A_Status := A_Status a;
                   A_Platform := A_Platform a; A_Metadata := A_Metadata a; A_CreatedAt := A_CreatedAt a; A_UpdatedAt := A_UpdatedAt a;
                   A_LastSeenAt := A_LastSeenAt a |}
           else a) <$> T_assets t).

(** ** The routes *)

(** What the authorization of a restricted principal reads: [None] when a store is missing, and in it [None] for a list that fails. *)
Abbreviation group_inventory := (option (option (list Group) * option (list Asset))).

(** [requireGroupAccess], with the status of a refusal. *)
Definition requireGroupAccess (c : context) (inv : group_inventory) (groupID : string) : option Z :=
  if negb (HasAssetRestriction c) then None
  else match inv with
       | None => Some 503
       | Some (Some groupList, Some assetList) =>
           if bool_decide (trim_space groupID ∈ AccessibleGroupIDs c groupList assetList) then None else Some 403
       | Some _ => Some 500
       end.

Inductive window_response :=
| WindowRefused (status : Z) | WindowsListed (groupID : string) (windows : list MaintenanceWindow)
| WindowCreated (w : MaintenanceWindow) | WindowShown (w : MaintenanceWindow) | WindowDeleted (groupID windowID : string).

Definition store_refusal (e : maintenance_error) : window_response :=
  match e with ErrGroupNotFound | ErrMaintenanceWindowNotFound => WindowRefused 404 | _ => WindowRefused 500 end.

(** [ParseLimit] of the query parameter, with its fallback. *)
Definition ParseLimit (raw : string) (fallback : Z) : Z :=
  let limit := if is_empty raw then fallback
               else match Atoi raw with Some n => if 0 <? n then n else fallback | None => fallback end in
  Z.min limit 1000.

(** The checks of a request body; [None] is a body that does not decode. *)
Definition clean_window (body : option WindowRequest) : option WindowRequest :=
  req ← body;
  let req := MkWindowRequest (trim_space (WR_Name req)) (WR_StartAt req) (WR_EndAt req) (WR_SuppressAlerts req) (WR_BlockActions req) (WR_BlockUpdates req) in
  if is_empty (WR_Name req) then None
  else if (WR_StartAt req =? zero_time) || (WR_EndAt req =? zero_time) || negb (WR_StartAt req <? WR_EndAt req) then None
  else Some req.

(** The requests: on the collection of a group, or on one window. *)
Inductive window_request :=
| ListWindows (active limit : string) | PostWindow (body : option WindowRequest) | OtherCollection
| GetWindow (windowID : string) | PutWindow (windowID : string) (body : option WindowRequest) | DeleteWindow (windowID : string) | OtherWindow (windowID : string).

Definition HandleGroupMaintenanceWindowsCollection (now : time) (newid : string) (c : context) (inv : group_inventory) (groupID : string)
    (q : window_request) (t : tables) : tables * window_response :=
  match requireGroupAccess c inv groupID with
  | Some status => (t, WindowRefused status)
  | None =>
      match q with
      | ListWindows active limit =>
          let activeAt := if equal_fold (trim_space active) "true" then Some now else None in
          match ListGroupMaintenanceWindows t groupID activeAt (ParseLimit limit 50) with
          | Ok windows => (t, WindowsListed groupID windows)
          | Err e => (t, store_refusal e)
          end
      | PostWindow body =>
          match clean_window body with
          | None => (t, WindowRefused 400)
          | Some req =>
              match CreateGroupMaintenanceWindow now newid groupID req t with
              | (t, Ok w) => (t, WindowCreated w)
              | (t, Err e) => (t, store_refusal e)
              end
          end
      | _ => (t, WindowRefused 405)
      end
  end.

Definition HandleGroupMaintenanceWindowActions (now : time) (c : context) (inv : group_inventory) (groupID : string)
    (q : window_request) (t : tables) : tables * window_response :=
  match requireGroupAccess c inv groupID with
  | Some status => (t, WindowRefused status)
  | None =>
      match q with
      | GetWindow windowID =>
          match GetGroupMaintenanceWindow groupID windowID t with
          | Ok (Some w) => (t, WindowShown w)
          | Ok None => (t, WindowRefused 404)
          | Err e => (t, store_refusal e)
          end
      | PutWindow windowID body =>
          match clean_window body with
          | None => (t, WindowRefused 400)
          | Some req =>
              match UpdateGroupMaintenanceWindow now groupID windowID req t with
              | (t, Ok w) => (t, WindowShown w)
              | (t, Err e) => (t, store_refusal e)
              end
          end
      | DeleteWindow windowID =>
          match DeleteGroupMaintenanceWindow groupID windowID t with
          | (t, Ok _) => (t, WindowDeleted groupID windowID)
          | (t, Err e) => (t, store_refusal e)
          end
      | _ => (t, WindowRefused 405)
      end
  end.

(** The two routes of [/groups/{id}/maintenance-windows] in [handleGroupActions]; the id [reliability] is another route, and a
    window id that is blank is not a path. *)
Definition serve_windows (now : time) (newid : string) (c : context) (inv : group_inventory) (groupID : string) (q : window_request) (t : tables) :
    tables * window_response :=
  let groupID := trim_space groupID in
  if is_empty groupID || bool_decide (groupID = "reliability") then (t, WindowRefused 404)
  else match q with
       | ListWindows _ _ | PostWindow _ | OtherCollection => HandleGroupMaintenanceWindowsCollection now newid c inv groupID q t
       | GetWindow windowID | PutWindow windowID _ | DeleteWindow windowID | OtherWindow windowID =>
           if is_empty (trim_space windowID) then (t, WindowRefused 404) else HandleGroupMaintenanceWindowActions now c inv groupID q t
       end.
End store.

(** ** Evaluation *)

Abbreviation window_lookup := (string → option time → Z → result maintenance_error (list MaintenanceWindow)).

(** The stores of [Deps]; [None] is a store that is missing, or that lacks the methods with a context. *)
Record Deps := MkDeps {
  D_GetAsset : option (string → result maintenance_error (option Asset));
  D_GetAssetContext : option (string → result maintenance_error (option Asset));
  D_GetGroup : option (string → result maintenance_error (option Group));
  D_Windows : option window_lookup;
  D_WindowsContext : option window_lookup }.

Definition merge_window (out : GroupMaintenanceGuardrails) (w : MaintenanceWindow) : GroupMaintenanceGuardrails :=
  MkGuardrails (GR_GroupID out) (GR_ActiveWindows out) (GR_SuppressAlerts out || W_SuppressAlerts w)
    (GR_BlockActions out || W_BlockActions w) (GR_BlockUpdates out || W_BlockUpdates w).

Definition groupGuardrailsWithLookup (now : time) (groupID : string) (at_ : time) (lookup : window_lookup) :
    result maintenance_error GroupMaintenanceGuardrails :=
  let groupID := trim_space groupID in
  if is_empty groupID then Ok no_guardrails
  else
    let at_ := if at_ =? zero_time then now else at_ in
    windows ← lookup groupID (Some at_) 50;
    Ok (foldl merge_window (MkGuardrails groupID windows false false false) windows).

Definition GroupGuardrails (now : time) (d : Deps) (groupID : string) (at_ : time) : result maintenance_error GroupMaintenanceGuardrails :=
  match D_Windows d with
  | None => Ok no_guardrails
  | Some lookup => groupGuardrailsWithLookup now groupID at_ lookup
  end.

(** A full page may hide further windows. *)
Definition complete_lookup (lookup : window_lookup) : window_lookup := λ id when limit,
  windows ← lookup id when limit;
  if limit <=? list_len windows then Err ErrLookupIncomplete else Ok windows.

Definition live (ctx : Ctx) : result maintenance_error unit := match ctx with Some e => Err (ErrCtx e) | None => Ok tt end.

Definition EvaluateGuardrailsContext (ctx : Ctx) (now : time) (d : Deps) (groupID : string) (at_ : time) : result maintenance_error GroupMaintenanceGuardrails :=
  _ ← live ctx;
  match D_Windows d, D_WindowsContext d with
  | None, _ => Ok no_guardrails
  | Some _, None => Err ErrLookupUnavailable
  | Some _, Some lookup => groupGuardrailsWithLookup now groupID at_ (complete_lookup lookup)
  end.

(** The group of an asset, or that of the host that its metadata names. *)
Definition asset_group (GetAsset : string → result maintenance_error (option Asset)) (a : Asset) : result maintenance_error string :=
  let groupID := trim_space (A_GroupID a) in
  if negb (is_empty groupID) then Ok groupID
  else
    let parentID := meta_trim (A_Metadata a) "agent_id" in
    if is_empty parentID || equal_fold parentID (A_ID a) then Ok ""
    else parent ← GetAsset parentID;
         Ok match parent with Some p => trim_space (A_GroupID p) | None => "" end.

Definition EvaluateAssetGuardrails (now : time) (d : Deps) (assetID : string) (at_ : time) : result maintenance_error GroupMaintenanceGuardrails :=
  let assetID := trim_space assetID in
  match D_GetAsset d with
  | None => Ok no_guardrails
  | Some GetAsset =>
      if is_empty assetID then Ok no_guardrails
      else
        found ← GetAsset assetID;
        match found with
        | None => Ok no_guardrails
        | Some a => groupID ← asset_group GetAsset a; GroupGuardrails now d groupID at_
        end
  end.

(** The context is looked at three times, with the answers [ctx0], [ctx1] and [ctx2]; the stores look at it on their own. *)
Definition EvaluateAssetGuardrailsContext (ctx0 ctx1 ctx2 : Ctx) (now : time) (d : Deps) (assetID : string) (at_ : time) :
    result maintenance_error GroupMaintenanceGuardrails :=
  _ ← live ctx0;
  let assetID := trim_space assetID in
  if is_empty assetID then Ok no_guardrails
  else match D_GetAssetContext d with
       | None => Err ErrAssetLookupUnavailable
       | Some GetAsset =>
           found ← GetAsset assetID;
           match found with
           | None => Ok no_guardrails
           | Some a =>
               groupID ← asset_group GetAsset a;
               _ ← live ctx1;
               if is_empty groupID then Ok no_guardrails else EvaluateGuardrailsContext ctx2 now d groupID at_
           end
       end.

(** The group of an action: that of its target, or the one that its parameters name. *)
Definition ResolveGroupIDForAction (d : Deps) (Target : string) (Params : gmap string string) : result maintenance_error string :=
  let target := trim_space Target in
  found ← match D_GetAsset d with
          | Some GetAsset => if is_empty target then Ok None else GetAsset target
          | None => Ok None
          end;
  let groupID := match found with Some a => trim_space (A_GroupID a) | None => "" end in
  if negb (is_empty groupID) then Ok groupID
  else
    let groupID := meta_trim Params "group_id" in
    match D_GetGroup d with
    | Some GetGroup => if is_empty groupID then Ok "" else g ← GetGroup groupID; Ok (if (g : option Group) then groupID else "")
    | None => Ok ""
    end.

(** One target of [ResolveGroupIDsForTargets]. *)
Definition target_group (d : Deps) (groupIDs : gset string) (target : string) : result maintenance_error (gset string) :=
  let trimmed := trim_space target in
  if is_empty trimmed then Ok groupIDs
  else
    found ← match D_GetAsset d with Some GetAsset => GetAsset trimmed | None => Ok None end;
    match found with
    | Some a => let groupID := trim_space (A_GroupID a) in Ok (if is_empty groupID then groupIDs else {[groupID]} ∪ groupIDs)
    | None =>
        match D_GetGroup d with
        | Some GetGroup => g ← GetGroup trimmed; Ok (if (g : option Group) then {[trimmed]} ∪ groupIDs else groupIDs)
        | None => Ok groupIDs
        end
    end.

Definition ResolveGroupIDsForTargets (d : Deps) (targets : list string) : result maintenance_error (gset string) :=
  fold_result (target_group d) ∅ targets.

(** ** Guards *)

Abbreviation EvaluateAssetFunc := (string → time → result maintenance_error GroupMaintenanceGuardrails).

(** The body of a response with status 423. *)
Record locked := MkLocked { LK_Message : string; LK_GroupID : string; LK_Windows : list MaintenanceWindow }.

(** What [enforceAssetGuardrail] does: let the action pass, or answer 500 or 423. *)
Inductive enforcement := Passed | EvaluationFailed | MaintenanceBlocked (body : locked).

Definition blocked_message : string := "actions are blocked by active maintenance windows".

Definition enforceAssetGuardrail (now : time) (assetID : string) (evaluate : option EvaluateAssetFunc) (includeUpdates : bool) : enforcement :=
  match evaluate with
  | None => Passed
  | Some evaluate =>
      match evaluate assetID now with
      | Err _ => EvaluationFailed
      | Ok g =>
          if negb (GR_BlockActions g) && (negb includeUpdates || negb (GR_BlockUpdates g)) then Passed
          else
            let message := if includeUpdates && GR_BlockUpdates g && negb (GR_BlockActions g)
                           then "updates are blocked by active maintenance windows" else blocked_message in
            MaintenanceBlocked (MkLocked message (GR_GroupID g) (GR_ActiveWindows g))
      end
  end.

Definition EnforceAssetAction (now : time) (assetID : string) (evaluate : option EvaluateAssetFunc) : enforcement :=
  enforceAssetGuardrail now assetID evaluate false.
Definition EnforceAssetUpdate (now : time) (assetID : string) (evaluate : option EvaluateAssetFunc) : enforcement :=
  enforceAssetGuardrail now assetID evaluate true.

(** An error of a check: [BlockedActionError], or that of the evaluation. *)
Inductive action_error := BlockedActionError (Guard : GroupMaintenanceGuardrails) (PublicReason : string) | EvaluationError (e : maintenance_error).

(** [BlockedActionError.Error] *)
Definition BlockedActionError_Error (Guard : GroupMaintenanceGuardrails) (PublicReason : string) : string :=
  let message := String.append "actions are blocked by active maintenance windows for group " (GR_GroupID Guard) in
  if negb (is_empty PublicReason) then String.append message (String.append "; " PublicReason) else message.

(** The loop of [CheckAssetActions]. *)
Fixpoint check_targets (evaluate : EvaluateAssetFunc) (at_ : time) (seen : gset string) (targets : list string) : result action_error unit :=
  match targets with
  | [] => Ok tt
  | target :: targets =>
      let target := trim_space target in
      if is_empty target || bool_decide (target ∈ seen) then check_targets evaluate at_ seen targets
      else match evaluate target at_ with
           | Err e => Err (EvaluationError e)
           | Ok g => if GR_BlockActions g then Err (BlockedActionError g "") else check_targets evaluate at_ ({[target]} ∪ seen) targets
           end
  end.

Definition CheckAssetActions (now : time) (targets : list string) (evaluate : option EvaluateAssetFunc) : result action_error unit :=
  match evaluate with None => Ok tt | Some evaluate => check_targets evaluate now ∅ targets end.

(** The response to a typed refusal; [None] for other errors, which stay with the caller. *)
Definition WriteBlockedAction (e : action_error) : option locked :=
  match e with
  | BlockedActionError g reason =>
      let message := if negb (is_empty reason) then String.append blocked_message (String.append "; " reason) else blocked_message in
      Some (MkLocked message (GR_GroupID g) (GR_ActiveWindows g))
  | EvaluationError _ => None
  end.

(** ** What the evaluation answers *)

Section exact.
Context `{MapRange}.

(** The answers that a store gives are those of the tables; it may also fail. *)
Definition reads_assets (GetAsset : string → result maintenance_error (option Asset)) (t : tables) : Prop :=
  ∀ id found, GetAsset id = Ok found → found = T_assets t !! id.
Definition reads_windows (lookup : window_lookup) (t : tables) : Prop :=
  ∀ groupID at_ limit windows, lookup groupID at_ limit = Ok windows → ListGroupMaintenanceWindows t groupID at_ limit = Ok windows.

(** Stores that do not fail. *)
Definition deps_of (t : tables) : Deps :=
  MkDeps (Some (λ id, Ok (T_assets t !! id))) (Some (λ id, Ok (T_assets t !! id))) (Some (λ id, Ok (T_groups t !! trim_space id)))
    (Some (ListGroupMaintenanceWindows t)) (Some (ListGroupMaintenanceWindows t)).

(** The group whose windows govern an asset: its own, or that of its host. *)
Inductive governs (t : tables) (assetID groupID : string) : Prop :=
| own_group a : T_assets t !! assetID = Some a → trim_space (A_GroupID a) = groupID → groupID ≠ "" → governs t assetID groupID
| host_group a host : T_assets t !! assetID = Some a → trim_space (A_GroupID a) = "" → meta_trim (A_Metadata a) "agent_id" ≠ "" →
    equal_fold (meta_trim (A_Metadata a) "agent_id") (A_ID a) = false →
    T_assets t !! meta_trim (A_Metadata a) "agent_id" = Some host → trim_space (A_GroupID host) = groupID → groupID ≠ "" →
    governs t assetID groupID.

(** A window of the group is open at the moment. *)
Definition in_force (t : tables) (groupID : string) (at_ : time) (w : MaintenanceWindow) : Prop :=
  (∃ id, T_windows t !! id = Some w) ∧ W_GroupID w = groupID ∧ W_StartAt w <= at_ <= W_EndAt w.

(** Some window with the flag governs the asset at the moment. *)
Definition governed_by (flag : MaintenanceWindow → bool) (t : tables) (assetID : string) (at_ : time) : Prop :=
  ∃ groupID w, governs t assetID groupID ∧ in_force t groupID at_ w ∧ flag w = true.

Definition open_windows (t : tables) (groupID : string) (at_ : time) : list MaintenanceWindow :=
  List.filter (active_at at_) (group_windows groupID t).

Lemma elem_of_open t groupID at_ w : w ∈ open_windows t groupID at_ ↔ in_force t groupID at_ w.
Proof.
  unfold open_windows, group_windows, in_force, active_at. rewrite !list_elem_of_In, !filter_In, <-list_elem_of_In, elem_of_range_values.
  rewrite bool_decide_eq_true, andb_true_iff, !Z.leb_le. tauto.
Qed.

Lemma list_open t groupID at_ limit windows :
  at_ ≠ zero_time → ListGroupMaintenanceWindows t groupID (Some at_) limit = Ok windows ↔
  groupExists groupID t = true ∧ windows = take (Z.to_nat (clamp_limit limit)) (merge_sort starts_before (open_windows t (trim_space groupID) at_)).
Proof.
  intros Hz. unfold ListGroupMaintenanceWindows, groupExists. rewrite trim_space_idemp. apply Z.eqb_neq in Hz. rewrite Hz.
  destruct (bool_decide _); simpl; [|naive_solver]. split; [by intros [= <-]|by intros [_ ->]].
Qed.

(** The flags of a list of windows. *)
Lemma merge_windows l out :
  let g := foldl merge_window out l in
  GR_GroupID g = GR_GroupID out ∧ GR_ActiveWindows g = GR_ActiveWindows out ∧
  GR_SuppressAlerts g = GR_SuppressAlerts out || existsb W_SuppressAlerts l ∧
  GR_BlockActions g = GR_BlockActions out || existsb W_BlockActions l ∧ GR_BlockUpdates g = GR_BlockUpdates out || existsb W_BlockUpdates l.
Proof.
  cbv zeta. revert out. induction l as [|w l IH]; intros out; simpl; [by rewrite !orb_false_r|]. destruct (IH (merge_window out w)) as (-> & -> & -> & -> & ->).
  cbn. by rewrite !orb_assoc.
Qed.

(** The guardrails of a list of windows: their flags are those of the windows, and they show them. *)
Definition shows (g : GroupMaintenanceGuardrails) (windows : list MaintenanceWindow) : Prop :=
  GR_ActiveWindows g = windows ∧ GR_SuppressAlerts g = existsb W_SuppressAlerts windows ∧
  GR_BlockActions g = existsb W_BlockActions windows ∧ GR_BlockUpdates g = existsb W_BlockUpdates windows.

Lemma shows_none : shows no_guardrails [].
Proof. done. Qed.

Lemma guardrails_ok now groupID at_ lookup g :
  groupGuardrailsWithLookup now groupID at_ lookup = Ok g →
  (trim_space groupID = "" ∧ g = no_guardrails) ∨
  ∃ windows, trim_space groupID ≠ "" ∧ lookup (trim_space groupID) (Some (if at_ =? zero_time then now else at_)) 50 = Ok windows ∧
    GR_GroupID g = trim_space groupID ∧ shows g windows.
Proof.
  unfold groupGuardrailsWithLookup. case_bool_decide as He; [intros [= <-]; by left|]. intros (windows & Hw & [= <-])%bind_Ok.
  right. exists windows. destruct (merge_windows windows (MkGuardrails (trim_space groupID) windows false false false)) as (? & ? & ? & ? & ?).
  do 2 (split; [done|]). split; [done|]. done.
Qed.

Lemma complete_ok lookup id when limit windows :
  complete_lookup lookup id when limit = Ok windows → lookup id when limit = Ok windows ∧ list_len windows < limit.
Proof. unfold complete_lookup. intros (w & Hw & Hif)%bind_Ok. case_if_in Hif; [done|]. injection Hif as <-. bool_prop. done. Qed.

Lemma governs_inv t assetID a g :
  T_assets t !! assetID = Some a →
  governs t assetID g ↔ g ≠ "" ∧ (trim_space (A_GroupID a) = g ∨ trim_space (A_GroupID a) = "" ∧ meta_trim (A_Metadata a) "agent_id" ≠ "" ∧
    equal_fold (meta_trim (A_Metadata a) "agent_id") (A_ID a) = false ∧
    ∃ host, T_assets t !! meta_trim (A_Metadata a) "agent_id" = Some host ∧ trim_space (A_GroupID host) = g).
Proof.
  intros Ha. split.
  - intros [a' Ha' Hg Hne|a' host Ha' He Hm Hf Hh Hg Hne]; rewrite Ha in Ha'; injection Ha' as <-; split; try done; [by left|].
    right. do 3 (split; [done|]). by exists host.
  - intros [Hne [Hg|(He & Hm & Hf & host & Hh & Hg)]]; [by eapply own_group|by eapply host_group].
Qed.

Lemma asset_group_ok GetAsset t a assetID groupID :
  reads_assets GetAsset t → T_assets t !! assetID = Some a → asset_group GetAsset a = Ok groupID →
  trim_space groupID = groupID ∧ ∀ g, governs t assetID g ↔ g = groupID ∧ g ≠ "".
Proof.
  intros Hr Ha Hok. split.
  { revert Hok. unfold asset_group. case_bool_decide; simpl; [|intros [= <-]; apply trim_space_idemp].
    destruct (_ || _); [by intros [= <-]|]. intros (p & _ & [= <-])%bind_Ok. destruct p; [apply trim_space_idemp|done]. }
  intros g. rewrite (governs_inv _ _ _ _ Ha). revert Hok. unfold asset_group. case_bool_decide as He; simpl.
  - rewrite He. case_bool_decide as Hp; simpl; [intros [= <-]; intuition congruence|].
    destruct (equal_fold _ _) eqn:Hf; [intros [= <-]; intuition congruence|].
    intros (p & Hg & [= <-])%bind_Ok. apply Hr in Hg as ->. split.
    + intros [Hne [<-|(_ & _ & _ & host & -> & <-)]]; done.
    + intros [-> Hne]. split; [done|]. right. do 3 (split; [done|]). revert Hne. destruct (T_assets t !! meta_trim _ _) as [host|]; [intros _; by exists host|done].
  - intros [= <-]. split; [|naive_solver]. intros [? [?|[? _]]]; [done|congruence].
Qed.

(** ** The evaluation with a context *)

(** What an evaluation saw: no governing group, or the governing group and its [windows]. *)
Definition saw (t : tables) (assetID : string) (g : GroupMaintenanceGuardrails) (windows : list MaintenanceWindow) : Prop :=
  shows g windows ∧
  ((∀ gid, ¬ governs t assetID gid) ∧ windows = [] ∨
   governs t assetID (GR_GroupID g) ∧ ∀ gid, governs t assetID gid → gid = GR_GroupID g).

Lemma saw_none t assetID : (∀ gid, ¬ governs t assetID gid) → saw t assetID no_guardrails [].
Proof. intros Hn. split; [apply shows_none|by left]. Qed.

Lemma not_stored t assetID gid : T_assets t !! assetID = None → ¬ governs t assetID gid.
Proof. intros Ha [a Ha' ? ?|a' host Ha' _ _ _ _ _ _]; congruence. Qed.


(** Both evaluations have this shape, with their own continuation. *)
Lemma evaluation_saw GetAsset t assetID found (cont : string → result maintenance_error GroupMaintenanceGuardrails) g lookup now at_ :
  reads_assets GetAsset t → GetAsset assetID = Ok found →
  (∀ gid g, cont gid = Ok g → gid = "" ∧ g = no_guardrails ∨ groupGuardrailsWithLookup now gid at_ lookup = Ok g) →
  (match found with None => Ok no_guardrails | Some a => gid ← asset_group GetAsset a; cont gid end) = Ok g →
  ∃ windows, saw t assetID g windows ∧
    ((∀ gid, ¬ governs t assetID gid) ∨ lookup (GR_GroupID g) (Some (if at_ =? zero_time then now else at_)) 50 = Ok windows).
Proof.
  intros Hr Hf Hcont Hok. apply Hr in Hf. destruct found as [a|].
  - symmetry in Hf. apply bind_Ok in Hok as (gid & Hgid & Hok). destruct (asset_group_ok _ _ _ _ _ Hr Hf Hgid) as [Htrim Hgov].
    assert (Hcases : gid = "" ∧ g = no_guardrails ∨ gid ≠ "" ∧ ∃ windows,
      lookup gid (Some (if at_ =? zero_time then now else at_)) 50 = Ok windows ∧ GR_GroupID g = gid ∧ shows g windows).
    { apply Hcont in Hok as [?|Hok]; [by left|]. apply guardrails_ok in Hok as [?|(windows & Hw)]; rewrite Htrim in *; [by left|]. right. naive_solver. }
    destruct Hcases as [[-> ->]|(Hne & windows & Hl & Hgr & Hs)].
    + assert (Hn : ∀ gid, ¬ governs t assetID gid) by (intros gid [-> ?]%Hgov; done). exists []. split; [by apply saw_none|by left].
    + exists windows. rewrite Hgr. split; [|by right]. split; [done|]. right. rewrite Hgr. split; [by apply Hgov|]. by intros g' [-> _]%Hgov.
  - injection Hok as <-. exists []. split; [apply saw_none|left]; intros gid; by apply not_stored.
Qed.

Lemma governs_trimmed t assetID gid : governs t assetID gid → trim_space gid = gid ∧ gid ≠ "".
Proof. intros [a _ <- ?|a host _ _ _ _ _ <- ?]; split; by rewrite ?trim_space_idemp. Qed.

(** The guardrails say exactly what the windows of the asset say. *)
Definition guardrails_exact (t : tables) (assetID : string) (at_ : time) (g : GroupMaintenanceGuardrails) : Prop :=
  (GR_BlockActions g = true ↔ governed_by W_BlockActions t assetID at_) ∧
  (GR_BlockUpdates g = true ↔ governed_by W_BlockUpdates t assetID at_) ∧
  (GR_SuppressAlerts g = true ↔ governed_by W_SuppressAlerts t assetID at_) ∧
  ∀ w, w ∈ GR_ActiveWindows g ↔ ∃ gid, governs t assetID gid ∧ in_force t gid at_ w.

Lemma saw_flag t assetID at_ g windows flag :
  saw t assetID g windows → (∀ gid, governs t assetID gid → ∀ w, w ∈ windows ↔ in_force t gid at_ w) →
  existsb flag windows = true ↔ governed_by flag t assetID at_.
Proof.
  intros [_ [[Hn ->]|[Hg _]]] Hin; rewrite existsb_elem.
  - split; [by intros (w & ?%not_elem_of_nil & _)|]. intros (gid & w & Hgov & _). by apply Hn in Hgov.
  - split.
    + intros (w & Hw & Hf). exists (GR_GroupID g), w. by rewrite <-(Hin _ Hg).
    + intros (gid & w & Hgov & Hw & Hf). exists w. by rewrite (Hin _ Hgov).
Qed.

Lemma saw_exact t assetID at_ g windows :
  saw t assetID g windows → (∀ gid, governs t assetID gid → ∀ w, w ∈ windows ↔ in_force t gid at_ w) → guardrails_exact t assetID at_ g.
Proof.
  intros Hs Hin. unfold guardrails_exact. pose proof Hs as [(Ha & -> & -> & ->) Hcases]. do 3 (split; [by eapply saw_flag|]). intros w. rewrite Ha. split.
  - intros Hw. destruct Hcases as [[_ ->]|[Hg _]]; [by apply not_elem_of_nil in Hw|]. exists (GR_GroupID g). by rewrite <-(Hin _ Hg).
  - intros (gid & Hgov & Hw). by apply (Hin _ Hgov).
Qed.

(** The windows that a lookup with limit 50 shows. *)
Definition first_windows (t : tables) (groupID : string) (at_ : time) : list MaintenanceWindow :=
  take 50 (merge_sort starts_before (open_windows t groupID at_)).

Lemma lookup_first lookup t gid at_ now windows :
  reads_windows lookup t → at_ ≠ zero_time → trim_space gid = gid →
  lookup gid (Some (if at_ =? zero_time then now else at_)) 50 = Ok windows → windows = first_windows t gid at_.
Proof.
  intros Hr Hz Htrim Hl. apply Hr in Hl. assert (Hz' := Hz). apply Z.eqb_neq in Hz'. rewrite Hz' in Hl. apply list_open in Hl as [_ ->]; [|done].
  by rewrite Htrim.
Qed.

Lemma first_all t gid at_ : (length (open_windows t gid at_) ≤ 50)%nat → first_windows t gid at_ ≡ₚ open_windows t gid at_.
Proof. intros Hl. unfold first_windows. rewrite take_ge by (by rewrite merge_sort_Permutation). apply merge_sort_Permutation. Qed.

Lemma length_first t gid at_ : length (first_windows t gid at_) = (50 `min` length (open_windows t gid at_))%nat.
Proof. unfold first_windows. by rewrite length_take, merge_sort_Permutation. Qed.

#[local] Instance starts_before_trans : Transitive starts_before.
Proof. intros x y z. unfold starts_before. lia. Qed.
#[local] Instance starts_before_total : Total starts_before.
Proof. intros x y. unfold starts_before. lia. Qed.

(** A window that is open and not shown starts no earlier than the fifty that are. *)
Lemma not_shown t gid at_ w :
  in_force t gid at_ w → w ∉ first_windows t gid at_ →
  length (first_windows t gid at_) = 50%nat ∧ ∀ w', w' ∈ first_windows t gid at_ → W_StartAt w' <= W_StartAt w.
Proof.
  intros Hw Hn. set (sorted := merge_sort starts_before (open_windows t gid at_)).
  assert (Hin : w ∈ drop 50 sorted).
  { apply elem_of_open in Hw. rewrite <-(merge_sort_Permutation starts_before) in Hw. fold sorted in Hw.
    rewrite <-(take_drop 50 sorted) in Hw. by apply elem_of_app in Hw as [?|?]. }
  split.
  - unfold first_windows. fold sorted. rewrite length_take. assert (0 < length (drop 50 sorted))%nat; [|rewrite length_drop in *; lia].
    destruct (drop 50 sorted); [by apply not_elem_of_nil in Hin|simpl; lia].
  - intros w' Hw'. assert (Hs : StronglySorted starts_before (take 50 sorted ++ drop 50 sorted)).
    { rewrite take_drop. unfold sorted. apply (StronglySorted_merge_sort starts_before). }
    by eapply (StronglySorted_app_1_elem_of starts_before).
Qed.

Lemma in_first t gid at_ w : w ∈ first_windows t gid at_ → in_force t gid at_ w.
Proof. intros Hw%elem_of_take_sub. by rewrite merge_sort_Permutation, elem_of_open in Hw. Qed.

(** The two evaluations. *)
Lemma context_saw ctx0 ctx1 ctx2 now d t assetID at_ g GetAsset lookup :
  D_GetAssetContext d = Some GetAsset → reads_assets GetAsset t → is_Some (D_Windows d) → D_WindowsContext d = Some lookup → reads_windows lookup t →
  trim_space assetID ≠ "" → at_ ≠ zero_time → EvaluateAssetGuardrailsContext ctx0 ctx1 ctx2 now d assetID at_ = Ok g →
  ∃ windows, saw t (trim_space assetID) g windows ∧
    ∀ gid, governs t (trim_space assetID) gid → windows = first_windows t gid at_ ∧ (length windows < 50)%nat.
Proof.
  intros HG Hra [lookup0 H0] HL Hrl Hne Hz. unfold EvaluateAssetGuardrailsContext. rewrite HG. intros ([] & _ & Hok)%bind_Ok.
  rewrite bool_decide_eq_false_2 in Hok by done. apply bind_Ok in Hok as (found & Hf & Hok).
  eapply (evaluation_saw _ _ _ _ _ _ (complete_lookup lookup) now at_) in Hok as (windows & Hs & Hw); [|done..|].
  - exists windows. split; [done|]. intros gid Hgov. destruct (governs_trimmed _ _ _ Hgov) as [Htrim _].
    destruct Hw as [Hn|Hw]; [by apply Hn in Hgov|]. destruct Hs as [_ [[Hn _]|[_ Huniq]]]; [by apply Hn in Hgov|]. rewrite <-(Huniq _ Hgov) in Hw.
    apply complete_ok in Hw as [Hl Hlt]. split; [by eapply lookup_first|]. unfold list_len in Hlt. lia.
  - intros gid g' ([] & _ & Hc)%bind_Ok. case_bool_decide as He; [injection Hc as <-; by left|]. right.
    unfold EvaluateGuardrailsContext in Hc. apply bind_Ok in Hc as ([] & _ & Hc). by rewrite H0, HL in Hc.
Qed.

Lemma plain_saw now d t assetID at_ g GetAsset lookup :
  D_GetAsset d = Some GetAsset → reads_assets GetAsset t → D_Windows d = Some lookup → reads_windows lookup t →
  trim_space assetID ≠ "" → at_ ≠ zero_time → EvaluateAssetGuardrails now d assetID at_ = Ok g →
  ∃ windows, saw t (trim_space assetID) g windows ∧ ∀ gid, governs t (trim_space assetID) gid → windows = first_windows t gid at_.
Proof.
  intros HG Hra HL Hrl Hne Hz. unfold EvaluateAssetGuardrails. rewrite HG. rewrite bool_decide_eq_false_2 by done.
  intros (found & Hf & Hok)%bind_Ok. eapply (evaluation_saw _ _ _ _ _ _ lookup now at_) in Hok as (windows & Hs & Hw); [|done..|].
  - exists windows. split; [done|]. intros gid Hgov. destruct (governs_trimmed _ _ _ Hgov) as [Htrim _].
    destruct Hw as [Hn|Hw]; [by apply Hn in Hgov|]. destruct Hs as [_ [[Hn _]|[_ Huniq]]]; [by apply Hn in Hgov|]. rewrite <-(Huniq _ Hgov) in Hw.
    by eapply lookup_first.
  - intros gid g' Hc. right. unfold GroupGuardrails in Hc. by rewrite HL in Hc.
Qed.

(** The evaluation for a group, as the alerts ask it. *)
Lemma group_context_exact ctx now d t groupID at_ g lookup :
  is_Some (D_Windows d) → D_WindowsContext d = Some lookup → reads_windows lookup t → trim_space groupID ≠ "" → at_ ≠ zero_time →
  EvaluateGuardrailsContext ctx now d groupID at_ = Ok g →
  GR_SuppressAlerts g = true ↔ ∃ w, in_force t (trim_space groupID) at_ w ∧ W_SuppressAlerts w = true.
Proof.
  intros [lookup0 HW] HL Hrl Hne Hz. unfold EvaluateGuardrailsContext. rewrite HW, HL. intros ([] & _ & Hok)%bind_Ok.
  apply guardrails_ok in Hok as [[? _]|(windows & _ & Hl & _ & _ & -> & _)]; [done|]. apply complete_ok in Hl as [Hl Hlt].
  eapply lookup_first in Hl; [|done|done|apply trim_space_idemp]. subst windows. rewrite existsb_elem. unfold list_len in Hlt. rewrite length_first in Hlt.
  assert (Hin : ∀ w, w ∈ first_windows t (trim_space groupID) at_ ↔ in_force t (trim_space groupID) at_ w)
    by (intros w; by rewrite first_all, elem_of_open by lia). by setoid_rewrite Hin.
Qed.

Lemma plain_exact now d t assetID at_ g GetAsset lookup :
  D_GetAsset d = Some GetAsset → reads_assets GetAsset t → D_Windows d = Some lookup → reads_windows lookup t →
  trim_space assetID ≠ "" → at_ ≠ zero_time → EvaluateAssetGuardrails now d assetID at_ = Ok g →
  (∀ gid, governs t (trim_space assetID) gid → (length (open_windows t gid at_) ≤ 50)%nat) → guardrails_exact t (trim_space assetID) at_ g.
Proof.
  intros HG Hra HL Hrl Hne Hz Hok Hall. destruct (plain_saw _ _ _ _ _ _ _ _ HG Hra HL Hrl Hne Hz Hok) as (windows & Hs & Hw).
  eapply saw_exact; [done|]. intros gid Hgov w. rewrite (Hw _ Hgov), first_all, elem_of_open by auto. done.
Qed.

(** Stores that answer: the evaluation with a context decides, unless the windows of the group fill the page. *)
Lemma context_answers now t assetID at_ :
  at_ ≠ zero_time →
  (∀ gid, governs t (trim_space assetID) gid → groupExists gid t = true ∧ (length (open_windows t gid at_) < 50)%nat) →
  is_ok (EvaluateAssetGuardrailsContext None None None now (deps_of t) assetID at_) = true.
Proof.
  intros Hz Hall. unfold EvaluateAssetGuardrailsContext. simpl. case_bool_decide; [done|]. destruct (T_assets t !! trim_space assetID) as [a|] eqn:Ha; simpl; [|done].
  destruct (asset_group (λ id, Ok (T_assets t !! id)) a) as [gid|e] eqn:Hg; simpl.
  - case_bool_decide as He; [done|]. destruct (asset_group_ok (λ id, Ok (T_assets t !! id)) t a (trim_space assetID) gid) as [Htrim Hgov]; [by intros ? ? [= <-]|done..|].
    destruct (Hall gid) as [Hex Hlen]; [by apply Hgov|]. unfold EvaluateGuardrailsContext, groupGuardrailsWithLookup. simpl.
    rewrite Htrim, bool_decide_eq_false_2 by done. assert (Hz' := Hz). apply Z.eqb_neq in Hz'. rewrite Hz'. unfold complete_lookup.
    destruct (ListGroupMaintenanceWindows t gid (Some at_) 50) as [windows|e] eqn:Hl; simpl.
    + apply list_open in Hl as [_ ->]; [|done]. rewrite Htrim. unfold list_len. rewrite length_take, merge_sort_Permutation.
      destruct (50 <=? _) eqn:Hle; [bool_prop; lia|done].
    + assert (ListGroupMaintenanceWindows t gid (Some at_) 50 = Ok (take (Z.to_nat (clamp_limit 50)) (merge_sort starts_before (open_windows t (trim_space gid) at_)))) by (by apply list_open).
      congruence.
  - exfalso. unfold asset_group in Hg. repeat (case_if_in Hg; [done|]). done.
Qed.

Lemma context_exact ctx0 ctx1 ctx2 now d t assetID at_ g GetAsset lookup :
  D_GetAssetContext d = Some GetAsset → reads_assets GetAsset t → is_Some (D_Windows d) → D_WindowsContext d = Some lookup → reads_windows lookup t →
  trim_space assetID ≠ "" → at_ ≠ zero_time → EvaluateAssetGuardrailsContext ctx0 ctx1 ctx2 now d assetID at_ = Ok g →
  guardrails_exact t (trim_space assetID) at_ g.
Proof.
  intros HG Hra HW HL Hrl Hne Hz Hok. destruct (context_saw _ _ _ _ _ _ _ _ _ _ _ HG Hra HW HL Hrl Hne Hz Hok) as (windows & Hs & Hw).
  eapply saw_exact; [done|]. intros gid Hgov w. destruct (Hw _ Hgov) as [-> Hlt]. rewrite length_first in Hlt. by rewrite first_all, elem_of_open by lia.
Qed.

(** The guards that ask the evaluation. *)
Lemma enforce_passes now assetID evaluate includeUpdates :
  enforceAssetGuardrail now assetID (Some evaluate) includeUpdates = Passed ↔
  ∃ g, evaluate assetID now = Ok g ∧ GR_BlockActions g = false ∧ (includeUpdates = true → GR_BlockUpdates g = false).
Proof.
  unfold enforceAssetGuardrail. destruct (evaluate assetID now) as [g|e]; [|split; [done|by intros (g & ? & _)]].
  split.
  - intros Hp. exists g. destruct (GR_BlockActions g), includeUpdates, (GR_BlockUpdates g); done.
  - intros (g' & [= <-] & -> & Hu). destruct includeUpdates; [by rewrite Hu|done].
Qed.

(** The check of several assets passes exactly when each of them, asked once, is not blocked. *)
Lemma check_targets_ok evaluate at_ seen targets :
  check_targets evaluate at_ seen targets = Ok tt ↔
  ∀ x, x ∈ targets → trim_space x ≠ "" → trim_space x ∉ seen → ∃ g, evaluate (trim_space x) at_ = Ok g ∧ GR_BlockActions g = false.
Proof.
  revert seen. induction targets as [|y targets IH]; intros seen; simpl; [split; [by intros _ x ?%not_elem_of_nil|done]|].
  setoid_rewrite elem_of_cons. case_bool_decide as He; simpl.
  { rewrite IH. split; [by intros Hall x [->|Hx]; [|by apply Hall]|by eauto]. }
  case_bool_decide as Hs; simpl.
  { rewrite IH. split; [by intros Hall x [->|Hx]; [|by apply Hall]|by eauto]. }
  destruct (evaluate (trim_space y) at_) as [g|e] eqn:Hev; [destruct (GR_BlockActions g) eqn:Hb|].
  - split; [done|]. intros Hall. destruct (Hall y) as (g' & Hg & ?); [by left|done..|]. congruence.
  - rewrite IH. split.
    + intros Hall x [->|Hx] Hne Hns; [by exists g|]. destruct (decide (trim_space x = trim_space y)) as [->|Hd]; [by exists g|]. apply Hall; [done..|set_solver].
    + intros Hall x Hx Hne Hns. apply Hall; [by right|done|set_solver].
  - split; [done|]. intros Hall. destruct (Hall y) as (g' & Hg & ?); [by left|done..|]. congruence.
Qed.

(** ** The life of the table *)

(** What the rest of the hub does to the tables: it changes groups and assets, and deletes groups. *)
Inductive table_step : tables → tables → Prop :=
| served now newid c inv groupID q t : table_step t (serve_windows now newid c inv groupID q t).1
| groups_changed gs t : dom (T_groups t) ⊆ dom gs → table_step t (MkTables gs (T_windows t) (T_assets t))
| group_deleted id gs t : dom (T_groups t) ∖ {[id]} ⊆ dom gs → table_step t (drop_group id gs t)
| assets_changed assets t : table_step t (MkTables (T_groups t) (T_windows t) assets).

Definition no_tables : tables := MkTables ∅ ∅ ∅.

Record window_ok (t : tables) (id : string) (w : MaintenanceWindow) : Prop := MkWindowOk {
  wo_id : W_ID w = id;
  wo_group : is_Some (T_groups t !! W_GroupID w);
  wo_group_trimmed : trim_space (W_GroupID w) = W_GroupID w;
  wo_times : W_StartAt w < W_EndAt w;
  wo_name : W_Name w ≠ "" ∧ trim_space (W_Name w) = W_Name w }.

Definition tables_ok (t : tables) : Prop := map_Forall (window_ok t) (T_windows t).

(** What one request does: nothing, or it puts or removes one window of the group. *)
Inductive window_change (groupID : string) (t : tables) : tables → Prop :=
| unchanged : window_change groupID t t
| window_put w : W_GroupID w = trim_space groupID → groupExists groupID t = true → W_StartAt w < W_EndAt w →
    W_Name w ≠ "" → trim_space (W_Name w) = W_Name w →
    (∀ w', T_windows t !! W_ID w = Some w' → W_GroupID w' = trim_space groupID) → window_change groupID t (put_window w t)
| window_deleted w : T_windows t !! W_ID w = Some w → W_GroupID w = trim_space groupID →
    window_change groupID t (MkTables (T_groups t) (delete (W_ID w) (T_windows t)) (T_assets t)).

Lemma clean_window_ok body req :
  clean_window body = Some req → WR_Name req ≠ "" ∧ trim_space (WR_Name req) = WR_Name req ∧ WR_StartAt req < WR_EndAt req.
Proof.
  unfold clean_window. destruct body as [b|]; simpl; [|done]. case_bool_decide as He; [done|]. destruct (_ || _) eqn:Ht; [done|]. intros [= <-].
  bool_prop. simpl. rewrite trim_space_idemp. done.
Qed.

Lemma find_window_ok groupID windowID t w :
  tables_ok t → find_window groupID windowID t = Some w → T_windows t !! W_ID w = Some w ∧ W_GroupID w = trim_space groupID.
Proof.
  unfold find_window. intros Hok. destruct (T_windows t !! trim_space windowID) as [w'|] eqn:Hw; simpl; [|done]. case_decide; [|done]. intros [= <-].
  by rewrite (wo_id _ _ _ (Hok _ _ Hw)).
Qed.

Lemma create_change now newid groupID req t :
  WR_Name req ≠ "" → trim_space (WR_Name req) = WR_Name req → window_change groupID t (CreateGroupMaintenanceWindow now newid groupID req t).1.
Proof.
  intros Hn Ht. unfold CreateGroupMaintenanceWindow. destruct (groupExists (trim_space groupID) t) eqn:Hex; simpl; [|constructor].
  case_bool_decide as Hid; simpl; [constructor|]. destruct (_ <? _) eqn:Hlt; simpl; [|constructor]. bool_prop. apply window_put; simpl; try done.
  - unfold groupExists in *. by rewrite trim_space_idemp in Hex.
  - by rewrite Ht.
  - by rewrite !Ht.
  - intros w' Hw'. by destruct Hid.
Qed.

Lemma find_exists groupID windowID t w : tables_ok t → find_window groupID windowID t = Some w → groupExists groupID t = true.
Proof. intros Hok Hf. apply (find_window_ok _ _ _ _ Hok) in Hf as [Hw Hg]. unfold groupExists. rewrite <-Hg. apply bool_decide_eq_true. by eapply wo_group, Hok. Qed.

Lemma update_change now groupID windowID req t :
  tables_ok t → WR_Name req ≠ "" → trim_space (WR_Name req) = WR_Name req → window_change groupID t (UpdateGroupMaintenanceWindow now groupID windowID req t).1.
Proof.
  intros Hok Hn Ht. unfold UpdateGroupMaintenanceWindow, GetGroupMaintenanceWindow. destruct (find_window groupID windowID t) as [w|] eqn:Hf; [|destruct (groupExists groupID t); apply unchanged].
  simpl. destruct (_ <? _) eqn:Hlt; simpl; [|constructor]. pose proof (find_exists _ _ _ _ Hok Hf) as Hex. apply (find_window_ok _ _ _ _ Hok) in Hf as [Hw Hg].
  bool_prop. apply window_put; simpl; try done; [by rewrite Ht|by rewrite !Ht|]. intros w' Hw'. rewrite Hw in Hw'. by injection Hw' as <-.
Qed.

Lemma delete_change groupID windowID t : tables_ok t → window_change groupID t (DeleteGroupMaintenanceWindow groupID windowID t).1.
Proof.
  intros Hok. unfold DeleteGroupMaintenanceWindow. destruct (find_window groupID windowID t) as [w|] eqn:Hf; [|constructor].
  apply (find_window_ok _ _ _ _ Hok) in Hf as [Hw Hg]. by apply window_deleted.
Qed.

Lemma serve_windows_change now newid c inv groupID q t :
  tables_ok t →
  window_change groupID t (serve_windows now newid c inv groupID q t).1 ∧
  (requireGroupAccess c inv (trim_space groupID) ≠ None → (serve_windows now newid c inv groupID q t).1 = t).
Proof.
  intros Hok. unfold serve_windows. case_match; [split; [constructor|done]|]. set (gid := trim_space groupID).
  assert (Htrim : ∀ t', window_change gid t t' → window_change groupID t t').
  { assert (Hg : trim_space gid = trim_space groupID) by apply trim_space_idemp. intros t' []; [constructor|apply window_put|by apply window_deleted; congruence];
      unfold groupExists in *; rewrite <-?Hg; done. }
  assert (Hcoll : ∀ q, window_change groupID t (HandleGroupMaintenanceWindowsCollection now newid c inv gid q t).1 ∧
    (requireGroupAccess c inv gid ≠ None → (HandleGroupMaintenanceWindowsCollection now newid c inv gid q t).1 = t)).
  { intros q'. unfold HandleGroupMaintenanceWindowsCollection. destruct (requireGroupAccess c inv gid); [split; [constructor|done]|]. split; [|done].
    destruct q' as [active limit|body| | | | |]; try constructor; [case_match; apply unchanged|]. destruct (clean_window body) as [req|] eqn:Hc; [|constructor].
    apply clean_window_ok in Hc as (? & ? & _). pose proof (create_change now newid gid req t) as Hch.
    destruct (CreateGroupMaintenanceWindow _ _ _ _ _) as [t' [w|e]]; by apply Htrim, Hch. }
  assert (Hact : ∀ q, window_change groupID t (HandleGroupMaintenanceWindowActions now c inv gid q t).1 ∧
    (requireGroupAccess c inv gid ≠ None → (HandleGroupMaintenanceWindowActions now c inv gid q t).1 = t)).
  { intros q'. unfold HandleGroupMaintenanceWindowActions. destruct (requireGroupAccess c inv gid); [split; [constructor|done]|]. split; [|done].
    destruct q' as [|?| |windowID|windowID body|windowID|]; try constructor.
    - repeat case_match; apply unchanged.
    - destruct (clean_window body) as [req|] eqn:Hc; [|constructor]. apply clean_window_ok in Hc as (? & ? & _).
      pose proof (update_change now gid windowID req t Hok) as Hch. destruct (UpdateGroupMaintenanceWindow _ _ _ _ _) as [t' [w|e]]; by apply Htrim, Hch.
    - pose proof (delete_change gid windowID t Hok) as Hch. destruct (DeleteGroupMaintenanceWindow _ _ _) as [t' [w|e]]; by apply Htrim, Hch. }
  destruct q; try apply Hcoll; (case_match; [split; [constructor|done]|apply Hact]).
Qed.

Lemma change_ok groupID t t' : tables_ok t → window_change groupID t t' → tables_ok t'.
Proof.
  intros Hok [|w Hg Hex Hlt Hn Ht _|w Hw Hg]; [done|..]; intros id w' Hw'; simpl in Hw'.
  - apply lookup_insert_Some in Hw' as [[<- <-]|[_ Hw']]; [|by destruct (Hok _ _ Hw')]. constructor; simpl; try done; rewrite Hg.
    + by apply bool_decide_eq_true in Hex.
    + apply trim_space_idemp.
  - apply lookup_delete_Some in Hw' as [_ Hw']. by destruct (Hok _ _ Hw').
Qed.

Lemma step_tables_ok t t' : tables_ok t → table_step t t' → tables_ok t'.
Proof.
  intros Hok Hst. revert Hok. destruct Hst as [now newid c inv groupID q t|gs t Hd|id gs t Hd|assets t]; intros Hok.
  - eapply change_ok; [done|]. by apply (serve_windows_change now newid c inv groupID q t).
  - intros k w Hw. destruct (Hok _ _ Hw) as [? Hg ? ? ?]. constructor; try done. apply elem_of_dom. apply elem_of_dom in Hg. set_solver.
  - intros k w Hw. simpl in Hw. apply map_lookup_filter_Some in Hw as [Hw Hne]. destruct (Hok _ _ Hw) as [? Hg ? ? ?]. constructor; try done.
    apply elem_of_dom. apply elem_of_dom in Hg. simpl in *. set_solver.
  - intros k w Hw. by destruct (Hok _ _ Hw).
Qed.

Lemma reachable_ok t : rtc table_step no_tables t → tables_ok t.
Proof.
  cut (∀ t0, tables_ok t0 → rtc table_step t0 t → tables_ok t).
  { intros Hc. apply Hc. intros id w Hw. simpl in Hw. by rewrite lookup_empty in Hw. }
  intros t0 Hok Hr. induction Hr; [done|]. by eauto using step_tables_ok.
Qed.

Lemma access_spec c inv groupID :
  requireGroupAccess c inv groupID = None → HasAssetRestriction c = true →
  ∃ groupList assetList, inv = Some (Some groupList, Some assetList) ∧ trim_space groupID ∈ AccessibleGroupIDs c groupList assetList.
Proof.
  unfold requireGroupAccess. intros Ha Hr. rewrite Hr in Ha. simpl in Ha. destruct inv as [[[gs|] [assetList|]]|]; try done. case_bool_decide; [|done]. by exists gs, assetList.
Qed.

Lemma change_at groupID t t' id :
  window_change groupID t t' → T_windows t' !! id ≠ T_windows t !! id →
  (∀ w, T_windows t !! id = Some w ∨ T_windows t' !! id = Some w → W_GroupID w = trim_space groupID) ∧
  ∀ id', id' ≠ id → T_windows t' !! id' = T_windows t !! id'.
Proof.
  intros [|w Hg _ _ _ _ Hold|w Hw Hg] Hne; simpl in *; [done|..].
  - assert (id = W_ID w) as -> by (destruct (decide (id = W_ID w)); [done|by rewrite lookup_insert_ne in Hne]).
    split; [|intros id' ?; by rewrite lookup_insert_ne]. intros w' [Hw'|Hw']; [by apply Hold|]. rewrite lookup_insert_eq in Hw'. by injection Hw' as <-.
  - assert (id = W_ID w) as -> by (destruct (decide (id = W_ID w)); [done|by rewrite lookup_delete_ne in Hne]).
    split; [|intros id' ?; by rewrite lookup_delete_ne]. intros w' [Hw'|Hw']; [congruence|by rewrite lookup_delete_eq in Hw'].
Qed.

Lemma change_frame groupID t t' : window_change groupID t t' → T_groups t' = T_groups t ∧ T_assets t' = T_assets t.
Proof. by intros []. Qed.

(** ** Theorems *)

(** C16: when the evaluation with a context answers, its answer is exact: actions, updates or alerts are blocked exactly if a
    window with that flag is open, with both ends included, on the group of the asset, or of its host when it has no group of its own, and the windows
    shown are all of these. This holds for stores that may fail and for contexts that may end at any point, so a failure never
    hides a window. With stores that answer it does decide, as long as the group has fewer than fifty open windows. *)
Theorem maintenance_exact d t GetAsset lookup assetID at_ now :
  D_GetAssetContext d = Some GetAsset → reads_assets GetAsset t → is_Some (D_Windows d) → D_WindowsContext d = Some lookup → reads_windows lookup t →
  trim_space assetID ≠ "" → at_ ≠ zero_time →
  (∀ ctx0 ctx1 ctx2 g, EvaluateAssetGuardrailsContext ctx0 ctx1 ctx2 now d assetID at_ = Ok g → guardrails_exact t (trim_space assetID) at_ g) ∧
  ((∀ gid, governs t (trim_space assetID) gid → groupExists gid t = true ∧ (length (open_windows t gid at_) < 50)%nat) →
   is_ok (EvaluateAssetGuardrailsContext None None None now (deps_of t) assetID at_) = true).
Proof.
  intros HG Hra HW HL Hrl Hne Hz. split; [|by apply context_answers]. intros ctx0 ctx1 ctx2 g. by eapply context_exact.
Qed.

(** C32: the evaluation without a context, which the guards of actions use, looks at the fifty open windows that start first and
    no more. What it shows is open on the group of the asset, and the flags are those of what it shows; a window that is open and not shown starts no
    earlier than the fifty that are. So the guard of actions passes exactly if none of these windows blocks, and with at
    most fifty open windows that is exactly if no open window blocks. *)
Theorem guard_sees_fifty d t GetAsset lookup assetID at_ :
  D_GetAsset d = Some GetAsset → reads_assets GetAsset t → D_Windows d = Some lookup → reads_windows lookup t →
  trim_space assetID ≠ "" → at_ ≠ zero_time →
  (EnforceAssetAction at_ assetID (Some (EvaluateAssetGuardrails at_ d)) = Passed ↔
     ∃ g, EvaluateAssetGuardrails at_ d assetID at_ = Ok g ∧ existsb W_BlockActions (GR_ActiveWindows g) = false) ∧
  (∀ g, EvaluateAssetGuardrails at_ d assetID at_ = Ok g →
    (length (GR_ActiveWindows g) ≤ 50)%nat ∧
    (∀ w, w ∈ GR_ActiveWindows g → ∃ gid, governs t (trim_space assetID) gid ∧ in_force t gid at_ w) ∧
    (∀ gid w, governs t (trim_space assetID) gid → in_force t gid at_ w → w ∉ GR_ActiveWindows g →
       length (GR_ActiveWindows g) = 50%nat ∧ ∀ w', w' ∈ GR_ActiveWindows g → W_StartAt w' <= W_StartAt w) ∧
    ((∀ gid, governs t (trim_space assetID) gid → (length (open_windows t gid at_) ≤ 50)%nat) → guardrails_exact t (trim_space assetID) at_ g)).
Proof.
  intros HG Hra HL Hrl Hne Hz. pose proof (λ g, plain_saw at_ d t assetID at_ g _ _ HG Hra HL Hrl Hne Hz) as Hsaw. split.
  { unfold EnforceAssetAction. rewrite enforce_passes. split; intros (g & Hok & Hb); exists g; (split; [done|]);
      destruct (Hsaw _ Hok) as (windows & [(Hact & _ & Hb' & _) _] & _); rewrite Hact in *; [by destruct Hb as [Hb _]; rewrite <-Hb'|].
    split; [by rewrite Hb'|done]. }
  intros g Hok. destruct (Hsaw _ Hok) as (windows & Hs & Hw). pose proof Hs as [(Hact & _) Hcases]. rewrite Hact. split; [|split; [|split]].
  - destruct Hcases as [[_ ->]|[Hg _]]; [simpl; lia|]. rewrite (Hw _ Hg), length_first. lia.
  - intros w Hin. destruct Hcases as [[_ ->]|[Hg _]]; [by apply not_elem_of_nil in Hin|]. exists (GR_GroupID g). split; [done|]. rewrite (Hw _ Hg) in Hin. by apply in_first.
  - intros gid w Hgov Hin Hn. rewrite (Hw _ Hgov) in Hn |- *. by apply not_shown.
  - by eapply plain_exact.
Qed.

(** C35: whatever requests, changes of groups and deletions have done, every window belongs to a group that exists, starts before it ends
    and has a name; and a request changes at most one window, of the group it names, and for a principal that is restricted to some assets only if every asset
    below that group is one of them. *)
Theorem window_changes_authorised t now newid c inv groupID q id :
  rtc table_step no_tables t →
  let t' := (serve_windows now newid c inv groupID q t).1 in
  tables_ok t ∧ T_groups t' = T_groups t ∧ T_assets t' = T_assets t ∧
  (T_windows t' !! id ≠ T_windows t !! id →
   (∀ w, T_windows t !! id = Some w ∨ T_windows t' !! id = Some w → W_GroupID w = trim_space groupID) ∧
   (∀ id', id' ≠ id → T_windows t' !! id' = T_windows t !! id') ∧
   (HasAssetRestriction c = true → ∃ groupList assetList, inv = Some (Some groupList, Some assetList) ∧
      trim_space groupID ∈ AccessibleGroupIDs c groupList assetList)).
Proof.
  intros Hok%reachable_ok t'. destruct (serve_windows_change now newid c inv groupID q t Hok) as [Hc Hr]. fold t' in Hc, Hr.
  split; [done|]. destruct (change_frame _ _ _ Hc) as [-> ->]. do 2 (split; [done|]). intros Hne. destruct (change_at _ _ _ _ Hc Hne) as [Hg Ho].
  do 2 (split; [done|]). intros Hres. destruct (requireGroupAccess c inv (trim_space groupID)) as [status|] eqn:Ha; [by rewrite Hr in Hne by done|].
  destruct (access_spec _ _ _ Ha Hres) as (gs & assetList & Hi & Hin). rewrite trim_space_idemp in Hin. by exists gs, assetList.
Qed.
End exact.

(** ** Witnesses *)

#[local] Instance demo_order : MapRange := range_in_key_order.

Definition demo_window_group (id : string) : Group := MkGroup id id id "" "" 0 "" "" None None ∅ "" 0 0.
Definition demo_host : Asset := {| A_ID := "host-1"; A_Type := "server"; A_Name := "host"; A_Source := "agent"; A_GroupID := "g1"; A_Status := "online";
  A_Platform := "linux"; A_Metadata := ∅; A_CreatedAt := 0; A_UpdatedAt := 0; A_LastSeenAt := 0 |}.
Definition demo_container : Asset := {| A_ID := "ct-1"; A_Type := "container"; A_Name := "ct"; A_Source := "docker"; A_GroupID := ""; A_Status := "online";
  A_Platform := ""; A_Metadata := {["agent_id" := "host-1"]}; A_CreatedAt := 0; A_UpdatedAt := 0; A_LastSeenAt := 0 |}.

Definition demo_body (block : bool) (from to : Z) : WindowRequest := MkWindowRequest " upgrade " from to false block false.
Definition demo_empty : tables := MkTables {["g1" := demo_window_group "g1"]} ∅ {["host-1" := demo_host; "ct-1" := demo_container]}.
Definition demo_tables : tables := (serve_windows 1 "w1" background None "g1" (PostWindow (Some (demo_body true 10 20))) demo_empty).1.

Lemma demo_tables_reachable : rtc table_step no_tables demo_tables.
Proof.
  eapply rtc_l; [apply (groups_changed {["g1" := demo_window_group "g1"]}); set_solver|].
  eapply rtc_l; [apply (assets_changed {["host-1" := demo_host; "ct-1" := demo_container]})|].
  eapply rtc_l; [apply (served 1 "w1" background None "g1" (PostWindow (Some (demo_body true 10 20))))|]. apply rtc_refl.
Qed.

Lemma demo_governs : governs demo_tables "ct-1" "g1".
Proof. apply (host_group _ _ _ demo_container demo_host); by vm_compute. Qed.

Lemma deps_read t : reads_assets (λ id, Ok (T_assets t !! id)) t ∧ reads_windows (ListGroupMaintenanceWindows t) t.
Proof. split; [by intros id found [= <-]|by intros groupID at_ limit windows]. Qed.

(** A container inherits the window of its host, at both ends of the window and not after it. *)
Example demo_inherits :
  EnforceAssetAction 10 "ct-1" (Some (EvaluateAssetGuardrails 10 (deps_of demo_tables))) =
    MaintenanceBlocked (MkLocked blocked_message "g1" [MkWindow "w1" "g1" "upgrade" 10 20 false true false 1 1]) ∧
  EnforceAssetAction 20 "ct-1" (Some (EvaluateAssetGuardrails 20 (deps_of demo_tables))) ≠ Passed ∧
  EnforceAssetAction 21 "ct-1" (Some (EvaluateAssetGuardrails 21 (deps_of demo_tables))) = Passed.
Proof. split; [by vm_compute|]. split; [by vm_compute|by vm_compute]. Qed.

(** Fifty windows that block nothing, and one that blocks and starts after them. *)
Definition demo_crowd : tables :=
  foldl (λ t n, (serve_windows 1 (String.append "w" (pretty n)) background None "g1" (PostWindow (Some (demo_body (bool_decide (n = 50%nat)) (Z.of_nat n + 1) 1000))) t).1)
    demo_empty (seq 0 51).

(** The guard of actions lets an action pass on an asset that a blocking window governs, and the evaluation with a context refuses to answer. *)
Example crowd_hides_window :
  EnforceAssetAction 100 "host-1" (Some (EvaluateAssetGuardrails 100 (deps_of demo_crowd))) = Passed ∧
  existsb W_BlockActions (open_windows demo_crowd "g1" 100) = true ∧
  EvaluateAssetGuardrailsContext None None None 100 (deps_of demo_crowd) "host-1" 100 = Err ErrLookupIncomplete.
Proof. split; [by vm_compute|]. split; [by vm_compute|by vm_compute]. Qed.

Lemma maintenance_exact_witness :
  ∃ g, EvaluateAssetGuardrailsContext None None None 15 (deps_of demo_tables) "ct-1" 15 = Ok g ∧ GR_BlockActions g = true ∧ governed_by W_BlockActions demo_tables "ct-1" 15.
Proof.
  destruct (deps_read demo_tables) as [Ha Hw].
  destruct (maintenance_exact (deps_of demo_tables) demo_tables _ _ "ct-1" 15 15 eq_refl Ha (ex_intro _ _ eq_refl) eq_refl Hw) as [Hex Hok]; [by vm_compute|by vm_compute|].
  destruct (EvaluateAssetGuardrailsContext None None None 15 (deps_of demo_tables) "ct-1" 15) as [g|e] eqn:He.
  - exists g. split; [done|]. destruct (Hex _ _ _ _ He) as (Hb & _). assert (Ht : GR_BlockActions g = true) by (vm_compute in He; by injection He as <-). split; [done|]. by apply Hb.
  - exfalso. by vm_compute in He.
Defined.

Lemma guard_sees_fifty_witness :
  EnforceAssetAction 15 "ct-1" (Some (EvaluateAssetGuardrails 15 (deps_of demo_tables))) ≠ Passed ∧ governed_by W_BlockActions demo_tables "ct-1" 15.
Proof.
  destruct (deps_read demo_tables) as [Ha Hw].
  destruct (guard_sees_fifty (deps_of demo_tables) demo_tables _ _ "ct-1" 15 eq_refl Ha eq_refl Hw) as [_ Hall]; [by vm_compute|by vm_compute|].
  split; [by vm_compute|]. destruct (EvaluateAssetGuardrails 15 (deps_of demo_tables) "ct-1" 15) as [g|e] eqn:He; [|exfalso; by vm_compute in He].
  destruct (Hall _ eq_refl) as (_ & _ & _ & Hex). destruct Hex as (Hb & _).
  - intros gid [a Ha' Hg ?|a host Ha' _ _ _ Hh Hg ?].
    + vm_compute in Ha'. injection Ha' as <-. by vm_compute in Hg; subst.
    + assert (gid = "g1") as ->; [|vm_compute; lia]. vm_compute in Ha'. injection Ha' as <-. vm_compute in Hh. injection Hh as <-. by vm_compute in Hg.
  - apply Hb. vm_compute in He. by injection He as <-.
Defined.

Lemma window_changes_authorised_witness :
  let t' := (serve_windows 2 "w2" background None "g1" (DeleteWindow "w1") demo_tables).1 in
  T_windows t' !! "w1" = None ∧ T_windows demo_tables !! "w1" ≠ None ∧ ∀ w, T_windows demo_tables !! "w1" = Some w → W_GroupID w = "g1".
Proof.
  destruct (window_changes_authorised demo_tables 2 "w2" background None "g1" (DeleteWindow "w1") "w1" demo_tables_reachable) as (_ & _ & _ & Hch).
  split; [by vm_compute|]. split; [by vm_compute|]. intros w Hw. destruct Hch as [Hg _]; [by vm_compute|]. rewrite (Hg w) by (by left). by vm_compute.
Defined.
