(* ===== verification/MaintenanceChecks.v ===== *)
(** * What maintenance windows hold back

    The evaluation of [Maintenance] in the places where the hub asks it: the check of a target before a scheduled command
    ([executeScheduleTarget] of [internal/hubapi/worker/schedule_job_handler.go], modelled in [ScheduleRuns]) and the suppression of an alert
    ([isAlertMaintenanceSuppressedContext] of [internal/hubapi/alerting/maintenance_suppression.go], modelled in [AlertEvaluator]), and the
    guard of power actions ([cmd/labtether/power_actions.go], modelled in [PowerControl]). Those components take the answer as an argument; here it is the one that the tables give. *)

From S2P Require Import Prelude GoStrings Schedules ScheduleStore ScheduleRuns ApiKeys JobQueue Maintenance.
From S2P Require AlertEvaluator Alerts AlertInstances PowerControl.

(** ** Scheduled commands *)

Section checks.
Context `{MapRange}.

(** The stores of [d] with a context, on these tables; they may fail. *)
Definition on_tables (d : Deps) (t : tables) : Prop :=
  (∃ GetAsset, D_GetAssetContext d = Some GetAsset ∧ reads_assets GetAsset t) ∧
  is_Some (D_Windows d) ∧ ∃ lookup, D_WindowsContext d = Some lookup ∧ reads_windows lookup t.

(** What [executeScheduleTarget] keeps of the answer: an error, or whether actions are blocked. *)
Definition schedule_guard (answer : result maintenance_error GroupMaintenanceGuardrails) : option bool :=
  match answer with Ok g => Some (GR_BlockActions g) | Err _ => None end.

(** The check [e] of the target [x] asked the evaluation, on the tables [t] and at the time [at_]. *)
Definition asked (t : tables) (at_ : time) (x : string) (e : check_env) : Prop :=
  at_ ≠ zero_time ∧ ∃ d ctx0 ctx1 ctx2 now, on_tables d t ∧
    CE_guardrails e = Some (schedule_guard (EvaluateAssetGuardrailsContext ctx0 ctx1 ctx2 now d x at_)).

Lemma asked_clear t at_ x e :
  trim_space x ≠ "" → asked t at_ x e → CE_guardrails e = Some (Some false) → ¬ governed_by W_BlockActions t (trim_space x) at_.
Proof.
  intros Hx (Hz & d & ctx0 & ctx1 & ctx2 & now & ((GetAsset & HG & Hra) & HW & lookup & HL & Hrl) & Hask) Hclear. rewrite Hask in Hclear.
  destruct (EvaluateAssetGuardrailsContext _ _ _ _ _ _ _) as [g|e'] eqn:Hok; simpl in Hclear; [|done]. injection Hclear as Hb.
  destruct (context_exact _ _ _ _ _ _ _ _ _ _ _ HG Hra HW HL Hrl Hx Hz Hok) as [Hex _]. rewrite Hb in Hex. by rewrite <-Hex.
Qed.

(** ** Alerts *)

(** What the suppression keeps of the answer for a group. The calls may find different contexts. *)
Definition alert_guard (ctx : string → Ctx) (later : time) (d : Deps) (groupID : string) (at_ : time) : option bool :=
  match EvaluateGuardrailsContext (ctx groupID) later d groupID at_ with Ok g => Some (GR_SuppressAlerts g) | Err _ => None end.

Lemma no_group_suppressed {S} (E : AlertEvaluator.env) guard at_ groups (w : AlertEvaluator.world (S := S)) :
  (AlertEvaluator.any_group_suppressed E guard at_ groups w).2 = false → ∀ g, g ∈ groups → guard g at_ = Some false.
Proof.
  revert w. induction groups as [|x groups IH]; intros w Hf g Hg; [by apply not_elem_of_nil in Hg|].
  simpl in Hf. unfold mbind, AlertEvaluator.M_bind, AlertEvaluator.ctx_done, AlertEvaluator.sample, mret, AlertEvaluator.M_ret in Hf. simpl in Hf.
  case_bool_decide; [done|]. destruct (guard x at_) as [[]|] eqn:Hx; [done| |done]. apply elem_of_cons in Hg as [->|Hg]; [done|]. by eapply IH.
Qed.

Lemma suppression_group rule assetGroups g :
  g ≠ "" → g ∈ (Alerts.T_GroupID <$> Alerts.R_Targets rule) ++ assetGroups → AlertEvaluator.suppression_groups rule assetGroups !! g = Some tt.
Proof.
  intros Hne Hg. unfold AlertEvaluator.suppression_groups. set (l := List.filter _ _). assert (Hl : g ∈ l).
  { unfold l. rewrite list_elem_of_In, filter_In, <-list_elem_of_In, negb_true_iff, bool_decide_eq_false. done. }
  destruct (list_to_map _ !! g) as [[]|] eqn:Hm; [done|]. apply not_elem_of_list_to_map_2 in Hm. destruct Hm. apply list_elem_of_fmap.
  exists (g, tt). split; [done|]. apply list_elem_of_fmap. by exists g.
Qed.

Lemma not_suppressed {S} (E : AlertEvaluator.env) guard rule (w : AlertEvaluator.world (S := S)) :
  AlertEvaluator.guardrails_ctx E = Some guard → (AlertEvaluator.isAlertMaintenanceSuppressedContext E rule w).2 = false →
  ∃ assetGroups, AlertEvaluator.target_groups E rule = Some assetGroups ∧ ∃ n, ∀ g,
    g ≠ "" → g ∈ (Alerts.T_GroupID <$> Alerts.R_Targets rule) ++ assetGroups → guard g (AlertEvaluator.e_now E n) = Some false.
Proof.
  intros Hg. unfold AlertEvaluator.isAlertMaintenanceSuppressedContext. rewrite Hg.
  unfold mbind at 1, AlertEvaluator.M_bind at 1, AlertEvaluator.ctx_done, AlertEvaluator.sample, mret, AlertEvaluator.M_ret. simpl.
  unfold mbind at 1, AlertEvaluator.M_bind at 1. simpl. case_bool_decide; [done|]. simpl. destruct (AlertEvaluator.target_groups E rule) as [assetGroups|]; [|done].
  intros Hf. exists assetGroups. split; [done|]. exists (AlertEvaluator.w_tick (fst (AlertEvaluator.ctx_done E w))). intros g Hne Hin.
  pose proof (suppression_group rule assetGroups g Hne Hin) as Hm. case_bool_decide as He; [by rewrite He in Hm|].
  eapply no_group_suppressed in Hf; [exact Hf|]. apply list_elem_of_fmap. exists (g, tt). split; [done|]. by apply elem_of_range.
Qed.

(** ** Power actions *)

(** What [power_actions.go] gets from [EnforceAssetAction]. *)
Definition power_guard (answer : enforcement) : PowerControl.guard :=
  match answer with
  | Passed => PowerControl.GuardPasses
  | EvaluationFailed => PowerControl.GuardFails
  | MaintenanceBlocked _ => PowerControl.GuardBlocks
  end.

Lemma power_guards_maintenance k r maintenance limited : PowerControl.power_guards k r maintenance limited = inr () → maintenance = PowerControl.GuardPasses.
Proof. unfold PowerControl.power_guards. destruct (_ : bool), (_ : bool), (_ : bool), maintenance; done. Qed.

(** ** Theorems *)

(** A power action goes on to its agent only if no open window blocks actions on its asset, with at most fifty open windows of its group. *)
Theorem power_outside_maintenance k r d t GetAsset lookup at_ limited :
  D_GetAsset d = Some GetAsset → reads_assets GetAsset t → D_Windows d = Some lookup → reads_windows lookup t → at_ ≠ zero_time →
  let asset := PowerControl.R_asset r in
  PowerControl.power_guards k r (power_guard (EnforceAssetAction at_ asset (Some (EvaluateAssetGuardrails at_ d)))) limited = inr () →
  trim_space asset ≠ "" → (∀ gid, governs t (trim_space asset) gid → (length (open_windows t gid at_) ≤ 50)%nat) →
  ¬ governed_by W_BlockActions t (trim_space asset) at_.
Proof.
  intros HG Hra HL Hrl Hz asset Hp%power_guards_maintenance Hne Hfew. destruct (EnforceAssetAction _ _ _) eqn:He; [|done..].
  apply enforce_passes in He as (g & Hok & Hb & _). destruct (plain_exact _ _ _ _ _ _ _ _ HG Hra HL Hrl Hne Hz Hok Hfew) as [Hex _].
  rewrite Hb in Hex. by rewrite <-Hex.
Qed.

Section schedules.
Context `{CronParser} `{PayloadCodec} `{KeyHash}.

End schedules.

(** When the evaluator goes on with an alert, no group that its rule names, and no group of an asset it resolves to, has an open window that suppresses
    alerts at the moment it looked; a failing store or an ended context counts as suppression. *)
Theorem alert_outside_maintenance {S} (E : AlertEvaluator.env) ctx later d t rule (w : AlertEvaluator.world (S := S)) :
  on_tables d t → (∀ n, AlertEvaluator.e_now E n ≠ zero_time) → AlertEvaluator.guardrails_ctx E = Some (alert_guard ctx later d) →
  (AlertEvaluator.isAlertMaintenanceSuppressedContext E rule w).2 = false →
  ∃ assetGroups n, AlertEvaluator.target_groups E rule = Some assetGroups ∧
    ∀ g win, g ∈ (Alerts.T_GroupID <$> Alerts.R_Targets rule) ++ assetGroups → trim_space g ≠ "" →
      in_force t (trim_space g) (AlertEvaluator.e_now E n) win → W_SuppressAlerts win = false.
Proof.
  intros (_ & HW & lookup & HL & Hrl) Hz Hguard Hf. destruct (not_suppressed _ _ _ _ Hguard Hf) as (assetGroups & Ht & n & Hn).
  exists assetGroups, n. split; [done|]. intros g win Hg Hne Hwin. assert (Hg0 : g ≠ "") by (intros ->; done). specialize (Hn g Hg0 Hg). unfold alert_guard in Hn.
  destruct (EvaluateGuardrailsContext _ _ _ _ _) as [gr|] eqn:Hok; [|done]. injection Hn as Hs.
  pose proof (group_context_exact _ _ _ _ _ _ _ _ HW HL Hrl Hne (Hz n) Hok) as Hex. destruct (W_SuppressAlerts win) eqn:Hwin'; [|done].
  rewrite (proj2 Hex) in Hs; [done|]. by exists win.
Qed.
End checks.

(** ** Witnesses *)

#[local] Existing Instance demo_codec.
#[local] Existing Instance demo_hash.
#[local] Existing Instance range_in_key_order.
#[local] Existing Instance demo_cron.

Lemma deps_on_tables t : on_tables (deps_of t) t.
Proof.
  destruct (deps_read t) as [Ha Hw]. split; [by exists (λ id, Ok (T_assets t !! id))|]. split; [by eexists|]. by exists (ListGroupMaintenanceWindows t).
Qed.

(** The target of the demonstration of [ScheduleRuns], in a group whose window is over. *)
Definition demo_target : Assets.Asset := {| Assets.A_ID := "asset-1"; Assets.A_Type := ""; Assets.A_Name := ""; Assets.A_Source := ""; Assets.A_GroupID := "g1";
  Assets.A_Status := ""; Assets.A_Platform := ""; Assets.A_Metadata := ∅; Assets.A_CreatedAt := 0; Assets.A_UpdatedAt := 0; Assets.A_LastSeenAt := 0 |}.
Definition demo_over : tables := MkTables (T_groups demo_tables) (T_windows demo_tables) {["asset-1" := demo_target]}.

Lemma demo_asked : asked demo_over (132 * Second) "asset-1" ScheduleRuns.demo_env.
Proof.
  split; [by vm_compute|]. exists (deps_of demo_over), None, None, None, (132 * Second). split; [apply deps_on_tables|]. by vm_compute.
Qed.

Lemma demo_permitted p e : Permitted p "asset-1" e ∈ demo_events → e = ScheduleRuns.demo_env.
Proof.
  unfold demo_events. intros Hin. repeat (apply elem_of_app in Hin as [Hin|Hin]); try (by apply not_elem_of_nil in Hin);
    apply list_elem_of_singleton in Hin; try discriminate; by injection Hin.
Qed.


(** A window of the group that blocks actions and lets alerts through. *)
Definition demo_open : tables := (serve_windows 1 "w1" background None "g1" (PostWindow (Some (demo_body true 1 (1000 * Hour)))) demo_empty).1.
Definition demo_alert_env : AlertEvaluator.env := {|
  AlertEvaluator.e_now := λ _, 100 * Hour; AlertEvaluator.e_id := λ _, ""; AlertEvaluator.e_ctx := λ _, None;
  AlertEvaluator.target_groups := λ _, Some ["g1"]; AlertEvaluator.guardrails := true;
  AlertEvaluator.guardrails_ctx := Some (alert_guard (λ _, None) 0 (deps_of demo_open)); AlertEvaluator.device_name := λ _, None |}.
Definition demo_alert_world : AlertEvaluator.world (S := unit) := AlertEvaluator.MkWorld tt None [] 0.

Definition demo_open_window : MaintenanceWindow := MkWindow "w1" "g1" "upgrade" 1 (1000 * Hour) false true false 1 1.

Lemma demo_open_force : in_force demo_open "g1" (100 * Hour) demo_open_window.
Proof. split; [exists "w1"; by vm_compute|]. split; [done|]. by vm_compute. Qed.

Lemma demo_alert_clock n : AlertEvaluator.e_now demo_alert_env n ≠ zero_time.
Proof. by vm_compute. Qed.

Lemma alert_outside_maintenance_witness :
  in_force demo_open "g1" (100 * Hour) demo_open_window ∧ W_BlockActions demo_open_window = true ∧ W_SuppressAlerts demo_open_window = false.
Proof.
  split; [apply demo_open_force|]. split; [done|].
  destruct (alert_outside_maintenance demo_alert_env (λ _, None) 0 (deps_of demo_open) demo_open AlertEvaluator.demo_rule demo_alert_world)
    as (gs & n & Hgs & Hall); [apply deps_on_tables|apply demo_alert_clock|done|by vm_compute|]. vm_compute in Hgs. injection Hgs as <-.
  apply (Hall "g1" demo_open_window); [by left|by vm_compute|exact demo_open_force].
Defined.

(** A power action on the demonstration's host, before its window opens and while it is open. *)
Definition demo_power : PowerControl.request := PowerControl.MkRequest "owner" None None "host-1" "reboot".

Lemma power_outside_maintenance_witness :
  ¬ governed_by W_BlockActions demo_tables "host-1" 5 ∧
  PowerControl.power_guards 0 demo_power (power_guard (EnforceAssetAction 15 "host-1" (Some (EvaluateAssetGuardrails 15 (deps_of demo_tables))))) false ≠ inr ().
Proof.
  destruct (deps_read demo_tables) as [Ha Hw]. split; [|by vm_compute].
  apply (power_outside_maintenance 0 demo_power (deps_of demo_tables) demo_tables _ _ 5 false eq_refl Ha eq_refl Hw); [by vm_compute|by vm_compute|by vm_compute|].
  assert (Hl : ∀ gid, (length (open_windows demo_tables gid 5) ≤ length (range (T_windows demo_tables)))%nat).
  { intros gid. unfold open_windows, group_windows. rewrite <-(length_fmap snd). etrans; apply List.filter_length_le. }
  intros gid _. etrans; [apply Hl|]. vm_compute. lia.
Defined.
