(* ===== verification/CollectorScope.v ===== *)
(** * Names of assets under a collector

    [internal/assetid/collector_scope.go]: the suffix that binds the id of an asset to the collector that found it, so that two
    appliances can have assets with the same native id. SHA-256 is a parameter, with the length of its digest as its law. *)

From S2P Require Import Prelude GoStrings.

(** ** Digests *)

Class Sha256 := { sha256 : list ascii → list ascii; sha256_length : ∀ l, length (sha256 l) = 32%nat }.

(** [hex.EncodeToString] *)
Definition hex_digit (n : N) : ascii := ascii_of_N (if (n <? 10)%N then 48 + n else 87 + n).
Definition hex_byte (c : ascii) : list ascii := [hex_digit (byte_of c / 16); hex_digit (byte_of c mod 16)].
Definition hex_encode (l : list ascii) : list ascii := l ≫= hex_byte.

(** A byte that [hex.DecodeString] accepts. *)
Definition is_hex (c : ascii) : bool :=
  let n := byte_of c in ((48 <=? n) && (n <=? 57) || (97 <=? n) && (n <=? 102) || (65 <=? n) && (n <=? 70))%N.

(** ** Scopes *)

Definition collectorScopeSeparator : string := "--ltc-".
Definition collectorScopeHexLength : nat := 32.

Fixpoint starts_with (p l : list ascii) : bool :=
  match p, l with
  | [], _ => true
  | a :: p, b :: l => bool_decide (a = b) && starts_with p l
  | _ :: _, [] => false
  end.

(** [strings.LastIndex] of a text that is not empty. *)
Fixpoint last_index (p l : list ascii) : option nat :=
  match l with
  | [] => None
  | _ :: l' => match last_index p l' with
               | Some n => Some (S n)
               | None => if starts_with p l then Some O else None
               end
  end.

(** An even number of hexadecimal digits is what decodes. *)
Definition validCollectorScope (scope : string) : bool :=
  bool_decide (String.length scope = collectorScopeHexLength) && forallb is_hex (chars scope).

Section scope.
Context `{Sha256}.

Definition CollectorScope (collectorID : string) : string :=
  let collectorID := trim_space collectorID in
  if is_empty collectorID then "" else of_chars (hex_encode (take 16 (sha256 (chars collectorID)))).

Definition NativeCollectorAssetID (assetID : string) : string :=
  let assetID := trim_space assetID in
  if is_empty assetID then ""
  else match last_index (chars collectorScopeSeparator) (chars assetID) with
       | None | Some O => assetID
       | Some separatorAt =>
           let scope := of_chars (drop (separatorAt + String.length collectorScopeSeparator) (chars assetID)) in
           if negb (validCollectorScope scope) then assetID else of_chars (take separatorAt (chars assetID))
       end.

Definition ScopeCollectorAssetID (assetID collectorID : string) : string :=
  let assetID := NativeCollectorAssetID assetID in
  let scope := CollectorScope collectorID in
  if is_empty assetID || is_empty scope then assetID else String.append assetID (String.append collectorScopeSeparator scope).

(** [None] for an id without a scope. *)
Definition CollectorScopeFromAssetID (assetID : string) : option string :=
  let assetID := trim_space assetID in
  match last_index (chars collectorScopeSeparator) (chars assetID) with
  | None | Some O => None
  | Some separatorAt =>
      let scope := of_chars (drop (separatorAt + String.length collectorScopeSeparator) (chars assetID)) in
      if negb (validCollectorScope scope) then None else Some scope
  end.

(** ** Facts *)

Lemma hex_digit_hex n : (n < 16)%N → is_hex (hex_digit n) = true.
Proof.
  intros Hn. unfold is_hex, hex_digit, byte_of. rewrite N_ascii_embedding by (destruct (n <? 10)%N; lia).
  destruct (n <? 10)%N eqn:Hlt; [apply N.ltb_lt in Hlt|apply N.ltb_ge in Hlt];
    rewrite !orb_true_iff, !andb_true_iff, !N.leb_le; lia.
Qed.

Lemma hex_encode_hex l c : c ∈ hex_encode l → is_hex c = true.
Proof.
  unfold hex_encode. intros (a & Hc & _)%list_elem_of_bind. unfold hex_byte in Hc.
  assert (Hb : (byte_of a < 256)%N) by apply N_ascii_bounded.
  rewrite !elem_of_cons in Hc. destruct Hc as [->|[->|?%not_elem_of_nil]]; [..|done]; apply hex_digit_hex; [apply N.Div0.div_lt_upper_bound; lia|by apply N.mod_lt].
Qed.

Lemma length_hex_encode l : length (hex_encode l) = (2 * length l)%nat.
Proof. induction l as [|a l IH]; [done|]. unfold hex_encode in *. csimpl. rewrite IH. lia. Qed.

Lemma scope_valid collectorID : trim_space collectorID ≠ "" → validCollectorScope (CollectorScope collectorID) = true.
Proof.
  intros Hne. unfold CollectorScope. rewrite bool_decide_eq_false_2 by done. unfold validCollectorScope. rewrite chars_of_chars, <-length_chars, chars_of_chars.
  rewrite length_hex_encode, length_take, sha256_length, bool_decide_eq_true_2 by done. apply forallb_elem, hex_encode_hex.
Qed.

Lemma last_index_app p l k n : last_index p l = Some n → last_index p (k ++ l) = Some (length k + n)%nat.
Proof. intros Hl. induction k as [|a k IH]; [done|]. csimpl. by rewrite IH. Qed.

Lemma last_index_cons p a l :
  last_index p (a :: l) = match last_index p l with Some n => Some (S n) | None => if starts_with p (a :: l) then Some O else None end.
Proof. done. Qed.

Lemma separator_head a b l :
  a ≠ "-"%char ∨ b ≠ "-"%char → starts_with (chars collectorScopeSeparator) (a :: b :: l) = false.
Proof. intros Hn. simpl. destruct (bool_decide ("-"%char = a)) eqn:Ha, (bool_decide ("-"%char = b)) eqn:Hb; try done. bool_prop. subst. by destruct Hn. Qed.

Lemma hex_not_dash a : is_hex a = true → a ≠ "-"%char.
Proof. by intros Ha ->. Qed.

(** The separator does not start in a text of hexadecimal digits, nor in its own tail. *)
Lemma last_index_hex h : forallb is_hex h = true → last_index (chars collectorScopeSeparator) h = None.
Proof.
  induction h as [|a h IH]; [done|]. cbn [forallb]. intros [Ha Hh]%andb_true_iff. rewrite last_index_cons, IH by done.
  destruct h as [|b h]; [simpl; by destruct (bool_decide _)|]. rewrite separator_head; [done|]. left. by apply hex_not_dash.
Qed.

Lemma last_index_scope h : forallb is_hex h = true → last_index (chars collectorScopeSeparator) (chars collectorScopeSeparator ++ h) = Some O.
Proof.
  intros Hh. change (chars collectorScopeSeparator ++ h) with ("-" :: "-" :: "l" :: "t" :: "c" :: "-" :: h)%char.
  rewrite !last_index_cons, last_index_hex by done. rewrite !(separator_head _ _ _) by (by (left + right)).
  assert (Hd : starts_with (chars collectorScopeSeparator) ("-"%char :: h) = false).
  { destruct h as [|b h]; [done|]. cbn [forallb] in Hh. apply andb_true_iff in Hh as [Hb _]. apply separator_head. right. by apply hex_not_dash. }
  by rewrite Hd.
Qed.

Lemma trimmed_lead s : lead_ok is_space2 is_space3 (chars (trim_space s)) = true.
Proof.
  unfold trim_space. rewrite chars_of_chars. destruct (strip_spec is_space2 is_space3 (chars s)) as [Hok _].
  destruct (trim_right_prefix (trim_left_l (chars s))) as [k Hk]. apply (lead_ok_prefix _ _ _ k). by rewrite <-Hk.
Qed.

Lemma native_prefix assetID : chars (NativeCollectorAssetID assetID) `prefix_of` chars (trim_space assetID).
Proof.
  unfold NativeCollectorAssetID. case_bool_decide; [apply prefix_nil|]. destruct (last_index _ _) as [[|n]|]; [done| |done].
  destruct (negb _); [done|]. rewrite chars_of_chars. apply prefix_take.
Qed.

Lemma native_lead assetID : lead_ok is_space2 is_space3 (chars (NativeCollectorAssetID assetID)) = true.
Proof. destruct (native_prefix assetID) as [k Hk]. apply (lead_ok_prefix _ _ _ k). rewrite <-Hk. apply trimmed_lead. Qed.

(** A separator and a scope after a name leave nothing to trim. *)
Lemma lead_before_dash n l : n ≠ [] → lead_ok is_space2 is_space3 n = true → lead_ok is_space2 is_space3 (n ++ "-"%char :: "-"%char :: l) = true.
Proof.
  assert (H2 : ∀ a, is_space2 a "-"%char = false) by (intros a; apply andb_false_r).
  assert (H3 : ∀ a b, is_space3 a b "-"%char = false) by (intros a b; unfold is_space3; cbn; by rewrite !andb_false_r).
  destruct n as [|a [|b [|c n]]]; [done|..]; intros _; cbn -[is_ascii_space is_space2 is_space3]; rewrite ?H2, ?H3, ?andb_true_r; done.
Qed.

Lemma hex_tail_ok a b c l :
  is_hex a = true → lead_ok (λ b a, is_space2 a b) (λ c b a, is_space3 a b c) (a :: b :: c :: l) = true.
Proof.
  intros Ha. unfold lead_ok, is_hex, is_ascii_space, is_space2, is_space3 in *. set (x := byte_of a) in *.
  rewrite !orb_true_iff, !andb_true_iff, !N.leb_le in Ha.
  repeat match goal with |- context [(?u <=? x)%N] => destruct (N.leb_spec u x) | |- context [(x <=? ?u)%N] => destruct (N.leb_spec x u)
    | |- context [(x =? ?u)%N] => destruct (N.eqb_spec x u) end; try lia; cbn; by rewrite ?andb_false_r, ?orb_false_r.
Qed.

Lemma scoped_trim n h :
  n ≠ [] → lead_ok is_space2 is_space3 n = true → forallb is_hex h = true → (3 ≤ length h)%nat →
  trim_space (of_chars (n ++ chars collectorScopeSeparator ++ h)) = of_chars (n ++ chars collectorScopeSeparator ++ h).
Proof.
  intros Hn Hl Hh Hlen. apply trim_space_id; rewrite chars_of_chars; [by apply lead_before_dash|].
  rewrite app_assoc, rev_app_distr. assert (Hr : ∀ c, c ∈ rev h → is_hex c = true).
  { intros c Hc. rewrite forallb_elem in Hh. apply Hh. rewrite list_elem_of_In, in_rev, <-list_elem_of_In. done. }
  rewrite <-length_rev in Hlen. destruct (rev h) as [|a [|b [|c l]]]; simpl in Hlen; [lia..|]. apply hex_tail_ok, Hr. by left.
Qed.

Lemma valid_scope_chars scope : validCollectorScope scope = true → length (chars scope) = 32%nat ∧ forallb is_hex (chars scope) = true.
Proof. unfold validCollectorScope. rewrite andb_true_iff, bool_decide_eq_true. intros [Hl Hh]. by rewrite length_chars. Qed.

(** What the two readers find in a scoped name. *)
Lemma read_scoped name scope :
  chars name ≠ [] → lead_ok is_space2 is_space3 (chars name) = true → validCollectorScope scope = true →
  let s := String.append name (String.append collectorScopeSeparator scope) in
  NativeCollectorAssetID s = name ∧ CollectorScopeFromAssetID s = Some scope.
Proof.
  intros Hn Hl Hv s. destruct (valid_scope_chars _ Hv) as [Hlen Hhex].
  assert (Hs : chars s = chars name ++ chars collectorScopeSeparator ++ chars scope) by (unfold s; by rewrite !chars_append).
  assert (Htrim : trim_space s = s).
  { rewrite <-(of_chars_chars s), Hs. apply scoped_trim; [done..|lia]. }
  assert (Hidx : last_index (chars collectorScopeSeparator) (chars s) = Some (length (chars name) + 0)%nat).
  { rewrite Hs. apply last_index_app. by apply last_index_scope. }
  assert (Hdrop : drop (length (chars name) + String.length collectorScopeSeparator) (chars s) = chars scope).
  { rewrite Hs, app_assoc, drop_app_length'; [done|]. by rewrite length_app, (length_chars collectorScopeSeparator). }
  assert (Htake : take (length (chars name)) (chars s) = chars name) by (rewrite Hs; by apply take_app_length').
  rewrite Nat.add_0_r in Hidx. unfold NativeCollectorAssetID, CollectorScopeFromAssetID. rewrite Htrim, Hidx.
  rewrite bool_decide_eq_false_2 by (intros ->; by destruct name).
  destruct (length (chars name)) as [|m] eqn:Hm; [by destruct (chars name)|]. rewrite Hdrop, Htake, !of_chars_chars, Hv. done.
Qed.

(** ** Theorems *)

(** C37: the name of an asset under a collector can be read back: a scoped name gives the native name and the
    scope of its collector, scoping it again for any collector is the same as scoping the native name, and two scoped names are equal only for the
    same native name and the same scope. Only the last scope of a name is replaced. *)
Theorem scope_roundtrip assetID collectorID :
  NativeCollectorAssetID assetID ≠ "" → trim_space collectorID ≠ "" →
  let s := ScopeCollectorAssetID assetID collectorID in
  NativeCollectorAssetID s = NativeCollectorAssetID assetID ∧
  CollectorScopeFromAssetID s = Some (CollectorScope collectorID) ∧
  (∀ collectorID', ScopeCollectorAssetID s collectorID' = ScopeCollectorAssetID assetID collectorID') ∧
  (∀ assetID' collectorID', trim_space collectorID' ≠ "" → ScopeCollectorAssetID assetID' collectorID' = s →
     NativeCollectorAssetID assetID' = NativeCollectorAssetID assetID ∧ CollectorScope collectorID' = CollectorScope collectorID).
Proof.
  assert (Hread : ∀ a c, NativeCollectorAssetID a ≠ "" → trim_space c ≠ "" →
    NativeCollectorAssetID (ScopeCollectorAssetID a c) = NativeCollectorAssetID a ∧ CollectorScopeFromAssetID (ScopeCollectorAssetID a c) = Some (CollectorScope c)).
  { intros a c Ha Hc. pose proof (scope_valid c Hc) as Hv. unfold ScopeCollectorAssetID. rewrite bool_decide_eq_false_2 by done.
    rewrite bool_decide_eq_false_2 by (intros He; by rewrite He in Hv). apply read_scoped; [|apply native_lead|done].
    intros He. apply Ha. by rewrite <-(of_chars_chars (NativeCollectorAssetID a)), He. }
  intros Ha Hc s. destruct (Hread _ _ Ha Hc) as [Hn Hf]. fold s in Hn, Hf. do 2 (split; [done|]). split.
  - intros c'. unfold ScopeCollectorAssetID at 1. by rewrite Hn.
  - intros a' c' Hc' Hs. destruct (decide (NativeCollectorAssetID a' = "")) as [He|Ha'].
    + exfalso. apply Ha. rewrite <-Hn, <-Hs. unfold ScopeCollectorAssetID. by rewrite He.
    + destruct (Hread _ _ Ha' Hc') as [Hn' Hf']. rewrite Hs in Hn', Hf'. split; congruence.
Qed.
End scope.

(** ** Witnesses *)

#[local] Program Instance demo_sha : Sha256 := { sha256 l := replicate 32 (hd "0"%char l) }.
Next Obligation. intros l. apply length_replicate. Qed.

Lemma scope_roundtrip_witness :
  ScopeCollectorAssetID " proxmox-vm-101 " "a" = "proxmox-vm-101--ltc-61616161616161616161616161616161" ∧
  NativeCollectorAssetID (ScopeCollectorAssetID " proxmox-vm-101 " "a") = "proxmox-vm-101".
Proof.
  split; [by vm_compute|]. destruct (scope_roundtrip " proxmox-vm-101 " "a") as [Hn _]; [by vm_compute|by vm_compute|]. rewrite Hn. by vm_compute.
Defined.
