(* ===== verification/ConnectorGuard.v ===== *)
(** * Maintenance windows in front of connector actions

    [internal/hubapi/maintenanceguard] ([connector.go], [connector_targets.go], [connector_pbs_targets.go]): an action that goes to an external product
    is checked against the stored assets that own what it acts on. With it the lookups of these owners ([internal/persistence/connector_action_assets.go],
    [pbs_action_assets.go]), the choice of the collector ([internal/hubapi/shared/connector_action.go], [collector_runtime.go]) and the names of resources that the connectors give
    ([internal/connectors/proxmox/connector_utils.go], [client_task_actions.go], [internal/connectors/truenas/action_targets.go]).

    Arguments stand for the resolution of Proxmox destinations, for the catalog of actions of a registered connector, for the JSON list of datastores in
    a PBS request and for [strings.ToLower] beyond ASCII. A store may fail with [StoreError]. *)

From stdpp Require Import pretty.
From S2P Require Import Prelude GoStrings Assets AlertTargets CollectorScope Maintenance.

(** ** Data *)

Record ActionRequest := MkActionRequest { AR_TargetID : string; AR_Params : gmap string string }.

(** [Refused] has the text of the error. *)
Inductive connector_error := Refused (message : string) | StoreError | GuardError (e : maintenance_error).
#[export] Instance connector_error_eq_dec : EqDecision connector_error.
Proof. solve_decision. Defined.

Record Collector := MkCollector { HC_ID : string; HC_AssetID : string; HC_CollectorType : string; HC_Enabled : bool }.

Definition NormalizeCollectorType (value : string) : string :=
  keyword ["ssh"; "winrm"; "api"; "proxmox"; "pbs"; "truenas"; "portainer"; "docker"; "homeassistant"] value.

Record collector_store := MkCollectorStore {
  GetHubCollector : string → result connector_error (option Collector);
  FindEnabledHubCollectorsByType : option (string → result connector_error (list Collector)) }.

Record asset_store := MkStore {
  GetAsset : string → result connector_error (option Asset);
  FindTrueNASActionAssets : option (string → string → string → result connector_error (list Asset));
  FindPBSActionAssets : option (string → string → string → result connector_error (list Asset)) }.

(** [strings.ToLower] of any text, and [json.Unmarshal] into a list of strings. *)
Class GoText := { ToLower : string → string; unmarshal_strings : string → option (list string) }.

(** ** The choice of a collector *)

Definition ResolveEnabledHubCollector (store : option collector_store) (collectorType collectorID : string) : result connector_error Collector :=
  match store with
  | None => Err (Refused "hub collector store unavailable")
  | Some store =>
      let collectorType := NormalizeCollectorType collectorType in
      let inactive := Refused (String.append "collector not active: no active " (String.append collectorType " collector configured")) in
      if is_empty collectorType then Err (Refused "invalid collector type")
      else
        let collectorID := trim_space collectorID in
        selected ←
          (if negb (is_empty collectorID) then
             found ← GetHubCollector store collectorID;
             match found with
             | Some c => if bool_decide (HC_ID c = collectorID) then Ok c else Err inactive
             | None => Err inactive
             end
           else match FindEnabledHubCollectorsByType store with
                | None => Err (Refused "bounded hub collector lookup unavailable")
                | Some lookup =>
                    collectors ← lookup collectorType;
                    match collectors with
                    | [] => Err inactive
                    | [c] => Ok c
                    | _ => Err (Refused (String.append "collector_id is required when multiple active " (String.append collectorType " collectors are configured")))
                    end
                end);
        if is_empty (trim_space (HC_ID selected)) || negb (HC_Enabled selected) then Err inactive
        else if negb (bool_decide (NormalizeCollectorType (HC_CollectorType selected) = collectorType))
        then Err (Refused (String.append "collector is another kind: no active " (String.append collectorType " collector configured")))
        else Ok selected
  end.

Definition owner_of (a : Asset) : string := meta_trim (A_Metadata a) "collector_id".
Definition param (req : ActionRequest) (k : string) : string := meta (AR_Params req) k.

Section guard.
Context `{Sha256} `{GoText} `{MapRange}.

Definition ResolveConnectorActionCollector (assetStore : option asset_store) (collectorStore : option collector_store) (kind : string) (req : ActionRequest) :
    result connector_error (Collector * option Asset) :=
  match assetStore with
  | None => Err (Refused "connector asset inventory unavailable")
  | Some assetStore =>
      let kind := NormalizeCollectorType kind in
      let id := trim_space (param req "collector_id") in
      let target := trim_space (AR_TargetID req) in
      stored ← (if is_empty target then Ok None else GetAsset assetStore target);
      id ← match stored with
           | None => Ok id
           | Some a =>
               if negb (equal_fold (trim_space (A_Source a)) kind) then Err (Refused "action target belongs to a different provider")
               else if negb (is_empty id) && negb (is_empty (owner_of a)) && negb (bool_decide (id = owner_of a))
               then Err (Refused "action collector conflicts with its asset owner")
               else Ok (if is_empty id then owner_of a else id)
           end;
      selected ← ResolveEnabledHubCollector collectorStore kind id;
      match CollectorScopeFromAssetID target with
      | Some scope =>
          if negb (bool_decide (scope = CollectorScope (HC_ID selected))) then Err (Refused "action asset namespace conflicts with its collector")
          else Ok (selected, stored)
      | None =>
          match stored with
          | Some a =>
              if is_empty (owner_of a) && negb (is_empty id) then
                match ResolveEnabledHubCollector collectorStore kind "" with
                | Ok unique => if negb (bool_decide (HC_ID unique = HC_ID selected)) then Err (Refused "legacy action asset ownership is ambiguous") else Ok (selected, stored)
                | Err _ => Err (Refused "legacy action asset ownership is ambiguous")
                end
              else Ok (selected, stored)
          | None => Ok (selected, stored)
          end
      end
  end.

(** ** The lookups of owners, on the stored assets *)

(** The part that the two lookups share: the collector of a row. *)
Definition row_of_collector (collectorID : string) (strict : bool) (a : Asset) : bool :=
  (bool_decide (owner_of a = collectorID) || is_empty (owner_of a)) &&
  (if is_empty (owner_of a) && (strict || negb (is_empty collectorID)) then
     match CollectorScopeFromAssetID (A_ID a) with Some scope => bool_decide (scope = CollectorScope collectorID) | None => true end
   else true).

Definition truenas_row (collectorID assetType vmID : string) (a : Asset) : bool :=
  bool_decide (A_Source a = "truenas") && bool_decide (A_Type a = assetType) &&
  (is_empty vmID || bool_decide (meta (A_Metadata a) "vm_id" = vmID)) && row_of_collector collectorID false a.

Definition find_truenas (assets : gmap string Asset) (collectorID assetType vmID : string) : result connector_error (list Asset) :=
  if negb (bool_decide (assetType = "vm") && negb (is_empty vmID) || bool_decide (assetType = "nas") && is_empty vmID)
  then Err (Refused "invalid TrueNAS action asset lookup")
  else Ok (take 2 (List.filter (truenas_row (trim_space collectorID) assetType vmID) (range assets).*2)).

Definition pbs_row (collector kind store : string) (a : Asset) : bool :=
  bool_decide (A_Source a = "pbs") && bool_decide (A_Type a = kind) &&
  (is_empty store || bool_decide (meta (A_Metadata a) "store" = store)) && row_of_collector collector true a.

Definition find_pbs (assets : gmap string Asset) (collector kind store : string) : result connector_error (list Asset) :=
  if negb (bool_decide (kind = "storage-controller") && is_empty store || bool_decide (kind = "storage-pool") && negb (is_empty store))
  then Err (Refused "invalid PBS action asset lookup")
  else Ok (take 3 (List.filter (pbs_row (trim_space collector) kind store) (range assets).*2)).

(** ** Names of resources *)

(** [normalizeID] and [NodeAssetID] of the Proxmox connector. *)
Definition proxmox_normalizeID (value : string) : string :=
  of_chars (replace_char "/" "-" (replace_char " " "-" (chars (ToLower (trim_space value))))).
Definition NodeAssetID (node : string) : string := String.append "proxmox-node-" (proxmox_normalizeID node).

Definition ActionTargetNode (actionID : string) (params : gmap string string) : string :=
  if bool_decide (actionID ∈ ["vm.migrate"; "ct.migrate"; "vm.clone_from_template"; "ct.clone_from_template"]) then meta_trim params "target_node" else "".

(** [normalizeID] of the TrueNAS connector, with its replacer. *)
Definition truenas_char (c : ascii) : list ascii :=
  if bool_decide (c = "/"%char) || bool_decide (c = "\"%char) then ["-"; "-"]%char
  else if bool_decide (c = " "%char) then ["_"%char] else if bool_decide (c = ":"%char) then ["-"%char] else [c].
Definition truenas_normalizeID (raw : string) : string :=
  let trimmed := trim_space (ToLower raw) in
  if is_empty trimmed then "unknown" else of_chars (chars trimmed ≫= truenas_char).

Definition ResourceAssetID (kind name : string) : string :=
  if is_empty (trim_space name) then ""
  else if bool_decide (kind ∈ ["storage-pool"; "dataset"; "disk"; "service"; "app"; "share-smb"; "share-nfs"])
  then String.append "truenas-" (String.append kind (String.append "-" (truenas_normalizeID name))) else "".

(** What [add] appends. *)
Definition resource_id (kind name : string) : list string := let id := ResourceAssetID kind name in if is_empty id then [] else [id].

(** [name[:strings.LastIndexByte(name, '/')]] *)
Definition parent_dataset (name : string) : option string :=
  match cut_at "/" (rev (chars name)) with Some (_, before) => Some (of_chars (rev before)) | None => None end.

(** A dataset and the datasets above it; the fuel bounds the number of names. *)
Fixpoint dataset_chain (fuel : nat) (name : string) : list string :=
  match fuel with
  | O => []
  | S fuel => if is_empty name then [] else name :: match parent_dataset name with Some up => dataset_chain fuel up | None => [] end
  end.

Definition dataset_ids (name : string) : result connector_error (list string) :=
  let name := trim_space name in
  if (4096 <? Z.of_nat (String.length name)) || (64 <=? Z.of_nat (length (List.filter (λ c, bool_decide (c = "/"%char)) (chars name))))
  then Err (Refused "dataset ownership path exceeds lookup limit")
  else if is_empty name then Ok []
  else
    let pool := match cut_at "/" (chars name) with Some (before, _) => of_chars before | None => name end in
    Ok (resource_id "storage-pool" pool ++ (dataset_chain (S (String.length name)) name ≫= resource_id "dataset")).

Definition paramOrTarget (req : ActionRequest) (paramKey : string) : string :=
  let v := trim_space (param req paramKey) in
  if negb (is_empty v) then v
  else
    let target := NativeCollectorAssetID (AR_TargetID req) in
    let prefix := if bool_decide (paramKey = "pool_name") then "truenas-storage-pool-"
                  else if bool_decide (paramKey = "snapshot_id") then "truenas-snapshot-"
                  else if bool_decide (paramKey = "service") then "truenas-service-"
                  else if bool_decide (paramKey = "vm_id") then "truenas-vm-"
                  else if bool_decide (paramKey = "app_name") then "truenas-app-" else "" in
    trim_space (trim_prefix target prefix).

Definition ActionResourceAssetIDs (action : string) (req : ActionRequest) : result connector_error (list string) :=
  if bool_decide (action = "pool.scrub") then Ok (resource_id "storage-pool" (paramOrTarget req "pool_name"))
  else if bool_decide (action ∈ ["dataset.create"; "dataset.update"; "dataset.delete"; "snapshot.create"]) then dataset_ids (param req "dataset")
  else if bool_decide (action ∈ ["snapshot.delete"; "snapshot.rollback"; "snapshot.clone"]) then
    own ← match cut_at "@" (chars (paramOrTarget req "snapshot_id")) with
          | Some (name, _) => dataset_ids (of_chars name)
          | None => Ok []
          end;
    dst ← (if bool_decide (action = "snapshot.clone") then dataset_ids (param req "dataset_dst") else Ok []);
    Ok (own ++ dst)
  else if bool_decide (action ∈ ["service.start"; "service.stop"; "service.restart"; "service.update"]) then Ok (resource_id "service" (paramOrTarget req "service"))
  else if bool_decide (action ∈ ["app.start"; "app.stop"; "app.restart"]) then Ok (resource_id "app" (paramOrTarget req "app_name"))
  else if bool_decide (action ∈ ["share.create"; "share.update"; "share.delete"]) then
    let kind := param req "share_type" in
    if bool_decide (kind ∈ ["smb"; "nfs"]) then
      Ok (resource_id (String.append "share-" kind) (param req "share_identity") ++ resource_id (String.append "share-" kind) (param req "share_destination"))
    else Ok []
  else if bool_decide (action = "smart.test") then
    let disk := trim_space (param req "disk") in
    Ok (resource_id "disk" (if is_empty disk then trim_prefix (NativeCollectorAssetID (AR_TargetID req)) "truenas-disk-" else disk))
  else Ok [].

(** ** The evaluator *)

(** [ConnectorEvaluator]. [Registry] gives for a registered connector how [modelmap.ResolveActionID] names an action of its catalog on a target. *)
Record ConnectorEvaluator := MkEvaluator {
  E_Assets : option asset_store;
  E_Collectors : option collector_store;
  E_Registry : option (string → option (string → string → string));
  E_EvaluateAsset : option EvaluateAssetFunc;
  E_ResolveProxmoxDestination : option (string → string → gmap string string → result connector_error (string * string * string)) }.

Section evaluator.
Context (e : ConnectorEvaluator).

Definition storedAsset (id : string) : result connector_error (option Asset) :=
  match E_Assets e with None => Err (Refused "asset inventory unavailable") | Some store => GetAsset store (trim_space id) end.

Definition verifyCollectorAsset (a : Asset) (collectorID : string) : result connector_error unit :=
  match CollectorScopeFromAssetID (A_ID a) with
  | Some scope =>
      guard_err (is_empty collectorID || negb (bool_decide (scope = CollectorScope collectorID)) || negb (is_empty (owner_of a)) && negb (bool_decide (owner_of a = collectorID)))
        (Refused "provider asset collector does not match dispatch")
  | None => guard_err (negb (bool_decide (owner_of a = collectorID))) (Refused "legacy provider asset collector is ambiguous")
  end.

Definition collectorParent (id kind : string) : result connector_error string :=
  if is_empty id then Ok ""
  else match E_Collectors e with
       | None => Err (Refused "collector inventory unavailable")
       | Some store =>
           found ← GetHubCollector store id;
           match found with
           | Some c => if negb (HC_Enabled c) || negb (bool_decide (NormalizeCollectorType (HC_CollectorType c) = kind))
                       then Err (Refused "action collector is inactive or mismatched") else Ok (trim_space (HC_AssetID c))
           | None => Err (Refused "action collector is inactive or mismatched")
           end
       end.

(** One id of [nativeAssetTargets]; an old native row of another collector is not an owner. *)
Definition native_target (source native collectorID id : string) : result connector_error (list string) :=
  found ← storedAsset id;
  match found with
  | None => Ok []
  | Some a =>
      if bool_decide (id = native) && negb (is_empty (owner_of a)) && negb (bool_decide (owner_of a = collectorID)) then Ok []
      else
        _ ← guard_err (negb (bool_decide (A_Source a = source))) (Refused "provider asset has a different source");
        _ ← verifyCollectorAsset a collectorID;
        Ok [A_ID a]
  end.

(** A loop that appends what [f] gives, up to its first error. *)
Definition gather {A} (f : A → result connector_error (list string)) (l : list A) : result connector_error (list string) :=
  fold_result (λ acc x, ids ← f x; Ok (acc ++ ids)) [] l.

Definition native_ids (native collectorID : string) : list string :=
  native :: if is_empty collectorID then [] else [ScopeCollectorAssetID native collectorID].

Definition nativeAssetTargets (source native collectorID : string) : result connector_error (list string) :=
  gather (native_target source native collectorID) (native_ids native collectorID).

(** [nativeIDs] of [proxmoxTargets]. *)
Definition proxmox_native (actionID node vmID : string) (params : gmap string string) : list string :=
  let kind := if has_prefix actionID "ct." then "ct" else "vm" in
  let destination := ActionTargetNode actionID params in
  [String.append "proxmox-" (String.append kind (String.append "-" vmID)); NodeAssetID node] ++ (if is_empty destination then [] else [NodeAssetID destination]).

Definition proxmoxTargets (actionID : string) (req : ActionRequest) : result connector_error (list string) :=
  match E_ResolveProxmoxDestination e with
  | None => Err (Refused "Proxmox destination resolver unavailable")
  | Some resolve =>
      '(node, vmID, collectorID) ← resolve actionID (AR_TargetID req) (AR_Params req);
      targets ← gather (λ native, nativeAssetTargets "proxmox" native collectorID) (proxmox_native actionID node vmID (AR_Params req));
      parent ← collectorParent collectorID "proxmox";
      Ok (targets ++ [parent])
  end.

Definition ResolveTrueNASActionCollector (req : ActionRequest) : result connector_error string :=
  match E_Collectors e with
  | Some _ => '(selected, _) ← ResolveConnectorActionCollector (E_Assets e) (E_Collectors e) "truenas" req; Ok (HC_ID selected)
  | None =>
      if negb (is_empty (trim_space (param req "collector_id"))) then Err (Refused "collector inventory unavailable")
      else if bool_decide (is_Some (CollectorScopeFromAssetID (AR_TargetID req))) then Err (Refused "cannot verify scoped asset without collector inventory")
      else if is_empty (trim_space (AR_TargetID req)) then Ok ""
      else
        found ← storedAsset (AR_TargetID req);
        match found with
        | None => Ok ""
        | Some a =>
            _ ← guard_err (negb (bool_decide (A_Source a = "truenas"))) (Refused "action target is not a TrueNAS asset");
            _ ← verifyCollectorAsset a "";
            Ok ""
        end
  end.

(** The virtual machine that an action of a TrueNAS controller names, as the text of its number. *)
Definition truenas_vm (req : ActionRequest) (found : option Asset) : result connector_error string :=
  let vmID := trim_space (param req "vm_id") in
  let vmID := match found with
              | Some a => if is_empty vmID && bool_decide (A_Source a = "truenas") && bool_decide (A_Type a = "vm") then meta_trim (A_Metadata a) "vm_id" else vmID
              | None => vmID
              end in
  let vmID := if is_empty vmID then trim_prefix (NativeCollectorAssetID (AR_TargetID req)) "truenas-vm-" else vmID in
  match Atoi vmID with
  | Some parsed => if parsed <=? 0 then Err (Refused "cannot resolve TrueNAS VM ID") else Ok (pretty parsed)
  | None => Err (Refused "cannot resolve TrueNAS VM ID")
  end.

(** [filters]: the appliance, and the machine of an action on one. *)
Definition truenas_filters (actionID : string) (req : ActionRequest) (found : option Asset) : result connector_error (list (string * string)) :=
  if bool_decide (actionID ∈ ["vm.start"; "vm.stop"; "vm.restart"]) then vm ← truenas_vm req found; Ok [("nas", ""); ("vm", vm)] else Ok [("nas", "")].

(** The rows of one lookup, each with the right collector. *)
Definition verified_rows (verify : Asset → result connector_error unit) (rows : list Asset) : result connector_error (list string) :=
  gather (λ a, _ ← verify a; Ok [A_ID a]) rows.

Definition truenas_matches (lookup : string → string → string → result connector_error (list Asset)) (collectorID : string) (filter : string * string) :
    result connector_error (list string) :=
  matches ← lookup collectorID filter.1 filter.2;
  _ ← guard_err (1 <? Z.of_nat (length matches)) (Refused (String.append "TrueNAS " (String.append filter.1 " inventory is ambiguous")));
  verified_rows (λ a, verifyCollectorAsset a collectorID) matches.

Definition trueNASTargets (actionID : string) (req : ActionRequest) : result connector_error (list string) :=
  found ← storedAsset (AR_TargetID req);
  collectorID ← ResolveTrueNASActionCollector req;
  _ ← match found with
      | Some a => if bool_decide (A_Source a = "truenas") then verifyCollectorAsset a collectorID else Ok tt
      | None => Ok tt
      end;
  filters ← truenas_filters actionID req found;
  match E_Assets e ≫= FindTrueNASActionAssets with
  | None => Err (Refused "TrueNAS provider identity lookup unavailable")
  | Some lookup =>
      targets ← gather (truenas_matches lookup collectorID) filters;
      nativeIDs ← ActionResourceAssetIDs actionID req;
      more ← gather (λ native, nativeAssetTargets "truenas" native collectorID) nativeIDs;
      parent ← collectorParent collectorID "truenas";
      Ok (targets ++ more ++ [parent])
  end.

Definition verifyPBSOwner (a : Asset) (collector : string) : result connector_error unit :=
  if negb (bool_decide (A_Source a = "pbs")) then Err (Refused "PBS asset has a different source")
  else if bool_decide (is_Some (CollectorScopeFromAssetID (A_ID a))) || negb (is_empty (owner_of a)) then verifyCollectorAsset a collector
  else
    selected ← ResolveEnabledHubCollector (E_Collectors e) "pbs" "";
    guard_err (negb (bool_decide (HC_ID selected = collector))) (Refused "legacy PBS asset collector is ambiguous").

(** The datastores that a request names. *)
Definition pbs_stores (action : string) (req : ActionRequest) : result connector_error (list string) :=
  let raw := param req "_pbs_stores" in
  let invalid := Refused "invalid PBS mutation datastore identities" in
  stores ← (if is_empty raw then Ok []
            else if 4096 <? Z.of_nat (String.length raw) then Err invalid
            else match unmarshal_strings raw with
                 | Some l => if 8 <? Z.of_nat (length l) then Err invalid else Ok l
                 | None => Err invalid
                 end);
  let store := trim_space (param req "store") in
  if is_empty store && has_prefix action "datastore." then
    let store := trim_space (trim_prefix (NativeCollectorAssetID (AR_TargetID req)) "pbs-datastore-") in
    if is_empty store then Err (Refused "PBS datastore is required") else Ok (stores ++ [store])
  else Ok (if is_empty store then stores else stores ++ [store]).

(** [filters] without its first element: one filter for each datastore. *)
Fixpoint pbs_filters (seen : gset string) (stores : list string) : result connector_error (list (string * string)) :=
  match stores with
  | [] => Ok []
  | store :: stores =>
      if is_empty store || negb (bool_decide (trim_space store = store)) then Err (Refused "invalid PBS datastore identity")
      else if bool_decide (store ∈ seen) then pbs_filters seen stores
      else rest ← pbs_filters ({[store]} ∪ seen) stores; Ok (("storage-pool", store) :: rest)
  end.

Definition pbs_matches (lookup : string → string → string → result connector_error (list Asset)) (collector : string) (filter : string * string) :
    result connector_error (list string) :=
  rows ← lookup collector filter.1 filter.2;
  _ ← guard_err (2 <? Z.of_nat (length rows)) (Refused (String.append "PBS " (String.append filter.1 " inventory is ambiguous")));
  verified_rows (λ a, verifyPBSOwner a collector) rows.

Definition pbsTargets (action : string) (req : ActionRequest) : result connector_error (list string) :=
  let collector := trim_space (param req "collector_id") in
  if is_empty collector then Err (Refused "PBS mutation requires a resolved collector")
  else
    parent ← collectorParent collector "pbs";
    match E_Assets e ≫= FindPBSActionAssets with
    | None => Err (Refused "PBS identity lookup unavailable")
    | Some lookup =>
        stores ← pbs_stores action req;
        filters ← pbs_filters ∅ stores;
        rows ← gather (pbs_matches lookup collector) (("storage-controller", "") :: filters);
        Ok (parent :: rows)
    end.

(** The loop over the targets of an action. *)
Fixpoint evaluate_targets (evaluate : option EvaluateAssetFunc) (at_ : time) (seen : gset string) (targets : list string) :
    result connector_error GroupMaintenanceGuardrails :=
  match targets with
  | [] => Ok no_guardrails
  | target :: targets =>
      match evaluate with
      | None => evaluate_targets evaluate at_ seen targets
      | Some f =>
          if is_empty target || bool_decide (target ∈ seen) then evaluate_targets evaluate at_ seen targets
          else match f target at_ with
               | Err e => Err (GuardError e)
               | Ok g => if GR_BlockActions g then Ok g else evaluate_targets evaluate at_ ({[target]} ∪ seen) targets
               end
      end
  end.

Definition is_guest_action (actionID : string) : bool := has_prefix actionID "vm." || has_prefix actionID "ct.".

(** The action under the name that its connector gives it. *)
Definition action_name (connectorID actionID : string) (req : ActionRequest) : string :=
  match E_Registry e with
  | Some Get => match Get connectorID with Some name => name actionID (AR_TargetID req) | None => actionID end
  | None => actionID
  end.

(** The assets that own what a connector's action changes. *)
Definition actual_targets (connectorID actionID : string) (req : ActionRequest) : result connector_error (list string) :=
  if bool_decide (connectorID = "proxmox") && is_guest_action actionID then proxmoxTargets actionID req
  else if bool_decide (connectorID = "truenas") then trueNASTargets actionID req
  else if bool_decide (connectorID = "pbs") then pbsTargets actionID req
  else Ok [].

Definition Evaluate (connectorID actionID : string) (req : ActionRequest) (at_ : time) : result connector_error GroupMaintenanceGuardrails :=
  let connectorID := to_lower (trim_space connectorID) in
  let actionID := action_name connectorID actionID req in
  actual ← actual_targets connectorID actionID req;
  evaluate_targets (E_EvaluateAsset e) at_ ∅ (trim_space (AR_TargetID req) :: actual).
End evaluator.

(** ** The guards *)

Abbreviation EvaluateConnectorFunc := (string → string → ActionRequest → time → result connector_error GroupMaintenanceGuardrails).

(** The answer of [EnforceConnectorAction]: pass, 409 or 423. *)
Inductive connector_enforcement := ConnectorPassed | TargetUnverified | ConnectorBlocked (body : locked).

Definition EnforceConnectorAction (now : time) (connectorID actionID : string) (req : ActionRequest) (evaluate : option EvaluateConnectorFunc) : connector_enforcement :=
  match evaluate with
  | None => ConnectorPassed
  | Some evaluate =>
      match evaluate connectorID actionID req now with
      | Err _ => TargetUnverified
      | Ok g => if GR_BlockActions g then ConnectorBlocked (MkLocked blocked_message (GR_GroupID g) (GR_ActiveWindows g)) else ConnectorPassed
      end
  end.

(** The error of a check: the evaluation failed, or [BlockedActionError]. *)
Inductive execution_error := CannotVerify (e : connector_error) | Blocked (Guard : GroupMaintenanceGuardrails).

Definition CheckConnectorExecution (now : time) (connectorID actionID : string) (req : ActionRequest) (evaluate : option EvaluateConnectorFunc) :
    result execution_error unit :=
  match evaluate with
  | None => Ok tt
  | Some evaluate =>
      match evaluate connectorID actionID req now with
      | Err e => Err (CannotVerify e)
      | Ok g => if GR_BlockActions g then Err (Blocked g) else Ok tt
      end
  end.

(** ** Lists of targets *)

Lemma fold_gather {A} (f : A → result connector_error (list string)) l acc out :
  fold_result (λ acc x, ids ← f x; Ok (acc ++ ids)) acc l = Ok out →
  (∀ y, y ∈ acc → y ∈ out) ∧ ∀ x, x ∈ l → ∃ ids, f x = Ok ids ∧ ∀ y, y ∈ ids → y ∈ out.
Proof.
  revert acc. induction l as [|a l IH]; intros acc Hf; simpl in Hf; [injection Hf as <-; split; [done|by intros x ?%not_elem_of_nil]|].
  apply bind_Ok in Hf as (acc' & (ids & Ha & [= <-])%bind_Ok & Hf). apply IH in Hf as [Hacc Hl]. split.
  - intros y Hy. apply Hacc. apply elem_of_app. by left.
  - intros x [->|Hx]%elem_of_cons; [|by apply Hl]. exists ids. split; [done|]. intros y Hy. apply Hacc. apply elem_of_app. by right.
Qed.

Lemma gather_elem {A} (f : A → result connector_error (list string)) l out x :
  gather f l = Ok out → x ∈ l → ∃ ids, f x = Ok ids ∧ ∀ y, y ∈ ids → y ∈ out.
Proof. intros [_ Hl]%fold_gather. apply Hl. Qed.

Lemma evaluate_targets_clear f at_ seen targets g :
  evaluate_targets (Some f) at_ seen targets = Ok g → GR_BlockActions g = false →
  ∀ x, x ∈ targets → x ≠ "" → x ∉ seen → ∃ gx, f x at_ = Ok gx ∧ GR_BlockActions gx = false.
Proof.
  revert seen. induction targets as [|y targets IH]; intros seen He Hg x Hx Hne Hns; [by apply not_elem_of_nil in Hx|]. simpl in He.
  case_bool_decide as Hy; simpl in He; [apply elem_of_cons in Hx as [->|Hx]; [done|by eapply IH]|].
  case_bool_decide as Hs; simpl in He; [apply elem_of_cons in Hx as [->|Hx]; [done|by eapply IH]|].
  destruct (f y at_) as [gy|e] eqn:Hf; [|done]. destruct (GR_BlockActions gy) eqn:Hb; [injection He as <-; congruence|].
  destruct (decide (x = y)) as [->|Hd]; [by exists gy|]. apply elem_of_cons in Hx as [->|Hx]; [done|]. eapply IH; [done..|set_solver].
Qed.

(** A page that is not full has everything. *)
Lemma take_short {A} n (l : list A) : (length (take (S n) l) ≤ n)%nat → take (S n) l = l.
Proof. rewrite length_take. intros Hl. apply take_ge. lia. Qed.

(** ** Owners *)

Section owners.
Context (e : ConnectorEvaluator) (assets : gmap string Asset) (collectors : gmap string Collector).

(** The stores answer from these rows, or fail. *)
Record answers_rows : Prop := MkAnswersRows {
  ar_assets store : E_Assets e = Some store → ∀ id found, GetAsset store id = Ok found → found = assets !! id;
  ar_truenas store lookup : E_Assets e = Some store → FindTrueNASActionAssets store = Some lookup →
    ∀ c kind vm rows, lookup c kind vm = Ok rows → find_truenas assets c kind vm = Ok rows;
  ar_pbs store lookup : E_Assets e = Some store → FindPBSActionAssets store = Some lookup →
    ∀ c kind s rows, lookup c kind s = Ok rows → find_pbs assets c kind s = Ok rows;
  ar_collectors store : E_Collectors e = Some store → ∀ id found, GetHubCollector store id = Ok found → found = collectors !! id }.

(** The stored row [a] stands for the native id of a collector's resource: it has that id, or the id scoped to the collector, and it is not an old row
    of another collector. *)
Definition stands_for (native collectorID : string) (a : Asset) : Prop :=
  ∃ id, id ∈ native_ids native collectorID ∧ assets !! trim_space id = Some a ∧ (id ≠ native ∨ owner_of a = "" ∨ owner_of a = collectorID).

(** The assets whose maintenance windows an action has to respect, by what the action does. *)
Inductive owns (connectorID actionID : string) (req : ActionRequest) : string → Prop :=
| owns_target : owns connectorID actionID req (trim_space (AR_TargetID req))
| owns_guest resolve node vmID c native a :
    connectorID = "proxmox" → is_guest_action actionID = true →
    E_ResolveProxmoxDestination e = Some resolve → resolve actionID (AR_TargetID req) (AR_Params req) = Ok (node, vmID, c) →
    native ∈ proxmox_native actionID node vmID (AR_Params req) → stands_for native c a → owns connectorID actionID req (A_ID a)
| owns_guest_parent resolve node vmID c hc :
    connectorID = "proxmox" → is_guest_action actionID = true →
    E_ResolveProxmoxDestination e = Some resolve → resolve actionID (AR_TargetID req) (AR_Params req) = Ok (node, vmID, c) →
    c ≠ "" → collectors !! c = Some hc → owns connectorID actionID req (trim_space (HC_AssetID hc))
| owns_appliance c found filters kind vm id a :
    connectorID = "truenas" → ResolveTrueNASActionCollector e req = Ok c → storedAsset e (AR_TargetID req) = Ok found →
    truenas_filters actionID req found = Ok filters → (kind, vm) ∈ filters →
    assets !! id = Some a → truenas_row (trim_space c) kind vm a = true → owns connectorID actionID req (A_ID a)
| owns_resource c ids native a :
    connectorID = "truenas" → ResolveTrueNASActionCollector e req = Ok c → ActionResourceAssetIDs actionID req = Ok ids → native ∈ ids →
    stands_for native c a → owns connectorID actionID req (A_ID a)
| owns_appliance_parent c hc :
    connectorID = "truenas" → ResolveTrueNASActionCollector e req = Ok c → c ≠ "" → collectors !! c = Some hc →
    owns connectorID actionID req (trim_space (HC_AssetID hc))
| owns_backup stores filters kind store id a :
    connectorID = "pbs" → pbs_stores actionID req = Ok stores → pbs_filters ∅ stores = Ok filters → (kind, store) ∈ ("storage-controller", "") :: filters →
    assets !! id = Some a → pbs_row (trim_space (param req "collector_id")) kind store a = true → owns connectorID actionID req (A_ID a)
| owns_backup_parent hc :
    connectorID = "pbs" → collectors !! trim_space (param req "collector_id") = Some hc → owns connectorID actionID req (trim_space (HC_AssetID hc)).

Context (Hrows : answers_rows).

Lemma stored_row id found : storedAsset e id = Ok found → found = assets !! trim_space id.
Proof. unfold storedAsset. destruct (E_Assets e) as [store|] eqn:Hs; [|done]. by apply (ar_assets Hrows). Qed.

Lemma native_found source native c out a : nativeAssetTargets e source native c = Ok out → stands_for native c a → A_ID a ∈ out.
Proof.
  intros Hg (id & Hid & Ha & Hown). destruct (gather_elem _ _ _ _ Hg Hid) as (ids & Hf & Hin). apply Hin. unfold native_target in Hf.
  apply bind_Ok in Hf as (found & Hs & Hf). apply stored_row in Hs as ->. rewrite Ha in Hf.
  destruct (_ && _) eqn:Hskip in Hf; [bool_prop; exfalso; destruct Hown as [?|[?|?]]; bool_prop; congruence|]. inv_ok. by left.
Qed.

Lemma parent_found c kind p hc : collectorParent e c kind = Ok p → c ≠ "" → collectors !! c = Some hc → p = trim_space (HC_AssetID hc).
Proof.
  unfold collectorParent. intros Hp Hc Hhc. rewrite bool_decide_eq_false_2 in Hp by done. destruct (E_Collectors e) as [store|] eqn:Hs; [|done].
  apply bind_Ok in Hp as (found & Hf & Hp). apply (ar_collectors Hrows _ Hs) in Hf as ->. rewrite Hhc in Hp. destruct (_ || _); [done|]. by injection Hp as <-.
Qed.

(** Rows that a lookup shows are targets, and a lookup that is not refused shows them all. *)
Lemma rows_found verify rows ids a : verified_rows verify rows = Ok ids → a ∈ rows → A_ID a ∈ ids.
Proof. intros Hv Ha. destruct (gather_elem _ _ _ _ Hv Ha) as (k & Hk & Hin). apply Hin. inv_ok. by left. Qed.

Lemma range_filter (P : Asset → bool) id a : assets !! id = Some a → P a = true → a ∈ List.filter P (range assets).*2.
Proof. intros Ha HP. rewrite list_elem_of_In, filter_In, <-list_elem_of_In, elem_of_range_values. eauto. Qed.

Lemma truenas_found lookup c kind vm ids id a store :
  E_Assets e = Some store → FindTrueNASActionAssets store = Some lookup → truenas_matches lookup c (kind, vm) = Ok ids →
  assets !! id = Some a → truenas_row (trim_space c) kind vm a = true → A_ID a ∈ ids.
Proof.
  intros Hs Hl Hm Ha Hrow. unfold truenas_matches in Hm. apply bind_Ok in Hm as (rows & Hr & Hm). apply bind_Ok in Hm as ([] & Hn%guard_err_Ok & Hm).
  simpl in *. apply (ar_truenas Hrows _ _ Hs Hl) in Hr. unfold find_truenas in Hr. case_if_in Hr; [done|]. injection Hr as <-. bool_prop.
  eapply rows_found; [done|]. rewrite take_short by lia. by eapply range_filter.
Qed.

Lemma pbs_found lookup c kind s ids id a store :
  E_Assets e = Some store → FindPBSActionAssets store = Some lookup → pbs_matches e lookup c (kind, s) = Ok ids →
  assets !! id = Some a → pbs_row (trim_space c) kind s a = true → A_ID a ∈ ids.
Proof.
  intros Hs Hl Hm Ha Hrow. unfold pbs_matches in Hm. apply bind_Ok in Hm as (rows & Hr & Hm). apply bind_Ok in Hm as ([] & Hn%guard_err_Ok & Hm).
  simpl in *. apply (ar_pbs Hrows _ _ Hs Hl) in Hr. unfold find_pbs in Hr. case_if_in Hr; [done|]. injection Hr as <-. bool_prop.
  eapply rows_found; [done|]. rewrite take_short by lia. by eapply range_filter.
Qed.

Lemma proxmox_found actionID req out resolve node vmID c :
  proxmoxTargets e actionID req = Ok out → E_ResolveProxmoxDestination e = Some resolve → resolve actionID (AR_TargetID req) (AR_Params req) = Ok (node, vmID, c) →
  (∀ native a, native ∈ proxmox_native actionID node vmID (AR_Params req) → stands_for native c a → A_ID a ∈ out) ∧
  (∀ hc, c ≠ "" → collectors !! c = Some hc → trim_space (HC_AssetID hc) ∈ out).
Proof.
  intros Ht Hres Hr. unfold proxmoxTargets in Ht. rewrite Hres, Hr in Ht. simpl in Ht. apply bind_Ok in Ht as (targets & Hg & Ht).
  apply bind_Ok in Ht as (parent & Hp & [= <-]). split.
  - intros native a Hn Ha. apply elem_of_app. left. destruct (gather_elem _ _ _ _ Hg Hn) as (ids & Hi & Hin). apply Hin. by eapply native_found.
  - intros hc Hc Hhc. apply elem_of_app. right. rewrite (parent_found _ _ _ _ Hp Hc Hhc). by left.
Qed.

Lemma appliance_found actionID req out c :
  trueNASTargets e actionID req = Ok out → ResolveTrueNASActionCollector e req = Ok c →
  (∀ found filters kind vm id a, storedAsset e (AR_TargetID req) = Ok found → truenas_filters actionID req found = Ok filters → (kind, vm) ∈ filters →
     assets !! id = Some a → truenas_row (trim_space c) kind vm a = true → A_ID a ∈ out) ∧
  (∀ ids native a, ActionResourceAssetIDs actionID req = Ok ids → native ∈ ids → stands_for native c a → A_ID a ∈ out) ∧
  (∀ hc, c ≠ "" → collectors !! c = Some hc → trim_space (HC_AssetID hc) ∈ out).
Proof.
  intros Ht Hc. unfold trueNASTargets in Ht. apply bind_Ok in Ht as (found & Hf & Ht). rewrite Hc in Ht. simpl in Ht.
  apply bind_Ok in Ht as ([] & _ & Ht). apply bind_Ok in Ht as (filters & Hfil & Ht). destruct (E_Assets e) as [store|] eqn:Hs; simpl in Ht; [|done].
  destruct (FindTrueNASActionAssets store) as [lookup|] eqn:Hl; [|done]. apply bind_Ok in Ht as (rows & Hg & Ht). apply bind_Ok in Ht as (ids & Hids & Ht).
  apply bind_Ok in Ht as (more & Hm & Ht). apply bind_Ok in Ht as (parent & Hp & [= <-]). split; [|split].
  - intros found' filters' kind vm id a Hf' Hfil' Hin Ha Hrow. apply elem_of_app. left. rewrite Hf in Hf'. injection Hf' as <-. rewrite Hfil in Hfil'. injection Hfil' as <-.
    destruct (gather_elem _ _ _ _ Hg Hin) as (k & Hk & Hkin). apply Hkin. by eapply truenas_found.
  - intros ids' native a Hi Hn Ha. apply elem_of_app. right. apply elem_of_app. left. rewrite Hids in Hi. injection Hi as <-.
    destruct (gather_elem _ _ _ _ Hm Hn) as (k & Hk & Hkin). apply Hkin. by eapply native_found.
  - intros hc Hne Hhc. apply elem_of_app. right. apply elem_of_app. right. rewrite (parent_found _ _ _ _ Hp Hne Hhc). by left.
Qed.

Lemma backup_found action req out :
  pbsTargets e action req = Ok out →
  (∀ stores filters kind s id a, pbs_stores action req = Ok stores → pbs_filters ∅ stores = Ok filters → (kind, s) ∈ ("storage-controller", "") :: filters →
     assets !! id = Some a → pbs_row (trim_space (param req "collector_id")) kind s a = true → A_ID a ∈ out) ∧
  (∀ hc, collectors !! trim_space (param req "collector_id") = Some hc → trim_space (HC_AssetID hc) ∈ out).
Proof.
  intros Ht. unfold pbsTargets in Ht. case_if_in Ht; [done|]. bool_prop. apply bind_Ok in Ht as (parent & Hp & Ht).
  destruct (E_Assets e) as [store|] eqn:Hs; simpl in Ht; [|done]. destruct (FindPBSActionAssets store) as [lookup|] eqn:Hl; [|done].
  apply bind_Ok in Ht as (stores & Hst & Ht). apply bind_Ok in Ht as (filters & Hfil & Ht). apply bind_Ok in Ht as (rows & Hg & [= <-]).
  split.
  - intros stores' filters' kind s id a Hst' Hfil' Hin Ha Hrow. apply elem_of_cons. right. rewrite Hst in Hst'. injection Hst' as <-. rewrite Hfil in Hfil'. injection Hfil' as <-.
    destruct (gather_elem _ _ _ _ Hg Hin) as (k & Hk & Hkin). apply Hkin.
    eapply pbs_found; [done..|]. by rewrite trim_space_idemp.
  - intros hc Hhc. apply elem_of_cons. left. symmetry. by eapply parent_found.
Qed.

(** Every owner is a target. *)
Lemma owner_found connectorID actionID req actual x :
  actual_targets e connectorID actionID req = Ok actual → owns connectorID actionID req x → x ∈ trim_space (AR_TargetID req) :: actual.
Proof.
  intros Ht Ho. apply elem_of_cons. unfold actual_targets in Ht.
  destruct Ho as [|resolve node vmID c native a -> Hg Hres Hr Hn Ha|resolve node vmID c hc -> Hg Hres Hr Hc Hhc|c found filters kind vm id a -> Hc Hf Hfil Hin Ha Hrow
                 |c ids native a -> Hc Hi Hn Ha|c hc -> Hc Hne Hhc|stores filters kind s id a -> Hst Hfil Hin Ha Hrow|hc -> Hhc]; [by left|right..].
  - rewrite bool_decide_eq_true_2, Hg in Ht by done. destruct (proxmox_found _ _ _ _ _ _ _ Ht Hres Hr) as [Hx _]. by eapply Hx.
  - rewrite bool_decide_eq_true_2, Hg in Ht by done. destruct (proxmox_found _ _ _ _ _ _ _ Ht Hres Hr) as [_ Hx]. by apply Hx.
  - destruct (appliance_found _ _ _ _ Ht Hc) as (Hx & _). by eapply Hx.
  - destruct (appliance_found _ _ _ _ Ht Hc) as (_ & Hx & _). by eapply Hx.
  - destruct (appliance_found _ _ _ _ Ht Hc) as (_ & _ & Hx). by apply Hx.
  - destruct (backup_found _ _ _ Ht) as [Hx _]. by eapply Hx.
  - destruct (backup_found _ _ _ Ht) as [_ Hx]. by apply Hx.
Qed.

Lemma owners_checked connectorID actionID req at_ g f x :
  Evaluate e connectorID actionID req at_ = Ok g → GR_BlockActions g = false → E_EvaluateAsset e = Some f → x ≠ "" →
  owns (to_lower (trim_space connectorID)) (action_name e (to_lower (trim_space connectorID)) actionID req) req x →
  ∃ gx, f x at_ = Ok gx ∧ GR_BlockActions gx = false.
Proof.
  intros He Hg Hf Hne Ho. unfold Evaluate in He. apply bind_Ok in He as (actual & Ha & He). rewrite Hf in He.
  eapply evaluate_targets_clear; [done..|by eapply owner_found|done|set_solver].
Qed.
End owners.
End guard.

(** ** Datasets *)

Lemma parent_dataset_spec name :
  match parent_dataset name with
  | Some up => ∃ r, chars name = chars up ++ "/"%char :: r ∧ "/"%char ∉ r
  | None => "/"%char ∉ chars name
  end.
Proof.
  unfold parent_dataset. destruct (cut_at _ _) as [[r before]|] eqn:Hc.
  - apply cut_at_some in Hc as [Hc Hn]. exists (rev r). rewrite chars_of_chars. split; [|by rewrite list_elem_of_In, <-in_rev, <-list_elem_of_In].
    rewrite <-(rev_involutive (chars name)), Hc, rev_app_distr. simpl. by rewrite <-app_assoc.
  - apply cut_at_none in Hc. by rewrite list_elem_of_In, in_rev, <-list_elem_of_In.
Qed.

(** The text before a slash is that before the last slash, or ends before it. *)
Lemma before_slash {A} (c : A) (up r x r' : list A) : up ++ c :: r = x ++ c :: r' → c ∉ r → x = up ∨ ∃ k, up = x ++ c :: k.
Proof.
  intros He Hn. apply app_eq_app in He as (k & [[-> Hk]|[-> Hk]]).
  - destruct k as [|b k]; [left; by rewrite app_nil_r|]. simpl in Hk. injection Hk as <- _. right. by exists k.
  - destruct k as [|b k]; [left; by rewrite app_nil_r|]. simpl in Hk. injection Hk as <- ->. destruct Hn. apply elem_of_app. right. by left.
Qed.

(** The owners of a dataset are itself and every dataset above it. *)
Lemma dataset_chain_spec fuel name x :
  (String.length name < fuel)%nat → x ∈ dataset_chain fuel name ↔ x ≠ "" ∧ (x = name ∨ ∃ r, chars name = chars x ++ "/"%char :: r).
Proof.
  revert name. induction fuel as [|fuel IH]; intros name Hf; [lia|]. simpl. case_bool_decide as He.
  { subst name. split; [by intros ?%not_elem_of_nil|]. intros [Hx [->|[r Hr]]]; [done|]. by destruct (chars x). }
  rewrite elem_of_cons. pose proof (parent_dataset_spec name) as Hp. destruct (parent_dataset name) as [up|].
  - destruct Hp as (r & Hr & Hn). rewrite IH.
    2: { rewrite <-!length_chars in *. rewrite Hr, length_app in Hf. simpl in Hf. lia. }
    split.
    + intros [->|[Hx [->|[r' Hr']]]]; [by split; [|left]|split; [done|]; right; by exists r|split; [done|]]. right.
      exists (r' ++ "/"%char :: r). by rewrite Hr, Hr', <-app_assoc.
    + intros [Hx [->|[r' Hr']]]; [by left|]. right. split; [done|]. rewrite Hr in Hr'. apply before_slash in Hr' as [Hu|[k Hk]]; [|right; by exists k|done].
      left. by apply chars_inj.
  - split; [intros [->|?%not_elem_of_nil]; [by split; [|left]|done]|]. intros [Hx [->|[r Hr]]]; [by left|]. destruct Hp. rewrite Hr. apply elem_of_app. right. by left.
Qed.

Section theorems.
Context `{Sha256} `{GoText} `{MapRange}.

End theorems.

(** ** Witnesses *)

#[local] Existing Instance demo_sha.
#[local] Existing Instance range_in_key_order.
#[local] Instance demo_text : GoText := { ToLower := to_lower; unmarshal_strings := λ s, Some [s] }.

Definition demo_guest : Asset := {| A_ID := "proxmox-vm-101"; A_Type := "vm"; A_Name := "guest"; A_Source := "proxmox"; A_GroupID := "g1"; A_Status := "online";
  A_Platform := ""; A_Metadata := {["collector_id" := "col-1"]}; A_CreatedAt := 0; A_UpdatedAt := 0; A_LastSeenAt := 0 |}.
Definition demo_guest_tables : tables := MkTables (T_groups demo_tables) (T_windows demo_tables) {["proxmox-vm-101" := demo_guest]}.
Definition demo_collectors : gmap string Collector := {["col-1" := MkCollector "col-1" "pve-host" "proxmox" true]}.

Definition demo_asset_store (assets : gmap string Asset) : asset_store :=
  MkStore (λ id, Ok (assets !! id)) (Some (find_truenas assets)) (Some (find_pbs assets)).
Definition demo_collector_store : collector_store :=
  MkCollectorStore (λ id, Ok (demo_collectors !! id)) (Some (λ _, Ok [])).
Definition demo_evaluator (at_ : time) : ConnectorEvaluator :=
  MkEvaluator (Some (demo_asset_store (T_assets demo_guest_tables))) (Some demo_collector_store) None (Some (EvaluateAssetGuardrails at_ (deps_of demo_guest_tables)))
    (Some (λ _ _ _, Ok ("node1", "101", "col-1"))).
Definition demo_action : ActionRequest := MkActionRequest "node1/101" ∅.

(** The window of the guest's group stops the action while it is open, though the request names the guest by its node and number. *)
Example demo_action_blocked :
  EnforceConnectorAction 15 "proxmox" "vm.stop" demo_action (Some (Evaluate (demo_evaluator 15))) ≠ ConnectorPassed ∧
  EnforceConnectorAction 30 "proxmox" "vm.stop" demo_action (Some (Evaluate (demo_evaluator 30))) = ConnectorPassed.
Proof. split; [by vm_compute|by vm_compute]. Qed.

Lemma demo_answers_rows at_ : answers_rows (demo_evaluator at_) (T_assets demo_guest_tables) demo_collectors.
Proof.
  split.
  - intros store [= <-] id found [= <-]. done.
  - intros store lookup [= <-] [= <-] c kind vm rows Hr. exact Hr.
  - intros store lookup [= <-] [= <-] c kind s rows Hr. exact Hr.
  - intros store [= <-] id found [= <-]. done.
Qed.

Lemma demo_guest_owned at_ : owns (demo_evaluator at_) (T_assets demo_guest_tables) demo_collectors "proxmox" "vm.stop" demo_action "proxmox-vm-101".
Proof.
  apply (owns_guest _ _ _ _ _ _ (λ _ _ _, Ok ("node1", "101", "col-1")) "node1" "101" "col-1" "proxmox-vm-101" demo_guest); [done|by vm_compute|done|done|by left|].
  exists "proxmox-vm-101". split; [by left|]. split; [by vm_compute|]. right. right. by vm_compute.
Qed.

Lemma demo_guest_group gid : governs demo_guest_tables "proxmox-vm-101" gid → gid = "g1".
Proof.
  intros Hg. apply (governs_inv _ _ demo_guest) in Hg; [|by vm_compute]. destruct Hg as [_ [<-|[He _]]]; [by vm_compute|by vm_compute in He].
Qed.

